(* ===== verification/_CoqProject ===== *)
-Q . S2P
Prelude.v
RustStr.v
RustPath.v
PosixFs.v
SocketDirs.v
SocketOrphans.v
SocketLeases.v
SocketRestore.v
StaleSockets.v
StaleSweep.v
FsOverlay.v
BTree.v
PolicyTypes.v
UrlPath.v
DnsName.v
Identifiers.v
SessionDoc.v
SessionPolicy.v
Secrets.v
Telemetry.v
AcceptLoop.v
HttpCredentials.v
ProxyRuntime.v
Registry.v
SessionSystem.v
Reload.v
ManagedSockets.v
FileConfig.v
AsyncIo.v
ConnectRequest.v
TlsIntercept.v
SessionTraffic.v
ControlFrame.v
ControlServer.v
ClientRequest.v
WireForms.v
EndToEnd.v
DaemonConfig.v
ControlStartup.v
StartupQuiet.v
CertAuthority.v
CaLoad.v
CaInit.v
CaTrace.v
Daemon.v
Cli.v
Numerals.v
MeasureSessions.v
MeasureProps.v
RuntimeBench.v
Traced.v
TestTrust.v
BenchTrials.v
JoinSets.v
BenchTrialsProps.v
BenchOwners.v
Examples.v
