(* ===== verification/Prelude.v ===== *)
(** Verification of Baffle, a local forward proxy that gives sandboxed
    workloads policy-controlled network access.

    * The program

    A daemon listens on a Unix control socket. A trusted user creates sessions
    there, each with a policy, inline or from an administrator's TOML file. A
    session has its own Unix data socket, on which a workload sends HTTP
    CONNECT requests. The policy decides per destination: deny, relay an opaque
    tunnel, or intercept TLS, check every request inside and add credentials
    the workload never sees. Sessions are reloaded from their files without
    dropping connections, and ephemeral ones live as long as the connection
    that created them. The crate [baffle-client] holds the policy language and
    the typed client.

    * The files

    Shared:
    - [Prelude], [RustStr], [RustPath], [BTree]: results as a monad, tactics,
      list lemmas; Rust's byte strings, splitting, number and UTF-8 parsing;
      [Path] components, joining and parents; [BTreeMap] order and sorting.
    - [AsyncIo]: byte streams as an interface.
    - [PosixFs]: a file system with inodes, links, modes, owners and listening
      sockets, the system calls the sources make, and the monad [Sys] of
      programs that make them. A world scripts what happens at each call: it
      may fail, and other processes may act before it. [runs] and [ends] are
      about undisturbed runs, [emits] and [guards] about the calls made in any
      environment. [FsOverlay]: framing for programs that add and remove a few
      files.

    Policy (crates/baffle-client/src/lib.rs and policy.rs, src/policy.rs):
    - [PolicyTypes], [UrlPath], [DnsName], [Identifiers], [SessionDoc]: the
      policy types, request paths and patterns, host names, the name
      validators, and validation of a session document. [session_wf] is the
      invariant of accepted policies.
    - [SessionPolicy] (with src/credentials.rs): compiled policies and the
      authorisation decisions, against the abstract specification [allows] on
      the policy as written.

    The data path (src/proxy_runtime/rama):
    - [Telemetry] (src/telemetry.rs), [Secrets] (src/secrets.rs).
    - [HttpCredentials] (http.rs): the layer that sees decrypted requests.
    - [ConnectRequest] (connect.rs): the CONNECT handler with its tunnels.
    - [TlsIntercept] (tls.rs): interception, and the whole client connection.
    - [AcceptLoop] (ingress.rs, [run_proxy]): the listener task and its
      connections as a step relation.
    - [SessionTraffic] (ingress.rs, rama.rs): the loop, the policy generations
      and the connections together.
    - [SocketDirs], [SocketOrphans], [SocketLeases], [SocketRestore]
      (ingress.rs, with src/platform.rs): binding a session socket through
      directory descriptors, the leases on created directories, retirement of
      a listener, and removal.

    Sessions and control (src/control):
    - [ProxyRuntime], [Registry], [SessionSystem], [Reload]
      (src/proxy_runtime/rama.rs, session.rs, reload.rs): one runtime per
      listener, the registry's operations as functions, their interleaving as a
      step relation over critical sections, and reloading under a rely
      condition.
    - [ManagedSockets]: the registry's operations over the file-system model,
      with the sockets they bind, unlink and drop.
    - [FileConfig] (file_config.rs): session files and imports.
    - [ControlFrame], [ControlServer] (server.rs, src/config/protocol.rs):
      frames, and the handler of one connection.
    - [StaleSockets], [StaleSweep], [ControlStartup], [StartupQuiet]
      (server.rs): removing sockets nobody listens on, the start-up lock, and
      binding the control socket.

    The process:
    - [DaemonConfig], [Daemon] (src/config/daemon.rs, src/daemon.rs): settings,
      reading them, and the daemon from its configuration to its shutdown.
    - [CertAuthority], [CaLoad], [CaInit], [CaTrace] (src/ca.rs): loading,
      generating and exporting the certificate authority.
    - [ClientRequest] (crates/baffle-client/src/lib.rs): the typed client.
    - [WireForms] (there, policy.rs and src/config/protocol.rs): the documents
      on the wire as TOML values, as serde's derived code writes and reads them.
    - [EndToEnd]: the typed client and the server's handler on one connection.
    - [Cli] (src/cli.rs, src/main.rs): the commands.

    Tools:
    - [Numerals]: decimal integers, doubles with their fixed-point text and
      total order, Unicode white space and lines.
    - [MeasureSessions], [MeasureProps] (bench/measure_sessions.rs): the session
      measurement tool over the typed client, in a state and error monad.
    - [Traced]: programs that act on a world, may fail and leave a trace, with
      rules for what a run reports, owns and never does.
    - [RuntimeBench], [BenchTrials] (bench/runtime.rs): the settings, sessions,
      HTTP/1.1 client and origin, statistics and rows of the runtime benchmark;
      its trials, with their task sets, and both programs. The credential seed
      is an argument of the model: the source gives none.
    - [JoinSets], [BenchTrialsProps], [BenchOwners]: sets of tasks in general,
      what the programs report, and what they start and stop.
    - [TestTrust] (src/proxy_runtime/test_trust.rs): the upstream anchor of test
      builds.
    - [Examples] (examples, crates/baffle-client/examples): the example programs.

    State is passed explicitly; a fallible operation returns [result], whose
    error constructors stand for the source's messages. What the environment
    decides (file contents, randomness, timeouts, other tasks and processes) is
    an argument. The build is the one for Linux, without the test features
    except in the benchmark and [TestTrust].

    * What is shown

    - Decisions: an intercepted request, a CONNECT and an interception are
      allowed exactly when the policy as written allows them; paths are
      compared by their meaning, and overlapping patterns are found exactly.
    - Accepted policies are well-formed, wherever they come from: an inline
      document, a file with imports, or the client's wire form, which round
      trips.
    - Credentials: what the layer does depends on a secret only for the
      destination whose rule uses it or a request that presents its fake; the
      forwarded request is exactly the authorised one.
    - Connections: admission, answers and tunnels for every fragmentation;
      interception fails closed; whatever a client sends, only an address its
      session allows is contacted ([client_confined]), under the one policy
      generation it was accepted with, across reloads
      ([session_traffic_confined]).
    - Listeners: permits, counters and the generation of each connection are
      exact in every interleaving. A stopped listener takes a bounded number of
      turns, whatever its connections do, and then waits only for clients that
      have not left; an aborted one drops them.
    - Sockets: undisturbed, exactly the sockets of the registered sessions are
      there, and with the last session the file system is as it was found;
      in any environment, only owned sockets, leased directories and checked
      stale sockets are removed, and only under the start-up lock.
    - Sessions: capacity, lifecycle and shutdown as invariants over all
      interleavings; reloads install the whole new policy or change nothing,
      within their bounds.
    - Files: composition of the import graph, termination on cyclic graphs,
      confinement below the configured directory.
    - Control: what a connection can leave behind; requests are understood as
      meant, and every operation of the client returns exactly what the server
      did ([operations_end_to_end]); commands print exactly that.
    - Tools: the measurement tool ends, releases what it acquired on every exit
      and writes each sample once. The benchmark's origin and client agree with
      each other and with the policy it installs; both its programs end in every
      world, stop what they started on every exit, report exactly the rows of
      their tables, and compare counters that are the requests answered. The
      examples reach exactly the destination they name, and release what they
      acquired.
    - Authority: loading succeeds exactly for a checked pair; generation
      installs a pair that loads or leaves no trace when undisturbed, and in
      any environment overwrites nothing and keeps the key private.

    * Bounds and fuel

    [read_head] has one round per byte of the 16 KiB header limit and one more;
    relays one round per byte plus one; [read_exact] one per byte; [compose_file]
    33 levels, one more than the depth limit; the sweep of stale sockets one
    level per directory level, and its theorem asks for the depth of the tree.
    The measurement tool waits 3001 rounds of a millisecond for its three
    seconds, and collects one task per round. A set of the benchmark's tasks is
    polled at most as often as its tasks have steps left, and a step is always
    possible, at the barrier too.
    In each case a theorem or lemma says that this is enough. Counters and
    generations keep their 64-bit width; lengths on the wire keep their 32
    bits; temporary names use a 64-bit counter that wraps around.

    * Interfaces

    Crates the sources only call are classes, with laws where something is
    relied on and an instance that satisfies them: [UrlHost] (url), [Crypto]
    (HMAC and Base64 for fake credentials), the HTTP types of
    [HttpCredentials], [Base64], [Toml], [ControlToml], [RequestToml] and
    [DaemonToml] (the toml crate, whose laws are in [WireToml]), [JsonCodec] (serde_json), [ConfigFs]
    (openat, fstat and read), [TlsStack] (the TLS and relay parts of rama) and
    [CaCrypto] (rcgen, x509-parser and the TLS library's key handles);
    [MeasureWorld] is what the measurement tool sees of the daemon, the clock,
    the files and the scheduler, with [MeasureClock] for the laws of time;
    [BenchWorld] is that of the benchmark (with proxy runtimes, connections,
    origins and the HTTP/2 stack) and [ExampleWorld] that of the examples. They
    have no laws: what is shown of these programs holds in every world. A call
    to a world returns; the sources set no timeouts on these calls, so that a
    peer that stays silent forever blocks the tools where they are.

    * Not modelled

    Argument parsing by clap, the installation of signal handlers, tracing, the
    text of most error messages, the branches for other systems than Linux (of
    [default_control_socket], the socket probe and the listing of a directory),
    forwarding implementations of the I/O traits ([RamaIo]), and tests. The TLS
    handshake, certificate issuing for intercepted hosts, HTTP/2 and the HTTP
    relay are the rama crate's, and the daemon's settings are read from TOML by
    serde's derived code, here the class [DaemonToml]; what the program asks of
    them and does with their outcomes is modelled. *)

From Stdlib Require Export Ascii.
From stdpp Require Export base tactics list gmap strings option numbers sorting.
From stdpp Require Import options.

(** ** Results

    Rust's [Result<A, E>], with the error type first so that [result E] is a
    monad in stdpp's sense: [x ← e; k] is the [?] operator of the source. *)

Inductive result (E A : Type) : Type :=
| Ok (a : A)
| Err (e : E).
Arguments Ok {E A} a.
Arguments Err {E A} e.

#[export] Instance result_ret {E} : MRet (result E) := λ A a, Ok a.
#[export] Instance result_bind {E} : MBind (result E) := λ A B f r,
  match r with Ok a => f a | Err e => Err e end.
#[export] Instance result_fmap {E} : FMap (result E) := λ A B f r,
  match r with Ok a => Ok (f a) | Err e => Err e end.

#[export] Instance result_eq_dec {E A} `{EqDecision E, EqDecision A} :
  EqDecision (result E A).
Proof. solve_decision. Defined.

(** [Result::is_ok], [Result::map_err] and [Option::ok_or]. *)
Definition is_ok {E A} (r : result E A) : bool :=
  match r with Ok _ => true | Err _ => false end.

Definition map_err {E F A} (f : E → F) (r : result E A) : result F A :=
  match r with Ok a => Ok a | Err e => Err (f e) end.

Definition ok_or {E A} (o : option A) (e : E) : result E A :=
  match o with Some a => Ok a | None => Err e end.

(** [Option::transpose] on an option of a result. *)
Definition transpose {E A} (o : option (result E A)) : result E (option A) :=
  match o with
  | None => Ok None
  | Some (Ok a) => Ok (Some a)
  | Some (Err e) => Err e
  end.

Section result_lemmas.
Context {E A B : Type}.

Lemma bind_Ok_inv (r : result E A) (f : A → result E B) b :
  r ≫= f = Ok b ↔ ∃ a, r = Ok a ∧ f a = Ok b.
Proof. destruct r; cbn; naive_solver. Qed.

Lemma bind_Err_inv (r : result E A) (f : A → result E B) e :
  r ≫= f = Err e ↔ r = Err e ∨ ∃ a, r = Ok a ∧ f a = Err e.
Proof. destruct r; cbn; naive_solver. Qed.

Lemma fmap_Ok_inv (r : result E A) (f : A → B) b :
  f <$> r = Ok b ↔ ∃ a, r = Ok a ∧ f a = b.
Proof. destruct r; cbn; naive_solver. Qed.

Lemma map_err_Ok_inv {F} (r : result E A) (f : E → F) a :
  map_err f r = Ok a ↔ r = Ok a.
Proof. destruct r; cbn; naive_solver. Qed.

Lemma ok_or_Ok_inv (o : option A) (e : E) a : ok_or o e = Ok a ↔ o = Some a.
Proof. destruct o; cbn; naive_solver. Qed.

Lemma is_ok_true (r : result E A) : is_ok r = true ↔ ∃ a, r = Ok a.
Proof. destruct r; cbn; naive_solver. Qed.
End result_lemmas.

(** ** Automation

    [res_inv] takes apart every hypothesis saying that a composed fallible
    computation succeeded; [bool_prop] turns boolean tests into propositions. *)

Create HintDb baffle.

Ltac bool_prop :=
  repeat match goal with
  | H : (_ || _) = true |- _ => apply orb_true_iff in H
  | H : (_ || _) = false |- _ => apply orb_false_iff in H as [? ?]
  | H : (_ && _) = true |- _ => apply andb_true_iff in H as [? ?]
  | H : (_ && _) = false |- _ => apply andb_false_iff in H
  | H : negb _ = true |- _ => apply negb_true_iff in H
  | H : negb _ = false |- _ => apply negb_false_iff in H
  | H : bool_decide _ = true |- _ => apply bool_decide_eq_true in H
  | H : bool_decide _ = false |- _ => apply bool_decide_eq_false in H
  end.

Ltac res_inv_step :=
  match goal with
  | H : _ ≫= _ = Ok _ |- _ => apply bind_Ok_inv in H as (? & ? & ?)
  | H : _ <$> _ = Ok _ |- _ => apply fmap_Ok_inv in H as (? & ? & ?)
  | H : map_err _ _ = Ok _ |- _ => apply map_err_Ok_inv in H
  | H : ok_or _ _ = Ok _ |- _ => apply ok_or_Ok_inv in H
  | H : Ok _ = Ok _ |- _ => injection H as H
  | H : Err _ = Ok _ |- _ => discriminate H
  | H : Ok _ = Err _ |- _ => discriminate H
  | H : (if ?b then _ else _) = Ok _ |- _ => destruct b eqn:?
  end.
Ltac res_inv := repeat (res_inv_step; simplify_eq).

(** ** Lists *)

Lemma list_bind_singleton {A B} (f : A → B) l : l ≫= (λ a, [f a]) = f <$> l.
Proof. induction l; cbn; congruence. Qed.
Lemma list_bind_nothing {A B} (l : list A) : l ≫= (λ _, []) = ([] : list B).
Proof. by induction l. Qed.

(** [HashMap::from_iter]: a later pair replaces an earlier one. *)
Definition map_collect {K V} `{Countable K} (l : list (K * V)) : gmap K V :=
  foldl (λ m kv, <[kv.1 := kv.2]> m) ∅ l.
Arguments map_collect : simpl never.

Section map_collect.
Context {K V : Type} `{Countable K}.

Lemma map_collect_app (l : list (K * V)) m k :
  foldl (λ (m : gmap K V) kv, <[kv.1 := kv.2]> m) m l !! k =
  match map_collect l !! k with Some v => Some v | None => m !! k end.
Proof.
  unfold map_collect. revert m.
  induction l as [|[k' v'] l IH] using rev_ind; intros m; cbn.
  { by rewrite lookup_empty. }
  rewrite !foldl_app; cbn. destruct (decide (k = k')) as [->|Hne].
  - by rewrite !lookup_insert_eq.
  - by rewrite !lookup_insert_ne, IH by done.
Qed.

Lemma map_collect_cons k v (l : list (K * V)) :
  map_collect ((k, v) :: l) !! k =
  match map_collect l !! k with Some w => Some w | None => Some v end.
Proof.
  change (map_collect ((k, v) :: l)) with
    (foldl (λ (m : gmap K V) kv, <[kv.1 := kv.2]> m) (<[k := v]> ∅) l).
  by rewrite map_collect_app, lookup_insert_eq.
Qed.

Lemma map_collect_cons_ne k k' v (l : list (K * V)) :
  k ≠ k' → map_collect ((k', v) :: l) !! k = map_collect l !! k.
Proof.
  intros Hne. change (map_collect ((k', v) :: l)) with
    (foldl (λ (m : gmap K V) kv, <[kv.1 := kv.2]> m) (<[k' := v]> ∅) l).
  rewrite map_collect_app, lookup_insert_ne, lookup_empty by done.
  by destruct (map_collect l !! k).
Qed.

Lemma map_collect_None (l : list (K * V)) k :
  map_collect l !! k = None ↔ k ∉ l.*1.
Proof.
  induction l as [|[k' v'] l IH]; cbn.
  { change (map_collect []) with (∅ : gmap K V). rewrite lookup_empty. set_solver. }
  destruct (decide (k = k')) as [->|Hne].
  - rewrite map_collect_cons. destruct (map_collect l !! k'); set_solver.
  - rewrite map_collect_cons_ne, IH by done. set_solver.
Qed.

Lemma map_collect_Some (l : list (K * V)) k v :
  NoDup l.*1 → map_collect l !! k = Some v ↔ (k, v) ∈ l.
Proof.
  induction l as [|[k' v'] l IH]; cbn; intros Hnd.
  { change (map_collect []) with (∅ : gmap K V). rewrite lookup_empty. set_solver. }
  apply NoDup_cons in Hnd as [Hk Hnd]. destruct (decide (k = k')) as [->|Hne].
  - rewrite map_collect_cons, (proj2 (map_collect_None l k')) by done.
    rewrite elem_of_cons. split; [intros [= ->]; by left|].
    intros [[= ->]|Hin]; [done|].
    destruct Hk. apply list_elem_of_fmap. by exists (k', v).
  - rewrite map_collect_cons_ne, IH, elem_of_cons by done. naive_solver.
Qed.
End map_collect.

(** [existsb] and [forallb] as propositions over stdpp membership. *)
Lemma existsb_elem {A} (f : A → bool) l :
  existsb f l = true ↔ ∃ x, x ∈ l ∧ f x = true.
Proof. rewrite existsb_exists. by setoid_rewrite list_elem_of_In. Qed.

Lemma existsb_elem_false {A} (f : A → bool) l :
  existsb f l = false ↔ ∀ x, x ∈ l → f x = false.
Proof.
  rewrite <-not_true_iff_false, existsb_elem. split.
  - intros Hn x Hx. destruct (f x) eqn:?; naive_solver.
  - intros Hn (x & Hx & Hf). rewrite Hn in Hf; done.
Qed.

Lemma forallb_elem {A} (f : A → bool) l :
  forallb f l = true ↔ ∀ x, x ∈ l → f x = true.
Proof. rewrite forallb_forall. by setoid_rewrite list_elem_of_In. Qed.

Lemma forallb_elem_false {A} (f : A → bool) l :
  forallb f l = false ↔ ∃ x, x ∈ l ∧ f x = false.
Proof.
  induction l as [|y l IH]; cbn; [set_solver|].
  rewrite andb_false_iff, IH. set_solver.
Qed.

(** A list whose projections are pairwise distinct determines its members. *)
Lemma NoDup_fmap_inj_elem {A B} (f : A → B) l x y :
  NoDup (f <$> l) → x ∈ l → y ∈ l → f x = f y → x = y.
Proof.
  intros Hnd Hx Hy Hf. induction l as [|z l IH]; [set_solver|].
  cbn in Hnd. apply NoDup_cons in Hnd as [Hz Hnd].
  apply elem_of_cons in Hx as [->|Hx], Hy as [->|Hy]; auto;
    exfalso; apply Hz; [rewrite Hf|rewrite <-Hf]; by apply list_elem_of_fmap_2.
Qed.
