(* ===== verification/RustStr.v ===== *)
(** Rust strings and bytes.

    A [&str], a [String] and a [&[u8]] are lists of bytes ([ascii] is the
    8-bit byte type of the Standard Library). This file models the functions
    of [core::str], [u8] and [char] that the program calls, each executable,
    with the lemmas the components share. Every separator the program splits
    on is an ASCII character, and an ASCII byte never occurs inside a
    multi-byte UTF-8 sequence, so the byte-wise functions below agree with
    the [char]-wise ones of the source. *)

From S2P Require Import Prelude.
From stdpp Require Import options.

Abbreviation str := (list ascii).

(** String literals: [lit "abc"] is the byte string of the literal. *)
Definition lit (s : string) : str := String.list_ascii_of_string s.
Arguments lit s%_string.

Local Open Scope char_scope.

(** ** Bytes *)

(** The value of a byte, as [u8 as u32]. *)
Definition code (c : ascii) : N := N_of_ascii c.

Definition in_range (lo hi : N) (c : ascii) : bool :=
  (lo <=? code c)%N && (code c <=? hi)%N.

Definition is_ascii_byte (c : ascii) : bool := (code c <? 128)%N.
Definition is_ascii_digit (c : ascii) : bool := in_range 48 57 c.
Definition is_ascii_upper (c : ascii) : bool := in_range 65 90 c.
Definition is_ascii_lower (c : ascii) : bool := in_range 97 122 c.
Definition is_ascii_alphanumeric (c : ascii) : bool :=
  is_ascii_digit c || is_ascii_upper c || is_ascii_lower c.
Definition is_ascii_control (c : ascii) : bool :=
  (code c <? 32)%N || (code c =? 127)%N.
(** [u8::is_ascii_whitespace]: space, tab, LF, FF and CR (not VT). *)
Definition is_ascii_whitespace (c : ascii) : bool :=
  bool_decide (c ∈ [" "; "009"; "010"; "012"; "013"]).
(** The ASCII part of Unicode [White_Space], which [str::trim] removes. *)
Definition is_trim_space (c : ascii) : bool :=
  in_range 9 13 c || bool_decide (c = " ").

Definition ascii_lower (c : ascii) : ascii :=
  if is_ascii_upper c then ascii_of_N (code c + 32) else c.
Definition ascii_upper (c : ascii) : ascii :=
  if is_ascii_lower c then ascii_of_N (code c - 32) else c.

(** Every byte, to decide statements about one byte by evaluation. *)
Definition all_bytes : list ascii := ascii_of_nat <$> seq 0 256.

Lemma all_bytes_complete c : c ∈ all_bytes.
Proof.
  unfold all_bytes. apply list_elem_of_fmap. exists (nat_of_ascii c). split.
  - by rewrite ascii_nat_embedding.
  - apply elem_of_seq. pose proof (nat_ascii_bounded c). lia.
Qed.

Lemma byte_cases (P : ascii → Prop) `{∀ c, Decision (P c)} :
  forallb (λ c, bool_decide (P c)) all_bytes = true → ∀ c, P c.
Proof.
  intros Hall c. rewrite forallb_elem in Hall.
  apply (bool_decide_eq_true_1 _), Hall, all_bytes_complete.
Qed.

(** [byte_decide c] proves a decidable fact about the byte [c] (hypotheses
    about [c] reverted first) by evaluating it on the 256 bytes. *)
Ltac byte_decide c :=
  generalize c; match goal with |- ∀ x, @?P x => apply (byte_cases P) end;
  vm_compute; reflexivity.

(** ** Whole strings *)

Definition is_ascii (s : str) : bool := forallb is_ascii_byte s.
Definition to_ascii_lowercase (s : str) : str := ascii_lower <$> s.
Definition to_ascii_uppercase (s : str) : str := ascii_upper <$> s.
Definition eq_ignore_ascii_case (a b : str) : bool :=
  bool_decide (to_ascii_lowercase a = to_ascii_lowercase b).

Definition str_eqb (a b : str) : bool := bool_decide (a = b).
Definition contains_char (c : ascii) (s : str) : bool := bool_decide (c ∈ s).
(** [s.contains(['?', '#'])]: one of the listed characters occurs. *)
Definition contains_any (cs s : str) : bool :=
  existsb (λ c, contains_char c cs) s.
Definition starts_with (p s : str) : bool := bool_decide (p `prefix_of` s).
Definition ends_with (p s : str) : bool := bool_decide (p `suffix_of` s).

Fixpoint contains_str (p s : str) : bool :=
  starts_with p s || match s with [] => false | _ :: s' => contains_str p s' end.

Definition strip_suffix (p s : str) : option str :=
  if ends_with p s then Some (take (length s - length p) s) else None.
Definition strip_prefix (p s : str) : option str :=
  if starts_with p s then Some (drop (length p) s) else None.

(** [str::split] on one character: at least one piece, the separators lost. *)
Fixpoint split (d : ascii) (s : str) : list str :=
  match s with
  | [] => [[]]
  | c :: s' =>
      if decide (c = d) then [] :: split d s'
      else match split d s' with
           | [] => [[c]]
           | w :: ws => (c :: w) :: ws
           end
  end.

(** [slice::join]. *)
Fixpoint join (d : str) (l : list str) : str :=
  match l with
  | [] => []
  | [w] => w
  | w :: ws => w ++ d ++ join d ws
  end.

Fixpoint split_once (d : ascii) (s : str) : option (str * str) :=
  match s with
  | [] => None
  | c :: s' =>
      if decide (c = d) then Some ([], s')
      else match split_once d s' with
           | Some (a, b) => Some (c :: a, b)
           | None => None
           end
  end.

Definition rsplit_once (d : ascii) (s : str) : option (str * str) :=
  match split_once d (reverse s) with
  | Some (b, a) => Some (reverse a, reverse b)
  | None => None
  end.

(** [str::split] on the two-character separator CR LF. *)
Fixpoint split_crlf (s : str) : list str :=
  match s with
  | [] => [[]]
  | c :: s' =>
      match s' with
      | c' :: s'' =>
          if decide (c = "013" ∧ c' = "010") then [] :: split_crlf s''
          else match split_crlf s' with
               | [] => [[c]]
               | w :: ws => (c :: w) :: ws
               end
      | [] => [[c]]
      end
  end.

(** [str::split_ascii_whitespace]: the maximal runs of other bytes. *)
Fixpoint split_ws_go (cur : str) (s : str) : list str :=
  match s with
  | [] => match cur with [] => [] | _ => [reverse cur] end
  | c :: s' =>
      if is_ascii_whitespace c
      then match cur with [] => split_ws_go [] s' | _ => reverse cur :: split_ws_go [] s' end
      else split_ws_go (c :: cur) s'
  end.
Definition split_ascii_whitespace (s : str) : list str := split_ws_go [] s.

Fixpoint trim_start (s : str) : str :=
  match s with
  | c :: s' => if is_trim_space c then trim_start s' else s
  | [] => []
  end.
Definition trim (s : str) : str := reverse (trim_start (reverse (trim_start s))).

(** ** Integers in decimal

    [str::parse::<u16>] (and [u8] in the same shape): an optional leading
    [+], at least one digit, no other character, no overflow. *)
Definition digit_value (c : ascii) : option N :=
  if is_ascii_digit c then Some (code c - 48)%N else None.

Fixpoint parse_digits (max acc : N) (s : str) : option N :=
  match s with
  | [] => Some acc
  | c :: s' =>
      match digit_value c with
      | None => None
      | Some d =>
          let acc' := (acc * 10 + d)%N in
          if (max <? acc')%N then None else parse_digits max acc' s'
      end
  end.

Definition parse_uint (max : N) (s : str) : option N :=
  let digits := match s with c :: s' => if decide (c = "+") then s' else s | [] => s end in
  match digits with [] => None | _ => parse_digits max 0 digits end.

Definition parse_u16 : str → option N := parse_uint 65535.

(** ** UTF-8

    [str::from_utf8] accepts exactly the well-formed sequences of the Unicode
    standard's table 3-7; the decoder returns the scalar values. *)
Definition cont (c : ascii) : bool := in_range 128 191 c.
Definition low6 (c : ascii) : N := (code c - 128)%N.

Fixpoint utf8_decode (s : str) : option (list N) :=
  match s with
  | [] => Some []
  | c :: s1 =>
      if is_ascii_byte c then cons (code c) <$> utf8_decode s1
      else match s1 with
      | [] => None
      | c1 :: s2 =>
          if in_range 194 223 c then
            if cont c1 then cons ((code c - 192) * 64 + low6 c1)%N <$> utf8_decode s2
            else None
          else match s2 with
          | [] => None
          | c2 :: s3 =>
              if in_range 224 239 c then
                if cont c1 && cont c2
                   && (if (code c =? 224)%N then (160 <=? code c1)%N else true)
                   && (if (code c =? 237)%N then (code c1 <=? 159)%N else true)
                then cons ((code c - 224) * 4096 + low6 c1 * 64 + low6 c2)%N
                       <$> utf8_decode s3
                else None
              else match s3 with
              | [] => None
              | c3 :: s4 =>
                  if in_range 240 244 c && cont c1 && cont c2 && cont c3
                     && (if (code c =? 240)%N then (144 <=? code c1)%N else true)
                     && (if (code c =? 244)%N then (code c1 <=? 143)%N else true)
                  then cons ((code c - 240) * 262144 + low6 c1 * 4096
                             + low6 c2 * 64 + low6 c3)%N <$> utf8_decode s4
                  else None
              end
          end
      end
  end.

(** [str::from_utf8(bytes).is_ok()]. *)
Definition from_utf8 (s : str) : bool := bool_decide (is_Some (utf8_decode s)).

(** [s.chars().any(char::is_control)]: general category Cc, that is
    U+0000..U+001F and U+007F..U+009F. *)
Definition is_control (n : N) : bool := (n <? 32)%N || ((127 <=? n)%N && (n <=? 159)%N).
(** A [&str] is always well-formed; on other bytes the test answers true. *)
Definition has_control_char (s : str) : bool :=
  match utf8_decode s with Some cs => existsb is_control cs | None => true end.

(** [bool_prop] that also reads the string tests as propositions. *)
Ltac str_prop := unfold str_eqb, contains_char, starts_with, ends_with in *; bool_prop.

(** ** Lemmas *)

Lemma code_bound c : (code c < 256)%N.
Proof. apply N_ascii_bounded. Qed.

Lemma code_inj c d : code c = code d → c = d.
Proof. intros H. rewrite <-(ascii_N_embedding c), <-(ascii_N_embedding d). by f_equal. Qed.

Lemma code_of_N n : (n < 256)%N → code (ascii_of_N n) = n.
Proof. intros. by apply N_ascii_embedding. Qed.

Lemma ascii_lower_idem c : ascii_lower (ascii_lower c) = ascii_lower c.
Proof. byte_decide c. Qed.

Lemma to_ascii_lowercase_idem s :
  to_ascii_lowercase (to_ascii_lowercase s) = to_ascii_lowercase s.
Proof.
  unfold to_ascii_lowercase. rewrite <-list_fmap_compose.
  apply list_fmap_ext. intros i c _. apply ascii_lower_idem.
Qed.

Lemma to_ascii_lowercase_app a b :
  to_ascii_lowercase (a ++ b) = to_ascii_lowercase a ++ to_ascii_lowercase b.
Proof. apply fmap_app. Qed.

Lemma length_to_ascii_lowercase s : length (to_ascii_lowercase s) = length s.
Proof. apply length_fmap. Qed.

Lemma elem_of_lowercase c s :
  c ∈ to_ascii_lowercase s ↔ ∃ d, d ∈ s ∧ c = ascii_lower d.
Proof. unfold to_ascii_lowercase. rewrite list_elem_of_fmap. naive_solver. Qed.

(** A character that is not a lowercase letter is in the lowered string only
    if it is in the string. *)
Lemma lowercase_elem_other c s :
  is_ascii_lower c = false → c ∈ to_ascii_lowercase s → c ∈ s.
Proof.
  intros Hc (d & Hd & ->)%elem_of_lowercase. unfold ascii_lower in *.
  destruct (is_ascii_upper d) eqn:Hu; [|done].
  exfalso. assert (is_ascii_lower (ascii_of_N (code d + 32)) = true); [|congruence].
  clear Hc. revert Hu. byte_decide d.
Qed.

Lemma str_eqb_true a b : str_eqb a b = true ↔ a = b.
Proof. apply bool_decide_eq_true. Qed.

Lemma contains_char_true c s : contains_char c s = true ↔ c ∈ s.
Proof. apply bool_decide_eq_true. Qed.
Lemma contains_char_false c s : contains_char c s = false ↔ c ∉ s.
Proof. apply bool_decide_eq_false. Qed.

Lemma contains_any_false cs s :
  contains_any cs s = false ↔ ∀ c, c ∈ s → c ∉ cs.
Proof.
  unfold contains_any. rewrite existsb_elem_false.
  by setoid_rewrite contains_char_false.
Qed.

Lemma starts_with_true p s : starts_with p s = true ↔ ∃ k, s = p ++ k.
Proof. apply bool_decide_eq_true. Qed.
Lemma ends_with_true p s : ends_with p s = true ↔ ∃ k, s = k ++ p.
Proof. apply bool_decide_eq_true. Qed.

Lemma contains_str_true p s : contains_str p s = true ↔ ∃ a b, s = a ++ p ++ b.
Proof.
  induction s as [|c s IH]; cbn; rewrite orb_true_iff, starts_with_true.
  - split.
    + intros [[k Hk]|?]; [|done]. by exists [], k.
    + intros (a&b&Hab). left. exists b. destruct a, p, b; by simplify_eq/=.
  - rewrite IH. split.
    + intros [[k Hk]|(a&b&->)]; [by exists [], k|by exists (c :: a), b].
    + intros ([|c' a]&b&Hb); simplify_list_eq; [left; eauto|right; eauto].
Qed.

Lemma strip_suffix_Some p s k : strip_suffix p s = Some k ↔ s = k ++ p.
Proof.
  unfold strip_suffix. destruct (ends_with p s) eqn:He.
  - apply ends_with_true in He as [k' ->].
    rewrite length_app, Nat.add_sub, take_app_length. split.
    + by intros [= ->].
    + intros Heq. f_equal. by apply (inj (.++ p)) in Heq.
  - split; [done|]. intros ->. apply not_true_iff_false in He.
    destruct He. apply ends_with_true. eauto.
Qed.

Lemma strip_suffix_None p s : strip_suffix p s = None ↔ ends_with p s = false.
Proof. unfold strip_suffix. by destruct (ends_with p s). Qed.

Lemma strip_prefix_Some p s k : strip_prefix p s = Some k ↔ s = p ++ k.
Proof.
  unfold strip_prefix. destruct (starts_with p s) eqn:He.
  - apply starts_with_true in He as [k' ->].
    rewrite drop_app_length. split; [by intros [= ->]|].
    intros Heq. f_equal. by apply (inj (p ++.)) in Heq.
  - split; [done|]. intros ->. apply not_true_iff_false in He.
    destruct He. apply starts_with_true. eauto.
Qed.

Lemma split_once_Some d s a b :
  split_once d s = Some (a, b) ↔ s = a ++ d :: b ∧ d ∉ a.
Proof.
  revert a b. induction s as [|c s IH]; intros a b; cbn.
  { split; [done|]. intros [Heq _]. by destruct a. }
  destruct (decide (c = d)) as [->|Hne].
  - split; [intros [= <- <-]; split; [done|set_solver]|].
    intros [Heq Hd]. destruct a as [|x a]; simplify_list_eq; [done|set_solver].
  - destruct (split_once d s) as [[a' b']|] eqn:Hs.
    + split.
      * intros [= <- <-]. destruct (proj1 (IH a' b') eq_refl) as [-> ?].
        split; [done|set_solver].
      * destruct (proj1 (IH a' b') eq_refl) as [Heq Hd].
        intros [Heq' Hd']. destruct a as [|x a]; simplify_list_eq.
        assert (Some (a', b') = Some (a, b)) as [= <- <-]; [|done].
        apply IH. split; [done|set_solver].
    + split; [done|]. intros [Heq Hd]. destruct a as [|x a]; simplify_list_eq.
      assert (None = Some (a, b)); [|done]. apply IH. split; [done|set_solver].
Qed.

Lemma split_once_None d s : split_once d s = None ↔ d ∉ s.
Proof.
  split.
  - intros Hn Hin. apply list_elem_of_split_l in Hin as (a & b & -> & Hd).
    by rewrite (proj2 (split_once_Some d _ a b)) in Hn.
  - intros Hd. destruct (split_once d s) as [[a b]|] eqn:Hs; [|done].
    apply split_once_Some in Hs as [-> _]. set_solver.
Qed.

Lemma split_nonempty d s : split d s ≠ [].
Proof. destruct s; cbn; repeat case_match; done. Qed.

Lemma join_cons d w ws : ws ≠ [] → join d (w :: ws) = w ++ d ++ join d ws.
Proof. by destruct ws. Qed.

Lemma join_split d s : join [d] (split d s) = s.
Proof.
  induction s as [|c s IH]; cbn; [done|]. pose proof (split_nonempty d s).
  case_decide; subst.
  - rewrite join_cons by done. cbn. by rewrite IH.
  - destruct (split d s) as [|w ws]; [done|].
    destruct ws; cbn in *; by rewrite IH.
Qed.

Lemma split_no_sep d s w : w ∈ split d s → d ∉ w.
Proof.
  revert w. induction s as [|c s IH]; cbn; intros w Hw.
  { apply list_elem_of_singleton in Hw as ->. apply not_elem_of_nil. }
  case_decide.
  { apply elem_of_cons in Hw as [->|Hw]; [apply not_elem_of_nil|auto]. }
  destruct (split d s) as [|w' ws].
  { apply list_elem_of_singleton in Hw as ->. set_solver. }
  apply elem_of_cons in Hw as [->|Hw]; [|apply IH; set_solver].
  apply not_elem_of_cons. split; [done|]. apply IH. set_solver.
Qed.

(** Each character of a piece is a character of the string. *)
Lemma split_elem d s w c : w ∈ split d s → c ∈ w → c ∈ s.
Proof.
  revert w. induction s as [|x s IH]; cbn; intros w Hw Hc.
  { apply list_elem_of_singleton in Hw as ->. done. }
  case_decide.
  { apply elem_of_cons in Hw as [->|Hw]; [by apply not_elem_of_nil in Hc|].
    apply elem_of_cons. eauto. }
  pose proof (split_nonempty d s).
  destruct (split d s) as [|w' ws]; [done|]. rewrite elem_of_cons.
  apply elem_of_cons in Hw as [->|Hw]; [|right; apply (IH w); [set_solver|done]].
  apply elem_of_cons in Hc as [->|Hc]; [by left|right; apply (IH w'); [set_solver|done]].
Qed.

Lemma split_no_sep_single d s : d ∉ s → split d s = [s].
Proof.
  induction s as [|c s IH]; cbn; [done|]. intros Hd.
  rewrite IH by set_solver. case_decide; [set_solver|done].
Qed.

Lemma split_app_sep d a b : split d (a ++ d :: b) = split d a ++ split d b.
Proof.
  induction a as [|c a IH]; cbn.
  - by rewrite decide_True by done.
  - rewrite IH. case_decide; [done|]. pose proof (split_nonempty d a).
    by destruct (split d a).
Qed.

Lemma split_join d ws :
  ws ≠ [] → (∀ w, w ∈ ws → d ∉ w) → split d (join [d] ws) = ws.
Proof.
  induction ws as [|w ws IH]; [done|]. intros _ Hws.
  destruct (decide (ws = [])) as [->|Hne].
  - cbn. apply split_no_sep_single. set_solver.
  - rewrite join_cons by done. cbn.
    rewrite split_app_sep, split_no_sep_single, IH by set_solver. done.
Qed.

Lemma is_ascii_app a b : is_ascii (a ++ b) = is_ascii a && is_ascii b.
Proof. apply forallb_app. Qed.

Lemma is_ascii_utf8 s : is_ascii s = true → from_utf8 s = true.
Proof.
  intros Hs. apply bool_decide_eq_true. induction s as [|c s IH]; cbn in *; [by eexists|].
  bool_prop. rewrite H. destruct (IH H0) as [l ->]. by eexists.
Qed.

(** Trimming leaves a string that neither starts nor ends with a space. *)
Lemma trim_start_suffix s : ∃ k, s = k ++ trim_start s ∧ forallb is_trim_space k = true.
Proof.
  induction s as [|c s IH]; cbn; [by exists []|]. destruct (is_trim_space c) eqn:Hc.
  - destruct IH as (k & Hk & Hf). exists (c :: k). cbn. by rewrite Hc, <-Hk.
  - by exists [].
Qed.

Lemma trim_start_id s :
  (∀ c s', s = c :: s' → is_trim_space c = false) → trim_start s = s.
Proof. destruct s as [|c s]; cbn; [done|]. intros H. by rewrite (H c s). Qed.

(** ** Decimal numbers are in range. *)
Lemma parse_digits_bound max acc s n :
  (acc ≤ max)%N → parse_digits max acc s = Some n → (n ≤ max)%N.
Proof.
  revert acc. induction s as [|c s IH]; cbn; intros acc Ha Hp; [by simplify_eq|].
  destruct (digit_value c); [|done].
  destruct (N.ltb_spec max (acc * 10 + n0)%N); [done|]. eauto.
Qed.

Lemma parse_u16_bound s n : parse_u16 s = Some n → (n ≤ 65535)%N.
Proof.
  unfold parse_u16, parse_uint. destruct (match s with [] => _ | _ => _ end) as [|c s']; [done|].
  apply parse_digits_bound. lia.
Qed.
