(* ===== verification/RustPath.v ===== *)
(** Paths of [std::path] on Unix.

    A path is the byte string the program holds. [components] is
    [Path::components]: a leading separator is the root, repeated separators
    are one, [.] is dropped except at the start of a relative path, [..] is
    kept. Every other function is defined from it, and [render] writes a list
    of components back; two paths with the same components are the same path
    for every function of the source ([Path] compares by components). *)

From S2P Require Import Prelude RustStr.
From stdpp Require Import options.
Local Open Scope char_scope.

Inductive component :=
| RootDirC
| CurDirC
| ParentDirC
| NormalC (name : str).

#[export] Instance component_eq_dec : EqDecision component.
Proof. solve_decision. Defined.

(** [Component::as_os_str]. *)
Definition component_os_str (c : component) : str :=
  match c with
  | RootDirC => ["/"]
  | CurDirC => ["."]
  | ParentDirC => [".";"."]
  | NormalC name => name
  end.

Definition is_absolute (path : str) : bool := starts_with ["/"] path.

Definition segment (c : str) : list component :=
  if decide (c = [] ∨ c = ["."]) then []
  else if decide (c = [".";"."]) then [ParentDirC]
  else [NormalC c].

Definition components (path : str) : list component :=
  (if is_absolute path then [RootDirC]
   else match split "/" path with
        | first :: _ => if decide (first = ["."]) then [CurDirC] else []
        | [] => []
        end)
  ++ concat (segment <$> split "/" path).

(** A path with these components: what [Components::as_path] denotes. *)
Definition render (cs : list component) : str :=
  match cs with
  | RootDirC :: rest => "/" :: join ["/"] (component_os_str <$> rest)
  | _ => join ["/"] (component_os_str <$> cs)
  end.

(** [Path::parent]: everything but the last component, unless that is the root. *)
Definition parent (path : str) : option str :=
  match last (components path) with
  | None | Some RootDirC => None
  | Some _ => Some (render (removelast (components path)))
  end.

(** [Path::file_name]. *)
Definition file_name (path : str) : option str :=
  match last (components path) with
  | Some (NormalC name) => Some name
  | _ => None
  end.

(** [PathBuf::push] and [Path::join]. *)
Definition path_join (base path : str) : str :=
  if is_absolute path then path
  else match last base with
       | None | Some "/" => base ++ path
       | Some _ => base ++ "/" :: path
       end.

(** [Path::with_file_name]. *)
Definition with_file_name (path name : str) : str :=
  match file_name path, parent path with
  | Some _, Some p => path_join p name
  | _, _ => path_join path name
  end.

(** [Path::strip_prefix]: the components after the base, when it is a prefix. *)
Fixpoint strip_components (base cs : list component) : option (list component) :=
  match base, cs with
  | [], _ => Some cs
  | b :: base', c :: cs' => if decide (b = c) then strip_components base' cs' else None
  | _ :: _, [] => None
  end.
Definition strip_path_prefix (path base : str) : option str :=
  render <$> strip_components (components base) (components path).

(** [Path::eq]. *)
Definition path_eqb (a b : str) : bool := bool_decide (components a = components b).

(** The parent directory the program opens for a path: [Path::parent], with
    an empty parent read as the working directory. *)
Definition parent_or_dot (path : str) : str :=
  match parent path with
  | Some p => if decide (p = []) then ["."] else p
  | None => ["."]
  end.

(** ** Names: a single component the kernel looks up in one directory *)

Definition plain_name (c : str) : Prop :=
  c ≠ [] ∧ "/" ∉ c ∧ c ≠ ["."] ∧ c ≠ [".";"."].

#[export] Instance plain_name_dec c : Decision (plain_name c).
Proof. unfold plain_name. apply _. Defined.

Lemma components_normal path name : NormalC name ∈ components path → plain_name name.
Proof.
  unfold components. rewrite elem_of_app. intros [Hin|Hin].
  - destruct (is_absolute path); [set_solver|].
    destruct (split "/" path) as [|f fs]; [set_solver|]. case_decide; set_solver.
  - apply list_elem_of_In, in_concat in Hin as (l & Hl & Hin).
    apply list_elem_of_In, list_elem_of_fmap in Hl as (c & -> & Hc).
    apply split_no_sep in Hc. apply list_elem_of_In in Hin. unfold segment in Hin.
    repeat case_decide; [set_solver|set_solver|].
    apply list_elem_of_singleton in Hin as [= ->]. unfold plain_name. naive_solver.
Qed.

Lemma file_name_plain path name : file_name path = Some name → plain_name name.
Proof.
  unfold file_name. destruct (last (components path)) as [[]|] eqn:Hl; intros [=]; subst.
  apply last_Some in Hl as [l Hl]. apply (components_normal path). rewrite Hl. set_solver.
Qed.

Lemma components_root_first path c cs :
  components path = c :: cs → RootDirC ∉ cs.
Proof.
  assert (Hseg : RootDirC ∉ concat (segment <$> split "/" path)).
  { intros Hin. apply list_elem_of_In, in_concat in Hin as (l & Hl & Hin).
    apply list_elem_of_In, list_elem_of_fmap in Hl as (w & -> & _).
    apply list_elem_of_In in Hin. unfold segment in Hin. repeat case_decide; set_solver. }
  unfold components. destruct (is_absolute path); cbn.
  { by intros [= <- <-]. }
  destruct (split "/" path) as [|f fs] eqn:Hs; [by cbn|].
  rewrite <- Hs in *. case_decide; cbn.
  { by intros [= <- <-]. }
  intros Heq. rewrite Heq in Hseg. set_solver.
Qed.

(** The join of a base and a relative name has the name as its file name. *)
Example file_name_join : file_name (path_join (lit "/run/baffle") (lit "a.sock")) = Some (lit "a.sock").
Proof. reflexivity. Qed.
Example parent_slashes : parent (lit "/run//baffle/./a.sock/") = Some (lit "/run/baffle").
Proof. reflexivity. Qed.

(** ** [OsStr::to_string_lossy] and [CString::to_string_lossy]

    Text is kept; in other byte strings every maximal invalid part is replaced
    by U+FFFD. *)

Definition replacement : str := ["239"; "191"; "189"].

(** Whether [c1] may follow the lead byte [c] of a sequence of three or four. *)
Definition second_byte (c c1 : ascii) : bool :=
  cont c1
  && (if (code c =? 224)%N then (160 <=? code c1)%N else true)
  && (if (code c =? 237)%N then (code c1 <=? 159)%N else true)
  && (if (code c =? 240)%N then (144 <=? code c1)%N else true)
  && (if (code c =? 244)%N then (code c1 <=? 143)%N else true).

Fixpoint lossy (s : str) : str :=
  match s with
  | [] => []
  | c :: s1 =>
      if is_ascii_byte c then c :: lossy s1
      else match s1 with
      | [] => replacement
      | c1 :: s2 =>
          if in_range 194 223 c then
            if cont c1 then c :: c1 :: lossy s2 else replacement ++ lossy s1
          else if in_range 224 244 c && second_byte c c1 then
            match s2 with
            | [] => replacement
            | c2 :: s3 =>
                if negb (cont c2) then replacement ++ lossy s2
                else if in_range 224 239 c then c :: c1 :: c2 :: lossy s3
                else match s3 with
                | [] => replacement
                | c3 :: s4 => if cont c3 then c :: c1 :: c2 :: c3 :: lossy s4 else replacement ++ lossy s3
                end
            end
          else replacement ++ lossy s1
      end
  end.

Definition to_string_lossy (s : str) : str := if from_utf8 s then s else lossy s.

Lemma to_string_lossy_text s : from_utf8 s = true → to_string_lossy s = s.
Proof. unfold to_string_lossy. by intros ->. Qed.

Example lossy_truncated : to_string_lossy ["a"; "226"; "130"; "b"] = "a" :: replacement ++ ["b"].
Proof. reflexivity. Qed.
