(* ===== verification/PosixFs.v ===== *)
(** The file system as the program's system calls see it.

    Inodes carry a device and a number, which is all the program compares;
    directories map names to inodes, sockets know whether somebody listens.
    A descriptor is the inode it was opened on. [exec] is the meaning of one
    system call. A program is a function on a [world]: each call first lets
    other processes change the file system in any way ([ev_interfere]), then
    either fails with any error and no effect ([ev_fault]: missing permission,
    exhausted descriptors, ...) or has the meaning [exec] gives it, and every
    call is recorded with its answer. A world whose schedule is empty is quiet.

    An inode whose last name is gone stays in the table: open descriptors keep
    it alive. Permissions are not evaluated; a call refused for lack of them is
    a fault. *)

From S2P Require Import Prelude RustStr RustPath.
From stdpp Require Import options.
Local Open Scope char_scope.

(** ** Inodes *)

Record FileId := mkFileId { id_dev : N; id_ino : N }.
#[export] Instance FileId_eq_dec : EqDecision FileId.
Proof. solve_decision. Defined.
#[export] Instance FileId_countable : Countable FileId.
Proof.
  refine (inj_countable' (λ i, (id_dev i, id_ino i)) (λ p, mkFileId p.1 p.2) _).
  by intros [].
Defined.

Inductive inode_kind :=
| Directory (entries : gmap str FileId) (parent : FileId) (dead : bool)
| Socket (listening : bool)
| Regular (content : str)
| Symlink (target : str).

Record inode := mkInode { i_kind : inode_kind; i_uid : N; i_perm : N }.

Record Fs := mkFs { fs_inodes : gmap FileId inode; fs_root : FileId }.

(** The calling process: its user, its file creation mask, its working
    directory and the path [getcwd] reports. *)
Record process := mkProcess { p_euid : N; p_umask : N; p_cwd : FileId; p_cwd_path : str }.

Inductive errno :=
| ENOENT | EEXIST | ENOTDIR | EISDIR | ENOTEMPTY | ELOOP | EINVAL | EADDRINUSE
| ECONNREFUSED | ENXIO | EBADF | EACCES | EPERM | EIO | EMFILE | ENFILE | ENOSPC | EROFS.
#[export] Instance errno_eq_dec : EqDecision errno.
Proof. solve_decision. Defined.

(** ** [struct stat] *)

Definition S_IFMT : N := 61440.
Definition S_IFDIR : N := 16384.
Definition S_IFREG : N := 32768.
Definition S_IFLNK : N := 40960.
Definition S_IFSOCK : N := 49152.

Record stat := mkStat { st_dev : N; st_ino : N; st_mode : N; st_uid : N }.

Definition type_bits (k : inode_kind) : N :=
  match k with
  | Directory _ _ _ => S_IFDIR
  | Socket _ => S_IFSOCK
  | Regular _ => S_IFREG
  | Symlink _ => S_IFLNK
  end.

Definition stat_of (i : FileId) (n : inode) : stat :=
  mkStat (id_dev i) (id_ino i) (N.lor (type_bits (i_kind n)) (N.land (i_perm n) 4095)) (i_uid n).

Definition st_id (st : stat) : FileId := mkFileId (st_dev st) (st_ino st).
Definition is_dir (st : stat) : bool := (N.land (st_mode st) S_IFMT =? S_IFDIR)%N.
Definition is_socket (st : stat) : bool := (N.land (st_mode st) S_IFMT =? S_IFSOCK)%N.
Definition is_file (st : stat) : bool := (N.land (st_mode st) S_IFMT =? S_IFREG)%N.
Definition is_symlink (st : stat) : bool := (N.land (st_mode st) S_IFMT =? S_IFLNK)%N.

(** ** Path resolution *)

(** The components the kernel walks: a trailing separator stands for [.]. *)
Definition kernel_components (path : str) : list str :=
  filter (λ c, c ≠ []) (split "/" path)
  ++ (if decide (last path = Some "/") then [["."]] else []).

(** The end of a walk: a name in a directory, bound or not, or a directory
    reached through the root, [.] or [..]. *)
Inductive walked :=
| AtName (dir : FileId) (name : str) (target : option FileId)
| AtDir (dir : FileId).

Definition MAXSYMLINKS : nat := 40.

Section resolution.
Context (fs : Fs).

Fixpoint walk (follow : bool) (links : nat) : FileId → list str → result errno walked :=
  fix go (cur : FileId) (cs : list str) : result errno walked :=
    match cs with
    | [] => Ok (AtDir cur)
    | c :: rest =>
        match fs_inodes fs !! cur with
        | Some (mkInode (Directory entries parent _) _ _) =>
            if decide (c = ["."]) then go cur rest
            else if decide (c = [".";"."]) then go parent rest
            else match entries !! c with
                 | None => if decide (rest = []) then Ok (AtName cur c None) else Err ENOENT
                 | Some i =>
                     match i_kind <$> fs_inodes fs !! i with
                     | Some (Symlink target) =>
                         if decide (rest = []) then
                           if follow then
                             match links with
                             | O => Err ELOOP
                             | S l => walk follow l (if is_absolute target then fs_root fs else cur)
                                        (kernel_components target)
                             end
                           else Ok (AtName cur c (Some i))
                         else
                           match links with
                           | O => Err ELOOP
                           | S l => walk follow l (if is_absolute target then fs_root fs else cur)
                                      (kernel_components target ++ rest)
                           end
                     | _ => if decide (rest = []) then Ok (AtName cur c (Some i)) else go i rest
                     end
                 end
        | _ => Err ENOTDIR
        end
    end.

(** A path relative to the directory [at_dir], as the [*at] calls take it.
    The empty path names nothing. *)
Definition namei (follow : bool) (at_dir : FileId) (path : str) : result errno walked :=
  if decide (path = []) then Err ENOENT
  else walk follow MAXSYMLINKS (if is_absolute path then fs_root fs else at_dir) (kernel_components path).

(** The inode a path names. *)
Definition resolve (follow : bool) (at_dir : FileId) (path : str) : result errno FileId :=
  w ← namei follow at_dir path;
  match w with
  | AtDir i | AtName _ _ (Some i) => Ok i
  | AtName _ _ None => Err ENOENT
  end.

Definition stat_inode (i : FileId) : result errno stat :=
  match fs_inodes fs !! i with Some n => Ok (stat_of i n) | None => Err EBADF end.

(** A new inode on the device of the directory it is created in. *)
Definition fresh_id (dir : FileId) : FileId :=
  mkFileId (id_dev dir) (fresh (set_map id_ino (dom (fs_inodes fs)) : gset N)).
End resolution.

(** ** Changes *)

Definition update_inode (f : inode → inode) (i : FileId) (fs : Fs) : Fs :=
  mkFs (alter f i (fs_inodes fs)) (fs_root fs).

Definition set_entries (f : gmap str FileId → gmap str FileId) (n : inode) : inode :=
  match i_kind n with
  | Directory entries parent dead => mkInode (Directory (f entries) parent dead) (i_uid n) (i_perm n)
  | _ => n
  end.

Definition set_perm (perm : N) (n : inode) : inode := mkInode (i_kind n) (i_uid n) perm.
Definition set_listening (b : bool) (n : inode) : inode :=
  match i_kind n with Socket _ => mkInode (Socket b) (i_uid n) (i_perm n) | _ => n end.
Definition set_dead (n : inode) : inode :=
  match i_kind n with
  | Directory entries parent _ => mkInode (Directory entries parent true) (i_uid n) (i_perm n)
  | _ => n
  end.

(** Writing to a file that was just created. *)
Definition write_contents (contents : str) (n : inode) : inode :=
  match i_kind n with
  | Regular old => mkInode (Regular (old ++ contents)) (i_uid n) (i_perm n)
  | _ => n
  end.

Definition is_dead (fs : Fs) (dir : FileId) : bool :=
  match i_kind <$> fs_inodes fs !! dir with Some (Directory _ _ dead) => dead | _ => false end.

(** A new inode bound to [name] in [dir]. *)
Definition create_inode (dir : FileId) (name : str) (n : inode) (fs : Fs) : FileId * Fs :=
  let i := fresh_id fs dir in
  (i, update_inode (set_entries <[name := i]>) dir (mkFs (<[i := n]> (fs_inodes fs)) (fs_root fs))).

(** ** System calls *)

Inductive syscall :=
| Open_root
| Open_directory (at_dir : FileId) (path : str)                (* O_DIRECTORY | O_NOFOLLOW *)
| Open_create (at_dir : FileId) (path : str) (mode : N)        (* O_RDWR | O_CREAT | O_NOFOLLOW *)
| Fstat (fd : FileId)
| Fstatat (at_dir : FileId) (path : str)                       (* AT_SYMLINK_NOFOLLOW *)
| Stat_follow (at_dir : FileId) (path : str)                   (* stat(2) *)
| Mkdirat (at_dir : FileId) (path : str) (mode : N)
| Unlinkat (at_dir : FileId) (path : str) (removedir : bool)
| Fchmod (fd : FileId) (mode : N)
| Fchmodat (at_dir : FileId) (path : str) (mode : N)
| Bind (at_dir : FileId) (path : str)
| Listen (fd : FileId)
| Connect (at_dir : FileId) (path : str)
| Flock (fd : FileId)
| Dup (fd : FileId)
| Readdir (fd : FileId)
| Readlink (at_dir : FileId) (path : str)
| Create_new (at_dir : FileId) (path : str) (mode : N)         (* O_WRONLY | O_CREAT | O_EXCL *)
| Write (fd : FileId) (contents : str)
| Fsync (fd : FileId)
| Read_file (at_dir : FileId) (path : str)                     (* open, read to the end, close *)
| Link (at_dir : FileId) (old new : str)
| Real_directory (at_dir : FileId) (path : str)                (* realpath(3) of a directory *)
| Getcwd.

Inductive sysret :=
| RErr (e : errno)
| RUnit
| RFd (fd : FileId)
| RStat (st : stat)
| RNames (names : list str)
| RPath (path : str).

Definition ret_of {A} (f : A → sysret) (r : result errno A) : sysret :=
  match r with Ok a => f a | Err e => RErr e end.

Section exec.
Context (p : process) (fs : Fs).

(** A call that needs a directory entry to be absent creates an inode there. *)
Definition exec_create (exists_error : errno) (n : FileId → inode) (at_dir : FileId) (path : str)
    : sysret * Fs :=
  match namei fs false at_dir path with
  | Err e => (RErr e, fs)
  | Ok (AtDir _ | AtName _ _ (Some _)) => (RErr exists_error, fs)
  | Ok (AtName dir name None) =>
      if is_dead fs dir then (RErr ENOENT, fs)
      else let '(i, fs') := create_inode dir name (n dir) fs in (RFd i, fs')
  end.

Definition exec_unlink (at_dir : FileId) (path : str) (removedir : bool) : sysret * Fs :=
  match namei fs false at_dir path with
  | Err e => (RErr e, fs)
  | Ok (AtDir _) => (RErr (if removedir then EINVAL else EISDIR), fs)
  | Ok (AtName _ _ None) => (RErr ENOENT, fs)
  | Ok (AtName dir name (Some i)) =>
      let removed := update_inode (set_entries (delete name)) dir fs in
      match i_kind <$> fs_inodes fs !! i, removedir with
      | Some (Directory entries _ _), true =>
          if decide (entries = ∅) then (RUnit, update_inode set_dead i removed) else (RErr ENOTEMPTY, fs)
      | Some (Directory _ _ _), false => (RErr EISDIR, fs)
      | _, true => (RErr ENOTDIR, fs)
      | _, false => (RUnit, removed)
      end
  end.

Definition exec_open_create (at_dir : FileId) (path : str) (mode : N) : sysret * Fs :=
  match namei fs false at_dir path with
  | Ok (AtName _ _ (Some i)) =>
      match i_kind <$> fs_inodes fs !! i with
      | Some (Regular _) => (RFd i, fs)
      | Some (Symlink _) => (RErr ELOOP, fs)
      | Some (Directory _ _ _) => (RErr EISDIR, fs)
      | _ => (RErr ENXIO, fs)
      end
  | Ok (AtDir _) => (RErr EISDIR, fs)
  | _ => exec_create EEXIST (λ _, mkInode (Regular []) (p_euid p) (N.ldiff mode (p_umask p))) at_dir path
  end.

Definition exec_chmod (i : result errno FileId) (mode : N) : sysret * Fs :=
  match i with
  | Ok i => (RUnit, update_inode (set_perm mode) i fs)
  | Err e => (RErr e, fs)
  end.

(** A second name for an inode; a final link is not followed. *)
Definition exec_link (at_dir : FileId) (old new : str) : sysret * Fs :=
  match resolve fs false at_dir old with
  | Err e => (RErr e, fs)
  | Ok i =>
      match i_kind <$> fs_inodes fs !! i with
      | Some (Directory _ _ _) | None => (RErr EPERM, fs)
      | Some _ =>
          match namei fs false at_dir new with
          | Err e => (RErr e, fs)
          | Ok (AtDir _ | AtName _ _ (Some _)) => (RErr EEXIST, fs)
          | Ok (AtName dir name None) =>
              if is_dead fs dir then (RErr ENOENT, fs)
              else (RUnit, update_inode (set_entries <[name := i]>) dir fs)
          end
      end
  end.

Definition open_directory (i : FileId) : result errno FileId :=
  match i_kind <$> fs_inodes fs !! i with
  | Some (Directory _ _ _) => Ok i
  | Some _ => Err ENOTDIR
  | None => Err EBADF
  end.

Definition connect (i : FileId) : result errno unit :=
  match i_kind <$> fs_inodes fs !! i with
  | Some (Socket true) => Ok ()
  | _ => Err ECONNREFUSED
  end.

Definition exec (c : syscall) : sysret * Fs :=
  match c with
  | Open_root => (RFd (fs_root fs), fs)
  | Open_directory d path => (ret_of RFd (resolve fs false d path ≫= open_directory), fs)
  | Open_create d path mode => exec_open_create d path mode
  | Fstat i => (ret_of RStat (stat_inode fs i), fs)
  | Fstatat d path => (ret_of RStat (resolve fs false d path ≫= stat_inode fs), fs)
  | Stat_follow d path => (ret_of RStat (resolve fs true d path ≫= stat_inode fs), fs)
  | Mkdirat d path mode =>
      match exec_create EEXIST
              (λ dir, mkInode (Directory ∅ dir false) (p_euid p) (N.ldiff mode (p_umask p))) d path with
      | (RFd _, fs') => (RUnit, fs')
      | r => r
      end
  | Unlinkat d path removedir => exec_unlink d path removedir
  | Fchmod i mode => exec_chmod (Ok i) mode
  | Fchmodat d path mode => exec_chmod (resolve fs true d path) mode
  | Bind d path =>
      exec_create EADDRINUSE (λ _, mkInode (Socket false) (p_euid p) (N.ldiff 511 (p_umask p))) d path
  | Listen i => (RUnit, update_inode (set_listening true) i fs)
  | Connect d path => (ret_of (λ _, RUnit) (resolve fs true d path ≫= connect), fs)
  | Flock _ => (RUnit, fs)
  | Dup i => (RFd i, fs)
  | Readdir i =>
      match i_kind <$> fs_inodes fs !! i with
      | Some (Directory entries _ _) => (RNames (["."] :: [".";"."] :: (map_to_list entries).*1), fs)
      | _ => (RErr ENOTDIR, fs)
      end
  | Readlink d path =>
      (ret_of RPath (i ← resolve fs false d path;
                     match i_kind <$> fs_inodes fs !! i with
                     | Some (Symlink target) => Ok target
                     | _ => Err EINVAL
                     end), fs)
  | Create_new d path mode =>
      exec_create EEXIST (λ _, mkInode (Regular []) (p_euid p) (N.ldiff mode (p_umask p))) d path
  | Write i contents => (RUnit, update_inode (write_contents contents) i fs)
  | Fsync _ => (RUnit, fs)
  | Read_file d path =>
      (ret_of RPath (i ← resolve fs true d path;
                     match i_kind <$> fs_inodes fs !! i with
                     | Some (Regular content) => Ok content
                     | Some (Directory _ _ _) => Err EISDIR
                     | _ => Err ENXIO
                     end), fs)
  | Link d old new => exec_link d old new
  | Real_directory d path => (ret_of RFd (resolve fs true d path), fs)
  | Getcwd => (RPath (p_cwd_path p), fs)
  end.
End exec.

(** ** Programs *)

Record event := mkEvent { ev_interfere : Fs → Fs; ev_fault : option errno }.

Definition trace := list (syscall * sysret).

Record world := mkWorld {
  w_proc : process;
  w_fs : Fs;
  w_schedule : list event;
  w_trace : trace;
}.

Definition Sys (A : Type) : Type := world → A * world.
#[export] Instance sys_ret : MRet Sys := λ A a w, (a, w).
#[export] Instance sys_bind : MBind Sys := λ A B f m w, let '(a, w') := m w in f a w'.

Lemma sys_bind_run {A B} (m : Sys A) (f : A → Sys B) w : (m ≫= f) w = f (m w).1 (m w).2.
Proof. cbv [mbind sys_bind]. by destruct (m w). Qed.

(** The [?] operator: an error ends the computation. *)
Definition sys_try {E A B} (m : Sys (result E A)) (f : A → Sys (result E B)) : Sys (result E B) :=
  r ← m; match r with Ok a => f a | Err e => mret (Err e) end.
Notation "x ←? m ; k" := (sys_try m (λ x, k))
  (at level 20, m at level 100, k at level 200, only parsing) : stdpp_scope.

Definition do_call (c : syscall) : Sys sysret := λ w,
  let '(ev, rest) := match w_schedule w with
                     | ev :: rest => (ev, rest)
                     | [] => (mkEvent id None, [])
                     end in
  let fs := ev_interfere ev (w_fs w) in
  let '(r, fs') := match ev_fault ev with
                   | Some e => (RErr e, fs)
                   | None => exec (w_proc w) fs c
                   end in
  (r, mkWorld (w_proc w) fs' rest (w_trace w ++ [(c, r)])).

(** Closing a listening descriptor always releases it. *)
Definition close_listener (i : FileId) : Sys unit := λ w,
  ((), mkWorld (w_proc w) (update_inode (set_listening false) i (w_fs w)) (w_schedule w) (w_trace w)).

(** The [libc] calls, [-1] with [errno] read as an error. *)
Definition as_unit (r : sysret) : result errno unit :=
  match r with RErr e => Err e | _ => Ok () end.
Definition as_fd (r : sysret) : result errno FileId :=
  match r with RFd i => Ok i | RErr e => Err e | _ => Err EIO end.
Definition as_stat (r : sysret) : result errno stat :=
  match r with RStat st => Ok st | RErr e => Err e | _ => Err EIO end.
Definition as_names (r : sysret) : result errno (list str) :=
  match r with RNames l => Ok l | RErr e => Err e | _ => Err EIO end.
Definition as_path (r : sysret) : result errno str :=
  match r with RPath s => Ok s | RErr e => Err e | _ => Err EIO end.

Definition libc {A} (view : sysret → result errno A) (c : syscall) : Sys (result errno A) :=
  r ← do_call c; mret (view r).

(** ** [std::io::Error] *)

Inductive ErrorKind := NotFound | AlreadyExists | NotADirectory | ConnectionRefused | InvalidInput | OtherKind.
#[export] Instance ErrorKind_eq_dec : EqDecision ErrorKind.
Proof. solve_decision. Defined.

Inductive io_error := OsError (e : errno) | CustomError (k : ErrorKind) (message : string).
#[export] Instance io_error_eq_dec : EqDecision io_error.
Proof. solve_decision. Defined.

(** [io::Error::kind], for the kinds the program asks about. *)
Definition errno_kind (e : errno) : ErrorKind :=
  match e with
  | ENOENT => NotFound
  | EEXIST => AlreadyExists
  | ENOTDIR => NotADirectory
  | ECONNREFUSED => ConnectionRefused
  | EINVAL => InvalidInput
  | _ => OtherKind
  end.
Definition kind (e : io_error) : ErrorKind :=
  match e with OsError e => errno_kind e | CustomError k _ => k end.

(** ** Quiet runs

    [runs p fs m a fs']: in a quiet world the program [m] takes the file
    system from [fs] to [fs'] and returns [a]. *)

Definition runs {A} (p : process) (fs : Fs) (m : Sys A) (a : A) (fs' : Fs) : Prop :=
  ∀ tr, ∃ tr', m (mkWorld p fs [] tr) = (a, mkWorld p fs' [] tr').

Section runs.
Context (p : process).

Lemma runs_ret {A} fs (a : A) : runs p fs (mret a) a fs.
Proof. intros tr. by exists tr. Qed.

Lemma runs_bind {A B} fs fs1 fs2 (m : Sys A) (f : A → Sys B) a b :
  runs p fs m a fs1 → runs p fs1 (f a) b fs2 → runs p fs (m ≫= f) b fs2.
Proof.
  intros Hm Hf tr. destruct (Hm tr) as [tr1 Heq1]. destruct (Hf tr1) as [tr2 Heq2].
  exists tr2. cbv [mbind sys_bind]. by rewrite Heq1.
Qed.

Lemma runs_call fs fs' c r : exec p fs c = (r, fs') → runs p fs (do_call c) r fs'.
Proof.
  intros Hex tr. exists (tr ++ [(c, r)]). unfold do_call. cbn [w_schedule ev_interfere ev_fault w_fs w_proc].
  cbv [id]. by rewrite Hex.
Qed.

Lemma runs_libc {A} fs fs' c (view : sysret → result errno A) r :
  exec p fs c = (r, fs') → runs p fs (libc view c) (view r) fs'.
Proof. intros Hex. eapply runs_bind; [by apply runs_call|apply runs_ret]. Qed.

Lemma runs_try_ok {E A B} fs fs1 fs2 (m : Sys (result E A)) (f : A → Sys (result E B)) a b :
  runs p fs m (Ok a) fs1 → runs p fs1 (f a) b fs2 → runs p fs (sys_try m f) b fs2.
Proof. intros Hm Hf. unfold sys_try. by eapply runs_bind. Qed.

Lemma runs_try_err {E A B} fs fs1 (m : Sys (result E A)) (f : A → Sys (result E B)) e :
  runs p fs m (Err e) fs1 → runs p fs (sys_try m f) (Err e) fs1.
Proof. intros Hm. unfold sys_try. eapply runs_bind; [done|]. apply runs_ret. Qed.

Lemma runs_eq {A} fs (m : Sys A) a a' fs1 fs1' :
  runs p fs m a fs1 → a = a' → fs1 = fs1' → runs p fs m a' fs1'.
Proof. by intros ? <- <-. Qed.

Lemma runs_det {A} fs (m : Sys A) a a' fs1 fs1' :
  runs p fs m a fs1 → runs p fs m a' fs1' → a = a' ∧ fs1 = fs1'.
Proof. intros H1 H2. destruct (H1 []) as [? E1], (H2 []) as [? E2]. rewrite E1 in E2. by simplify_eq. Qed.

Lemma runs_world {A} fs (m : Sys A) a fs' tr :
  runs p fs m a fs' →
  (m (mkWorld p fs [] tr)).1 = a ∧ w_fs (m (mkWorld p fs [] tr)).2 = fs'
  ∧ w_schedule (m (mkWorld p fs [] tr)).2 = [] ∧ w_proc (m (mkWorld p fs [] tr)).2 = p.
Proof. intros H. destruct (H tr) as [tr' ->]. done. Qed.
End runs.

(** [ends p fs m Q]: the quiet run ends in a state that satisfies [Q]. *)
Definition ends {A} (p : process) (fs : Fs) (m : Sys A) (Q : A → Fs → Prop) : Prop :=
  ∃ a fs', runs p fs m a fs' ∧ Q a fs'.

Section ends.
Context (p : process).

Lemma ends_ret {A} fs (a : A) (Q : A → Fs → Prop) : Q a fs → ends p fs (mret a) Q.
Proof. intros HQ. exists a, fs. split; [apply runs_ret|done]. Qed.

Lemma ends_bind {A B} fs (m : Sys A) (f : A → Sys B) Q :
  ends p fs m (λ a fs1, ends p fs1 (f a) Q) → ends p fs (m ≫= f) Q.
Proof.
  intros (a & fs1 & Hm & b & fs2 & Hf & HQ). exists b, fs2. split; [|done]. by eapply runs_bind.
Qed.

Lemma ends_mono {A} fs (m : Sys A) (P Q : A → Fs → Prop) :
  ends p fs m P → (∀ a fs', P a fs' → Q a fs') → ends p fs m Q.
Proof. intros (a & fs' & ? & ?) HPQ. exists a, fs'. split; [done|by apply HPQ]. Qed.

Lemma ends_and {A} fs (m : Sys A) (P Q : A → Fs → Prop) :
  ends p fs m P → ends p fs m Q → ends p fs m (λ a fs', P a fs' ∧ Q a fs').
Proof.
  intros (a & fs1 & H1 & HP) (b & fs2 & H2 & HQ). destruct (runs_det _ _ _ _ _ _ _ H1 H2) as [<- <-].
  by exists a, fs1.
Qed.

Lemma ends_libc {A} fs (view : sysret → result errno A) c (Q : result errno A → Fs → Prop) :
  Q (view (exec p fs c).1) (exec p fs c).2 → ends p fs (libc view c) Q.
Proof.
  intros HQ. eexists _, _. split; [|exact HQ]. apply runs_libc. by destruct (exec p fs c).
Qed.

Lemma ends_world {A} fs (m : Sys A) (Q : A → Fs → Prop) tr :
  ends p fs m Q → Q (m (mkWorld p fs [] tr)).1 (w_fs (m (mkWorld p fs [] tr)).2).
Proof.
  intros (a & fs' & Hrun & HQ). by destruct (runs_world p fs m a fs' tr Hrun) as (-> & -> & _).
Qed.
End ends.

(** ** Traces

    [emits G m]: from every world, whatever the others do, the calls [m]
    makes and its answer satisfy [G]. *)

Definition emits {A} (G : A → trace → Prop) (m : Sys A) : Prop :=
  ∀ w, ∃ tr, w_trace (m w).2 = w_trace w ++ tr ∧ G (m w).1 tr.

Lemma emits_ret {A} (G : A → trace → Prop) a : G a [] → emits G (mret a).
Proof. intros HG w. exists []. by rewrite app_nil_r. Qed.

Lemma emits_call (G : sysret → trace → Prop) c :
  (∀ r, G r [(c, r)]) → emits G (do_call c).
Proof.
  intros HG w. unfold do_call. destruct (match w_schedule w with [] => _ | _ => _ end) as [ev rest].
  destruct (match ev_fault ev with Some e => _ | None => _ end) as [r fs'] eqn:Hr. cbn. eauto.
Qed.

Lemma emits_bind {A B} (G1 : A → trace → Prop) (G : B → trace → Prop) (m : Sys A) (f : A → Sys B) :
  emits G1 m →
  (∀ a tr1, G1 a tr1 → emits (λ b tr2, G b (tr1 ++ tr2)) (f a)) →
  emits G (m ≫= f).
Proof.
  intros Hm Hf w. cbv [mbind sys_bind]. destruct (Hm w) as (tr1 & Htr1 & HG1).
  destruct (m w) as [a w1]; cbn in *. destruct (Hf a tr1 HG1 w1) as (tr2 & Htr2 & HG2).
  exists (tr1 ++ tr2). split; [|done]. by rewrite Htr2, Htr1, (assoc_L (++)).
Qed.

Lemma emits_mono {A} (G G' : A → trace → Prop) m :
  emits G m → (∀ a tr, G a tr → G' a tr) → emits G' m.
Proof. intros Hm HG w. destruct (Hm w) as (tr & ? & ?). eauto. Qed.

Lemma emits_libc {A} (G : result errno A → trace → Prop) view c :
  (∀ r, G (view r) [(c, r)]) → emits G (libc view c).
Proof.
  intros HG. eapply emits_bind.
  - by apply (emits_call (λ r tr, tr = [(c, r)])).
  - intros r ? ->. apply emits_ret. rewrite app_nil_r. apply HG.
Qed.

(** A property of traces that is closed under composition. *)
Lemma emits_compose {A B} (G : trace → Prop) (m : Sys A) (f : A → Sys B) :
  (∀ tr1 tr2, G tr1 → G tr2 → G (tr1 ++ tr2)) →
  emits (λ _, G) m → (∀ a, emits (λ _, G) (f a)) → emits (λ _, G) (m ≫= f).
Proof.
  intros Happ Hm Hf. eapply emits_bind; [exact Hm|]. intros a tr1 H1. eapply emits_mono; [apply Hf|].
  cbn. auto.
Qed.

(** ** Names in one directory *)

Definition entries_of (fs : Fs) (d : FileId) : gmap str FileId :=
  match i_kind <$> fs_inodes fs !! d with Some (Directory es _ _) => es | _ => ∅ end.

Definition parent_of (fs : Fs) (d : FileId) : option FileId :=
  match i_kind <$> fs_inodes fs !! d with Some (Directory _ par _) => Some par | _ => None end.

Definition directory_at (fs : Fs) (d : FileId) : Prop := is_Some (parent_of fs d).

(** Every name and every parent of a directory leads to an inode, parents to
    directories, and so does the root; no directory is an orphan. *)
Record fs_wf (fs : Fs) : Prop := {
  wf_root : directory_at fs (fs_root fs);
  wf_parent : ∀ d par, parent_of fs d = Some par → directory_at fs par;
  wf_entry : ∀ d n i, entries_of fs d !! n = Some i → is_Some (fs_inodes fs !! i);
  wf_alive : ∀ d, is_dead fs d = false;
}.

(** Names lead to inodes. *)
Definition sound (fs : Fs) : Prop := ∀ d n i, entries_of fs d !! n = Some i → is_Some (fs_inodes fs !! i).

Lemma split_plain s : "/" ∉ s → split "/" s = [s].
Proof.
  induction s as [|c s IH]; intros Hs; cbn; [done|].
  destruct (decide (c = "/")) as [->|]; [set_solver|]. by rewrite IH by set_solver.
Qed.

Lemma kernel_components_name c :
  c ≠ [] → "/" ∉ c → kernel_components c = [c].
Proof.
  intros Hne Hs. unfold kernel_components. rewrite split_plain by done.
  rewrite filter_cons_True, filter_nil by done.
  destruct (decide _) as [Hl|]; [|done].
  apply last_Some in Hl as [l ->]. set_solver.
Qed.

Lemma not_absolute_name c : "/" ∉ c → is_absolute c = false.
Proof.
  intros Hs. unfold is_absolute. destruct (starts_with ["/"] c) eqn:Hp; [|done].
  apply starts_with_true in Hp as [k ->]. set_solver.
Qed.

Lemma dir_inode fs d par :
  parent_of fs d = Some par →
  ∃ dead uid perm, fs_inodes fs !! d = Some (mkInode (Directory (entries_of fs d) par dead) uid perm).
Proof.
  unfold parent_of, entries_of. destruct (fs_inodes fs !! d) as [[[] uid perm]|]; cbn; naive_solver.
Qed.

Section names.
Context (fs : Fs).

(** One name from a directory, unless a symbolic link has to be followed. *)
Lemma walk_plain follow links d c par dead uid perm :
  fs_inodes fs !! d = Some (mkInode (Directory (entries_of fs d) par dead) uid perm) →
  c ≠ ["."] → c ≠ [".";"."] →
  (follow = true → ∀ i t, entries_of fs d !! c = Some i → i_kind <$> fs_inodes fs !! i ≠ Some (Symlink t)) →
  walk fs follow links d [c] = Ok (AtName d c (entries_of fs d !! c)).
Proof.
  intros Hd Hc1 Hc2 Hf.
  destruct links; cbn [walk]; rewrite Hd, !decide_False by done;
    (destruct (entries_of fs d !! c) as [i|]; [|by rewrite decide_True by done]);
    rewrite !decide_True by done;
    (destruct (i_kind <$> fs_inodes fs !! i) as [[]|] eqn:Hk; [done..| |done]);
    (destruct follow; [|done]); by destruct (Hf eq_refl i target eq_refl).
Qed.

Lemma walk_dotdot follow links d es par dead uid perm :
  fs_inodes fs !! d = Some (mkInode (Directory es par dead) uid perm) →
  walk fs follow links d [[".";"."]] = Ok (AtDir par).
Proof. intros Hd. destruct links; cbn [walk]; by rewrite Hd, decide_False, decide_True by done. Qed.

Lemma namei_plain d c :
  plain_name c → directory_at fs d →
  namei fs false d c = Ok (AtName d c (entries_of fs d !! c)).
Proof.
  intros (Hne & Hsl & Hd1 & Hd2) [par Hpar]. unfold namei.
  rewrite decide_False, not_absolute_name, kernel_components_name by done.
  apply dir_inode in Hpar as (dead & uid & perm & Hi). by eapply walk_plain.
Qed.

Lemma namei_dotdot d par :
  parent_of fs d = Some par → namei fs false d [".";"."] = Ok (AtDir par).
Proof.
  intros Hpar. apply dir_inode in Hpar as (dead & uid & perm & Hi).
  unfold namei. rewrite decide_False, not_absolute_name, kernel_components_name by set_solver.
  by eapply walk_dotdot.
Qed.

Lemma resolve_plain d c :
  plain_name c → directory_at fs d →
  resolve fs false d c = match entries_of fs d !! c with Some i => Ok i | None => Err ENOENT end.
Proof. intros Hc Hd. unfold resolve. rewrite namei_plain by done. cbn. by destruct (_ !! c). Qed.

Lemma resolve_dotdot d par :
  parent_of fs d = Some par → resolve fs false d [".";"."] = Ok par.
Proof. intros Hpar. unfold resolve. by rewrite (namei_dotdot d par). Qed.

Lemma fresh_id_fresh d : fs_inodes fs !! fresh_id fs d = None.
Proof.
  apply not_elem_of_dom. intros Hin.
  apply (is_fresh (set_map id_ino (dom (fs_inodes fs)) : gset N)).
  change (id_ino (fresh_id fs d) ∈ (set_map id_ino (dom (fs_inodes fs)) : gset N)).
  by apply elem_of_map_2.
Qed.
End names.

(** ** Modes *)

Lemma type_bits_of k perm : N.land (N.lor (type_bits k) (N.land perm 4095)) S_IFMT = type_bits k.
Proof.
  rewrite N.land_lor_distr_l, <- N.land_assoc.
  replace (N.land 4095 S_IFMT) with 0%N by done. rewrite N.land_0_r, N.lor_0_r.
  by destruct k.
Qed.

Definition is_directory_kind (k : inode_kind) : bool :=
  match k with Directory _ _ _ => true | _ => false end.
Definition is_socket_kind (k : inode_kind) : bool :=
  match k with Socket _ => true | _ => false end.

Lemma is_dir_stat_of i n : is_dir (stat_of i n) = is_directory_kind (i_kind n).
Proof. unfold is_dir, stat_of. cbn. rewrite type_bits_of. by destruct (i_kind n). Qed.
Lemma is_socket_stat_of i n : is_socket (stat_of i n) = is_socket_kind (i_kind n).
Proof. unfold is_socket, stat_of. cbn. rewrite type_bits_of. by destruct (i_kind n). Qed.
Lemma st_id_stat_of i n : st_id (stat_of i n) = i.
Proof. by destruct i. Qed.

(** The permission bits a [0o777] or [0o077] mask selects. *)
Lemma perm_bits_of i n mask :
  (mask ≤ 511)%N → N.land (st_mode (stat_of i n)) mask = N.land (i_perm n) mask.
Proof.
  intros Hm. unfold stat_of. cbn. rewrite N.land_lor_distr_l, <- N.land_assoc.
  assert (Hlow : ∀ m, (m mod 512 = 0)%N → N.land m mask = 0%N).
  { intros m Hz. apply N.bits_inj_0. intros k. rewrite N.land_spec.
    destruct (N.lt_ge_cases k 9).
    - apply N.Div0.mod_divides in Hz as [q ->]. rewrite N.mul_comm. change 512%N with (2 ^ 9)%N.
      by rewrite N.mul_pow2_bits_low by done.
    - rewrite (N.bits_above_log2 mask), andb_false_r; [done|].
      destruct (decide (mask = 0)%N) as [->|]; [cbn; lia|].
      apply N.log2_lt_pow2; [lia|]. apply N.le_lt_trans with 511%N; [done|].
      apply N.lt_le_trans with (2 ^ 9)%N; [done|]. by apply N.pow_le_mono_r. }
  rewrite Hlow by (by destruct (i_kind n)). rewrite N.lor_0_l. f_equal.
  apply N.bits_inj. intros k. rewrite N.land_spec.
  destruct (N.testbit mask k) eqn:Hb; [|by rewrite andb_false_r].
  rewrite andb_true_r.
  change 4095%N with (N.ones 12). apply N.ones_spec_low.
  destruct (N.lt_ge_cases k 12) as [|Hge]; [done|].
  rewrite N.bits_above_log2 in Hb; [done|].
  destruct (decide (mask = 0)%N) as [->|]; [by rewrite N.bits_0 in Hb|].
  apply N.log2_lt_pow2; [lia|]. apply N.le_lt_trans with 511%N; [done|].
  apply N.lt_le_trans with (2 ^ 12)%N; [done|]. by apply N.pow_le_mono_r.
Qed.

(** ** Effects of the calls that change directories *)

(** Two inodes that differ at most in their directory entries. *)
Definition same_node (a b : inode) : Prop :=
  i_uid a = i_uid b ∧ i_perm a = i_perm b ∧
  match i_kind a, i_kind b with
  | Directory _ par dead, Directory _ par' dead' => par = par' ∧ dead = dead'
  | ka, kb => ka = kb
  end.

#[export] Instance same_node_refl : Reflexive same_node.
Proof. intros [[] ? ?]; by repeat split. Qed.
#[export] Instance same_node_trans : Transitive same_node.
Proof.
  intros [[] ? ?] [[] ? ?] [[] ? ?] (? & ? & ?) (? & ? & ?); repeat split; cbn in *; naive_solver congruence.
Qed.

Lemma same_node_set_entries f n : same_node n (set_entries f n).
Proof. by destruct n as [[] ? ?]. Qed.

Lemma lookup_update_inode fs f i j :
  fs_inodes (update_inode f i fs) !! j = if decide (j = i) then f <$> fs_inodes fs !! i else fs_inodes fs !! j.
Proof. cbn. destruct (decide _) as [->|]; [apply lookup_alter_eq|by apply lookup_alter_ne]. Qed.

Lemma entries_of_set_entries fs f d e :
  (f ∅ = ∅ ∨ directory_at fs d) →
  entries_of (update_inode (set_entries f) d fs) e = if decide (e = d) then f (entries_of fs d) else entries_of fs e.
Proof.
  intros Hd. unfold entries_of at 1. rewrite lookup_update_inode. destruct (decide (e = d)); [|done].
  unfold entries_of, directory_at, parent_of in *.
  destruct (fs_inodes fs !! d) as [[[] ? ?]|]; cbn in *; try done;
    (destruct Hd as [Hd|[? Hd]]; [done|discriminate Hd]).
Qed.

Section effects.
Context (fs : Fs).

(** The state after [mkdir] or [bind] in a directory without the name. *)
Lemma create_inode_spec d n nd i fs' :
  create_inode d n nd fs = (i, fs') → directory_at fs d → match i_kind nd with Directory es _ _ => es = ∅ | _ => True end →
  fs_inodes fs !! i = None ∧ i ≠ d ∧ fs_root fs' = fs_root fs ∧ fs_inodes fs' !! i = Some nd
  ∧ (∀ j nj, fs_inodes fs !! j = Some nj → ∃ nj', fs_inodes fs' !! j = Some nj' ∧ same_node nj nj')
  ∧ (∀ j, j ≠ d → j ≠ i → fs_inodes fs' !! j = fs_inodes fs !! j)
  ∧ (∀ e m, entries_of fs' e !! m = if decide (e = d ∧ m = n) then Some i else entries_of fs e !! m).
Proof.
  unfold create_inode. intros [= Hi <-] Hd Hempty. pose proof (fresh_id_fresh fs d) as Hf. rewrite Hi in *.
  assert (Hne : i ≠ d).
  { intros ->. unfold directory_at, parent_of in Hd. rewrite Hf in Hd. by apply is_Some_None in Hd. }
  set (fs1 := mkFs (<[i := nd]> (fs_inodes fs)) (fs_root fs)).
  assert (Hd1 : directory_at fs1 d).
  { unfold directory_at, parent_of, fs1. cbn. by rewrite lookup_insert_ne by done. }
  repeat split; try done.
  - rewrite lookup_update_inode, decide_False by done. apply lookup_insert_eq.
  - intros j nj Hj. rewrite lookup_update_inode. cbn. destruct (decide (j = d)) as [->|].
    + rewrite lookup_insert_ne by done. rewrite Hj. eexists. split; [done|]. apply same_node_set_entries.
    + rewrite lookup_insert_ne by congruence. by exists nj.
  - intros j Hjd Hji. rewrite lookup_update_inode, decide_False by done. by apply lookup_insert_ne.
  - intros e m. rewrite entries_of_set_entries by auto. unfold fs1, entries_of in *. cbn in *.
    destruct (decide (e = d)) as [->|].
    + rewrite (lookup_insert_ne _ i d) by done. rewrite lookup_insert.
      destruct (decide (n = m)), (decide (d = d ∧ m = n)); naive_solver.
    + destruct (decide (e = d ∧ m = n)) as [[? _]|]; [done|].
      destruct (decide (e = i)) as [->|].
      * rewrite lookup_insert_eq, Hf. cbn in *. destruct (i_kind nd); by subst.
      * by rewrite lookup_insert_ne.
Qed.

(** The state after a name is gone. *)
Lemma entries_of_unlinked d n e m :
  entries_of (update_inode (set_entries (delete n)) d fs) e !! m
  = if decide (e = d ∧ m = n) then None else entries_of fs e !! m.
Proof.
  rewrite entries_of_set_entries by (left; apply delete_empty).
  destruct (decide (e = d)) as [->|].
  - rewrite lookup_delete. destruct (decide (n = m)), (decide (d = d ∧ m = n)); naive_solver.
  - destruct (decide (e = d ∧ m = n)); naive_solver.
Qed.

Lemma entries_of_dead i e : entries_of (update_inode set_dead i fs) e = entries_of fs e.
Proof.
  unfold entries_of at 1. rewrite lookup_update_inode. unfold entries_of.
  destruct (decide (e = i)) as [->|]; [|done]. by destruct (fs_inodes fs !! i) as [[[] ? ?]|].
Qed.
End effects.

(** ** Single calls in a quiet world *)

Section quiet_calls.
Context (p : process) (fs : Fs).

Lemma exec_fstatat d n :
  plain_name n → directory_at fs d →
  exec p fs (Fstatat d n)
  = (match entries_of fs d !! n with
     | Some i => ret_of RStat (stat_inode fs i)
     | None => RErr ENOENT
     end, fs).
Proof. intros Hn Hd. cbn. rewrite resolve_plain by done. by destruct (_ !! n). Qed.

Lemma exec_unlinkat d n i b :
  plain_name n → directory_at fs d → entries_of fs d !! n = Some i →
  exec p fs (Unlinkat d n b)
  = match i_kind <$> fs_inodes fs !! i, b with
    | Some (Directory entries _ _), true =>
        if decide (entries = ∅)
        then (RUnit, update_inode set_dead i (update_inode (set_entries (delete n)) d fs))
        else (RErr ENOTEMPTY, fs)
    | Some (Directory _ _ _), false => (RErr EISDIR, fs)
    | _, true => (RErr ENOTDIR, fs)
    | _, false => (RUnit, update_inode (set_entries (delete n)) d fs)
    end.
Proof. intros Hn Hd Hi. cbn. unfold exec_unlink. by rewrite namei_plain, Hi by done. Qed.

Lemma exec_open_directory d n :
  plain_name n → directory_at fs d →
  exec p fs (Open_directory d n)
  = (match entries_of fs d !! n with
     | Some i => ret_of RFd (open_directory fs i)
     | None => RErr ENOENT
     end, fs).
Proof. intros Hn Hd. cbn. rewrite resolve_plain by done. by destruct (_ !! n). Qed.

Lemma exec_open_dotdot d par :
  parent_of fs d = Some par → directory_at fs par →
  exec p fs (Open_directory d [".";"."]) = (RFd par, fs).
Proof.
  intros Hpar [gp Hgp]. cbn. rewrite (resolve_dotdot _ _ par) by done. cbn.
  apply dir_inode in Hgp as (? & ? & ? & Hi). unfold open_directory. by rewrite Hi.
Qed.

Lemma exec_mkdirat d n mode :
  plain_name n → directory_at fs d → is_dead fs d = false → entries_of fs d !! n = None →
  exec p fs (Mkdirat d n mode)
  = (RUnit, (create_inode d n (mkInode (Directory ∅ d false) (p_euid p) (N.ldiff mode (p_umask p))) fs).2).
Proof. intros Hn Hd Hdead Hnone. cbn. unfold exec_create. by rewrite namei_plain, Hnone, Hdead by done. Qed.

Lemma exec_bind d n :
  plain_name n → directory_at fs d → is_dead fs d = false → entries_of fs d !! n = None →
  exec p fs (Bind d n)
  = (RFd (create_inode d n (mkInode (Socket false) (p_euid p) (N.ldiff 511 (p_umask p))) fs).1,
     (create_inode d n (mkInode (Socket false) (p_euid p) (N.ldiff 511 (p_umask p))) fs).2).
Proof. intros Hn Hd Hdead Hnone. cbn. unfold exec_create. by rewrite namei_plain, Hnone, Hdead by done. Qed.

(** Following a name that is not a symbolic link changes nothing. *)
Lemma resolve_follow_plain d n i nd :
  plain_name n → directory_at fs d → entries_of fs d !! n = Some i →
  fs_inodes fs !! i = Some nd → (∀ t, i_kind nd ≠ Symlink t) →
  resolve fs true d n = Ok i.
Proof.
  intros (Hne & Hsl & Hd1 & Hd2) [par Hpar] Hi Hnd Hns. unfold resolve, namei.
  rewrite decide_False, not_absolute_name, kernel_components_name by done.
  apply dir_inode in Hpar as (dead & uid & perm & Hdi).
  rewrite (walk_plain _ _ _ _ _ _ _ _ _ Hdi) by (try done; intros _ j t; rewrite Hi; intros [= <-]; rewrite Hnd; naive_solver).
  by rewrite Hi.
Qed.

Lemma entries_directory d n i : entries_of fs d !! n = Some i → directory_at fs d.
Proof.
  unfold entries_of, directory_at, parent_of. destruct (fs_inodes fs !! d) as [[[] ? ?]|]; cbn; done.
Qed.
End quiet_calls.

(** ** Changes that keep names

    [keeps imp fs fs']: inodes changed at most their permissions and their
    entries, and the names of every inode whose kind [imp] selects are kept. *)

Definition same_kind (a b : inode) : Prop :=
  i_uid a = i_uid b ∧
  match i_kind a, i_kind b with
  | Directory _ par dead, Directory _ par' dead' => par = par' ∧ dead = dead'
  | ka, kb => ka = kb
  end.

#[export] Instance same_kind_refl : Reflexive same_kind.
Proof. intros [[] ? ?]; by repeat split. Qed.
#[export] Instance same_kind_trans : Transitive same_kind.
Proof. intros [[] ? ?] [[] ? ?] [[] ? ?] (? & ?) (? & ?); split; cbn in *; naive_solver congruence. Qed.

Record keeps (imp : inode_kind → bool) (fs fs' : Fs) : Prop := {
  kp_root : fs_root fs' = fs_root fs;
  kp_node : ∀ j nj, fs_inodes fs !! j = Some nj → ∃ nj', fs_inodes fs' !! j = Some nj' ∧ same_kind nj nj';
  kp_entries : ∀ d n i ni, entries_of fs d !! n = Some i → fs_inodes fs !! i = Some ni →
    imp (i_kind ni) = true → entries_of fs' d !! n = Some i;
}.

#[export] Instance keeps_refl imp : Reflexive (keeps imp).
Proof. intros fs. split; [done|intros j nj; by exists nj|done]. Qed.

(** Whether a kind matters does not depend on a directory's entries. *)
Definition stable_kinds (imp : inode_kind → bool) : Prop :=
  ∀ a b, same_kind a b → imp (i_kind a) = imp (i_kind b).

Lemma keeps_trans imp fs1 fs2 fs3 :
  stable_kinds imp → keeps imp fs1 fs2 → keeps imp fs2 fs3 → keeps imp fs1 fs3.
Proof.
  intros Himp [Hr1 Hn1 He1] [Hr2 Hn2 He2]. split; [congruence| |].
  - intros j nj Hj. destruct (Hn1 j nj Hj) as (nj2 & Hj2 & ?). destruct (Hn2 j nj2 Hj2) as (nj3 & ? & ?).
    exists nj3. split; [done|]. by trans nj2.
  - intros d n i ni Hi Hni Hk. destruct (Hn1 i ni Hni) as (ni2 & Hni2 & Hs).
    eapply He2; [by eapply He1|exact Hni2|]. by rewrite <- (Himp _ _ Hs).
Qed.

Lemma keeps_directory imp fs fs' d par dead uid perm :
  keeps imp fs fs' → fs_inodes fs !! d = Some (mkInode (Directory (entries_of fs d) par dead) uid perm) →
  ∃ perm', fs_inodes fs' !! d = Some (mkInode (Directory (entries_of fs' d) par dead) uid perm').
Proof.
  intros Hg Hd. destruct (kp_node _ _ _ Hg d _ Hd) as ([k u q] & Hd' & Hu & Hk). cbn in *.
  exists q. unfold entries_of. rewrite Hd'. cbn. destruct k; naive_solver.
Qed.

(** The outcome of a walk in the changed file system: a name that was free may
    have been taken. *)
Definition regrown (fs' : Fs) (r : walked) : walked :=
  match r with AtName d n None => AtName d n (entries_of fs' d !! n) | r => r end.

(** One step of a walk, for any number of links left. *)
Lemma walk_cons fs follow links cur c rest :
  walk fs follow links cur (c :: rest) =
  match fs_inodes fs !! cur with
  | Some (mkInode (Directory entries parent _) _ _) =>
      if decide (c = ["."]) then walk fs follow links cur rest
      else if decide (c = [".";"."]) then walk fs follow links parent rest
      else match entries !! c with
           | None => if decide (rest = []) then Ok (AtName cur c None) else Err ENOENT
           | Some i =>
               match i_kind <$> fs_inodes fs !! i with
               | Some (Symlink target) =>
                   let follow_link cs :=
                     match links with
                     | O => Err ELOOP
                     | S l => walk fs follow l (if is_absolute target then fs_root fs else cur) cs
                     end in
                   if decide (rest = []) then
                     if follow then follow_link (kernel_components target) else Ok (AtName cur c (Some i))
                   else follow_link (kernel_components target ++ rest)
               | _ => if decide (rest = []) then Ok (AtName cur c (Some i)) else walk fs follow links i rest
               end
           end
  | _ => Err ENOTDIR
  end.
Proof. by destruct links. Qed.

Lemma walk_nil fs follow links cur : walk fs follow links cur [] = Ok (AtDir cur).
Proof. by destruct links. Qed.

Section walk_keeps.
Context (imp : inode_kind → bool) (fs fs' : Fs) (follow : bool).
Hypothesis Himp : ∀ k, match k with Directory _ _ _ | Symlink _ => imp k = true | _ => True end.
Hypothesis Hg : keeps imp fs fs'.
Hypothesis Hwf : ∀ d n i, entries_of fs d !! n = Some i → is_Some (fs_inodes fs !! i).

Lemma walk_keeps links : ∀ cs cur r,
  walk fs follow links cur cs = Ok r →
  (∀ d n i ni, r = AtName d n (Some i) → fs_inodes fs !! i = Some ni → imp (i_kind ni) = true) →
  (∀ d n i t, r = AtName d n None → entries_of fs' d !! n = Some i →
     follow = true → i_kind <$> fs_inodes fs' !! i ≠ Some (Symlink t)) →
  walk fs' follow links cur cs = Ok (regrown fs' r).
Proof using Type*.
  induction links as [links IHl] using lt_wf_ind. induction cs as [|c cs IHcs]; intros cur r Hw Hold Hnew.
  { rewrite walk_nil in *. by simplify_eq. }
  rewrite walk_cons in *. cbv zeta in *.
  destruct (fs_inodes fs !! cur) as [[[es par dead| | |] uid perm]|] eqn:Hcur; [|done..].
  assert (Hes : es = entries_of fs cur) by (unfold entries_of; by rewrite Hcur). subst es.
  destruct (keeps_directory _ _ _ _ _ _ _ _ Hg Hcur) as [perm' ->].
  destruct (decide (c = ["."])); [by apply IHcs|]. destruct (decide (c = [".";"."])); [by apply IHcs|].
  destruct (entries_of fs cur !! c) as [i|] eqn:Hc.
  - destruct (Hwf _ _ _ Hc) as [ni Hni]. destruct (kp_node _ _ _ Hg _ _ Hni) as (ni' & Hni' & _ & Hk).
    rewrite Hni in Hw. cbn [fmap option_fmap option_map] in Hw.
    assert (Hki : imp (i_kind ni) = true).
    { specialize (Himp (i_kind ni)). destruct (i_kind ni) eqn:Hkk; try done;
        (destruct (decide (cs = [])); [simplify_eq; rewrite <- Hkk; by apply (Hold cur c i ni)|]);
        (destruct cs as [|c' cs']; [done|]; rewrite walk_cons, Hni in Hw; destruct ni; cbn in *; by subst). }
    rewrite (kp_entries _ _ _ Hg _ _ _ _ Hc Hni Hki), Hni'. cbn [fmap option_fmap option_map].
    rewrite (kp_root _ _ _ Hg).
    destruct (i_kind ni) as [| | |t], (i_kind ni') as [| | |t']; try done;
      try (destruct (decide (cs = [])); [by simplify_eq|by apply IHcs]).
    injection Hk as <-. destruct (decide (cs = [])).
    + destruct follow; [|by simplify_eq]. destruct links as [|l]; [done|]. apply IHl; [lia|done..].
    + destruct links as [|l]; [done|]. apply IHl; [lia|done..].
  - destruct (decide (cs = [])); [|done]. simplify_eq. cbn.
    destruct (entries_of fs' cur !! c) as [i|] eqn:Hc'; [|done].
    destruct (i_kind <$> fs_inodes fs' !! i) as [[| | |t]|] eqn:Hk; [done..| |done].
    destruct follow; [|done]. by destruct (Hnew cur c i t eq_refl Hc' eq_refl).
Qed.

(** A path that leads to an inode whose names are kept still leads there. *)
Lemma resolve_keeps d path i ni :
  resolve fs follow d path = Ok i → fs_inodes fs !! i = Some ni → imp (i_kind ni) = true →
  resolve fs' follow d path = Ok i.
Proof using Type*.
  unfold resolve, namei. destruct (decide (path = [])); [intros [=]|]. rewrite (kp_root _ _ _ Hg).
  generalize MAXSYMLINKS as links. intros links.
  destruct (walk fs follow links _ _) as [r|e] eqn:Hw; [|intros [=]]. cbn. intros Hr Hni Hki.
  rewrite (walk_keeps _ _ _ _ Hw).
  - destruct r as [d' m [j|]|d']; by simplify_eq/=.
  - intros e' n' j nj -> Hj. cbn in Hr. by simplify_eq.
  - intros e' n' j t -> Hj. discriminate Hr.
Qed.
End walk_keeps.

(** A walk that does not end at a symbolic link is the same whether or not a
    final link would be followed. *)
Lemma walk_follow fs links : ∀ cs cur d n o,
  walk fs false links cur cs = Ok (AtName d n o) →
  (∀ i t, o = Some i → i_kind <$> fs_inodes fs !! i ≠ Some (Symlink t)) →
  walk fs true links cur cs = Ok (AtName d n o).
Proof.
  induction links as [links IHl] using lt_wf_ind. induction cs as [|c cs IHcs]; intros cur d n o Hw Ho.
  { by rewrite walk_nil in *. }
  rewrite walk_cons in *. cbv zeta in *.
  destruct (fs_inodes fs !! cur) as [[[es par dead| | |] uid perm]|]; [|done..].
  destruct (decide (c = ["."])); [by apply IHcs|]. destruct (decide (c = [".";"."])); [by apply IHcs|].
  destruct (es !! c) as [i|]; [|done].
  destruct (i_kind <$> fs_inodes fs !! i) as [[| | |t]|] eqn:Hk;
    (destruct (decide (cs = [])); [try done|]); try (by apply IHcs).
  - simplify_eq. by destruct (Ho i t eq_refl).
  - destruct links as [|l]; [done|]. by apply IHl; [lia|..].
Qed.

(** Where a walk ends. *)
Lemma walk_end fs follow links : ∀ cs cur d n o,
  walk fs follow links cur cs = Ok (AtName d n o) → entries_of fs d !! n = o ∧ directory_at fs d.
Proof.
  induction links as [links IHl] using lt_wf_ind. induction cs as [|c cs IHcs]; intros cur d n o Hw.
  { by rewrite walk_nil in *. }
  rewrite walk_cons in Hw. cbv zeta in *.
  destruct (fs_inodes fs !! cur) as [[[es par dead| | |] uid perm]|] eqn:Hcur; [|done..].
  assert (Hhere : entries_of fs cur = es ∧ directory_at fs cur).
  { unfold entries_of, directory_at, parent_of. by rewrite Hcur. }
  destruct Hhere as [He Hd].
  destruct (decide (c = ["."])); [by eapply IHcs|]. destruct (decide (c = [".";"."])); [by eapply IHcs|].
  destruct (es !! c) as [i|] eqn:Hc; [|destruct (decide (cs = [])); [injection Hw as <- <- <-; by rewrite He|done]].
  destruct (i_kind <$> fs_inodes fs !! i) as [[| | |t]|];
    (destruct (decide (cs = [])); [try (injection Hw as <- <- <-; by rewrite He)|]); try (by eapply IHcs).
  - destruct follow; [|injection Hw as <- <- <-; by rewrite He]. destruct links as [|l]; [done|]. eapply IHl; [|exact Hw]. lia.
  - destruct links as [|l]; [done|]. eapply IHl; [|exact Hw]. lia.
Qed.

Lemma namei_end fs follow d0 path d n o :
  namei fs follow d0 path = Ok (AtName d n o) → entries_of fs d !! n = o ∧ directory_at fs d.
Proof. unfold namei. destruct (decide (path = [])); [intros [=]|]. apply walk_end. Qed.

Lemma namei_follow fs d0 path d n o :
  namei fs false d0 path = Ok (AtName d n o) →
  (∀ i t, o = Some i → i_kind <$> fs_inodes fs !! i ≠ Some (Symlink t)) →
  namei fs true d0 path = Ok (AtName d n o).
Proof. unfold namei. destruct (decide (path = [])); [intros [=]|]. apply walk_follow. Qed.
