(* ===== verification/SocketDirs.v ===== *)
(** Session sockets and the directories created for them
    (src/proxy_runtime/rama/ingress.rs, src/platform.rs).

    [UnixSocketGuard::bind] walks to the parent directory of a socket path
    through held descriptors, creating what is missing; the registry counts
    how many live sockets lease each directory and remembers which ones the
    daemon created, and dropping a guard removes its socket and, with the last
    lease, the directories. Functions that take the registry by [&mut] return
    it; destructors are explicit calls, in the order Rust runs them. A lease
    count is a [usize] that would need 2^64 open sockets to overflow. *)

From S2P Require Import Prelude RustStr RustPath PosixFs.
From stdpp Require Import options.
Local Open Scope char_scope.

(** ** src/platform.rs *)

(** [std::env::current_dir]. *)
Definition current_dir : Sys (result io_error str) :=
  r ← libc as_path Getcwd; mret (map_err OsError r).

(** A path-based call resolves relative paths from the working directory. *)
Definition with_cwd {A} (f : FileId → Sys A) : Sys A := λ w, f (p_cwd (w_proc w)) w.

Lemma emits_cwd {A} (G : A → trace → Prop) (f : FileId → Sys A) :
  (∀ cwd, emits G (f cwd)) → emits G (with_cwd f).
Proof. intros Hf w. apply Hf. Qed.
Lemma runs_cwd {A} p fs (f : FileId → Sys A) a fs' :
  runs p fs (f (p_cwd p)) a fs' → runs p fs (with_cwd f) a fs'.
Proof. intros Hf tr. apply Hf. Qed.

Definition symlink_metadata (path : str) : Sys (result errno stat) :=
  with_cwd (λ cwd, libc as_stat (Fstatat cwd path)).

(** Linux: only the conventional alias [/var/run -> /run] is resolved. *)
Definition normalize_system_path (path : str) : Sys str :=
  let alias := lit "/var/run" in
  match strip_path_prefix path alias with
  | None => mret path
  | Some suffix =>
      metadata ← symlink_metadata alias;
      match metadata with
      | Ok st =>
          if is_symlink st then
            target ← with_cwd (λ cwd, libc as_path (Readlink cwd alias));
            match target with
            | Ok t => mret (if path_eqb t (lit "/run") then path_join (lit "/run") suffix else path)
            | Err _ => mret path
            end
          else mret path
      | Err _ => mret path
      end
  end.

(** ** Data *)

Definition UNIX_SOCKET_PATH_BYTES : nat := 108.

(** Device and inode, as the registry's key. *)
Abbreviation DirectoryKey := FileId (only parsing).

Record DirectoryRecord := mkDirectoryRecord {
  dr_parent : FileId;
  dr_name : str;
  dr_device : N;
  dr_inode : N;
  dr_path : str;
  dr_created_by_baffle : bool;
  dr_leases : N;
}.

Abbreviation SocketDirectoryRegistry := (gmap FileId DirectoryRecord) (only parsing).

(** [SocketDirectoryRegistry::default]. *)
Definition empty_registry : SocketDirectoryRegistry := ∅.

(** The guard, with the keys of its [CreatedDirectorySet]. *)
Record UnixSocketGuard := mkUnixSocketGuard {
  ug_path : str;
  ug_parent : FileId;
  ug_name : str;
  ug_device : N;
  ug_inode : N;
  ug_created_directories : list DirectoryKey;
}.

Definition ug_id (g : UnixSocketGuard) : FileId := mkFileId (ug_device g) (ug_inode g).

(** ** Inspecting and removing entries *)

Definition stat_at (parent : FileId) (name : str) : Sys (result io_error (option stat)) :=
  r ← libc as_stat (Fstatat parent name);
  mret (match r with
        | Ok st => Ok (Some st)
        | Err e => if decide (errno_kind e = NotFound) then Ok None else Err (OsError e)
        end).

Definition unlink_directory_at (record : DirectoryRecord) : Sys (result errno unit) :=
  libc as_unit (Unlinkat (dr_parent record) (dr_name record) true).

Definition same_directory (metadata : stat) (device inode : N) : bool :=
  is_dir metadata && (st_dev metadata =? device)%N && (st_ino metadata =? inode)%N.

Definition remove_created_directory_if_unchanged (parent : FileId) (name : str) (expected : stat) : Sys unit :=
  r ← stat_at parent name;
  match r with
  | Ok (Some metadata) =>
      if same_directory metadata (st_dev expected) (st_ino expected)
      then _ ← libc as_unit (Unlinkat parent name true); mret ()
      else mret ()
  | _ => mret ()
  end.

Definition set_created_directory_mode (parent : FileId) (name : str) (expected : stat)
    : Sys (result io_error unit) :=
  fd ← libc as_fd (Open_directory parent name);
  match fd with
  | Err e => mret (Err (OsError e))
  | Ok directory =>
      r ← libc as_stat (Fstat directory);
      match r with
      | Err e => mret (Err (OsError e))
      | Ok metadata =>
          if negb (is_dir metadata) || negb (st_dev metadata =? st_dev expected)%N
             || negb (st_ino metadata =? st_ino expected)%N
          then mret (Err (CustomError OtherKind "created socket directory changed before permission setup"))
          else
            r ← libc as_unit (Fchmod directory 448);
            mret (map_err OsError r)
      end
  end.

(** ** Leases *)

Definition with_leases (n : N) (r : DirectoryRecord) : DirectoryRecord :=
  mkDirectoryRecord (dr_parent r) (dr_name r) (dr_device r) (dr_inode r) (dr_path r)
    (dr_created_by_baffle r) n.

Definition release_directory_lease (registry : SocketDirectoryRegistry) (key : DirectoryKey)
    : Sys SocketDirectoryRegistry :=
  match registry !! key with
  | None => mret registry
  | Some record =>
      let leases := (dr_leases record - 1)%N in
      if negb (leases =? 0)%N then mret (<[key := with_leases leases record]> registry)
      else
        _ ← (if negb (dr_created_by_baffle record) then mret (Ok ())
             else
               r ← stat_at (dr_parent record) (dr_name record);
               match r with
               | Ok (Some metadata) =>
                   if same_directory metadata (dr_device record) (dr_inode record)
                   then unlink_directory_at record
                   else mret (Ok ())
               | _ => mret (Ok ())
               end);
        mret (delete key registry)
  end.

(** [CreatedDirectorySet::drop]: [keys.pop()] until empty. *)
Fixpoint release_popped (registry : SocketDirectoryRegistry) (popped : list DirectoryKey)
    : Sys SocketDirectoryRegistry :=
  match popped with
  | [] => mret registry
  | key :: rest => registry ← release_directory_lease registry key; release_popped registry rest
  end.
Definition drop_created_directories (registry : SocketDirectoryRegistry) (keys : list DirectoryKey)
    : Sys SocketDirectoryRegistry := release_popped registry (reverse keys).

Definition register_directory (registry : SocketDirectoryRegistry) (parent : FileId) (name : str)
    (metadata : stat) (path : str) (created_by_baffle : bool)
    : Sys (result io_error (DirectoryKey * SocketDirectoryRegistry)) :=
  let key := st_id metadata in
  clone ← libc as_fd (Dup parent);
  mret (match clone with
        | Err e => Err (OsError e)
        | Ok parent =>
            let record :=
              default (mkDirectoryRecord parent name (id_dev key) (id_ino key) path created_by_baffle 0)
                (registry !! key) in
            let record :=
              mkDirectoryRecord (dr_parent record) (dr_name record) (dr_device record) (dr_inode record)
                (dr_path record) (dr_created_by_baffle record || created_by_baffle) (dr_leases record + 1) in
            Ok (key, <[key := record]> registry)
        end).

(** ** Walking to the parent directory *)

(** [openat], or [mkdirat] and [openat] when the name is missing. The boolean
    says that this call made the directory. *)
Definition open_or_create (current : FileId) (name : str) : Sys (bool * result errno FileId) :=
  fd ← libc as_fd (Open_directory current name);
  match fd with
  | Err e =>
      if decide (errno_kind e = NotFound) then
        mkdir ← libc as_unit (Mkdirat current name 448);
        match mkdir with
        | Err e' =>
            if decide (errno_kind e' = AlreadyExists) then
              fd ← libc as_fd (Open_directory current name); mret (false, fd)
            else mret (false, Err e')
        | Ok _ => fd ← libc as_fd (Open_directory current name); mret (true, fd)
        end
      else mret (false, Err e)
  | Ok i => mret (false, Ok i)
  end.

(** One component: the descriptor to go on from and the registry. *)
Definition enter_component (registry : SocketDirectoryRegistry) (current : FileId) (name normalized : str)
    : Sys (result io_error (DirectoryKey * SocketDirectoryRegistry * FileId)) :=
  opened ← open_or_create current name;
  let '(made, fd) := (opened : bool * result errno FileId) in
  match fd with
  | Err e => mret (Err (OsError e))
  | Ok next =>
      r ← libc as_stat (Fstat next);
      match r with
      | Err e => mret (Err (OsError e))
      | Ok metadata =>
          if negb (is_dir metadata)
          then mret (Err (CustomError NotADirectory "socket path component is not a directory"))
          else
            mode ← (if made then set_created_directory_mode current name metadata else mret (Ok ()));
            match mode with
            | Err e =>
                _ ← remove_created_directory_if_unchanged current name metadata;
                mret (Err e)
            | Ok _ =>
                registered ← register_directory registry current name metadata normalized made;
                match registered with
                | Ok (key, registry) => mret (Ok (key, registry, next))
                | Err e =>
                    _ ← (if made then remove_created_directory_if_unchanged current name metadata
                         else mret ());
                    mret (Err e)
                end
            end
      end
  end.

(** The name of a component, when it has to be entered. *)
Definition component_name (c : component) : result io_error (option str) :=
  match c with
  | RootDirC | CurDirC => Ok None
  | ParentDirC => Ok (Some [".";"."])
  | NormalC name =>
      if contains_char "000" name then Err (CustomError InvalidInput "invalid directory name")
      else Ok (Some name)
  end.

(** The loop over the components; what was registered stays registered when
    it ends with an error. *)
Fixpoint enter_components (registry : SocketDirectoryRegistry) (keys : list DirectoryKey)
    (current : FileId) (normalized : str) (cs : list component)
    : Sys (result io_error FileId * SocketDirectoryRegistry * list DirectoryKey) :=
  match cs with
  | [] => mret (Ok current, registry, keys)
  | c :: cs =>
      match component_name c with
      | Err e => mret (Err e, registry, keys)
      | Ok None => enter_components registry keys current normalized cs
      | Ok (Some name) =>
          let normalized := path_join normalized (to_string_lossy name) in
          r ← enter_component registry current name normalized;
          match r with
          | Err e => mret (Err e, registry, keys)
          | Ok (key, registry, next) =>
              enter_components registry (keys ++ [key]) next normalized cs
          end
      end
  end.

Definition open_socket_parent_locked (path : str) (registry : SocketDirectoryRegistry)
    : Sys (result io_error (FileId * str) * SocketDirectoryRegistry * list DirectoryKey) :=
  let parent_path := parent_or_dot path in
  logical ← (if is_absolute parent_path then mret (Ok parent_path)
             else cwd ← current_dir; mret ((λ cwd, path_join cwd parent_path) <$> cwd));
  match logical with
  | Err e => mret (Err e, registry, [])
  | Ok logical_absolute_parent =>
      absolute_parent ← normalize_system_path logical_absolute_parent;
      root ← libc as_fd Open_root;
      match root with
      | Err e => mret (Err (OsError e), registry, [])
      | Ok root =>
          r ← enter_components registry [] root ["/"] (components absolute_parent);
          let '(current, registry, keys) := r in
          mret (match current with
                | Err e => (Err e, registry, keys)
                | Ok current =>
                    (match file_name path with
                     | None => Err (CustomError InvalidInput "missing socket name")
                     | Some name => Ok (current, path_join logical_absolute_parent name)
                     end, registry, keys)
                end)
      end
  end.

Definition open_socket_parent (path : str) (registry : SocketDirectoryRegistry)
    : Sys (result io_error (FileId * list DirectoryKey * str) * SocketDirectoryRegistry) :=
  r ← open_socket_parent_locked path registry;
  let '(result, registry, keys) := r in
  match result with
  | Ok (parent, normalized) => mret (Ok (parent, keys, normalized), registry)
  | Err e => registry ← drop_created_directories registry keys; mret (Err e, registry)
  end.

(** ** The guard *)

Definition matches (g : UnixSocketGuard) (metadata : stat) : bool :=
  is_socket metadata && (st_dev metadata =? ug_device g)%N && (st_ino metadata =? ug_inode g)%N.

Definition unlink_owned (g : UnixSocketGuard) : Sys unit :=
  r ← stat_at (ug_parent g) (ug_name g);
  match r with
  | Ok (Some metadata) =>
      if matches g metadata
      then _ ← libc as_unit (Unlinkat (ug_parent g) (ug_name g) false); mret ()
      else mret ()
  | _ => mret ()
  end.

(** [UnixSocketGuard::drop], then its field [_created_directories]. *)
Definition drop_guard (g : UnixSocketGuard) (registry : SocketDirectoryRegistry)
    : Sys SocketDirectoryRegistry :=
  _ ← unlink_owned g;
  drop_created_directories registry (ug_created_directories g).

(** [UnixListener::bind]: a socket bound to the path, then listening. *)
Definition listener_bind (parent : FileId) (name : str) : Sys (result errno FileId) :=
  fd ← libc as_fd (Bind parent name);
  match fd with
  | Err e => mret (Err e)
  | Ok i => r ← libc as_unit (Listen i);
            mret (match r with Ok _ => Ok i | Err e => Err e end)
  end.

(** From the bound listener on: the guard, the permissions, the check. *)
Definition guard_listener (listener parent : FileId) (name bind_name normalized : str)
    (keys : list DirectoryKey) (registry : SocketDirectoryRegistry)
    : Sys (result io_error (FileId * UnixSocketGuard) * SocketDirectoryRegistry) :=
  identity ← stat_at parent name;
  match identity with
  | Err _ | Ok None =>
      _ ← close_listener listener;
      registry ← drop_created_directories registry keys;
      mret (Err (match identity with
                 | Err e => e
                 | Ok _ => CustomError OtherKind "bound Unix socket disappeared"
                 end), registry)
  | Ok (Some identity) =>
      let guard := mkUnixSocketGuard normalized parent name (st_dev identity) (st_ino identity) keys in
      let fail e :=
        registry ← drop_guard guard registry;
        _ ← close_listener listener;
        mret (Err e, registry) in
      chmod ← libc as_unit (Fchmodat parent bind_name 384);
      match chmod with
      | Err e => fail (OsError e)
      | Ok _ =>
          current ← stat_at parent name;
          match current with
          | Err e => fail e
          | Ok current =>
              if negb (match current with Some m => matches guard m | None => false end)
                 || match current with Some m => negb (N.land (st_mode m) 511 =? 384)%N | None => false end
              then fail (CustomError OtherKind "bound Unix socket identity or permissions changed")
              else mret (Ok (listener, guard), registry)
          end
      end
  end.

(** [UnixSocketGuard::bind]; [bind_unix_listener] is its only caller. The
    socket is bound through [/proc/self/fd/<parent>/<name>]. *)
Definition guard_bind (path : str) (registry : SocketDirectoryRegistry)
    : Sys (result io_error (FileId * UnixSocketGuard) * SocketDirectoryRegistry) :=
  absolute ← (if is_absolute path then mret (Ok path)
              else cwd ← current_dir; mret ((λ cwd, path_join cwd path) <$> cwd));
  match absolute with
  | Err e => mret (Err e, registry)
  | Ok absolute =>
      if decide (UNIX_SOCKET_PATH_BYTES ≤ length absolute)
      then mret (Err (CustomError InvalidInput "Unix socket path is too long"), registry)
      else
        match file_name absolute with
        | None => mret (Err (CustomError InvalidInput "missing socket name"), registry)
        | Some name =>
            if contains_char "000" name
            then mret (Err (CustomError InvalidInput "invalid socket name"), registry)
            else
              opened ← open_socket_parent absolute registry;
              let '(opened, registry) := opened in
              match opened with
              | Err e => mret (Err e, registry)
              | Ok (parent, keys, normalized) =>
                  let fail e := registry ← drop_created_directories registry keys; mret (Err e, registry) in
                  existing ← stat_at parent name;
                  match existing with
                  | Err e => fail e
                  | Ok (Some _) => fail (CustomError AlreadyExists "socket path exists")
                  | Ok None =>
                      let bind_name := to_string_lossy name in
                      listener ← listener_bind parent bind_name;
                      match listener with
                      | Err e => fail (OsError e)
                      | Ok listener => guard_listener listener parent name bind_name normalized keys registry
                      end
                  end
              end
        end
  end.
