(* ===== verification/SocketOrphans.v ===== *)
(** Sockets that have lost their name (src/proxy_runtime/rama/ingress.rs).

    A retired listener's socket is unlinked while its guard and its listening
    descriptor live on. No call of the socket code can give such an inode a
    name again or remove it: this file proves it once for every program that
    makes no hard link, so that the destructor of a retired guard is known to
    leave whatever has taken the name since. *)

From S2P Require Import Prelude RustStr RustPath PosixFs SocketDirs.
From stdpp Require Import options.

(** A socket that no directory entry leads to. *)
Record orphan (i : FileId) (fs : Fs) : Prop := {
  or_socket : ∃ nd, fs_inodes fs !! i = Some nd ∧ is_socket_kind (i_kind nd) = true;
  or_unlinked : ∀ d n, entries_of fs d !! n ≠ Some i;
}.

Definition inode_entries (nd : inode) : gmap str FileId :=
  match i_kind nd with Directory entries _ _ => entries | _ => ∅ end.

Lemma entries_of_inode fs d : entries_of fs d = default ∅ (inode_entries <$> fs_inodes fs !! d).
Proof. unfold entries_of, inode_entries. by destruct (fs_inodes fs !! d) as [[[] ? ?]|]. Qed.

(** A change of one inode that neither names [i] nor makes a socket something
    else. *)
Definition tame (i : FileId) (f : inode → inode) : Prop :=
  ∀ nd, is_socket_kind (i_kind (f nd)) = is_socket_kind (i_kind nd) ∧
    ∀ n, inode_entries (f nd) !! n = Some i → inode_entries nd !! n = Some i.

Section orphan.
Context (i : FileId).

Lemma orphan_update f j fs : tame i f → orphan i fs → orphan i (update_inode f j fs).
Proof.
  intros Hf [(nd & Hnd & Hk) Hu]. split.
  - rewrite lookup_update_inode. destruct (decide (i = j)) as [->|]; [|by eauto].
    rewrite Hnd. exists (f nd). split; [done|]. by rewrite (proj1 (Hf nd)).
  - intros d n Hd. rewrite entries_of_inode, lookup_update_inode in Hd. destruct (decide (d = j)) as [->|].
    + destruct (fs_inodes fs !! j) as [nj|] eqn:Hj; [|done]. cbn in Hd. apply Hf in Hd.
      apply (Hu j n). by rewrite entries_of_inode, Hj.
    + apply (Hu d n). by rewrite entries_of_inode.
Qed.

Lemma tame_same f : (∀ nd, is_socket_kind (i_kind (f nd)) = is_socket_kind (i_kind nd) ∧ inode_entries (f nd) = inode_entries nd) →
  tame i f.
Proof. intros Hf nd. destruct (Hf nd) as [? ->]. done. Qed.

Lemma tame_perm mode : tame i (set_perm mode).
Proof. by apply tame_same. Qed.
Lemma tame_listening b : tame i (set_listening b).
Proof. apply tame_same. by intros [[] ? ?]. Qed.
Lemma tame_dead : tame i set_dead.
Proof. apply tame_same. by intros [[] ? ?]. Qed.
Lemma tame_write contents : tame i (write_contents contents).
Proof. apply tame_same. by intros [[] ? ?]. Qed.
Lemma tame_delete name : tame i (set_entries (delete name)).
Proof. intros [[] ? ?]; split; try done. cbn. intros n Hn. by apply lookup_delete_Some in Hn as [_ ?]. Qed.
Lemma tame_insert name j : j ≠ i → tame i (set_entries <[name := j]>).
Proof.
  intros Hj [[] ? ?]; split; try done. cbn. intros n Hn.
  by apply lookup_insert_Some in Hn as [[_ ?]|[_ ?]].
Qed.

Lemma orphan_create dir name nd fs :
  inode_entries nd = ∅ → orphan i fs → orphan i (create_inode dir name nd fs).2.
Proof.
  intros He Ho. unfold create_inode. cbn. pose proof (fresh_id_fresh fs dir) as Hf.
  assert (Hne : fresh_id fs dir ≠ i).
  { intros Heq. destruct (or_socket _ _ Ho) as (ni & Hni & _). congruence. }
  apply orphan_update; [by apply tame_insert|]. destruct Ho as [(ni & Hni & Hk) Hu]. split.
  - exists ni. cbn. by rewrite lookup_insert_ne.
  - intros d n Hd. rewrite entries_of_inode in Hd. cbn in Hd.
    destruct (decide (d = fresh_id fs dir)) as [->|Hd'].
    + rewrite lookup_insert_eq in Hd. cbn in Hd. by rewrite He in Hd.
    + rewrite lookup_insert_ne in Hd by done. apply (Hu d n). by rewrite entries_of_inode.
Qed.

(** No call but [link] brings a name back. *)
Lemma exec_orphan p fs c :
  match c with Link _ _ _ => False | _ => True end → orphan i fs → orphan i (exec p fs c).2.
Proof.
  intros Hc Ho.
  assert (Hcreate : ∀ e (n : FileId → inode) d path, (∀ dir, inode_entries (n dir) = ∅) →
    orphan i (exec_create fs e n d path).2).
  { intros e n d path Hn. unfold exec_create. destruct (namei _ _ _ _) as [[dir name o|d0]|e0]; [|done..]. destruct o; [done|].
    destruct (is_dead fs dir); [done|]. pose proof (orphan_create dir name (n dir) fs (Hn dir) Ho) as Hcr.
    by destruct (create_inode _ _ _ _). }
  destruct c; cbn; try done.
  - unfold exec_open_create. repeat (case_match; try done); by apply Hcreate.
  - pose proof (Hcreate EEXIST (λ dir, mkInode (Directory ∅ dir false) (p_euid p) (N.ldiff mode (p_umask p))) at_dir path
      (λ _, eq_refl)) as Hcr. by destruct (exec_create _ _ _ _ _) as [[] ?].
  - unfold exec_unlink. repeat (case_match; try done); cbn;
      (apply orphan_update; [apply tame_dead|]) || idtac; by apply orphan_update; [apply tame_delete|].
  - by apply orphan_update; [apply tame_perm|].
  - unfold exec_chmod. destruct (resolve _ _ _ _); [|done]. by apply orphan_update; [apply tame_perm|].
  - by apply Hcreate.
  - by apply orphan_update; [apply tame_listening|].
  - by case_match; try done; case_match.
  - by apply Hcreate.
  - by apply orphan_update; [apply tame_write|].
Qed.
End orphan.

(** ** Programs that make no link *)

Definition keeps_orphans {A} (m : Sys A) : Prop :=
  ∀ i w, w_schedule w = [] → orphan i (w_fs w) → w_schedule (m w).2 = [] ∧ orphan i (w_fs (m w).2).

Lemma keeps_ret {A} (a : A) : keeps_orphans (mret a).
Proof. by intros i w. Qed.

Lemma keeps_bind {A B} (m : Sys A) (f : A → Sys B) :
  keeps_orphans m → (∀ a, keeps_orphans (f a)) → keeps_orphans (m ≫= f).
Proof. intros Hm Hf i w Hs Ho. rewrite sys_bind_run. destruct (Hm i w Hs Ho) as [Hs' Ho']. by apply Hf. Qed.

Lemma keeps_libc {A} (view : sysret → result errno A) c :
  match c with Link _ _ _ => False | _ => True end → keeps_orphans (libc view c).
Proof.
  intros Hc. apply keeps_bind; [|intros; apply keeps_ret]. intros i w Hs Ho. unfold do_call. rewrite Hs. cbn.
  pose proof (exec_orphan i (w_proc w) (w_fs w) c Hc Ho) as He. by destruct (exec _ _ _).
Qed.

Lemma keeps_close j : keeps_orphans (close_listener j).
Proof. intros i w Hs Ho. split; [done|]. by apply orphan_update; [apply tame_listening|]. Qed.

Lemma keeps_cwd {A} (f : FileId → Sys A) : (∀ cwd, keeps_orphans (f cwd)) → keeps_orphans (with_cwd f).
Proof. intros Hf i w. apply Hf. Qed.

Create HintDb orphans.
#[export] Hint Resolve keeps_ret keeps_close : orphans.
#[export] Hint Extern 1 (keeps_orphans (libc _ _)) => (apply keeps_libc; exact I) : orphans.

(** One rule per construct of the monad; a call of another procedure is left
    to its own lemma. *)
Ltac keep_orphans :=
  repeat first
    [ solve [auto 2 with orphans]
    | match goal with
      | |- keeps_orphans (with_cwd _) => apply keeps_cwd; intros ?
      | |- keeps_orphans (_ ≫= _) => apply keeps_bind; [|intros ?]
      end
    | match goal with |- keeps_orphans (match ?x with _ => _ end) => destruct x end ].

Lemma keeps_stat_at d n : keeps_orphans (stat_at d n).
Proof. unfold stat_at. keep_orphans. Qed.
#[export] Hint Resolve keeps_stat_at : orphans.

Lemma keeps_release reg key : keeps_orphans (release_directory_lease reg key).
Proof. unfold release_directory_lease, unlink_directory_at. keep_orphans. Qed.
#[export] Hint Resolve keeps_release : orphans.

Lemma keeps_release_popped keys : ∀ reg, keeps_orphans (release_popped reg keys).
Proof. induction keys as [|k keys IH]; intros reg; cbn [release_popped]; keep_orphans. Qed.

Lemma keeps_drop_created reg keys : keeps_orphans (drop_created_directories reg keys).
Proof. apply keeps_release_popped. Qed.
#[export] Hint Resolve keeps_drop_created : orphans.

Lemma keeps_unlink_owned g : keeps_orphans (unlink_owned g).
Proof. unfold unlink_owned. keep_orphans. Qed.
#[export] Hint Resolve keeps_unlink_owned : orphans.

Lemma keeps_drop_guard g reg : keeps_orphans (drop_guard g reg).
Proof. unfold drop_guard. keep_orphans. Qed.
#[export] Hint Resolve keeps_drop_guard : orphans.

Lemma keeps_enter_component reg current name normalized : keeps_orphans (enter_component reg current name normalized).
Proof.
  unfold enter_component, open_or_create, set_created_directory_mode, remove_created_directory_if_unchanged,
    register_directory. keep_orphans.
Qed.
#[export] Hint Resolve keeps_enter_component : orphans.

Lemma keeps_enter_components cs : ∀ reg keys current normalized,
  keeps_orphans (enter_components reg keys current normalized cs).
Proof. induction cs as [|c cs IH]; intros reg keys current normalized; cbn [enter_components]; keep_orphans. Qed.
#[export] Hint Resolve keeps_enter_components : orphans.

Lemma keeps_normalize path : keeps_orphans (normalize_system_path path).
Proof. unfold normalize_system_path, symlink_metadata. keep_orphans. Qed.
#[export] Hint Resolve keeps_normalize : orphans.

Lemma keeps_open_socket_parent path reg : keeps_orphans (open_socket_parent path reg).
Proof. unfold open_socket_parent, open_socket_parent_locked, current_dir. keep_orphans. Qed.
#[export] Hint Resolve keeps_open_socket_parent : orphans.

Lemma keeps_guard_bind path reg : keeps_orphans (guard_bind path reg).
Proof. unfold guard_bind, listener_bind, guard_listener, current_dir. keep_orphans. Qed.

Lemma runs_orphan {A} p fs (m : Sys A) a fs' i :
  keeps_orphans m → runs p fs m a fs' → orphan i fs → orphan i fs'.
Proof.
  intros Hm Hr Ho. destruct (Hr []) as [tr' Heq]. destruct (Hm i (mkWorld p fs [] []) eq_refl Ho) as [_ Ho'].
  by rewrite Heq in Ho'.
Qed.
