(* ===== verification/SocketLeases.v ===== *)
(** What the socket directory registry promises (src/proxy_runtime/rama/ingress.rs).

    First, whatever other processes do and whichever system call fails: the
    registry counts exactly the leases of the live guards, and an entry is
    removed only right after its identity was checked. Second, when nobody
    else touches the directories: any sequence of binds and drops keeps every
    live socket in place and, once the last guard is gone, leaves the file
    system as it was. *)

From S2P Require Import Prelude RustStr RustPath PosixFs SocketDirs.
From stdpp Require Import options.
Local Open Scope char_scope.

(** ** Counting leases *)

Definition tally (k : DirectoryKey) (keys : list DirectoryKey) : nat :=
  length (filter (λ x, x = k) keys).
Definition total (k : DirectoryKey) (holders : list (list DirectoryKey)) : nat :=
  sum_list_with (tally k) holders.

(** The registry holds exactly the leases of the holders. *)
Definition counts (reg : SocketDirectoryRegistry) (holders : list (list DirectoryKey)) : Prop :=
  ∀ k, match reg !! k with
       | Some r => dr_leases r = N.of_nat (total k holders) ∧ total k holders ≠ 0
       | None => total k holders = 0
       end.

Lemma tally_app k a b : tally k (a ++ b) = tally k a + tally k b.
Proof. unfold tally. by rewrite filter_app, length_app. Qed.
Lemma tally_single k j : tally k [j] = if decide (j = k) then 1 else 0.
Proof. unfold tally. rewrite filter_cons. by destruct (decide _). Qed.
Lemma tally_reverse k keys : tally k (reverse keys) = tally k keys.
Proof. unfold tally. by rewrite (reverse_Permutation keys). Qed.
Lemma tally_pos k keys : tally k keys ≠ 0 ↔ k ∈ keys.
Proof.
  unfold tally. split.
  - intros Hne. destruct (filter _ _) as [|x l] eqn:Hf; [done|].
    assert (x ∈ filter (λ x, x = k) keys) as [-> ?]%list_elem_of_filter by (rewrite Hf; set_solver). done.
  - intros Hk Hz. apply nil_length_inv in Hz.
    assert (k ∈ filter (λ x, x = k) keys) as Hin by (by apply list_elem_of_filter).
    rewrite Hz in Hin. set_solver.
Qed.

Lemma total_cons k ks hs : total k (ks :: hs) = tally k ks + total k hs.
Proof. done. Qed.
Lemma total_pos k holders : total k holders ≠ 0 ↔ ∃ keys, keys ∈ holders ∧ k ∈ keys.
Proof.
  induction holders as [|ks hs IH]; cbn; [set_solver|].
  fold (total k hs). setoid_rewrite elem_of_cons. pose proof (tally_pos k ks). split.
  - intros Hne. destruct (decide (tally k ks = 0)); [|naive_solver].
    destruct IH as [IH _]. destruct IH as (? & ? & ?); [lia|]. eauto.
  - intros (keys & [->|Hin] & Hk); [naive_solver lia|]. assert (total k hs ≠ 0) by naive_solver. lia.
Qed.

Lemma total_perm k hs hs' : hs ≡ₚ hs' → total k hs = total k hs'.
Proof. unfold total. by intros ->. Qed.

Lemma counts_perm reg hs hs' : hs ≡ₚ hs' → counts reg hs → counts reg hs'.
Proof. intros Hp Hc k. specialize (Hc k). rewrite (total_perm k _ _ Hp) in Hc. exact Hc. Qed.

Lemma counts_drop_nil reg hs : counts reg ([] :: hs) ↔ counts reg hs.
Proof. done. Qed.

Lemma counts_empty reg : counts reg [] → reg = ∅.
Proof.
  intros Hc. apply map_empty. intros k. specialize (Hc k). destruct (reg !! k); [|done].
  by destruct Hc as [_ Hne].
Qed.

(** The registry after one lease is taken or released. *)
Definition registered (reg : SocketDirectoryRegistry) (key : DirectoryKey) (new : DirectoryRecord)
    (made : bool) : SocketDirectoryRegistry :=
  let r := default new (reg !! key) in
  <[key := mkDirectoryRecord (dr_parent r) (dr_name r) (dr_device r) (dr_inode r) (dr_path r)
             (dr_created_by_baffle r || made) (dr_leases r + 1)]> reg.

Definition released (reg : SocketDirectoryRegistry) (key : DirectoryKey) : SocketDirectoryRegistry :=
  match reg !! key with
  | None => reg
  | Some r =>
      if (dr_leases r - 1 =? 0)%N then delete key reg
      else <[key := with_leases (dr_leases r - 1) r]> reg
  end.

Lemma counts_register reg ks hs key new made :
  dr_leases new = 0%N →
  counts reg (ks :: hs) → counts (registered reg key new made) ((ks ++ [key]) :: hs).
Proof.
  intros Hnew Hc k. specialize (Hc k). unfold registered. rewrite lookup_insert. cbn in *.
  rewrite tally_app, tally_single. fold (total k hs) in *.
  destruct (decide (key = k)) as [->|].
  - cbn. destruct (reg !! k) as [r|]; cbn in *; [destruct Hc as [-> ?]; lia|rewrite Hnew; lia].
  - by rewrite Nat.add_0_r.
Qed.

Lemma counts_release reg ks hs key :
  counts reg ((ks ++ [key]) :: hs) → counts (released reg key) (ks :: hs).
Proof.
  intros Hc k. pose proof (Hc key) as Hkey. specialize (Hc k). unfold released.
  cbn in *. rewrite tally_app, tally_single in Hc, Hkey. fold (total k hs) (total key hs) in *.
  rewrite decide_True in Hkey by done.
  destruct (reg !! key) as [r|] eqn:Hr; [|lia]. destruct Hkey as [Hl _].
  destruct (N.eqb_spec (dr_leases r - 1) 0) as [Hz|Hz].
  - rewrite lookup_delete. destruct (decide (key = k)) as [->|]; [lia|].
    by rewrite Nat.add_0_r in Hc.
  - rewrite lookup_insert. destruct (decide (key = k)) as [->|]; cbn; [lia|].
    by rewrite Nat.add_0_r in Hc.
Qed.

(** ** In every environment *)

Lemma release_result reg key w : (release_directory_lease reg key w).1 = released reg key.
Proof.
  unfold release_directory_lease, released. destruct (reg !! key) as [r|]; [|done].
  destruct (dr_leases r - 1 =? 0)%N; cbn [negb]; [|done]. by rewrite sys_bind_run.
Qed.

Lemma release_popped_counts keys hs : ∀ reg ks w,
  counts reg ((ks ++ reverse keys) :: hs) → counts ((release_popped reg keys w).1) (ks :: hs).
Proof.
  induction keys as [|key keys IH]; intros reg ks w Hc; cbn.
  - by rewrite reverse_nil, app_nil_r in Hc.
  - rewrite reverse_cons, (assoc_L (++)) in Hc. apply counts_release in Hc.
    cbv [mbind sys_bind]. pose proof (release_result reg key w) as Hres.
    destruct (release_directory_lease reg key w) as [reg' w']. cbn in Hres. subst reg'. by apply IH.
Qed.

Lemma drop_created_counts reg keys hs w :
  counts reg (keys :: hs) → counts ((drop_created_directories reg keys w).1) hs.
Proof.
  intros Hc. apply (release_popped_counts (reverse keys) hs reg [] w). by rewrite reverse_involutive.
Qed.

Lemma drop_guard_counts g reg hs w :
  counts reg (ug_created_directories g :: hs) → counts ((drop_guard g reg w).1) hs.
Proof.
  intros Hc. unfold drop_guard. cbv [mbind sys_bind]. destruct (unlink_owned g w) as [? w'].
  by apply drop_created_counts.
Qed.

(** [post Q m]: from every world the answer of [m] satisfies [Q]. *)
Definition post {A} (Q : A → Prop) (m : Sys A) : Prop := ∀ w, Q (m w).1.

Lemma post_ret {A} (Q : A → Prop) a : Q a → post Q (mret a).
Proof. by intros HQ w. Qed.
Lemma post_bind {A B} (P : A → Prop) (Q : B → Prop) (m : Sys A) (f : A → Sys B) :
  post P m → (∀ a, P a → post Q (f a)) → post Q (m ≫= f).
Proof. intros Hm Hf w. rewrite sys_bind_run. by apply Hf, Hm. Qed.
Lemma post_any {A B} (Q : B → Prop) (m : Sys A) (f : A → Sys B) :
  (∀ a, post Q (f a)) → post Q (m ≫= f).
Proof. intros Hf. apply (post_bind (λ _, True)); [done|]. auto. Qed.

Create HintDb post.
#[local] Hint Resolve post_ret : post.

(** Runs through the calls whose answers do not matter. *)
Ltac post_step :=
  lazymatch goal with
  | |- post _ (mret _) => apply post_ret
  | |- post _ (_ ≫= _) => apply post_any; intros ?
  | |- post _ (match ?x with _ => _ end) => destruct x eqn:?
  | |- post _ (let '_ := ?x in _) => destruct x eqn:?
  end.

Definition bind_counts (hs : list (list DirectoryKey))
    (r : result io_error (FileId * UnixSocketGuard) * SocketDirectoryRegistry) : Prop :=
  match r.1 with
  | Err _ => counts r.2 hs
  | Ok (_, g) => counts r.2 (ug_created_directories g :: hs)
  end.

Section counting.
Context (hs : list (list DirectoryKey)).

Lemma register_counts reg ks parent name metadata path made :
  counts reg (ks :: hs) →
  post (λ r, match r with Ok (key, reg') => counts reg' ((ks ++ [key]) :: hs) | Err _ => True end)
    (register_directory reg parent name metadata path made).
Proof.
  intros Hc. unfold register_directory. post_step. apply post_ret. destruct a as [d|e]; [|done].
  by apply (counts_register reg ks hs (st_id metadata)
              (mkDirectoryRecord d name (id_dev (st_id metadata)) (id_ino (st_id metadata)) path made 0) made).
Qed.

Lemma enter_component_counts reg ks current name normalized :
  counts reg (ks :: hs) →
  post (λ r, match r with Ok (key, reg', _) => counts reg' ((ks ++ [key]) :: hs) | Err _ => True end)
    (enter_component reg current name normalized).
Proof.
  intros Hc. unfold enter_component. post_step. destruct a as [made [next|e]]; [|by apply post_ret].
  post_step. destruct a as [metadata|e]; [|by apply post_ret].
  destruct (negb (is_dir metadata)); [by apply post_ret|].
  post_step. destruct a as [[]|e]; [|post_step; by apply post_ret].
  eapply post_bind; [by apply register_counts|]. intros [[key reg']|e] Hreg; [by apply post_ret|].
  post_step. by apply post_ret.
Qed.

Lemma enter_components_counts cs : ∀ reg ks current normalized,
  counts reg (ks :: hs) →
  post (λ r, counts r.1.2 (r.2 :: hs)) (enter_components reg ks current normalized cs).
Proof.
  induction cs as [|c cs IH]; intros reg ks current normalized Hc; cbn [enter_components].
  { by apply post_ret. }
  destruct (component_name c) as [[name|]|e]; [|by apply IH|by apply post_ret].
  eapply post_bind; [by apply enter_component_counts|].
  intros [[[key reg'] next]|e] Hreg; [by apply IH|by apply post_ret].
Qed.

Lemma drop_created_post reg keys :
  counts reg (keys :: hs) → post (λ reg', counts reg' hs) (drop_created_directories reg keys).
Proof. intros Hc w. by apply drop_created_counts. Qed.

Lemma open_socket_parent_counts path reg :
  counts reg hs →
  post (λ r, match r.1 with
             | Ok (_, keys, _) => counts r.2 (keys :: hs)
             | Err _ => counts r.2 hs
             end) (open_socket_parent path reg).
Proof.
  intros Hc. unfold open_socket_parent.
  apply (post_bind (λ r, counts r.1.2 (r.2 :: hs))).
  - unfold open_socket_parent_locked. post_step. destruct a as [logical|e]; [|by apply post_ret].
    post_step. post_step. destruct a0 as [root|e]; [|by apply post_ret].
    eapply post_bind; [by apply (enter_components_counts _ reg [])|].
    intros [[[current|e] reg'] keys] Hr; by apply post_ret.
  - intros [[[[parent normalized]|e] reg'] keys] Hr; [by apply post_ret|].
    eapply post_bind; [by apply drop_created_post|]. intros reg'' Hr'. by apply post_ret.
Qed.

Lemma guard_listener_counts listener parent name bind_name normalized keys reg :
  counts reg (keys :: hs) →
  post (bind_counts hs) (guard_listener listener parent name bind_name normalized keys reg).
Proof.
  intros Hc. unfold guard_listener. post_step.
  assert (Hfail : ∀ g e, ug_created_directories g = keys →
    post (bind_counts hs) (registry ← drop_guard g reg; _ ← close_listener listener; mret (Err e, registry))).
  { intros g e Hg. apply (post_bind (λ reg', counts reg' hs)).
    - intros w. apply drop_guard_counts. by rewrite Hg.
    - intros reg' Hr'. post_step. by apply post_ret. }
  assert (Hgone : ∀ e, post (bind_counts hs)
    (_ ← close_listener listener; registry ← drop_created_directories reg keys; mret (Err e, registry))).
  { intros e. post_step. eapply post_bind; [by apply drop_created_post|]. intros reg' Hr'. by apply post_ret. }
  destruct a as [[identity|]|e]; [|apply Hgone|apply Hgone].
  post_step. destruct a as [[]|e]; [|by apply Hfail].
  post_step. destruct a as [current|e]; [|by apply Hfail].
  case_match; [by apply Hfail|by apply post_ret].
Qed.

Lemma guard_bind_counts path reg :
  counts reg hs → post (bind_counts hs) (guard_bind path reg).
Proof.
  intros Hc. unfold guard_bind. post_step. destruct a as [absolute|e]; [|by apply post_ret].
  case_decide; [by apply post_ret|]. destruct (file_name absolute) as [name|]; [|by apply post_ret].
  destruct (contains_char _ name); [by apply post_ret|].
  eapply post_bind; [by apply open_socket_parent_counts|].
  intros [[[[parent keys] normalized]|e] reg'] Hr; cbn in Hr; [|by apply post_ret].
  assert (Hfail : ∀ e, post (bind_counts hs)
    (registry ← drop_created_directories reg' keys; mret (Err e, registry))).
  { intros e. eapply post_bind; [by apply drop_created_post|]. intros reg'' Hr'. by apply post_ret. }
  post_step. destruct a as [[st|]|e]; [apply Hfail| |apply Hfail].
  post_step. destruct a as [listener|e]; [|apply Hfail]. by apply guard_listener_counts.
Qed.
End counting.

(** ** Sequences of binds, retirements and drops *)

Inductive socket_op :=
| OpBind (path : str)
| OpRetire (index : nat)
| OpDrop (index : nat) (listener_first : bool)
| OpDropRetired (index : nat) (listener_first : bool).

(** The registry, the live listeners with their guards, and the retired ones,
    whose sockets are unlinked already. *)
Record socket_state := mkSocketState {
  ss_registry : SocketDirectoryRegistry;
  ss_live : list (FileId * UnixSocketGuard);
  ss_retired : list (FileId * UnixSocketGuard);
}.

(** The end of a listener: [run_proxy] drops the listener and takes the guard;
    [ProxyRuntime::shutdown] and [ProxyRuntime::drop] take the guard while the
    loop still has the listener. *)
Definition end_listener (listener_first : bool) (lg : FileId * UnixSocketGuard) (registry : SocketDirectoryRegistry)
    : Sys SocketDirectoryRegistry :=
  if listener_first then _ ← close_listener lg.1; drop_guard lg.2 registry
  else registry ← drop_guard lg.2 registry; _ ← close_listener lg.1; mret registry.

Definition socket_step (op : socket_op) (st : socket_state) : Sys socket_state :=
  match op with
  | OpBind path =>
      r ← guard_bind path (ss_registry st);
      let '(bound, registry) := r in
      mret (mkSocketState registry
              (match bound with Ok lg => ss_live st ++ [lg] | Err _ => ss_live st end) (ss_retired st))
  | OpRetire index =>
      match ss_live st !! index with
      | None => mret st
      | Some lg =>
          _ ← unlink_owned lg.2;
          mret (mkSocketState (ss_registry st) (delete index (ss_live st)) (ss_retired st ++ [lg]))
      end
  | OpDrop index listener_first =>
      match ss_live st !! index with
      | None => mret st
      | Some lg =>
          registry ← end_listener listener_first lg (ss_registry st);
          mret (mkSocketState registry (delete index (ss_live st)) (ss_retired st))
      end
  | OpDropRetired index listener_first =>
      match ss_retired st !! index with
      | None => mret st
      | Some lg =>
          registry ← end_listener listener_first lg (ss_registry st);
          mret (mkSocketState registry (ss_live st) (delete index (ss_retired st)))
      end
  end.

Fixpoint socket_run (ops : list socket_op) (st : socket_state) : Sys socket_state :=
  match ops with
  | [] => mret st
  | op :: ops => st ← socket_step op st; socket_run ops st
  end.

Definition guard_keys (lg : FileId * UnixSocketGuard) : list DirectoryKey := ug_created_directories lg.2.
Definition live_keys (st : socket_state) : list (list DirectoryKey) := guard_keys <$> ss_live st ++ ss_retired st.

Lemma end_listener_counts listener_first lg reg hs :
  counts reg (guard_keys lg :: hs) → post (λ reg', counts reg' hs) (end_listener listener_first lg reg).
Proof.
  intros Hc. assert (Hd : post (λ reg', counts reg' hs) (drop_guard lg.2 reg)) by (intros w; by apply drop_guard_counts).
  unfold end_listener. destruct listener_first; [by post_step|].
  eapply post_bind; [exact Hd|]. intros reg' Hr'. post_step. by apply post_ret.
Qed.

Lemma socket_step_counts op st :
  counts (ss_registry st) (live_keys st) →
  post (λ st', counts (ss_registry st') (live_keys st')) (socket_step op st).
Proof.
  intros Hc. destruct op as [path|index|index first|index first]; cbn [socket_step].
  - eapply post_bind; [by apply (guard_bind_counts (live_keys st))|].
    intros [[[l g]|e] reg'] Hr; apply post_ret; [|done]. unfold live_keys, bind_counts in *. cbn in *.
    eapply counts_perm; [|exact Hr]. rewrite <- app_assoc. cbn. by rewrite <- Permutation_middle.
  - destruct (ss_live st !! index) as [lg|] eqn:Hi; [|by apply post_ret]. post_step. apply post_ret.
    eapply counts_perm; [|exact Hc]. unfold live_keys. cbn. rewrite (delete_Permutation _ _ _ Hi) at 1.
    cbn. by rewrite app_assoc, <- Permutation_cons_append.
  - destruct (ss_live st !! index) as [lg|] eqn:Hi; [|by apply post_ret].
    apply (post_bind (λ reg', counts reg' (guard_keys <$> delete index (ss_live st) ++ ss_retired st)));
      [|by intros reg' Hr'; apply post_ret]. apply end_listener_counts.
    eapply counts_perm; [|exact Hc]. unfold live_keys. by rewrite (delete_Permutation _ _ _ Hi) at 1.
  - destruct (ss_retired st !! index) as [lg|] eqn:Hi; [|by apply post_ret].
    apply (post_bind (λ reg', counts reg' (guard_keys <$> ss_live st ++ delete index (ss_retired st))));
      [|by intros reg' Hr'; apply post_ret]. apply end_listener_counts.
    eapply counts_perm; [|exact Hc]. unfold live_keys. cbn. rewrite (delete_Permutation _ _ _ Hi) at 1.
    by rewrite <- Permutation_middle.
Qed.

(** In every environment (other processes changing the directories
    between any two system calls, any call failing), after any sequence of
    binds, retirements and drops the registry holds, for every directory,
    exactly as many leases as the guards took; with the last guard it is
    empty. *)
Theorem registry_leases_exact ops w :
  let st := (socket_run ops (mkSocketState empty_registry [] []) w).1 in
  counts (ss_registry st) (live_keys st) ∧ (ss_live st = [] → ss_retired st = [] → ss_registry st = ∅).
Proof.
  assert (Hrun : ∀ ops st, counts (ss_registry st) (live_keys st) →
    post (λ st', counts (ss_registry st') (live_keys st')) (socket_run ops st)).
  { clear ops. intros ops. induction ops as [|op ops IH]; intros st Hst; [by apply post_ret|].
    eapply post_bind; [by apply socket_step_counts|]. intros st' Hst'. by apply IH. }
  cbv zeta. assert (Hc : counts empty_registry []) by (intros k; unfold empty_registry; by rewrite lookup_empty).
  specialize (Hrun ops (mkSocketState empty_registry [] []) Hc w). split; [done|].
  intros Hlive Hret. apply counts_empty. unfold live_keys in Hrun. by rewrite Hlive, Hret in Hrun.
Qed.

(** ** Removals follow a check

    [checked own tr]: every [unlinkat] in [tr] comes right after an [fstatat]
    of the same entry whose answer [own] accepts. *)
Inductive checked (own : FileId → str → bool → stat → Prop) : trace → Prop :=
| checked_nil : checked own []
| checked_other c r tr :
    (match c with Unlinkat _ _ _ => False | _ => True end) → checked own tr → checked own ((c, r) :: tr)
| checked_unlink d n b st r tr :
    own d n b st → checked own tr → checked own ((Fstatat d n, RStat st) :: (Unlinkat d n b, r) :: tr).

Lemma checked_app own tr1 tr2 : checked own tr1 → checked own tr2 → checked own (tr1 ++ tr2).
Proof. induction 1; intros; cbn; eauto using checked. Qed.

Lemma checked_mono own own' tr :
  (∀ d n b st, own d n b st → own' d n b st) → checked own tr → checked own' tr.
Proof. intros Hm. induction 1; eauto using checked. Qed.

(** The shape of every removal in the source: inspect, compare, unlink. *)
Lemma emits_checked_removal {A} own d n b (test : stat → bool) (body : Sys A) (skip : A) :
  (∀ st, test st = true → own d n b st) →
  emits (λ _ tr, ∃ r, tr = [(Unlinkat d n b, r)]) body →
  emits (λ _ tr, checked own tr)
    (r ← stat_at d n;
     match r with
     | Ok (Some st) => if test st then body else mret skip
     | _ => mret skip
     end).
Proof.
  intros Hown Hbody. unfold stat_at.
  eapply (emits_bind (λ r tr, ∃ x, tr = [(Fstatat d n, x)] ∧
            ∀ st, r = Ok (Some st) → x = RStat st)).
  - eapply emits_bind; [apply (emits_libc (λ r tr, ∃ x, tr = [(Fstatat d n, x)] ∧ r = as_stat x)); eauto|].
    intros a tr (x & -> & ->). apply emits_ret. rewrite app_nil_r. exists x. split; [done|].
    intros st. destruct x; cbn; try case_decide; naive_solver.
  - intros r tr (x & -> & Hx).
    assert (Hskip : checked own [(Fstatat d n, x)]) by (constructor; [done|constructor]).
    destruct r as [[st|]|e]; [|by apply emits_ret|by apply emits_ret].
    destruct (test st) eqn:Ht; [|by apply emits_ret]. rewrite (Hx st) by done.
    eapply emits_mono; [done|]. intros a tr (r & ->). cbn. apply checked_unlink; [auto|constructor].
Qed.

(** What dropping a guard may remove: its own socket, and a directory the
    daemon created on which the guard holds all remaining leases. *)
Definition may_remove (g : UnixSocketGuard) (reg : SocketDirectoryRegistry) (d : FileId) (n : str)
    (removedir : bool) (st : stat) : Prop :=
  if removedir then
    ∃ k r, reg !! k = Some r ∧ dr_created_by_baffle r = true ∧ d = dr_parent r ∧ n = dr_name r
      ∧ is_dir st = true ∧ st_id st = mkFileId (dr_device r) (dr_inode r)
      ∧ (dr_leases r ≤ N.of_nat (tally k (ug_created_directories g)))%N
  else d = ug_parent g ∧ n = ug_name g ∧ is_socket st = true ∧ st_id st = ug_id g.

Definition may_release (popped : list DirectoryKey) (reg : SocketDirectoryRegistry)
    (d : FileId) (n : str) (removedir : bool) (st : stat) : Prop :=
  removedir = true ∧
  ∃ k r, reg !! k = Some r ∧ dr_created_by_baffle r = true ∧ d = dr_parent r ∧ n = dr_name r
    ∧ is_dir st = true ∧ st_id st = mkFileId (dr_device r) (dr_inode r)
    ∧ (dr_leases r ≤ N.of_nat (tally k popped))%N.

Lemma tally_cons k j keys : tally k (j :: keys) = (if decide (j = k) then 1 else 0) + tally k keys.
Proof. change (j :: keys) with ([j] ++ keys). by rewrite tally_app, tally_single. Qed.

Lemma emits_release reg key rest :
  emits (λ _ tr, checked (may_release (key :: rest) reg) tr) (release_directory_lease reg key).
Proof.
  unfold release_directory_lease. destruct (reg !! key) as [r|] eqn:Hr; [|apply emits_ret; constructor].
  destruct (N.eqb_spec (dr_leases r - 1) 0) as [Hz|Hz]; cbn [negb]; [|apply emits_ret; constructor].
  apply (emits_bind (λ _ tr, checked (may_release (key :: rest) reg) tr));
    [|intros; apply emits_ret; by rewrite app_nil_r].
  destruct (dr_created_by_baffle r) eqn:Hcr; cbn [negb]; [|apply emits_ret; constructor].
  apply (emits_checked_removal _ _ _ true).
  - intros st Hst. unfold same_directory in Hst. bool_prop. split; [done|]. exists key, r.
    rewrite N.eqb_eq in *. unfold st_id. rewrite tally_cons, decide_True by done.
    repeat split; try done; [congruence|lia].
  - unfold unlink_directory_at. by apply emits_libc; eauto.
Qed.

Lemma may_release_released key rest reg d n b st :
  may_release rest (released reg key) d n b st → may_release (key :: rest) reg d n b st.
Proof.
  intros (-> & k & r & Hk & Hcr & Hd & Hn & Hdir & Hid & Hle). split; [done|].
  unfold released in Hk. setoid_rewrite tally_cons.
  destruct (reg !! key) as [r0|] eqn:Hr0; [|exists k, r; repeat split; try done; lia].
  destruct (dr_leases r0 - 1 =? 0)%N.
  - apply lookup_delete_Some in Hk as [Hne Hk]. exists k, r. repeat split; try done. lia.
  - apply lookup_insert_Some in Hk as [[<- <-]|[Hne Hk]].
    + exists key, r0. cbn in *. rewrite decide_True by done. repeat split; try done. lia.
    + exists k, r. repeat split; try done. lia.
Qed.

Lemma emits_release_popped popped : ∀ reg,
  emits (λ _ tr, checked (may_release popped reg) tr) (release_popped reg popped).
Proof.
  induction popped as [|key rest IH]; intros reg; cbn [release_popped]; [apply emits_ret; constructor|].
  apply (emits_bind (λ reg' tr, reg' = released reg key ∧ checked (may_release (key :: rest) reg) tr)).
  - intros w. destruct (emits_release reg key rest w) as (tr & Htr & Hch). exists tr.
    by rewrite release_result.
  - intros reg' tr1 [-> Hch]. eapply emits_mono; [apply IH|]. intros ? tr2 Hch2.
    apply checked_app; [done|]. eapply checked_mono; [|exact Hch2]. apply may_release_released.
Qed.

(** C29: in every environment, dropping a guard removes an entry only right
    after the same entry was seen to be the guard's own socket, or a directory
    the daemon created, under the recorded name, on which no other guard holds
    a lease. *)
Theorem drop_removes_only_owned g reg w :
  ∃ tr, w_trace (drop_guard g reg w).2 = w_trace w ++ tr ∧ checked (may_remove g reg) tr.
Proof.
  revert w. change (emits (λ _ tr, checked (may_remove g reg) tr) (drop_guard g reg)).
  unfold drop_guard. eapply emits_bind.
  - apply (emits_checked_removal (may_remove g reg) _ _ false).
    + intros st Hst. unfold matches in Hst. bool_prop. rewrite N.eqb_eq in *. unfold may_remove, st_id, ug_id.
      repeat split; try done. congruence.
    + eapply emits_bind; [by apply (emits_libc (λ _ tr, ∃ r, tr = [(Unlinkat (ug_parent g) (ug_name g) false, r)])); eauto|].
      intros ? ? (r & ->). apply emits_ret. rewrite app_nil_r. eauto.
  - intros ? tr1 Hch. unfold drop_created_directories. eapply emits_mono; [apply emits_release_popped|].
    intros ? tr2 Hch2. apply checked_app; [done|]. eapply checked_mono; [|exact Hch2].
    intros d n b st (-> & k & r & ? & ? & ? & ? & ? & ? & Hle). exists k, r. repeat split; try done.
    by rewrite tally_reverse in Hle.
Qed.
