(* ===== verification/SocketRestore.v ===== *)
(** Socket directories in a quiet environment (src/proxy_runtime/rama/ingress.rs).

    [inv fs reg hs] relates the file system and the registry to the one the
    daemon started from and to the holders of leases: every inode of the start
    is still there, the only new names are the directories recorded as created
    and the sockets of the holders, and every holder that leases a created
    directory leases its parents. The guard of a retired listener holds leases
    and no socket. *)

From S2P Require Import Prelude RustStr RustPath PosixFs SocketDirs SocketOrphans SocketLeases.
From stdpp Require Import options.
Local Open Scope char_scope.

(** The keys a guard (or a bind under way) has registered, and its socket: the
    directory, the name, the inode and its contents. *)
Record holder := mkHolder {
  h_keys : list DirectoryKey;
  h_sock : option (FileId * str * FileId * inode);
}.

Lemma NoDup_fmap_elem {A B} (f : A → B) (l : list A) x y :
  NoDup (f <$> l) → x ∈ l → y ∈ l → f x = f y → x = y.
Proof.
  induction l as [|a l IH]; [set_solver|]. rewrite fmap_cons, NoDup_cons. intros [Hn Hnd].
  rewrite !elem_of_cons. intros [->|Hx] [->|Hy] Hf; [done| | |by apply IH].
  - exfalso. apply Hn. rewrite Hf. by apply list_elem_of_fmap_2.
  - exfalso. apply Hn. rewrite <- Hf. by apply list_elem_of_fmap_2.
Qed.

Section quiet.
Context (p : process) (fs0 : Fs).
Implicit Types (fs : Fs) (reg : SocketDirectoryRegistry) (hs : list holder) (h : holder).

(** The names the daemon owns. *)
Definition owned_dir reg (d : FileId) (n : str) (i : FileId) : Prop :=
  ∃ r, reg !! i = Some r ∧ dr_created_by_baffle r = true ∧ dr_parent r = d ∧ dr_name r = n.
Definition owned_sock hs (d : FileId) (n : str) (i : FileId) : Prop :=
  ∃ h nd, h ∈ hs ∧ h_sock h = Some (d, n, i, nd).
Definition owned reg hs d n i : Prop := owned_dir reg d n i ∨ owned_sock hs d n i.

Definition sock_ids hs : list FileId := (λ s, s.1.2) <$> omap h_sock hs.

Definition record_ok fs (k : DirectoryKey) (r : DirectoryRecord) : Prop :=
  mkFileId (dr_device r) (dr_inode r) = k ∧
  if dr_created_by_baffle r
  then fs_inodes fs !! k = Some (mkInode (Directory (entries_of fs k) (dr_parent r) false) (p_euid p) 448)
  else directory_at fs0 k.

Record inv fs reg hs : Prop := {
  iv_root : fs_root fs = fs_root fs0;
  iv_base : ∀ i n0, fs_inodes fs0 !! i = Some n0 → ∃ n, fs_inodes fs !! i = Some n ∧ same_node n0 n;
  iv_entries : ∀ d n i, entries_of fs d !! n = Some i ↔ entries_of fs0 d !! n = Some i ∨ owned reg hs d n i;
  iv_new : ∀ d n i, owned reg hs d n i →
    plain_name n ∧ entries_of fs0 d !! n = None ∧ fs_inodes fs0 !! i = None;
  iv_record : ∀ k r, reg !! k = Some r → record_ok fs k r;
  iv_sock : ∀ h d n i nd, h ∈ hs → h_sock h = Some (d, n, i, nd) →
    fs_inodes fs !! i = Some nd ∧ is_socket_kind (i_kind nd) = true ∧ last (fs_root fs0 :: h_keys h) = Some d;
  iv_ids : NoDup (sock_ids hs);
  iv_counts : counts reg (h_keys <$> hs);
  iv_closed : ∀ h pre k post d n, h ∈ hs → h_keys h = pre ++ k :: post → owned_dir reg d n k →
    d ∈ fs_root fs0 :: pre;
}.

(** ** Consequences *)

Lemma inv_perm fs reg hs hs' : hs ≡ₚ hs' → inv fs reg hs → inv fs reg hs'.
Proof.
  intros Hp [Hroot Hbase Hent Hnew Hrec Hsock Hids Hcnt Hcl].
  assert (Hown : ∀ d n i, owned reg hs' d n i ↔ owned reg hs d n i).
  { intros d n i. unfold owned, owned_sock. by setoid_rewrite Hp. }
  split; auto.
  - intros d n i. by rewrite Hown.
  - intros d n i. rewrite Hown. apply Hnew.
  - intros h d n i nd. rewrite <- Hp. apply Hsock.
  - unfold sock_ids. by rewrite <- Hp.
  - eapply counts_perm; [|done]. by rewrite Hp.
  - intros h pre k post d n. rewrite <- Hp. apply Hcl.
Qed.

(** Without holders the registry is empty and every inode is as it was. *)
Lemma inv_no_holders fs reg :
  inv fs reg [] → reg = ∅ ∧ fs_root fs = fs_root fs0 ∧ fs_inodes fs0 ⊆ fs_inodes fs.
Proof.
  intros [Hroot Hbase Hent Hnew Hrec Hsock Hids Hcnt Hcl].
  assert (reg = ∅) as -> by (by apply counts_empty).
  repeat split; [done|]. apply map_subseteq_spec. intros i n0 Hi.
  destruct (Hbase i n0 Hi) as (n & Hn & Hsame).
  assert (Hes : entries_of fs i = entries_of fs0 i).
  { apply map_eq. intros m. apply option_eq. intros j. rewrite Hent. split; [|by left].
    intros [?|[(r & Hr & _)|(h & nd & Hh & _)]]; [done| |set_solver]. by rewrite lookup_empty in Hr. }
  rewrite Hn. f_equal. destruct Hsame as (? & ? & Hk). unfold entries_of in Hes. rewrite Hn, Hi in Hes.
  destruct n as [kn ? ?], n0 as [k0 ? ?]; cbn in *. subst. f_equal.
  destruct k0, kn; destruct_and?; cbn in *; congruence.
Qed.

Hypothesis Hwf : fs_wf fs0.

Lemma base_directory fs reg hs d :
  inv fs reg hs → directory_at fs0 d →
  ∃ par, parent_of fs0 d = Some par ∧ parent_of fs d = Some par ∧ is_dead fs d = false.
Proof using Type*.
  intros Hi [par Hpar]. exists par. split; [done|].
  pose proof (wf_alive _ Hwf d) as Hal. unfold parent_of, is_dead in *.
  destruct (fs_inodes fs0 !! d) as [n0|] eqn:Hn0; [|done].
  destruct (iv_base _ _ _ Hi d n0 Hn0) as (n & Hn & (_ & _ & Hsame)). rewrite Hn. cbn in *.
  destruct (i_kind n0), (i_kind n); destruct_and?; simplify_eq; done.
Qed.

Lemma created_directory fs reg hs k r :
  inv fs reg hs → reg !! k = Some r → dr_created_by_baffle r = true →
  parent_of fs k = Some (dr_parent r) ∧ is_dead fs k = false ∧ fs_inodes fs0 !! k = None
  ∧ entries_of fs (dr_parent r) !! dr_name r = Some k ∧ plain_name (dr_name r).
Proof using Type*.
  intros Hi Hr Hcr. destruct (iv_record _ _ _ Hi k r Hr) as [_ Hk]. rewrite Hcr in Hk.
  assert (Hown : owned reg hs (dr_parent r) (dr_name r) k) by (left; by exists r).
  destruct (iv_new _ _ _ Hi _ _ _ Hown) as (Hpl & _ & Hnone).
  unfold parent_of, is_dead. rewrite Hk. cbn. repeat split; try done; try apply Hpl.
  apply (iv_entries _ _ _ Hi). by right.
Qed.

Lemma standing_present fs reg hs h k :
  inv fs reg hs → h ∈ hs → k ∈ h_keys h → reg !! k = None → False.
Proof.
  intros Hi Hh Hk Hr. pose proof (iv_counts _ _ _ Hi k) as Hc. rewrite Hr in Hc.
  assert (total k (h_keys <$> hs) ≠ 0); [|done].
  apply total_pos. exists (h_keys h). split; [|done]. by apply list_elem_of_fmap_2.
Qed.

(** A directory a walk can stand on: the root, or a key already registered. *)
Lemma standing fs reg hs h d :
  inv fs reg hs → h ∈ hs → d ∈ fs_root fs0 :: h_keys h →
  directory_at fs d ∧ is_dead fs d = false ∧
  (directory_at fs0 d ∨ ∃ r, reg !! d = Some r ∧ dr_created_by_baffle r = true).
Proof using Type*.
  intros Hi Hh Hd.
  assert (Hb : directory_at fs0 d → directory_at fs d ∧ is_dead fs d = false).
  { intros Hd0. destruct (base_directory _ _ _ _ Hi Hd0) as (par & _ & Hpar & ?). split; [by exists par|done]. }
  apply elem_of_cons in Hd as [->|Hd].
  { pose proof (wf_root _ Hwf). naive_solver. }
  pose proof (iv_counts _ _ _ Hi d) as Hc. destruct (reg !! d) as [r|] eqn:Hr.
  - destruct (dr_created_by_baffle r) eqn:Hcr.
    + destruct (created_directory _ _ _ _ _ Hi Hr Hcr) as (Hpar & Hdead & _).
      split; [by exists (dr_parent r)|]. split; [done|]. right. eauto.
    + destruct (iv_record _ _ _ Hi d r Hr) as [_ Hk]. rewrite Hcr in Hk. naive_solver.
  - exfalso. by eapply standing_present.
Qed.

(** ** Taking and releasing a lease *)

Lemma snoc_split {A} (ks pre post : list A) k j :
  ks ++ [j] = pre ++ k :: post → (post = [] ∧ k = j ∧ pre = ks) ∨ (∃ post', ks = pre ++ k :: post').
Proof.
  destruct post as [|x post _] using rev_ind; intros Heq.
  - apply app_inj_tail in Heq. naive_solver.
  - rewrite app_comm_cons, (assoc_L (++)) in Heq. apply app_inj_tail in Heq. naive_solver.
Qed.

(** A step that changes neither the file system nor what is owned. *)
Lemma inv_relabel fs reg reg' h h' hs :
  inv fs reg (h :: hs) →
  (∀ d n i, owned_dir reg' d n i ↔ owned_dir reg d n i) →
  (∀ k r, reg' !! k = Some r → record_ok fs k r) →
  counts reg' (h_keys h' :: (h_keys <$> hs)) →
  h_sock h = None → h_sock h' = None →
  (∀ pre k post d n, h_keys h' = pre ++ k :: post → owned_dir reg d n k → d ∈ fs_root fs0 :: pre) →
  inv fs reg' (h' :: hs).
Proof using Type*.
  intros [Hroot Hbase Hent Hnew Hrec Hsock Hids Hcnt Hcl] Hod Hrec' Hcnt' Hh Hh' Hcl'.
  assert (Hown : ∀ d n i, owned reg' (h' :: hs) d n i ↔ owned reg (h :: hs) d n i).
  { intros d n i. unfold owned. rewrite Hod. unfold owned_sock. setoid_rewrite elem_of_cons. naive_solver. }
  split; auto.
  - intros d n i. by rewrite Hown.
  - intros d n i. rewrite Hown. apply Hnew.
  - intros k d n i nd Hk. apply elem_of_cons in Hk as [->|Hk]; [congruence|]. apply Hsock. set_solver.
  - unfold sock_ids in *. cbn in *. by rewrite Hh' in *; rewrite Hh in *.
  - intros k pre j post d n Hk Heq. rewrite Hod. apply elem_of_cons in Hk as [->|Hk]; [by eapply Hcl'|].
    apply (Hcl k pre j post d n); [set_solver|done].
Qed.

Lemma inv_register fs reg ks hs k new :
  inv fs reg (mkHolder ks None :: hs) →
  dr_leases new = 0%N → dr_created_by_baffle new = false → mkFileId (dr_device new) (dr_inode new) = k →
  (directory_at fs0 k ∨ ∃ d n, owned_dir reg d n k) →
  (∀ d n, owned_dir reg d n k → d ∈ fs_root fs0 :: ks) →
  inv fs (registered reg k new false) (mkHolder (ks ++ [k]) None :: hs).
Proof using Type*.
  intros Hi Hz Hnc Hid Hk Hpar. eapply inv_relabel; [exact Hi| | |by apply counts_register, Hi|done|done|].
  - intros d n i. unfold owned_dir, registered. rewrite lookup_insert.
    destruct (decide (k = i)) as [->|]; [|done].
    destruct (reg !! i) as [r|] eqn:Hr; cbn; [rewrite orb_false_r; naive_solver|].
    split; [|naive_solver]. intros (? & [= <-] & Hc & _). by rewrite Hnc in Hc.
  - intros j r Hj. unfold registered in Hj.
    apply lookup_insert_Some in Hj as [[<- <-]|[_ Hj]]; [|by apply (iv_record _ _ _ Hi)].
    unfold record_ok. destruct (reg !! k) as [r|] eqn:Hr; cbn.
    + rewrite orb_false_r. by apply (iv_record _ _ _ Hi).
    + rewrite Hnc. split; [done|]. destruct Hk as [Hk|(d & n & r & Hr' & _)]; [done|congruence].
  - intros pre j post d n Heq Hod.
    destruct (snoc_split _ _ _ _ _ Heq) as [(-> & -> & ->)|[post' Heq']]; [by apply (Hpar d n)|].
    by apply (iv_closed _ _ _ Hi (mkHolder ks None) pre j post' d n); [set_solver| |].
Qed.

(** A lease that others share, or that is the last one on a directory the
    daemon did not create. *)
Lemma inv_release_keep fs reg ks hs k :
  inv fs reg (mkHolder (ks ++ [k]) None :: hs) →
  (∀ r, reg !! k = Some r → (dr_leases r - 1)%N ≠ 0%N ∨ dr_created_by_baffle r = false) →
  inv fs (released reg k) (mkHolder ks None :: hs).
Proof using Type*.
  intros Hi Hk. eapply inv_relabel; [exact Hi| | |by apply counts_release, Hi|done|done|].
  - intros d n i. unfold owned_dir, released. destruct (reg !! k) as [r|] eqn:Hr; [|done].
    destruct (N.eqb_spec (dr_leases r - 1) 0) as [Hz|Hz].
    + setoid_rewrite lookup_delete_Some. split; [naive_solver|].
      intros (r' & Hr' & Hc & ?). exists r'. split; [|done]. split; [|done].
      intros <-. destruct (Hk r eq_refl); congruence.
    + setoid_rewrite lookup_insert_Some. split; [intros (r' & [[<- <-]|[_ ?]] & ?); eauto|].
      intros (r' & Hr' & ?). destruct (decide (k = i)) as [->|]; [|naive_solver].
      rewrite Hr in Hr'. simplify_eq. eexists. split; [by left|done].
  - intros j r Hj. unfold released in Hj. destruct (reg !! k) as [rk|] eqn:Hr; [|by apply (iv_record _ _ _ Hi)].
    destruct (dr_leases rk - 1 =? 0)%N.
    + apply lookup_delete_Some in Hj as [_ Hj]. by apply (iv_record _ _ _ Hi).
    + apply lookup_insert_Some in Hj as [[<- <-]|[_ Hj]]; [|by apply (iv_record _ _ _ Hi)].
      by apply (iv_record _ _ _ Hi k rk).
  - cbn. intros pre j post d n -> Hod.
    by apply (iv_closed _ _ _ Hi (mkHolder ((pre ++ j :: post) ++ [k]) None) pre j (post ++ [k]) d n);
      [set_solver|cbn; rewrite <- (assoc_L (++))|].
Qed.

(** ** A new name *)

(** [fs'] is [fs] with the new inode [i] under the name [n] of [d]. *)
Record linked fs fs' (d : FileId) (n : str) (i : FileId) (nd : inode) : Prop := {
  lk_fresh : fs_inodes fs !! i = None;
  lk_ne : i ≠ d;
  lk_root : fs_root fs' = fs_root fs;
  lk_node : fs_inodes fs' !! i = Some nd;
  lk_same : ∀ j nj, fs_inodes fs !! j = Some nj → ∃ nj', fs_inodes fs' !! j = Some nj' ∧ same_node nj nj';
  lk_other : ∀ j, j ≠ d → j ≠ i → fs_inodes fs' !! j = fs_inodes fs !! j;
  lk_entries : ∀ e m, entries_of fs' e !! m = if decide (e = d ∧ m = n) then Some i else entries_of fs e !! m;
}.

Lemma linked_update fs fs' d n i nd g :
  linked fs fs' d n i nd →
  (match i_kind (g nd), i_kind nd with
   | Directory es _ _, Directory es' _ _ => es = es' | Socket _, Socket _ => True | _, _ => False end) →
  linked fs (update_inode g i fs') d n i (g nd).
Proof.
  intros [Hf Hne Hroot Hnode Hsame Hother Hent] Hg. split; try done.
  - by rewrite lookup_update_inode, decide_True, Hnode by done.
  - intros j nj Hj. rewrite lookup_update_inode, decide_False by congruence. by apply Hsame.
  - intros j Hd Hi. rewrite lookup_update_inode, decide_False by done. by apply Hother.
  - intros e m. rewrite <- Hent. unfold entries_of. rewrite lookup_update_inode.
    destruct (decide (e = i)) as [->|]; [|done]. rewrite Hnode. cbn.
    destruct (i_kind (g nd)), (i_kind nd); by subst.
Qed.

Lemma record_ok_same fs fs' k r nj' :
  record_ok fs k r → fs_inodes fs' !! k = Some nj' →
  (∀ nj, fs_inodes fs !! k = Some nj → same_node nj nj') →
  record_ok fs' k r.
Proof.
  unfold record_ok. intros [Hid Hk] Hnj' Hsame. split; [done|].
  destruct (dr_created_by_baffle r); [|done]. unfold entries_of. rewrite Hnj'.
  specialize (Hsame _ Hk). destruct nj' as [[] ? ?], Hsame as (? & ? & ?); cbn in *; naive_solver.
Qed.

Lemma record_present fs reg hs k r :
  inv fs reg hs → reg !! k = Some r → is_Some (fs_inodes fs !! k).
Proof.
  intros Hi Hr. destruct (iv_record _ _ _ Hi k r Hr) as [_ Hk].
  destruct (dr_created_by_baffle r); [by eexists|].
  destruct Hk as [par Hk]. unfold parent_of in Hk.
  destruct (fs_inodes fs0 !! k) as [n0|] eqn:Hn0; [|done].
  destruct (iv_base _ _ _ Hi k n0 Hn0) as (n & -> & _). eauto.
Qed.

(** The clauses about names and inodes, whatever the new owner of the name. *)
Lemma inv_link fs fs' reg reg' hs hs' d n i nd :
  inv fs reg hs → linked fs fs' d n i nd → plain_name n → entries_of fs d !! n = None →
  (∀ e m j, owned reg' hs' e m j ↔ owned reg hs e m j ∨ (e = d ∧ m = n ∧ j = i)) →
  (∀ k r, reg' !! k = Some r → reg !! k = Some r ∨ record_ok fs' k r) →
  (∀ h e m j nj, h ∈ hs' → h_sock h = Some (e, m, j, nj) →
     last (fs_root fs0 :: h_keys h) = Some e ∧ is_socket_kind (i_kind nj) = true ∧
     ((j = i ∧ nj = nd) ∨ fs_inodes fs !! j = Some nj)) →
  NoDup (sock_ids hs') →
  counts reg' (h_keys <$> hs') →
  (∀ h pre k post e m, h ∈ hs' → h_keys h = pre ++ k :: post → owned_dir reg' e m k → e ∈ fs_root fs0 :: pre) →
  inv fs' reg' hs'.
Proof using Type*.
  intros Hi Hl Hpl Hnone Hown Hrec Hsock Hids Hcnt Hcl.
  destruct Hl as [Hf Hne Hroot Hnode Hsame Hother Hent]. split; try done.
  - rewrite Hroot. apply (iv_root _ _ _ Hi).
  - intros j n0 Hj. destruct (iv_base _ _ _ Hi j n0 Hj) as (nj & Hnj & Hs).
    destruct (Hsame j nj Hnj) as (nj' & ? & ?). exists nj'. split; [done|]. by trans nj.
  - intros e m j. rewrite Hent, Hown. destruct (decide (e = d ∧ m = n)) as [[-> ->]|Hd].
    + pose proof (proj1 (eq_None_not_Some _) Hnone). split; [intros [= <-]; auto|].
      intros [Ho|[Ho|(_ & _ & ->)]]; [| |done]; exfalso; apply H; exists j; apply (iv_entries _ _ _ Hi); auto.
    + rewrite (iv_entries _ _ _ Hi). naive_solver.
  - intros e m j [Ho|(-> & -> & ->)]%Hown; [by apply (iv_new _ _ _ Hi)|]. split; [done|]. split.
    + destruct (entries_of fs0 d !! n) as [j|] eqn:Hj; [|done].
      assert (entries_of fs d !! n = Some j) by (apply (iv_entries _ _ _ Hi); auto). congruence.
    + destruct (fs_inodes fs0 !! i) as [n0|] eqn:Hn0; [|done].
      destruct (iv_base _ _ _ Hi i n0 Hn0) as (? & ? & _). congruence.
  - intros k r Hk. destruct (Hrec k r Hk) as [Hr|]; [|done].
    destruct (record_present _ _ _ _ _ Hi Hr) as [nk Hnk]. destruct (Hsame k nk Hnk) as (nk' & Hnk' & Hs).
    eapply record_ok_same; [by apply (iv_record _ _ _ Hi)|done|]. intros nj Hnj. congruence.
  - intros h e m j nj Hh Hs. destruct (Hsock h e m j nj Hh Hs) as (Hlast & Hk & [[-> ->]|Hj]); [done|].
    split; [|done]. destruct (decide (j = d)) as [->|]; [|rewrite Hother; [done|done|congruence]].
    destruct (Hsame d nj Hj) as (nj' & Hnj' & (Hu & Hp & Hkk)). rewrite Hnj'. f_equal.
    destruct nj as [[] ? ?], nj' as [[] ? ?]; cbn in *; simplify_eq; done.
Qed.

(** A directory made and registered by the holder standing on its parent. *)
Lemma inv_mkdir fs fs' reg ks hs d n i path :
  inv fs reg (mkHolder ks None :: hs) →
  linked fs fs' d n i (mkInode (Directory ∅ d false) (p_euid p) 448) →
  plain_name n → entries_of fs d !! n = None → d ∈ fs_root fs0 :: ks →
  inv fs' (registered reg i (mkDirectoryRecord d n (id_dev i) (id_ino i) path true 0) true)
    (mkHolder (ks ++ [i]) None :: hs).
Proof using Type*.
  intros Hi Hl Hpl Hnone Hd.
  assert (Hreg : reg !! i = None).
  { destruct (reg !! i) as [r|] eqn:Hr; [|done]. pose proof (record_present _ _ _ _ _ Hi Hr) as [? ?].
    pose proof (lk_fresh _ _ _ _ _ _ Hl). congruence. }
  assert (Hod : ∀ e m j, owned_dir (registered reg i (mkDirectoryRecord d n (id_dev i) (id_ino i) path true 0) true) e m j
    ↔ owned_dir reg e m j ∨ (e = d ∧ m = n ∧ j = i)).
  { intros e m j. unfold owned_dir, registered. rewrite Hreg. cbn. setoid_rewrite lookup_insert_Some. split.
    - intros (r & [[<- <-]|[Hne Hr]] & Hc & Hp & Hn); cbn in *; [naive_solver|]. left. eauto.
    - intros [(r & Hr & ?)|(-> & -> & ->)].
      + exists r. split; [right; split; [congruence|done]|done].
      + eexists. split; [by left|done]. }
  eapply inv_link; [exact Hi|exact Hl|done|done| | | | | |].
  - intros e m j. unfold owned. rewrite Hod. unfold owned_sock. setoid_rewrite elem_of_cons. naive_solver.
  - intros k r Hk. unfold registered in Hk. rewrite Hreg in Hk. cbn in Hk.
    apply lookup_insert_Some in Hk as [[<- <-]|[_ Hk]]; [right|by left].
    split; [by destruct i|]. cbn. rewrite (lk_node _ _ _ _ _ _ Hl). unfold entries_of.
    by rewrite (lk_node _ _ _ _ _ _ Hl).
  - intros h e m j nj Hh Hs. apply elem_of_cons in Hh as [->|Hh]; [done|].
    destruct (iv_sock _ _ _ Hi h e m j nj) as (? & ? & ?); [set_solver|done|]. auto.
  - apply (iv_ids _ _ _ Hi).
  - by apply counts_register, Hi.
  - intros h pre k post e m Hh Heq [Ho|(-> & -> & ->)]%Hod.
    + apply elem_of_cons in Hh as [->|Hh]; [|apply (iv_closed _ _ _ Hi h pre k post e m); [set_solver|done|done]].
      destruct (snoc_split _ _ _ _ _ Heq) as [(_ & -> & _)|[post' Heq']].
      { destruct Ho as (r & Hr & _). congruence. }
      apply (iv_closed _ _ _ Hi (mkHolder ks None) pre k post' e m); [set_solver|done|done].
    + apply elem_of_cons in Hh as [->|Hh].
      * destruct (snoc_split _ _ _ _ _ Heq) as [(_ & _ & ->)|[post' Heq']]; [done|].
        exfalso. cbn in Heq'. eapply (standing_present _ _ _ (mkHolder ks None)); [exact Hi|set_solver| |exact Hreg].
        cbn. rewrite Heq'. set_solver.
      * exfalso. eapply (standing_present _ _ _ h); [exact Hi|set_solver| |exact Hreg]. rewrite Heq. set_solver.
Qed.

(** The socket of a holder that stands on its directory. *)
Lemma inv_socket fs fs' reg ks hs d n i nd :
  inv fs reg (mkHolder ks None :: hs) →
  linked fs fs' d n i nd → is_socket_kind (i_kind nd) = true →
  plain_name n → entries_of fs d !! n = None → last (fs_root fs0 :: ks) = Some d →
  inv fs' reg (mkHolder ks (Some (d, n, i, nd)) :: hs).
Proof using Type*.
  intros Hi Hl Hk Hpl Hnone Hd.
  eapply inv_link; [exact Hi|exact Hl|done|done| | | | |apply (iv_counts _ _ _ Hi)|].
  - intros e m j. unfold owned, owned_sock. setoid_rewrite elem_of_cons. split.
    + intros [?|(h & nj & [->|Hh] & Hs)]; [naive_solver| |naive_solver]. cbn in Hs. naive_solver.
    + intros [[?|(h & nj & [->|Hh] & Hs)]|(-> & -> & ->)]; [naive_solver|done|naive_solver|].
      right. exists (mkHolder ks (Some (d, n, i, nd))), nd. naive_solver.
  - auto.
  - intros h e m j nj Hh Hs. apply elem_of_cons in Hh as [->|Hh].
    + cbn in *. simplify_eq. auto.
    + destruct (iv_sock _ _ _ Hi h e m j nj) as (? & ? & ?); [set_solver|done|]. auto.
  - unfold sock_ids. cbn. apply NoDup_cons. split; [|apply (iv_ids _ _ _ Hi)].
    intros (s & Hs & Hin)%list_elem_of_fmap. apply list_elem_of_omap in Hin as (h & Hh & Hhs).
    destruct s as [[[e m] j] nj]. cbn in Hs. subst j.
    destruct (iv_sock _ _ _ Hi h e m i nj) as (? & _); [set_solver|done|].
    pose proof (lk_fresh _ _ _ _ _ _ Hl). congruence.
  - intros h pre k post e m Hh. apply elem_of_cons in Hh as [->|Hh].
    + apply (iv_closed _ _ _ Hi (mkHolder ks None)). set_solver.
    + apply (iv_closed _ _ _ Hi h). set_solver.
Qed.

(** ** A name gone *)

Lemma owned_sock_unique fs reg hs d n e m i :
  inv fs reg hs → owned_sock hs d n i → owned_sock hs e m i → (e, m) = (d, n).
Proof using Type*.
  intros Hi (h & nd & Hh & Hs) (h' & nd' & Hh' & Hs').
  assert ((e, m, i, nd') = (d, n, i, nd)) as [= -> ->]; [|done].
  eapply (NoDup_fmap_elem (λ s : FileId * str * FileId * inode, s.1.2)); [apply (iv_ids _ _ _ Hi)| | |done];
    apply list_elem_of_omap; eauto.
Qed.

Lemma owned_dir_not_sock fs reg hs d n e m i :
  inv fs reg hs → owned_dir reg d n i → owned_sock hs e m i → False.
Proof using Type*.
  intros Hi (r & Hr & Hc & _) (h & nd & Hh & Hs).
  destruct (iv_record _ _ _ Hi i r Hr) as [_ Hk]. rewrite Hc in Hk.
  destruct (iv_sock _ _ _ Hi _ _ _ _ _ Hh Hs) as (Hnd & Hsk & _). rewrite Hk in Hnd. by simplify_eq.
Qed.

Lemma owned_unique fs reg hs d n e m i :
  inv fs reg hs → owned reg hs d n i → owned reg hs e m i → (e, m) = (d, n).
Proof using Type*.
  intros Hi [H1|H1] [H2|H2].
  - destruct H1 as (r & Hr & _ & <- & <-), H2 as (r' & Hr' & _ & <- & <-). congruence.
  - exfalso. by eapply (owned_dir_not_sock fs reg hs d n).
  - exfalso. by eapply (owned_dir_not_sock fs reg hs e m).
  - by eapply owned_sock_unique.
Qed.

(** [fs'] is [fs] without the name [n] of [d], which led to [i]. *)
Record unlinked fs fs' (d : FileId) (n : str) (i : FileId) : Prop := {
  ul_root : fs_root fs' = fs_root fs;
  ul_same : ∀ j nj, j ≠ i → fs_inodes fs !! j = Some nj → ∃ nj', fs_inodes fs' !! j = Some nj' ∧ same_node nj nj';
  ul_entries : ∀ e m, entries_of fs' e !! m = if decide (e = d ∧ m = n) then None else entries_of fs e !! m;
}.

Lemma inv_unlink fs fs' reg reg' hs hs' d n i :
  inv fs reg hs → unlinked fs fs' d n i → owned reg hs d n i →
  (∀ e m j, owned reg' hs' e m j ↔ owned reg hs e m j ∧ j ≠ i) →
  (∀ k r, reg' !! k = Some r → k ≠ i ∧ reg !! k = Some r) →
  (∀ h e m j nj, h ∈ hs' → h_sock h = Some (e, m, j, nj) →
     j ≠ i ∧ fs_inodes fs !! j = Some nj ∧ is_socket_kind (i_kind nj) = true ∧
     last (fs_root fs0 :: h_keys h) = Some e) →
  NoDup (sock_ids hs') →
  counts reg' (h_keys <$> hs') →
  (∀ h pre k post e m, h ∈ hs' → h_keys h = pre ++ k :: post → owned_dir reg' e m k → e ∈ fs_root fs0 :: pre) →
  inv fs' reg' hs'.
Proof using Type*.
  intros Hi [Hroot Hsame Hent] Ho Hown Hrec Hsock Hids Hcnt Hcl.
  destruct (iv_new _ _ _ Hi _ _ _ Ho) as (Hpl & Hn0 & Hi0).
  assert (Hlk : entries_of fs d !! n = Some i) by (apply (iv_entries _ _ _ Hi); auto).
  split; try done.
  - rewrite Hroot. apply (iv_root _ _ _ Hi).
  - intros j n0 Hj. destruct (iv_base _ _ _ Hi j n0 Hj) as (nj & Hnj & Hs).
    destruct (Hsame j nj) as (nj' & ? & ?); [congruence|done|]. exists nj'. split; [done|]. by trans nj.
  - intros e m j. rewrite Hent, Hown. destruct (decide (e = d ∧ m = n)) as [[-> ->]|Hd].
    + split; [done|]. intros [|[Ho' Hne]]; [congruence|].
      assert (entries_of fs d !! n = Some j) by (apply (iv_entries _ _ _ Hi); auto). congruence.
    + rewrite (iv_entries _ _ _ Hi). split; [|naive_solver]. intros [|Ho']; [by left|right].
      split; [done|]. intros ->. apply Hd. pose proof (owned_unique _ _ _ _ _ _ _ _ Hi Ho Ho'). naive_solver.
  - intros e m j [Ho' _]%Hown. by apply (iv_new _ _ _ Hi).
  - intros k r Hk. destruct (Hrec k r Hk) as [Hne Hr].
    destruct (record_present _ _ _ _ _ Hi Hr) as [nk Hnk]. destruct (Hsame k nk Hne Hnk) as (nk' & Hnk' & Hs).
    eapply record_ok_same; [by apply (iv_record _ _ _ Hi)|done|]. intros nj Hnj. congruence.
  - intros h e m j nj Hh Hs. destruct (Hsock h e m j nj Hh Hs) as (Hne & Hj & Hk & Hlast). split; [|done].
    destruct (Hsame j nj Hne Hj) as (nj' & Hnj' & (Hu & Hp & Hkk)). rewrite Hnj'. f_equal.
    destruct nj as [[] ? ?], nj' as [[] ? ?]; cbn in *; simplify_eq; done.
Qed.

(** The holder's own socket. *)
Lemma inv_unlink_socket fs fs' reg ks hs d n i nd :
  inv fs reg (mkHolder ks (Some (d, n, i, nd)) :: hs) → unlinked fs fs' d n i →
  inv fs' reg (mkHolder ks None :: hs).
Proof using Type*.
  intros Hi Hu.
  assert (Hos : owned_sock (mkHolder ks (Some (d, n, i, nd)) :: hs) d n i).
  { exists (mkHolder ks (Some (d, n, i, nd))), nd. split; [set_solver|done]. }
  pose proof (iv_ids _ _ _ Hi) as Hids. unfold sock_ids in Hids. cbn in Hids.
  apply NoDup_cons in Hids as [Hni Hids].
  assert (Hother : ∀ h e m j nj, h ∈ hs → h_sock h = Some (e, m, j, nj) → j ≠ i).
  { intros h e m j nj Hh Hs ->. apply Hni. apply list_elem_of_fmap. exists (e, m, i, nj). split; [done|].
    apply list_elem_of_omap. eauto. }
  eapply inv_unlink; [exact Hi|exact Hu|by right| | | |exact Hids|apply (iv_counts _ _ _ Hi)|].
  - intros e m j. unfold owned. split.
    + intros [Ho|(h & nj & Hh & Hs)].
      * split; [by left|]. intros ->. by eapply owned_dir_not_sock.
      * apply elem_of_cons in Hh as [->|Hh]; [done|]. split; [right; exists h, nj; set_solver|].
        by eapply Hother.
    + intros [[Ho|(h & nj & Hh & Hs)] Hne]; [by left|]. apply elem_of_cons in Hh as [->|Hh].
      { cbn in Hs. naive_solver. }
      right. exists h, nj. set_solver.
  - intros k r Hr. split; [|done]. intros ->.
    destruct (iv_record _ _ _ Hi i r Hr) as [_ Hk].
    destruct (iv_sock _ _ _ Hi (mkHolder ks (Some (d, n, i, nd))) d n i nd) as (Hnd & Hsk & _); [set_solver|done|].
    destruct (dr_created_by_baffle r); [rewrite Hnd in Hk; by simplify_eq|].
    destruct (iv_new _ _ _ Hi d n i) as (_ & _ & Hno); [by right|].
    destruct Hk as [par Hk]. unfold parent_of in Hk. by rewrite Hno in Hk.
  - intros h e m j nj Hh Hs. apply elem_of_cons in Hh as [->|Hh]; [done|]. split; [by eapply Hother|].
    apply (iv_sock _ _ _ Hi h e m j nj); [set_solver|done].
  - intros h pre k post e m Hh. apply elem_of_cons in Hh as [->|Hh].
    + apply (iv_closed _ _ _ Hi (mkHolder ks (Some (d, n, i, nd)))). set_solver.
    + apply (iv_closed _ _ _ Hi h). set_solver.
Qed.

(** The last lease on a created directory: nothing is left in it. *)
Lemma last_lease_empty fs reg ks hs k r :
  inv fs reg (mkHolder (ks ++ [k]) None :: hs) →
  reg !! k = Some r → dr_created_by_baffle r = true → (dr_leases r - 1)%N = 0%N →
  entries_of fs k = ∅.
Proof using Type*.
  intros Hi Hr Hcr Hz. apply map_empty. intros m. apply eq_None_not_Some. intros [j Hj].
  destruct (created_directory _ _ _ _ _ Hi Hr Hcr) as (_ & _ & Hnone & _).
  pose proof (iv_counts _ _ _ Hi k) as Hc. rewrite Hr in Hc. destruct Hc as [Hc _].
  rewrite fmap_cons, total_cons in Hc. cbn [h_keys] in Hc. rewrite tally_app, tally_single, decide_True in Hc by done.
  assert (Hks : k ∉ ks) by (rewrite <- tally_pos; lia).
  assert (Hhs : ∀ h, h ∈ hs → k ∉ h_keys h).
  { intros h Hh Hk. assert (total k (h_keys <$> hs) ≠ 0); [|lia]. apply total_pos. exists (h_keys h).
    split; [by apply list_elem_of_fmap_2|done]. }
  assert (Hkr : k ≠ fs_root fs0).
  { intros ->. pose proof (wf_root _ Hwf) as [? Hp]. unfold parent_of in Hp. by rewrite Hnone in Hp. }
  apply (iv_entries _ _ _ Hi) in Hj as [Hj|[Hod|(h & nd & Hh & Hs)]].
  - unfold entries_of in Hj. by rewrite Hnone in Hj.
  - (* a created child is leased by somebody, who then leases [k] before it *)
    destruct Hod as (rj & Hrj & Hcj & Hpj & Hnj).
    pose proof (iv_counts _ _ _ Hi j) as Hcj'. rewrite Hrj in Hcj'. destruct Hcj' as [_ Hcj'].
    apply total_pos in Hcj' as (keys & Hkeys & Hjk). apply list_elem_of_fmap in Hkeys as (h & -> & Hh).
    apply list_elem_of_split in Hjk as (pre & post & Heq).
    assert (Hin : k ∈ fs_root fs0 :: pre).
    { apply (iv_closed _ _ _ Hi h pre j post k m); [done|done|]. exists rj. done. }
    apply elem_of_cons in Hin as [|Hin]; [done|]. apply elem_of_cons in Hh as [->|Hh].
    + cbn in Heq. destruct (snoc_split _ _ _ _ _ Heq) as [(_ & _ & ->)|[post' ->]]; set_solver.
    + apply (Hhs h Hh). rewrite Heq. set_solver.
  - destruct (iv_sock _ _ _ Hi h k m j nd Hh Hs) as (_ & _ & Hlast).
    apply elem_of_cons in Hh as [->|Hh]; [done|]. apply last_Some_elem_of in Hlast.
    apply elem_of_cons in Hlast as [|Hlast]; [done|]. by apply (Hhs h Hh).
Qed.

Lemma inv_release_remove fs fs' reg ks hs k r :
  inv fs reg (mkHolder (ks ++ [k]) None :: hs) →
  reg !! k = Some r → dr_created_by_baffle r = true → (dr_leases r - 1)%N = 0%N →
  unlinked fs fs' (dr_parent r) (dr_name r) k →
  inv fs' (released reg k) (mkHolder ks None :: hs).
Proof using Type*.
  intros Hi Hr Hcr Hz Hu.
  assert (Hrel : released reg k = delete k reg).
  { unfold released. by rewrite Hr, Hz. }
  assert (Hod : ∀ e m j, owned_dir (delete k reg) e m j ↔ owned_dir reg e m j ∧ j ≠ k).
  { intros e m j. unfold owned_dir. setoid_rewrite lookup_delete_Some. naive_solver. }
  eapply inv_unlink; [exact Hi|exact Hu|left; by exists r| | | |apply (iv_ids _ _ _ Hi)|by apply counts_release, Hi|].
  - intros e m j. rewrite Hrel. unfold owned. rewrite Hod.
    assert (Hsk : ∀ e m, ¬ owned_sock (mkHolder (ks ++ [k]) None :: hs) e m k).
    { intros e' m' Ho. eapply (owned_dir_not_sock fs reg _ (dr_parent r) (dr_name r)); [exact Hi| |exact Ho].
      by exists r. }
    assert (Hos : owned_sock (mkHolder ks None :: hs) e m j ↔ owned_sock (mkHolder (ks ++ [k]) None :: hs) e m j).
    { unfold owned_sock. setoid_rewrite elem_of_cons. naive_solver. }
    rewrite Hos. split; [|naive_solver]. intros [?|Ho]; [naive_solver|]. split; [by right|].
    intros ->. by apply (Hsk e m).
  - rewrite Hrel. intros j rj Hj. apply lookup_delete_Some in Hj. naive_solver.
  - intros h e m j nj Hh Hs. apply elem_of_cons in Hh as [->|Hh]; [done|].
    destruct (iv_sock _ _ _ Hi h e m j nj) as (? & ? & ?); [set_solver|done|]. split; [|done].
    intros ->. eapply (owned_dir_not_sock fs reg _ (dr_parent r) (dr_name r)); [exact Hi|by exists r|].
    exists h, nj. split; [set_solver|done].
  - intros h pre j post e m Hh Heq. rewrite Hrel, Hod. intros [Ho _]. apply elem_of_cons in Hh as [->|Hh].
    + cbn in Heq. subst ks.
      apply (iv_closed _ _ _ Hi (mkHolder ((pre ++ j :: post) ++ [k]) None) pre j (post ++ [k]) e m);
        [set_solver|cbn; by rewrite <- (assoc_L (++))|done].
    + apply (iv_closed _ _ _ Hi h pre j post e m); [set_solver|done|done].
Qed.

(** ** Runs *)

Lemma stat_at_runs fs d n :
  plain_name n → directory_at fs d → (∀ i, entries_of fs d !! n = Some i → is_Some (fs_inodes fs !! i)) →
  runs p fs (stat_at d n)
    (Ok (i ← entries_of fs d !! n; nd ← fs_inodes fs !! i; Some (stat_of i nd))) fs.
Proof.
  intros Hn Hd Hin. unfold stat_at. eapply runs_bind.
  { apply runs_libc. by apply exec_fstatat. }
  eapply runs_eq; [apply runs_ret| |done]. destruct (entries_of fs d !! n) as [i|] eqn:Hi; cbn.
  - destruct (Hin i eq_refl) as [nd Hnd]. unfold stat_inode. by rewrite Hnd.
  - by rewrite decide_True.
Qed.

Lemma entries_present fs reg hs d n i :
  inv fs reg hs → entries_of fs d !! n = Some i → is_Some (fs_inodes fs !! i).
Proof using Type*.
  intros Hi Hn. apply (iv_entries _ _ _ Hi) in Hn as [Hn|[(r & Hr & _)|(h & nd & Hh & Hs)]].
  - destruct (wf_entry _ Hwf _ _ _ Hn) as [n0 Hn0]. destruct (iv_base _ _ _ Hi _ _ Hn0) as (nj & -> & _). done.
  - by eapply record_present.
  - destruct (iv_sock _ _ _ Hi _ _ _ _ _ Hh Hs) as (-> & _). done.
Qed.

(** Removing a name through [unlinkat], with the directory emptied or not. *)
Lemma unlinked_entry fs d n i :
  i ≠ d → unlinked fs (update_inode (set_entries (delete n)) d fs) d n i.
Proof.
  intros Hne. split; [done| |apply entries_of_unlinked].
  intros j nj Hj Hnj. rewrite lookup_update_inode. destruct (decide (j = d)) as [->|]; [|by exists nj].
  rewrite Hnj. eexists. split; [done|]. apply same_node_set_entries.
Qed.

Lemma unlinked_dead fs fs' d n i : unlinked fs fs' d n i → unlinked fs (update_inode set_dead i fs') d n i.
Proof.
  intros [Hroot Hsame Hent]. split; [done| |intros; by rewrite entries_of_dead].
  intros j nj Hj Hnj. rewrite lookup_update_inode, decide_False by done. by apply Hsame.
Qed.

Lemma release_runs fs reg ks hs k :
  inv fs reg (mkHolder (ks ++ [k]) None :: hs) →
  ∃ fs', runs p fs (release_directory_lease reg k) (released reg k) fs'
    ∧ inv fs' (released reg k) (mkHolder ks None :: hs).
Proof using Type*.
  intros Hi. destruct (reg !! k) as [r|] eqn:Hr.
  2:{ exfalso. eapply (standing_present _ _ _ (mkHolder (ks ++ [k]) None)); [exact Hi|set_solver| |exact Hr]. set_solver. }
  destruct (decide ((dr_leases r - 1)%N = 0%N ∧ dr_created_by_baffle r = true)) as [[Hz Hcr]|Hkeep].
  - pose proof (last_lease_empty _ _ _ _ _ _ Hi Hr Hcr Hz) as Hempty.
    destruct (created_directory _ _ _ _ _ Hi Hr Hcr) as (Hpar & _ & Hnone & Hent & Hpl).
    destruct (iv_record _ _ _ Hi k r Hr) as [Hid Hk]. rewrite Hcr in Hk.
    pose proof (entries_directory _ _ _ _ Hent) as Hd.
    assert (Hne : k ≠ dr_parent r).
    { intros Heq. rewrite <- Heq in Hent. by rewrite Hempty, lookup_empty in Hent. }
    eexists. split; [|eapply inv_release_remove; [exact Hi|exact Hr|done|done|]; apply unlinked_dead, unlinked_entry, Hne].
    unfold release_directory_lease, released. rewrite Hr, Hz, Hcr. cbn [negb N.eqb].
    eapply runs_bind; [|apply runs_ret]. eapply runs_bind.
    { apply stat_at_runs; [done|done|]. intros i Hi'. by eapply entries_present. }
    rewrite Hent. cbn. rewrite Hk. cbn. unfold same_directory. rewrite is_dir_stat_of. cbn.
    rewrite <- Hid. cbn. rewrite !N.eqb_refl. cbn. unfold unlink_directory_at.
    eapply runs_eq; [apply runs_libc|done|done].
    rewrite (exec_unlinkat _ _ _ _ k) by done. rewrite Hk. cbn. by rewrite Hempty, decide_True, Hid by done.
  - exists fs. split; [|apply inv_release_keep; [done|]; intros r'; rewrite Hr; intros [= <-];
      destruct (decide ((dr_leases r - 1)%N = 0%N)); [right; destruct (dr_created_by_baffle r); naive_solver|by left]].
    unfold release_directory_lease, released. rewrite Hr.
    destruct (N.eqb_spec (dr_leases r - 1) 0) as [Hz|Hz]; cbn [negb]; [|apply runs_ret].
    assert (dr_created_by_baffle r = false) as -> by (destruct (dr_created_by_baffle r); naive_solver). cbn.
    eapply runs_bind; [apply runs_ret|apply runs_ret].
Qed.

Lemma release_popped_runs keys hs : ∀ fs reg ks,
  inv fs reg (mkHolder (ks ++ reverse keys) None :: hs) →
  ∃ reg' fs', runs p fs (release_popped reg keys) reg' fs' ∧ inv fs' reg' (mkHolder ks None :: hs).
Proof using Type*.
  induction keys as [|k keys IH]; intros fs reg ks Hi; cbn [release_popped].
  - rewrite reverse_nil, app_nil_r in Hi. exists reg, fs. split; [apply runs_ret|done].
  - rewrite reverse_cons, (assoc_L (++)) in Hi.
    destruct (release_runs _ _ _ _ _ Hi) as (fs1 & Hrun1 & Hi1).
    destruct (IH _ _ _ Hi1) as (reg' & fs' & Hrun2 & Hi2). exists reg', fs'. split; [|done].
    by eapply runs_bind.
Qed.

Lemma inv_drop_empty fs reg hs : inv fs reg (mkHolder [] None :: hs) ↔ inv fs reg hs.
Proof using Type*.
  assert (Hown : ∀ d n i, owned reg (mkHolder [] None :: hs) d n i ↔ owned reg hs d n i).
  { intros d n i. unfold owned, owned_sock. setoid_rewrite elem_of_cons. naive_solver. }
  split; intros [Hroot Hbase Hent Hnew Hrec Hsock Hids Hcnt Hcl]; split; try done.
  - intros d n i. by rewrite <- Hown.
  - intros d n i. rewrite <- Hown. apply Hnew.
  - intros h d n i nd Hh. apply Hsock. set_solver.
  - intros h pre k post d n Hh. apply Hcl. set_solver.
  - intros d n i. by rewrite Hown.
  - intros d n i. rewrite Hown. apply Hnew.
  - intros h d n i nd Hh Hs. apply elem_of_cons in Hh as [->|Hh]; [done|]. by eapply Hsock.
  - intros h pre k post d n Hh Heq. apply elem_of_cons in Hh as [->|Hh]; [by destruct pre|]. by eapply Hcl.
Qed.

Lemma drop_created_runs fs reg keys hs :
  inv fs reg (mkHolder keys None :: hs) →
  ∃ reg' fs', runs p fs (drop_created_directories reg keys) reg' fs' ∧ inv fs' reg' hs.
Proof using Type*.
  intros Hi. destruct (release_popped_runs (reverse keys) hs fs reg []) as (reg' & fs' & Hrun & Hi').
  { by rewrite reverse_involutive. }
  exists reg', fs'. split; [done|]. by apply inv_drop_empty.
Qed.

(** ** Entering a component *)

Lemma register_runs fs reg d n st path made :
  runs p fs (register_directory reg d n st path made)
    (Ok (st_id st, registered reg (st_id st)
       (mkDirectoryRecord d n (id_dev (st_id st)) (id_ino (st_id st)) path made 0) made)) fs.
Proof.
  unfold register_directory. eapply runs_bind; [by apply runs_libc|].
  eapply runs_eq; [apply runs_ret|done|done].
Qed.

Definition new_record (d : FileId) (n : str) (k : FileId) path made : DirectoryRecord :=
  mkDirectoryRecord d n (id_dev k) (id_ino k) path made 0.

Lemma fstat_runs fs k nd :
  fs_inodes fs !! k = Some nd → runs p fs (libc as_stat (Fstat k)) (Ok (stat_of k nd)) fs.
Proof.
  intros Hk. eapply runs_eq; [by apply runs_libc|cbn; unfold stat_inode; by rewrite Hk|done].
Qed.

Lemma enter_existing_runs fs reg d n k nd normalized :
  exec p fs (Open_directory d n) = (RFd k, fs) →
  fs_inodes fs !! k = Some nd → is_directory_kind (i_kind nd) = true →
  runs p fs (enter_component reg d n normalized)
    (Ok (k, registered reg k (new_record d n k normalized false) false, k)) fs.
Proof.
  intros Hop Hk Hdir. unfold enter_component, open_or_create. eapply runs_bind.
  { eapply runs_bind; [by apply runs_libc|]. cbn. apply runs_ret. }
  cbn. eapply runs_bind; [by apply fstat_runs|]. cbn. rewrite is_dir_stat_of, Hdir. cbn.
  eapply runs_bind; [apply runs_ret|]. cbn. eapply runs_bind; [apply register_runs|]. cbn.
  eapply runs_eq; [apply runs_ret| |done]. by destruct k.
Qed.

Lemma open_created_runs fs d n i nd :
  plain_name n → entries_of fs d !! n = Some i → fs_inodes fs !! i = Some nd →
  is_directory_kind (i_kind nd) = true →
  runs p fs (libc as_fd (Open_directory d n)) (Ok i) fs.
Proof.
  intros Hn Hent Hi Hdir. pose proof (entries_directory _ _ _ _ Hent) as Hd.
  eapply runs_eq; [by apply runs_libc, exec_open_directory| |done].
  rewrite Hent. cbn. unfold open_directory. rewrite Hi. cbn. by destruct (i_kind nd).
Qed.

(** A missing directory is made, opened, restricted to its owner and
    registered. *)
Lemma enter_missing_runs fs reg d n normalized :
  plain_name n → directory_at fs d → is_dead fs d = false → entries_of fs d !! n = None →
  ∃ fs' i, linked fs fs' d n i (mkInode (Directory ∅ d false) (p_euid p) 448) ∧
    runs p fs (enter_component reg d n normalized)
      (Ok (i, registered reg i (new_record d n i normalized true) true, i)) fs'.
Proof.
  intros Hn Hd Hdead Hnone.
  set (nd := mkInode (Directory ∅ d false) (p_euid p) (N.ldiff 448 (p_umask p))).
  destruct (create_inode d n nd fs) as [i fs1] eqn:Hcr.
  destruct (create_inode_spec _ _ _ _ _ _ Hcr Hd eq_refl) as (Hf & Hne & Hroot & Hnode & Hsame & Hother & Hent).
  assert (Hl : linked fs fs1 d n i nd) by done.
  assert (Hl' : linked fs (update_inode (set_perm 448) i fs1) d n i (set_perm 448 nd)) by (by apply linked_update).
  assert (Hent1 : entries_of fs1 d !! n = Some i) by (rewrite Hent; by rewrite decide_True).
  assert (Hmk : exec p fs (Mkdirat d n 448) = (RUnit, fs1)).
  { rewrite exec_mkdirat by done. fold nd. by rewrite Hcr. }
  exists (update_inode (set_perm 448) i fs1), i. split; [exact Hl'|].
  unfold enter_component, open_or_create. eapply runs_bind.
  { eapply runs_bind; [by apply runs_libc, exec_open_directory|]. rewrite Hnone. cbn. rewrite decide_True by done.
    eapply runs_bind; [apply runs_libc, Hmk|]. cbn.
    eapply runs_bind; [by eapply open_created_runs|]. apply runs_ret. }
  cbn. eapply runs_bind; [by apply fstat_runs|]. cbn. rewrite is_dir_stat_of. cbn.
  eapply runs_bind.
  { unfold set_created_directory_mode. eapply runs_bind; [by eapply open_created_runs|]. cbn.
    eapply runs_bind; [by apply fstat_runs|]. cbn. rewrite is_dir_stat_of, !N.eqb_refl. cbn.
    eapply runs_bind; [by apply runs_libc|]. apply runs_ret. }
  cbn. eapply runs_bind; [apply register_runs|]. cbn.
  eapply runs_eq; [apply runs_ret| |done]. by destruct i.
Qed.

Lemma last_elem {A} (l : list A) x : last l = Some x → x ∈ l.
Proof. apply last_Some_elem_of. Qed.

(** Which directories a registered one can be: of the start, or created. *)
Lemma directory_origin fs reg hs d n k nd :
  inv fs reg hs → entries_of fs d !! n = Some k → fs_inodes fs !! k = Some nd →
  is_directory_kind (i_kind nd) = true → directory_at fs0 k ∨ owned_dir reg d n k.
Proof using Type*.
  intros Hi Hn Hk Hdir. apply (iv_entries _ _ _ Hi) in Hn as [Hn|[Ho|(h & nk & Hh & Hs)]]; [left|by right|].
  - destruct (wf_entry _ Hwf _ _ _ Hn) as [n0 Hn0]. destruct (iv_base _ _ _ Hi _ _ Hn0) as (nj & Hnj & _ & _ & Hs).
    rewrite Hk in Hnj. simplify_eq. unfold directory_at, parent_of. rewrite Hn0. cbn.
    destruct (i_kind n0), (i_kind nj); naive_solver.
  - destruct (iv_sock _ _ _ Hi _ _ _ _ _ Hh Hs) as (Hk' & Hsk & _). rewrite Hk in Hk'. simplify_eq.
    by destruct (i_kind nk).
Qed.

Lemma owned_dir_fun reg d n d' n' k : owned_dir reg d n k → owned_dir reg d' n' k → d = d'.
Proof. intros (r & Hr & _ & <- & _) (r' & Hr' & _ & <- & _). congruence. Qed.

(** The parent of a directory the walk stands on is one it came through. *)
Lemma parent_origin fs reg ks hs d par :
  inv fs reg (mkHolder ks None :: hs) → last (fs_root fs0 :: ks) = Some d → parent_of fs d = Some par →
  (directory_at fs0 par ∨ ∃ e m, owned_dir reg e m par) ∧
  (∀ e m, owned_dir reg e m par → e ∈ fs_root fs0 :: ks) ∧ directory_at fs par.
Proof using Type*.
  intros Hi Hlast Hpar.
  destruct (standing fs reg _ (mkHolder ks None) d Hi) as (Hd & _ & Horig);
    [set_solver|by apply last_elem|].
  assert (Hnew : ∀ e m k, owned_dir reg e m k → fs_inodes fs0 !! k = None).
  { intros e m k Ho. by destruct (iv_new _ _ _ Hi e m k) as (_ & _ & ?); [left|]. }
  destruct Horig as [Hd0|(r & Hr & Hc)].
  - destruct (base_directory _ _ _ _ Hi Hd0) as (par0 & Hp0 & Hp & _). rewrite Hpar in Hp. simplify_eq.
    pose proof (wf_parent _ Hwf _ _ Hp0) as Hpd. split; [by left|]. split.
    + intros e m Ho. apply Hnew in Ho. destruct Hpd as [? Hx]. unfold parent_of in Hx. by rewrite Ho in Hx.
    + by destruct (base_directory _ _ _ _ Hi Hpd) as (q & _ & ? & _); exists q.
  - destruct (created_directory _ _ _ _ _ Hi Hr Hc) as (Hp & _ & Hnone & Hent & _).
    rewrite Hpar in Hp. simplify_eq.
    assert (Hks : ∃ pre, ks = pre ++ [d]).
    { apply last_Some in Hlast as [l Hl]. destruct l as [|x l]; cbn in Hl; [|simplify_eq; eauto].
      simplify_eq. pose proof (wf_root _ Hwf) as [? Hx]. unfold parent_of in Hx. by rewrite Hnone in Hx. }
    destruct Hks as [pre ->].
    assert (Hin : dr_parent r ∈ fs_root fs0 :: pre).
    { eapply (iv_closed _ _ _ Hi (mkHolder (pre ++ [d]) None) pre d []); [set_solver|done|]. by exists r. }
    destruct (standing fs reg _ (mkHolder (pre ++ [d]) None) (dr_parent r) Hi) as (Hpd & _ & Ho);
      [set_solver|set_solver|].
    split; [|split; [|done]].
    + destruct Ho as [|(rp & Hrp & Hcp)]; [by left|]. right. exists (dr_parent rp), (dr_name rp). by exists rp.
    + intros e m Ho'. apply elem_of_cons in Hin as [Heq|Hin].
      { rewrite Heq in Ho'. apply Hnew in Ho'. pose proof (wf_root _ Hwf) as [? Hx]. unfold parent_of in Hx.
        by rewrite Ho' in Hx. }
      apply list_elem_of_split in Hin as (pre1 & post1 & ->).
      assert (e ∈ fs_root fs0 :: pre1); [|set_solver].
      eapply (iv_closed _ _ _ Hi (mkHolder ((pre1 ++ dr_parent r :: post1) ++ [d]) None) pre1 (dr_parent r) (post1 ++ [d]));
        [set_solver|cbn; by rewrite <- (assoc_L (++))|done].
Qed.

Lemma enter_component_inv fs reg ks hs d n normalized :
  inv fs reg (mkHolder ks None :: hs) → last (fs_root fs0 :: ks) = Some d →
  plain_name n ∨ n = [".";"."] →
  ∃ r fs', runs p fs (enter_component reg d n normalized) r fs' ∧
    match r with
    | Ok (k, reg', next) => next = k ∧ inv fs' reg' (mkHolder (ks ++ [k]) None :: hs)
    | Err _ => inv fs' reg (mkHolder ks None :: hs)
    end.
Proof using Type*.
  intros Hi Hlast Hname. pose proof (last_elem _ _ Hlast) as Hin.
  destruct (standing fs reg _ (mkHolder ks None) d Hi) as (Hd & Hdead & _); [set_solver|done|].
  destruct Hname as [Hn| ->].
  - destruct (entries_of fs d !! n) as [k|] eqn:Hent.
    + destruct (entries_present _ _ _ _ _ _ Hi Hent) as [nd Hk].
      destruct (is_directory_kind (i_kind nd)) eqn:Hdir.
      * do 2 eexists. split.
        { eapply enter_existing_runs; [|exact Hk|done]. rewrite exec_open_directory, Hent by done.
          cbn. unfold open_directory. rewrite Hk. cbn. by destruct (i_kind nd). }
        split; [done|]. apply inv_register; try done; [by destruct k| |].
        { destruct (directory_origin _ _ _ _ _ _ _ Hi Hent Hk Hdir); eauto. }
        intros e m Ho. destruct (directory_origin _ _ _ _ _ _ _ Hi Hent Hk Hdir) as [[? Hx]|Ho'].
        { destruct (iv_new _ _ _ Hi e m k) as (_ & _ & Hz); [by left|]. unfold parent_of in Hx. by rewrite Hz in Hx. }
        by rewrite (owned_dir_fun _ _ _ _ _ _ Ho Ho').
      * exists (Err (OsError ENOTDIR)), fs. split; [|done]. unfold enter_component, open_or_create.
        eapply runs_bind.
        { eapply runs_bind; [by apply runs_libc, exec_open_directory|].
          rewrite Hent. cbn. unfold open_directory. rewrite Hk. cbn.
          destruct (i_kind nd); [done|..]; cbn; rewrite decide_False by done; apply runs_ret. }
        apply runs_ret.
    + destruct (enter_missing_runs fs reg d n normalized) as (fs' & i & Hl & Hrun); [done..|].
      do 2 eexists. split; [exact Hrun|]. split; [done|]. by apply (inv_mkdir fs).
  - destruct Hd as [par Hpar]. destruct (parent_origin _ _ _ _ _ _ Hi Hlast Hpar) as (Horig & Hcl & Hpd).
    destruct Hpd as [gp Hgp]. destruct (dir_inode _ _ _ Hgp) as (dead & uid & perm & Hk).
    do 2 eexists. split.
    { eapply enter_existing_runs; [by apply exec_open_dotdot; [|by eexists]|exact Hk|done]. }
    split; [done|]. apply inv_register; try done. by destruct par.
Qed.

Lemma enter_components_inv cs hs : ∀ fs reg ks d normalized,
  (∀ n, NormalC n ∈ cs → plain_name n) →
  inv fs reg (mkHolder ks None :: hs) → last (fs_root fs0 :: ks) = Some d →
  ∃ r reg' ks' fs', runs p fs (enter_components reg ks d normalized cs) (r, reg', ks') fs' ∧
    inv fs' reg' (mkHolder ks' None :: hs) ∧
    match r with Ok d' => last (fs_root fs0 :: ks') = Some d' | Err _ => True end.
Proof using Type*.
  induction cs as [|c cs IH]; intros fs reg ks d normalized Hcs Hi Hlast; cbn [enter_components].
  { do 4 eexists. split; [apply runs_ret|done]. }
  destruct (component_name c) as [[n|]|e] eqn:Hc.
  - destruct (enter_component_inv fs reg ks hs d n (path_join normalized (to_string_lossy n)))
      as (r & fs1 & Hrun & Hr); [done|done| |].
    { unfold component_name in Hc. destruct c as [| | |n']; simplify_eq; [by right|].
      destruct (contains_char _ n'); simplify_eq. left. apply Hcs. set_solver. }
    destruct r as [[[k reg1] next]|e].
    + destruct Hr as [-> Hi1].
      destruct (IH fs1 reg1 (ks ++ [k]) k (path_join normalized (to_string_lossy n)))
        as (r & reg' & ks' & fs' & Hrun' & Hr'); [set_solver|done|by rewrite app_comm_cons, last_snoc|].
      exists r, reg', ks', fs'. split; [|done]. by eapply runs_bind; [exact Hrun|].
    + do 4 eexists. split; [eapply runs_bind; [exact Hrun|apply runs_ret]|done].
  - apply IH; [set_solver|done|done].
  - do 4 eexists. split; [apply runs_ret|done].
Qed.

Lemma normalize_runs fs path : ∃ path', runs p fs (normalize_system_path path) path' fs.
Proof.
  unfold normalize_system_path. destruct (strip_path_prefix path _) as [suffix|]; [|eexists; apply runs_ret].
  assert (Hm : ∃ m, runs p fs (symlink_metadata (lit "/var/run")) m fs).
  { eexists. unfold symlink_metadata, with_cwd. intros tr. by apply (runs_libc p fs fs (Fstatat (p_cwd p) (lit "/var/run"))). }
  destruct Hm as [[st|e] Hm]; [|eexists; eapply runs_bind; [exact Hm|apply runs_ret]].
  destruct (is_symlink st) eqn:Hst; [|eexists; eapply runs_bind; [exact Hm|cbn; rewrite Hst; apply runs_ret]].
  assert (Ht : ∃ t, runs p fs (with_cwd (λ cwd, libc as_path (Readlink cwd (lit "/var/run")))) t fs).
  { eexists. unfold with_cwd. intros tr. by apply (runs_libc p fs fs (Readlink (p_cwd p) (lit "/var/run"))). }
  destruct Ht as [[t|e] Ht]; eexists; (eapply runs_bind; [exact Hm|]); cbn; rewrite Hst;
    (eapply runs_bind; [exact Ht|]); apply runs_ret.
Qed.

Lemma absolute_runs fs path :
  runs p fs (if is_absolute path then mret (Ok path)
             else cwd ← current_dir; mret ((λ cwd, path_join cwd path) <$> cwd))
    (Ok (if is_absolute path then path else path_join (p_cwd_path p) path)) fs.
Proof.
  destruct (is_absolute path); [apply runs_ret|]. eapply runs_bind.
  - unfold current_dir. eapply runs_bind; [by apply runs_libc|apply runs_ret].
  - apply runs_ret.
Qed.

Lemma open_socket_parent_inv fs reg path hs :
  inv fs reg hs →
  ∃ r reg' fs', runs p fs (open_socket_parent path reg) (r, reg') fs' ∧
    match r with
    | Ok (d, keys, _) => inv fs' reg' (mkHolder keys None :: hs) ∧ last (fs_root fs0 :: keys) = Some d
    | Err _ => inv fs' reg' hs
    end.
Proof using Type*.
  intros Hi. unfold open_socket_parent.
  set (logical := if is_absolute (parent_or_dot path) then parent_or_dot path
                  else path_join (p_cwd_path p) (parent_or_dot path)).
  destruct (normalize_runs fs logical) as [absolute Habs].
  destruct (enter_components_inv (components absolute) hs fs reg [] (fs_root fs0) ["/"])
    as (r & reg1 & keys & fs1 & Hrun & Hi1 & Hr); [apply components_normal|by apply inv_drop_empty|done|].
  assert (Hloc : runs p fs (open_socket_parent_locked path reg)
    (match r with
     | Err e => (Err e, reg1, keys)
     | Ok d => (match file_name path with
                | None => Err (CustomError InvalidInput "missing socket name")
                | Some name => Ok (d, path_join logical name)
                end, reg1, keys)
     end) fs1).
  { unfold open_socket_parent_locked. eapply runs_bind; [apply absolute_runs|]. cbn. fold logical.
    eapply runs_bind; [exact Habs|]. eapply runs_bind; [by apply runs_libc|]. cbn.
    rewrite (iv_root _ _ _ Hi). eapply runs_bind; [exact Hrun|]. cbn. apply runs_ret. }
  assert (Hfail : ∀ e, runs p fs (open_socket_parent_locked path reg) (Err e, reg1, keys) fs1 →
    ∃ reg' fs', runs p fs (open_socket_parent path reg) (Err e, reg') fs' ∧ inv fs' reg' hs).
  { intros e Hl. destruct (drop_created_runs _ _ _ _ Hi1) as (reg' & fs' & Hrun' & Hi').
    exists reg', fs'. split; [|done]. unfold open_socket_parent. eapply runs_bind; [exact Hl|]. cbn.
    eapply runs_bind; [exact Hrun'|apply runs_ret]. }
  destruct r as [d|e]; [|destruct (Hfail e Hloc) as (reg' & fs' & ? & ?); by exists (Err e), reg', fs'].
  destruct (file_name path) as [name|].
  - do 3 eexists. split; [eapply runs_bind; [exact Hloc|]; cbn; apply runs_ret|]. cbn. done.
  - destruct (Hfail _ Hloc) as (reg' & fs' & ? & ?). do 3 eexists. split; [done|]. done.
Qed.

(** ** Binding and dropping *)

Definition holder_of (lg : FileId * UnixSocketGuard) : holder :=
  mkHolder (ug_created_directories lg.2)
    (Some (ug_parent lg.2, ug_name lg.2, lg.1, mkInode (Socket true) (p_euid p) 384)).

Lemma set_perm_runs fs d n i nd mode :
  plain_name n → entries_of fs d !! n = Some i → fs_inodes fs !! i = Some nd →
  is_socket_kind (i_kind nd) = true →
  runs p fs (libc as_unit (Fchmodat d n mode)) (Ok ()) (update_inode (set_perm mode) i fs).
Proof.
  intros Hn Hent Hi Hsk. pose proof (entries_directory _ _ _ _ Hent) as Hd.
  apply (runs_libc p fs _ (Fchmodat d n mode) as_unit RUnit). cbn.
  rewrite (resolve_follow_plain _ _ _ i nd); [done..|]. intros t Ht. by rewrite Ht in Hsk.
Qed.

Lemma stat_linked_runs fs fs' d n i nd :
  linked fs fs' d n i nd → plain_name n → directory_at fs d →
  runs p fs' (stat_at d n) (Ok (Some (stat_of i nd))) fs'.
Proof.
  intros Hl Hn Hd.
  assert (Hent : entries_of fs' d !! n = Some i) by (rewrite (lk_entries _ _ _ _ _ _ Hl); by rewrite decide_True).
  eapply runs_eq; [apply stat_at_runs; [done|by eapply entries_directory|]| |done].
  - intros j. rewrite Hent. intros [= <-]. rewrite (lk_node _ _ _ _ _ _ Hl). done.
  - rewrite Hent. cbn. by rewrite (lk_node _ _ _ _ _ _ Hl).
Qed.

(** A free name in a directory: the socket is bound, listens, and is
    restricted to its owner. *)
Lemma listen_runs fs reg d n keys normalized :
  plain_name n → directory_at fs d → is_dead fs d = false → entries_of fs d !! n = None →
  ∃ i fs', linked fs fs' d n i (mkInode (Socket true) (p_euid p) 384) ∧
    runs p fs
      (listener ← listener_bind d n;
       match listener with
       | Err e => registry ← drop_created_directories reg keys; mret (Err (OsError e), registry)
       | Ok listener => guard_listener listener d n n normalized keys reg
       end)
      (Ok (i, mkUnixSocketGuard normalized d n (id_dev i) (id_ino i) keys), reg) fs'.
Proof.
  intros Hn Hd Hdead Hnone.
  set (nd := mkInode (Socket false) (p_euid p) (N.ldiff 511 (p_umask p))).
  destruct (create_inode d n nd fs) as [i fs1] eqn:Hcr.
  assert (Hl1 : linked fs fs1 d n i nd).
  { destruct (create_inode_spec _ _ _ _ _ _ Hcr Hd I) as (? & ? & ? & ? & ? & ? & ?). done. }
  assert (Hb : exec p fs (Bind d n) = (RFd i, fs1)).
  { rewrite exec_bind by done. fold nd. by rewrite Hcr. }
  set (fs2 := update_inode (set_listening true) i fs1).
  assert (Hl2 : linked fs fs2 d n i (set_listening true nd)) by (by apply linked_update).
  set (fs3 := update_inode (set_perm 384) i fs2).
  assert (Hl3 : linked fs fs3 d n i (mkInode (Socket true) (p_euid p) 384)) by (by apply (linked_update _ _ _ _ _ _ (set_perm 384) Hl2)).
  exists i, fs3. split; [done|].
  eapply runs_bind.
  { unfold listener_bind. eapply runs_bind; [apply runs_libc, Hb|]. cbn.
    eapply runs_bind; [by apply runs_libc|]. cbn. apply runs_ret. }
  fold fs2. cbn. unfold guard_listener. eapply runs_bind; [by eapply stat_linked_runs|]. cbn.
  eapply runs_bind.
  { eapply (set_perm_runs _ d n i); [done| |apply (lk_node _ _ _ _ _ _ Hl2)|done].
    rewrite (lk_entries _ _ _ _ _ _ Hl2). by rewrite decide_True. }
  fold fs3. cbn. eapply runs_bind; [by eapply stat_linked_runs|]. cbn.
  unfold matches. rewrite is_socket_stat_of. cbn. rewrite !N.eqb_refl. cbn. apply runs_ret.
Qed.

Definition absolute_path (path : str) : str :=
  if is_absolute path then path else path_join (p_cwd_path p) path.

(** The socket's name is text, as every socket name a session can have. *)
Definition text_name (path : str) : Prop :=
  ∀ name, file_name (absolute_path path) = Some name → from_utf8 name = true.

Lemma guard_bind_inv fs reg path hs :
  inv fs reg hs → text_name path →
  ∃ r reg' fs', runs p fs (guard_bind path reg) (r, reg') fs' ∧
    match r with
    | Ok lg => inv fs' reg' (holder_of lg :: hs) ∧ ug_id lg.2 = lg.1 ∧
        file_name (absolute_path path) = Some (ug_name lg.2)
    | Err _ => inv fs' reg' hs
    end.
Proof using Type*.
  intros Hi Htext. unfold guard_bind, text_name, absolute_path in *.
  set (absolute := if is_absolute path then path else path_join (p_cwd_path p) path) in *.
  assert (Hstart : ∀ B (f : result io_error str → Sys B) b fs', runs p fs (f (Ok absolute)) b fs' →
    runs p fs ((if is_absolute path then mret (Ok path)
                else cwd ← current_dir; mret ((λ cwd, path_join cwd path) <$> cwd)) ≫= f) b fs').
  { intros B f b fs' Hf. eapply runs_bind; [apply absolute_runs|exact Hf]. }
  destruct (decide (UNIX_SOCKET_PATH_BYTES ≤ length absolute)) as [Hlen|Hlen].
  { do 3 eexists. split; [apply Hstart; cbn; rewrite decide_True by done; apply runs_ret|done]. }
  destruct (file_name absolute) as [name|] eqn:Hname.
  2:{ do 3 eexists. split; [apply Hstart; cbn; rewrite decide_False, Hname by done; apply runs_ret|done]. }
  destruct (contains_char "000" name) eqn:Hnul.
  { do 3 eexists. split; [apply Hstart; cbn; rewrite decide_False, Hname, Hnul by done; apply runs_ret|done]. }
  pose proof (file_name_plain _ _ Hname) as Hpl. pose proof (to_string_lossy_text name (Htext name eq_refl)) as Hlossy.
  destruct (open_socket_parent_inv fs reg absolute hs Hi) as (r & reg1 & fs1 & Hopen & Hr).
  destruct r as [[[d keys] normalized]|e].
  2:{ do 3 eexists. split; [apply Hstart; cbn; rewrite decide_False, Hname, Hnul by done;
        eapply runs_bind; [exact Hopen|cbn; apply runs_ret]|done]. }
  destruct Hr as [Hi1 Hlast].
  destruct (standing fs1 reg1 _ (mkHolder keys None) d Hi1) as (Hd & Hdead & _);
    [set_solver|by apply last_elem|].
  assert (Hstat : runs p fs1 (stat_at d name)
    (Ok (i ← entries_of fs1 d !! name; nd ← fs_inodes fs1 !! i; Some (stat_of i nd))) fs1).
  { apply stat_at_runs; [done|done|]. intros i. by eapply entries_present. }
  destruct (entries_of fs1 d !! name) as [j|] eqn:Hent.
  - destruct (entries_present _ _ _ _ _ _ Hi1 Hent) as [nj Hj].
    destruct (drop_created_runs _ _ _ _ Hi1) as (reg2 & fs2 & Hdrop & Hi2).
    exists (Err (CustomError AlreadyExists "socket path exists")), reg2, fs2. split; [|done].
    apply Hstart. cbn. rewrite decide_False, Hname, Hnul by done. eapply runs_bind; [exact Hopen|]. cbn.
    eapply runs_bind; [exact Hstat|]. cbn. rewrite Hj. cbn. eapply runs_bind; [exact Hdrop|apply runs_ret].
  - destruct (listen_runs fs1 reg1 d name keys normalized) as (i & fs2 & Hl & Hlisten); [done..|].
    do 3 eexists. split.
    + apply Hstart. cbn. rewrite decide_False, Hname, Hnul by done. eapply runs_bind; [exact Hopen|]. cbn.
      eapply runs_bind; [exact Hstat|]. cbn. rewrite Hlossy. exact Hlisten.
    + cbn. split; [by apply (inv_socket fs1)|]. by destruct i.
Qed.

Lemma entries_of_listening fs b i e : entries_of (update_inode (set_listening b) i fs) e = entries_of fs e.
Proof.
  unfold entries_of at 1. rewrite lookup_update_inode. unfold entries_of.
  destruct (decide (e = i)) as [->|]; [|done]. by destruct (fs_inodes fs !! i) as [[[] ? ?]|].
Qed.

Lemma close_listener_runs fs i :
  runs p fs (close_listener i) () (update_inode (set_listening false) i fs).
Proof. intros tr. by exists tr. Qed.

(** [h] after the socket [i] has begun or ceased to listen. *)
Definition relisten (b : bool) (i : FileId) (h : holder) : holder :=
  mkHolder (h_keys h)
    ((λ s, (s.1, if decide (s.1.2 = i) then set_listening b s.2 else s.2)) <$> h_sock h).

Lemma set_listening_socket b nd : is_socket_kind (i_kind (set_listening b nd)) = is_socket_kind (i_kind nd).
Proof. by destruct nd as [[] ? ?]. Qed.

Lemma relisten_other b i hs : i ∉ sock_ids hs → relisten b i <$> hs = hs.
Proof.
  unfold sock_ids. induction hs as [|[keys [[[[d n] j] nd]|]] hs IH]; cbn; [done| |]; intros Hni.
  - apply not_elem_of_cons in Hni as [Hji Hni]. rewrite IH by done. unfold relisten. cbn.
    by rewrite decide_False by congruence.
  - by rewrite IH.
Qed.

Lemma relisten_sock b i h d n j nd :
  h_sock (relisten b i h) = Some (d, n, j, nd) ↔
  ∃ nd0, h_sock h = Some (d, n, j, nd0) ∧ nd = if decide (j = i) then set_listening b nd0 else nd0.
Proof.
  unfold relisten. cbn. destruct (h_sock h) as [[[[d' n'] j'] nd']|]; cbn; [|naive_solver].
  split; [intros [= <- <- <- <-]; by exists nd'|]. by intros (nd0 & [= <- <- <- <-] & ->).
Qed.

(** A socket the daemon made may begin or cease to listen. *)
Lemma inv_listening fs reg hs b i nd :
  inv fs reg hs → fs_inodes fs0 !! i = None → fs_inodes fs !! i = Some nd → is_socket_kind (i_kind nd) = true →
  inv (update_inode (set_listening b) i fs) reg (relisten b i <$> hs).
Proof using Type*.
  intros Hi Hno Hnd Hsk. pose proof Hi as [Hroot Hbase Hent Hnew Hrec Hsock Hids Hcnt Hcl].
  set (fs' := update_inode (set_listening b) i fs).
  assert (Hlook : ∀ j, j ≠ i → fs_inodes fs' !! j = fs_inodes fs !! j).
  { intros j Hj. unfold fs'. by rewrite lookup_update_inode, decide_False. }
  assert (Hown : ∀ d n j, owned reg (relisten b i <$> hs) d n j ↔ owned reg hs d n j).
  { intros d n j. unfold owned, owned_sock. f_equiv. split.
    - intros (h & ni & (h0 & -> & Hh)%list_elem_of_fmap & (n0 & Hs & _)%relisten_sock). by eauto.
    - intros (h & ni & Hh & Hs). eexists (relisten b i h), _. split; [by apply list_elem_of_fmap_2|].
      apply relisten_sock. by eauto. }
  split; [done| | | | | | | |].
  - intros j n0 Hj. destruct (Hbase j n0 Hj) as (n & Hn & Hs). exists n. split; [|done].
    rewrite Hlook; [done|]. congruence.
  - intros d n j. unfold fs'. rewrite entries_of_listening, Hown. apply Hent.
  - intros d n j. rewrite Hown. apply Hnew.
  - intros k r Hr. destruct (record_present _ _ _ _ _ Hi Hr) as [nk Hnk].
    eapply record_ok_same; [by apply Hrec| |].
    + rewrite Hlook; [exact Hnk|]. intros ->. destruct (Hrec i r Hr) as [_ Hk].
      destruct (dr_created_by_baffle r); [rewrite Hk in Hnd; by simplify_eq|].
      destruct Hk as [par Hk]. unfold parent_of in Hk. by rewrite Hno in Hk.
    + intros nj Hnj. assert (nj = nk) as -> by congruence. reflexivity.
  - intros h d n j nj (h0 & -> & Hh)%list_elem_of_fmap (n0 & Hs & ->)%relisten_sock.
    destruct (Hsock h0 d n j n0 Hh Hs) as (Hj & Hk & Hlast). destruct (decide (j = i)) as [->|Hne].
    + unfold fs'. rewrite lookup_update_inode, decide_True, Hj by done. by rewrite set_listening_socket.
    + by rewrite Hlook.
  - assert (sock_ids (relisten b i <$> hs) = sock_ids hs) as ->; [|done].
    unfold sock_ids. clear. induction hs as [|[keys [[[[d n] j] nd]|]] hs IH]; cbn; [done| |done]. by rewrite IH.
  - assert (h_keys <$> (relisten b i <$> hs) = h_keys <$> hs) as ->; [|done]. by rewrite <- list_fmap_compose.
  - intros h pre k post d n (h0 & -> & Hh)%list_elem_of_fmap. cbn. intros Hk Ho. by eapply Hcl.
Qed.

(** The same for a socket nobody holds. *)
Lemma inv_close_orphan fs reg hs b i :
  inv fs reg hs → fs_inodes fs0 !! i = None → orphan i fs → inv (update_inode (set_listening b) i fs) reg hs.
Proof using Type*.
  intros Hi Hno [(nd & Hnd & Hk) Hu]. rewrite <- (relisten_other b i hs); [by eapply inv_listening|].
  intros Hin. unfold sock_ids in Hin. apply list_elem_of_fmap in Hin as ([[[d n] j] nj] & -> & Hin).
  apply list_elem_of_omap in Hin as (h & Hh & Hs). apply (Hu d n). apply (iv_entries _ _ _ Hi). right. right.
  by exists h, nj.
Qed.

(** What is known of a guard whose socket was unlinked. *)
Definition retired_ok fs (lg : FileId * UnixSocketGuard) : Prop :=
  orphan lg.1 fs ∧ fs_inodes fs0 !! lg.1 = None ∧ ug_id lg.2 = lg.1 ∧ plain_name (ug_name lg.2) ∧
  last (fs_root fs0 :: guard_keys lg) = Some (ug_parent lg.2).

Definition retired_holder (lg : FileId * UnixSocketGuard) : holder := mkHolder (guard_keys lg) None.

Definition socket_holder nd (lg : FileId * UnixSocketGuard) : holder :=
  mkHolder (guard_keys lg) (Some (ug_parent lg.2, ug_name lg.2, lg.1, nd)).

Lemma retired_ok_runs {A} fs (m : Sys A) a fs' lg :
  keeps_orphans m → runs p fs m a fs' → retired_ok fs lg → retired_ok fs' lg.
Proof. intros Hm Hr [Ho Hrest]. split; [by eapply runs_orphan|done]. Qed.

(** The guard of a socket in place removes exactly its name. *)
Lemma unlink_owned_inv fs reg nd lg hs :
  inv fs reg (socket_holder nd lg :: hs) → ug_id lg.2 = lg.1 →
  ∃ fs', runs p fs (unlink_owned lg.2) () fs' ∧ inv fs' reg (retired_holder lg :: hs) ∧ retired_ok fs' lg.
Proof using Type*.
  intros Hi Hid. destruct lg as [i g]; cbn [fst snd] in *.
  destruct (iv_sock _ _ _ Hi (socket_holder nd (i, g)) (ug_parent g) (ug_name g) i nd)
    as (Hnode & Hk & Hlast); [set_solver|done|].
  assert (Ho : owned reg (socket_holder nd (i, g) :: hs) (ug_parent g) (ug_name g) i).
  { right. do 2 eexists. split; [apply list_elem_of_here|done]. }
  destruct (iv_new _ _ _ Hi _ _ _ Ho) as (Hpl & _ & Hno).
  assert (Hent : entries_of fs (ug_parent g) !! ug_name g = Some i) by (apply (iv_entries _ _ _ Hi); by right).
  pose proof (entries_directory _ _ _ _ Hent) as Hd.
  assert (Hne : i ≠ ug_parent g).
  { intros Heq. destruct Hd as [? Hx]. unfold parent_of in Hx. rewrite <- Heq, Hnode in Hx.
    by destruct nd as [[] ? ?]. }
  set (fs1 := update_inode (set_entries (delete (ug_name g))) (ug_parent g) fs).
  assert (Hu : unlinked fs fs1 (ug_parent g) (ug_name g) i) by (by apply unlinked_entry).
  exists fs1. split; [|split; [by eapply inv_unlink_socket|]].
  - unfold unlink_owned. eapply runs_bind.
    { apply stat_at_runs; [done|done|]. intros j. rewrite Hent. intros [= <-]. by rewrite Hnode. }
    rewrite Hent. cbn. rewrite Hnode. cbn. unfold matches. rewrite is_socket_stat_of, Hk. cbn.
    rewrite <- Hid. cbn. rewrite !N.eqb_refl. cbn. eapply runs_bind; [|apply runs_ret].
    eapply runs_libc. rewrite (exec_unlinkat _ _ _ _ i) by done. rewrite Hnode. by destruct nd as [[] ? ?].
  - split; [|done]. split.
    + exists nd. unfold fs1. by rewrite lookup_update_inode, decide_False.
    + cbn [fst]. intros d n Hx. unfold fs1 in Hx. rewrite entries_of_unlinked in Hx.
      destruct (decide _) as [|Hdn]; [done|]. apply (iv_entries _ _ _ Hi) in Hx as [Hx|Hx].
      * destruct (wf_entry _ Hwf _ _ _ Hx). congruence.
      * pose proof (owned_unique _ _ _ _ _ _ _ _ Hi Ho Hx) as [= -> ->]. naive_solver.
Qed.

(** The guard of a retired socket removes nothing, whatever has its name. *)
Lemma unlink_retired_runs fs reg lg hs :
  inv fs reg (retired_holder lg :: hs) → retired_ok fs lg → runs p fs (unlink_owned lg.2) () fs.
Proof using Type*.
  intros Hi (Ho & _ & Hid & Hpl & Hlast).
  destruct (standing fs reg _ (retired_holder lg) (ug_parent lg.2) Hi) as (Hd & _); [set_solver|by apply last_elem|].
  unfold unlink_owned. eapply runs_bind.
  { apply stat_at_runs; [done|done|]. intros j. by eapply entries_present. }
  destruct (entries_of fs (ug_parent lg.2) !! ug_name lg.2) as [j|] eqn:Hj; [|apply runs_ret].
  destruct (entries_present _ _ _ _ _ _ Hi Hj) as [nj Hnj]. cbn. rewrite Hnj. cbn.
  assert (matches lg.2 (stat_of j nj) = false) as ->; [|apply runs_ret].
  unfold matches. destruct (is_socket _); [|done]. cbn. destruct (N.eqb_spec (id_dev j) (ug_device lg.2)) as [H1|]; [|done].
  cbn. apply N.eqb_neq. intros H2. apply (or_unlinked _ _ Ho (ug_parent lg.2) (ug_name lg.2)). rewrite Hj, <- Hid.
  unfold ug_id. rewrite <- H1, <- H2. by destruct j.
Qed.

Lemma keeps_end_listener listener_first lg reg : keeps_orphans (end_listener listener_first lg reg).
Proof. unfold end_listener. keep_orphans. Qed.

(** Both ends of a listener, for a socket in place. *)
Lemma end_live_inv fs reg listener_first lg hs :
  inv fs reg (holder_of lg :: hs) → ug_id lg.2 = lg.1 →
  ∃ reg' fs', runs p fs (end_listener listener_first lg reg) reg' fs' ∧ inv fs' reg' hs.
Proof using Type*.
  intros Hi Hid. unfold end_listener. destruct listener_first.
  - assert (Hi1 : inv (update_inode (set_listening false) lg.1 fs) reg
      (socket_holder (mkInode (Socket false) (p_euid p) 384) lg :: hs)).
    { destruct (iv_sock _ _ _ Hi (holder_of lg) (ug_parent lg.2) (ug_name lg.2) lg.1 (mkInode (Socket true) (p_euid p) 384))
        as (Hnode & _); [set_solver|done|].
      destruct (iv_new _ _ _ Hi (ug_parent lg.2) (ug_name lg.2) lg.1) as (_ & _ & Hno).
      { right. do 2 eexists. split; [apply list_elem_of_here|done]. }
      pose proof (inv_listening fs reg _ false lg.1 _ Hi Hno Hnode eq_refl) as Hl. cbn in Hl.
      pose proof (iv_ids _ _ _ Hi) as Hids. unfold sock_ids in Hids. cbn in Hids. apply NoDup_cons in Hids as [Hni _].
      rewrite (relisten_other false lg.1 hs Hni) in Hl. unfold relisten in Hl. cbn in Hl.
      by rewrite decide_True in Hl. }
    destruct (unlink_owned_inv _ _ _ lg hs Hi1 Hid) as (fs1 & Hrun1 & Hi2 & _).
    destruct (drop_created_runs _ _ _ _ Hi2) as (reg' & fs' & Hrun2 & Hi3). exists reg', fs'. split; [|done].
    eapply runs_bind; [apply close_listener_runs|]. unfold drop_guard. by eapply runs_bind.
  - destruct (unlink_owned_inv fs reg _ lg hs Hi Hid) as (fs1 & Hrun1 & Hi1 & Hok).
    destruct (drop_created_runs _ _ _ _ Hi1) as (reg' & fs2 & Hrun2 & Hi2).
    destruct (retired_ok_runs _ _ _ _ lg (keeps_drop_created _ _) Hrun2 Hok) as (Ho & Hno & _).
    do 2 eexists. split; [|by apply (inv_close_orphan fs2 reg' hs false lg.1)].
    eapply runs_bind; [unfold drop_guard; by eapply runs_bind|].
    eapply runs_bind; [apply close_listener_runs|apply runs_ret].
Qed.

(** And for a retired one. *)
Lemma end_retired_inv fs reg listener_first lg hs :
  inv fs reg (retired_holder lg :: hs) → retired_ok fs lg →
  ∃ reg' fs', runs p fs (end_listener listener_first lg reg) reg' fs' ∧ inv fs' reg' hs.
Proof using Type*.
  intros Hi Hok. unfold end_listener. destruct listener_first.
  - pose proof Hok as (Ho & Hno & _). pose proof (inv_close_orphan fs reg _ false lg.1 Hi Hno Ho) as Hi1.
    assert (Hok1 : retired_ok (update_inode (set_listening false) lg.1 fs) lg).
    { eapply (retired_ok_runs fs (close_listener lg.1)); [apply keeps_close|apply close_listener_runs|done]. }
    pose proof (unlink_retired_runs _ _ _ _ Hi1 Hok1) as Hrun1.
    destruct (drop_created_runs _ _ _ _ Hi1) as (reg' & fs' & Hrun2 & Hi2). exists reg', fs'. split; [|done].
    eapply runs_bind; [apply close_listener_runs|]. unfold drop_guard. by eapply runs_bind.
  - pose proof (unlink_retired_runs _ _ _ _ Hi Hok) as Hrun1.
    destruct (drop_created_runs _ _ _ _ Hi) as (reg' & fs2 & Hrun2 & Hi2).
    destruct (retired_ok_runs _ _ _ _ lg (keeps_drop_created _ _) Hrun2 Hok) as (Ho & Hno & _).
    do 2 eexists. split; [|by apply (inv_close_orphan fs2 reg' hs false lg.1)].
    eapply runs_bind; [unfold drop_guard; by eapply runs_bind|].
    eapply runs_bind; [apply close_listener_runs|apply runs_ret].
Qed.

(** ** Sequences of operations *)

Definition holders (st : socket_state) : list holder :=
  (holder_of <$> ss_live st) ++ (retired_holder <$> ss_retired st).

Record live_inv fs (st : socket_state) : Prop := {
  lv_inv : inv fs (ss_registry st) (holders st);
  lv_ids : ∀ lg, lg ∈ ss_live st → ug_id lg.2 = lg.1;
  lv_retired : ∀ lg, lg ∈ ss_retired st → retired_ok fs lg;
}.

Definition op_text (op : socket_op) : Prop :=
  match op with OpBind path => text_name path | _ => True end.

Lemma elem_of_delete {A} (l : list A) i x y : l !! i = Some x → y ∈ delete i l → y ∈ l.
Proof. intros Hi Hy. rewrite (delete_Permutation _ _ _ Hi). by right. Qed.

Lemma bind_live_runs fs st path :
  live_inv fs st → text_name path →
  ∃ reg' o fs', let st' := mkSocketState reg' (ss_live st ++ option_list o) (ss_retired st) in
    runs p fs (socket_step (OpBind path) st) st' fs' ∧ live_inv fs' st' ∧
    ∀ lg, o = Some lg → file_name (absolute_path path) = Some (ug_name lg.2).
Proof using Type*.
  intros [Hi Hids Hret] Hop. destruct (guard_bind_inv fs (ss_registry st) path _ Hi Hop) as (r & reg' & fs' & Hrun & Hr).
  assert (Hret' : ∀ lg, lg ∈ ss_retired st → retired_ok fs' lg).
  { intros lg Hlg. eapply retired_ok_runs; [apply keeps_guard_bind|exact Hrun|by apply Hret]. }
  destruct r as [lg|e].
  - destruct Hr as (Hi' & Hid & Hname). exists reg', (Some lg), fs'. split; [|split].
    + eapply runs_bind; [exact Hrun|apply runs_ret].
    + split; cbn; [|set_solver|done]. eapply inv_perm; [|exact Hi']. unfold holders. cbn. rewrite fmap_app. cbn.
      rewrite <- app_assoc. cbn. by rewrite <- Permutation_middle.
    + by intros lg' [= <-].
  - exists reg', None, fs'. cbn [option_list]. rewrite app_nil_r. split; [|by split].
    eapply runs_bind; [exact Hrun|apply runs_ret].
Qed.

Lemma retire_live_runs fs st index lg :
  live_inv fs st → ss_live st !! index = Some lg →
  let st' := mkSocketState (ss_registry st) (delete index (ss_live st)) (ss_retired st ++ [lg]) in
  ∃ fs', runs p fs (socket_step (OpRetire index) st) st' fs' ∧ live_inv fs' st'.
Proof using Type*.
  intros [Hi Hids Hret] Hl st'. cbn [socket_step]. rewrite Hl.
  apply inv_perm with (hs' := holder_of lg :: (holder_of <$> delete index (ss_live st)) ++ (retired_holder <$> ss_retired st)) in Hi;
    [|unfold holders; by rewrite (delete_Permutation _ _ _ Hl) at 1].
  destruct (unlink_owned_inv fs _ _ lg _ Hi (Hids lg ltac:(by eapply list_elem_of_lookup_2))) as (fs' & Hrun & Hi' & Hok).
  exists fs'. split; [eapply runs_bind; [exact Hrun|apply runs_ret]|]. split; cbn.
  - eapply inv_perm; [|exact Hi']. unfold holders. cbn. rewrite fmap_app. cbn. rewrite app_assoc.
    by rewrite <- Permutation_cons_append.
  - intros lg' Hlg'. apply Hids. by eapply elem_of_delete.
  - intros lg' [Hlg'| ->%list_elem_of_singleton]%elem_of_app; [|done].
    eapply retired_ok_runs; [apply keeps_unlink_owned|exact Hrun|by apply Hret].
Qed.

Lemma drop_live_runs fs st index first lg :
  live_inv fs st → ss_live st !! index = Some lg →
  ∃ reg' fs', let st' := mkSocketState reg' (delete index (ss_live st)) (ss_retired st) in
    runs p fs (socket_step (OpDrop index first) st) st' fs' ∧ live_inv fs' st'.
Proof using Type*.
  intros [Hi Hids Hret] Hl. cbn [socket_step]. rewrite Hl.
  apply inv_perm with (hs' := holder_of lg :: (holder_of <$> delete index (ss_live st)) ++ (retired_holder <$> ss_retired st)) in Hi;
    [|unfold holders; by rewrite (delete_Permutation _ _ _ Hl) at 1].
  destruct (end_live_inv fs _ first lg _ Hi (Hids lg ltac:(by eapply list_elem_of_lookup_2))) as (reg' & fs' & Hrun & Hi').
  exists reg', fs'. split; [eapply runs_bind; [exact Hrun|apply runs_ret]|]. split; cbn; [done| |].
  - intros lg' Hlg'. apply Hids. by eapply elem_of_delete.
  - intros lg' Hlg'. eapply retired_ok_runs; [apply keeps_end_listener|exact Hrun|by apply Hret].
Qed.

Lemma drop_retired_runs fs st index first lg :
  live_inv fs st → ss_retired st !! index = Some lg →
  ∃ reg' fs', let st' := mkSocketState reg' (ss_live st) (delete index (ss_retired st)) in
    runs p fs (socket_step (OpDropRetired index first) st) st' fs' ∧ live_inv fs' st'.
Proof using Type*.
  intros [Hi Hids Hret] Hl. cbn [socket_step]. rewrite Hl.
  apply inv_perm with (hs' := retired_holder lg :: (holder_of <$> ss_live st) ++ (retired_holder <$> delete index (ss_retired st))) in Hi.
  2:{ unfold holders. rewrite (delete_Permutation _ _ _ Hl) at 1. cbn. by rewrite <- Permutation_middle. }
  destruct (end_retired_inv fs _ first lg _ Hi (Hret lg ltac:(by eapply list_elem_of_lookup_2))) as (reg' & fs' & Hrun & Hi').
  exists reg', fs'. split; [eapply runs_bind; [exact Hrun|apply runs_ret]|]. split; cbn; [done|done|].
  intros lg' Hlg'. eapply retired_ok_runs; [apply keeps_end_listener|exact Hrun|]. apply Hret. by eapply elem_of_delete.
Qed.

Lemma socket_step_inv fs st op :
  live_inv fs st → op_text op →
  ∃ st' fs', runs p fs (socket_step op st) st' fs' ∧ live_inv fs' st'.
Proof using Type*.
  intros Hst Hop.
  assert (Hnone : ∃ st' fs', runs p fs (mret st) st' fs' ∧ live_inv fs' st') by (do 2 eexists; split; [apply runs_ret|done]).
  destruct op as [path|index|index first|index first].
  - destruct (bind_live_runs fs st path Hst Hop) as (reg' & o & fs' & Hrun & Hi & _). by eauto.
  - destruct (ss_live st !! index) as [lg|] eqn:Hl; [|by cbn [socket_step]; rewrite Hl].
    destruct (retire_live_runs fs st index lg Hst Hl) as (fs' & Hrun & Hi). by eauto.
  - destruct (ss_live st !! index) as [lg|] eqn:Hl; [|by cbn [socket_step]; rewrite Hl].
    destruct (drop_live_runs fs st index first lg Hst Hl) as (reg' & fs' & Hrun & Hi). by eauto.
  - destruct (ss_retired st !! index) as [lg|] eqn:Hl; [|by cbn [socket_step]; rewrite Hl].
    destruct (drop_retired_runs fs st index first lg Hst Hl) as (reg' & fs' & Hrun & Hi). by eauto.
Qed.

Lemma socket_run_inv ops : ∀ fs st,
  live_inv fs st → Forall op_text ops →
  ∃ st' fs', runs p fs (socket_run ops st) st' fs' ∧ live_inv fs' st'.
Proof using Type*.
  induction ops as [|op ops IH]; intros fs st Hst Hops; cbn [socket_run].
  { do 2 eexists. split; [apply runs_ret|done]. }
  apply Forall_cons in Hops as [Hop Hops].
  destruct (socket_step_inv fs st op Hst Hop) as (st1 & fs1 & Hrun1 & Hst1).
  destruct (IH fs1 st1 Hst1 Hops) as (st2 & fs2 & Hrun2 & Hst2).
  do 2 eexists. split; [by eapply runs_bind|done].
Qed.

Lemma live_inv_start : live_inv fs0 (mkSocketState empty_registry [] []).
Proof using Type*.
  split; [|set_solver..]. unfold holders. cbn.
  assert (Ho : ∀ d n i, ¬ owned empty_registry [] d n i).
  { intros d n i [(r & Hr & _)|(h & nd & Hh & _)]; [|set_solver]. unfold empty_registry in Hr. by rewrite lookup_empty in Hr. }
  split; try done.
  - intros i n0 Hn. by exists n0.
  - intros d n i. pose proof (Ho d n i). naive_solver.
  - intros d n i Hd. by destruct (Ho d n i).
  - intros h d n i nd Hh. set_solver.
  - apply NoDup_nil_2.
  - intros h pre k post d n Hh. set_solver.
Qed.

(** What the invariant says of the names. *)
Lemma live_inv_names fs st :
  live_inv fs st →
  (∀ d n i, entries_of fs d !! n = Some i ↔
     entries_of fs0 d !! n = Some i ∨
     (∃ g, (i, g) ∈ ss_live st ∧ ug_parent g = d ∧ ug_name g = n) ∨
     (∃ r, ss_registry st !! i = Some r ∧ dr_created_by_baffle r = true ∧ dr_parent r = d ∧ dr_name r = n)) ∧
  (∀ i g, (i, g) ∈ ss_live st → fs_inodes fs !! i = Some (mkInode (Socket true) (p_euid p) 384)) ∧
  (∀ k r, ss_registry st !! k = Some r → dr_created_by_baffle r = true →
     fs_inodes fs !! k = Some (mkInode (Directory (entries_of fs k) (dr_parent r) false) (p_euid p) 448)) ∧
  (ss_live st = [] → ss_retired st = [] → ss_registry st = ∅ ∧ fs_inodes fs0 ⊆ fs_inodes fs).
Proof using Type*.
  intros [Hi _ _]. split; [|split; [|split]].
  - intros d n i. rewrite (iv_entries _ _ _ Hi). unfold owned.
    assert (Hos : owned_sock (holders st) d n i ↔ ∃ g, (i, g) ∈ ss_live st ∧ ug_parent g = d ∧ ug_name g = n).
    { unfold owned_sock, holders. split.
      - intros (h & nd & [([i' g] & -> & Hin)%list_elem_of_fmap|(lg & -> & _)%list_elem_of_fmap]%elem_of_app & Hs);
          cbn in Hs; simplify_eq. by exists g.
      - intros (g & Hin & <- & <-). exists (holder_of (i, g)). eexists. split; [|done]. apply elem_of_app. left.
        by apply (list_elem_of_fmap_2 holder_of _ (i, g)). }
    rewrite Hos. unfold owned_dir. tauto.
  - intros i g Hin. eapply (iv_sock _ _ _ Hi (holder_of (i, g))); [|done]. apply elem_of_app. left. by apply list_elem_of_fmap_2.
  - intros k r Hr Hc. destruct (iv_record _ _ _ Hi k r Hr) as [_ Hk]. by rewrite Hc in Hk.
  - intros Hl Hr. unfold holders in Hi. rewrite Hl, Hr in Hi. destruct (inv_no_holders _ _ Hi) as (? & _ & ?). done.
Qed.
End quiet.

(** when nobody else changes the directories and no call fails, after any
    sequence of binds, retirements and drops of session sockets (binds refused
    half-way included, and a retired socket's name taken by another): the names
    in the file system are exactly those of the start, the sockets of the live
    guards and the directories the daemon created and still leases; live sockets
    listen with mode 0600 and created directories have mode 0700; and once no
    guard is left the registry is empty and every inode the daemon found is as
    it found it. *)
Theorem session_sockets_restore p fs0 ops tr :
  fs_wf fs0 → Forall (op_text p) ops →
  let res := socket_run ops (mkSocketState empty_registry [] []) (mkWorld p fs0 [] tr) in
  let st := res.1 in
  let fs := w_fs res.2 in
  (∀ d n i, entries_of fs d !! n = Some i ↔
     entries_of fs0 d !! n = Some i ∨
     (∃ g, (i, g) ∈ ss_live st ∧ ug_parent g = d ∧ ug_name g = n) ∨
     (∃ r, ss_registry st !! i = Some r ∧ dr_created_by_baffle r = true ∧ dr_parent r = d ∧ dr_name r = n)) ∧
  (∀ i g, (i, g) ∈ ss_live st → fs_inodes fs !! i = Some (mkInode (Socket true) (p_euid p) 384)) ∧
  (∀ k r, ss_registry st !! k = Some r → dr_created_by_baffle r = true →
     fs_inodes fs !! k = Some (mkInode (Directory (entries_of fs k) (dr_parent r) false) (p_euid p) 448)) ∧
  (ss_live st = [] → ss_retired st = [] → ss_registry st = ∅ ∧ fs_inodes fs0 ⊆ fs_inodes fs).
Proof.
  intros Hwf Hops.
  destruct (socket_run_inv p fs0 Hwf ops fs0 _ (live_inv_start p fs0 Hwf) Hops) as (st & fs & Hrun & Hst).
  destruct (runs_world p _ _ _ _ tr Hrun) as (Heq & Hfs & _). cbv zeta. rewrite Heq, Hfs. by apply live_inv_names.
Qed.

(** ** An example: two sockets in a directory that is made for them *)

Definition example_root : FileId := mkFileId 1 2.
Definition example_run : FileId := mkFileId 1 3.
Definition example_start : Fs := mkFs
  {[ example_root := mkInode (Directory {[ lit "run" := example_run ]} example_root false) 0 493;
     example_run := mkInode (Directory ∅ example_root false) 0 493 ]} example_root.
Definition example_process : process := mkProcess 0 18 example_root (lit "/").
Definition example_ops : list socket_op :=
  [OpBind (lit "/run/baffle/proxies/a.sock"); OpBind (lit "/run/baffle/b.sock");
   OpBind (lit "/run/baffle/b.sock"); OpRetire 0;
   OpBind (lit "/run/baffle/proxies/a.sock"); OpDropRetired 0 true; OpDrop 0 false].

Lemma example_start_wf : fs_wf example_start.
Proof.
  assert (Hdom : ∀ d n, fs_inodes example_start !! d = Some n → d = example_root ∨ d = example_run).
  { intros d n Hd. unfold example_start in Hd. cbn [fs_inodes] in Hd.
    apply lookup_insert_Some in Hd as [[<- _]|[_ [<- _]%lookup_singleton_Some]]; auto. }
  assert (Hin : ∀ (P : FileId → Prop) d, (∀ n, fs_inodes example_start !! d = Some n → P d) →
    fs_inodes example_start !! d = None ∨ P d).
  { intros P d HP. destruct (fs_inodes example_start !! d) eqn:Hd; eauto. }
  split.
  - by eexists.
  - intros d par Hp. destruct (Hin (λ d, d = example_root ∨ d = example_run) d (Hdom d)) as [Hn|[->| ->]];
      [unfold parent_of in Hp; by rewrite Hn in Hp|..]; vm_compute in Hp; injection Hp as <-; by eexists.
  - intros d n i Hn. destruct (Hin (λ d, d = example_root ∨ d = example_run) d (Hdom d)) as [Hd|[->| ->]];
      [unfold entries_of in Hn; by rewrite Hd in Hn|..].
    + change (({[ lit "run" := example_run ]} : gmap str FileId) !! n = Some i) in Hn.
      apply lookup_singleton_Some in Hn as [_ <-]. by eexists.
    + change ((∅ : gmap str FileId) !! n = Some i) in Hn. by rewrite lookup_empty in Hn.
  - intros d. destruct (Hin (λ d, d = example_root ∨ d = example_run) d (Hdom d)) as [Hd|[->| ->]]; [|done..].
    unfold is_dead. by rewrite Hd.
Qed.

(** The second bind of a retired socket's name is the one live socket after
    these operations; dropping it too restores the start. *)
Lemma session_sockets_restore_witness :
  let res := socket_run (example_ops ++ [OpDrop 0 true]) (mkSocketState empty_registry [] [])
               (mkWorld example_process example_start [] []) in
  length (ss_live (socket_run example_ops (mkSocketState empty_registry [] [])
                     (mkWorld example_process example_start [] [])).1) = 1 ∧
  ss_registry res.1 = ∅ ∧ fs_inodes example_start ⊆ fs_inodes (w_fs res.2).
Proof.
  split; [vm_compute; reflexivity|].
  apply (session_sockets_restore example_process example_start (example_ops ++ [OpDrop 0 true]) []).
  - apply example_start_wf.
  - unfold example_ops. cbn [app].
    repeat first [apply Forall_nil_2 | apply Forall_cons_2]; try exact I;
      intros name Hname; vm_compute in Hname; injection Hname as <-; vm_compute; reflexivity.
  - vm_compute. reflexivity.
  - vm_compute. reflexivity.
Defined.
