(* ===== verification/StaleSockets.v ===== *)
(** Removing sockets that a previous daemon left behind
    (the cleanup part of src/control/server.rs).

    A socket is removed only when it belongs to the operator, nobody accepts
    connections on it, and the name still leads to the inode that was probed.
    The walk below the session socket directory goes through held descriptors
    and never follows a symbolic link. [stat_at] of src/control/server.rs is
    the function of the same name in [SocketDirs]. The callback
    [on_directory_open] is empty outside tests and left out. *)

From S2P Require Import Prelude RustStr RustPath PosixFs SocketDirs SocketLeases.
From stdpp Require Import options.
Local Open Scope char_scope.

(** An error of [anyhow], identified by its text. *)
Definition anyhow := string.

Definition with_context {A} (message : string) (r : result errno A) : result anyhow A :=
  map_err (λ _, message) r.

(** ** Probing *)

Inductive SocketProbeResult := Active | Stale | Changed.

(** The answers that mean that nobody listens. *)
Definition probe_answer (r : result errno unit) : result errno SocketProbeResult :=
  match r with
  | Ok _ => Ok Active
  | Err e =>
      if decide (errno_kind e = ConnectionRefused ∨ errno_kind e = NotFound) then Ok Stale else Err e
  end.

(** Linux: connect through [/proc/self/fd/<parent>/<name>]. *)
Definition probe_socket_path (parent : FileId) (name : str) : Sys (result errno SocketProbeResult) :=
  r ← libc as_unit (Connect parent name); mret (probe_answer r).

Definition probe_pinned_socket (parent : FileId) (name : str) (metadata : stat)
    : Sys (result errno SocketProbeResult) := probe_socket_path parent name.

(** [stat] or [lstat] by path; a missing component is no result. *)
Definition stat_path (path : str) (follow_symlinks : bool) : Sys (result errno (option stat)) :=
  if contains_char "000" path then mret (Err EINVAL)
  else
    r ← with_cwd (λ cwd, libc as_stat (if follow_symlinks then Stat_follow cwd path else Fstatat cwd path));
    mret (match r with
          | Ok st => Ok (Some st)
          | Err e =>
              if decide (errno_kind e = NotFound ∨ errno_kind e = NotADirectory) then Ok None else Err e
          end).

Definition same_id (a b : stat) : bool := (st_dev a =? st_dev b)%N && (st_ino a =? st_ino b)%N.

Definition path_still_names_pinned_socket (parent : FileId) (name : str) (expected_socket : stat)
    (parent_path : str) : Sys (result errno bool) :=
  path_parent ←? stat_path parent_path true;
  match path_parent with
  | None => mret (Ok false)
  | Some path_parent =>
      pinned_parent ←? libc as_stat (Fstat parent);
      if negb (is_dir path_parent) || negb (same_id path_parent pinned_parent) then mret (Ok false)
      else
        path_socket ←? stat_path (path_join parent_path name) false;
        mret (Ok (match path_socket with
                  | None => false
                  | Some path_socket =>
                      is_socket path_socket && (st_uid path_socket =? st_uid expected_socket)%N
                      && same_id path_socket expected_socket
                  end))
  end.

(** macOS: the directory's current path is resolved, the socket probed by
    path, and both checked again when nobody answers. *)
Definition probe_socket_via_resolved_path (resolve_parent_path : FileId → Sys (result errno str))
    (parent : FileId) (name : str) (metadata : stat) : Sys (result errno SocketProbeResult) :=
  parent_path ←? resolve_parent_path parent;
  connected ← with_cwd (λ cwd, libc as_unit (Connect cwd (path_join parent_path name)));
  match probe_answer connected with
  | Ok Stale =>
      current ← resolve_parent_path parent;
      match current with
      | Err _ => mret (Ok Changed)
      | Ok current_parent_path =>
          if negb (path_eqb current_parent_path parent_path) then mret (Ok Changed)
          else
            same ←? path_still_names_pinned_socket parent name metadata parent_path;
            mret (Ok (if same then Stale else Changed))
      end
  | r => mret r
  end.

(** ** Removing one socket *)

Section probe.
Context (probe : FileId → str → stat → Sys (result errno SocketProbeResult)).

Definition remove_stale_socket_at_with_probe (parent : FileId) (name : str) (expected_uid : N)
    : Sys (result anyhow bool) :=
  metadata ← stat_at parent name;
  match metadata with
  | Err _ => mret (Err "could not inspect the socket"%string)
  | Ok None => mret (Ok false)
  | Ok (Some metadata) =>
      if negb (is_socket metadata) || negb (st_uid metadata =? expected_uid)%N then mret (Ok false)
      else
        probed ← probe parent name metadata;
        match probed with
        | Err _ => mret (Err "could not check whether the socket is active"%string)
        | Ok Active | Ok Changed => mret (Ok false)
        | Ok Stale =>
            current ← stat_at parent name;
            match current with
            | Err _ => mret (Err "could not recheck the socket"%string)
            | Ok None => mret (Ok false)
            | Ok (Some current) =>
                if negb (is_socket current) || negb (st_uid current =? expected_uid)%N
                   || negb (same_id current metadata)
                then mret (Err "socket path changed during stale socket cleanup"%string)
                else
                  r ← libc as_unit (Unlinkat parent name false);
                  mret (match r with
                        | Ok _ => Ok true
                        | Err e => if decide (errno_kind e = NotFound) then Ok false
                                   else Err "could not remove stale socket"%string
                        end)
            end
        end
  end.
End probe.

Definition remove_stale_socket_at (parent : FileId) (name : str) (expected_uid : N) : Sys (result anyhow bool) :=
  remove_stale_socket_at_with_probe probe_pinned_socket parent name expected_uid.

Definition open_socket_directory (path : str) : Sys (result errno FileId) :=
  with_cwd (λ cwd, libc as_fd (Open_directory cwd path)).

Definition remove_stale_socket (path : str) (expected_uid : N) : Sys (result anyhow bool) :=
  let parent_path := parent_or_dot path in
  match file_name path with
  | None => mret (Err "socket path has no file name"%string)
  | Some name =>
      if contains_char "000" name then mret (Err "socket path contains a null byte"%string)
      else
        parent ← open_socket_directory parent_path;
        match parent with
        | Err _ => mret (Err "could not open socket directory"%string)
        | Ok parent => remove_stale_socket_at parent name expected_uid
        end
  end.

(** ** Removing the session sockets *)

(** A duplicated descriptor is read to the end; [.] and [..] are skipped. *)
Definition directory_entry_names (directory : FileId) : Sys (result errno (list str)) :=
  stream ←? libc as_fd (Dup directory);
  names ← libc as_names (Readdir stream);
  mret ((λ l, filter (λ n, n ≠ ["."] ∧ n ≠ [".";"."]) l) <$> names).

(** The errors of [openat] after which an entry is skipped. *)
Definition entry_vanished (e : errno) : bool :=
  bool_decide (errno_kind e = NotFound ∨ errno_kind e = NotADirectory ∨ e = ELOOP).

(** One entry; [recurse] walks a child directory. *)
Definition clean_entry (recurse : FileId → Sys (option (result anyhow unit))) (directory : FileId)
    (expected_uid : N) (name : str) : Sys (option (result anyhow unit)) :=
  if contains_char "000" name then mret (Some (Err "directory entry contains a null byte"%string))
  else
    metadata ← stat_at directory name;
    match metadata with
    | Err _ => mret (Some (Err "could not inspect the entry"%string))
    | Ok None => mret (Some (Ok ()))
    | Ok (Some metadata) =>
        if is_dir metadata then
          child ← libc as_fd (Open_directory directory name);
          match child with
          | Err e =>
              mret (Some (if entry_vanished e then Ok ()
                          else Err "could not open nested session socket directory"%string))
          | Ok child =>
              opened ← libc as_stat (Fstat child);
              match opened with
              | Err _ => mret (Some (Err "could not inspect the entry"%string))
              | Ok opened => if same_id opened metadata then recurse child else mret (Some (Ok ()))
              end
          end
        else if is_socket metadata then
          r ← remove_stale_socket_at directory name expected_uid;
          mret (Some ((λ _, ()) <$> r))
        else mret (Some (Ok ()))
    end.

Fixpoint clean_entries (recurse : FileId → Sys (option (result anyhow unit))) (directory : FileId)
    (expected_uid : N) (names : list str) : Sys (option (result anyhow unit)) :=
  match names with
  | [] => mret (Some (Ok ()))
  | name :: rest =>
      r ← clean_entry recurse directory expected_uid name;
      match r with
      | Some (Ok _) => clean_entries recurse directory expected_uid rest
      | r => mret r
      end
  end.

(** [fuel] bounds the depth of the tree; [None] means it was not enough. *)
Fixpoint remove_stale_session_sockets_at (fuel : nat) (expected_uid : N) (directory : FileId)
    : Sys (option (result anyhow unit)) :=
  match fuel with
  | O => mret None
  | S fuel =>
      names ← directory_entry_names directory;
      match names with
      | Err _ => mret (Some (Err "could not read session socket directory"%string))
      | Ok names =>
          clean_entries (remove_stale_session_sockets_at fuel expected_uid) directory expected_uid names
      end
  end.

Definition remove_stale_session_sockets (fuel : nat) (directory : str) (expected_uid : N)
    : Sys (option (result anyhow unit)) :=
  fd ← open_socket_directory directory;
  match fd with
  | Err _ => mret (Some (Err "could not open session socket directory"%string))
  | Ok fd => remove_stale_session_sockets_at fuel expected_uid fd
  end.

(** ** In every environment

    [stale_checked uid tr]: every [unlinkat] in [tr] removes a plain name, right
    after that name was seen to be a socket of [uid], a connection to it was
    refused (or the name was gone), and the name was seen to lead to the same
    socket still. *)
Inductive stale_checked (uid : N) : trace → Prop :=
| stale_nil : stale_checked uid []
| stale_other c r tr :
    (match c with Unlinkat _ _ _ => False | _ => True end) →
    stale_checked uid tr → stale_checked uid ((c, r) :: tr)
| stale_removed d n st e st' r tr :
    is_socket st = true → st_uid st = uid →
    errno_kind e = ConnectionRefused ∨ errno_kind e = NotFound →
    is_socket st' = true → st_uid st' = uid → st_id st' = st_id st →
    stale_checked uid tr →
    stale_checked uid ((Fstatat d n, RStat st) :: (Connect d n, RErr e) ::
                       (Fstatat d n, RStat st') :: (Unlinkat d n false, r) :: tr).

Lemma stale_checked_app uid tr1 tr2 :
  stale_checked uid tr1 → stale_checked uid tr2 → stale_checked uid (tr1 ++ tr2).
Proof. induction 1; intros; cbn; eauto using stale_checked. Qed.

Lemma stale_checked_quiet uid tr :
  Forall (λ cr : syscall * sysret, match cr.1 with Unlinkat _ _ _ => False | _ => True end) tr →
  stale_checked uid tr.
Proof. induction 1 as [|[c r] tr]; eauto using stale_checked. Qed.

(** What [stat_at] records. *)
Lemma emits_stat_at d n :
  emits (λ r tr, ∃ x, tr = [(Fstatat d n, x)] ∧ ∀ st, r = Ok (Some st) → x = RStat st) (stat_at d n).
Proof.
  eapply emits_bind; [apply (emits_libc (λ r tr, ∃ x, tr = [(Fstatat d n, x)] ∧ r = as_stat x)); eauto|].
  intros a tr (x & -> & ->). apply emits_ret. rewrite app_nil_r. exists x. split; [done|].
  intros st. destruct x; cbn; try case_decide; naive_solver.
Qed.

Lemma emits_probe d n st :
  emits (λ r tr, ∃ x, tr = [(Connect d n, x)] ∧
           (r = Ok Stale → ∃ e, x = RErr e ∧ (errno_kind e = ConnectionRefused ∨ errno_kind e = NotFound)))
    (probe_pinned_socket d n st).
Proof.
  eapply emits_bind; [apply (emits_libc (λ r tr, ∃ x, tr = [(Connect d n, x)] ∧ r = as_unit x)); eauto|].
  intros a tr (x & -> & ->). apply emits_ret. rewrite app_nil_r. exists x. split; [done|].
  destruct x; cbn; try done. case_decide; [|done]. eauto.
Qed.

Section every_environment.
Context (uid : N).

Definition stale_emits {A} (m : Sys A) : Prop := emits (λ _ tr, stale_checked uid tr) m.

Lemma stale_emits_ret {A} (a : A) : stale_emits (mret a).
Proof. apply emits_ret. constructor. Qed.

Lemma stale_emits_bind {A B} (m : Sys A) (f : A → Sys B) :
  stale_emits m → (∀ a, stale_emits (f a)) → stale_emits (m ≫= f).
Proof. apply emits_compose. apply stale_checked_app. Qed.

Lemma stale_emits_libc {A} (view : sysret → result errno A) c :
  (match c with Unlinkat _ _ _ => False | _ => True end) → stale_emits (libc view c).
Proof. intros Hc. apply emits_libc. intros r. by repeat constructor. Qed.

Lemma stale_emits_stat_at d n : stale_emits (stat_at d n).
Proof. unfold stat_at. apply stale_emits_bind; [by apply stale_emits_libc|]. intros. apply stale_emits_ret. Qed.

Lemma stale_emits_remove_at d n : stale_emits (remove_stale_socket_at d n uid).
Proof.
  unfold remove_stale_socket_at, remove_stale_socket_at_with_probe.
  eapply emits_bind; [apply emits_stat_at|]. intros metadata tr1 (x1 & -> & Hx1).
  assert (H1 : stale_checked uid [(Fstatat d n, x1)]) by (by repeat constructor).
  destruct metadata as [[md|]|e]; [|by apply emits_ret|by apply emits_ret].
  destruct (negb (is_socket md) || negb (st_uid md =? uid)%N) eqn:Hmd; [by apply emits_ret|]. bool_prop.
  eapply emits_bind; [apply emits_probe|]. intros probed tr2 (x2 & -> & Hx2).
  assert (H2 : stale_checked uid ([(Fstatat d n, x1)] ++ [(Connect d n, x2)])) by (by repeat constructor).
  destruct probed as [[]|e]; [by apply emits_ret| |by apply emits_ret|by apply emits_ret].
  eapply emits_bind; [apply emits_stat_at|]. intros current tr3 (x3 & -> & Hx3).
  assert (H3 : stale_checked uid ([(Fstatat d n, x1)] ++ [(Connect d n, x2)] ++ [(Fstatat d n, x3)]))
    by (by repeat constructor).
  destruct current as [[st|]|e]; [|by apply emits_ret|by apply emits_ret].
  destruct (_ || negb (same_id st md)) eqn:Hst; [by apply emits_ret|]. bool_prop.
  eapply emits_bind; [apply (emits_libc (λ _ tr, ∃ r, tr = [(Unlinkat d n false, r)])); eauto|].
  intros a tr4 (r & ->). apply emits_ret. destruct (Hx2 eq_refl) as (e & -> & He).
  rewrite (Hx1 md), (Hx3 st) by done. cbn. rewrite N.eqb_eq in *.
  apply stale_removed; try done; [|constructor].
  unfold same_id in *. bool_prop. rewrite !N.eqb_eq in *. unfold st_id. congruence.
Qed.

Lemma stale_emits_clean_entry recurse d n :
  (∀ child, stale_emits (recurse child)) → stale_emits (clean_entry recurse d uid n).
Proof.
  intros Hrec. unfold clean_entry. destruct (contains_char _ n); [apply stale_emits_ret|].
  apply stale_emits_bind; [apply stale_emits_stat_at|]. intros [[md|]|e]; [|apply stale_emits_ret..].
  destruct (is_dir md).
  - apply stale_emits_bind; [by apply stale_emits_libc|]. intros [child|e]; [|apply stale_emits_ret].
    apply stale_emits_bind; [by apply stale_emits_libc|]. intros [opened|e]; [|apply stale_emits_ret].
    destruct (same_id opened md); [apply Hrec|apply stale_emits_ret].
  - destruct (is_socket md); [|apply stale_emits_ret].
    apply stale_emits_bind; [apply stale_emits_remove_at|]. intros. apply stale_emits_ret.
Qed.

Lemma stale_emits_clean_entries recurse d names :
  (∀ child, stale_emits (recurse child)) → stale_emits (clean_entries recurse d uid names).
Proof.
  intros Hrec. induction names as [|n names IH]; cbn; [apply stale_emits_ret|].
  apply stale_emits_bind; [by apply stale_emits_clean_entry|]. intros [[]|]; [done|apply stale_emits_ret..].
Qed.

Lemma stale_emits_remove_sockets_at fuel : ∀ d, stale_emits (remove_stale_session_sockets_at fuel uid d).
Proof.
  induction fuel as [|fuel IH]; intros d; cbn [remove_stale_session_sockets_at]; [apply stale_emits_ret|].
  apply stale_emits_bind.
  - unfold directory_entry_names, sys_try. apply stale_emits_bind; [by apply stale_emits_libc|].
    intros [stream|e]; [|apply stale_emits_ret].
    apply stale_emits_bind; [by apply stale_emits_libc|]. intros. apply stale_emits_ret.
  - intros [names|e]; [by apply stale_emits_clean_entries|apply stale_emits_ret].
Qed.

Lemma stale_emits_open path : stale_emits (open_socket_directory path).
Proof. intros w. by apply (stale_emits_libc as_fd (Open_directory (p_cwd (w_proc w)) path)). Qed.

Lemma stale_emits_remove_socket path : stale_emits (remove_stale_socket path uid).
Proof.
  unfold remove_stale_socket. destruct (file_name path) as [name|]; [|apply stale_emits_ret].
  destruct (contains_char _ name); [apply stale_emits_ret|].
  apply stale_emits_bind; [apply stale_emits_open|]. intros [d|e]; [apply stale_emits_remove_at|apply stale_emits_ret].
Qed.

Lemma stale_emits_remove_sockets fuel dir : stale_emits (remove_stale_session_sockets fuel dir uid).
Proof.
  unfold remove_stale_session_sockets. apply stale_emits_bind; [apply stale_emits_open|].
  intros [d|e]; [apply stale_emits_remove_sockets_at|apply stale_emits_ret].
Qed.
End every_environment.
