(* ===== verification/StaleSweep.v ===== *)
(** The sweep of the session socket directory in a quiet environment
    (src/control/server.rs): it terminates, removes exactly the stale sockets
    of the operator and leaves everything else. *)

From S2P Require Import Prelude RustStr RustPath PosixFs SocketDirs SocketLeases SocketRestore StaleSockets.
From stdpp Require Import options.
Local Open Scope char_scope.

(** A directory tree: names are single components, lead to inodes, and
    directories are nested to a finite depth ([rank] is the height). *)
Record tree (fs : Fs) (rank : FileId → nat) : Prop := {
  tr_entry : ∀ d n i, entries_of fs d !! n = Some i → is_Some (fs_inodes fs !! i);
  tr_name : ∀ d n i, entries_of fs d !! n = Some i → plain_name n ∧ "000" ∉ n;
  tr_rank : ∀ d n c, entries_of fs d !! n = Some c → directory_at fs c → rank c < rank d;
}.

(** A socket of the operator on which nobody listens. *)
Definition stale (fs : Fs) (uid : N) (i : FileId) : Prop :=
  ∃ perm, fs_inodes fs !! i = Some (mkInode (Socket false) uid perm).

(** The directories of the tree below [d], [d] included. *)
Inductive below (fs : Fs) : FileId → FileId → Prop :=
| below_here d : below fs d d
| below_child d n c e : entries_of fs d !! n = Some c → directory_at fs c → below fs c e → below fs d e.

(** [fs'] is [fs] without the stale sockets at the entries [R] selects. *)
Record swept (fs : Fs) (uid : N) (R : FileId → str → Prop) (fs' : Fs) : Prop := {
  sw_root : fs_root fs' = fs_root fs;
  sw_same : ∀ j nj, fs_inodes fs !! j = Some nj → ∃ nj', fs_inodes fs' !! j = Some nj' ∧ same_node nj nj';
  sw_dom : ∀ j, is_Some (fs_inodes fs' !! j) → is_Some (fs_inodes fs !! j);
  sw_entries : ∀ d n i, entries_of fs' d !! n = Some i ↔
    entries_of fs d !! n = Some i ∧ ¬ (R d n ∧ stale fs uid i);
}.

Section sweep.
Context (p : process) (fs : Fs) (uid : N) (rank : FileId → nat).
Hypothesis Htree : tree fs rank.

Lemma swept_start : swept fs uid (λ _ _, False) fs.
Proof. split; [done|intros j nj; by exists nj|done|naive_solver]. Qed.

(** Only entries with a stale socket matter. *)
Lemma swept_ext_not R R' cur :
  swept fs uid R cur →
  (∀ d n i, entries_of fs d !! n = Some i → stale fs uid i → (¬ R d n ↔ ¬ R' d n)) →
  swept fs uid R' cur.
Proof.
  intros [Hr Hs Hd He] HR. split; [done..|]. intros d n i. rewrite He.
  split; intros [Hi Hnot]; (split; [done|]); intros [H1 H2];
    destruct (HR d n i Hi H2) as [HR1 HR2]; [apply HR1|apply HR2]; tauto.
Qed.

Lemma swept_ext R R' cur :
  swept fs uid R cur →
  (∀ d n i, entries_of fs d !! n = Some i → stale fs uid i → (R d n ↔ R' d n)) →
  swept fs uid R' cur.
Proof. intros Hsw HR. eapply swept_ext_not; [exact Hsw|]. intros d n i Hi Hst. by rewrite (HR d n i Hi Hst). Qed.

Lemma swept_node R cur i nd :
  swept fs uid R cur → fs_inodes cur !! i = Some nd →
  ∃ n0, fs_inodes fs !! i = Some n0 ∧ same_node n0 nd.
Proof.
  intros Hsw Hi. destruct (sw_dom _ _ _ _ Hsw i) as [n0 Hn0]; [by eexists|]. exists n0. split; [done|].
  destruct (sw_same _ _ _ _ Hsw i n0 Hn0) as (n' & Hn' & ?). congruence.
Qed.

(** One more socket is gone. *)
Lemma swept_remove R cur d n i :
  swept fs uid R cur → entries_of cur d !! n = Some i → stale fs uid i →
  swept fs uid (λ e m, R e m ∨ (e = d ∧ m = n)) (update_inode (set_entries (delete n)) d cur).
Proof.
  intros [Hr Hs Hd He] Hi Hst. split; [done| | |].
  - intros j nj Hj. destruct (Hs j nj Hj) as (nj' & Hnj' & Hsame). rewrite lookup_update_inode.
    destruct (decide (j = d)) as [->|]; [|by exists nj']. rewrite Hnj'. eexists. split; [done|].
    trans nj'; [done|]. apply same_node_set_entries.
  - intros j. rewrite lookup_update_inode. destruct (decide (j = d)) as [->|]; [|apply Hd].
    intros [? Hx]. apply Hd. destruct (fs_inodes cur !! d); [by eexists|done].
  - intros e m j. rewrite entries_of_unlinked. destruct (decide (e = d ∧ m = n)) as [[-> ->]|Hne].
    + split; [done|]. intros [Hj Hnot]. exfalso. apply Hnot. split; [naive_solver|].
      apply He in Hi as [Hi _]. rewrite Hi in Hj. by simplify_eq.
    + rewrite He. naive_solver.
Qed.

Lemma swept_directory R cur d : swept fs uid R cur → directory_at fs d → directory_at cur d.
Proof.
  intros Hsw [par Hp]. unfold directory_at, parent_of in *. destruct (fs_inodes fs !! d) as [n0|] eqn:Hn0; [|done].
  destruct (sw_same _ _ _ _ Hsw d n0 Hn0) as (n' & -> & _ & _ & Hk). cbn in *.
  destruct (i_kind n0), (i_kind n'); naive_solver.
Qed.

Lemma swept_name R cur d n i :
  swept fs uid R cur → entries_of cur d !! n = Some i →
  entries_of fs d !! n = Some i ∧ plain_name n ∧ "000" ∉ n ∧ is_Some (fs_inodes cur !! i).
Proof using Type*.
  intros Hsw Hi. apply (sw_entries _ _ _ _ Hsw) in Hi as [Hi _]. destruct (tr_name _ _ Htree _ _ _ Hi).
  destruct (tr_entry _ _ Htree _ _ _ Hi) as [n0 Hn0].
  destruct (sw_same _ _ _ _ Hsw _ _ Hn0) as (n' & -> & _). done.
Qed.

(** Removing one socket: exactly when it is stale and the operator's. *)
Lemma remove_socket_runs R cur d n i nd :
  swept fs uid R cur → entries_of cur d !! n = Some i → fs_inodes cur !! i = Some nd →
  is_socket_kind (i_kind nd) = true →
  ∃ b cur', runs p cur (remove_stale_socket_at d n uid) (Ok b) cur' ∧
    swept fs uid (λ e m, R e m ∨ (e = d ∧ m = n)) cur'.
Proof using Type*.
  intros Hsw Hent Hi Hsk. destruct (swept_name _ _ _ _ _ Hsw Hent) as (Hent0 & Hpl & _ & _).
  destruct (swept_node _ _ _ _ Hsw Hi) as (n0 & Hn0 & Hu & Hp & Hk).
  pose proof (entries_directory _ _ _ _ Hent) as Hd.
  assert (Hstat : runs p cur (stat_at d n) (Ok (Some (stat_of i nd))) cur).
  { eapply runs_eq; [apply stat_at_runs; [done|done|]| |done].
    - intros j. rewrite Hent. intros [= <-]. by eexists.
    - rewrite Hent. cbn. by rewrite Hi. }
  destruct nd as [[|listening| |] u perm]; try done. cbn in *.
  assert (Hkeep : ¬ stale fs uid i → swept fs uid (λ e m, R e m ∨ (e = d ∧ m = n)) cur).
  { intros Hns. eapply swept_ext; [exact Hsw|]. intros e m j Hj Hst. split; [naive_solver|].
    intros [|[-> ->]]; [done|]. naive_solver. }
  unfold remove_stale_socket_at, remove_stale_socket_at_with_probe.
  destruct (N.eqb_spec u uid) as [->|Hne].
  2:{ exists false, cur. split; [|apply Hkeep].
      - eapply runs_bind; [exact Hstat|]. cbn. rewrite is_socket_stat_of. cbn.
        rewrite (proj2 (N.eqb_neq u uid) Hne). cbn. apply runs_ret.
      - intros [perm' Hst]. rewrite Hn0 in Hst. by simplify_eq/=. }
  assert (Hconn : runs p cur (probe_pinned_socket d n (stat_of i (mkInode (Socket listening) uid perm)))
    (Ok (if listening then Active else Stale)) cur).
  { unfold probe_pinned_socket, probe_socket_path. eapply runs_bind.
    - apply (runs_libc p cur cur (Connect d n) as_unit (if listening then RUnit else RErr ECONNREFUSED)). cbn.
      rewrite (resolve_follow_plain _ _ _ i _) by done. cbn. unfold connect. rewrite Hi. by destruct listening.
    - eapply runs_eq; [apply runs_ret| |done]. by destruct listening. }
  destruct listening.
  - exists false, cur. split; [|apply Hkeep].
    + eapply runs_bind; [exact Hstat|]. cbn. rewrite is_socket_stat_of, N.eqb_refl. cbn.
      eapply runs_bind; [exact Hconn|]. cbn. apply runs_ret.
    + intros [perm' Hst]. rewrite Hn0 in Hst. simplify_eq. rewrite Hst in Hk. discriminate Hk.
  - exists true. eexists. split; [|eapply swept_remove; [done|done|]].
    + eapply runs_bind; [exact Hstat|]. cbn. rewrite is_socket_stat_of, N.eqb_refl. cbn.
      eapply runs_bind; [exact Hconn|]. cbn. eapply runs_bind; [exact Hstat|]. cbn.
      rewrite is_socket_stat_of. unfold same_id. cbn. rewrite !N.eqb_refl. cbn.
      eapply (runs_bind _ _ _ _ _ _ (Ok ())); [|cbn; apply runs_ret].
      apply (runs_libc p cur _ (Unlinkat d n false) as_unit RUnit).
      rewrite (exec_unlinkat _ _ _ _ i) by done. rewrite Hi. reflexivity.
    + exists perm. rewrite Hn0. destruct n0 as [[] ? ?]; naive_solver.
Qed.

(** What an entry stands for: itself, and the directories below it. *)
Definition covers (d : FileId) (n : str) (e : FileId) (m : str) : Prop :=
  (e = d ∧ m = n) ∨ ∃ c, entries_of fs d !! n = Some c ∧ directory_at fs c ∧ below fs c e.

Definition sweeps (recurse : FileId → Sys (option (result anyhow unit))) (c : FileId) : Prop :=
  ∀ R cur, swept fs uid R cur →
  ∃ cur', runs p cur (recurse c) (Some (Ok ())) cur' ∧ swept fs uid (λ e m, R e m ∨ below fs c e) cur'.

(** An entry that is not a stale socket and not a directory covers nothing. *)
Lemma swept_nothing R cur d n :
  swept fs uid R cur →
  (∀ i, entries_of fs d !! n = Some i → ¬ directory_at fs i ∧ (stale fs uid i → ¬ ¬ R d n)) →
  swept fs uid (λ e m, R e m ∨ covers d n e m) cur.
Proof.
  intros Hsw Hno. eapply swept_ext_not; [exact Hsw|]. intros e m i Hi Hst. split; [|tauto].
  intros HR [|[[-> ->]|(c & Hc & Hcd & _)]]; [done| |].
  - by apply (Hno i Hi).
  - by destruct (Hno c Hc).
Qed.

Lemma directory_stat R cur i nd :
  swept fs uid R cur → fs_inodes cur !! i = Some nd →
  directory_at fs i ↔ is_directory_kind (i_kind nd) = true.
Proof.
  intros Hsw Hi. destruct (swept_node _ _ _ _ Hsw Hi) as (n0 & Hn0 & _ & _ & Hk).
  unfold directory_at, parent_of. rewrite Hn0. cbn.
  destruct (i_kind n0), (i_kind nd); cbn; split; try done; try naive_solver; by intros [].
Qed.

Lemma clean_entry_runs recurse R cur d n :
  swept fs uid R cur → directory_at fs d → plain_name n ∧ "000" ∉ n →
  (∀ c, entries_of fs d !! n = Some c → directory_at fs c → sweeps recurse c) →
  ∃ cur', runs p cur (clean_entry recurse d uid n) (Some (Ok ())) cur' ∧
    swept fs uid (λ e m, R e m ∨ covers d n e m) cur'.
Proof using Type*.
  intros Hsw Hd0 [Hpl Hnul] Hrec. pose proof (swept_directory _ _ _ Hsw Hd0) as Hd.
  assert (Hnul' : contains_char "000" n = false) by (by apply contains_char_false).
  assert (Hstat : runs p cur (stat_at d n)
    (Ok (i ← entries_of cur d !! n; nd ← fs_inodes cur !! i; Some (stat_of i nd))) cur).
  { apply stat_at_runs; [done|done|]. intros i Hi. by destruct (swept_name _ _ _ _ _ Hsw Hi) as (_ & _ & _ & ?). }
  unfold clean_entry. rewrite Hnul'.
  destruct (entries_of cur d !! n) as [i|] eqn:Hent.
  2:{ exists cur. split; [eapply runs_bind; [exact Hstat|apply runs_ret]|]. apply swept_nothing; [done|].
      intros i Hi. assert (Hno : ¬ ¬ (R d n ∧ stale fs uid i)).
      { intros Hnot. assert (entries_of cur d !! n = Some i) by (by apply (sw_entries _ _ _ _ Hsw)). congruence. }
      split; [intros [par Hpar]|intros Hst].
      - apply Hno. intros [_ [perm Hst]]. unfold parent_of in Hpar. by rewrite Hst in Hpar.
      - tauto. }
  destruct (swept_name _ _ _ _ _ Hsw Hent) as (Hent0 & _ & _ & [nd Hi]). cbn in Hstat. rewrite Hi in Hstat. cbn in Hstat.
  pose proof (directory_stat _ _ _ _ Hsw Hi) as Hdir.
  destruct (is_directory_kind (i_kind nd)) eqn:Hk.
  - destruct (Hrec i Hent0 (proj2 Hdir eq_refl) R cur Hsw) as (cur' & Hrun & Hsw').
    exists cur'. split.
    + eapply runs_bind; [exact Hstat|]. cbn. rewrite is_dir_stat_of, Hk.
      eapply runs_bind; [by eapply open_created_runs|]. cbn. eapply runs_bind; [by apply fstat_runs|]. cbn.
      unfold same_id. rewrite !N.eqb_refl. exact Hrun.
    + eapply swept_ext; [exact Hsw'|]. intros e m j Hj [perm Hst]. unfold covers. split; [naive_solver|].
      intros [|[[-> ->]|(c & Hc & _ & Hb)]]; [by left| |right; congruence].
      exfalso. rewrite Hent0 in Hj. simplify_eq. destruct (proj2 Hdir eq_refl) as [? Hx].
      unfold parent_of in Hx. by rewrite Hst in Hx.
  - destruct (is_socket_kind (i_kind nd)) eqn:Hsk.
    + destruct (remove_socket_runs _ _ _ _ _ _ Hsw Hent Hi Hsk) as (b & cur' & Hrun & Hsw').
      exists cur'. split.
      * eapply runs_bind; [exact Hstat|]. cbn. rewrite is_dir_stat_of, Hk, is_socket_stat_of, Hsk.
        eapply runs_bind; [exact Hrun|apply runs_ret].
      * eapply swept_ext; [exact Hsw'|]. intros e m j Hj Hst. unfold covers. split; [naive_solver|].
        intros [|[?|(c & Hc & Hcd & _)]]; [by left|by right|]. rewrite Hent0 in Hc. simplify_eq.
        by apply Hdir in Hcd.
    + exists cur. split.
      * eapply runs_bind; [exact Hstat|]. cbn. rewrite is_dir_stat_of, Hk, is_socket_stat_of, Hsk. apply runs_ret.
      * apply swept_nothing; [done|]. intros j Hj. rewrite Hent0 in Hj. simplify_eq. split.
        { by rewrite Hdir. }
        intros [perm Hst] _. destruct (swept_node _ _ _ _ Hsw Hi) as (n0 & Hn0 & _ & _ & Hkk).
        rewrite Hst in Hn0. simplify_eq. cbn in Hkk. destruct (i_kind nd); naive_solver.
Qed.

Lemma clean_entries_runs recurse d names : ∀ R cur,
  swept fs uid R cur → directory_at fs d →
  (∀ n, n ∈ names → plain_name n ∧ "000" ∉ n) →
  (∀ n c, entries_of fs d !! n = Some c → directory_at fs c → sweeps recurse c) →
  ∃ cur', runs p cur (clean_entries recurse d uid names) (Some (Ok ())) cur' ∧
    swept fs uid (λ e m, R e m ∨ ∃ n, n ∈ names ∧ covers d n e m) cur'.
Proof using Type*.
  induction names as [|n names IH]; intros R cur Hsw Hd Hnames Hrec; cbn [clean_entries].
  - exists cur. split; [apply runs_ret|]. eapply swept_ext; [exact Hsw|]. set_solver.
  - destruct (clean_entry_runs recurse R cur d n Hsw Hd) as (cur1 & Hrun1 & Hsw1);
      [apply Hnames; set_solver|eauto|].
    destruct (IH _ cur1 Hsw1 Hd) as (cur2 & Hrun2 & Hsw2); [intros; apply Hnames; set_solver|done|].
    exists cur2. split; [eapply runs_bind; [exact Hrun1|exact Hrun2]|].
    eapply swept_ext; [exact Hsw2|]. intros e m i _ _. setoid_rewrite elem_of_cons. naive_solver.
Qed.

Lemma entry_names_runs R cur d :
  swept fs uid R cur → directory_at fs d →
  ∃ names, runs p cur (directory_entry_names d) (Ok names) cur ∧
    (∀ n, n ∈ names → plain_name n ∧ "000" ∉ n) ∧
    (∀ n i, entries_of cur d !! n = Some i → n ∈ names).
Proof using Type*.
  intros Hsw Hd0. destruct (swept_directory _ _ _ Hsw Hd0) as [par Hpar].
  destruct (dir_inode _ _ _ Hpar) as (dead & u & perm & Hi).
  exists (filter (λ n, n ≠ ["."] ∧ n ≠ [".";"."]) (["."] :: [".";"."] :: (map_to_list (entries_of cur d)).*1)).
  assert (Hkeys : ∀ n, n ∈ (map_to_list (entries_of cur d)).*1 ↔ ∃ i, entries_of cur d !! n = Some i).
  { intros n. rewrite list_elem_of_fmap. split.
    - intros ([n' i] & -> & Hin). exists i. by apply elem_of_map_to_list in Hin.
    - intros [i Hi']. exists (n, i). split; [done|]. by apply elem_of_map_to_list. }
  split; [|split].
  - unfold directory_entry_names. eapply runs_try_ok; [by apply (runs_libc p cur cur (Dup d) as_fd (RFd d))|].
    eapply runs_bind; [apply runs_libc; cbn; by rewrite Hi|]. apply runs_ret.
  - intros n [Hne Hin]%list_elem_of_filter. rewrite !elem_of_cons in Hin.
    destruct Hin as [->|[->|[i Hn]%Hkeys]]; [naive_solver..|].
    by destruct (swept_name _ _ _ _ _ Hsw Hn) as (_ & ? & ? & _).
  - intros n i Hn. apply list_elem_of_filter. destruct (swept_name _ _ _ _ _ Hsw Hn) as (_ & (_ & _ & ? & ?) & _).
    split; [done|]. rewrite !elem_of_cons. right; right. apply Hkeys. eauto.
Qed.

Lemma remove_sockets_at_runs fuel : ∀ c,
  directory_at fs c → rank c < fuel → sweeps (remove_stale_session_sockets_at fuel uid) c.
Proof using Type*.
  induction fuel as [|fuel IH]; intros d Hd Hrank R cur Hsw; [lia|]. cbn [remove_stale_session_sockets_at].
  destruct (entry_names_runs R cur d Hsw Hd) as (names & Hnames & Hok & Hall).
  destruct (clean_entries_runs (remove_stale_session_sockets_at fuel uid) d names R cur Hsw Hd Hok)
    as (cur' & Hrun & Hsw').
  { intros n c Hc Hcd. apply IH; [done|]. pose proof (tr_rank _ _ Htree _ _ _ Hc Hcd). lia. }
  exists cur'. split; [eapply runs_bind; [exact Hnames|exact Hrun]|].
  eapply swept_ext_not; [exact Hsw'|]. intros e m i Hi Hst. split.
  - intros Hno [HR|Hb]; [tauto|].
    assert (Hin : ∀ n c, entries_of fs d !! n = Some c → ¬ (R d n ∧ stale fs uid c) → n ∈ names).
    { intros n c Hc Hns. apply (Hall n c). by apply (sw_entries _ _ _ _ Hsw). }
    inversion Hb as [|? n c ? Hc Hcd Hbc]; subst.
    + apply Hno. right. exists m. split; [|by left; split]. apply (Hin m i Hi). tauto.
    + apply Hno. right. exists n. split; [|right; by exists c]. apply (Hin n c Hc).
      intros [_ [perm Hs]]. destruct Hcd as [? Hx]. unfold parent_of in Hx. by rewrite Hs in Hx.
  - intros Hno [HR|(n & Hn & [[-> ->]|(c & Hc & Hcd & Hb)])]; [tauto|..]; apply Hno; right.
    + constructor.
    + by eapply below_child.
Qed.

Lemma remove_sockets_runs fuel dir d :
  resolve fs false (p_cwd p) dir = Ok d → directory_at fs d → rank d < fuel →
  ∃ fs', runs p fs (remove_stale_session_sockets fuel dir uid) (Some (Ok ())) fs' ∧
    swept fs uid (λ e _, below fs d e) fs'.
Proof using Type*.
  intros Hres Hd Hrank.
  destruct (remove_sockets_at_runs fuel d Hd Hrank (λ _ _, False) fs swept_start) as (fs' & Hrun & Hsw).
  exists fs'. split.
  - unfold remove_stale_session_sockets, open_socket_directory. eapply runs_bind.
    + unfold with_cwd. intros tr.
      apply (runs_libc p fs fs (Open_directory (p_cwd p) dir) as_fd (RFd d)). cbn. rewrite Hres. cbn.
      destruct Hd as [par Hp]. destruct (dir_inode _ _ _ Hp) as (? & ? & ? & Hi). unfold open_directory. by rewrite Hi.
    + cbn. exact Hrun.
  - eapply swept_ext; [exact Hsw|]. naive_solver.
Qed.
End sweep.

(** C11: when nobody else changes the tree and no call fails, the sweep of the
    session socket directory ends with success, for any fuel above the depth
    of the tree, and removes exactly the names below it that lead to a socket
    of the operator on which nobody listens: every other name, every active
    or foreign socket, directory and file is kept, and no inode changes. *)
Theorem sweep_exact p fs uid rank fuel dir d tr :
  tree fs rank → resolve fs false (p_cwd p) dir = Ok d → directory_at fs d → rank d < fuel →
  let res := remove_stale_session_sockets fuel dir uid (mkWorld p fs [] tr) in
  res.1 = Some (Ok ()) ∧
  (∀ e n i, entries_of (w_fs res.2) e !! n = Some i ↔
     entries_of fs e !! n = Some i ∧ ¬ (below fs d e ∧ stale fs uid i)) ∧
  (∀ j nj, fs_inodes fs !! j = Some nj → ∃ nj', fs_inodes (w_fs res.2) !! j = Some nj' ∧ same_node nj nj').
Proof.
  intros Htree Hres Hd Hrank.
  destruct (remove_sockets_runs p fs uid rank Htree fuel dir d Hres Hd Hrank) as (fs' & Hrun & [_ Hsame _ Hent]).
  destruct (runs_world p _ _ _ _ tr Hrun) as (Hr & Hfs & _). cbv zeta. by rewrite Hr, Hfs.
Qed.

(** In every environment, the cleanup at start-up removes a name only
    right after it was seen to be a socket of the operator, a connection to it
    was refused, and it was seen to be the same socket still; directories are
    never removed. *)
Theorem stale_removal_checked fuel dir path uid w :
  (∃ tr, w_trace (remove_stale_session_sockets fuel dir uid w).2 = w_trace w ++ tr ∧ stale_checked uid tr) ∧
  (∃ tr, w_trace (remove_stale_socket path uid w).2 = w_trace w ++ tr ∧ stale_checked uid tr).
Proof. split; [apply (stale_emits_remove_sockets uid)|apply (stale_emits_remove_socket uid)]. Qed.

(** ** An example: one stale socket in a nested directory, one active, one
    of another user *)

Definition sweep_root : FileId := mkFileId 1 2.
Definition sweep_dir : FileId := mkFileId 1 3.
Definition sweep_sub : FileId := mkFileId 1 4.
Definition sweep_example : Fs := mkFs
  (list_to_map
    [ (sweep_root, mkInode (Directory {[ lit "s" := sweep_dir ]} sweep_root false) 0 493);
      (sweep_dir, mkInode (Directory (list_to_map [ (lit "sub", sweep_sub); (lit "live", mkFileId 1 5);
                                         (lit "other", mkFileId 1 6) ]) sweep_root false) 7 448);
      (sweep_sub, mkInode (Directory {[ lit "dead" := mkFileId 1 7 ]} sweep_dir false) 7 448);
      (mkFileId 1 5, mkInode (Socket true) 7 384);
      (mkFileId 1 6, mkInode (Socket false) 0 384);
      (mkFileId 1 7, mkInode (Socket false) 7 384) ]) sweep_root.
Definition sweep_rank (d : FileId) : nat :=
  if decide (d = sweep_root) then 3 else if decide (d = sweep_dir) then 2 else 1.
Definition sweep_process : process := mkProcess 7 18 sweep_root (lit "/").

Lemma sweep_entries d n i :
  entries_of sweep_example d !! n = Some i →
  (d, n, i) ∈ [ (sweep_root, lit "s", sweep_dir); (sweep_dir, lit "sub", sweep_sub);
                (sweep_dir, lit "live", mkFileId 1 5); (sweep_dir, lit "other", mkFileId 1 6);
                (sweep_sub, lit "dead", mkFileId 1 7) ].
Proof.
  unfold entries_of. destruct (fs_inodes sweep_example !! d) as [nd|] eqn:Hd; [|by cbn [fmap option_fmap option_map]; rewrite lookup_empty].
  apply elem_of_list_to_map_2 in Hd. rewrite !elem_of_cons, elem_of_nil in Hd.
  destruct_or! Hd; simplify_eq; cbn [fmap option_fmap option_map i_kind]; intros Hn;
    try (by rewrite lookup_empty in Hn);
    try (apply lookup_singleton_Some in Hn as [<- <-]; set_solver).
  apply elem_of_list_to_map_2 in Hn. rewrite !elem_of_cons, elem_of_nil in Hn.
  destruct_or! Hn; simplify_eq; set_solver.
Qed.

Lemma sweep_tree : tree sweep_example sweep_rank.
Proof.
  split; intros d n i Hi%sweep_entries; rewrite !elem_of_cons, elem_of_nil in Hi;
    destruct_or! Hi; simplify_eq; try (by eexists); try done;
    try (split; [unfold plain_name; repeat split; try done; vm_compute; set_solver|vm_compute; set_solver]);
    intros Hdir; vm_compute; try lia; by destruct Hdir as [? Hx]; vm_compute in Hx.
Qed.

Lemma sweep_exact_witness :
  let res := remove_stale_session_sockets 4 (lit "/s") 7 (mkWorld sweep_process sweep_example [] []) in
  res.1 = Some (Ok ()) ∧ entries_of (w_fs res.2) sweep_sub = ∅ ∧
  size (entries_of (w_fs res.2) sweep_dir) = 3.
Proof.
  split; [|split; vm_compute; reflexivity].
  apply (sweep_exact sweep_process sweep_example 7 sweep_rank 4 (lit "/s") sweep_dir []).
  - apply sweep_tree.
  - vm_compute. reflexivity.
  - by eexists.
  - vm_compute. lia.
Defined.
