(* ===== verification/FsOverlay.v ===== *)
(** Files added to a file system, and taken away again.

    [overlay fs0 L fs]: [fs] is [fs0] with the regular files [L] added under
    free names; nothing else changed. Creating, writing, linking and removing
    such files moves between overlays, and the empty overlay has every inode
    of [fs0] as it was. The paths of the added files keep leading to them,
    because none of these changes touches a directory or a symbolic link a walk
    may pass through ([same_paths]). *)

From S2P Require Import Prelude RustStr RustPath PosixFs.
From stdpp Require Import options.
Local Open Scope char_scope.

(** ** Changes that keep the way of every path *)

Definition same_shape (a b : inode) : Prop :=
  match i_kind a, i_kind b with
  | Directory _ par dead, Directory _ par' dead' => par = par' ∧ dead = dead'
  | Symlink t, Symlink t' => t = t'
  | Socket _, Socket _ | Regular _, Regular _ => True
  | _, _ => False
  end.

Definition passable (k : inode_kind) : bool :=
  match k with Directory _ _ _ | Symlink _ => true | _ => false end.

Record same_paths (fs fs' : Fs) : Prop := {
  sp_root : fs_root fs' = fs_root fs;
  sp_node : ∀ j nj, fs_inodes fs !! j = Some nj → ∃ nj', fs_inodes fs' !! j = Some nj' ∧ same_shape nj nj';
  sp_entries : ∀ d n i ni, entries_of fs d !! n = Some i → fs_inodes fs !! i = Some ni →
    passable (i_kind ni) = true → entries_of fs' d !! n = Some i;
}.

Lemma same_node_shape a b : same_node a b → same_shape a b.
Proof. destruct a as [[] ? ?], b as [[] ? ?]; intros (_ & _ & Hk); cbn in *; naive_solver. Qed.

(** The end of a walk in the changed file system. *)
Definition settle (fs' : Fs) (r : walked) : walked :=
  match r with AtName d n _ => AtName d n (entries_of fs' d !! n) | AtDir d => AtDir d end.

Section settled.
Context (fs fs' : Fs).
Hypothesis Hs : sound fs.
Hypothesis Hp : same_paths fs fs'.

Lemma same_paths_directory d par dead uid perm :
  fs_inodes fs !! d = Some (mkInode (Directory (entries_of fs d) par dead) uid perm) →
  ∃ uid' perm', fs_inodes fs' !! d = Some (mkInode (Directory (entries_of fs' d) par dead) uid' perm').
Proof using Type*.
  intros Hd. destruct (sp_node _ _ Hp d _ Hd) as ([k u q] & Hd' & Hk). unfold same_shape in Hk. cbn in *.
  exists u, q. unfold entries_of. rewrite Hd'. cbn. destruct k; naive_solver.
Qed.

Lemma walk_settled links : ∀ cs cur r,
  walk fs false links cur cs = Ok r → walk fs' false links cur cs = Ok (settle fs' r).
Proof using Type*.
  induction links as [links IHl] using lt_wf_ind. induction cs as [|c cs IHcs]; intros cur r Hw.
  { rewrite walk_nil in *. by simplify_eq. }
  rewrite walk_cons in *. cbv zeta in *.
  destruct (fs_inodes fs !! cur) as [[[es par dead| | |] uid perm]|] eqn:Hcur; [|done..].
  assert (Hes : es = entries_of fs cur) by (unfold entries_of; by rewrite Hcur). subst es.
  destruct (same_paths_directory _ _ _ _ _ Hcur) as (uid' & perm' & ->).
  destruct (decide (c = ["."])); [by apply IHcs|]. destruct (decide (c = [".";"."])); [by apply IHcs|].
  destruct (decide (cs = [])) as [-> |Hcs].
  { assert (Hr : r = AtName cur c (entries_of fs cur !! c)).
    { destruct (entries_of fs cur !! c) as [i|]; [|by simplify_eq].
      destruct (i_kind <$> fs_inodes fs !! i) as [[]|]; by simplify_eq. }
    subst r. cbn. destruct (entries_of fs' cur !! c) as [i'|]; [|done].
    by destruct (i_kind <$> fs_inodes fs' !! i') as [[]|]. }
  destruct (entries_of fs cur !! c) as [i|] eqn:Hc; [|done].
  destruct (Hs _ _ _ Hc) as [ni Hni]. destruct (sp_node _ _ Hp _ _ Hni) as (ni' & Hni' & Hk).
  unfold same_shape in Hk. rewrite Hni in Hw. cbn [fmap option_fmap option_map] in Hw.
  assert (Hpass : passable (i_kind ni) = true).
  { destruct (i_kind ni) eqn:Hkk; try done; destruct cs as [|c' cs']; try done;
      rewrite walk_cons, Hni in Hw; destruct ni; cbn in *; by subst. }
  rewrite (sp_entries _ _ Hp _ _ _ _ Hc Hni Hpass), Hni'. cbn [fmap option_fmap option_map].
  rewrite (sp_root _ _ Hp). destruct (i_kind ni) as [| | |t], (i_kind ni') as [| | |t']; try done;
    [by apply IHcs|]. subst t'. destruct links as [|l]; [done|]. by apply IHl; [lia|].
Qed.

Lemma namei_settled d path r :
  namei fs false d path = Ok r → namei fs' false d path = Ok (settle fs' r).
Proof using Type*.
  unfold namei. destruct (decide (path = [])); [done|]. rewrite (sp_root _ _ Hp). apply walk_settled.
Qed.
End settled.

(** ** Overlays *)

Record added := mkAdded { a_path : str; a_dir : FileId; a_name : str; a_inode : FileId }.

Definition a_key (a : added) : FileId * str := (a_dir a, a_name a).

Definition regular_at (fs : Fs) (i : FileId) : Prop :=
  ∃ content uid perm, fs_inodes fs !! i = Some (mkInode (Regular content) uid perm).

Record overlay (cwd : FileId) (fs0 : Fs) (L : list added) (fs : Fs) : Prop := {
  ov_sound : sound fs;
  ov_root : fs_root fs = fs_root fs0;
  ov_old : ∀ j nj, fs_inodes fs0 !! j = Some nj → ∃ nj', fs_inodes fs !! j = Some nj' ∧ same_node nj nj';
  ov_keys : NoDup (a_key <$> L);
  ov_entries : ∀ e m i, entries_of fs e !! m = Some i ↔
    entries_of fs0 e !! m = Some i ∨ ∃ a, a ∈ L ∧ a_key a = (e, m) ∧ a_inode a = i;
  ov_free : ∀ a, a ∈ L → entries_of fs0 (a_dir a) !! a_name a = None;
  ov_new : ∀ a, a ∈ L → fs_inodes fs0 !! a_inode a = None ∧ regular_at fs (a_inode a);
  ov_path : ∀ a, a ∈ L →
    namei fs false cwd (a_path a) = Ok (AtName (a_dir a) (a_name a) (Some (a_inode a)));
}.

(** The inodes of the added files are the same. *)
Definition frame (L : list added) (fs fs' : Fs) : Prop :=
  ∀ a, a ∈ L → fs_inodes fs' !! a_inode a = fs_inodes fs !! a_inode a.

Section overlays.
Context (p : process) (fs0 : Fs).
Local Abbreviation cwd := (p_cwd p).

Lemma overlay_start : sound fs0 → overlay cwd fs0 [] fs0.
Proof.
  intros Hs. split; try done; try (by intros a ?%elem_of_nil).
  - intros j nj Hj. by exists nj.
  - constructor.
  - intros e m i. split; [by left|]. intros [?|(a & ?%elem_of_nil & _)]; done.
Qed.

Lemma overlay_same_paths L fs : overlay cwd fs0 L fs → same_paths fs0 fs.
Proof.
  intros Ho. split; [apply (ov_root _ _ _ _ Ho)| |].
  - intros j nj Hj. destruct (ov_old _ _ _ _ Ho j nj Hj) as (nj' & ? & ?). exists nj'. split; [done|]. by apply same_node_shape.
  - intros d n i ni Hi _ _. apply (ov_entries _ _ _ _ Ho). by left.
Qed.

Lemma overlay_restored fs : overlay cwd fs0 [] fs → fs_inodes fs0 ⊆ fs_inodes fs.
Proof.
  intros Ho. apply map_subseteq_spec. intros j nj Hj. destruct (ov_old _ _ _ _ Ho j nj Hj) as (nj' & Hj' & Hsame).
  rewrite Hj'. f_equal. destruct nj as [k u q], nj' as [k' u' q']. destruct Hsame as (Hu & Hq & Hk). cbn in *. subst u' q'.
  f_equal. destruct k as [es par dead| | |], k' as [es' par' dead'| | |]; try done. destruct Hk as [-> ->]. f_equal.
  apply map_eq. intros m. apply option_eq. intros i.
  pose proof (ov_entries _ _ _ _ Ho j m i) as He. unfold entries_of in He. rewrite Hj, Hj' in He. cbn in He.
  rewrite He. split; [|by left]. intros [?|(a & ?%elem_of_nil & _)]; done.
Qed.

(** The general step: new names lead to regular files that are not of [fs0]. *)
Lemma overlay_step L L' fs fs' :
  overlay cwd fs0 L fs → same_paths fs fs' →
  (∀ j nj, fs_inodes fs0 !! j = Some nj → ∀ nj1, fs_inodes fs !! j = Some nj1 →
     ∃ nj', fs_inodes fs' !! j = Some nj' ∧ same_node nj1 nj') →
  NoDup (a_key <$> L') →
  (∀ e m i, entries_of fs' e !! m = Some i ↔
     entries_of fs0 e !! m = Some i ∨ ∃ a, a ∈ L' ∧ a_key a = (e, m) ∧ a_inode a = i) →
  (∀ a, a ∈ L' → entries_of fs0 (a_dir a) !! a_name a = None ∧ fs_inodes fs0 !! a_inode a = None ∧
     regular_at fs' (a_inode a) ∧ ∃ o, namei fs false cwd (a_path a) = Ok (AtName (a_dir a) (a_name a) o)) →
  overlay cwd fs0 L' fs'.
Proof.
  intros Ho Hp Hold Hnd Hent Hall.
  assert (Hold' : ∀ j nj, fs_inodes fs0 !! j = Some nj → ∃ nj', fs_inodes fs' !! j = Some nj' ∧ same_node nj nj').
  { intros j nj Hj. destruct (ov_old _ _ _ _ Ho j nj Hj) as (nj1 & Hj1 & Hs1).
    destruct (Hold j nj Hj nj1 Hj1) as (nj2 & Hj2 & Hs2). exists nj2. split; [done|]. by trans nj1. }
  split; try done.
  - intros e m i Hi. apply Hent in Hi as [Hi|(a & Ha & _ & <-)].
    + assert (Hi1 : entries_of fs e !! m = Some i) by (apply (ov_entries _ _ _ _ Ho); by left).
      destruct (ov_sound _ _ _ _ Ho e m i Hi1) as [ni Hni]. destruct (sp_node _ _ Hp i ni Hni) as (ni' & Hi' & _). by exists ni'.
    + destruct (Hall a Ha) as (_ & _ & (c & u & q & Hreg) & _). by rewrite Hreg.
  - by rewrite (sp_root _ _ Hp), (ov_root _ _ _ _ Ho).
  - intros a Ha. by destruct (Hall a Ha).
  - intros a Ha. by destruct (Hall a Ha) as (_ & ? & ? & _).
  - intros a Ha. destruct (Hall a Ha) as (_ & _ & _ & o & Hw).
    rewrite (namei_settled _ _ (ov_sound _ _ _ _ Ho) Hp _ _ _ Hw). cbn.
    assert (Hi : entries_of fs' (a_dir a) !! a_name a = Some (a_inode a)) by (apply Hent; right; by exists a).
    by rewrite Hi.
Qed.

Lemma regular_not_directory fs i d : regular_at fs i → directory_at fs d → i ≠ d.
Proof. intros (c & u & q & Hi) [par Hd] ->. unfold parent_of in Hd. by rewrite Hi in Hd. Qed.

Lemma overlay_absent L fs i : overlay cwd fs0 L fs → fs_inodes fs !! i = None → fs_inodes fs0 !! i = None.
Proof.
  intros Ho Hi. destruct (fs_inodes fs0 !! i) as [ni|] eqn:H0; [|done].
  destruct (ov_old _ _ _ _ Ho i ni H0) as (? & ? & _). congruence.
Qed.

(** A free name is not one of [fs0] nor an added one. *)
Lemma overlay_free L fs d n :
  overlay cwd fs0 L fs → entries_of fs d !! n = None →
  entries_of fs0 d !! n = None ∧ (d, n) ∉ a_key <$> L.
Proof.
  intros Ho Hn. split.
  - destruct (entries_of fs0 d !! n) as [i|] eqn:Hi; [|done].
    assert (entries_of fs d !! n = Some i) by (apply (ov_entries _ _ _ _ Ho); by left). congruence.
  - intros (a & Hk & Ha)%list_elem_of_fmap.
    assert (entries_of fs d !! n = Some (a_inode a)) by (apply (ov_entries _ _ _ _ Ho); right; by exists a). congruence.
Qed.

(** One more name for a regular inode that is not of [fs0]. *)
Lemma overlay_add L fs fs' path d n i :
  overlay cwd fs0 L fs → same_paths fs fs' → namei fs false cwd path = Ok (AtName d n None) →
  (∀ j nj, fs_inodes fs !! j = Some nj → ∃ nj', fs_inodes fs' !! j = Some nj' ∧ same_node nj nj') →
  (∀ e m, entries_of fs' e !! m = if decide (e = d ∧ m = n) then Some i else entries_of fs e !! m) →
  fs_inodes fs0 !! i = None → regular_at fs' i →
  overlay cwd fs0 (L ++ [mkAdded path d n i]) fs'.
Proof.
  intros Ho Hp Hw Hsame Hent Hi0 Hreg. destruct (namei_end _ _ _ _ _ _ _ Hw) as [Hn _].
  destruct (overlay_free _ _ _ _ Ho Hn) as [Hn0 Hk].
  eapply overlay_step; [exact Ho|exact Hp| | | |].
  - intros j nj _. apply Hsame.
  - rewrite fmap_app. apply NoDup_app. split; [apply (ov_keys _ _ _ _ Ho)|]. split; [|apply NoDup_singleton].
    intros x Hx ->%list_elem_of_singleton. done.
  - intros e m j. rewrite Hent. destruct (decide (e = d ∧ m = n)) as [[-> ->]|Hne].
    + split.
      * intros [= <-]. right. eexists. split; [apply elem_of_app; right; by apply list_elem_of_singleton|done].
      * intros [?|(a & [Ha| ->%list_elem_of_singleton]%elem_of_app & Hak & <-)]; [congruence| |done].
        destruct Hk. apply list_elem_of_fmap. by exists a.
    + rewrite (ov_entries _ _ _ _ Ho). split; (intros [?|(a & Ha & Hak & Hai)]; [by left|right; exists a]).
      * split; [by apply elem_of_app; left|done].
      * apply elem_of_app in Ha as [Ha| ->%list_elem_of_singleton]; [done|]. injection Hak as <- <-. naive_solver.
  - intros a [Ha| ->%list_elem_of_singleton]%elem_of_app.
    + split; [by apply (ov_free _ _ _ _ Ho)|]. destruct (ov_new _ _ _ _ Ho a Ha) as [? (c & u & q & Hai)].
      split; [done|]. split; [|eexists; by apply (ov_path _ _ _ _ Ho)].
      destruct (Hsame _ _ Hai) as ([[] u' q'] & Hai' & (_ & _ & Hkk)); try done. by do 3 eexists.
    + split; [done|]. split; [done|]. split; [done|]. by eexists.
Qed.

Lemma overlay_create L fs path mode :
  overlay cwd fs0 L fs →
  let ex := exec p fs (Create_new cwd path mode) in
  (∃ e, ex = (RErr e, fs)) ∨
  ∃ d n i, ex.1 = RFd i ∧ namei fs false cwd path = Ok (AtName d n None) ∧ is_dead fs d = false ∧ overlay cwd fs0 (L ++ [mkAdded path d n i]) ex.2 ∧ frame L fs ex.2 ∧
    fs_inodes fs !! i = None ∧
    fs_inodes ex.2 !! i = Some (mkInode (Regular []) (p_euid p) (N.ldiff mode (p_umask p))).
Proof.
  intros Ho ex. subst ex. cbn [exec]. unfold exec_create.
  destruct (namei fs false cwd path) as [[d n [j|]|d]|e] eqn:Hw; try (left; by eexists).
  destruct (is_dead fs d) eqn:Hdead; [left; by eexists|]. destruct (namei_end _ _ _ _ _ _ _ Hw) as [Hn Hd].
  destruct (create_inode d n _ fs) as [i fs'] eqn:Hc.
  destruct (create_inode_spec _ _ _ _ _ _ Hc Hd I) as (Hf & Hne & Hroot & Hnode & Hsame & Hother & Hent).
  right. exists d, n, i. do 3 (split; [done|]). split; [|split; [|split; done]].
  - eapply overlay_add; try done; [|by eapply overlay_absent|by do 3 eexists].
    split; [done| |].
    + intros j nj Hj. destruct (Hsame j nj Hj) as (nj' & ? & ?). exists nj'. split; [done|]. by apply same_node_shape.
    + intros e m j nj Hj _ _. rewrite Hent. destruct (decide (e = d ∧ m = n)) as [[-> ->]|]; [congruence|done].
  - intros a Ha. destruct (ov_new _ _ _ _ Ho a Ha) as [_ Hreg]. apply Hother; [by eapply regular_not_directory|].
    intros Hai. destruct Hreg as (? & ? & ? & ?). congruence.
Qed.

(** Changing an added file. *)
Lemma overlay_update L fs a f :
  overlay cwd fs0 L fs → a ∈ L →
  (∀ c u q, ∃ c' u' q', f (mkInode (Regular c) u q) = mkInode (Regular c') u' q') →
  overlay cwd fs0 L (update_inode f (a_inode a) fs).
Proof.
  intros Ho Ha Hf. destruct (ov_new _ _ _ _ Ho a Ha) as [Hi0 (c & u & q & Hi)].
  remember (a_inode a) as i eqn:Hia. clear Hia.
  destruct (Hf c u q) as (c' & u' & q' & Hfi).
  assert (Hent : ∀ e, entries_of (update_inode f i fs) e = entries_of fs e).
  { intros e. unfold entries_of. rewrite lookup_update_inode. destruct (decide (e = i)) as [-> |]; [|done].
    rewrite Hi. cbn. by rewrite Hfi. }
  eapply overlay_step; [exact Ho| | | | |].
  - split; [done| |intros; by rewrite Hent]. intros j nj Hj. rewrite lookup_update_inode.
    destruct (decide (j = i)) as [-> |]; [|exists nj; split; [done|apply same_node_shape; reflexivity]].
    rewrite Hi in *. simplify_eq. cbn. rewrite Hfi. by eexists.
  - intros j nj Hj0 nj1 Hj. rewrite lookup_update_inode. destruct (decide (j = i)) as [-> |]; [|by exists nj1].
    congruence.
  - apply (ov_keys _ _ _ _ Ho).
  - intros e m j. rewrite Hent. apply (ov_entries _ _ _ _ Ho).
  - intros b Hb. destruct (ov_new _ _ _ _ Ho b Hb) as [Hb0 (cb & ub & qb & Hbi)].
    split; [by apply (ov_free _ _ _ _ Ho)|]. split; [done|]. split; [|eexists; by apply (ov_path _ _ _ _ Ho)].
    unfold regular_at. rewrite lookup_update_inode. destruct (decide (a_inode b = i)); [|by do 3 eexists].
    rewrite Hi. cbn. rewrite Hfi. by do 3 eexists.
Qed.

Lemma overlay_resolve L fs a follow :
  overlay cwd fs0 L fs → a ∈ L → resolve fs follow cwd (a_path a) = Ok (a_inode a).
Proof.
  intros Ho Ha. pose proof (ov_path _ _ _ _ Ho a Ha) as Hw. unfold resolve. destruct follow; [|by rewrite Hw].
  rewrite (namei_follow _ _ _ _ _ _ Hw); [done|]. intros i t [= <-].
  destruct (ov_new _ _ _ _ Ho a Ha) as [_ (c & u & q & ->)]. done.
Qed.

Lemma overlay_link L fs a new :
  overlay cwd fs0 L fs → a ∈ L →
  let ex := exec p fs (Link cwd (a_path a) new) in
  (∃ e, ex = (RErr e, fs)) ∨
  ∃ d n, ex.1 = RUnit ∧ overlay cwd fs0 (L ++ [mkAdded new d n (a_inode a)]) ex.2 ∧ frame L fs ex.2.
Proof.
  intros Ho Ha ex. subst ex. cbn [exec]. unfold exec_link. rewrite (overlay_resolve _ _ _ false Ho Ha).
  destruct (ov_new _ _ _ _ Ho a Ha) as [Hi0 (c & u & q & Hi)]. rewrite Hi. cbn [fmap option_fmap option_map i_kind].
  destruct (namei fs false cwd new) as [[d n [j|]|d]|e] eqn:Hw; try (left; by eexists).
  destruct (is_dead fs d); [left; by eexists|]. destruct (namei_end _ _ _ _ _ _ _ Hw) as [Hn Hd].
  set (fs' := update_inode _ d fs).
  assert (Hsame : ∀ j nj, fs_inodes fs !! j = Some nj → ∃ nj', fs_inodes fs' !! j = Some nj' ∧ same_node nj nj').
  { intros j nj Hj. unfold fs'. rewrite lookup_update_inode. destruct (decide (j = d)) as [-> |]; [|by exists nj].
    rewrite Hj. eexists. split; [done|]. apply same_node_set_entries. }
  assert (Hent : ∀ e m, entries_of fs' e !! m = if decide (e = d ∧ m = n) then Some (a_inode a) else entries_of fs e !! m).
  { intros e m. unfold fs'. rewrite entries_of_set_entries by auto. destruct (decide (e = d)) as [-> |].
    - rewrite lookup_insert. destruct (decide (n = m)), (decide (d = d ∧ m = n)); naive_solver.
    - destruct (decide (e = d ∧ m = n)); naive_solver. }
  assert (Hframe : frame L fs fs').
  { intros b Hb. destruct (ov_new _ _ _ _ Ho b Hb) as [_ Hreg]. unfold fs'. rewrite lookup_update_inode, decide_False; [done|].
    by eapply regular_not_directory. }
  right. exists d, n. cbn [fst snd]. split; [done|]. split; [|done].
  eapply overlay_add; try done.
  - split; [done| |].
    + intros j nj Hj. destruct (Hsame j nj Hj) as (nj' & ? & ?). exists nj'. split; [done|]. by apply same_node_shape.
    + intros e m j nj Hj _ _. rewrite Hent. destruct (decide (e = d ∧ m = n)) as [[-> ->]|]; [congruence|done].
  - unfold regular_at. rewrite (Hframe a Ha), Hi. by do 3 eexists.
Qed.

Lemma overlay_unlink L1 a L2 fs :
  overlay cwd fs0 (L1 ++ a :: L2) fs →
  let ex := exec p fs (Unlinkat cwd (a_path a) false) in
  ex.1 = RUnit ∧ overlay cwd fs0 (L1 ++ L2) ex.2 ∧ frame (L1 ++ a :: L2) fs ex.2.
Proof.
  intros Ho ex. subst ex. assert (Ha : a ∈ L1 ++ a :: L2) by (apply elem_of_app; right; left).
  cbn [exec]. unfold exec_unlink. rewrite (ov_path _ _ _ _ Ho a Ha).
  destruct (ov_new _ _ _ _ Ho a Ha) as [Hi0 (c & u & q & Hi)]. rewrite Hi. cbn [fmap option_fmap option_map i_kind fst snd].
  set (fs' := update_inode _ _ fs). destruct (namei_end _ _ _ _ _ _ _ (ov_path _ _ _ _ Ho a Ha)) as [_ Hd].
  assert (Hent : ∀ e m, entries_of fs' e !! m = if decide (e = a_dir a ∧ m = a_name a) then None else entries_of fs e !! m)
    by (intros; apply entries_of_unlinked).
  assert (Hframe : frame (L1 ++ a :: L2) fs fs').
  { intros b Hb. destruct (ov_new _ _ _ _ Ho b Hb) as [_ Hreg]. unfold fs'. rewrite lookup_update_inode, decide_False; [done|].
    by eapply regular_not_directory. }
  assert (Hsame : ∀ j nj, fs_inodes fs !! j = Some nj → ∃ nj', fs_inodes fs' !! j = Some nj' ∧ same_node nj nj').
  { intros j nj Hj. unfold fs'. rewrite lookup_update_inode. destruct (decide (j = a_dir a)) as [-> |]; [|by exists nj].
    rewrite Hj. eexists. split; [done|]. apply same_node_set_entries. }
  pose proof (ov_keys _ _ _ _ Ho) as Hnd. rewrite fmap_app, fmap_cons in Hnd.
  assert (Hnotin : ∀ b, b ∈ L1 ++ L2 → a_key b ≠ a_key a).
  { intros b Hb Hk. rewrite <- Permutation_middle in Hnd. apply NoDup_cons in Hnd as [Hnin _]. destruct Hnin.
    rewrite <- Hk, <- fmap_app. by apply list_elem_of_fmap_2. }
  split; [done|]. split; [|done]. eapply overlay_step; [exact Ho| | | | |].
  - split; [done| |].
    + intros j nj Hj. destruct (Hsame j nj Hj) as (nj' & ? & ?). exists nj'. split; [done|]. by apply same_node_shape.
    + intros e m j nj Hj Hnj Hpass. rewrite Hent. destruct (decide (e = a_dir a ∧ m = a_name a)) as [[-> ->]|]; [|done].
      assert (entries_of fs (a_dir a) !! a_name a = Some (a_inode a)) by (apply (ov_entries _ _ _ _ Ho); right; by exists a).
      assert (nj = mkInode (Regular c) u q) by congruence. by subst.
  - intros j nj _. apply Hsame.
  - rewrite fmap_app. eapply sublist_NoDup; [exact Hnd|]. apply sublist_app; [done|]. by apply sublist_cons.
  - intros e m i. rewrite Hent. destruct (decide (e = a_dir a ∧ m = a_name a)) as [[-> ->]|Hne].
    + split; [done|]. intros [Hold|(b & Hb & Hk & _)]; [|by destruct (Hnotin b Hb)].
      rewrite (ov_free _ _ _ _ Ho a Ha) in Hold. done.
    + rewrite (ov_entries _ _ _ _ Ho). split; (intros [?|(b & Hb & Hk & Hbi)]; [by left|right; exists b]).
      * split; [|done]. apply elem_of_app in Hb as [?|[-> |?]%elem_of_cons]; [by apply elem_of_app; left| |by apply elem_of_app; right].
        injection Hk as <- <-. naive_solver.
      * split; [|done]. apply elem_of_app in Hb as [?|?]; apply elem_of_app; [by left|right; by right].
  - intros b Hb. assert (Hb' : b ∈ L1 ++ a :: L2).
    { apply elem_of_app in Hb as [?|?]; apply elem_of_app; [by left|right; by right]. }
    split; [by apply (ov_free _ _ _ _ Ho)|]. destruct (ov_new _ _ _ _ Ho b Hb') as [Hb0 (cb & ub & qb & Hbi)].
    split; [done|]. split; [|eexists; by apply (ov_path _ _ _ _ Ho)].
    unfold regular_at. rewrite (Hframe b Hb'), Hbi. by do 3 eexists.
Qed.

(** Looking at an added file. *)
Lemma overlay_stat L fs a n :
  overlay cwd fs0 L fs → a ∈ L → fs_inodes fs !! a_inode a = Some n →
  exec p fs (Fstatat cwd (a_path a)) = (RStat (stat_of (a_inode a) n), fs) ∧
  exec p fs (Stat_follow cwd (a_path a)) = (RStat (stat_of (a_inode a) n), fs).
Proof.
  intros Ho Ha Hn. cbn [exec]. rewrite !(overlay_resolve _ _ _ _ Ho Ha). cbn. unfold stat_inode. by rewrite Hn.
Qed.

Lemma overlay_read L fs a c u q :
  overlay cwd fs0 L fs → a ∈ L → fs_inodes fs !! a_inode a = Some (mkInode (Regular c) u q) →
  exec p fs (Read_file cwd (a_path a)) = (RPath c, fs).
Proof. intros Ho Ha Hn. cbn [exec]. rewrite (overlay_resolve _ _ _ _ Ho Ha). cbn. by rewrite Hn. Qed.
End overlays.
