(* ===== verification/BTree.v ===== *)
(** Ordered strings and [BTreeMap<String, V>].

    Rust compares strings byte by byte; a [BTreeMap] is a finite map whose
    iteration visits the keys in that order. The map itself is a [gmap]
    (extensional equality, like the derived [PartialEq]); [btree_iter] is its
    iterator. The stable sorts of the source ([sort_by], [sort]) are stdpp's
    merge sort; their uniqueness lemmas are proved here. *)

From S2P Require Import Prelude RustStr.
From stdpp Require Import options.

(** [Ord for str]: lexicographic on bytes. *)
Fixpoint str_leb (a b : str) : bool :=
  match a, b with
  | [], _ => true
  | _ :: _, [] => false
  | c :: a', d :: b' =>
      if (code c <? code d)%N then true
      else if (code d <? code c)%N then false
      else str_leb a' b'
  end.

Definition str_le (a b : str) : Prop := str_leb a b = true.

#[export] Instance str_le_dec : RelDecision str_le.
Proof. intros a b. unfold str_le. apply _. Defined.

Lemma str_leb_cons c a d b :
  str_leb (c :: a) (d :: b) = true ↔
  (code c < code d)%N ∨ (c = d ∧ str_leb a b = true).
Proof.
  cbn. destruct (N.ltb_spec (code c) (code d)); [intuition lia|].
  destruct (N.ltb_spec (code d) (code c)).
  - split; [done|]. intros [?|[-> _]]; lia.
  - assert (c = d) by (apply code_inj; lia). intuition lia.
Qed.

#[export] Instance str_le_refl : Reflexive str_le.
Proof.
  intros a. unfold str_le. induction a as [|c a IH]; [done|].
  apply str_leb_cons. auto.
Qed.

#[export] Instance str_le_trans : Transitive str_le.
Proof.
  unfold str_le. intros a. induction a as [|c a IH]; intros [|d b] [|e f]; try done.
  rewrite !str_leb_cons. intros [?|[-> ?]] [?|[-> ?]]; [left; lia|auto|auto|].
  right. eauto.
Qed.

#[export] Instance str_le_total : Total str_le.
Proof.
  unfold str_le. intros a. induction a as [|c a IH]; intros [|d b]; auto.
  rewrite !str_leb_cons.
  destruct (N.lt_trichotomy (code c) (code d)) as [?|[?%code_inj|?]]; auto.
  destruct (IH b); auto.
Qed.

#[export] Instance str_le_antisymm : AntiSymm (=) str_le.
Proof.
  unfold str_le. intros a. induction a as [|c a IH]; intros [|d b]; try done.
  rewrite !str_leb_cons. intros [?|[-> ?]] [?|[? ?]]; subst; try lia.
  f_equal. auto.
Qed.

(** ** Sorting records by a string key *)

Definition key_le {A} (key : A → str) (x y : A) : Prop := str_le (key x) (key y).

#[export] Instance key_le_dec {A} (key : A → str) : RelDecision (key_le key).
Proof. intros x y. unfold key_le. apply _. Defined.
#[export] Instance key_le_trans {A} (key : A → str) : Transitive (key_le key).
Proof. intros x y z. apply str_le_trans. Qed.
#[export] Instance key_le_total {A} (key : A → str) : Total (key_le key).
Proof. intros x y. apply str_le_total. Qed.

(** [v.sort_by(|l, r| key(l).cmp(key(r)))]. *)
Definition sort_by_key {A} (key : A → str) (l : list A) : list A :=
  merge_sort (key_le key) l.

#[export] Instance key_le_id_antisymm : AntiSymm (=) (key_le (A:=str) id).
Proof. intros a b. apply str_le_antisymm. Qed.

Lemma sort_by_key_perm {A} (key : A → str) (l : list A) : sort_by_key key l ≡ₚ l.
Proof. apply merge_sort_Permutation. Qed.

Lemma sort_by_key_sorted {A} (key : A → str) (l : list A) :
  StronglySorted (key_le key) (sort_by_key key l).
Proof. apply StronglySorted_merge_sort; apply _. Qed.

(** Two sorted lists with the same elements are equal when no two elements
    share a key: sorting by a key that identifies the elements gives a normal
    form. *)
Lemma sorted_key_unique {A} (key : A → str) (l1 l2 : list A) :
  StronglySorted (key_le key) l1 → StronglySorted (key_le key) l2 →
  NoDup (key <$> l1) → l1 ≡ₚ l2 → l1 = l2.
Proof.
  intros Hs1 Hs2 Hnd Hp. apply (StronglySorted_unique_strong (key_le key)); [|done..].
  intros x y Hx Hy ??. apply (NoDup_fmap_inj_elem key l1); [done..|by rewrite Hp|].
  by apply (anti_symm str_le).
Qed.

Lemma sort_by_key_unique {A} (key : A → str) (l1 l2 : list A) :
  NoDup (key <$> l1) → l1 ≡ₚ l2 → sort_by_key key l1 = sort_by_key key l2.
Proof.
  intros Hnd Hp. apply (sorted_key_unique key); try apply sort_by_key_sorted.
  - by rewrite sort_by_key_perm.
  - by rewrite !sort_by_key_perm.
Qed.

(** Sorting strings themselves needs no such hypothesis. *)
Lemma sort_str_unique (l1 l2 : list str) :
  l1 ≡ₚ l2 → sort_by_key id l1 = sort_by_key id l2.
Proof.
  intros Hp. apply (StronglySorted_unique (key_le id)).
  - apply sort_by_key_sorted.
  - apply sort_by_key_sorted.
  - by rewrite !sort_by_key_perm.
Qed.

(** ** [BTreeMap] iteration *)

Definition btree_iter {V} (m : gmap str V) : list (str * V) :=
  sort_by_key fst (map_to_list m).

Lemma btree_iter_perm {V} (m : gmap str V) : btree_iter m ≡ₚ map_to_list m.
Proof. apply sort_by_key_perm. Qed.

Lemma btree_iter_elem {V} (m : gmap str V) k v :
  (k, v) ∈ btree_iter m ↔ m !! k = Some v.
Proof. by rewrite btree_iter_perm, elem_of_map_to_list. Qed.

Lemma btree_iter_NoDup {V} (m : gmap str V) : NoDup (btree_iter m).*1.
Proof. rewrite btree_iter_perm. apply NoDup_fst_map_to_list. Qed.

Lemma btree_iter_sorted {V} (m : gmap str V) :
  StronglySorted (key_le fst) (btree_iter m).
Proof. apply sort_by_key_sorted. Qed.

Lemma btree_iter_length {V} (m : gmap str V) : length (btree_iter m) = size m.
Proof. by rewrite btree_iter_perm, length_map_to_list. Qed.
