(* ===== verification/PolicyTypes.v ===== *)
(** The public policy types of the [baffle-client] crate
    (crates/baffle-client/src/lib.rs) and their constructors. *)

From S2P Require Import Prelude RustStr.
From stdpp Require Import options.

Inductive CredentialMode := Inject | Substitute | Disabled.
Inductive UnmatchedHostPolicy := UDeny | UTunnel.
Inductive RuleMode := Tunnel | Intercept.
Inductive InjectionFormat := Raw | Bearer | BasicPassword.

#[export] Instance CredentialMode_eq_dec : EqDecision CredentialMode.
Proof. solve_decision. Defined.
#[export] Instance UnmatchedHostPolicy_eq_dec : EqDecision UnmatchedHostPolicy.
Proof. solve_decision. Defined.
#[export] Instance RuleMode_eq_dec : EqDecision RuleMode.
Proof. solve_decision. Defined.
#[export] Instance InjectionFormat_eq_dec : EqDecision InjectionFormat.
Proof. solve_decision. Defined.

(** A declaration to inject a daemon-managed secret into an HTTP header. *)
Record HeaderInjection := mkHeaderInjection {
  hi_header : str;
  hi_secret : str;
  hi_format : InjectionFormat;
  hi_username : option str;
}.
#[export] Instance HeaderInjection_eq_dec : EqDecision HeaderInjection.
Proof. solve_decision. Defined.

(** A policy rule for one exact DNS hostname. Ports are [u16] values. *)
Record HostRule := mkHostRule {
  hr_host : str;
  hr_mode : RuleMode;
  hr_ports : list N;
  hr_paths : list str;
  hr_inject : list HeaderInjection;
}.
#[export] Instance HostRule_eq_dec : EqDecision HostRule.
Proof. solve_decision. Defined.

(** A session policy sent to the daemon when creating a proxy. *)
Record SessionConfig := mkSessionConfig {
  sc_persistent : bool;
  sc_socket_name : option str;
  sc_unmatched : UnmatchedHostPolicy;
  sc_default_credential_mode : option CredentialMode;
  sc_credential_modes : gmap str CredentialMode;
  sc_rules : list HostRule;
}.
#[export] Instance SessionConfig_eq_dec : EqDecision SessionConfig.
Proof. solve_decision. Defined.

(** [CredentialMode::default()] is [Inject]. *)
Definition credential_mode_default : CredentialMode := Inject.
(** [UnmatchedHostPolicy::default()] is [Deny]. *)
Definition unmatched_default : UnmatchedHostPolicy := UDeny.

Definition is_deny (p : UnmatchedHostPolicy) : bool := bool_decide (p = UDeny).

(** [SessionConfig::effective_credential_mode]: the per-secret mode, then the
    session default, then [Inject]. *)
Definition effective_credential_mode (sc : SessionConfig) (secret : str) : CredentialMode :=
  match sc_credential_modes sc !! secret with
  | Some mode => mode
  | None => default credential_mode_default (sc_default_credential_mode sc)
  end.

(** ** Builders of [SessionConfig], [HostRule] and [HeaderInjection] *)

Definition session_config_new : SessionConfig :=
  mkSessionConfig false None unmatched_default None ∅ [].

Definition with_persistent (b : bool) (sc : SessionConfig) : SessionConfig :=
  mkSessionConfig b (sc_socket_name sc) (sc_unmatched sc)
    (sc_default_credential_mode sc) (sc_credential_modes sc) (sc_rules sc).
Definition with_socket_name (n : str) (sc : SessionConfig) : SessionConfig :=
  mkSessionConfig (sc_persistent sc) (Some n) (sc_unmatched sc)
    (sc_default_credential_mode sc) (sc_credential_modes sc) (sc_rules sc).
Definition unmatched_host_policy (p : UnmatchedHostPolicy) (sc : SessionConfig) : SessionConfig :=
  mkSessionConfig (sc_persistent sc) (sc_socket_name sc) p
    (sc_default_credential_mode sc) (sc_credential_modes sc) (sc_rules sc).
Definition with_default_credential_mode (m : CredentialMode) (sc : SessionConfig) : SessionConfig :=
  mkSessionConfig (sc_persistent sc) (sc_socket_name sc) (sc_unmatched sc)
    (Some m) (sc_credential_modes sc) (sc_rules sc).
Definition credential_mode (secret : str) (m : CredentialMode) (sc : SessionConfig) : SessionConfig :=
  mkSessionConfig (sc_persistent sc) (sc_socket_name sc) (sc_unmatched sc)
    (sc_default_credential_mode sc) (<[secret := m]> (sc_credential_modes sc)) (sc_rules sc).
Definition with_rule (r : HostRule) (sc : SessionConfig) : SessionConfig :=
  mkSessionConfig (sc_persistent sc) (sc_socket_name sc) (sc_unmatched sc)
    (sc_default_credential_mode sc) (sc_credential_modes sc) (sc_rules sc ++ [r]).

Definition host_rule_new (host : str) (mode : RuleMode) : HostRule :=
  mkHostRule host mode [443%N] [] [].
Definition host_rule_tunnel (host : str) : HostRule := host_rule_new host Tunnel.
Definition host_rule_intercept (host : str) : HostRule := host_rule_new host Intercept.

Definition injection_raw (header secret : str) : HeaderInjection :=
  mkHeaderInjection header secret Raw None.
Definition injection_bearer (header secret : str) : HeaderInjection :=
  mkHeaderInjection header secret Bearer None.
Definition injection_basic_password (header secret username : str) : HeaderInjection :=
  mkHeaderInjection header secret BasicPassword (Some username).
