(* ===== verification/UrlPath.v ===== *)
(** Request paths and path patterns
    (crates/baffle-client/src/policy.rs: [canonicalize_path],
    [validate_path], [paths_overlap]; src/policy.rs: [matches_path_pattern]).

    A path is canonicalised before it is matched: percent escapes of
    unreserved characters are decoded, the remaining escapes are written with
    uppercase digits, and everything ambiguous is refused. The theorems show
    that canonicalisation is a projection that keeps the meaning of the path
    (what one percent-decoding yields), that a canonical path has no segment
    an upstream could resolve differently, that recursive patterns confine a
    request to their subtree, and that the overlap test used to validate
    rules is exact. *)

From S2P Require Import Prelude RustStr.
From stdpp Require Import options.
Local Open Scope char_scope.

(** The error texts of [canonicalize_path] and [validate_path]. *)
Inductive path_error :=
| PathNotAbsolute        (* absolute URL path without query, fragment, or backslash *)
| PathMalformedPercent   (* contains malformed percent encoding *)
| PathEncodedSeparator   (* encoded path separator or ambiguous double encoding *)
| PathInvalidCharacter   (* a character that is not valid in a URL path *)
| PathRepeatedSeparator  (* an ambiguous repeated path separator *)
| PathDotSegment         (* an unsafe dot segment *)
| PathMisplacedStar.     (* may use ** only as the final recursive path segment *)

#[export] Instance path_error_eq_dec : EqDecision path_error.
Proof. solve_decision. Defined.

(** ** Operations *)

Definition hex_value (byte : ascii) : option N :=
  if in_range 48 57 byte then Some (code byte - 48)%N
  else if in_range 97 102 byte then Some (code byte - 97 + 10)%N
  else if in_range 65 70 byte then Some (code byte - 65 + 10)%N
  else None.

Definition is_unreserved (byte : ascii) : bool :=
  is_ascii_alphanumeric byte || contains_char byte ["-"; "."; "_"; "~"].

Definition is_path_character (byte : ascii) : bool :=
  is_ascii_alphanumeric byte
  || contains_char byte
       ["/"; "-"; "."; "_"; "~"; "!"; "$"; "&"; "'"; "("; ")"; "+"; ","; ";"; "="; ":"; "@"].

(** The byte loop of [canonicalize_path]: the head of the list is
    [bytes[index]], the result what is pushed from there on. *)
Fixpoint canonical_bytes (bytes : str) : result path_error str :=
  match bytes with
  | [] => Ok []
  | byte :: rest1 =>
      if decide (byte = "%") then
        match rest1 with
        | b1 :: b2 :: rest3 =>
            high ← ok_or (hex_value b1) PathMalformedPercent;
            low ← ok_or (hex_value b2) PathMalformedPercent;
            let decoded := ascii_of_N (high * 16 + low) in
            if contains_char decoded ["/"; "\"; "%"] then Err PathEncodedSeparator
            else
              canonical ← canonical_bytes rest3;
              Ok ((if is_unreserved decoded then [decoded]
                   else ["%"; ascii_upper b1; ascii_upper b2]) ++ canonical)
        | _ => Err PathMalformedPercent
        end
      else if negb (is_path_character byte) then Err PathInvalidCharacter
      else
        canonical ← canonical_bytes rest1;
        Ok (byte :: canonical)
  end.

Definition canonicalize_path (path : str) : result path_error str :=
  if negb (starts_with ["/"] path) || contains_any ["?"; "#"; "\"] path
  then Err PathNotAbsolute
  else
    canonical ← canonical_bytes path;
    if contains_str (lit "//") canonical then Err PathRepeatedSeparator
    else if existsb (λ segment, str_eqb segment (lit ".") || str_eqb segment (lit ".."))
              (split "/" canonical)
    then Err PathDotSegment
    else Ok canonical.

Definition canonicalize_request_path (path : str) : result path_error str :=
  canonicalize_path (if str_eqb path [] then lit "/" else path).

Definition validate_path (input : str) : result path_error str :=
  if negb (starts_with ["/"] input) || contains_any ["?"; "#"; "\"] input
  then Err PathNotAbsolute
  else
    let '(path, recursive) :=
      match strip_suffix (lit "/**") input with
      | Some prefix =>
          (if str_eqb prefix [] then lit "/" else take (length prefix + 1) input, true)
      | None => (input, false)
      end in
    if contains_char "*" path then Err PathMisplacedStar
    else
      canonical ← canonicalize_path path;
      Ok (if recursive : bool then canonical ++ lit "**" else canonical).

Definition path_pattern_parts (pattern : str) : str * bool :=
  match strip_suffix (lit "**") pattern with
  | Some path => (path, true)
  | None => (pattern, false)
  end.

Definition paths_overlap (left right : str) : bool :=
  let '(left_path, left_recursive) := path_pattern_parts left in
  let '(right_path, right_recursive) := path_pattern_parts right in
  match left_recursive, right_recursive with
  | false, false => str_eqb left_path right_path
  | true, false => starts_with left_path right_path
  | false, true => starts_with right_path left_path
  | true, true => starts_with right_path left_path || starts_with left_path right_path
  end.

(** src/policy.rs *)
Definition matches_path_pattern (pattern path : str) : bool :=
  match strip_suffix (lit "**") pattern with
  | Some prefix => starts_with prefix path
  | None => str_eqb pattern path
  end.

Example canonical_ex1 :
  canonicalize_path (lit "/allowed/%7euser") = Ok (lit "/allowed/~user").
Proof. vm_compute. reflexivity. Qed.
Example canonical_ex2 :
  canonicalize_path (lit "/allowed%2fprivate") = Err PathEncodedSeparator.
Proof. vm_compute. reflexivity. Qed.
Example canonical_ex3 :
  canonicalize_path (lit "/a/%2e%2E/b") = Err PathDotSegment.
Proof. vm_compute. reflexivity. Qed.
Example validate_path_ex :
  validate_path (lit "/v1/%7euser/**") = Ok (lit "/v1/~user/**").
Proof. vm_compute. reflexivity. Qed.

(** ** Specification: what a path means

    [pct_decode] is what a server obtains by percent-decoding once. *)
Fixpoint pct_decode (s : str) : option str :=
  match s with
  | [] => Some []
  | c :: s1 =>
      if decide (c = "%") then
        match s1 with
        | h :: l :: s3 =>
            a ← hex_value h; b ← hex_value l;
            cons (ascii_of_N (a * 16 + b)) <$> pct_decode s3
        | _ => None
        end
      else cons c <$> pct_decode s1
  end.

(** The shape of a canonical byte sequence. *)
Inductive canonical_form : str → Prop :=
| canonical_nil : canonical_form []
| canonical_char c q :
    is_path_character c = true → canonical_form q → canonical_form (c :: q)
| canonical_escape h l a b q :
    hex_value h = Some a → hex_value l = Some b →
    ascii_upper h = h → ascii_upper l = l →
    contains_char (ascii_of_N (a * 16 + b)) ["/"; "\"; "%"] = false →
    is_unreserved (ascii_of_N (a * 16 + b)) = false →
    canonical_form q → canonical_form ("%" :: h :: l :: q).
#[export] Hint Constructors canonical_form : baffle.

(** ** Facts about single bytes *)

Lemma path_character_not_pct c : is_path_character c = true → c ≠ "%".
Proof. intros Hc ->. done. Qed.

Lemma unreserved_path_character c : is_unreserved c = true → is_path_character c = true.
Proof. byte_decide c. Qed.

Lemma hex_value_upper c : hex_value (ascii_upper c) = hex_value c.
Proof. byte_decide c. Qed.

Lemma ascii_upper_idem c : ascii_upper (ascii_upper c) = ascii_upper c.
Proof. byte_decide c. Qed.

Lemma hex_value_not_slash c a : hex_value c = Some a → c ≠ "/".
Proof. intros Hc ->. done. Qed.

Lemma hex_value_not_forbidden c :
  is_Some (hex_value c) → c ∉ ["?"; "#"; "\"; "*"; "/"; "%"].
Proof. byte_decide c. Qed.

Lemma path_character_not_forbidden c :
  is_path_character c = true → c ∉ ["?"; "#"; "\"; "*"].
Proof. byte_decide c. Qed.

Lemma escape_not_slash d : contains_char d ["/"; "\"; "%"] = false → d ≠ "/".
Proof. intros Hd ->. done. Qed.
#[export] Hint Resolve path_character_not_pct escape_not_slash hex_value_not_slash : baffle.

(** Induction along the loop: one byte, or one three-byte escape, at a time. *)
Lemma pct_ind (P : str → Prop) :
  P [] → (∀ c s, c ≠ "%" → P s → P (c :: s)) →
  P ["%"] → (∀ h, P ["%"; h]) →
  (∀ h l s, P s → P ("%" :: h :: l :: s)) → ∀ s, P s.
Proof.
  intros H0 Hc H1 H2 H3 s. remember (length s) as n eqn:Hn. revert s Hn.
  induction n as [n IH] using lt_wf_ind. intros [|c s] ->; [done|].
  destruct (decide (c = "%")) as [->|]; [|apply Hc; [done|]; by eapply (IH (length s)); cbn; [lia|]].
  destruct s as [|h [|l s]]; [done|apply H2|]. apply H3.
  eapply (IH (length s)); cbn; [lia|done].
Qed.

(** ** Canonical bytes *)

Lemma canonical_bytes_form s q : canonical_bytes s = Ok q → canonical_form q.
Proof.
  revert q. induction s as [|c s Hc IH| |h|h l s IH] using pct_ind; intros q Hq.
  - cbn in Hq. res_inv. constructor.
  - cbn in Hq. rewrite decide_False in Hq by done. res_inv. bool_prop.
    constructor; eauto.
  - done.
  - done.
  - cbn -[contains_char is_unreserved] in Hq. res_inv.
    case_match; cbn.
    + constructor; eauto using unreserved_path_character.
    + econstructor; eauto using ascii_upper_idem; by rewrite hex_value_upper.
Qed.

Lemma canonical_form_fixed q : canonical_form q → canonical_bytes q = Ok q.
Proof.
  induction 1 as [|c q Hc _ IH|h l a b q Hh Hl Uh Ul Hd Hu _ IH].
  - done.
  - cbn. rewrite decide_False by auto with baffle. rewrite Hc. cbn. by rewrite IH.
  - cbn -[contains_char is_unreserved]. rewrite Hh, Hl. cbn -[contains_char is_unreserved].
    rewrite Hd, IH. cbn -[is_unreserved]. by rewrite Hu, Uh, Ul.
Qed.

Lemma canonical_bytes_decode s q :
  canonical_bytes s = Ok q → pct_decode q = pct_decode s.
Proof.
  revert q. induction s as [|c s Hc IH| |h|h l s IH] using pct_ind; intros q Hq.
  - cbn in Hq. by res_inv.
  - cbn in Hq. rewrite decide_False in Hq by done. res_inv. bool_prop. cbn.
    rewrite !decide_False by done. by erewrite IH.
  - done.
  - done.
  - cbn -[contains_char is_unreserved] in Hq. res_inv.
    match goal with H : canonical_bytes s = _ |- _ => apply IH in H as Hs end.
    destruct (is_unreserved _) eqn:Hu; cbn.
    + rewrite decide_False by (apply unreserved_path_character in Hu; auto with baffle).
      rewrite Hs. by simplify_option_eq.
    + rewrite !hex_value_upper, Hs. by simplify_option_eq.
Qed.

(** A path is canonicalised to bytes exactly when each byte is legal. *)
Lemma canonical_form_decodes q : canonical_form q → is_Some (pct_decode q).
Proof.
  induction 1 as [|c q Hc _ [d Hd]|h l a b q Hh Hl _ _ _ _ _ [d Hd]]; cbn; [by eexists| |].
  - rewrite decide_False, Hd by auto with baffle. by eexists.
  - rewrite Hh, Hl, Hd. by eexists.
Qed.

Lemma canonical_form_chars q c : canonical_form q → c ∈ q → c ∉ ["?"; "#"; "\"; "*"].
Proof.
  induction 1 as [|x q Hx _ IH|h l a b q Hh Hl _ _ _ _ _ IH]; [set_solver| |].
  - apply path_character_not_forbidden in Hx. set_solver.
  - assert (h ∉ ["?"; "#"; "\"; "*"; "/"; "%"]) by (apply hex_value_not_forbidden; by eexists).
    assert (l ∉ ["?"; "#"; "\"; "*"; "/"; "%"]) by (apply hex_value_not_forbidden; by eexists).
    rewrite !elem_of_cons. intros [->|[->|[->|?]]]; [by vm_compute; set_solver|set_solver..].
Qed.

(** ** Decoding respects the segment structure *)

Lemma split_cons_ne d c s : c ≠ d → ∃ w ws, split d s = w :: ws ∧ split d (c :: s) = (c :: w) :: ws.
Proof.
  intros Hne. pose proof (split_nonempty d s). cbn. rewrite decide_False by done.
  destruct (split d s) as [|w ws]; [done|]. by exists w, ws.
Qed.

(** Every segment of a canonical path is canonical and decodes to the
    corresponding segment of the decoded path. *)
Lemma canonical_form_segments q d :
  canonical_form q → pct_decode q = Some d →
  Forall2 (λ w e, canonical_form w ∧ pct_decode w = Some e) (split "/" q) (split "/" d).
Proof.
  intros Hq. revert d.
  induction Hq as [|c q Hc Hq IH|h l a b q Hh Hl Uh Ul Hf Hu Hq IH]; intros d Hd; cbn in Hd.
  - simplify_eq. cbn. repeat constructor.
  - rewrite decide_False in Hd by auto with baffle.
    apply fmap_Some in Hd as (d' & Hd' & ->). specialize (IH d' Hd').
    destruct (decide (c = "/")) as [->|Hne].
    { cbn. constructor; [split; [constructor|done]|done]. }
    destruct (split_cons_ne "/" c q Hne) as (w & ws & E1 & ->).
    destruct (split_cons_ne "/" c d' Hne) as (e & es & E2 & ->).
    rewrite E1, E2 in IH. apply Forall2_cons_1 in IH as [[Hw He] IH].
    constructor; [|done]. split; [by constructor|].
    cbn. by rewrite decide_False, He by auto with baffle.
  - rewrite Hh, Hl in Hd. cbn in Hd. apply fmap_Some in Hd as (d' & Hd' & ->).
    specialize (IH d' Hd').
    destruct (split_cons_ne "/" l q) as (w & ws & E1 & E2); [eauto with baffle|].
    destruct (split_cons_ne "/" h (l :: q)) as (w2 & ws2 & E3 & E4); [eauto with baffle|].
    destruct (split_cons_ne "/" "%" (h :: l :: q)) as (w3 & ws3 & E5 & ->); [done|].
    destruct (split_cons_ne "/" (ascii_of_N (a * 16 + b)) d') as (e & es & E6 & ->);
      [auto with baffle|].
    rewrite E1, E6 in IH. apply Forall2_cons_1 in IH as [[Hw He] IH].
    rewrite E2 in E3. simplify_eq. rewrite E4 in E5. simplify_eq.
    constructor; [|done]. split; [by econstructor|cbn; by rewrite Hh, Hl, He].
Qed.

(** A canonical segment that decodes to dots is those dots. *)
Lemma canonical_form_dots w e :
  canonical_form w → pct_decode w = Some e → Forall (.= ".") e → w = e.
Proof.
  intros Hw. revert e. induction Hw as [|c q Hc Hq IH|h l a b q Hh Hl _ _ _ Hu Hq IH];
    intros e He Hdots; cbn in He.
  - by simplify_eq.
  - rewrite decide_False in He by auto with baffle.
    apply fmap_Some in He as (e' & He' & ->). apply Forall_cons in Hdots as [-> Hdots].
    f_equal. eauto.
  - rewrite Hh, Hl in He. cbn in He. apply fmap_Some in He as (e' & He' & ->).
    apply Forall_cons in Hdots as [Hdot _]. by rewrite Hdot in Hu.
Qed.

Lemma canonical_form_head_slash q d :
  canonical_form q → pct_decode q = Some d → (head q = Some "/" ↔ head d = Some "/").
Proof.
  intros [|c q' Hc Hq|h l a b q' Hh Hl _ _ Hf _ Hq]; cbn; intros Hd; [by simplify_eq| |].
  - rewrite decide_False in Hd by auto with baffle. by apply fmap_Some in Hd as (? & _ & ->).
  - rewrite Hh, Hl in Hd. cbn in Hd. apply fmap_Some in Hd as (? & _ & ->). cbn.
    apply escape_not_slash in Hf. naive_solver.
Qed.

Lemma starts_with_slashes c s :
  starts_with (lit "//") (c :: s) = true ↔ c = "/" ∧ head s = Some "/".
Proof.
  rewrite starts_with_true. split.
  - intros [k Hk]. by simplify_eq/=.
  - intros [-> Hs]. destruct s as [|x s]; simplify_eq/=. by exists s.
Qed.

Lemma contains_slashes_cons c s :
  contains_str (lit "//") (c :: s) = true ↔
  (c = "/" ∧ head s = Some "/") ∨ contains_str (lit "//") s = true.
Proof. change (contains_str ?p (c :: s)) with (starts_with p (c :: s) || contains_str p s).
  by rewrite orb_true_iff, starts_with_slashes. Qed.

Lemma canonical_form_slashes q d :
  canonical_form q → pct_decode q = Some d →
  (contains_str (lit "//") q = true ↔ contains_str (lit "//") d = true).
Proof.
  intros Hq. revert d.
  induction Hq as [|c q Hc Hq IH|h l a b q Hh Hl Uh Ul Hf Hu Hq IH]; intros d Hd; cbn in Hd.
  - by simplify_eq.
  - rewrite decide_False in Hd by auto with baffle.
    apply fmap_Some in Hd as (d' & Hd' & ->).
    rewrite !contains_slashes_cons, (IH d'), (canonical_form_head_slash q d') by done. done.
  - rewrite Hh, Hl in Hd. cbn in Hd. apply fmap_Some in Hd as (d' & Hd' & ->).
    rewrite !contains_slashes_cons, (IH d') by done.
    apply escape_not_slash in Hf. apply hex_value_not_slash in Hh, Hl. naive_solver.
Qed.

(** ** [canonicalize_path] *)

(** The conditions under which a path is accepted, as one lemma: the branch
    analysis every theorem below starts from. *)
Lemma canonicalize_path_Ok p q :
  canonicalize_path p = Ok q ↔
  head p = Some "/" ∧ (∀ c, c ∈ p → c ∉ ["?"; "#"; "\"]) ∧
  canonical_bytes p = Ok q ∧ contains_str (lit "//") q = false ∧
  lit "." ∉ split "/" q ∧ lit ".." ∉ split "/" q.
Proof.
  unfold canonicalize_path.
  assert (starts_with ["/"] p = true ↔ head p = Some "/") as Hstart.
  { rewrite starts_with_true. split; [by intros [k ->]|].
    destruct p as [|c p]; intros ?; simplify_eq/=. by exists p. }
  split.
  - intros Hq. res_inv. bool_prop.
    match goal with H : existsb _ _ = false |- _ => rewrite existsb_elem_false in H; rename H into Hdots end.
    split_and!; [by apply Hstart|by apply contains_any_false|done|done|..];
      intros Hin; apply Hdots in Hin; done.
  - intros (Hh & Hc & Hb & Hs & Hd & Hdd).
    apply Hstart in Hh as ->. apply contains_any_false in Hc as ->. cbn [negb orb].
    rewrite Hb. cbn [mbind result_bind]. rewrite Hs.
    rewrite (proj2 (existsb_elem_false _ _)); [done|]. intros w Hw.
    apply orb_false_iff. unfold str_eqb. rewrite !bool_decide_eq_false. naive_solver.
Qed.

Lemma canonicalize_path_form p q : canonicalize_path p = Ok q → canonical_form q.
Proof. intros (_ & _ & Hb & _)%canonicalize_path_Ok. by eapply canonical_bytes_form. Qed.

Lemma canonicalize_path_head p q : canonicalize_path p = Ok q → head q = Some "/".
Proof.
  intros (Hh & _ & Hb & _)%canonicalize_path_Ok. destruct p as [|c p]; simplify_eq/=.
  by res_inv.
Qed.

(** A path that canonicalisation leaves alone. *)
Definition is_canonical (q : str) : Prop := canonicalize_path q = Ok q.

Lemma canonicalize_path_canonical p q : canonicalize_path p = Ok q → is_canonical q.
Proof.
  intros Hq. pose proof (canonicalize_path_form _ _ Hq) as Hf.
  pose proof (canonicalize_path_head _ _ Hq) as Hh.
  apply canonicalize_path_Ok in Hq as (_ & _ & _ & Hs & Hd & Hdd).
  apply canonicalize_path_Ok. split_and!; [done| |by apply canonical_form_fixed|done..].
  intros c Hc. apply (canonical_form_chars q c Hf) in Hc. set_solver.
Qed.

Lemma decoded_chars q d c :
  canonical_form q → pct_decode q = Some d → c ∈ d → c ∉ ["\"; "%"].
Proof.
  intros Hq. revert d.
  induction Hq as [|x q Hx Hq IH|h l a b q Hh Hl _ _ Hf _ Hq IH]; intros d Hd Hc; cbn in Hd.
  - simplify_eq. by apply not_elem_of_nil in Hc.
  - rewrite decide_False in Hd by auto with baffle.
    apply fmap_Some in Hd as (d' & Hd' & ->). apply elem_of_cons in Hc as [->|Hc]; [|eauto].
    revert Hx. byte_decide x.
  - rewrite Hh, Hl in Hd. cbn in Hd. apply fmap_Some in Hd as (d' & Hd' & ->).
    apply elem_of_cons in Hc as [->|Hc]; [|eauto].
    apply contains_char_false in Hf. set_solver.
Qed.

(** Canonicalisation is a projection: a canonical path is left as it is,
    so matching the canonical path and forwarding it are consistent. *)
Lemma canonicalize_path_idempotent p q :
  canonicalize_path p = Ok q → canonicalize_path q = Ok q.
Proof. apply canonicalize_path_canonical. Qed.

Lemma canonicalize_path_idempotent_witness :
  canonicalize_path (lit "/a%7eb/%3d") = Ok (lit "/a~b/%3D") ∧
  canonicalize_path (lit "/a~b/%3D") = Ok (lit "/a~b/%3D").
Proof.
  split; [vm_compute; reflexivity|].
  apply (canonicalize_path_idempotent (lit "/a%7eb/%3d")). vm_compute. reflexivity.
Defined.

Lemma canonicalize_path_decoded_safe p q :
  canonicalize_path p = Ok q →
  ∃ d, pct_decode p = Some d ∧ pct_decode q = Some d ∧
    Forall2 (λ w e, pct_decode w = Some e) (split "/" q) (split "/" d) ∧
    lit "." ∉ split "/" d ∧ lit ".." ∉ split "/" d ∧
    contains_str (lit "//") d = false ∧ "\" ∉ d ∧ "%" ∉ d.
Proof.
  intros Hq. pose proof (canonicalize_path_form _ _ Hq) as Hf.
  destruct (canonical_form_decodes _ Hf) as [d Hd].
  apply canonicalize_path_Ok in Hq as (_ & _ & Hb & Hs & Hdot & Hdotdot).
  pose proof (canonical_form_segments _ _ Hf Hd) as Hseg.
  assert (∀ e, Forall (.= ".") e → e ∈ split "/" d → e ∈ split "/" q) as Hdots.
  { intros e He Hin. apply list_elem_of_lookup in Hin as [i Hi].
    destruct (Forall2_lookup_r _ _ _ _ _ Hseg Hi) as (w & Hw & Hcf & Hdec).
    rewrite <-(canonical_form_dots w e) by done. by eapply list_elem_of_lookup_2. }
  exists d. split_and!; [by rewrite <-(canonical_bytes_decode _ _ Hb)|done|..].
  - eapply Forall2_impl; [exact Hseg|]. naive_solver.
  - intros Hin. apply Hdot, Hdots; [repeat constructor|done].
  - intros Hin. apply Hdotdot, Hdots; [repeat constructor|done].
  - apply not_true_iff_false. rewrite <-(canonical_form_slashes _ _ Hf Hd). by rewrite Hs.
  - intros Hin. apply (decoded_chars _ _ _ Hf Hd) in Hin. set_solver.
  - intros Hin. apply (decoded_chars _ _ _ Hf Hd) in Hin. set_solver.
Qed.

(** C31: an accepted path and its canonical form decode to the same bytes, and
    splitting commutes with decoding: no segment of the decoded path is a
    dot segment, no separator is repeated, and no backslash or second layer of
    percent-encoding survives. What the rule matched is what an upstream that
    decodes once resolves. *)
Theorem canonicalize_path_meaning p q :
  canonicalize_path p = Ok q →
  ∃ d, pct_decode p = Some d ∧ pct_decode q = Some d ∧
    Forall2 (λ w e, pct_decode w = Some e) (split "/" q) (split "/" d) ∧
    lit "." ∉ split "/" d ∧ lit ".." ∉ split "/" d ∧
    contains_str (lit "//") d = false ∧ "\" ∉ d ∧ "%" ∉ d.
Proof. apply canonicalize_path_decoded_safe. Qed.

Lemma canonicalize_path_meaning_witness :
  ∃ d, pct_decode (lit "/v1/%7Ebob/%3f") = Some d ∧ lit ".." ∉ split "/" d.
Proof.
  destruct (canonicalize_path_meaning (lit "/v1/%7Ebob/%3f") (lit "/v1/~bob/%3F"))
    as (d & Hp & _ & _ & _ & Hdd & _); [vm_compute; reflexivity|].
  by exists d.
Defined.

(** ** Patterns *)

(** What [validate_path] produces: a canonical path, alone or followed by
    [**] after a final slash. *)
Definition valid_pattern (v : str) : Prop :=
  ∃ q, is_canonical q ∧ (v = q ∨ (v = q ++ lit "**" ∧ ∃ k, q = k ++ ["/"])).

Lemma canonical_bytes_last_slash s q :
  canonical_bytes (s ++ ["/"]) = Ok q → ∃ k, q = k ++ ["/"].
Proof.
  revert q. induction s as [|c s Hc IH| |h|h l s IH] using pct_ind; intros q Hq.
  - cbn in Hq. res_inv. by exists [].
  - cbn in Hq. rewrite decide_False in Hq by done. res_inv.
    match goal with H : canonical_bytes _ = _ |- _ => apply IH in H as [k ->] end.
    by exists (c :: k).
  - done.
  - cbn in Hq. by destruct (hex_value h).
  - cbn -[contains_char is_unreserved] in Hq. res_inv.
    match goal with H : canonical_bytes _ = _ |- _ => apply IH in H as [k ->] end.
    eexists. by rewrite app_assoc.
Qed.

Lemma canonicalize_path_last_slash s q :
  canonicalize_path (s ++ ["/"]) = Ok q → ∃ k, q = k ++ ["/"].
Proof. intros (_ & _ & Hb & _)%canonicalize_path_Ok. by eapply canonical_bytes_last_slash. Qed.

Lemma validate_path_valid input v : validate_path input = Ok v → valid_pattern v.
Proof.
  unfold validate_path. intros Hv.
  destruct (negb _ || _); [done|].
  destruct (strip_suffix (lit "/**") input) as [prefix|] eqn:Hs.
  - apply strip_suffix_Some in Hs.
    assert ((if str_eqb prefix [] then lit "/" else take (length prefix + 1) input)
            = prefix ++ ["/"]) as Hp.
    { destruct (str_eqb prefix []) eqn:He; [by apply str_eqb_true in He as ->|].
      subst input. by rewrite take_app, take_ge, Nat.add_sub' by lia. }
    rewrite Hp in Hv. res_inv.
    match goal with H : canonicalize_path _ = Ok ?q |- _ => exists q; pose proof H as Hc end.
    split; [by eapply canonicalize_path_canonical|]. right.
    split; [done|]. by eapply canonicalize_path_last_slash.
  - res_inv. eexists. split; [by eapply canonicalize_path_canonical|]. by left.
Qed.

Lemma canonical_no_star q : is_canonical q → "*" ∉ q.
Proof.
  intros Hq%canonicalize_path_form Hin. apply (canonical_form_chars q) in Hin; set_solver.
Qed.

Lemma strip_star_canonical q : is_canonical q → strip_suffix (lit "**") q = None.
Proof.
  intros Hq%canonical_no_star. apply strip_suffix_None, not_true_iff_false.
  intros [k ->]%ends_with_true. apply Hq. set_solver.
Qed.

Lemma strip_star_recursive q : strip_suffix (lit "**") (q ++ lit "**") = Some q.
Proof. by apply strip_suffix_Some. Qed.

Lemma pattern_cases v :
  valid_pattern v →
  ∃ q, is_canonical q ∧
    ((path_pattern_parts v = (q, false) ∧ ∀ path, matches_path_pattern v path = str_eqb q path) ∨
     (path_pattern_parts v = (q, true) ∧ ∀ path, matches_path_pattern v path = starts_with q path)).
Proof.
  intros (q & Hq & [->|[-> Hk]]); exists q; (split; [done|]);
    unfold path_pattern_parts, matches_path_pattern.
  - left. by rewrite strip_star_canonical.
  - right. by rewrite strip_star_recursive.
Qed.

Lemma paths_overlap_iff l r :
  valid_pattern l → valid_pattern r →
  (paths_overlap l r = true ↔
   ∃ path, is_canonical path ∧
     matches_path_pattern l path = true ∧ matches_path_pattern r path = true).
Proof.
  intros (ql & Hql & Hl)%pattern_cases (qr & Hqr & Hr)%pattern_cases.
  unfold paths_overlap.
  destruct Hl as [[-> Ml]|[-> Ml]], Hr as [[-> Mr]|[-> Mr]]; setoid_rewrite Ml; setoid_rewrite Mr;
    unfold str_eqb, starts_with; rewrite ?orb_true_iff, ?bool_decide_eq_true;
    setoid_rewrite bool_decide_eq_true.
  - naive_solver.
  - naive_solver.
  - naive_solver.
  - split.
    + intros [?|?]; [exists ql|exists qr]; done.
    + intros (path & _ & H1 & H2). by destruct (prefix_weak_total ql qr path); auto.
Qed.

(** C30: the overlap test that rule validation uses is exact: two validated
    patterns overlap if and only if some canonical request path matches both,
    so the patterns of an accepted rule partition the paths they match. *)
Theorem paths_overlap_exact input1 input2 l r :
  validate_path input1 = Ok l → validate_path input2 = Ok r →
  (paths_overlap l r = true ↔
   ∃ path, canonicalize_path path = Ok path ∧
     matches_path_pattern l path = true ∧ matches_path_pattern r path = true).
Proof. intros Hl%validate_path_valid Hr%validate_path_valid. by apply paths_overlap_iff. Qed.

Lemma paths_overlap_exact_witness :
  ∃ path, canonicalize_path path = Ok path ∧
    matches_path_pattern (lit "/a/**") path = true ∧
    matches_path_pattern (lit "/a/~b") path = true.
Proof.
  apply (paths_overlap_exact (lit "/a/**") (lit "/a/%7eb") (lit "/a/**") (lit "/a/~b"));
    vm_compute; reflexivity.
Defined.

Lemma pct_decode_app a b da db :
  canonical_form a → pct_decode a = Some da → pct_decode b = Some db →
  pct_decode (a ++ b) = Some (da ++ db).
Proof.
  intros Ha. revert da. induction Ha as [|c q Hc _ IH|h l x y q Hh Hl _ _ _ _ _ IH];
    intros da Hda Hdb; cbn in Hda |- *.
  - by simplify_eq.
  - rewrite decide_False in * by auto with baffle.
    apply fmap_Some in Hda as (d' & Hd' & ->). by rewrite (IH d').
  - rewrite Hh, Hl in *. cbn in *. apply fmap_Some in Hda as (d' & Hd' & ->).
    by rewrite (IH d').
Qed.

Lemma canonical_form_app_inv a b :
  canonical_form (a ++ "/" :: b) → canonical_form a ∧ canonical_form b.
Proof.
  remember (a ++ "/" :: b) as s eqn:Hs. intros Hf. revert a b Hs.
  induction Hf as [|c q Hc Hq IH|h l x y q Hh Hl Uh Ul Hd Hu Hq IH]; intros a b Hs.
  - by destruct a.
  - destruct a as [|c' a]; simplify_list_eq; [split; [constructor|done]|].
    destruct (IH a b eq_refl). split; [by constructor|done].
  - apply hex_value_not_slash in Hh as Hh', Hl as Hl'.
    destruct a as [|? [|? [|? a]]]; simplify_list_eq; try done.
    destruct (IH a b eq_refl). split; [by econstructor|done].
Qed.

Lemma recursive_match_confined base raw path :
  canonicalize_request_path raw = Ok path →
  matches_path_pattern ((base ++ ["/"]) ++ lit "**") path = true →
  ∃ dbase d tail, pct_decode base = Some dbase ∧ pct_decode path = Some d ∧
    split "/" d = split "/" dbase ++ tail ∧ lit "." ∉ split "/" d ∧ lit ".." ∉ split "/" d.
Proof.
  intros Hpath Hm. pose proof (canonicalize_path_form _ _ Hpath) as Hf.
  destruct (canonicalize_path_decoded_safe _ _ Hpath) as (d & _ & Hd & _ & H1 & H2 & _).
  unfold matches_path_pattern in Hm. rewrite strip_star_recursive in Hm.
  apply starts_with_true in Hm as [rest ->]. rewrite <-app_assoc in *. cbn in *.
  apply canonical_form_app_inv in Hf as [Hb Hr].
  destruct (canonical_form_decodes _ Hb) as [db Hdb].
  destruct (canonical_form_decodes _ Hr) as [dr Hdr].
  assert (pct_decode (base ++ "/" :: rest) = Some (db ++ "/" :: dr)) as E.
  { apply pct_decode_app; [done..|]. cbn. by rewrite Hdr. }
  rewrite E in Hd |- *. simplify_eq. exists db, (db ++ "/" :: dr), (split "/" dr).
  by rewrite split_app_sep in *.
Qed.

(** A request that matches a validated recursive pattern stays in that
    pattern's subtree: after decoding, its segments extend the segments of the
    pattern's base, and none of them is a dot segment. *)
Theorem recursive_pattern_confines input pre raw path :
  validate_path input = Ok (pre ++ lit "**") →
  canonicalize_request_path raw = Ok path →
  matches_path_pattern (pre ++ lit "**") path = true →
  ∃ base dbase d tail, pre = base ++ ["/"] ∧
    pct_decode base = Some dbase ∧ pct_decode path = Some d ∧
    split "/" d = split "/" dbase ++ tail ∧ lit "." ∉ split "/" d ∧ lit ".." ∉ split "/" d.
Proof.
  intros (q & Hq & [Heq|[Heq [base Hk]]])%validate_path_valid Hpath Hm.
  - exfalso. apply (canonical_no_star q Hq). rewrite <-Heq. set_solver.
  - apply (inj (.++ lit "**")) in Heq as <-. subst pre.
    destruct (recursive_match_confined base raw path Hpath Hm) as (db & d & tail & ?).
    by exists base, db, d, tail.
Qed.

Lemma recursive_pattern_confines_witness :
  ∃ base dbase d tail, lit "/v1/" = base ++ ["/"] ∧
    pct_decode base = Some dbase ∧ pct_decode (lit "/v1/a/b") = Some d ∧
    split "/" d = split "/" dbase ++ tail ∧ lit "." ∉ split "/" d ∧ lit ".." ∉ split "/" d.
Proof.
  apply (recursive_pattern_confines (lit "/v1/**") (lit "/v1/") (lit "/v1/%61/b"));
    vm_compute; reflexivity.
Defined.
