(* ===== verification/DnsName.v ===== *)
(** DNS host names (crates/baffle-client/src/policy.rs:
    [normalize_dns_name], used for every rule key and every authority).

    [host.parse::<IpAddr>()] is the Standard Library's address parser and is
    modelled below. [url::Host::parse] belongs to the [url] crate: it is the
    class [UrlHost], and [UrlHostLaws] states what the program relies on (a
    name that is already lowercase ASCII letters, digits, hyphens and dots is
    serialised unchanged). *)

From S2P Require Import Prelude RustStr.
From stdpp Require Import options.
Local Open Scope char_scope.

(** ** [core::net::parser] *)

Section address_parser.
Local Open Scope N_scope.

Definition to_digit (radix : N) (c : ascii) : option N :=
  let d := if is_ascii_digit c then Some (code c - 48)
           else if in_range 97 122 c then Some (code c - 87)
           else if in_range 65 90 c then Some (code c - 55)
           else None in
  match d with Some n => if n <? radix then Some n else None | None => None end.

Fixpoint read_digits (radix : N) (max_digits : nat) (acc : N) (count : nat) (s : str)
    : option (N * nat * str) :=
  match s with
  | c :: s' =>
      match to_digit radix c with
      | Some d =>
          if (max_digits <? S count)%nat then None
          else read_digits radix max_digits (acc * radix + d) (S count) s'
      | None => Some (acc, count, s)
      end
  | [] => Some (acc, count, [])
  end.

(** [Parser::read_number] into an integer type whose greatest value is [max]. *)
Definition read_number (radix : N) (max_digits : nat) (allow_zero_prefix : bool) (max : N)
    (s : str) : option (N * str) :=
  let has_leading_zero := match s with c :: _ => bool_decide (c = "0") | [] => false end in
  match read_digits radix max_digits 0 0 s with
  | None => None
  | Some (result, count, rest) =>
      if (count =? 0)%nat then None
      else if negb allow_zero_prefix && has_leading_zero && (1 <? count)%nat then None
      else if max <? result then None
      else Some (result, rest)
  end.

Definition read_given_char (c : ascii) (s : str) : option str :=
  match s with c' :: s' => if decide (c = c') then Some s' else None | [] => None end.

Definition read_separator {A} (sep : ascii) (index : nat) (inner : str → option (A * str))
    (s : str) : option (A * str) :=
  match index with
  | O => inner s
  | S _ => s' ← read_given_char sep s; inner s'
  end.

Definition read_octet (index : nat) (s : str) : option (N * str) :=
  read_separator "." index (read_number 10 3 false 255) s.

Definition read_ipv4_addr (s : str) : option (list N * str) :=
  '(a, s1) ← read_octet 0 s; '(b, s2) ← read_octet 1 s1;
  '(c, s3) ← read_octet 2 s2; '(d, s4) ← read_octet 3 s3;
  Some ([a; b; c; d], s4).

(** [read_groups] with [left] slots of the slice still to fill. *)
Fixpoint read_groups (left i : nat) (s : str) : nat * bool * str :=
  match left with
  | O => (i, false, s)
  | S left' =>
      let ipv4 := match left' with
                  | O => None
                  | S _ => read_separator ":" i read_ipv4_addr s
                  end in
      match ipv4 with
      | Some (_, s') => (i + 2, true, s')%nat
      | None =>
          match read_separator ":" i (read_number 16 4 true 65535) s with
          | Some (_, s') => read_groups left' (S i) s'
          | None => (i, false, s)
          end
      end
  end.

Definition read_ipv6_addr (s : str) : option str :=
  let '(head_size, head_ipv4, s1) := read_groups 8 0 s in
  if (head_size =? 8)%nat then Some s1
  else if head_ipv4 : bool then None
  else
    s2 ← read_given_char ":" s1; s3 ← read_given_char ":" s2;
    let '(_, _, s4) := read_groups (8 - (head_size + 1)) 0 s3 in
    Some s4.

(** [s.parse::<IpAddr>().is_ok()]: the whole input is an address. *)
Definition parse_ip_addr (s : str) : bool :=
  match read_ipv4_addr s with
  | Some (_, rest) => str_eqb rest []
  | None => match read_ipv6_addr s with Some rest => str_eqb rest [] | None => false end
  end.
End address_parser.

Example parse_ip_ex :
  parse_ip_addr <$> [lit "127.0.0.1"; lit "::1"; lit "1:2:3:4:5:6:7:8"; lit "::ffff:10.0.0.1";
                     lit "127.1"; lit "01.2.3.4"; lit "256.1.1.1"; lit "1:2:3:4:5:6:7::8"; lit "a.b"]
  = [true; true; true; true; false; false; false; false; false].
Proof. vm_compute. reflexivity. Qed.

(** ** [url::Host] *)

Inductive Host := HostDomain (domain : str) | HostIpv4 | HostIpv6.

(** [Host::parse]; [None] is its [Err]. *)
Class UrlHost := host_parse : str → option Host.

Definition ldh_char (c : ascii) : bool :=
  is_ascii_digit c || is_ascii_lower c || bool_decide (c = "-") || bool_decide (c = ".").

Class UrlHostLaws `{UrlHost} : Prop :=
  host_parse_ldh : ∀ h d,
    forallb ldh_char h = true → host_parse h = Some (HostDomain d) → d = h.

(** ** The normaliser *)

Inductive dns_error :=
| DnsNotExact          (* must be an exact DNS hostname *)
| DnsAddressOrWildcard (* must be an exact DNS hostname, not an IP address or wildcard *)
| DnsInvalidLabel      (* contains an invalid DNS label *)
| DnsInvalidName.      (* must be a valid exact DNS hostname *)
#[export] Instance dns_error_eq_dec : EqDecision dns_error.
Proof. solve_decision. Defined.

Definition label_invalid (label : str) : bool :=
  str_eqb label []
  || (63 <? length label)%nat
  || starts_with ["-"] label
  || ends_with ["-"] label
  || negb (forallb (λ byte, is_ascii_alphanumeric byte || bool_decide (byte = "-")) label).

Definition normalize_dns_name `{UrlHost} (input : str) : result dns_error str :=
  if str_eqb input [] || contains_char "*" input then Err DnsNotExact
  else
    let input := to_ascii_lowercase input in
    let host := default input (strip_suffix ["."] input) in
    if str_eqb host [] || (253 <? length host)%nat || parse_ip_addr host || negb (is_ascii host)
    then Err DnsAddressOrWildcard
    else if existsb label_invalid (split "." host) then Err DnsInvalidLabel
    else
      match host_parse host with
      | Some (HostDomain domain) => Ok domain
      | Some (HostIpv4 | HostIpv6) => Err DnsAddressOrWildcard
      | None => Err DnsInvalidName
      end.

(** The [url] crate's documented behaviour is satisfiable: a parser that
    treats a numeric last label as an IPv4 address and keeps other names. *)
Definition plain_host_parse : UrlHost := λ h,
  match last (split "." h) with
  | Some l => if forallb is_ascii_digit l then Some HostIpv4 else Some (HostDomain h)
  | None => None
  end.

Lemma plain_host_laws : @UrlHostLaws plain_host_parse.
Proof. intros h d _. unfold host_parse, plain_host_parse. repeat case_match; naive_solver. Qed.

Example normalize_ex1 :
  @normalize_dns_name plain_host_parse (lit "EXAMPLE.COM.") = Ok (lit "example.com").
Proof. vm_compute. reflexivity. Qed.
Example normalize_ex2 :
  (λ s, is_ok (@normalize_dns_name plain_host_parse s)) <$>
    [lit "localhost"; lit ""; lit "*.example.com"; lit "127.0.0.1"; lit "127.1"; lit "2130706433";
     lit "::1"; lit "bad..example"; lit "-bad.example"; lit "bad-.example"; lit "bad_name.example"]
  = [true; false; false; false; false; false; false; false; false; false; false].
Proof. vm_compute. reflexivity. Qed.

(** ** The set of normalised names *)

Record dns_label (l : str) : Prop := {
  label_nonempty : l ≠ [];
  label_length : length l ≤ 63;
  label_first : ¬ ["-"] `prefix_of` l;
  label_last : ¬ ["-"] `suffix_of` l;
  label_chars : ∀ c, c ∈ l → is_ascii_alphanumeric c = true ∨ c = "-";
}.

Record dns_name (h : str) : Prop := {
  name_length : length h ≤ 253;
  name_labels : ∀ l, l ∈ split "." h → dns_label l;
  name_lower : to_ascii_lowercase h = h;
  name_not_ip : parse_ip_addr h = false;
}.

Lemma label_invalid_false l : label_invalid l = false ↔ dns_label l.
Proof.
  unfold label_invalid. rewrite !orb_false_iff, negb_false_iff, forallb_elem, Nat.ltb_ge.
  unfold str_eqb, starts_with, ends_with. rewrite !bool_decide_eq_false.
  setoid_rewrite orb_true_iff. setoid_rewrite bool_decide_eq_true.
  split; [by intros [[[[??]?]?]?]|by intros []].
Qed.

Lemma dns_name_nonempty h : dns_name h → h ≠ [].
Proof. intros Hn ->. destruct (label_nonempty [] (name_labels _ Hn [] ltac:(set_solver))). done. Qed.

(** No normalised name ends in a dot. *)
Lemma dns_name_no_final_dot h : dns_name h → strip_suffix ["."] h = None.
Proof.
  intros Hn. destruct (strip_suffix ["."] h) as [k|] eqn:Hs; [|done].
  apply strip_suffix_Some in Hs as ->.
  destruct (label_nonempty [] (name_labels _ Hn [] ltac:(rewrite split_app_sep; set_solver))). done.
Qed.

Lemma ldh_of_label_char c :
  is_ascii_alphanumeric c = true ∨ c = "-" → ascii_lower c = c → ldh_char c = true.
Proof. byte_decide c. Qed.

Lemma ascii_of_label_char c : ldh_char c = true → is_ascii_byte c = true.
Proof. byte_decide c. Qed.

Lemma elem_of_join_split d s c : c ∈ s → c = d ∨ ∃ w, w ∈ split d s ∧ c ∈ w.
Proof.
  induction s as [|x s IH]; [set_solver|]. intros Hc. cbn.
  destruct (decide (x = d)) as [->|Hne].
  - apply elem_of_cons in Hc as [->|Hc]; [by left|].
    destruct (IH Hc) as [?|(w&?&?)]; [by left|right; exists w; set_solver].
  - pose proof (split_nonempty d s). destruct (split d s) as [|w ws]; [done|].
    apply elem_of_cons in Hc as [->|Hc]; [right; exists (x :: w); set_solver|].
    destruct (IH Hc) as [?|(v&[->|?]%elem_of_cons&?)]; [by left| |].
    + right. exists (x :: w). set_solver.
    + right. exists v. set_solver.
Qed.

Lemma lowercase_fixed_char s c : to_ascii_lowercase s = s → c ∈ s → ascii_lower c = c.
Proof.
  unfold to_ascii_lowercase. intros Hs [i Hi]%list_elem_of_lookup.
  assert ((ascii_lower <$> s) !! i = s !! i) as E by by rewrite Hs.
  rewrite list_lookup_fmap, Hi in E. by simplify_eq/=.
Qed.

Lemma dns_name_ldh h : dns_name h → forallb ldh_char h = true.
Proof.
  intros Hn. apply forallb_elem. intros c Hc.
  destruct (elem_of_join_split "." h c Hc) as [->|(w & Hw & Hcw)]; [done|].
  apply ldh_of_label_char; [by eapply label_chars; [apply (name_labels _ Hn)|]|].
  by eapply lowercase_fixed_char; [apply Hn|].
Qed.

Lemma dns_name_no_star h : dns_name h → "*" ∉ h.
Proof. intros Hn Hin. by apply (proj1 (forallb_elem _ _) (dns_name_ldh h Hn)) in Hin. Qed.

Lemma dns_name_ascii h : dns_name h → is_ascii h = true.
Proof.
  intros Hn. apply forallb_elem. intros c Hc. apply ascii_of_label_char.
  by apply (proj1 (forallb_elem _ _) (dns_name_ldh h Hn)).
Qed.
#[export] Hint Resolve dns_name_nonempty dns_name_no_star dns_name_ascii : baffle.

Lemma lowercase_no_star s : "*" ∉ to_ascii_lowercase s → "*" ∉ s.
Proof. intros Hn Hin. apply Hn, elem_of_lowercase. by exists "*". Qed.

Section normalize.
Context `{UrlHost} `{!UrlHostLaws}.

(** The branch analysis of a successful normalisation. *)
Lemma normalize_dns_name_Ok input d :
  normalize_dns_name input = Ok d ↔
  dns_name d ∧ host_parse d = Some (HostDomain d) ∧
  (to_ascii_lowercase input = d ∨ to_ascii_lowercase input = d ++ ["."]).
Proof using Type*.
  unfold normalize_dns_name. set (low := to_ascii_lowercase input).
  remember (default low (strip_suffix ["."] low)) as host eqn:Hdef.
  assert (low = host ∨ low = host ++ ["."]) as Hhost.
  { destruct (strip_suffix ["."] low) as [k|] eqn:E; subst host; [right|by left].
    by apply strip_suffix_Some in E. }
  assert (to_ascii_lowercase host = host) as Hlow.
  { pose proof (to_ascii_lowercase_idem input) as E. fold low in E.
    destruct Hhost as [<-|E2]; [done|]. rewrite E2, to_ascii_lowercase_app in E.
    by apply (inj (.++ ["."])) in E. }
  split.
  - clear Hdef. intros Hok. repeat case_match; simplify_eq. bool_prop.
    match goal with H : existsb _ _ = false |- _ => rewrite existsb_elem_false in H end.
    assert (dns_name host) as Hn.
    { constructor; [by apply Nat.ltb_ge| |done|done].
      intros l Hl. apply label_invalid_false. auto. }
    assert (d = host) as -> by eauto using host_parse_ldh, dns_name_ldh. auto.
  - intros (Hn & Hp & Hin).
    assert (host = d) as ->.
    { destruct Hin as [Heq|Heq].
      - by rewrite Hdef, Heq, dns_name_no_final_dot.
      - by rewrite Hdef, (proj2 (strip_suffix_Some ["."] low d) Heq). }
    assert (contains_char "*" input = false) as ->.
    { apply contains_char_false, lowercase_no_star. fold low.
      pose proof (dns_name_no_star d Hn). destruct Hin as [->| ->]; set_solver. }
    assert (str_eqb input [] = false) as ->.
    { apply bool_decide_eq_false. intros ->. pose proof (dns_name_nonempty d Hn).
      destruct Hin as [<-|Heq]; [done|by destruct d]. }
    assert (str_eqb d [] = false) as -> by (apply bool_decide_eq_false; auto with baffle).
    rewrite (proj2 (Nat.ltb_ge 253 (length d))), name_not_ip, dns_name_ascii by apply Hn || done.
    cbn. rewrite (proj2 (existsb_elem_false _ _)); [by rewrite Hp|].
    intros l Hl. by apply label_invalid_false, Hn.
Qed.

(** [normalize_dns_name] accepts exactly the names that spell a
    well-formed lowercase DNS name (labels of 1 to 63 letters, digits and inner
    hyphens, 253 bytes at most, no IP address) that the URL parser takes as a
    domain, in any letter case and with at most one final dot; it returns that
    name. *)
Theorem normalize_dns_name_spec input d :
  normalize_dns_name input = Ok d ↔
  dns_name d ∧ host_parse d = Some (HostDomain d) ∧
  (to_ascii_lowercase input = d ∨ to_ascii_lowercase input = d ++ ["."]).
Proof using Type*. apply normalize_dns_name_Ok. Qed.

Lemma normalize_idem input d :
  normalize_dns_name input = Ok d → normalize_dns_name d = Ok d.
Proof using Type*.
  rewrite !normalize_dns_name_Ok. intros (Hn & Hp & _). split_and!; [done..|].
  left. apply Hn.
Qed.

Lemma normalize_dns_name_dns input d : normalize_dns_name input = Ok d → dns_name d.
Proof using Type*. by intros (? & _ & _)%normalize_dns_name_Ok. Qed.

(** Letter case and one final dot do not matter. *)
Lemma normalize_spelling a b d :
  normalize_dns_name a = Ok d →
  to_ascii_lowercase b = to_ascii_lowercase a ∨
  to_ascii_lowercase b = d ∨ to_ascii_lowercase b = d ++ ["."] →
  normalize_dns_name b = Ok d.
Proof using Type*.
  rewrite !normalize_dns_name_Ok. intros (Hn & Hp & Ha) [->|Hb]; auto.
Qed.
End normalize.

Lemma normalize_dns_name_spec_witness :
  @normalize_dns_name plain_host_parse (lit "API.Example.COM.") = Ok (lit "api.example.com") ∧
  dns_name (lit "api.example.com").
Proof.
  split; [vm_compute; reflexivity|].
  apply (@normalize_dns_name_spec plain_host_parse plain_host_laws (lit "API.Example.COM.")).
  vm_compute. reflexivity.
Defined.
