(* ===== verification/Identifiers.v ===== *)
(** The identifier validators of crates/baffle-client/src/policy.rs
    (configuration names, secret names, socket names, header names, Basic
    user names) and of src/config/protocol.rs (session identifiers).

    The first three are later joined to a directory the daemon owns; the
    theorem of this file is that no accepted name can leave that directory. *)

From S2P Require Import Prelude RustStr.
From stdpp Require Import options.
Local Open Scope char_scope.

Definition MAX_SESSION_CONFIG_NAME_BYTES : nat := 1024.
Definition MAX_SESSION_CONFIG_COMPONENT_BYTES : nat := 255.

(** ** Operations *)

Definition dot_component (component : str) : bool :=
  str_eqb component [] || str_eqb component (lit ".") || str_eqb component (lit "..").

(** [validate_session_config_name]; [false] is its error. *)
Definition validate_session_config_name (name : str) : bool :=
  negb (str_eqb name []
        || (MAX_SESSION_CONFIG_NAME_BYTES <? length name)%nat
        || negb (ends_with (lit ".toml") name)
        || contains_any ["\"; ":"] name
        || has_control_char name
        || existsb (λ component, dot_component component
                      || (MAX_SESSION_CONFIG_COMPONENT_BYTES <? length component)%nat)
             (split "/" name)).

Definition secret_char (byte : ascii) : bool :=
  is_ascii_alphanumeric byte || contains_char byte ["."; "_"; "-"].

Definition validate_secret_id (input : str) : bool :=
  negb (str_eqb input []
        || (64 <? length input)%nat
        || negb (forallb secret_char input)
        || negb (match input with byte :: _ => is_ascii_alphanumeric byte | [] => false end)
        || match last input with
           | Some character => contains_char character ["."; "-"; "_"]
           | None => false
           end
        || contains_str (lit "..") input).

Inductive socket_name_error := SocketNotRelative | SocketDotComponent | SocketTooLong.
#[export] Instance socket_name_error_eq_dec : EqDecision socket_name_error.
Proof. solve_decision. Defined.

Definition validate_socket_name (input : str) : result socket_name_error str :=
  if str_eqb input [] || starts_with ["/"] input || contains_any ["\"; "000"] input
  then Err SocketNotRelative
  else if existsb dot_component (split "/" input) then Err SocketDotComponent
  else if (107 <? length input)%nat then Err SocketTooLong
  else Ok input.

Definition PROHIBITED : list str := lit <$>
  ["connection"; "content-length"; "forwarded"; "host"; "http2-settings"; "keep-alive";
   "proxy-authenticate"; "proxy-authorization"; "proxy-connection"; "te"; "trailer";
   "transfer-encoding"; "upgrade"; "x-forwarded-for"; "x-forwarded-host"; "x-forwarded-port";
   "x-forwarded-proto"; "x-original-host"; "x-original-url"; "x-real-ip"; "x-rewrite-url"]%string.

Inductive header_error := HeaderInvalidName | HeaderProhibited.
#[export] Instance header_error_eq_dec : EqDecision header_error.
Proof. solve_decision. Defined.

Definition header_char (byte : ascii) : bool :=
  is_ascii_alphanumeric byte || contains_char byte (lit "!#$%&'*+-.^_`|~").

Definition validate_header (input : str) : result header_error str :=
  if str_eqb input [] || negb (forallb header_char input) then Err HeaderInvalidName
  else if existsb (str_eqb (to_ascii_lowercase input)) PROHIBITED then Err HeaderProhibited
  else Ok input.

Definition validate_basic_username (input : str) : bool :=
  negb (str_eqb input [] || contains_char ":" input
        || negb (forallb (in_range 32 126) input)).

(** src/config/protocol.rs *)
Definition validate_session_id (id : str) : bool :=
  negb (str_eqb id [] || (128 <? length id)%nat
        || negb (forallb (λ byte, is_ascii_alphanumeric byte || contains_char byte ["-"; "_"]) id)).

Example config_name_ex :
  validate_session_config_name <$>
    [lit "cladding/github.toml"; lit ""; lit "/etc/passwd.toml"; lit "../outside.toml";
     lit "cladding/../outside.toml"; lit "cladding//github.toml"; lit "cladding\github.toml";
     lit "cladding/name.txt"]
  = [true; false; false; false; false; false; false; false].
Proof. vm_compute. reflexivity. Qed.

(** ** Names that stay below a directory *)

(** One path component that the operating system resolves to a direct child
    of the directory it is looked up in. *)
Record child_component (c : str) : Prop := {
  child_nonempty : c ≠ [];
  child_no_slash : "/" ∉ c;
  child_not_dot : c ≠ lit ".";
  child_not_dotdot : c ≠ lit "..";
}.

(** A relative name all of whose components are such children. *)
Definition descends (name : str) : Prop := Forall child_component (split "/" name).

Lemma dot_component_false c :
  "/" ∉ c → dot_component c = false ↔ child_component c.
Proof.
  intros Hs. unfold dot_component, str_eqb. rewrite !orb_false_iff, !bool_decide_eq_false.
  split; [by intros [[??]?]|by intros []].
Qed.

Lemma descends_split name :
  (∀ c, c ∈ split "/" name → dot_component c = false) → descends name.
Proof.
  intros H. apply Forall_forall. intros c Hc. apply dot_component_false; [|auto].
  by eapply split_no_sep.
Qed.

Lemma validate_session_config_name_descends name :
  validate_session_config_name name = true → descends name.
Proof.
  unfold validate_session_config_name. intros Hv. bool_prop.
  match goal with H : existsb _ _ = false |- _ => rewrite existsb_elem_false in H end.
  apply descends_split. intros c Hc.
  match goal with H : ∀ x, _ → _ = false |- _ => specialize (H c Hc) end.
  by bool_prop.
Qed.

Lemma validate_socket_name_descends input name :
  validate_socket_name input = Ok name → name = input ∧ descends name ∧ length name ≤ 107.
Proof.
  unfold validate_socket_name. intros Hv. res_inv. bool_prop.
  match goal with H : existsb _ _ = false |- _ => rewrite existsb_elem_false in H end.
  split_and!; [done|by apply descends_split|by apply Nat.ltb_ge].
Qed.

Lemma secret_char_no_slash c : secret_char c = true → c ≠ "/" ∧ c ≠ "000".
Proof. byte_decide c. Qed.

Lemma validate_secret_id_component name :
  validate_secret_id name = true → child_component name ∧ "000" ∉ name ∧ length name ≤ 64.
Proof.
  unfold validate_secret_id. intros Hv. str_prop.
  match goal with H : forallb _ _ = true |- _ => rewrite forallb_elem in H; rename H into Hc end.
  split_and!; [constructor| |by apply Nat.ltb_ge].
  - done.
  - intros Hin. by apply Hc, secret_char_no_slash in Hin as [].
  - intros ->. done.
  - intros ->. done.
  - intros Hin. by apply Hc, secret_char_no_slash in Hin as [].
Qed.

(** A name the daemon joins to one of its directories names something
    below that directory: secret names are a single plain component, socket
    names and configuration names are sequences of plain components, with no
    empty, [.] or [..] component and no separator hidden in one. *)
Theorem validated_names_descend :
  (∀ name, validate_secret_id name = true → child_component name ∧ "000" ∉ name) ∧
  (∀ input name, validate_socket_name input = Ok name → descends name) ∧
  (∀ name, validate_session_config_name name = true → descends name).
Proof.
  split_and!.
  - intros name Hn. by destruct (validate_secret_id_component name Hn) as (? & ? & _).
  - intros input name Hn. by destruct (validate_socket_name_descends input name Hn) as (_ & ? & _).
  - apply validate_session_config_name_descends.
Qed.

Lemma validated_names_descend_witness :
  child_component (lit "api-token") ∧ descends (lit "cladding/github.sock") ∧
  descends (lit "cladding/github.toml").
Proof.
  destruct validated_names_descend as (Hs & Hk & Hc). split_and!.
  - by apply Hs.
  - by apply (Hk (lit "cladding/github.sock")).
  - by apply Hc.
Defined.

Lemma validate_header_Ok input h :
  validate_header input = Ok h ↔
  h = input ∧ input ≠ [] ∧ forallb header_char input = true ∧ to_ascii_lowercase input ∉ PROHIBITED.
Proof.
  unfold validate_header.
  assert (existsb (str_eqb (to_ascii_lowercase input)) PROHIBITED = false ↔
          to_ascii_lowercase input ∉ PROHIBITED) as Hp.
  { rewrite existsb_elem_false. unfold str_eqb. setoid_rewrite bool_decide_eq_false. naive_solver. }
  split.
  - intros Hv. res_inv. str_prop. split_and!; [done..|by apply Hp].
  - intros (-> & Hne & -> & Hn). apply Hp in Hn as ->.
    unfold str_eqb. by rewrite bool_decide_eq_false_2.
Qed.
