(* ===== verification/SessionDoc.v ===== *)
(** Validation of a session document
    (crates/baffle-client/src/policy.rs: [validate_session_document] and what
    it calls).

    Deserialisation of the TOML text into the raw document is the [toml]
    crate's; the model starts from the raw document, whose fields are the
    source's [Raw*] structures with serde's defaults applied. The theorems say
    which documents are accepted and that an accepted one is a well-formed
    policy ([session_wf]), the invariant on which authorisation relies. *)

From S2P Require Import Prelude RustStr BTree PolicyTypes UrlPath DnsName Identifiers.
From stdpp Require Import options.

(** ** The raw document *)

Record RawHeaderInjection := mkRawHeaderInjection {
  ri_header : str;
  ri_secret : str;
  ri_format : InjectionFormat;
  ri_username : option str;
}.

Record RawNamedRule := mkRawNamedRule {
  rn_mode : option RuleMode;
  rn_ports : list N;
  rn_paths : option (list str);
  rn_inject : option (list RawHeaderInjection);
}.

(** [default_ports], the value of an absent [ports] field. *)
Definition default_ports : list N := [443%N].

(** [RawRules]: a table of named rules, or any other TOML value. *)
Inductive RawRules := RulesNamed (rules : gmap str RawNamedRule) | RulesOther.

Record RawCredentials := mkRawCredentials {
  rc_default_mode : option CredentialMode;
  rc_overrides : gmap str CredentialMode;
}.

Record RawSessionConfig := mkRawSessionConfig {
  raw_version : option Z;
  raw_persistent : bool;
  raw_socket_name : option str;
  raw_unmatched : option str;
  raw_rules : option RawRules;
  raw_credentials : option RawCredentials;
  raw_unsupported_fields : list str;
}.

Definition SESSION_CONFIG_VERSION : Z := 2.

(** ** Errors: one constructor per message, with the indices it mentions *)

Inductive rule_error :=
| RuleHost (e : dns_error)
| RuleDuplicateHost
| RulePortsEmpty
| RulePortZero
| RulePortsDuplicate
| RuleTunnelFeatures
| RulePath (index : nat) (e : path_error)
| RulePathsOverlap
| RuleHeader (index : nat) (e : header_error)
| RuleHeaderDuplicate (index : nat)
| RuleSecret (index : nat)
| RuleUsername (index : nat)
| RuleUsernameRequired (index : nat)
| RuleUsernameForbidden (index : nat).

Inductive session_config_error :=
| DocToml
| DocUnsupportedVersion
| DocMissingVersion
| DocInvalid
| DocUnmatched
| DocRule (index : nat) (e : rule_error)
| DocSocketName (e : socket_name_error)
| DocCredentialName
| DocCredentialDuplicate.

#[export] Instance rule_error_eq_dec : EqDecision rule_error.
Proof. solve_decision. Defined.
#[export] Instance session_config_error_eq_dec : EqDecision session_config_error.
Proof. solve_decision. Defined.

(** ** Rules *)

(** The loop over [rule.ports] with its [unique_ports] set. *)
Fixpoint validate_ports (unique_ports : list N) (ports : list N) : result rule_error unit :=
  match ports with
  | [] => Ok ()
  | port :: ports' =>
      if (port =? 0)%N then Err RulePortZero
      else if bool_decide (port ∈ unique_ports) then Err RulePortsDuplicate
      else validate_ports (port :: unique_ports) ports'
  end.

(** The loop over [rule.paths]; [paths] is the vector built so far. *)
Fixpoint validate_paths (paths : list str) (index : nat) (raw_paths : list str)
    : result rule_error (list str) :=
  match raw_paths with
  | [] => Ok paths
  | raw_path :: rest =>
      path ← map_err (RulePath index) (validate_path raw_path);
      if existsb (λ existing, paths_overlap existing path) paths then Err RulePathsOverlap
      else validate_paths (paths ++ [path]) (S index) rest
  end.

Definition validate_username (index : nat) (format : InjectionFormat) (username : option str)
    : result rule_error unit :=
  match format, username with
  | BasicPassword, Some username =>
      if validate_basic_username username then Ok () else Err (RuleUsername index)
  | BasicPassword, None => Err (RuleUsernameRequired index)
  | _, Some _ => Err (RuleUsernameForbidden index)
  | _, None => Ok ()
  end.

(** The loop over [rule.inject] with its set of lowercase header names. *)
Fixpoint validate_injections (headers : list str) (index : nat) (inject : list HeaderInjection)
    : result rule_error (list HeaderInjection) :=
  match inject with
  | [] => Ok []
  | injection :: rest =>
      header ← map_err (RuleHeader index) (validate_header (hi_header injection));
      if bool_decide (to_ascii_lowercase header ∈ headers) then Err (RuleHeaderDuplicate index)
      else if negb (validate_secret_id (hi_secret injection)) then Err (RuleSecret index)
      else
        _ ← validate_username index (hi_format injection) (hi_username injection);
        rest' ← validate_injections (to_ascii_lowercase header :: headers) (S index) rest;
        Ok (mkHeaderInjection header (hi_secret injection) (hi_format injection)
              (hi_username injection) :: rest')
  end.

Definition validate_rule (rule : HostRule) (has_intercept_features : bool)
    : result rule_error HostRule :=
  if bool_decide (hr_ports rule = []) then Err RulePortsEmpty
  else
    _ ← validate_ports [] (hr_ports rule);
    if bool_decide (hr_mode rule = Tunnel) && has_intercept_features
    then Err RuleTunnelFeatures
    else
      paths ← validate_paths [] 0 (hr_paths rule);
      inject ← validate_injections [] 0 (hr_inject rule);
      Ok (mkHostRule (hr_host rule) (hr_mode rule) (hr_ports rule) paths inject).

Definition injection_of_raw (raw : RawHeaderInjection) : HeaderInjection :=
  mkHeaderInjection (ri_header raw) (ri_secret raw) (ri_format raw) (ri_username raw).

Section validate.
Context `{UrlHost}.

(** One iteration of the loop of [validate_named_rules]. *)
Definition validate_named_rule (hosts : list str) (raw_host : str) (raw : RawNamedRule)
    : result rule_error (str * HostRule) :=
  host ← map_err RuleHost (normalize_dns_name raw_host);
  if bool_decide (host ∈ hosts) then Err RuleDuplicateHost
  else
    let has_intercept_features :=
      bool_decide (is_Some (rn_paths raw)) || bool_decide (is_Some (rn_inject raw)) in
    let mode := default (if has_intercept_features then Intercept else Tunnel) (rn_mode raw) in
    let paths := default [] (rn_paths raw) in
    let inject := injection_of_raw <$> default [] (rn_inject raw) in
    rule ← validate_rule (mkHostRule host mode (rn_ports raw) paths inject) has_intercept_features;
    Ok (host, rule).

Fixpoint validate_named_rules_from (hosts : list str) (rules : list HostRule) (index : nat)
    (raw_rules : list (str * RawNamedRule)) : result session_config_error (list HostRule) :=
  match raw_rules with
  | [] => Ok rules
  | (raw_host, raw) :: rest =>
      '(host, rule) ← map_err (DocRule index) (validate_named_rule hosts raw_host raw);
      validate_named_rules_from (host :: hosts) (rules ++ [rule]) (S index) rest
  end.

Definition validate_named_rules (raw_rules : gmap str RawNamedRule)
    : result session_config_error (list HostRule) :=
  validate_named_rules_from [] [] 0 (btree_iter raw_rules).

(** The loop over [raw.overrides]. *)
Fixpoint validate_overrides (modes : gmap str CredentialMode) (overrides : list (str * CredentialMode))
    : result session_config_error (gmap str CredentialMode) :=
  match overrides with
  | [] => Ok modes
  | (name, mode) :: rest =>
      if negb (validate_secret_id name) then Err DocCredentialName
      else if bool_decide (is_Some (modes !! name)) then Err DocCredentialDuplicate
      else validate_overrides (<[name := mode]> modes) rest
  end.

Definition validate_credentials (raw : option RawCredentials)
    : result session_config_error (option CredentialMode * gmap str CredentialMode) :=
  match raw with
  | None => Ok (None, ∅)
  | Some raw =>
      modes ← validate_overrides ∅ (btree_iter (rc_overrides raw));
      Ok (rc_default_mode raw, modes)
  end.

Definition validate_version (version : option Z) : result session_config_error unit :=
  match version with
  | Some version =>
      if (version =? SESSION_CONFIG_VERSION)%Z then Ok () else Err DocUnsupportedVersion
  | None => Err DocMissingVersion
  end.

Definition validate_unmatched (raw : option str) : result session_config_error UnmatchedHostPolicy :=
  let value := default (lit "deny") raw in
  if str_eqb value (lit "deny") then Ok UDeny
  else if str_eqb value (lit "tunnel") then Ok UTunnel
  else Err DocUnmatched.

Definition validate_session_document (raw : RawSessionConfig)
    : result session_config_error SessionConfig :=
  _ ← validate_version (raw_version raw);
  if negb (bool_decide (raw_unsupported_fields raw = [])) then Err DocInvalid
  else
    unmatched ← validate_unmatched (raw_unmatched raw);
    rules ← match raw_rules raw with
            | Some (RulesNamed rules) => Ok rules
            | Some RulesOther => Err DocInvalid
            | None => Ok ∅
            end;
    rules ← validate_named_rules rules;
    socket_name ← transpose ((λ n, map_err DocSocketName (validate_socket_name n)) <$> raw_socket_name raw);
    '(default_credential_mode, credential_modes) ← validate_credentials (raw_credentials raw);
    Ok (mkSessionConfig (raw_persistent raw) socket_name unmatched
          default_credential_mode credential_modes rules).

(** [SessionConfig::from_toml], over the [toml] crate's deserialiser. *)
Definition session_config_from_toml (toml_from_str : str → option RawSessionConfig) (input : str)
    : result session_config_error SessionConfig :=
  raw ← ok_or (toml_from_str input) DocToml;
  validate_session_document raw.
End validate.

(** ** Well-formed policies *)

Record injection_wf (i : HeaderInjection) : Prop := {
  iw_header : validate_header (hi_header i) = Ok (hi_header i);
  iw_secret : validate_secret_id (hi_secret i) = true;
  iw_username : validate_username 0 (hi_format i) (hi_username i) = Ok ();
}.

(** No canonical path is matched by two of the patterns. *)
Definition disjoint_patterns (paths : list str) : Prop :=
  ∀ i j p q, i < j → paths !! i = Some p → paths !! j = Some q → paths_overlap p q = false.

Record rule_wf `{UrlHost} (r : HostRule) : Prop := {
  rw_host : normalize_dns_name (hr_host r) = Ok (hr_host r);
  rw_ports_nonempty : hr_ports r ≠ [];
  rw_ports_unique : NoDup (hr_ports r);
  rw_ports_nonzero : (0%N) ∉ hr_ports r;
  rw_tunnel : hr_mode r = Tunnel → hr_paths r = [] ∧ hr_inject r = [];
  rw_paths : Forall valid_pattern (hr_paths r);
  rw_disjoint : disjoint_patterns (hr_paths r);
  rw_inject : Forall injection_wf (hr_inject r);
  rw_headers : NoDup (to_ascii_lowercase ∘ hi_header <$> hr_inject r);
}.

Record session_wf `{UrlHost} (sc : SessionConfig) : Prop := {
  sw_rules : Forall rule_wf (sc_rules sc);
  sw_hosts : NoDup (hr_host <$> sc_rules sc);
  sw_socket : ∀ n, sc_socket_name sc = Some n → validate_socket_name n = Ok n;
  sw_modes : ∀ n m, sc_credential_modes sc !! n = Some m → validate_secret_id n = true;
}.

(** ** The loops *)

Lemma validate_ports_Ok seen ports :
  validate_ports seen ports = Ok () ↔
  NoDup ports ∧ (0%N) ∉ ports ∧ ∀ p, p ∈ ports → p ∉ seen.
Proof.
  revert seen. induction ports as [|p ports IH]; intros seen; cbn.
  { split; [|done]. intros _. split_and!; [constructor|set_solver..]. }
  destruct (N.eqb_spec p 0) as [->|Hp]; [split; [done|set_solver]|].
  case_bool_decide; [split; [done|set_solver]|].
  rewrite IH, NoDup_cons. set_solver.
Qed.

Lemma validate_path_id v : valid_pattern v → validate_path v = Ok v.
Proof.
  intros (q & Hq & Hv).
  pose proof (canonical_no_star q Hq) as Hstar.
  pose proof Hq as (Hh & Hc & _)%canonicalize_path_Ok.
  assert (∀ t, (∀ c, c ∈ t → c = "*"%char) →
    negb (starts_with ["/"%char] (q ++ t)) || contains_any ["?"; "#"; "\"]%char (q ++ t) = false) as Hpre.
  { intros t Ht. apply orb_false_iff. split.
    - apply negb_false_iff, starts_with_true. destruct q; simplify_eq/=. by eexists.
    - apply contains_any_false. intros c [Hin|Hin]%elem_of_app; [auto|].
      apply Ht in Hin as ->. vm_compute. set_solver. }
  unfold validate_path. destruct Hv as [->|[-> [k ->]]].
  - rewrite <-(app_nil_r q), Hpre, app_nil_r by set_solver.
    destruct (strip_suffix (lit "/**") q) as [k|] eqn:Hs.
    { apply strip_suffix_Some in Hs as ->. destruct Hstar. set_solver. }
    rewrite (proj2 (contains_char_false _ _)) by done. by rewrite Hq.
  - rewrite Hpre by set_solver.
    replace ((k ++ ["/"%char]) ++ lit "**") with (k ++ lit "/**") by by rewrite <-app_assoc.
    rewrite (proj2 (strip_suffix_Some (lit "/**") _ k)) by done.
    assert ((if str_eqb k [] then lit "/" else take (length k + 1) (k ++ lit "/**"))
            = k ++ lit "/") as ->.
    { destruct (str_eqb k []) eqn:He; [by apply str_eqb_true in He as ->|].
      by rewrite take_app, take_ge, Nat.add_sub' by lia. }
    rewrite (proj2 (contains_char_false _ _)) by done.
    change (k ++ lit "/") with (k ++ ["/"%char]). rewrite Hq.
    cbn [mbind result_bind]. by rewrite <-app_assoc.
Qed.

Lemma disjoint_patterns_snoc l p :
  disjoint_patterns (l ++ [p]) ↔ disjoint_patterns l ∧ ∀ q, q ∈ l → paths_overlap q p = false.
Proof.
  unfold disjoint_patterns. split.
  - intros Hd. split.
    + intros i j x y Hij Hi Hj. apply (Hd i j); [done|by apply lookup_app_l_Some..].
    + intros q [i Hi]%list_elem_of_lookup. apply (Hd i (length l)).
      * by apply lookup_lt_Some in Hi.
      * by apply lookup_app_l_Some.
      * by rewrite list_lookup_middle.
  - intros [Hd Hp] i j x y Hij Hi Hj.
    apply lookup_app_Some in Hj as [Hj|[Hj1 Hj2]].
    + apply (Hd i j); [done| |done]. rewrite lookup_app_l in Hi; [done|].
      apply lookup_lt_Some in Hj. lia.
    + apply list_lookup_singleton_Some in Hj2 as [Hj2 <-].
      rewrite lookup_app_l in Hi by lia. eapply Hp, list_elem_of_lookup_2, Hi.
Qed.

Lemma validate_paths_wf paths index raw res :
  Forall valid_pattern paths → disjoint_patterns paths →
  validate_paths paths index raw = Ok res →
  Forall valid_pattern res ∧ disjoint_patterns res.
Proof.
  revert paths index. induction raw as [|r raw IH]; intros paths index Hf Hd Hv; cbn in Hv.
  { by simplify_eq. }
  res_inv. eapply IH; [| |done].
  - apply Forall_app. split; [done|]. constructor; [|done]. by eapply validate_path_valid.
  - apply disjoint_patterns_snoc. split; [done|]. by apply existsb_elem_false.
Qed.

Lemma validate_paths_id paths index raw :
  Forall valid_pattern raw → disjoint_patterns (paths ++ raw) →
  validate_paths paths index raw = Ok (paths ++ raw).
Proof.
  revert paths index. induction raw as [|r raw IH]; intros paths index Hf Hd; cbn.
  { by rewrite app_nil_r. }
  apply Forall_cons in Hf as [Hr Hf]. rewrite validate_path_id by done. cbn.
  rewrite (proj2 (existsb_elem_false _ _)).
  - rewrite IH; [by rewrite <-app_assoc|done|by rewrite <-app_assoc].
  - intros q [i Hi]%list_elem_of_lookup. apply (Hd i (length paths)).
    + by apply lookup_lt_Some in Hi.
    + by apply lookup_app_l_Some.
    + by rewrite list_lookup_middle.
Qed.

Lemma validate_username_index i j f u :
  validate_username i f u = Ok () → validate_username j f u = Ok ().
Proof. destruct f, u; cbn; try done. by destruct (validate_basic_username _). Qed.

Lemma validate_injections_wf headers index l res :
  validate_injections headers index l = Ok res →
  res = l ∧ Forall injection_wf res ∧ NoDup (to_ascii_lowercase ∘ hi_header <$> res) ∧
  ∀ i, i ∈ res → to_ascii_lowercase (hi_header i) ∉ headers.
Proof.
  revert headers index res. induction l as [|i l IH]; intros headers index res Hv; cbn in Hv.
  { simplify_eq. split_and!; [done|constructor|constructor|set_solver]. }
  res_inv. bool_prop.
  match goal with H : validate_header _ = Ok _ |- _ =>
    pose proof H as Hh; apply validate_header_Ok in H as (-> & _) end.
  match goal with H : validate_injections _ _ _ = Ok _ |- _ =>
    apply IH in H as (-> & Hf & Hnd & Hseen) end.
  match goal with H : validate_username _ _ _ = Ok ?x |- _ => destruct x end.
  split_and!.
  - by destruct i.
  - constructor; [|done]. constructor; [done..|]. by eapply validate_username_index.
  - cbn. apply NoDup_cons. split; [|done].
    intros (x & Hx & Hin)%list_elem_of_fmap. apply Hseen in Hin. set_solver.
  - intros x [->|Hx]%elem_of_cons; [done|]. apply Hseen in Hx. set_solver.
Qed.

Lemma validate_injections_id headers index l :
  Forall injection_wf l → NoDup (to_ascii_lowercase ∘ hi_header <$> l) →
  (∀ i, i ∈ l → to_ascii_lowercase (hi_header i) ∉ headers) →
  validate_injections headers index l = Ok l.
Proof.
  revert headers index. induction l as [|i l IH]; intros headers index Hf Hnd Hs; [done|].
  cbn in *. apply Forall_cons in Hf as [[H1 H2 H3] Hf]. apply NoDup_cons in Hnd as [Hi Hnd].
  rewrite H1. cbn. rewrite bool_decide_eq_false_2 by set_solver. rewrite H2. cbn.
  rewrite (validate_username_index 0) by done. cbn. rewrite IH; [by destruct i|done..|].
  intros x Hx. apply not_elem_of_cons. split; [|set_solver].
  intros Heq. apply Hi. apply list_elem_of_fmap. by exists x.
Qed.

Section session_doc.
Context `{UrlHost} `{!UrlHostLaws}.

Lemma validate_rule_wf r features res :
  normalize_dns_name (hr_host r) = Ok (hr_host r) →
  (features = false → hr_paths r = [] ∧ hr_inject r = []) →
  validate_rule r features = Ok res →
  rule_wf res ∧ hr_host res = hr_host r ∧ hr_mode res = hr_mode r ∧
  hr_ports res = hr_ports r ∧ hr_inject res = hr_inject r.
Proof using Type*.
  intros Hhost Hfeat Hv. unfold validate_rule in Hv. res_inv.
  assert (hr_mode r = Tunnel → features = false) as Htf.
  { intros Ht. rewrite bool_decide_eq_true_2 in * by done. done. }
  match goal with H : validate_ports _ _ = Ok ?x |- _ =>
    destruct x; apply validate_ports_Ok in H as (Hnd & Hz & _) end.
  match goal with H : validate_paths _ _ _ = Ok _ |- _ =>
    pose proof H as Hpaths; apply validate_paths_wf in H as [Hpf Hpd]; [|done..] end.
  match goal with H : validate_injections _ _ _ = Ok _ |- _ =>
    apply validate_injections_wf in H as (-> & Hif & Hind & _) end.
  bool_prop. split; [|done]. constructor; cbn; try done. intros Ht.
  destruct Hfeat as [Hp Hi]; [auto|]. rewrite Hp in Hpaths. cbn in Hpaths. by simplify_eq.
Qed.

Lemma validate_rule_id r features :
  rule_wf r → (hr_mode r = Tunnel → features = false) → validate_rule r features = Ok r.
Proof using Type*.
  intros [Hh Hne Hnd Hz Ht Hp Hd Hi Hhd] Hf. unfold validate_rule.
  rewrite bool_decide_eq_false_2 by done.
  rewrite (proj2 (validate_ports_Ok [] (hr_ports r))) by (split_and!; [done..|set_solver]).
  cbn [mbind result_bind].
  assert (bool_decide (hr_mode r = Tunnel) && features = false) as ->.
  { case_bool_decide; [rewrite Hf by done|]; done. }
  rewrite validate_paths_id by done. cbn [mbind result_bind].
  rewrite validate_injections_id by (done || set_solver). by destruct r.
Qed.

Lemma validate_named_rule_wf hosts raw_host raw host rule :
  validate_named_rule hosts raw_host raw = Ok (host, rule) →
  rule_wf rule ∧ hr_host rule = host ∧ host ∉ hosts.
Proof using Type*.
  unfold validate_named_rule. intros Hv. res_inv. bool_prop.
  match goal with H : validate_rule _ _ = Ok _ |- _ =>
    apply validate_rule_wf in H as (? & ? & _); cbn [hr_host hr_paths hr_inject] in * end.
  - done.
  - by eapply normalize_idem.
  - rewrite orb_false_iff, !bool_decide_eq_false. intros [Hp Hi].
    apply eq_None_not_Some in Hp as ->, Hi as ->. done.
Qed.

Lemma validate_named_rules_from_wf hosts rules index raw res :
  hosts ≡ₚ hr_host <$> rules → Forall rule_wf rules → NoDup (hr_host <$> rules) →
  validate_named_rules_from hosts rules index raw = Ok res →
  Forall rule_wf res ∧ NoDup (hr_host <$> res) ∧ length res = length rules + length raw.
Proof using Type*.
  revert hosts rules index. induction raw as [|[h r] raw IH]; intros hosts rules index Hh Hf Hnd Hv;
    cbn in Hv.
  { simplify_eq. split_and!; [done..|cbn; lia]. }
  res_inv. case_match. subst.
  match goal with H : validate_named_rule _ _ _ = Ok _ |- _ =>
    apply validate_named_rule_wf in H as (Hwf & Hhost & Hnew) end.
  match goal with H : validate_named_rules_from _ _ _ _ = Ok _ |- _ =>
    eapply IH in H as (? & ? & Hlen) end.
  - split_and!; [done..|]. rewrite Hlen, length_app. cbn. lia.
  - rewrite fmap_app, <-Hh. cbn. rewrite Hhost. by rewrite Permutation_cons_append.
  - apply Forall_app_2; [done|]. by apply Forall_singleton.
  - rewrite fmap_app. cbn. rewrite <-Permutation_cons_append. apply NoDup_cons.
    split; [by rewrite Hhost, <-Hh|done].
Qed.

Lemma validate_overrides_dom modes l res n m :
  (∀ n m, modes !! n = Some m → validate_secret_id n = true) →
  validate_overrides modes l = Ok res → res !! n = Some m → validate_secret_id n = true.
Proof using Type.
  revert modes. induction l as [|[k v] l IH]; intros modes Hm Hv Hn; cbn in Hv.
  { simplify_eq. eauto. }
  res_inv. bool_prop. eapply IH; [|done..]. intros n' m' Hn'.
  apply lookup_insert_Some in Hn' as [[<- _]|[_ ?]]; eauto.
Qed.

Lemma transpose_Ok {E A B} (f : A → result E B) o r :
  transpose (f <$> o) = Ok r → ∀ b, r = Some b → ∃ a, o = Some a ∧ f a = Ok b.
Proof using Type. destruct o as [a|]; cbn; [destruct (f a) eqn:?|]; naive_solver. Qed.

Lemma validate_session_document_session_wf raw sc :
  validate_session_document raw = Ok sc → session_wf sc.
Proof using Type*.
  unfold validate_session_document. intros Hv. res_inv. case_match. res_inv. bool_prop.
  match goal with H : validate_named_rules _ = Ok _ |- _ =>
    apply validate_named_rules_from_wf in H as (? & ? & _); [|done|constructor|constructor] end.
  constructor; cbn; [done..| |].
  - intros n Hn. match goal with H : transpose _ = Ok _ |- _ =>
      apply (transpose_Ok (λ n, _)) with (b := n) in H as (a & _ & Ha); [|done] end.
    res_inv. match goal with H : validate_socket_name a = Ok n |- _ =>
      pose proof H as Hs; apply validate_socket_name_descends in H as (-> & _) end. done.
  - intros n m Hn. unfold validate_credentials in *. destruct (raw_credentials raw); res_inv.
    eapply validate_overrides_dom; [|done..]. intros ??. by rewrite lookup_empty.
Qed.

(** C6: every accepted session document is a well-formed policy: one rule per
    normalised host, at least one port per rule and no port zero or repeated,
    canonical and pairwise disjoint path patterns, no path or header feature on
    a tunnel rule, header names that are legal, not routing-critical and
    distinct up to letter case, Basic user names exactly where required, and
    secret, credential and socket names that passed their validators. *)
Theorem validate_session_document_wf raw sc :
  validate_session_document raw = Ok sc → session_wf sc.
Proof using Type*. apply validate_session_document_session_wf. Qed.

(** Acceptance is fail-closed on the document's frame: only version 2,
    no unknown field, a rules table (or none), a known [unmatched] value; and
    the accepted policy carries the document's own lifetime and one rule for
    each entry of the table. *)
Lemma validate_session_document_frame raw sc :
  validate_session_document raw = Ok sc →
  raw_version raw = Some 2%Z ∧ raw_unsupported_fields raw = [] ∧ raw_rules raw ≠ Some RulesOther ∧
  (raw_unmatched raw = Some (lit "tunnel") ↔ sc_unmatched sc = UTunnel) ∧
  sc_persistent sc = raw_persistent raw ∧ sc_socket_name sc = raw_socket_name raw ∧
  length (sc_rules sc) = match raw_rules raw with Some (RulesNamed m) => size m | _ => 0 end.
Proof using Type*.
  unfold validate_session_document. intros Hv. res_inv. case_match. res_inv. bool_prop.
  match goal with H : validate_version ?v = Ok _ |- _ =>
    unfold validate_version in H; destruct v; res_inv end.
  match goal with H : (_ =? _)%Z = true |- _ => apply Z.eqb_eq in H as -> end.
  match goal with H : validate_named_rules _ = Ok _ |- _ =>
    apply validate_named_rules_from_wf in H as (_ & _ & Hlen); [|done|constructor|constructor] end.
  rewrite btree_iter_length in Hlen. cbn.
  split_and!; [done|done| | |done| |].
  - by destruct (raw_rules raw) as [[]|].
  - match goal with H : validate_unmatched _ = Ok _ |- _ => unfold validate_unmatched in H end.
    destruct (raw_unmatched raw) as [u|]; cbn in *; res_inv; str_prop; subst; naive_solver.
  - destruct (raw_socket_name raw) as [n|]; cbn in *; [|by simplify_eq].
    destruct (validate_socket_name n) eqn:Hs; cbn in *; simplify_eq.
    by apply validate_socket_name_descends in Hs as (-> & _).
  - destruct (raw_rules raw) as [[]|]; res_inv; by rewrite Hlen.
Qed.
End session_doc.

(** A document with one intercept rule and one tunnel rule. *)
Definition example_raw : RawSessionConfig :=
  mkRawSessionConfig (Some 2%Z) true (Some (lit "cladding/github.sock")) (Some (lit "tunnel"))
    (Some (RulesNamed (<[lit "Example.COM." := mkRawNamedRule None default_ports
              (Some [lit "/v1/%7euser/**"; lit "/v2"])
              (Some [mkRawHeaderInjection (lit "Authorization") (lit "api-token") Bearer None])]>
       (<[lit "b.example" := mkRawNamedRule (Some Tunnel) [443; 8443]%N None None]> ∅))))
    (Some (mkRawCredentials (Some Substitute) (<[lit "api-token" := Inject]> ∅)))
    [].

Definition example_session : SessionConfig :=
  mkSessionConfig true (Some (lit "cladding/github.sock")) UTunnel (Some Substitute)
    (<[lit "api-token" := Inject]> ∅)
    [mkHostRule (lit "example.com") Intercept [443%N] [lit "/v1/~user/**"; lit "/v2"]
       [mkHeaderInjection (lit "Authorization") (lit "api-token") Bearer None];
     mkHostRule (lit "b.example") Tunnel [443; 8443]%N [] []].

Example example_raw_accepted :
  @validate_session_document plain_host_parse example_raw = Ok example_session.
Proof. vm_compute. reflexivity. Qed.

Lemma validate_session_document_wf_witness : @session_wf plain_host_parse example_session.
Proof.
  apply (@validate_session_document_wf plain_host_parse plain_host_laws example_raw).
  vm_compute. reflexivity.
Defined.

Lemma validate_session_document_frame_witness :
  sc_persistent example_session = true ∧ length (sc_rules example_session) = 2.
Proof.
  destruct (@validate_session_document_frame plain_host_parse plain_host_laws
              example_raw example_session) as (_ & _ & _ & _ & Hp & _ & Hl);
    [vm_compute; reflexivity|].
  split; [exact Hp|]. rewrite Hl. vm_compute. reflexivity.
Defined.
