(* ===== verification/SessionPolicy.v ===== *)
(** Authorisation (src/policy.rs) and fake credentials (src/credentials.rs).

    [SessionPolicy::compile] turns a validated configuration into the
    immutable lookup structure the proxy handlers share; the rest of the file
    decides CONNECT targets, TLS interception and decrypted requests. The
    abstract specification is the relation [allows] on the configuration; the
    theorems are that the compiled policy implements it exactly. *)

From S2P Require Import Prelude RustStr PolicyTypes UrlPath DnsName Identifiers SessionDoc.
From stdpp Require Import options.
Local Open Scope char_scope.

(** ** Fake credentials

    HMAC-SHA256 is the [ring] crate's and unpadded Base64URL the [base64]
    crate's: both are parameters. [Context::update] twice authenticates the
    concatenation. *)
Class Crypto := {
  hmac_sha256 : str → str → str;
  base64url_encode : str → str;
}.

Definition SEED_BYTES : nat := 32.
Definition DOMAIN_SEPARATOR : str := lit "baffle:credential-substitution:v1" ++ ["000"].

(** [CredentialSeed]: its bytes. *)
Abbreviation CredentialSeed := str (only parsing).

Definition derive_fake_credential `{Crypto} (seed : CredentialSeed) (identifier : str) : str :=
  lit "baffle_v1_" ++ base64url_encode (hmac_sha256 seed (DOMAIN_SEPARATOR ++ identifier)).

(** [CredentialSeed::as_base64url]. *)
Definition seed_as_base64url `{Crypto} (seed : CredentialSeed) : str := base64url_encode seed.

(** ** Data *)

Inductive AuthorizationError := InvalidAuthority | Denied.
#[export] Instance AuthorizationError_eq_dec : EqDecision AuthorizationError.
Proof. solve_decision. Defined.

Record Destination := mkDestination { d_host : str; d_port : N }.
#[export] Instance Destination_eq_dec : EqDecision Destination.
Proof. solve_decision. Defined.

Record RequestFacts := mkRequestFacts {
  rf_method : str;
  rf_scheme : option str;
  rf_uri_authority : option str;
  rf_path : str;
  rf_host_headers : list str;
}.

Record CompiledCredential := mkCompiledCredential {
  cc_injection : HeaderInjection;
  cc_mode : CredentialMode;
  cc_fake_value : option str;
}.

Record CompiledRule := mkCompiledRule {
  cr_mode : RuleMode;
  cr_ports : gset N;
  cr_paths : list str;
  cr_credentials : list CompiledCredential;
}.

Record Policy := mkPolicy {
  p_rules : gmap str CompiledRule;
  p_unmatched : UnmatchedHostPolicy;
}.

(** ** [SessionPolicy::compile] *)

Definition compile_credential `{Crypto} (session : SessionConfig) (seed : CredentialSeed)
    (injection : HeaderInjection) : CompiledCredential :=
  let mode := effective_credential_mode session (hi_secret injection) in
  mkCompiledCredential injection mode
    (if bool_decide (mode = Substitute)
     then Some (derive_fake_credential seed (hi_secret injection)) else None).

Definition compile_rule `{Crypto} (session : SessionConfig) (seed : CredentialSeed)
    (rule : HostRule) : CompiledRule :=
  mkCompiledRule (hr_mode rule) (list_to_set (hr_ports rule)) (hr_paths rule)
    (compile_credential session seed <$> hr_inject rule).

Definition compile `{Crypto} (session : SessionConfig) (seed : CredentialSeed) : Policy :=
  mkPolicy
    (map_collect ((λ rule, (hr_host rule, compile_rule session seed rule)) <$> sc_rules session))
    (sc_unmatched session).

(** ** Authorities *)

Definition parse_authority_text `{UrlHost} (authority : str) (default_port : option N)
    : result AuthorizationError Destination :=
  if str_eqb authority [] || negb (is_ascii authority) || contains_any ["@"; "%"] authority
  then Err InvalidAuthority
  else
    '(host, port) ←
      match split_once ":" authority with
      | Some (host, port) =>
          if negb (contains_char ":" host)
          then port ← ok_or (parse_u16 port) InvalidAuthority; Ok (host, port)
          else Err InvalidAuthority
      | None => port ← ok_or default_port InvalidAuthority; Ok (authority, port)
      end;
    if (port =? 0)%N then Err InvalidAuthority
    else
      host ← map_err (λ _, InvalidAuthority) (normalize_dns_name host);
      Ok (mkDestination host port).

Definition validate_host_header_text `{UrlHost} (host_headers : list str) (destination : Destination)
    : result AuthorizationError unit :=
  if (1 <? length host_headers)%nat then Err InvalidAuthority
  else
    match host_headers with
    | host :: _ =>
        parsed ← parse_authority_text host (Some 443%N);
        if bool_decide (parsed ≠ destination) then Err InvalidAuthority else Ok ()
    | [] => Ok ()
    end.

(** ** Decisions *)

Definition authorize_connect_authority `{UrlHost} (self : Policy) (authority : str)
    (host_headers : list str) : result AuthorizationError (RuleMode * Destination) :=
  destination ← parse_authority_text authority (Some 443%N);
  _ ← validate_host_header_text host_headers destination;
  match p_rules self !! d_host destination with
  | Some rule =>
      if negb (bool_decide (d_port destination ∈ cr_ports rule)) then Err Denied
      else Ok (cr_mode rule, destination)
  | None =>
      if bool_decide (p_unmatched self = UTunnel) && (d_port destination =? 443)%N
      then Ok (Tunnel, destination)
      else Err Denied
  end.

Definition permits_tls_interception_authority `{UrlHost} (self : Policy) (authority : str)
    (server_name : option str) : bool :=
  match authorize_connect_authority self authority [] with
  | Err _ => false
  | Ok (mode, destination) =>
      match (server_name ≫= λ name,
               match normalize_dns_name name with Ok n => Some n | Err _ => None end) with
      | None => false
      | Some server_name => bool_decide (mode = Intercept) && str_eqb server_name (d_host destination)
      end
  end.

Definition canonical_authorized_path (rule : CompiledRule) (path : str)
    : result AuthorizationError (option str) :=
  if bool_decide (cr_paths rule = []) then Ok None
  else
    canonical ← map_err (λ _, Denied) (canonicalize_request_path path);
    if negb (existsb (λ pattern, matches_path_pattern pattern canonical) (cr_paths rule))
    then Err Denied
    else Ok (Some canonical).

(** The [host_destination] of a decrypted request. *)
Definition host_destination_of `{UrlHost} (hs : list str) : result AuthorizationError (option Destination) :=
  match hs with
  | [] => Ok None
  | [host] => destination ← parse_authority_text host (Some 443%N); Ok (Some destination)
  | _ => Err InvalidAuthority
  end.

Definition authorize_intercepted_request `{UrlHost} (self : Policy) (facts : RequestFacts)
    (connect_authority : str) : result AuthorizationError (list CompiledCredential * option str) :=
  if eq_ignore_ascii_case (rf_method facts) (lit "CONNECT")
     || match rf_scheme facts with
        | Some scheme => negb (eq_ignore_ascii_case scheme (lit "https"))
        | None => false
        end
  then Err InvalidAuthority
  else
    connect ← parse_authority_text connect_authority (Some 443%N);
    uri_destination ←
      transpose ((λ authority, parse_authority_text authority (Some 443%N)) <$> rf_uri_authority facts);
    host_destination ← host_destination_of (rf_host_headers facts);
    if match uri_destination with Some destination => bool_decide (destination ≠ connect) | None => false end
       || match host_destination with Some destination => bool_decide (destination ≠ connect) | None => false end
       || (bool_decide (uri_destination = None) && bool_decide (host_destination = None))
    then Err InvalidAuthority
    else
      rule ← ok_or (match p_rules self !! d_host connect with
                    | Some rule => if bool_decide (d_port connect ∈ cr_ports rule) then Some rule else None
                    | None => None
                    end) Denied;
      path ← canonical_authorized_path rule (rf_path facts);
      Ok (cr_credentials rule, path).

(** ** Specification *)

(** [names a d]: the authority text [a] denotes destination [d]; the port is
    443 where the text has none. *)
Inductive names `{UrlHost} : str → Destination → Prop :=
| names_default host h :
    normalize_dns_name host = Ok h → names host (mkDestination h 443)
| names_port host h digits port :
    normalize_dns_name host = Ok h → parse_u16 digits = Some port → port ≠ 0%N →
    names (host ++ ":" :: digits) (mkDestination h port).

(** [allows sc d mode]: what a configuration grants. An explicit rule decides
    its host alone; the unmatched policy covers only hosts without a rule, and
    only port 443. *)
Inductive allows (sc : SessionConfig) : Destination → RuleMode → Prop :=
| allows_rule rule port :
    rule ∈ sc_rules sc → port ∈ hr_ports rule →
    allows sc (mkDestination (hr_host rule) port) (hr_mode rule)
| allows_unmatched host :
    sc_unmatched sc = UTunnel → host ∉ hr_host <$> sc_rules sc →
    allows sc (mkDestination host 443) Tunnel.

(** At most one Host header, and it denotes the destination. *)
Definition host_headers_agree `{UrlHost} (host_headers : list str) (d : Destination) : Prop :=
  host_headers = [] ∨ ∃ h, host_headers = [h] ∧ names h d.

(** The path a rule lets through: any path when the rule has no patterns,
    otherwise a canonical one matched by a pattern. *)
Inductive path_admitted (patterns : list str) (raw : str) : option str → Prop :=
| path_any : patterns = [] → path_admitted patterns raw None
| path_matched pattern canonical :
    pattern ∈ patterns → canonicalize_request_path raw = Ok canonical →
    matches_path_pattern pattern canonical = true →
    path_admitted patterns raw (Some canonical).

(** A decrypted request is bound to its CONNECT destination. *)
Record request_bound `{UrlHost} (facts : RequestFacts) (d : Destination) : Prop := {
  rb_method : to_ascii_lowercase (rf_method facts) ≠ lit "connect";
  rb_scheme : ∀ s, rf_scheme facts = Some s → to_ascii_lowercase s = lit "https";
  rb_uri : ∀ a, rf_uri_authority facts = Some a → names a d;
  rb_host : host_headers_agree (rf_host_headers facts) d;
  rb_some : rf_uri_authority facts ≠ None ∨ rf_host_headers facts ≠ [];
}.

(** ** Proofs *)

Lemma parse_digits_chars max acc s n c :
  parse_digits max acc s = Some n → c ∈ s → is_ascii_digit c = true.
Proof.
  revert acc. induction s as [|x s IH]; cbn; intros acc Hp Hc; [set_solver|].
  unfold digit_value in Hp. destruct (is_ascii_digit x) eqn:Hx; [|done].
  case_match; [done|]. apply elem_of_cons in Hc as [->|Hc]; eauto.
Qed.

Lemma parse_u16_chars s n c :
  parse_u16 s = Some n → c ∈ s → is_ascii_digit c = true ∨ c = "+".
Proof.
  unfold parse_u16, parse_uint. intros Hp Hc. destruct s as [|x s]; [set_solver|].
  case_decide as Hx; [|left; by eapply parse_digits_chars].
  apply elem_of_cons in Hc as [->|Hc]; [by right|].
  left. destruct s; [done|]. by eapply parse_digits_chars.
Qed.

Lemma authority_char c :
  is_ascii_digit c = true ∨ c = "+" ∨ c = ":" ∨ ldh_char c = true ∨ ldh_char (ascii_lower c) = true →
  is_ascii_byte c = true ∧ c ∉ ["@"; "%"].
Proof. byte_decide c. Qed.

Lemma canonical_authorized_path_Ok rule raw path :
  canonical_authorized_path rule raw = Ok path ↔ path_admitted (cr_paths rule) raw path.
Proof.
  unfold canonical_authorized_path. case_bool_decide as Hp.
  - split; [intros [= <-]; by constructor|].
    intros [?|pattern c Hin _ _]; [done|]. rewrite Hp in Hin. set_solver.
  - split.
    + intros Hv. res_inv. bool_prop. apply existsb_elem in Heqb as (pattern & Hin & Hm).
      by econstructor.
    + intros [?|pattern c Hin Hc Hm]; [done|]. rewrite Hc. cbn [map_err mbind result_bind].
      rewrite (proj2 (existsb_elem _ _)) by eauto. done.
Qed.

Lemma eq_ignore_ascii_case_lower a b :
  eq_ignore_ascii_case a b = true ↔ to_ascii_lowercase a = to_ascii_lowercase b.
Proof. apply bool_decide_eq_true. Qed.
Section policy.
Context `{UrlHost} `{!UrlHostLaws}.

Lemma normalize_input_chars input d c :
  normalize_dns_name input = Ok d → c ∈ input → ldh_char (ascii_lower c) = true.
Proof using Type*.
  intros (Hn & _ & Hl)%normalize_dns_name_Ok Hc.
  assert (ascii_lower c ∈ d ++ ["."]) as [Hin|Hin]%elem_of_app.
  { assert (ascii_lower c ∈ to_ascii_lowercase input) by (apply elem_of_lowercase; eauto).
    destruct Hl as [Hl|Hl]; rewrite Hl in *; set_solver. }
  - by apply (proj1 (forallb_elem _ _) (dns_name_ldh d Hn)).
  - apply list_elem_of_singleton in Hin as ->. done.
Qed.

Lemma normalize_no_colon input d : normalize_dns_name input = Ok d → ":" ∉ input.
Proof using Type*. intros Hn Hc. by eapply normalize_input_chars in Hn; [|exact Hc]. Qed.

Lemma normalize_not_nil d : normalize_dns_name [] ≠ Ok d.
Proof using Type*.
  intros (Hn & _ & [Hl|Hl])%normalize_dns_name_Ok; [|by destruct d].
  by destruct (dns_name_nonempty d Hn).
Qed.

(** The characters that [parse_authority_text] rejects up front never occur
    in a text it would otherwise accept. *)
Lemma authority_guard_false a :
  a ≠ [] →
  (∀ c, c ∈ a → is_ascii_digit c = true ∨ c = "+" ∨ c = ":" ∨ ldh_char c = true ∨ ldh_char (ascii_lower c) = true) →
  str_eqb a [] || negb (is_ascii a) || contains_any ["@"; "%"] a = false.
Proof using Type.
  intros Hne Hc. rewrite !orb_false_iff, negb_false_iff. split_and!.
  - by apply bool_decide_eq_false.
  - apply forallb_elem. intros c Hin. by apply authority_char, Hc.
  - apply contains_any_false. intros c Hin. by apply authority_char, Hc.
Qed.

Lemma parse_authority_text_Ok a d :
  parse_authority_text a (Some 443%N) = Ok d ↔ names a d.
Proof using Type*.
  unfold parse_authority_text. split.
  - destruct (_ || _); [done|].
    destruct (split_once ":" a) as [[host digits]|] eqn:Hs.
    + apply split_once_Some in Hs as [-> Hno].
      rewrite (proj2 (contains_char_false _ _)) by done. cbn [negb].
      intros Hv. res_inv. by apply names_port; [..|apply N.eqb_neq].
    + intros Hv. cbn in Hv. res_inv. by constructor.
  - intros [host h Hn|host h digits port Hn Hp Hz].
    + rewrite authority_guard_false.
      * rewrite (proj2 (split_once_None ":" host)) by (by eapply normalize_no_colon).
        cbn. by rewrite Hn.
      * intros ->. by eapply normalize_not_nil.
      * intros c Hc. eapply normalize_input_chars in Hc; [|done]. auto.
    + rewrite authority_guard_false.
      * pose proof (normalize_no_colon _ _ Hn) as Hno.
        rewrite (proj2 (split_once_Some ":" _ host digits)) by done.
        rewrite (proj2 (contains_char_false _ _)), Hp by done. cbn.
        apply N.eqb_neq in Hz as ->. by rewrite Hn.
      * by destruct host.
      * intros c [Hc|[->|Hc]%elem_of_cons]%elem_of_app; [|auto|].
        -- eapply normalize_input_chars in Hc; [|done]. auto.
        -- eapply parse_u16_chars in Hc as [?| ->]; [auto..|done].
Qed.

Lemma parse_authority_text_not_denied a p : parse_authority_text a p ≠ Err Denied.
Proof using Type.
  unfold parse_authority_text, ok_or, map_err, mbind, result_bind.
  repeat (case_match; simplify_eq/=); done.
Qed.

Lemma validate_host_header_text_not_denied hs d : validate_host_header_text hs d ≠ Err Denied.
Proof using Type.
  unfold validate_host_header_text. destruct (_ <? _)%nat; [done|]. destruct hs as [|h hs]; [done|].
  intros [He|(x & _ & He)]%bind_Err_inv; [by apply parse_authority_text_not_denied in He|].
  by destruct (bool_decide _).
Qed.

Lemma names_det a d1 d2 : names a d1 → names a d2 → d1 = d2.
Proof using Type*.
  intros H1%parse_authority_text_Ok H2%parse_authority_text_Ok.
  rewrite H1 in H2. by simplify_eq.
Qed.

Lemma validate_host_header_text_Ok hs d :
  validate_host_header_text hs d = Ok () ↔ host_headers_agree hs d.
Proof using Type*.
  unfold validate_host_header_text, host_headers_agree.
  destruct hs as [|h [|h' hs]]; cbn [length Nat.ltb Nat.leb].
  - naive_solver.
  - split.
    + intros Hv. res_inv. bool_prop. right. exists h. split; [done|].
      apply parse_authority_text_Ok. destruct (decide (x = d)); [by subst|done].
    + intros [?|(h' & [= <-] & Hn)]; [done|].
      apply parse_authority_text_Ok in Hn as ->. cbn. by rewrite bool_decide_eq_false_2 by auto.
  - naive_solver.
Qed.

Context `{Crypto}.

(** Looking a host up in the compiled map finds the rule of that host. *)
Lemma compile_lookup sc seed host cr :
  NoDup (hr_host <$> sc_rules sc) →
  p_rules (compile sc seed) !! host = Some cr ↔
  ∃ rule, rule ∈ sc_rules sc ∧ hr_host rule = host ∧ cr = compile_rule sc seed rule.
Proof using Type.
  intros Hnd. cbn. rewrite map_collect_Some.
  - rewrite list_elem_of_fmap. naive_solver.
  - rewrite <-list_fmap_compose. done.
Qed.

Lemma compile_lookup_None sc seed host :
  p_rules (compile sc seed) !! host = None ↔ host ∉ hr_host <$> sc_rules sc.
Proof using Type. cbn. by rewrite map_collect_None, <-list_fmap_compose. Qed.

Lemma rule_by_host sc r1 r2 :
  NoDup (hr_host <$> sc_rules sc) → r1 ∈ sc_rules sc → r2 ∈ sc_rules sc →
  hr_host r1 = hr_host r2 → r1 = r2.
Proof using Type. intros. by eapply (NoDup_fmap_inj_elem hr_host). Qed.

(** What the lookup part of a decision computes. *)
Lemma lookup_allows sc seed d mode :
  session_wf sc →
  match p_rules (compile sc seed) !! d_host d with
  | Some rule => if negb (bool_decide (d_port d ∈ cr_ports rule)) then Err Denied else Ok (cr_mode rule, d)
  | None => if bool_decide (p_unmatched (compile sc seed) = UTunnel) && (d_port d =? 443)%N
            then Ok (Tunnel, d) else Err Denied
  end = Ok (mode, d) ↔ allows sc d mode.
Proof using Type*.
  intros Hwf. pose proof (sw_hosts sc Hwf) as Hnd. destruct d as [host port]. cbn [d_host d_port].
  destruct (p_rules (compile sc seed) !! host) as [cr|] eqn:Hl.
  - apply compile_lookup in Hl as (rule & Hin & <- & ->); [|done]. cbn [compile_rule cr_ports cr_mode].
    split.
    + case_bool_decide as Hp; [|done]. cbn. intros [= <-].
      constructor; [done|]. set_solver.
    + intros Ha. inversion Ha as [r' p' Hin' Hp Heq|host' Hu Hno]; simplify_eq.
      * assert (r' = rule) as -> by (by eapply rule_by_host).
        by rewrite bool_decide_eq_true_2 by set_solver.
      * destruct Hno. by apply list_elem_of_fmap_2.
  - apply compile_lookup_None in Hl. cbn [compile p_unmatched]. split.
    + intros Hok. case_bool_decide; [|done]. destruct (N.eqb_spec port 443) as [->|]; [|done].
      simplify_eq/=. by constructor.
    + intros Ha. inversion Ha as [r' p' Hin' Hp Heq|host' Hu Hno]; simplify_eq.
      * destruct Hl. by apply list_elem_of_fmap_2.
      * by rewrite bool_decide_eq_true_2 by done.
Qed.

Lemma authorize_connect_Ok sc seed authority hs mode d :
  session_wf sc →
  authorize_connect_authority (compile sc seed) authority hs = Ok (mode, d) ↔
  names authority d ∧ host_headers_agree hs d ∧ allows sc d mode.
Proof using Type*.
  intros Hwf. unfold authorize_connect_authority. split.
  - intros Hv. res_inv. destruct x0.
    match goal with H1 : parse_authority_text _ _ = Ok ?x, H2 : match _ with Some _ => _ | None => _ end = _ |- _ =>
      assert (x = d) as -> by (repeat case_match; by simplify_eq);
      apply parse_authority_text_Ok in H1; apply lookup_allows in H2; [|done] end.
    split_and!; [done|by apply validate_host_header_text_Ok|done].
  - intros (Hn & Hh & Ha). apply parse_authority_text_Ok in Hn as ->. cbn [mbind result_bind].
    apply validate_host_header_text_Ok in Hh as ->. cbn [mbind result_bind].
    by apply lookup_allows.
Qed.

(** C2: authorising a CONNECT refines the abstract policy: the compiled
    policy answers [Ok (mode, d)] exactly when the authority text denotes [d],
    there is no Host header or exactly one that denotes [d] too, and the
    configuration allows [d] in [mode] -- by the rule of that host if there is
    one (never by the unmatched policy), else by [unmatched = tunnel] on port
    443 alone. *)
Theorem authorize_connect_refines sc seed authority hs mode d :
  session_wf sc →
  authorize_connect_authority (compile sc seed) authority hs = Ok (mode, d) ↔
  names authority d ∧ host_headers_agree hs d ∧ allows sc d mode.
Proof using Type*. apply authorize_connect_Ok. Qed.

(** The error of a rejected CONNECT tells malformed input from policy:
    [Denied] is answered exactly when authority and Host header agree on a
    destination that the configuration allows in no mode; every other
    rejection is [InvalidAuthority]. *)
Theorem authorize_connect_denied sc seed authority hs :
  session_wf sc →
  authorize_connect_authority (compile sc seed) authority hs = Err Denied ↔
  ∃ d, names authority d ∧ host_headers_agree hs d ∧ ∀ mode, ¬ allows sc d mode.
Proof using Type*.
  intros Hwf. split.
  - intros He. unfold authorize_connect_authority in He.
    destruct (parse_authority_text authority _) as [d|e] eqn:Hp; cbn [mbind result_bind] in He.
    2:{ simplify_eq. exfalso. revert Hp. by apply parse_authority_text_not_denied. }
    destruct (validate_host_header_text hs d) as [[]|e] eqn:Hh; cbn [mbind result_bind] in He.
    2:{ simplify_eq. exfalso. revert Hh. apply validate_host_header_text_not_denied. }
    exists d. apply parse_authority_text_Ok in Hp. apply validate_host_header_text_Ok in Hh.
    split_and!; [done..|]. intros mode Ha%(lookup_allows _ seed); [|done]. congruence.
  - intros (d & Hn & Hh & Ha). unfold authorize_connect_authority.
    apply parse_authority_text_Ok in Hn as ->. cbn [mbind result_bind].
    apply validate_host_header_text_Ok in Hh as ->. cbn [mbind result_bind].
    match goal with |- ?r = _ => destruct r as [[mode d']|[]] eqn:Hr end.
    + assert (d' = d) as -> by (repeat case_match; by simplify_eq).
      apply lookup_allows in Hr; [|done]. by apply Ha in Hr.
    + repeat case_match; by simplify_eq.
    + done.
Qed.

Lemma permits_tls_interception_true sc seed authority sni :
  session_wf sc →
  permits_tls_interception_authority (compile sc seed) authority sni = true ↔
  ∃ d name, names authority d ∧ allows sc d Intercept ∧
    sni = Some name ∧ normalize_dns_name name = Ok (d_host d).
Proof using Type*.
  intros Hwf. unfold permits_tls_interception_authority. split.
  - destruct (authorize_connect_authority _ _ _) as [[mode d]|] eqn:Ha; [|done].
    apply authorize_connect_Ok in Ha as (Hn & _ & Ha); [|done].
    destruct sni as [name|]; cbn; [|done].
    destruct (normalize_dns_name name) as [h|] eqn:Hs; [|done].
    intros Hb. str_prop. subst. eauto 6.
  - intros (d & name & Hn & Ha & -> & Hs).
    rewrite (proj2 (authorize_connect_Ok sc seed authority [] Intercept d Hwf))
      by (split_and!; [done|by left|done]).
    cbn. rewrite Hs. by apply str_eqb_true.
Qed.

(** TLS is intercepted exactly for an authority whose destination an
    intercept rule allows and whose host is the normalised server name the
    client sent; without a server name there is no interception. *)
Theorem permits_tls_interception_exact sc seed authority sni :
  session_wf sc →
  permits_tls_interception_authority (compile sc seed) authority sni = true ↔
  ∃ d name, names authority d ∧ allows sc d Intercept ∧
    sni = Some name ∧ normalize_dns_name name = Ok (d_host d).
Proof using Type*. apply permits_tls_interception_true. Qed.

Lemma optional_authority_Ok o d :
  (∀ u, transpose ((λ a, parse_authority_text a (Some 443%N)) <$> o) = Ok u →
     match u with Some d' => bool_decide (d' ≠ d) | None => false end = false →
     (∀ a, o = Some a → names a d) ∧ (u = None ↔ o = None)) ∧
  ((∀ a, o = Some a → names a d) →
     transpose ((λ a, parse_authority_text a (Some 443%N)) <$> o) = Ok ((λ _, d) <$> o)).
Proof using Type*.
  destruct o as [a|]; cbn; [|naive_solver]. split.
  - intros u. destruct (parse_authority_text a _) as [d'|] eqn:Hp; [|done].
    intros [= <-] Hd. bool_prop. destruct (decide (d' = d)) as [->|]; [|done].
    apply parse_authority_text_Ok in Hp. naive_solver.
  - intros Hn. specialize (Hn a eq_refl). by apply parse_authority_text_Ok in Hn as ->.
Qed.

Lemma host_destination_Ok hs d :
  (∀ u, host_destination_of hs = Ok u →
     match u with Some d' => bool_decide (d' ≠ d) | None => false end = false →
     host_headers_agree hs d ∧ (u = None ↔ hs = [])) ∧
  (host_headers_agree hs d →
     host_destination_of hs = Ok (if decide (hs = []) then None else Some d)).
Proof using Type*.
  unfold host_headers_agree. destruct hs as [|h [|h' hs]]; cbn -[decide]; [naive_solver| |naive_solver].
  split.
  - intros u Hv Hd. res_inv. bool_prop. destruct (decide (x = d)) as [->|]; [|done].
    match goal with H : parse_authority_text _ _ = _ |- _ => apply parse_authority_text_Ok in H end.
    naive_solver.
  - intros [?|(h' & [= <-] & Hn)]; [done|]. by apply parse_authority_text_Ok in Hn as ->.
Qed.

Lemma authorize_intercepted_request_Ok sc seed facts connect creds path :
  session_wf sc →
  authorize_intercepted_request (compile sc seed) facts connect = Ok (creds, path) ↔
  ∃ d rule, names connect d ∧ request_bound facts d ∧
    rule ∈ sc_rules sc ∧ hr_host rule = d_host d ∧ d_port d ∈ hr_ports rule ∧
    path_admitted (hr_paths rule) (rf_path facts) path ∧
    creds = compile_credential sc seed <$> hr_inject rule.
Proof using Type*.
  intros Hwf. pose proof (sw_hosts sc Hwf) as Hnd.
  unfold authorize_intercepted_request. split.
  - intros Hv. res_inv. bool_prop.
    match goal with H : parse_authority_text _ _ = Ok ?x |- _ => rename x into d; rename H into Hc end.
    match goal with H : transpose _ = Ok _ |- _ =>
      apply (proj1 (optional_authority_Ok (rf_uri_authority facts) d)) in H as [Huri Hun]; [|done] end.
    match goal with H : host_destination_of _ = Ok _ |- _ =>
      apply (proj1 (host_destination_Ok (rf_host_headers facts) d)) in H as [Hhost Hhn]; [|done] end.
    destruct (p_rules (compile sc seed) !! d_host d) as [cr|] eqn:Hl; [|done].
    case_bool_decide as Hport; simplify_eq. apply compile_lookup in Hl as (rule & Hin & Hh & ->); [|done].
    match goal with H : canonical_authorized_path _ _ = Ok _ |- _ =>
      apply canonical_authorized_path_Ok in H as Hpath end.
    apply parse_authority_text_Ok in Hc. exists d, rule. split_and!; try done; [|set_solver].
    constructor; try done.
    + intros Hm. by rewrite (proj2 (eq_ignore_ascii_case_lower _ _)) in * by done.
    + intros s Hs. rewrite Hs in *. bool_prop.
      match goal with H : eq_ignore_ascii_case s _ = true |- _ => by apply eq_ignore_ascii_case_lower in H end.
    + rewrite <-Hun, <-Hhn, !bool_decide_eq_false in *. naive_solver.
  - intros (d & rule & Hc & [Hm Hs Hu Hh Hsome] & Hin & Hhost & Hport & Hpath & ->).
    assert (eq_ignore_ascii_case (rf_method facts) (lit "CONNECT") = false) as ->.
    { apply not_true_iff_false. by rewrite eq_ignore_ascii_case_lower. }
    assert (match rf_scheme facts with
            | Some scheme => negb (eq_ignore_ascii_case scheme (lit "https")) | None => false end = false) as ->.
    { destruct (rf_scheme facts) as [s|]; [|done]. apply negb_false_iff, eq_ignore_ascii_case_lower. auto. }
    apply parse_authority_text_Ok in Hc as ->. cbn [orb mbind result_bind].
    rewrite (proj2 (optional_authority_Ok _ d) Hu), (proj2 (host_destination_Ok _ d) Hh). cbn [mbind result_bind].
    rewrite (proj2 (compile_lookup sc seed (d_host d) (compile_rule sc seed rule) Hnd)) by eauto.
    rewrite (bool_decide_eq_true_2 (d_port d ∈ cr_ports (compile_rule sc seed rule)))
      by (by apply elem_of_list_to_set).
    cbn [ok_or mbind result_bind].
    rewrite (proj2 (canonical_authorized_path_Ok (compile_rule sc seed rule) _ _) Hpath).
    cbn [mbind result_bind compile_rule cr_credentials].
    assert (∀ o : option str, match (λ _, d) <$> o with Some d' => bool_decide (d' ≠ d) | None => false end = false) as ->
      by by intros []; cbn; rewrite ?bool_decide_eq_false_2 by auto.
    destruct (decide (rf_host_headers facts = [])) as [He|]; cbn [orb].
    + destruct (rf_uri_authority facts); [done|]. naive_solver.
    + rewrite !bool_decide_eq_false_2, andb_false_r by auto. done.
Qed.

(** C1: a decrypted request is authorised exactly when it is bound to the
    tunnel's destination (not a CONNECT, no scheme other than https, and the
    URI authority and the single Host header, at least one of them present,
    denote that destination), a rule of the session names that host and port,
    and the path is admitted by that rule; what is released is then exactly
    that rule's credentials, in the session's modes, and the canonical path. *)
Theorem authorize_intercepted_request_exact sc seed facts connect creds path :
  session_wf sc →
  authorize_intercepted_request (compile sc seed) facts connect = Ok (creds, path) ↔
  ∃ d rule, names connect d ∧ request_bound facts d ∧
    rule ∈ sc_rules sc ∧ hr_host rule = d_host d ∧ d_port d ∈ hr_ports rule ∧
    path_admitted (hr_paths rule) (rf_path facts) path ∧
    creds = compile_credential sc seed <$> hr_inject rule.
Proof using Type*. apply authorize_intercepted_request_Ok. Qed.
End policy.

(** ** Witnesses *)

(** A stand-in for the two crates: the identity encoding and key
    concatenation, enough to evaluate the model. *)
Definition plain_crypto : Crypto :=
  {| hmac_sha256 key msg := key ++ msg; base64url_encode s := s |}.

Definition example_policy : Policy := @compile plain_crypto example_session [].

Lemma example_session_wf : @session_wf plain_host_parse example_session.
Proof.
  apply (@validate_session_document_session_wf plain_host_parse plain_host_laws example_raw).
  vm_compute. reflexivity.
Qed.

Definition example_facts : RequestFacts :=
  mkRequestFacts (lit "GET") (Some (lit "HTTPS")) None (lit "/v1/%7Euser/x") [lit "EXAMPLE.com:443"].

Lemma authorize_connect_refines_witness :
  @allows example_session (mkDestination (lit "b.example") 8443) Tunnel.
Proof.
  apply (@authorize_connect_refines plain_host_parse plain_host_laws plain_crypto example_session []
           (lit "B.example.:8443") [lit "b.example:8443"] Tunnel (mkDestination (lit "b.example") 8443));
    [exact example_session_wf|vm_compute; reflexivity].
Defined.

Lemma authorize_connect_denied_witness :
  ∃ d, @names plain_host_parse (lit "example.com:8443") d ∧ ∀ mode, ¬ allows example_session d mode.
Proof.
  destruct (proj1 (@authorize_connect_denied plain_host_parse plain_host_laws plain_crypto example_session []
           (lit "example.com:8443") [] example_session_wf)) as (d & Hn & _ & Hno);
    [vm_compute; reflexivity|]. by exists d.
Defined.

Lemma permits_tls_interception_exact_witness :
  ∃ d name, @names plain_host_parse (lit "example.com") d ∧ allows example_session d Intercept ∧
    Some (lit "Example.com") = Some name ∧ @normalize_dns_name plain_host_parse name = Ok (d_host d).
Proof.
  apply (@permits_tls_interception_exact plain_host_parse plain_host_laws plain_crypto example_session []);
    [exact example_session_wf|vm_compute; reflexivity].
Defined.

Lemma authorize_intercepted_request_exact_witness :
  ∃ d rule, @names plain_host_parse (lit "example.com") d ∧ @request_bound plain_host_parse example_facts d ∧
    rule ∈ sc_rules example_session ∧ hr_host rule = d_host d ∧ d_port d ∈ hr_ports rule ∧
    path_admitted (hr_paths rule) (lit "/v1/%7Euser/x") (Some (lit "/v1/~user/x")) ∧
    [@compile_credential plain_crypto example_session [] (injection_bearer (lit "Authorization") (lit "api-token"))]
      = @compile_credential plain_crypto example_session [] <$> hr_inject rule.
Proof.
  apply (@authorize_intercepted_request_exact plain_host_parse plain_host_laws plain_crypto example_session []
           example_facts (lit "example.com"));
    [exact example_session_wf|vm_compute; reflexivity].
Defined.
