(* ===== verification/Secrets.v ===== *)
(** Daemon-owned secrets (src/secrets.rs).

    The file system is seen through its answers: [fv_lstat] is
    [fs::symlink_metadata] and [fv_open] is what opening a path gives, the
    metadata of the opened file and what reading it returns. The two are
    independent, so a file replaced between the two calls is covered. *)

From S2P Require Import Prelude RustStr PolicyTypes Identifiers SessionDoc.
From stdpp Require Import options.
Local Open Scope char_scope.

(** ** The file system's answers *)

Inductive file_kind := Regular | Directory | Symlink | Special.
#[export] Instance file_kind_eq_dec : EqDecision file_kind.
Proof. solve_decision. Defined.

Record Metadata := mkMetadata {
  md_kind : file_kind;
  md_uid : N;
  md_mode : N;
  md_len : N;
  md_dev : N;
  md_ino : N;
}.

(** [fv_open]: [None] when the open fails; the inner [None] when reading does. *)
Record FsView := mkFsView {
  fv_lstat : str → option Metadata;
  fv_open : str → option (Metadata * option str);
}.

(** [Path::join]. *)
Definition path_join (base name : str) : str :=
  if starts_with ["/"] name then name
  else if bool_decide (base = []) || ends_with ["/"] base then base ++ name
  else base ++ "/" :: name.

(** ** Resolution *)

Definition MAX_SECRET_BYTES : N := 64 * 1024.

Inductive SecretStoreError := NotEntitled | Unavailable.
#[export] Instance SecretStoreError_eq_dec : EqDecision SecretStoreError.
Proof. solve_decision. Defined.

(** [mode & mask] in the source's octal masks. *)
Definition mode_has (mode mask : N) : bool := negb (N.land mode mask =? 0)%N.
Definition mode_lacks (mode mask : N) : bool := negb (N.land mode mask =? mask)%N.

Definition validate_private_directory (view : FsView) (directory : str) (trusted_uid : N)
    : result SecretStoreError unit :=
  metadata ← ok_or (fv_lstat view directory) Unavailable;
  let mode := md_mode metadata in
  if negb (bool_decide (md_kind metadata = Directory))
     || negb (md_uid metadata =? trusted_uid)%N
     || mode_has mode 63 || mode_lacks mode 320 || mode_has mode 3584
  then Err Unavailable else Ok ().

Definition validate_secret_file (metadata : Metadata) (trusted_uid : N) : result SecretStoreError unit :=
  let mode := md_mode metadata in
  if negb (bool_decide (md_kind metadata = Regular))
     || negb (md_uid metadata =? trusted_uid)%N
     || (MAX_SECRET_BYTES <? md_len metadata)%N
     || mode_has mode 63 || negb (mode_has mode 256) || mode_has mode 73 || mode_has mode 3584
  then Err Unavailable else Ok ().

(** Removal of one final line ending. *)
Definition strip_line_ending (bytes : str) : str :=
  if ends_with ["013"; "010"] bytes then take (length bytes - 2) bytes
  else if ends_with ["010"] bytes then take (length bytes - 1) bytes
  else bytes.

Definition read_secret (view : FsView) (directory name : str) (trusted_uid : N)
    : result SecretStoreError str :=
  let path := path_join directory name in
  metadata ← ok_or (fv_lstat view path) Unavailable;
  _ ← validate_secret_file metadata trusted_uid;
  '(opened, content) ← ok_or (fv_open view path) Unavailable;
  _ ← validate_secret_file opened trusted_uid;
  if negb (md_dev opened =? md_dev metadata)%N || negb (md_ino opened =? md_ino metadata)%N
  then Err Unavailable
  else
    content ← ok_or content Unavailable;
    let bytes := take (N.to_nat (MAX_SECRET_BYTES + 1)) content in
    if (MAX_SECRET_BYTES <? N.of_nat (length bytes))%N then Err Unavailable
    else
      let value := strip_line_ending bytes in
      if negb (from_utf8 value) then Err Unavailable
      else if str_eqb value [] || existsb is_ascii_control value then Err Unavailable
      else Ok value.

(** [ResolvedSecrets] and [SecretStore]. *)
Abbreviation ResolvedSecrets := (gmap str str).

Record SecretStore := mkSecretStore {
  ss_directory : str;
  ss_trusted_operator_uid : N;
  ss_allowed : gset str;
}.

Definition has_same_values (self other : ResolvedSecrets) : bool :=
  (size self =? size other)%nat
  && forallb (λ '(name, value), bool_decide (other !! name = Some value)) (map_to_list self).

(** The names that some rule injects in a mode other than [Disabled]. *)
Definition requested_secrets (session : SessionConfig) : gset str :=
  list_to_set (hi_secret <$>
    filter (λ injection, effective_credential_mode session (hi_secret injection) ≠ Disabled)
      (sc_rules session ≫= hr_inject)).

(** The reading loop, in some enumeration of the requested set. *)
Fixpoint resolve_loop (self : SecretStore) (view : FsView) (resolved : ResolvedSecrets) (names : list str)
    : result SecretStoreError ResolvedSecrets :=
  match names with
  | [] => Ok resolved
  | name :: rest =>
      value ← read_secret view (ss_directory self) name (ss_trusted_operator_uid self);
      resolve_loop self view (<[name := value]> resolved) rest
  end.

(** [SecretStore::resolve]; [order] is the hash set's iteration order. *)
Definition resolve_in (order : list str) (self : SecretStore) (view : FsView) (session : SessionConfig)
    : result SecretStoreError ResolvedSecrets :=
  if existsb (λ name, negb (bool_decide (name ∈ ss_allowed self))) order then Err NotEntitled
  else if bool_decide (order = []) then Ok ∅
  else
    _ ← validate_private_directory view (ss_directory self) (ss_trusted_operator_uid self);
    resolve_loop self view ∅ order.

Definition resolve (self : SecretStore) (view : FsView) (session : SessionConfig)
    : result SecretStoreError ResolvedSecrets :=
  resolve_in (elements (requested_secrets session)) self view session.

(** ** Reading one secret *)

(** A private regular file of the trusted user, readable by it, not
    executable, without set-id or sticky bits, at most 64 KiB. *)
Record private_file (m : Metadata) (uid : N) : Prop := {
  pf_kind : md_kind m = Regular;
  pf_uid : md_uid m = uid;
  pf_len : (md_len m ≤ MAX_SECRET_BYTES)%N;
  pf_others : N.land (md_mode m) 63 = 0%N;
  pf_readable : N.testbit (md_mode m) 8 = true;
  pf_exec : N.land (md_mode m) 73 = 0%N;
  pf_special : N.land (md_mode m) 3584 = 0%N;
}.

Lemma mode_has_256 mode : mode_has mode 256 = N.testbit mode 8.
Proof.
  unfold mode_has. change 256%N with (2 ^ 8)%N. apply eq_true_iff_eq.
  rewrite negb_true_iff, N.eqb_neq. split.
  - intros Hne. destruct (N.testbit mode 8) eqn:Ht; [done|]. destruct Hne. apply N.bits_inj. intros k.
    rewrite N.land_spec, N.pow2_bits_eqb, N.bits_0. destruct (N.eqb_spec 8 k) as [<-|]; [by rewrite Ht|by rewrite andb_false_r].
  - intros Ht E. apply (f_equal (λ n, N.testbit n 8)) in E.
    by rewrite N.land_spec, Ht, N.pow2_bits_true, N.bits_0 in E.
Qed.

Lemma validate_secret_file_Ok m uid : validate_secret_file m uid = Ok () ↔ private_file m uid.
Proof.
  unfold validate_secret_file. rewrite mode_has_256. unfold mode_has. split.
  - intros Hv. res_inv. bool_prop. constructor; try done; by apply N.eqb_eq || apply N.ltb_ge.
  - intros [-> -> Hl H1 H2 H3 H4]. rewrite N.eqb_refl, H1, H2, H3, H4.
    by rewrite (proj2 (N.ltb_ge _ _)) by done.
Qed.

(** A usable value: non-empty UTF-8 without ASCII control characters. *)
Record secret_text (s : str) : Prop := {
  st_nonempty : s ≠ [];
  st_utf8 : from_utf8 s = true;
  st_control : existsb is_ascii_control s = false;
}.

(** [content] is [s], or [s] with one line ending. *)
Definition file_of_secret (s content : str) : Prop :=
  content = s ∨ content = s ++ ["010"] ∨ content = s ++ ["013"; "010"].

Lemma control_newline s : existsb is_ascii_control s = false → "010" ∉ s ∧ "013" ∉ s.
Proof. rewrite existsb_elem_false. intros Hc. split; intros Hin; by apply Hc in Hin. Qed.

Lemma strip_line_ending_file s content :
  existsb is_ascii_control s = false → strip_line_ending content = s ↔ file_of_secret s content.
Proof.
  intros [Hlf Hcr]%control_newline. unfold strip_line_ending, file_of_secret.
  destruct (ends_with ["013"; "010"] content) eqn:E1.
  { apply ends_with_true in E1 as [k ->]. rewrite length_app. cbn [length].
    rewrite Nat.add_sub, take_app_length. split; [by intros ->; auto|].
    intros [E|[E|E]].
    - subst s. set_solver.
    - exfalso. apply Hcr. change (k ++ ["013"; "010"]) with (k ++ ["013"] ++ ["010"]) in E.
      rewrite app_assoc in E. apply (inj (.++ ["010"])) in E as <-. set_solver.
    - by apply (inj (.++ ["013"; "010"])) in E. }
  destruct (ends_with ["010"] content) eqn:E2.
  { apply ends_with_true in E2 as [k ->]. rewrite length_app. cbn [length].
    rewrite Nat.add_sub, take_app_length. split; [by intros ->; auto|].
    intros [E|[E|E]].
    - subst s. set_solver.
    - by apply (inj (.++ ["010"])) in E.
    - rewrite E in E1. apply not_true_iff_false in E1. destruct E1. apply ends_with_true. eauto. }
  split; [by intros ->; auto|]. intros [E|[E|E]]; [done| |].
  - rewrite E in E2. apply not_true_iff_false in E2. destruct E2. apply ends_with_true. eauto.
  - rewrite E in E1. apply not_true_iff_false in E1. destruct E1. apply ends_with_true. eauto.
Qed.

Lemma take_limit (content : str) :
  (MAX_SECRET_BYTES <? N.of_nat (length (take (N.to_nat (MAX_SECRET_BYTES + 1)) content)))%N =
  (MAX_SECRET_BYTES <? N.of_nat (length content))%N.
Proof.
  rewrite length_take. apply eq_true_iff_eq. rewrite !N.ltb_lt. lia.
Qed.

(** The file of a secret: the path is a private regular file (not a symbolic
    link), the file that was opened is that same file and is private too, it
    holds at most 64 KiB, and its content is [s] with at most one line ending. *)
Definition secret_file (view : FsView) (directory name : str) (uid : N) (s : str) : Prop :=
  ∃ m o content,
    fv_lstat view (path_join directory name) = Some m ∧
    fv_open view (path_join directory name) = Some (o, Some content) ∧
    private_file m uid ∧ private_file o uid ∧ md_dev o = md_dev m ∧ md_ino o = md_ino m ∧
    (N.of_nat (length content) ≤ MAX_SECRET_BYTES)%N ∧ file_of_secret s content ∧ secret_text s.

Lemma read_secret_Ok view directory name uid s :
  read_secret view directory name uid = Ok s ↔ secret_file view directory name uid s.
Proof.
  unfold read_secret, secret_file. split.
  - intros Hv. res_inv. case_match. subst. res_inv. str_prop.
    repeat match goal with x : unit |- _ => destruct x end.
    repeat match goal with H : validate_secret_file _ _ = Ok _ |- _ => apply validate_secret_file_Ok in H end.
    repeat match goal with H : (_ =? _)%N = true |- _ => apply N.eqb_eq in H end.
    rewrite take_limit in *.
    match goal with H : (_ <? _)%N = false |- _ => apply N.ltb_ge in H end.
    match goal with H : fv_open _ _ = Some (_, Some ?c) |- _ => rename c into content end.
    assert (take (N.to_nat (MAX_SECRET_BYTES + 1)) content = content) as Htake
      by (apply take_ge; lia). rewrite Htake in *.
    eexists _, _, content. split_and!; try done.
    by apply strip_line_ending_file.
  - intros (m & o & content & -> & Ho & Hm & Hpo & Hd & Hi & Hl & Hf & [Hne Hu Hc]).
    apply validate_secret_file_Ok in Hm as Hm', Hpo as Hpo'.
    cbn [ok_or mbind result_bind]. rewrite Hm'. cbn [mbind result_bind].
    rewrite Ho. cbn [ok_or mbind result_bind]. rewrite Hpo'. cbn [mbind result_bind].
    rewrite Hd, Hi, !N.eqb_refl. cbn [negb orb ok_or mbind result_bind].
    rewrite take_limit, (proj2 (N.ltb_ge _ _)) by done.
    rewrite take_ge by lia. apply strip_line_ending_file in Hf as ->; [|done].
    rewrite Hu, Hc. cbn. unfold str_eqb. by rewrite bool_decide_eq_false_2.
Qed.

Lemma read_secret_Err view directory name uid e : read_secret view directory name uid = Err e → e = Unavailable.
Proof.
  unfold read_secret, validate_secret_file. intros Hv.
  repeat (case_match; simplify_eq/=; try done).
  all: repeat match goal with
    | H : _ ≫= _ = Err _ |- _ => apply bind_Err_inv in H as [H|(? & _ & H)]
    | H : ok_or ?o _ = Err _ |- _ => destruct o; simplify_eq/=
    | H : (if ?b then _ else _) = Err _ |- _ => destruct b; simplify_eq/=
    | x : (_ * _)%type |- _ => destruct x
    end; done.
Qed.

(** A directory of the trusted user alone, which it can list and enter,
    without set-id or sticky bits. *)
Record private_directory (m : Metadata) (uid : N) : Prop := {
  pd_kind : md_kind m = Directory;
  pd_uid : md_uid m = uid;
  pd_others : N.land (md_mode m) 63 = 0%N;
  pd_access : N.land (md_mode m) 320 = 320%N;
  pd_special : N.land (md_mode m) 3584 = 0%N;
}.

Lemma validate_private_directory_Ok view directory uid :
  validate_private_directory view directory uid = Ok () ↔
  ∃ m, fv_lstat view directory = Some m ∧ private_directory m uid.
Proof.
  unfold validate_private_directory, mode_has, mode_lacks. destruct (fv_lstat view directory) as [m|]; cbn; [|naive_solver].
  split.
  - intros Hv. exists m. split; [done|]. res_inv. bool_prop. constructor; by apply N.eqb_eq || done.
  - intros (? & [= <-] & [-> -> H1 H2 H3]). by rewrite N.eqb_refl, H1, H2, H3.
Qed.

(** ** Resolving a session's secrets *)

(** Some rule injects the secret in a mode that is not disabled. *)
Definition needed (session : SessionConfig) (name : str) : Prop :=
  effective_credential_mode session name ≠ Disabled ∧
  ∃ rule i, rule ∈ sc_rules session ∧ i ∈ hr_inject rule ∧ hi_secret i = name.

Lemma requested_secrets_elem session name :
  name ∈ requested_secrets session ↔ needed session name.
Proof.
  unfold requested_secrets, needed. rewrite elem_of_list_to_set, list_elem_of_fmap. split.
  - intros (i & -> & Hf). apply list_elem_of_filter in Hf as [Hm Hb].
    apply list_elem_of_bind in Hb as (rule & Hi & Hr). eauto 8.
  - intros (Hm & rule & i & Hr & Hi & <-). exists i. split; [done|].
    apply list_elem_of_filter. split; [done|]. apply list_elem_of_bind. eauto.
Qed.

Lemma resolve_loop_Ok self view resolved names res :
  NoDup names →
  resolve_loop self view resolved names = Ok res ↔
  (∀ name, name ∈ names → ∃ v, res !! name = Some v ∧
     read_secret view (ss_directory self) name (ss_trusted_operator_uid self) = Ok v) ∧
  (∀ name, name ∉ names → res !! name = resolved !! name).
Proof.
  revert resolved. induction names as [|n names IH]; intros resolved Hnd; cbn [resolve_loop].
  { split; [intros [= ->]; set_solver|]. intros [_ He]. f_equal. apply map_eq. intros k.
    symmetry. apply He. set_solver. }
  apply NoDup_cons in Hnd as [Hn Hnd]. split.
  - intros Hv. res_inv. match goal with H : resolve_loop _ _ _ _ = _ |- _ => apply IH in H as [Hin Hout]; [|done] end.
    split.
    + intros k [->|Hk]%elem_of_cons; [|auto]. rewrite Hout, lookup_insert_eq by done. eauto.
    + intros k Hk. rewrite Hout, lookup_insert_ne by set_solver. done.
  - intros [Hin Hout]. destruct (Hin n) as (v & Hv & Hr); [set_solver|]. rewrite Hr. cbn [mbind result_bind].
    apply IH; [done|]. split; [set_solver|]. intros k Hk. destruct (decide (k = n)) as [->|Hne].
    + by rewrite lookup_insert_eq.
    + rewrite lookup_insert_ne by done. apply Hout. set_solver.
Qed.

Lemma resolve_in_Ok order self view session res :
  NoDup order →
  resolve_in order self view session = Ok res ↔
  (∀ name, name ∈ order → name ∈ ss_allowed self) ∧
  (order ≠ [] → validate_private_directory view (ss_directory self) (ss_trusted_operator_uid self) = Ok ()) ∧
  (∀ name, name ∈ order → ∃ v, res !! name = Some v ∧
     read_secret view (ss_directory self) name (ss_trusted_operator_uid self) = Ok v) ∧
  (∀ name, name ∉ order → res !! name = None).
Proof.
  intros Hnd. unfold resolve_in.
  assert (existsb (λ name, negb (bool_decide (name ∈ ss_allowed self))) order = false ↔
          ∀ name, name ∈ order → name ∈ ss_allowed self) as Hall.
  { rewrite existsb_elem_false. setoid_rewrite negb_false_iff. by setoid_rewrite bool_decide_eq_true. }
  destruct (existsb _ order) eqn:E.
  { split; [done|]. intros [Ha _]. by apply Hall in Ha. }
  rewrite <-Hall. case_bool_decide as Ho.
  - subst order. split.
    + intros [= <-]. split_and!; [done|done|set_solver|]. intros. apply lookup_empty.
    + intros (_ & _ & _ & Hn). f_equal. apply map_eq. intros k. rewrite lookup_empty. symmetry. apply Hn. set_solver.
  - rewrite bind_Ok_inv. split.
    + intros ([] & Hd & Hl). apply resolve_loop_Ok in Hl as [Hi Hn]; [|done].
      split_and!; [done..|]. intros k Hk. by rewrite Hn, lookup_empty.
    + intros (_ & Hd & Hi & Hn). exists (). split; [auto|]. apply resolve_loop_Ok; [done|].
      split; [done|]. intros k Hk. by rewrite Hn, lookup_empty.
Qed.

(** Only a missing entitlement is reported as one, and before any file is
    looked at. *)
Lemma resolve_in_NotEntitled order self view session :
  resolve_in order self view session = Err NotEntitled ↔ ∃ name, name ∈ order ∧ name ∉ ss_allowed self.
Proof.
  unfold resolve_in. destruct (existsb _ order) eqn:E.
  - split; [intros _|done]. apply existsb_exists in E as (name & Hin & Hb). exists name.
    apply list_elem_of_In in Hin. apply negb_true_iff, bool_decide_eq_false in Hb. done.
  - rewrite existsb_elem_false in E. split.
    + intros Hv. exfalso. case_bool_decide; [done|]. apply bind_Err_inv in Hv as [Hv|(? & _ & Hv)].
      * unfold validate_private_directory in Hv. destruct (fv_lstat _ _); [|done]. cbn in Hv. by destruct (_ || _).
      * revert Hv. generalize (∅ : ResolvedSecrets). clear. induction order as [|n order IH]; intros resolved; cbn [resolve_loop]; [done|].
        intros [Hv|(? & _ & Hv)]%bind_Err_inv; [by apply read_secret_Err in Hv|by eapply IH].
    + intros (name & Hin & Hn). apply E in Hin. apply negb_false_iff, bool_decide_eq_true in Hin. done.
Qed.

(** C19: a session's secrets resolve exactly when it is entitled to them:
    whatever the iteration order of the set, resolution succeeds with [res] if
    and only if every secret that some rule injects in an enabled mode is on
    the daemon's allow list, the secret directory belongs to the trusted user
    alone when there is any, and [res] maps exactly those names, each to the
    text of its file, which is a regular file of the trusted user that no one
    else can access and stayed the same file while it was opened. It is refused
    for lack of entitlement exactly when such a secret is not on the list. A
    disabled credential is never read. *)
Theorem resolve_exact self view session order res :
  order ≡ₚ elements (requested_secrets session) →
  (resolve_in order self view session = Ok res ↔
   (∀ name, needed session name → name ∈ ss_allowed self) ∧
   ((∃ name, needed session name) →
      ∃ m, fv_lstat view (ss_directory self) = Some m ∧ private_directory m (ss_trusted_operator_uid self)) ∧
   (∀ name, needed session name ↔ is_Some (res !! name)) ∧
   (∀ name v, res !! name = Some v →
      secret_file view (ss_directory self) name (ss_trusted_operator_uid self) v)) ∧
  (resolve_in order self view session = Err NotEntitled ↔ ∃ name, needed session name ∧ name ∉ ss_allowed self).
Proof.
  intros Hp. assert (NoDup order) as Hnd by (rewrite Hp; apply NoDup_elements).
  assert (∀ n, n ∈ order ↔ needed session n) as Ho
    by (intros n; by rewrite Hp, elem_of_elements, requested_secrets_elem).
  assert (order ≠ [] ↔ ∃ n, needed session n) as Hne.
  { setoid_rewrite <-Ho. destruct order as [|n order]; [by split; [|intros [? ?%elem_of_nil]]|].
    split; [intros _; exists n; by left|done]. }
  split; [|by rewrite resolve_in_NotEntitled; setoid_rewrite Ho].
  rewrite resolve_in_Ok, Hne, validate_private_directory_Ok by done. setoid_rewrite Ho. setoid_rewrite read_secret_Ok.
  assert (∀ n, Decision (needed session n)) as Hdec by (intros n; destruct (decide (n ∈ order)); [left|right]; by rewrite <-Ho).
  split.
  - intros (Ha & Hd & Hi & Hn). split_and!; [done|done| |].
    + intros n. split; [intros Hin; destruct (Hi n Hin) as (v & ? & _); eauto|].
      intros [v Hv]. destruct (Hdec n) as [|Hnin]; [done|]. apply Hn in Hnin. congruence.
    + intros n v Hv. destruct (Hdec n) as [Hin|Hnin].
      * destruct (Hi n Hin) as (v' & ? & ?). congruence.
      * apply Hn in Hnin. congruence.
  - intros (Ha & Hd & Hdom & Hr). split_and!; [done|done| |].
    + intros n [v Hv]%Hdom. eauto.
    + intros n Hn. apply eq_None_not_Some. by rewrite <-Hdom.
Qed.

(** Comparing resolved secrets before a reload decides their equality. *)
Lemma has_same_values_exact (a b : ResolvedSecrets) : has_same_values a b = true ↔ a = b.
Proof.
  unfold has_same_values. rewrite andb_true_iff, Nat.eqb_eq, forallb_elem. split.
  - intros [Hs Hall].
    assert (a ⊆ b) as Hsub.
    { apply map_subseteq_spec. intros k v Hk.
      apply elem_of_map_to_list in Hk. apply Hall in Hk. by apply bool_decide_eq_true in Hk. }
    apply (map_subseteq_size_eq _ _ Hsub). lia.
  - intros ->. split; [done|]. intros [k v] Hk. apply bool_decide_eq_true. by apply elem_of_map_to_list.
Qed.

(** ** Witnesses *)

Definition example_view : FsView := mkFsView
  (λ path, if str_eqb path (lit "/secrets/api-token") then Some (mkMetadata Regular 7 384 6 1 2)
           else if str_eqb path (lit "/secrets") then Some (mkMetadata Directory 7 448 0 1 1) else None)
  (λ path, if str_eqb path (lit "/secrets/api-token")
           then Some (mkMetadata Regular 7 384 6 1 2, Some (lit "s3cr3t" ++ ["010"])) else None).

Definition example_store : SecretStore := mkSecretStore (lit "/secrets") 7 {[ lit "api-token" ]}.

Definition example_secrets : ResolvedSecrets := {[ lit "api-token" := lit "s3cr3t" ]}.

Lemma resolve_exact_witness :
  (∀ name, needed example_session name ↔ is_Some (example_secrets !! name)) ∧
  secret_file example_view (lit "/secrets") (lit "api-token") 7 (lit "s3cr3t") ∧
  resolve_in (elements (requested_secrets example_session)) (mkSecretStore (lit "/secrets") 7 ∅) example_view example_session
    = Err NotEntitled.
Proof.
  destruct (proj1 (proj1 (resolve_exact example_store example_view example_session
    (elements (requested_secrets example_session)) example_secrets ltac:(reflexivity))))
    as (_ & _ & H1 & H2); [vm_compute; reflexivity|]. split; [exact H1|]. split; [exact (H2 (lit "api-token") _ eq_refl)|].
  apply (resolve_exact (mkSecretStore (lit "/secrets") 7 ∅) example_view example_session
    (elements (requested_secrets example_session)) ∅ ltac:(reflexivity)).
  exists (lit "api-token"). split; [|by apply not_elem_of_empty]. apply H1. eexists. reflexivity.
Defined.
