(* ===== verification/Telemetry.v ===== *)
(** Process-local counters (src/telemetry.rs).

    Every counter is an [AtomicU64]: [fetch_add] and [fetch_sub] wrap at 2^64,
    so a counter is an [N] below 2^64 and the two operations are written with
    their wrap-around. Each operation is one atomic step (or, for
    [connection_started], two steps on independent counters), so a concurrent
    run is some sequence of these operations. *)

From S2P Require Import Prelude.
From stdpp Require Import options.
Local Open Scope N_scope.

Definition U64 : N := 2 ^ 64.
Definition fetch_add1 (n : N) : N := (n + 1) mod U64.
Definition fetch_sub1 (n : N) : N := (n + (U64 - 1)) mod U64.

Record Metrics := mkMetrics {
  active_sessions : N;
  accepted_connections : N;
  active_connections : N;
  denied_requests : N;
  upstream_failures : N;
  interception_errors : N;
  forced_shutdowns : N;
}.
#[export] Instance Metrics_eq_dec : EqDecision Metrics.
Proof. solve_decision. Defined.

Definition metrics_default : Metrics := mkMetrics 0 0 0 0 0 0 0.

(** The operations return the value after the step, as the source does. *)
Definition session_started (m : Metrics) : Metrics * N :=
  let n := fetch_add1 (active_sessions m) in
  (mkMetrics n (accepted_connections m) (active_connections m) (denied_requests m)
     (upstream_failures m) (interception_errors m) (forced_shutdowns m), n).
Definition session_stopped (m : Metrics) : Metrics * N :=
  let n := fetch_sub1 (active_sessions m) in
  (mkMetrics n (accepted_connections m) (active_connections m) (denied_requests m)
     (upstream_failures m) (interception_errors m) (forced_shutdowns m), n).
Definition connection_started (m : Metrics) : Metrics :=
  mkMetrics (active_sessions m) (fetch_add1 (accepted_connections m))
    (fetch_add1 (active_connections m)) (denied_requests m)
    (upstream_failures m) (interception_errors m) (forced_shutdowns m).
Definition connection_stopped (m : Metrics) : Metrics :=
  mkMetrics (active_sessions m) (accepted_connections m)
    (fetch_sub1 (active_connections m)) (denied_requests m)
    (upstream_failures m) (interception_errors m) (forced_shutdowns m).
Definition denied_request (m : Metrics) : Metrics * N :=
  let n := fetch_add1 (denied_requests m) in
  (mkMetrics (active_sessions m) (accepted_connections m) (active_connections m) n
     (upstream_failures m) (interception_errors m) (forced_shutdowns m), n).
Definition upstream_failure (m : Metrics) : Metrics * N :=
  let n := fetch_add1 (upstream_failures m) in
  (mkMetrics (active_sessions m) (accepted_connections m) (active_connections m) (denied_requests m)
     n (interception_errors m) (forced_shutdowns m), n).
Definition interception_error (m : Metrics) : Metrics * N :=
  let n := fetch_add1 (interception_errors m) in
  (mkMetrics (active_sessions m) (accepted_connections m) (active_connections m) (denied_requests m)
     (upstream_failures m) n (forced_shutdowns m), n).
Definition forced_shutdown (m : Metrics) : Metrics * N :=
  let n := fetch_add1 (forced_shutdowns m) in
  (mkMetrics (active_sessions m) (accepted_connections m) (active_connections m) (denied_requests m)
     (upstream_failures m) (interception_errors m) n, n).

(** ** Gauges *)

Lemma fetch_add1_small n : n + 1 < U64 → fetch_add1 n = n + 1.
Proof. intros Hn. by apply N.mod_small. Qed.

Lemma fetch_sub1_pos n : 0 < n → n < U64 → fetch_sub1 n = n - 1.
Proof.
  intros Hp Hn. unfold fetch_sub1.
  replace (n + (U64 - 1)) with ((n - 1) + 1 * U64) by (unfold U64 in *; lia).
  rewrite N.Div0.mod_add. apply N.mod_small. lia.
Qed.

Lemma fetch_sub1_add1 n : n < U64 → fetch_sub1 (fetch_add1 n) = n.
Proof.
  intros Hn. destruct (decide (n + 1 < U64)) as [H|H].
  - rewrite fetch_add1_small by done. rewrite fetch_sub1_pos; lia.
  - assert (n = U64 - 1) as -> by (unfold U64 in *; lia). vm_compute. done.
Qed.
