(* ===== verification/AcceptLoop.v ===== *)
(** The accept loop of one session listener (run_proxy of
    src/proxy_runtime/rama/ingress.rs).

    The loop, its connection tasks and the rest of the daemon interleave. One
    turn of the biased [select!] looks at its branches in order, one step
    each: the two cancellation tokens, the finished connections, the listener;
    a token cancelled after it was looked at is seen on the next turn. A task
    counts itself active when it is first polled; it then serves its client
    for as long as [connect::handle_client] goes on, possibly forever, and its
    guards (the permit and [ConnectionGuard]) run when it ends, panics or is
    aborted. The permits and the counters are shared with other loops of the
    daemon. *)

From S2P Require Import Prelude Telemetry.
From stdpp Require Import relations options.

(** ** State *)

Inductive conn_status := Spawned | Serving | Finished | Panicked.

(** A connection task, with the policy generation it was accepted under. *)
Record conn := mkConn { cn_generation : N; cn_status : conn_status }.

Inductive loop_result := LoopOk | LoopTaskFailed | LoopAcceptFailed | LoopAborted.

(** Where the loop stands: before each branch of the [select!], draining, or
    returned. *)
Inductive phase := AtCancellation | AtRetirement | AtJoin | AtAccept | Draining | Returned (r : loop_result).

Record state := mkState {
  st_phase : phase;
  st_listener_open : bool;
  st_guard_held : bool;
  st_conns : gmap nat conn;
  st_next : nat;
  st_permits : nat;
  st_other_permits : nat;
  st_metrics : Metrics;
  st_other_active : N;
  st_cancelled : bool;
  st_retired : bool;
  st_gate : N;
  st_generation : N;
}.

Definition set_phase (ph : phase) (s : state) : state :=
  mkState ph (st_listener_open s) (st_guard_held s) (st_conns s) (st_next s) (st_permits s) (st_other_permits s)
    (st_metrics s) (st_other_active s) (st_cancelled s) (st_retired s) (st_gate s) (st_generation s).

Definition set_conns (conns : gmap nat conn) (permits : nat) (metrics : Metrics) (s : state) : state :=
  mkState (st_phase s) (st_listener_open s) (st_guard_held s) conns (st_next s) permits (st_other_permits s)
    metrics (st_other_active s) (st_cancelled s) (st_retired s) (st_gate s) (st_generation s).

(** [break]: the listener is dropped and the socket guard taken, so that the
    socket is gone before the connections are drained. *)
Definition leave_loop (s : state) : state :=
  mkState Draining false false (st_conns s) (st_next s) (st_permits s) (st_other_permits s)
    (st_metrics s) (st_other_active s) (st_cancelled s) (st_retired s) (st_gate s) (st_generation s).

(** An early return drops the listener; the guard stays with the runtime. *)
Definition return_early (r : loop_result) (s : state) : state :=
  mkState (Returned r) false (st_guard_held s) (st_conns s) (st_next s) (st_permits s) (st_other_permits s)
    (st_metrics s) (st_other_active s) (st_cancelled s) (st_retired s) (st_gate s) (st_generation s).

(** An accepted stream: refused when the gate has moved on or no permit is
    free, else a task under the current generation. *)
Definition accept_stream (listener_generation : N) (s : state) : state :=
  if negb (st_gate s =? listener_generation)%N then set_phase AtCancellation s
  else match st_permits s with
       | O => set_phase AtCancellation s
       | S permits =>
           mkState AtCancellation (st_listener_open s) (st_guard_held s)
             (<[st_next s := mkConn (st_generation s) Spawned]> (st_conns s)) (S (st_next s)) permits
             (st_other_permits s) (st_metrics s) (st_other_active s) (st_cancelled s) (st_retired s)
             (st_gate s) (st_generation s)
       end.

(** The join of one finished task inside the loop. *)
Definition join_one (id : nat) (c : conn) (s : state) : state :=
  let s' := set_conns (delete id (st_conns s)) (st_permits s) (st_metrics s) s in
  match cn_status c with
  | Panicked => return_early LoopTaskFailed s'
  | _ => set_phase AtCancellation s'
  end.

(** The end of a task that was being served: both guards run. *)
Definition end_task (id : nat) (c : conn) (status : conn_status) (s : state) : state :=
  set_conns (<[id := mkConn (cn_generation c) status]> (st_conns s)) (S (st_permits s))
    (connection_stopped (st_metrics s)) s.

Definition joinable (c : conn) : bool :=
  match cn_status c with Finished | Panicked => true | _ => false end.
Definition serving (c : conn) : bool := match cn_status c with Serving => true | _ => false end.
Definition holds_permit (c : conn) : bool := negb (joinable c).

Definition returned (s : state) : bool := match st_phase s with Returned _ => true | _ => false end.

(** ** Steps *)

(** Who takes a step, and what others can see of it: the turns of the loop, an
    accepted stream, the stages of one connection's task, and what the rest of
    the daemon does to this listener ([Elsewhere] for what it does to shared
    permits, counters and the gate). *)
Inductive actor := Loop | Task | Other.

Inductive event :=
| Turn | Accept | Start (id : nat) | Serve (id : nat) | Finish (id : nat) | Panic (id : nat) | Aborted (id : nat)
| CancelLoop | RetireLoop | Install | AbortLoop | Elsewhere.

Definition actor_of (e : event) : actor :=
  match e with
  | Turn | Accept => Loop
  | Start _ | Serve _ | Finish _ | Panic _ | Aborted _ => Task
  | CancelLoop | RetireLoop | Install | AbortLoop | Elsewhere => Other
  end.

Section loop.
Context (listener_generation : N) (capacity : nat).

Inductive step : event → state → state → Prop :=
| loop_cancelled s :
    st_phase s = AtCancellation → st_cancelled s = true → step Turn s (leave_loop s)
| loop_not_cancelled s :
    st_phase s = AtCancellation → st_cancelled s = false → step Turn s (set_phase AtRetirement s)
| loop_retired s :
    st_phase s = AtRetirement → st_retired s = true → step Turn s (leave_loop s)
| loop_not_retired s :
    st_phase s = AtRetirement → st_retired s = false → step Turn s (set_phase AtJoin s)
| loop_join s id c :
    st_phase s = AtJoin → st_conns s !! id = Some c → joinable c = true → step Turn s (join_one id c s)
| loop_no_join s :
    st_phase s = AtJoin → (∀ id c, st_conns s !! id = Some c → joinable c = false) →
    step Turn s (set_phase AtAccept s)
| loop_accept s : st_phase s = AtAccept → step Accept s (accept_stream listener_generation s)
| loop_accept_failed s : st_phase s = AtAccept → step Turn s (return_early LoopAcceptFailed s)
| loop_pending s : st_phase s = AtAccept → step Turn s (set_phase AtCancellation s)
| loop_drain s id c :
    st_phase s = Draining → st_conns s !! id = Some c → joinable c = true →
    step Turn s (set_conns (delete id (st_conns s)) (st_permits s) (st_metrics s) s)
| loop_done s : st_phase s = Draining → st_conns s = ∅ → step Turn s (set_phase (Returned LoopOk) s)
| task_start s id c :
    returned s = false → st_conns s !! id = Some c → cn_status c = Spawned →
    step (Start id) s (set_conns (<[id := mkConn (cn_generation c) Serving]> (st_conns s)) (st_permits s)
                   (connection_started (st_metrics s)) s)
(* more of the client is served: nothing says how often; an aborted task is
   not polled again *)
| task_serve s id c metrics :
    returned s = false → st_conns s !! id = Some c → cn_status c = Serving →
    active_connections metrics = active_connections (st_metrics s) →
    step (Serve id) s (set_conns (st_conns s) (st_permits s) metrics s)
| task_end s id c :
    st_conns s !! id = Some c → cn_status c = Serving → step (Finish id) s (end_task id c Finished s)
| task_panic s id c :
    st_conns s !! id = Some c → cn_status c = Serving → step (Panic id) s (end_task id c Panicked s)
| task_abort s id c :
    returned s = true → st_conns s !! id = Some c →
    step (Aborted id) s (set_conns (delete id (st_conns s))
                   (if holds_permit c then S (st_permits s) else st_permits s)
                   (if serving c then connection_stopped (st_metrics s) else st_metrics s) s)
| other_cancel s :
    step CancelLoop s (mkState (st_phase s) (st_listener_open s) (st_guard_held s) (st_conns s) (st_next s) (st_permits s)
      (st_other_permits s) (st_metrics s) (st_other_active s) true (st_retired s) (st_gate s) (st_generation s))
| other_retire s :
    step RetireLoop s (mkState (st_phase s) (st_listener_open s) (st_guard_held s) (st_conns s) (st_next s) (st_permits s)
      (st_other_permits s) (st_metrics s) (st_other_active s) (st_cancelled s) true (st_gate s) (st_generation s))
| other_install s generation :
    (st_generation s ≤ generation)%N →
    step Install s (mkState (st_phase s) (st_listener_open s) (st_guard_held s) (st_conns s) (st_next s) (st_permits s)
      (st_other_permits s) (st_metrics s) (st_other_active s) (st_cancelled s) (st_retired s) (st_gate s) generation)
| other_gate s gate :
    step Elsewhere s (mkState (st_phase s) (st_listener_open s) (st_guard_held s) (st_conns s) (st_next s) (st_permits s)
      (st_other_permits s) (st_metrics s) (st_other_active s) (st_cancelled s) (st_retired s) gate (st_generation s))
| other_counts s metrics :
    active_connections metrics = active_connections (st_metrics s) →
    step Elsewhere s (set_conns (st_conns s) (st_permits s) metrics s)
| other_acquire s permits :
    st_permits s = S permits →
    step Elsewhere s (mkState (st_phase s) (st_listener_open s) (st_guard_held s) (st_conns s) (st_next s) permits
      (S (st_other_permits s)) (st_metrics s) (st_other_active s) (st_cancelled s) (st_retired s) (st_gate s)
      (st_generation s))
| other_release s others :
    st_other_permits s = S others →
    step Elsewhere s (mkState (st_phase s) (st_listener_open s) (st_guard_held s) (st_conns s) (st_next s)
      (S (st_permits s)) others (st_metrics s) (st_other_active s) (st_cancelled s) (st_retired s) (st_gate s)
      (st_generation s))
| other_started s :
    step Elsewhere s (mkState (st_phase s) (st_listener_open s) (st_guard_held s) (st_conns s) (st_next s) (st_permits s)
      (st_other_permits s) (connection_started (st_metrics s)) (st_other_active s + 1) (st_cancelled s)
      (st_retired s) (st_gate s) (st_generation s))
| other_stopped s :
    (0 < st_other_active s)%N →
    step Elsewhere s (mkState (st_phase s) (st_listener_open s) (st_guard_held s) (st_conns s) (st_next s) (st_permits s)
      (st_other_permits s) (connection_stopped (st_metrics s)) (st_other_active s - 1) (st_cancelled s)
      (st_retired s) (st_gate s) (st_generation s))
| other_abort s :
    returned s = false → step AbortLoop s (return_early LoopAborted s).

(** A listener that starts: nothing accepted, all permits free or with other
    loops. *)
Definition initial (s : state) : Prop :=
  st_phase s = AtCancellation ∧ st_listener_open s = true ∧ st_guard_held s = true ∧ st_conns s = ∅ ∧
  st_next s = 0 ∧ st_permits s + st_other_permits s = capacity ∧
  active_connections (st_metrics s) = (st_other_active s mod U64)%N.

Inductive reachable : state → Prop :=
| reach_init s : initial s → reachable s
| reach_step s e s' : reachable s → step e s s' → reachable s'.

(** The events of a run, in order. *)
Inductive run : list event → state → state → Prop :=
| run_nil s : run [] s s
| run_cons e tr s s1 s2 : step e s s1 → run tr s1 s2 → run (e :: tr) s s2.

(** The connection was accepted in the state [s1], when nothing had the number
    [id] yet, the gate was on this listener, and the generation it carries was
    the one installed. *)
Definition accepted_as (id : nat) (c : conn) (s : state) : Prop :=
  ∃ s1 s2 tr, reachable s1 ∧ step Accept s1 s2 ∧ run tr s2 s ∧
    st_next s1 = id ∧ st_next s2 = S id ∧ st_gate s1 = listener_generation ∧ cn_generation c = st_generation s1.
End loop.

Lemma run_snoc listener_generation tr e s s1 s2 :
  run listener_generation tr s s1 → step listener_generation e s1 s2 → run listener_generation (tr ++ [e]) s s2.
Proof. induction 1; intros; econstructor; eauto using run. Qed.

(** ** Counting tasks *)

Definition count (f : conn → bool) (m : gmap nat conn) : nat := size (filter (λ kv, f kv.2 = true) m).

Section count.
Context (f : conn → bool).
Implicit Types (m : gmap nat conn).

Lemma count_empty : count f ∅ = 0.
Proof. unfold count. by rewrite map_filter_empty. Qed.

Lemma count_insert m id c :
  m !! id = None → count f (<[id := c]> m) = (if f c then 1 else 0) + count f m.
Proof.
  intros Hid. unfold count. destruct (f c) eqn:Hc.
  - rewrite map_filter_insert_True by done. rewrite map_size_insert_None; [done|].
    apply map_lookup_filter_None. by left.
  - rewrite map_filter_insert_False by (cbn; congruence). by rewrite delete_id.
Qed.

Lemma count_delete m id c : m !! id = Some c → count f m = (if f c then 1 else 0) + count f (delete id m).
Proof.
  intros Hid. rewrite <- (insert_delete_id m id c) at 1 by done.
  apply count_insert, lookup_delete_eq.
Qed.

Lemma count_update m id c c' :
  m !! id = Some c →
  count f (<[id := c']> m) + (if f c then 1 else 0) = (if f c' then 1 else 0) + count f m.
Proof.
  intros Hid. rewrite (count_delete m id c Hid), <- insert_delete_eq, count_insert by apply lookup_delete_eq. lia.
Qed.
End count.

(** ** Invariant *)

Lemma active_started m n :
  active_connections m = (n mod U64)%N → active_connections (connection_started m) = ((n + 1) mod U64)%N.
Proof. cbn. intros ->. unfold fetch_add1. by rewrite N.Div0.add_mod_idemp_l. Qed.
Lemma active_stopped m n :
  (0 < n)%N → active_connections m = (n mod U64)%N → active_connections (connection_stopped m) = ((n - 1) mod U64)%N.
Proof.
  cbn. intros Hn ->. unfold fetch_sub1. rewrite N.Div0.add_mod_idemp_l.
  replace (n + (U64 - 1))%N with ((n - 1) + 1 * U64)%N by (unfold U64; lia). apply N.Div0.mod_add.
Qed.

Section invariant.
Context (listener_generation : N) (capacity : nat).

Record loop_inv (s : state) : Prop := {
  li_permits : st_permits s + st_other_permits s + count holds_permit (st_conns s) = capacity;
  li_active : active_connections (st_metrics s)
              = ((st_other_active s + N.of_nat (count serving (st_conns s))) mod U64)%N;
  li_ids : ∀ id c, st_conns s !! id = Some c → id < st_next s ∧ (cn_generation c ≤ st_generation s)%N;
  li_listener : match st_phase s with
                | Draining | Returned _ => st_listener_open s = false
                | _ => st_listener_open s = true
                end;
  li_guard : match st_phase s with
             | Draining | Returned LoopOk => st_guard_held s = false
             | _ => True
             end;
  li_drained : st_phase s = Returned LoopOk → st_conns s = ∅;
}.

Lemma loop_inv_initial s : initial capacity s → loop_inv s.
Proof.
  intros (Hp & Hl & Hg & Hc & Hn & Hcap & Hact). split; rewrite ?Hp, ?Hc, ?count_empty; try done; [lia|].
  by rewrite N.add_0_r.
Qed.

(** A step of the loop that changes only where it stands. *)
Lemma loop_inv_phase s ph :
  loop_inv s → st_listener_open s = true →
  match ph with Draining | Returned _ => False | _ => True end → loop_inv (set_phase ph s).
Proof.
  intros [Hp Ha Hi Hl Hg Hd] Ho Hph. split; try done; cbn; by destruct ph.
Qed.

Lemma loop_inv_leave s : loop_inv s → loop_inv (leave_loop s).
Proof. intros [Hp Ha Hi Hl Hg Hd]. by split. Qed.

Lemma loop_inv_return s r : loop_inv s → r ≠ LoopOk → loop_inv (return_early r s).
Proof. intros [Hp Ha Hi Hl Hg Hd] Hr. split; try done; cbn; [by destruct r|congruence]. Qed.

(** A joined task has given back its permit and is not counted active. *)
Lemma loop_inv_join s id c :
  loop_inv s → st_conns s !! id = Some c → joinable c = true → st_phase s ≠ Returned LoopOk →
  loop_inv (set_conns (delete id (st_conns s)) (st_permits s) (st_metrics s) s).
Proof.
  intros [Hp Ha Hi Hl Hg Hd] Hc Hj Hph.
  rewrite (count_delete _ _ _ _ Hc) in Hp. rewrite (count_delete _ _ _ _ Hc) in Ha.
  assert (holds_permit c = false) as Hh by (unfold holds_permit; by rewrite Hj).
  assert (serving c = false) as Hs by (unfold serving, joinable in *; by destruct (cn_status c)).
  rewrite Hh in Hp. rewrite Hs in Ha. split; cbn; try done.
  intros j cj Hj'. apply lookup_delete_Some in Hj' as [_ Hj']. by apply Hi in Hj'.
Qed.

Lemma loop_inv_accept s : loop_inv s → st_phase s = AtAccept → loop_inv (accept_stream listener_generation s).
Proof.
  intros Hinv Hph. assert (Ho : st_listener_open s = true).
  { pose proof (li_listener _ Hinv) as Hl. by rewrite Hph in Hl. }
  unfold accept_stream. destruct (negb _); [by apply loop_inv_phase|].
  destruct (st_permits s) as [|permits] eqn:Hpe; [by apply loop_inv_phase|].
  destruct Hinv as [Hp Ha Hi Hl Hg Hd].
  assert (Hfresh : st_conns s !! st_next s = None).
  { destruct (st_conns s !! st_next s) as [c|] eqn:Hc; [|done]. apply Hi in Hc. lia. }
  split; cbn; try done.
  - rewrite count_insert by done. cbn. lia.
  - by rewrite count_insert by done.
  - intros j cj Hj. apply lookup_insert_Some in Hj as [[<- <-]|[_ Hj]]; [cbn; lia|]. apply Hi in Hj. lia.
Qed.

(** A change of one task's status, with the permits and the gauge following. *)
Lemma loop_inv_task s id c status permits metrics :
  loop_inv s → st_conns s !! id = Some c →
  (let c' := mkConn (cn_generation c) status in
   permits + (if holds_permit c' then 1 else 0) = st_permits s + (if holds_permit c then 1 else 0) ∧
   active_connections metrics
   = ((st_other_active s + N.of_nat (count serving (<[id := c']> (st_conns s)))) mod U64)%N) →
  st_phase s ≠ Returned LoopOk →
  loop_inv (set_conns (<[id := mkConn (cn_generation c) status]> (st_conns s)) permits metrics s).
Proof.
  intros [Hp Ha Hi Hl Hg Hd] Hc [Hper Hact] Hph. split; cbn; try done.
  - pose proof (count_update holds_permit _ _ _ (mkConn (cn_generation c) status) Hc). lia.
  - intros j cj Hj. apply lookup_insert_Some in Hj as [[<- <-]|[_ Hj]]; [cbn|]; by eapply Hi.
Qed.

Lemma not_returned_ok s : loop_inv s → ∀ id c, st_conns s !! id = Some c → st_phase s ≠ Returned LoopOk.
Proof. intros Hinv id c Hc Hph. rewrite (li_drained _ Hinv Hph) in Hc. done. Qed.

Lemma loop_inv_start s id c :
  loop_inv s → st_conns s !! id = Some c → cn_status c = Spawned →
  loop_inv (set_conns (<[id := mkConn (cn_generation c) Serving]> (st_conns s)) (st_permits s)
              (connection_started (st_metrics s)) s).
Proof.
  intros Hinv Hc Hst. apply loop_inv_task; [done|done| |by eapply not_returned_ok]. split.
  - unfold holds_permit, joinable. by rewrite Hst.
  - rewrite (active_started _ _ (li_active _ Hinv)). f_equal.
    pose proof (count_update serving _ _ _ (mkConn (cn_generation c) Serving) Hc) as Hcu.
    assert (serving c = false) as Hsc by (unfold serving; by rewrite Hst).
    rewrite Hsc in Hcu. change (serving (mkConn _ Serving)) with true in Hcu. cbv iota in Hcu. lia.
Qed.

Lemma loop_inv_end s id c status :
  loop_inv s → st_conns s !! id = Some c → cn_status c = Serving → status = Finished ∨ status = Panicked →
  loop_inv (end_task id c status s).
Proof.
  intros Hinv Hc Hst Hstatus. unfold end_task. apply loop_inv_task; [done|done| |by eapply not_returned_ok].
  pose proof (count_update serving _ _ _ (mkConn (cn_generation c) status) Hc) as Hcu.
  assert (serving c = true) as Hsc by (unfold serving; by rewrite Hst).
  assert (serving (mkConn (cn_generation c) status) = false) as Hsc' by (by destruct Hstatus as [->| ->]).
  rewrite Hsc, Hsc' in Hcu. cbv iota in Hcu. split.
  - unfold holds_permit, joinable. rewrite Hst. destruct Hstatus as [->| ->]; cbn; lia.
  - rewrite (active_stopped _ (st_other_active s + N.of_nat (count serving (st_conns s)))%N); [f_equal; lia|lia|apply (li_active _ Hinv)].
Qed.

Lemma loop_inv_abort s id c :
  loop_inv s → st_conns s !! id = Some c →
  loop_inv (set_conns (delete id (st_conns s)) (if holds_permit c then S (st_permits s) else st_permits s)
              (if serving c then connection_stopped (st_metrics s) else st_metrics s) s).
Proof.
  intros Hinv Hc. pose proof (not_returned_ok _ Hinv _ _ Hc) as Hok. destruct Hinv as [Hp Ha Hi Hl Hg Hd].
  rewrite (count_delete _ _ _ _ Hc) in Hp. rewrite (count_delete _ _ _ _ Hc) in Ha. split; cbn; try done.
  - destruct (holds_permit c); lia.
  - destruct (serving c); [|done]. erewrite active_stopped; [| |exact Ha]; [f_equal; lia|lia].
  - intros j cj Hj. apply lookup_delete_Some in Hj as [_ Hj]. by apply Hi in Hj.
Qed.

Lemma loop_inv_step a s s' : loop_inv s → step listener_generation a s s' → loop_inv s'.
Proof.
  intros Hinv Hstep.
  assert (Hopen : match st_phase s with Draining | Returned _ => True | _ => st_listener_open s = true end).
  { pose proof (li_listener _ Hinv). by destruct (st_phase s). }
  destruct Hstep as [s Hph|s Hph|s Hph|s Hph|s id c Hph Hc Hj|s Hph|s Hph|s Hph|s Hph|s id c Hph Hc Hj|s Hph He
    |s id c ? Hc Hst|s id c m ? Hc Hst Hm|s id c Hc Hst|s id c Hc Hst|s id c ? Hc|s|s|s gen Hgen|s g|s m Hm|s permits Hpe|s others Hot|s|s Hpos|s Hret];
    rewrite ?Hph in Hopen;
    try (by apply loop_inv_leave); try (by apply loop_inv_phase); try (by apply loop_inv_accept);
    try (by apply loop_inv_return).
  - unfold join_one. destruct (cn_status c) eqn:Hst; try (by unfold joinable in Hj; rewrite Hst in Hj).
    + apply loop_inv_phase; [|done|done]. apply (loop_inv_join s id c); [done..|congruence].
    + apply loop_inv_return; [|done]. apply (loop_inv_join s id c); [done..|congruence].
  - apply (loop_inv_join s id c); [done..|congruence].
  - destruct Hinv as [Hp Ha Hi Hl Hg Hd]. rewrite Hph in *. by split.
  - by apply loop_inv_start.
  - destruct Hinv as [Hp Ha Hi Hl Hg Hd]. split; cbn; try done. by rewrite Hm.
  - apply loop_inv_end; auto.
  - apply loop_inv_end; auto.
  - by apply loop_inv_abort.
  - destruct Hinv as [Hp Ha Hi Hl Hg Hd]. by split.
  - destruct Hinv as [Hp Ha Hi Hl Hg Hd]. by split.
  - destruct Hinv as [Hp Ha Hi Hl Hg Hd]. split; cbn; try done. intros id c Hc. apply Hi in Hc. lia.
  - destruct Hinv as [Hp Ha Hi Hl Hg Hd]. by split.
  - destruct Hinv as [Hp Ha Hi Hl Hg Hd]. split; cbn; try done. by rewrite Hm.
  - destruct Hinv as [Hp Ha Hi Hl Hg Hd]. split; cbn; try done. lia.
  - destruct Hinv as [Hp Ha Hi Hl Hg Hd]. split; cbn; try done. lia.
  - destruct Hinv as [Hp Ha Hi Hl Hg Hd]. split; cbn [st_permits st_metrics st_conns st_other_active]; try done.
    rewrite (active_started _ _ Ha). f_equal. lia.
  - destruct Hinv as [Hp Ha Hi Hl Hg Hd]. split; cbn [st_permits st_metrics st_conns st_other_active]; try done.
    erewrite active_stopped; [| |exact Ha]; [f_equal; lia|lia].
Qed.

Lemma reachable_inv s : reachable listener_generation capacity s → loop_inv s.
Proof. induction 1; [by apply loop_inv_initial|by eapply loop_inv_step]. Qed.

(** A connection after a step was there before, under the same generation, or
    has just been accepted under the current one. *)
Lemma step_conn e s s' id c' :
  step listener_generation e s s' → st_conns s' !! id = Some c' →
  (∃ c, st_conns s !! id = Some c ∧ cn_generation c' = cn_generation c) ∨
  (e = Accept ∧ id = st_next s ∧ st_next s' = S id ∧ st_gate s = listener_generation ∧ cn_generation c' = st_generation s).
Proof.
  intros Hstep Hc'.
  destruct Hstep as [| | | |s i c ? Hc| |s|? ?| |s i c ? Hc| |s i c ? Hc|s i c ? ? Hc|s i c Hc|s i c Hc|s i c ? Hc
    | | | | | | | | | |]; try (by left; eauto).
  - left. unfold join_one in Hc'. destruct (cn_status c); cbn in Hc'; apply lookup_delete_Some in Hc' as [_ ?]; eauto.
  - unfold accept_stream in *. destruct (N.eqb_spec (st_gate s) listener_generation) as [Hg|]; cbn in Hc' |- *; [|by left; eauto].
    destruct (st_permits s); cbn in Hc' |- *; [by left; eauto|].
    apply lookup_insert_Some in Hc' as [[<- <-]|[_ ?]]; [by right|by left; eauto].
  - left. cbn in Hc'. apply lookup_delete_Some in Hc' as [_ ?]. eauto.
  - left. cbn in Hc'. apply lookup_insert_Some in Hc' as [[<- <-]|[_ ?]]; eauto.
  - left. cbn in Hc'. apply lookup_insert_Some in Hc' as [[<- <-]|[_ ?]]; eauto.
  - left. cbn in Hc'. apply lookup_insert_Some in Hc' as [[<- <-]|[_ ?]]; eauto.
  - left. cbn in Hc'. apply lookup_delete_Some in Hc' as [_ ?]. eauto.
Qed.

Lemma reachable_accepted s :
  reachable listener_generation capacity s →
  ∀ id c, st_conns s !! id = Some c → accepted_as listener_generation capacity id c s.
Proof.
  induction 1 as [s Hi|s e s' Hr IH Hstep]; intros id c' Hc'.
  { destruct Hi as (_ & _ & _ & Hc & _). rewrite Hc in Hc'. done. }
  destruct (step_conn _ _ _ _ _ Hstep Hc') as [(c & Hc & Hg)|(-> & -> & Hn & Hgate & Hg)].
  - destruct (IH id c Hc) as (s1 & s2 & tr & H1 & H2 & H3 & H4 & H5 & H6 & H7).
    exists s1, s2, (tr ++ [e]). split_and!; [done|done|by eapply run_snoc|done..|congruence].
  - exists s, s', []. split_and!; [done|done|apply run_nil|done..].
Qed.
End invariant.

(** C27: in every interleaving of the loop, its connections and the rest of the
    daemon: free permits, those of other loops and those of this loop's
    connections add up to the limit, so at most that many connections are
    live; the gauge of active connections is exact; a connection runs under
    exactly the generation that was installed when it was accepted, which was
    while the gate was on this listener, however often the policy is replaced
    afterwards; and once the loop stops accepting, its socket is closed and
    released before it returns without connections. *)
Theorem accept_loop_accounting listener_generation capacity s :
  reachable listener_generation capacity s →
  st_permits s + st_other_permits s + count holds_permit (st_conns s) = capacity ∧
  active_connections (st_metrics s)
    = ((st_other_active s + N.of_nat (count serving (st_conns s))) mod U64)%N ∧
  (∀ id c, st_conns s !! id = Some c →
     accepted_as listener_generation capacity id c s ∧ (cn_generation c ≤ st_generation s)%N) ∧
  (st_phase s = Draining ∨ st_phase s = Returned LoopOk → st_listener_open s = false ∧ st_guard_held s = false) ∧
  (st_phase s = Returned LoopOk → st_conns s = ∅).
Proof.
  intros Hr. destruct (reachable_inv _ _ _ Hr) as [Hp Ha Hi Hl Hg Hd].
  split; [done|]. split; [done|]. split; [intros id c Hc; split; [by apply reachable_accepted|by destruct (Hi id c Hc)]|]. split; [|done].
  intros [Hph|Hph]; rewrite Hph in Hl, Hg; by split.
Qed.

(** ** Stopping *)

Definition stopping (s : state) : Prop := st_cancelled s = true ∨ st_retired s = true.

(** The steps of one actor in a run. *)
Definition is_of (a : actor) (e : event) : nat :=
  match a, actor_of e with Loop, Loop | Task, Task | Other, Other => 1 | _, _ => 0 end.
Definition steps_of (a : actor) (tr : list event) : nat := sum_list (is_of a <$> tr).
Lemma steps_of_cons a e tr : steps_of a (e :: tr) = is_of a e + steps_of a tr.
Proof. done. Qed.

(** How many turns a loop that was told to stop has left, but for those that
    join a connection. *)
Definition phase_weight (s : state) : nat :=
  match st_phase s with
  | AtCancellation => if st_cancelled s then 2 else 3
  | AtRetirement => if st_retired s then 2 else 7
  | AtJoin => 6
  | AtAccept => 5
  | Draining => 1
  | Returned _ => 0
  end.
Definition turns_left (s : state) : nat := phase_weight s + size (st_conns s).

(** What is left of the tasks of a loop that has returned: the end of the poll
    they are in, and their removal. *)
Definition load (m : gmap nat conn) : nat := 2 * count holds_permit m + count joinable m.

Lemma size_delete (m : gmap nat conn) id c : m !! id = Some c → size m = S (size (delete id m)).
Proof. intros Hid. rewrite <- (insert_delete_id m id c) at 1 by done. by rewrite map_size_insert_None by apply lookup_delete_eq. Qed.
Lemma size_update (m : gmap nat conn) id c c' : m !! id = Some c → size (<[id := c']> m) = size m.
Proof. intros Hid. by rewrite map_size_insert_Some by eauto. Qed.
Lemma load_size m : load m ≤ 2 * size m.
Proof.
  unfold load. induction m as [|id c m Hid IH] using map_ind; [by rewrite !count_empty|].
  rewrite !count_insert, map_size_insert_None by done. change (holds_permit c) with (negb (joinable c)).
  destruct (joinable c); cbn [negb]; lia.
Qed.

Section stopping.
Context (listener_generation : N) (capacity : nat).

(** Every turn takes a stopping loop closer to its end, and no other step takes
    it away from it. *)
Lemma step_turns e s s' :
  reachable listener_generation capacity s → stopping s → step listener_generation e s s' →
  stopping s' ∧ is_of Loop e + turns_left s' ≤ turns_left s.
Proof.
  intros Hr Hst Hstep. pose proof (reachable_inv _ _ _ Hr) as Hinv. unfold turns_left, stopping in *.
  assert (Hfresh : st_conns s !! st_next s = None).
  { destruct (st_conns s !! st_next s) as [c|] eqn:Hc; [|done]. apply (li_ids _ _ Hinv) in Hc. lia. }
  destruct Hstep as [s Hph Hf|s Hph Hf|s Hph Hf|s Hph Hf|s id c Hph Hc Hj|s Hph Hn|s Hph|s Hph|s Hph|s id c Hph Hc Hj
    |s Hph He|s id c Hret Hc Hs|s id c m Hret Hc Hs|s id c Hc Hs|s id c Hc Hs|s id c Hret Hc|s|s|s|s|s|s|s|s|s|s];
    unfold phase_weight, join_one, accept_stream, end_task; try destruct (negb _); try destruct (st_permits s);
    try destruct (cn_status c); cbn;
    try pose proof (size_delete _ _ _ Hc) as Hsize; rewrite ?(size_update _ _ _ _ Hc), ?map_size_insert_None, ?Hph, ?Hf by done;
    (split; [destruct Hst as [Hst|Hst]; [(left; congruence) || (right; congruence)|right; congruence]|]);
    destruct (st_cancelled s), (st_retired s); try destruct (st_phase s); try lia; by destruct Hst.
Qed.

Lemma run_turns tr s s' :
  reachable listener_generation capacity s → stopping s → run listener_generation tr s s' →
  steps_of Loop tr + turns_left s' ≤ turns_left s ∧ reachable listener_generation capacity s'.
Proof.
  intros Hr Hst Hrun. induction Hrun as [s|e tr s s1 s2 Hstep _ IH]; [done|].
  destruct (step_turns _ _ _ Hr Hst Hstep) as [Hst1 Hle]. rewrite steps_of_cons.
  destruct IH as [Hk ?]; [by eapply reach_step|done|]. split; [lia|done].
Qed.

(** The loop is blocked only by its end or by connections that go on. *)
Lemma loop_waits s :
  (∀ e s', actor_of e = Loop → ¬ step listener_generation e s s') ↔
  returned s = true ∨
  (st_phase s = Draining ∧ st_conns s ≠ ∅ ∧ ∀ id c, st_conns s !! id = Some c → joinable c = false).
Proof.
  assert (Hjoin : (∃ id c, st_conns s !! id = Some c ∧ joinable c = true) ∨
    (∀ id c, st_conns s !! id = Some c → joinable c = false)).
  { destruct (decide (map_Forall (λ _ c, joinable c = false) (st_conns s))) as [Hall|Hex]; [by right|left].
    apply map_not_Forall in Hex as (id & c & Hc & Hj); [|apply _]. exists id, c. by destruct (joinable c). }
  split.
  - intros Hb. unfold returned. destruct (st_phase s) as [| | | | |r] eqn:Hph; [exfalso..|right|by left].
    + destruct (st_cancelled s) eqn:Hf; eapply (Hb Turn); try done; [by apply loop_cancelled|by apply loop_not_cancelled].
    + destruct (st_retired s) eqn:Hf; eapply (Hb Turn); try done; [by apply loop_retired|by apply loop_not_retired].
    + destruct Hjoin as [(id & c & Hc & Hj)|Hno]; eapply (Hb Turn); try done; [by eapply loop_join|by apply loop_no_join].
    + eapply (Hb Turn); [done|by apply loop_pending].
    + destruct Hjoin as [(id & c & Hc & Hj)|Hno]; [by edestruct (Hb Turn); [|eapply loop_drain]|].
      split; [done|]. split; [|done]. intros He. by edestruct (Hb Turn); [|apply loop_done].
  - intros Hw e s' Ha Hstep. unfold returned in Hw.
    destruct Hstep as [s Hph|s Hph|s Hph|s Hph|s id c Hph Hc Hj|s Hph|s Hph|s Hph|s Hph|s id c Hph Hc Hj|s Hph He
      |s|s|s|s|s|s|s|s|s|s|s|s|s|s|s]; try done; rewrite Hph in Hw; destruct Hw as [?|(? & Hne & Hno)]; try done.
    apply Hno in Hc. congruence.
Qed.

(** The loop ends no connection. *)
Lemma loop_keeps e s s' id c :
  reachable listener_generation capacity s → actor_of e = Loop → step listener_generation e s s' →
  st_conns s !! id = Some c → joinable c = false → st_conns s' !! id = Some c.
Proof.
  intros Hr Ha Hstep Hc Hj. pose proof (li_ids _ _ (reachable_inv _ _ _ Hr) _ _ Hc) as [Hlt _].
  destruct Hstep as [| | | |s i d ? Hd Hjd| |s| | |s i d ? Hd Hjd| | | | | | | | | | | | | | | |]; try done.
  - assert (i ≠ id) by (intros ->; congruence). unfold join_one. destruct (cn_status d); cbn; by rewrite lookup_delete_ne.
  - unfold accept_stream. destruct (negb _); [done|]. destruct (st_permits s); [done|]. cbn. by rewrite lookup_insert_ne by lia.
  - assert (i ≠ id) by (intros ->; congruence). cbn. by rewrite lookup_delete_ne.
Qed.

(** A client that never leaves is served forever: the model has no bound on it. *)
Lemma connection_may_go_on s id c n :
  returned s = false → st_conns s !! id = Some c → cn_status c = Serving →
  run listener_generation (replicate n (Serve id)) s s.
Proof.
  intros Hr Hc Hs. induction n as [|n IH]; [apply run_nil|].
  eapply run_cons; [by apply (task_serve _ s id c (st_metrics s))|]. by destruct s.
Qed.

Lemma load_ended m id c status :
  m !! id = Some c → cn_status c = Serving → joinable (mkConn (cn_generation c) status) = true →
  1 + load (<[id := mkConn (cn_generation c) status]> m) ≤ load m.
Proof.
  intros Hc Hs Hj. unfold load. pose proof (count_update holds_permit _ _ _ (mkConn (cn_generation c) status) Hc) as H1.
  pose proof (count_update joinable _ _ _ (mkConn (cn_generation c) status) Hc) as H2.
  assert (joinable c = false) as Hjc by (unfold joinable; by rewrite Hs).
  repeat change (holds_permit ?x) with (negb (joinable x)) in H1. rewrite Hj, Hjc in H1, H2. cbn [negb] in H1. lia.
Qed.

(** After the loop has returned, its tasks are dropped. *)
Lemma step_load e s s' :
  reachable listener_generation capacity s → returned s = true → step listener_generation e s s' →
  returned s' = true ∧ is_of Task e + load (st_conns s') ≤ load (st_conns s).
Proof.
  intros Hr Hret Hstep. pose proof (proj2 (loop_waits s) (or_introl Hret)) as Hno.
  assert (Hl : actor_of e ≠ Loop) by (intros ?; by eapply Hno).
  unfold load, returned in *.
  destruct Hstep as [| | | | | | | | | | |s id c Hr' Hc Hs|s id c m Hr' Hc Hs|s id c Hc Hs|s id c Hc Hs|s id c Hr' Hc|s|s|s|s|s|s|s|s|s|s Hr'];
    try done; unfold returned in *; try congruence; cbn; (split; [done|]); try lia.
  - pose proof (load_ended _ _ _ Finished Hc Hs eq_refl). unfold load in *. lia.
  - pose proof (load_ended _ _ _ Panicked Hc Hs eq_refl). unfold load in *. lia.
  - rewrite (count_delete holds_permit _ _ _ Hc), (count_delete joinable _ _ _ Hc).
    change (holds_permit c) with (negb (joinable c)). destruct (joinable c); cbn [negb]; lia.
Qed.

Lemma run_load tr s s' :
  reachable listener_generation capacity s → returned s = true → run listener_generation tr s s' →
  steps_of Task tr + load (st_conns s') ≤ load (st_conns s) ∧ returned s' = true ∧
  reachable listener_generation capacity s'.
Proof.
  intros Hr Hret Hrun. induction Hrun as [s|e tr s s1 s2 Hstep _ IH]; [done|].
  destruct (step_load _ _ _ Hr Hret Hstep) as [Hret1 Hle]. rewrite steps_of_cons.
  destruct IH as (Hk & ? & ?); [by eapply reach_step|done|]. split; [lia|done].
Qed.

Lemma dropped_all s :
  reachable listener_generation capacity s → returned s = true →
  (∀ e s', actor_of e = Task → ¬ step listener_generation e s s') →
  st_conns s = ∅ ∧ st_permits s + st_other_permits s = capacity.
Proof.
  intros Hr Hret Hb. assert (Hc : st_conns s = ∅).
  { destruct (decide (st_conns s = ∅)) as [|(id & c & Hc)%map_choose]; [done|].
    edestruct (Hb (Aborted id)); [done|by eapply task_abort]. }
  split; [done|]. pose proof (li_permits _ _ (reachable_inv _ _ _ Hr)) as Hp. rewrite Hc, count_empty in Hp. lia.
Qed.
End stopping.

(** C12: once the session is cancelled or the listener retired, the loop stops,
    whatever its connections and the rest of the daemon do. It takes at most
    seven turns and one for each connection it has, and it is blocked exactly
    when it has returned or when, with its listener closed and its socket
    released, connections are left that all go on: it waits for nothing else,
    and no turn of it ends a connection. Whether those connections end is up to
    their clients; but when the loop has returned or was aborted, as a shutdown
    does after its grace period, the tasks left take at most two steps each,
    and where none is left to take, no connection is left and every permit of
    this loop is free again. *)
Theorem accept_loop_stops listener_generation capacity s tr s' :
  reachable listener_generation capacity s → stopping s → run listener_generation tr s s' →
  steps_of Loop tr ≤ 7 + size (st_conns s) ∧
  ((∀ e s'', actor_of e = Loop → ¬ step listener_generation e s' s'') ↔
   returned s' = true ∨
   (st_phase s' = Draining ∧ st_listener_open s' = false ∧ st_guard_held s' = false ∧ st_conns s' ≠ ∅ ∧
    ∀ id c, st_conns s' !! id = Some c → joinable c = false)) ∧
  (∀ e s'' id c, actor_of e = Loop → step listener_generation e s' s'' →
     st_conns s' !! id = Some c → joinable c = false → st_conns s'' !! id = Some c) ∧
  (∀ tr' s'', returned s' = true → run listener_generation tr' s' s'' →
     steps_of Task tr' ≤ 2 * size (st_conns s') ∧
     ((∀ e s3, actor_of e = Task → ¬ step listener_generation e s'' s3) →
      st_conns s'' = ∅ ∧ st_permits s'' + st_other_permits s'' = capacity)).
Proof.
  intros Hr Hst Hrun. destruct (run_turns _ _ _ _ _ Hr Hst Hrun) as [Hk Hr']. split_and!.
  - unfold turns_left, phase_weight in Hk. repeat case_match; lia.
  - rewrite loop_waits. destruct (reachable_inv _ _ _ Hr') as [_ _ _ Hl Hg _]. split.
    + intros [?|(Hph & ? & ?)]; [by left|right]. rewrite Hph in Hl, Hg. done.
    + intros [?|(Hph & _ & _ & ? & ?)]; [by left|by right].
  - intros e s'' id c Ha Hstep. by eapply loop_keeps.
  - intros tr' s'' Hret Hrun'. destruct (run_load _ _ _ _ _ Hr' Hret Hrun') as (Hle & Hret' & Hr'').
    split; [pose proof (load_size (st_conns s')); lia|]. by apply dropped_all.
Qed.

(** How many connections a loop that was told to stop may still accept: one,
    when it had already looked at the token in this turn. *)
Definition may_accept (s : state) : nat :=
  match st_phase s with
  | AtCancellation => if st_cancelled s then 0 else if st_retired s then 0 else 1
  | AtRetirement => if st_retired s then 0 else 1
  | AtJoin | AtAccept => 1
  | _ => 0
  end.

Lemma stopping_accepts a listener_generation s s' :
  stopping s → step listener_generation a s s' →
  stopping s' ∧ st_next s' + may_accept s' ≤ st_next s + may_accept s.
Proof.
  intros Hst Hstep. unfold stopping, may_accept in *.
  destruct Hstep as [s Hph Hf|s Hph Hf|s Hph Hf|s Hph Hf|s id c Hph Hc Hj|s Hph Hn|s Hph|s Hph|s Hph|s id c Hph Hc Hj
    |s Hph He|s id c Hret Hc Hs|s id c m Hret Hc Hs|s id c Hc Hs|s id c Hc Hs|s id c Hret Hc|s|s|s|s|s|s|s|s|s|s];
    unfold join_one, accept_stream, end_task; try destruct (cn_status c); try destruct (negb _);
    try destruct (st_permits s); cbn; rewrite ?Hph, ?Hf;
    (split; [destruct Hst as [Hst|Hst]; [(left; congruence) || (right; congruence)|right; congruence]|]);
    destruct (st_cancelled s), (st_retired s), (st_phase s); try lia; try (by destruct Hst); try done.
Qed.

(** After the session is cancelled or the listener retired, in every
    continuation at most one more connection is accepted. *)
Theorem stop_accepts_no_more listener_generation s s' :
  stopping s → rtc (λ x y, ∃ a, step listener_generation a x y) s s' → st_next s' ≤ st_next s + 1.
Proof.
  intros Hst Hrun.
  assert (Hall : st_next s' + may_accept s' ≤ st_next s + may_accept s).
  { induction Hrun as [s|s s1 s' [a Hstep] _ IH]; [done|].
    destruct (stopping_accepts _ _ _ _ Hst Hstep) as [Hst1 Hle]. specialize (IH Hst1). lia. }
  assert (may_accept s ≤ 1); [|lia]. unfold may_accept. by repeat case_match; lia.
Qed.

(** ** An example run: one connection accepted, then cancellation *)

Definition loop_start : state :=
  mkState AtCancellation true true ∅ 0 2 0 metrics_default 0 false false 1 5.
Definition loop_one : state :=
  mkState AtCancellation true true {[ 0 := mkConn 5 Spawned ]} 1 1 0 metrics_default 0 false false 1 5.
Definition loop_told : state :=
  mkState AtCancellation true true {[ 0 := mkConn 5 Spawned ]} 1 1 0 metrics_default 0 true false 1 5.
Definition loop_serving : state :=
  mkState Draining false false {[ 0 := mkConn 5 Serving ]} 1 1 0 (connection_started metrics_default) 0 true false 1 5.

Lemma loop_start_initial : initial 2 loop_start.
Proof. by repeat split. Qed.

Lemma loop_one_reachable : reachable 1 2 loop_one.
Proof.
  eapply (reach_step _ _ (set_phase AtAccept loop_start) Accept); [|exact (loop_accept 1 (set_phase AtAccept loop_start) eq_refl)].
  eapply (reach_step _ _ (set_phase AtJoin loop_start) Turn);
    [|apply (loop_no_join 1 (set_phase AtJoin loop_start)); [done|intros id c; cbn; by rewrite lookup_empty]].
  eapply (reach_step _ _ (set_phase AtRetirement loop_start) Turn); [|by apply (loop_not_retired 1 (set_phase AtRetirement loop_start))].
  eapply (reach_step _ _ loop_start Turn); [|by apply loop_not_cancelled].
  apply reach_init, loop_start_initial.
Qed.

Lemma loop_told_reachable : reachable 1 2 loop_told.
Proof. eapply (reach_step _ _ loop_one CancelLoop); [apply loop_one_reachable|apply (other_cancel 1 loop_one)]. Qed.

(** The client is served for a while, the grace period ends, and its task is
    dropped. *)
Definition loop_aborted : state := return_early LoopAborted loop_serving.
Definition loop_gone : state := set_conns ∅ 2 (connection_stopped (st_metrics loop_aborted)) loop_aborted.

Lemma loop_told_run : run 1 [Turn; Start 0; Serve 0; AbortLoop] loop_told loop_aborted.
Proof.
  eapply run_cons; [by apply loop_cancelled|].
  eapply run_cons; [by eapply (task_start 1 (leave_loop loop_told) 0 (mkConn 5 Spawned))|].
  eapply run_cons; [by eapply (task_serve 1 loop_serving 0 (mkConn 5 Serving) (st_metrics loop_serving))|].
  eapply run_cons; [by apply (other_abort 1 loop_serving)|]. apply run_nil.
Qed.

Lemma loop_gone_run : run 1 [Aborted 0] loop_aborted loop_gone.
Proof. eapply run_cons; [by eapply (task_abort 1 loop_aborted 0 (mkConn 5 Serving))|]. apply run_nil. Qed.

Lemma loop_gone_quiet e s : actor_of e = Task → ¬ step 1 e loop_gone s.
Proof.
  intros Ha Hs. inversion Hs; subst; try done;
    match goal with H : st_conns loop_gone !! _ = Some _ |- _ => by apply lookup_empty_Some in H end.
Qed.

Lemma accept_loop_accounting_witness : count holds_permit (st_conns loop_told) = 1 ∧
  st_permits loop_told + st_other_permits loop_told + count holds_permit (st_conns loop_told) = 2 ∧
  accepted_as 1 2 0 (mkConn 5 Spawned) loop_told.
Proof.
  split; [vm_compute; reflexivity|].
  destruct (accept_loop_accounting 1 2 loop_told loop_told_reachable) as (Hp & _ & Hc & _).
  split; [exact Hp|]. exact (proj1 (Hc 0 (mkConn 5 Spawned) eq_refl)).
Defined.

Lemma accept_loop_stops_witness :
  steps_of Loop [Turn; Start 0; Serve 0; AbortLoop] ≤ 8 ∧ steps_of Task [Aborted 0] ≤ 2 ∧
  st_conns loop_gone = ∅ ∧ st_permits loop_gone + st_other_permits loop_gone = 2.
Proof.
  destruct (accept_loop_stops 1 2 loop_told [Turn; Start 0; Serve 0; AbortLoop] loop_aborted) as (H1 & _ & _ & H2).
  - apply loop_told_reachable.
  - left. reflexivity.
  - apply loop_told_run.
  - destruct (H2 [Aborted 0] loop_gone eq_refl loop_gone_run) as [H3 H4].
    destruct (H4 loop_gone_quiet) as [H5 H6]. split_and!; [exact H1|exact H3|exact H5|exact H6].
Defined.

Lemma stop_accepts_no_more_witness : st_next loop_serving ≤ st_next loop_told + 1.
Proof.
  apply (stop_accepts_no_more 1 loop_told loop_serving).
  - left. reflexivity.
  - eapply rtc_l; [exists Turn; by apply loop_cancelled|].
    eapply rtc_once. exists (Start 0). eapply (task_start 1 (leave_loop loop_told) 0 (mkConn 5 Spawned)); done.
Defined.
