(* ===== verification/HttpCredentials.v ===== *)
(** Decrypted requests: policy and credentials
    (src/proxy_runtime/rama/http.rs).

    [serve] is the policy layer in front of the upstream client: it binds the
    request to its tunnel, rewrites the path to its canonical form, and applies
    the rule's credentials to the headers. The HTTP types (header names, values
    and maps) are the [rama] crate's and standard Base64 the [base64] crate's:
    both are interfaces with their documented laws. *)

From S2P Require Import Prelude RustStr PolicyTypes UrlPath DnsName Identifiers SessionDoc SessionPolicy.
From S2P Require Import Secrets Telemetry.
From stdpp Require Import options.
Local Open Scope char_scope.

(** ** Interfaces *)

Class HttpTypes := {
  HeaderName : Type;
  HeaderValue : Type;
  HeaderMap : Type;
  header_name_eq_dec :: EqDecision HeaderName;
  name_try_from : str → option HeaderName;
  value_try_from : str → option HeaderValue;
  value_to_str : HeaderValue → option str;
  get_all : HeaderMap → HeaderName → list HeaderValue;
  headers_remove : HeaderName → HeaderMap → HeaderMap;
  headers_insert : HeaderName → HeaderValue → HeaderMap → HeaderMap;
  HOST : HeaderName;
  UPGRADE : HeaderName;
  CONNECTION : HeaderName;
}.

(** Names are compared without letter case, every token is a name, [insert]
    on an absent name makes the value the only one, and the three constants
    are the names they spell. *)
Class HttpLaws `{HttpTypes} : Prop := {
  name_case a b n m : name_try_from a = Some n → name_try_from b = Some m →
    (n = m ↔ to_ascii_lowercase a = to_ascii_lowercase b);
  name_token a : a ≠ [] → forallb header_char a = true → is_Some (name_try_from a);
  get_all_remove n m h : get_all (headers_remove n h) m = if decide (n = m) then [] else get_all h m;
  get_all_insert n v m h : get_all h n = [] →
    get_all (headers_insert n v h) m = if decide (n = m) then [v] else get_all h m;
  value_text s v : value_try_from s = Some v → is_ascii s = true → value_to_str v = Some s;
  name_host : name_try_from (lit "host") = Some HOST;
  name_upgrade : name_try_from (lit "upgrade") = Some UPGRADE;
  name_connection : name_try_from (lit "connection") = Some CONNECTION;
}.

Class Base64 := {
  b64_encode : str → str;
  b64_decode : str → option str;
}.
(** Decoding inverts encoding, and encodings are ASCII without spaces. *)
Class Base64Laws `{Base64} : Prop := {
  b64_round s : b64_decode (b64_encode s) = Some s;
  b64_alphabet s : is_ascii (b64_encode s) = true;
}.

(** ** Credentials *)

Section credentials.
Context `{HttpTypes} `{Base64}.

Definition format_injected_secret (injection : HeaderInjection) (secret : str) : option str :=
  match hi_format injection with
  | Raw => Some secret
  | Bearer => Some (lit "Bearer " ++ secret)
  | BasicPassword =>
      username ← hi_username injection;
      Some (lit "Basic " ++ b64_encode (username ++ ":" :: secret))
  end.

(** The header's value with [fake] replaced by [real], where the request has
    exactly one value and it presents [fake] in the injection's format. *)
Definition substitute_header_secret (headers : HeaderMap) (injection : HeaderInjection)
    (fake real : str) : option str :=
  name ← name_try_from (hi_header injection);
  match get_all headers name with
  | [] => None
  | first :: rest =>
      value ← value_to_str first;
      if negb (bool_decide (length rest = 0)) then None
      else
        match hi_format injection with
        | Raw => if str_eqb value fake then Some real else None
        | Bearer =>
            '(scheme, secret) ← split_once " " value;
            if eq_ignore_ascii_case scheme (lit "Bearer") && str_eqb secret fake
            then Some (scheme ++ " " :: real) else None
        | BasicPassword =>
            '(scheme, encoded) ← split_once " " value;
            if negb (eq_ignore_ascii_case scheme (lit "Basic")) then None
            else
              username ← hi_username injection;
              decoded ← b64_decode encoded;
              '(user, password) ← split_once ":" decoded;
              if negb (str_eqb user username) || negb (str_eqb password fake) then None
              else Some (scheme ++ " " :: b64_encode ((user ++ [":"]) ++ real))
        end
  end.

(** The value a credential gives to its header, if it changes it: [None]
    outside is the source's [Err(())]. *)
Definition credential_value (headers : HeaderMap) (secrets : ResolvedSecrets)
    (credential : CompiledCredential) : option (option (HeaderName * HeaderValue)) :=
  if bool_decide (cc_mode credential = Disabled) then Some None
  else
    let injection := cc_injection credential in
    name ← name_try_from (hi_header injection);
    secret ← secrets !! hi_secret injection;
    value ← match cc_mode credential with
            | Inject => value ← format_injected_secret injection secret; Some (Some value)
            | Substitute =>
                Some (fake ← cc_fake_value credential;
                      substitute_header_secret headers injection fake secret)
            | Disabled => Some None
            end;
    match value with
    | None => Some None
    | Some value => value ← value_try_from value; Some (Some (name, value))
    end.

(** The first loop: all values are computed from the client's headers. *)
Fixpoint credential_values (headers : HeaderMap) (secrets : ResolvedSecrets)
    (credentials : list CompiledCredential) : option (list (HeaderName * HeaderValue)) :=
  match credentials with
  | [] => Some []
  | credential :: rest =>
      value ← credential_value headers secrets credential;
      values ← credential_values headers secrets rest;
      Some (option_list value ++ values)
  end.

(** The second loop replaces the headers. *)
Definition apply_values (headers : HeaderMap) (values : list (HeaderName * HeaderValue)) : HeaderMap :=
  foldl (λ headers '(name, value), headers_insert name value (headers_remove name headers)) headers values.

Definition apply_header_credentials (headers : HeaderMap) (credentials : list CompiledCredential)
    (secrets : ResolvedSecrets) : option HeaderMap :=
  values ← credential_values headers secrets credentials;
  Some (apply_values headers values).

(** ** The service *)

(** A request: method, URI and headers. *)
Record Request := mkRequest {
  rq_method : str;
  rq_scheme : option str;
  rq_authority : option str;
  rq_path : option str;
  rq_headers : HeaderMap;
}.

Definition request_has_unsupported_upgrade (headers : HeaderMap) : bool :=
  negb (bool_decide (length (get_all headers UPGRADE) = 0)) ||
  existsb (λ token, eq_ignore_ascii_case (trim token) (lit "upgrade"))
    (omap value_to_str (get_all headers CONNECTION) ≫= split ",").

(** The proxy's own answer, or the request given to the upstream client. *)
Inductive served := Answered (status : N) | Forwarded (request : Request).

Definition denied_response (error : AuthorizationError) : served :=
  Answered match error with InvalidAuthority => 400%N | Denied => 403%N end.

Definition request_facts (request : Request) (host_headers : list str) : RequestFacts :=
  mkRequestFacts (rq_method request) (rq_scheme request) (rq_authority request)
    (default (lit "/") (rq_path request)) host_headers.

Definition set_path (path : option str) (request : Request) : Request :=
  match path with
  | Some path => mkRequest (rq_method request) (rq_scheme request) (rq_authority request)
                   (Some path) (rq_headers request)
  | None => request
  end.

Definition with_headers (headers : HeaderMap) (request : Request) : Request :=
  mkRequest (rq_method request) (rq_scheme request) (rq_authority request) (rq_path request) headers.

Definition serve `{UrlHost} (policy : Policy) (connect_authority : str) (secrets : ResolvedSecrets)
    (request : Request) (metrics : Metrics) : served * Metrics :=
  match mapM value_to_str (get_all (rq_headers request) HOST) with
  | None => (denied_response InvalidAuthority, metrics)
  | Some host_headers =>
      match authorize_intercepted_request policy (request_facts request host_headers) connect_authority with
      | Err error => (denied_response error, (denied_request metrics).1)
      | Ok (credentials, canonical_path) =>
          let request := set_path canonical_path request in
          if existsb (λ credential, negb (bool_decide (cc_mode credential = Disabled))) credentials
             && request_has_unsupported_upgrade (rq_headers request)
          then (denied_response Denied, (denied_request metrics).1)
          else
            match apply_header_credentials (rq_headers request) credentials secrets with
            | None => (denied_response Denied, (denied_request metrics).1)
            | Some headers => (Forwarded (with_headers headers request), metrics)
            end
      end
  end.
End credentials.

(** ** What presenting a secret means *)

(** [presents i s text]: the header text [text] presents the secret [s] in the
    format of injection [i]. *)
Inductive presents `{Base64} (i : HeaderInjection) (s : str) : str → Prop :=
| presents_raw : hi_format i = Raw → presents i s s
| presents_bearer scheme :
    hi_format i = Bearer → to_ascii_lowercase scheme = lit "bearer" →
    presents i s (scheme ++ " " :: s)
| presents_basic scheme user encoded :
    hi_format i = BasicPassword → to_ascii_lowercase scheme = lit "basic" →
    hi_username i = Some user → ":" ∉ user → b64_decode encoded = Some (user ++ ":" :: s) →
    presents i s (scheme ++ " " :: encoded).

Lemma scheme_no_space scheme name :
  to_ascii_lowercase scheme = name → " " ∉ name → " " ∉ scheme.
Proof. intros <- Hn Hin. apply Hn, elem_of_lowercase. by exists " ". Qed.

Lemma scheme_eq scheme name :
  eq_ignore_ascii_case scheme name = true ↔ to_ascii_lowercase scheme = to_ascii_lowercase name.
Proof. apply bool_decide_eq_true. Qed.

Section credential_lemmas.
Context `{HttpTypes} `{!HttpLaws} `{Base64} `{!Base64Laws}.

(** The request presents [s] for [i]: one value, and it presents [s]. *)
Definition request_presents (headers : HeaderMap) (i : HeaderInjection) (s : str) : Prop :=
  ∃ name v text, name_try_from (hi_header i) = Some name ∧ get_all headers name = [v] ∧
    value_to_str v = Some text ∧ presents i s text.

Lemma substitute_Some headers i fake real out :
  substitute_header_secret headers i fake real = Some out →
  request_presents headers i fake ∧ presents i real out.
Proof using All.
  unfold substitute_header_secret. intros Hs.
  apply bind_Some in Hs as (name & Hn & Hs). destruct (get_all headers name) as [|v rest] eqn:Hg; [done|].
  apply bind_Some in Hs as (text & Ht & Hs). case_bool_decide as Hr; [|done]. cbn [negb] in Hs.
  apply nil_length_inv in Hr as ->.
  assert (∀ t, presents i fake t → t = text → request_presents headers i fake) as Hp.
  { intros t Hpt ->. by exists name, v, text. }
  destruct (hi_format i) eqn:Hf.
  - destruct (str_eqb text fake) eqn:He; simplify_eq. apply str_eqb_true in He as ->.
    split; [eapply Hp; [|done]|]; by constructor.
  - apply bind_Some in Hs as ([scheme secret] & Hsp & Hs). apply split_once_Some in Hsp as [-> _].
    destruct (_ && _) eqn:He; simplify_eq. apply andb_true_iff in He as [Hsch ->%str_eqb_true].
    apply scheme_eq in Hsch. split; [eapply Hp; [|done]|]; by constructor.
  - apply bind_Some in Hs as ([scheme encoded] & Hsp & Hs). apply split_once_Some in Hsp as [-> _].
    destruct (eq_ignore_ascii_case scheme (lit "Basic")) eqn:Hsch; [|done]. cbn [negb] in Hs.
    apply scheme_eq in Hsch.
    apply bind_Some in Hs as (user & Hu & Hs). apply bind_Some in Hs as (decoded & Hd & Hs).
    apply bind_Some in Hs as ([user' password] & Hsp & Hs). apply split_once_Some in Hsp as [-> Hno].
    destruct (negb _ || negb _) eqn:He; simplify_eq. bool_prop.
    repeat match goal with H : str_eqb _ _ = true |- _ => apply str_eqb_true in H as -> end.
    split; [eapply Hp; [|done]|]; econstructor; try done.
    by rewrite b64_round, <-app_assoc.
Qed.

Lemma substitute_presented headers i fake real :
  request_presents headers i fake → is_Some (substitute_header_secret headers i fake real).
Proof using All.
  intros (name & v & text & Hn & Hg & Ht & Hp). unfold substitute_header_secret.
  rewrite Hn. cbn. rewrite Hg, Ht. cbn [mbind option_bind].
  rewrite (bool_decide_eq_true_2 (length [] = 0)) by done. cbn [negb].
  destruct Hp as [Hf|scheme Hf Hs|scheme user encoded Hf Hs Hu Hno Hd];
    rewrite Hf.
  - unfold str_eqb. rewrite bool_decide_eq_true_2 by done. cbn. eauto.
  - rewrite (proj2 (split_once_Some " " _ scheme fake)); [cbn [mbind option_bind]|split; [done|by eapply scheme_no_space; [done|vm_compute; set_solver]]].
    rewrite (proj2 (scheme_eq _ _)) by done. unfold str_eqb. rewrite bool_decide_eq_true_2 by done. cbn. eauto.
  - rewrite (proj2 (split_once_Some " " _ scheme encoded)); [cbn [mbind option_bind]|split; [done|by eapply scheme_no_space; [done|vm_compute; set_solver]]].
    rewrite (proj2 (scheme_eq _ _)), Hu, Hd by done. cbn [negb mbind option_bind].
    rewrite (proj2 (split_once_Some ":" _ user fake)) by done. cbn [negb mbind option_bind].
    unfold str_eqb. rewrite !bool_decide_eq_true_2 by done. cbn. eauto.
Qed.

(** Credential substitution swaps exactly the fake credential: it happens
    if and only if the request has a single value for the header and that
    value presents the fake in the declared format (raw, Bearer, or Basic with
    the declared user), and what it produces presents the real secret in the
    same format. *)
Theorem substitute_exact headers i fake real :
  (is_Some (substitute_header_secret headers i fake real) ↔ request_presents headers i fake) ∧
  (∀ out, substitute_header_secret headers i fake real = Some out → presents i real out).
Proof using All.
  split; [split|].
  - intros [out Ho]. by apply substitute_Some in Ho as [? _].
  - apply substitute_presented.
  - intros out Ho. by apply substitute_Some in Ho as [_ ?].
Qed.

(** ** Applying the values *)

Lemma apply_values_other headers values n :
  n ∉ values.*1 → get_all (apply_values headers values) n = get_all headers n.
Proof using All.
  revert headers. induction values as [|[m v] values IH]; intros headers Hn; [done|].
  unfold apply_values in *. cbn [foldl fmap list_fmap fst] in *. rewrite IH by set_solver.
  rewrite get_all_insert; [|by rewrite get_all_remove, decide_True].
  by rewrite decide_False, get_all_remove, decide_False by set_solver.
Qed.

Lemma apply_values_in headers values n v :
  NoDup values.*1 → (n, v) ∈ values → get_all (apply_values headers values) n = [v].
Proof using All.
  revert headers. induction values as [|[m w] values IH]; intros headers Hnd Hin; [set_solver|].
  cbn in Hnd. apply NoDup_cons in Hnd as [Hm Hnd].
  change (apply_values headers ((m, w) :: values)) with
    (apply_values (headers_insert m w (headers_remove m headers)) values).
  apply elem_of_cons in Hin as [[= -> ->]|Hin]; [|auto].
  rewrite apply_values_other by done.
  rewrite get_all_insert by (by rewrite get_all_remove, decide_True). by rewrite decide_True.
Qed.

Lemma credential_value_name headers secrets c n v :
  credential_value headers secrets c = Some (Some (n, v)) →
  name_try_from (hi_header (cc_injection c)) = Some n ∧ cc_mode c ≠ Disabled.
Proof using All.
  unfold credential_value. case_bool_decide as Hd; [done|]. intros Hv.
  apply bind_Some in Hv as (name & Hn & Hv). apply bind_Some in Hv as (secret & _ & Hv).
  apply bind_Some in Hv as ([value|] & _ & Hv); [|done].
  apply bind_Some in Hv as (value' & _ & Hv). by simplify_eq.
Qed.

Lemma credential_values_elem headers secrets cs values n v :
  credential_values headers secrets cs = Some values →
  (n, v) ∈ values ↔ ∃ c, c ∈ cs ∧ credential_value headers secrets c = Some (Some (n, v)).
Proof using All.
  revert values. induction cs as [|c cs IH]; intros values Hv; cbn in Hv.
  { simplify_eq. set_solver. }
  apply bind_Some in Hv as (value & Hc & Hv). apply bind_Some in Hv as (values' & Hcs & Hv). simplify_eq.
  rewrite elem_of_app, (IH values' Hcs). split.
  - intros [Hin|(c' & Hin & ?)]; [|exists c'; set_solver].
    destruct value as [nv|]; cbn in Hin; [|set_solver]. apply list_elem_of_singleton in Hin as <-.
    exists c. set_solver.
  - intros (c' & [->|Hin]%elem_of_cons & Hv); [|eauto]. left. rewrite Hv in Hc. simplify_eq/=. set_solver.
Qed.

(** Distinct header names, up to letter case, give distinct keys. *)
Lemma credential_values_NoDup headers secrets cs values :
  NoDup (to_ascii_lowercase ∘ hi_header ∘ cc_injection <$> cs) →
  credential_values headers secrets cs = Some values → NoDup values.*1.
Proof using All.
  revert values. induction cs as [|c cs IH]; intros values Hnd Hv; cbn in Hv.
  { simplify_eq. constructor. }
  cbn in Hnd. apply NoDup_cons in Hnd as [Hn Hnd].
  apply bind_Some in Hv as (value & Hc & Hv). apply bind_Some in Hv as (values' & Hcs & Hv). simplify_eq.
  destruct value as [[n v]|]; cbn; [|by apply IH]. apply NoDup_cons. split; [|by apply IH].
  intros ([n' v'] & Heq & Hin)%list_elem_of_fmap. cbn in Heq. subst n'.
  eapply credential_values_elem in Hin as (c' & Hin & Hc'); [|done].
  apply credential_value_name in Hc as [Hc _], Hc' as [Hc' _].
  apply Hn, list_elem_of_fmap. exists c'. split; [|done]. cbn.
  by apply (name_case _ _ n n Hc Hc').
Qed.

Lemma credential_values_defined headers secrets cs values c :
  credential_values headers secrets cs = Some values → c ∈ cs →
  is_Some (credential_value headers secrets c).
Proof using All.
  revert values. induction cs as [|c' cs IH]; intros values Hv Hin; [set_solver|]. cbn in Hv.
  apply bind_Some in Hv as (value & Hc & Hv). apply bind_Some in Hv as (values' & Hcs & _).
  apply elem_of_cons in Hin as [->|Hin]; [eauto|by eapply IH].
Qed.
End credential_lemmas.

Section serving.
Context `{HttpTypes} `{!HttpLaws} `{Base64} `{!Base64Laws}.
Context `{UrlHost} `{!UrlHostLaws} `{Crypto}.

(** The values of [i]'s header after its credential has been applied in
    [mode], from the client's [old] values. *)
Inductive header_after (headers : HeaderMap) (secrets : ResolvedSecrets) (fake : str)
    (i : HeaderInjection) (old : list HeaderValue) : CredentialMode → list HeaderValue → Prop :=
| after_disabled : header_after headers secrets fake i old Disabled old
| after_inject secret text v :
    secrets !! hi_secret i = Some secret → format_injected_secret i secret = Some text →
    value_try_from text = Some v → header_after headers secrets fake i old Inject [v]
| after_substitute secret text v :
    secrets !! hi_secret i = Some secret → request_presents headers i fake →
    presents i secret text → value_try_from text = Some v →
    header_after headers secrets fake i old Substitute [v]
| after_kept :
    ¬ request_presents headers i fake → header_after headers secrets fake i old Substitute old.

Lemma credential_value_after sc seed headers secrets i n out old :
  name_try_from (hi_header i) = Some n →
  credential_value headers secrets (compile_credential sc seed i) = Some out →
  header_after headers secrets (derive_fake_credential seed (hi_secret i)) i old
    (effective_credential_mode sc (hi_secret i))
    (match out with Some (_, v) => [v] | None => old end).
Proof using All.
  intros Hn. unfold credential_value, compile_credential. cbn [cc_mode cc_injection cc_fake_value].
  set (fake := derive_fake_credential seed (hi_secret i)).
  destruct (effective_credential_mode sc (hi_secret i)) eqn:Hm; cbn [bool_decide].
  - rewrite bool_decide_eq_false_2, Hn by done. cbn [mbind option_bind].
    destruct (secrets !! hi_secret i) as [secret|] eqn:Hs; [|done]. cbn [mbind option_bind].
    destruct (format_injected_secret i secret) as [text|] eqn:Hf; [|done]. cbn [mbind option_bind].
    destruct (value_try_from text) as [v|] eqn:Hv; [|done]. cbn. intros [= <-]. by eapply after_inject.
  - rewrite bool_decide_eq_false_2, bool_decide_eq_true_2, Hn by done. cbn [mbind option_bind].
    destruct (secrets !! hi_secret i) as [secret|] eqn:Hs; [|done]. cbn [mbind option_bind].
    destruct (substitute_header_secret headers i fake secret) as [text|] eqn:Hf.
    + apply substitute_Some in Hf as [Hp Hr].
      destruct (value_try_from text) as [v|] eqn:Hv; [|done]. cbn. intros [= <-]. by eapply after_substitute.
    + intros [= <-]. apply after_kept. intros Hp%(substitute_presented _ _ _ secret).
      rewrite Hf in Hp. by destruct Hp.
  - rewrite bool_decide_eq_true_2 by done. intros [= <-]. constructor.
Qed.

Lemma compiled_headers sc seed (l : list HeaderInjection) :
  to_ascii_lowercase ∘ hi_header ∘ cc_injection <$> (compile_credential sc seed <$> l) =
  to_ascii_lowercase ∘ hi_header <$> l.
Proof using All. by rewrite <-list_fmap_compose. Qed.

Lemma apply_header_credentials_after sc seed rule headers secrets headers' :
  rule_wf rule →
  apply_header_credentials headers (compile_credential sc seed <$> hr_inject rule) secrets = Some headers' →
  (∀ i n, i ∈ hr_inject rule → name_try_from (hi_header i) = Some n →
     header_after headers secrets (derive_fake_credential seed (hi_secret i)) i (get_all headers n)
       (effective_credential_mode sc (hi_secret i)) (get_all headers' n)) ∧
  (∀ n, (∀ i, i ∈ hr_inject rule → name_try_from (hi_header i) ≠ Some n) →
     get_all headers' n = get_all headers n).
Proof using All.
  intros Hwf Ha. apply bind_Some in Ha as (values & Hv & [= <-]).
  pose proof Hv as Hnd. apply credential_values_NoDup in Hnd; [|rewrite compiled_headers; apply Hwf].
  assert (∀ n v, (n, v) ∈ values → ∃ j, j ∈ hr_inject rule ∧ name_try_from (hi_header j) = Some n ∧
            credential_value headers secrets (compile_credential sc seed j) = Some (Some (n, v))) as Hval.
  { intros n v Hin. eapply credential_values_elem in Hin as (c & Hc & Hcv); [|done].
    apply list_elem_of_fmap in Hc as (j & -> & Hj). exists j. split_and!; [done| |done].
    by apply credential_value_name in Hcv as [? _]. }
  split.
  - intros i n Hi Hn.
    destruct (credential_values_defined _ _ _ _ (compile_credential sc seed i) Hv) as [out Hout].
    { apply list_elem_of_fmap. eauto. }
    pose proof (credential_value_after sc seed headers secrets i n out (get_all headers n) Hn Hout) as Hafter.
    destruct out as [[m v]|].
    + pose proof Hout as [Hm _]%credential_value_name. cbn in Hm. rewrite Hn in Hm. simplify_eq.
      rewrite (apply_values_in _ _ m v); [done|done|].
      eapply credential_values_elem; [done|]. exists (compile_credential sc seed i).
      split; [|done]. apply list_elem_of_fmap. eauto.
    + rewrite apply_values_other; [done|].
      intros ([n' v] & Heq & Hin)%list_elem_of_fmap. cbn in Heq. subst n'.
      apply Hval in Hin as (j & Hj & Hnj & Hcv).
      assert (j = i) as ->; [|congruence].
      eapply (NoDup_fmap_inj_elem (to_ascii_lowercase ∘ hi_header)); [apply Hwf|done|done|].
      cbn. by apply (name_case _ _ n n Hnj Hn).
  - intros n Hno. apply apply_values_other.
    intros ([n' v] & Heq & Hin)%list_elem_of_fmap. cbn in Heq. subst n'.
    apply Hval in Hin as (j & Hj & Hnj & _). by apply (Hno j).
Qed.

(** Applying a rule's credentials does exactly what their modes say and
    nothing else: an injected header ends with the formatted secret as its
    only value, whatever the client sent; a substituted header is replaced by
    one presenting the real secret exactly when the client presented the fake
    one, and is otherwise untouched; a disabled header and every header the
    rule does not name are untouched. *)
Theorem apply_header_credentials_exact sc seed rule headers secrets headers' :
  rule_wf rule →
  apply_header_credentials headers (compile_credential sc seed <$> hr_inject rule) secrets = Some headers' →
  (∀ i n, i ∈ hr_inject rule → name_try_from (hi_header i) = Some n →
     header_after headers secrets (derive_fake_credential seed (hi_secret i)) i (get_all headers n)
       (effective_credential_mode sc (hi_secret i)) (get_all headers' n)) ∧
  (∀ n, (∀ i, i ∈ hr_inject rule → name_try_from (hi_header i) ≠ Some n) →
     get_all headers' n = get_all headers n).
Proof using All. apply apply_header_credentials_after. Qed.

Lemma serve_forwarded policy authority secrets request metrics r' m' :
  serve policy authority secrets request metrics = (Forwarded r', m') ↔
  m' = metrics ∧ ∃ host_headers credentials path headers,
    mapM value_to_str (get_all (rq_headers request) HOST) = Some host_headers ∧
    authorize_intercepted_request policy (request_facts request host_headers) authority = Ok (credentials, path) ∧
    ((∀ c, c ∈ credentials → cc_mode c = Disabled) ∨
     request_has_unsupported_upgrade (rq_headers request) = false) ∧
    apply_header_credentials (rq_headers request) credentials secrets = Some headers ∧
    r' = with_headers headers (set_path path request).
Proof using All.
  unfold serve.
  assert (∀ p, rq_headers (set_path p request) = rq_headers request) as Hset by by intros [].
  assert (∀ cs, existsb (λ c, negb (bool_decide (cc_mode c = Disabled))) cs
                && request_has_unsupported_upgrade (rq_headers request) = false ↔
          (∀ c, c ∈ cs → cc_mode c = Disabled) ∨
          request_has_unsupported_upgrade (rq_headers request) = false) as Hup.
  { intros cs. rewrite andb_false_iff, existsb_elem_false. setoid_rewrite negb_false_iff.
    by setoid_rewrite bool_decide_eq_true. }
  split.
  - destruct (mapM _ _) as [hs|]; [|by intros [=]].
    destruct (authorize_intercepted_request _ _ _) as [[cs path]|e] eqn:Hau; [|by intros [=]].
    rewrite Hset. destruct (_ && _) eqn:He; [by intros [=]|].
    destruct (apply_header_credentials _ _ _) as [headers|] eqn:Ha; [|by intros [=]].
    intros [= <- <-]. split; [done|]. exists hs, cs, path, headers. split_and!; try done; by apply Hup.
  - intros (-> & hs & cs & path & headers & Hh & Hau & Hu & Ha & ->).
    rewrite Hh, Hau, Hset, (proj2 (Hup cs) Hu), Ha. done.
Qed.

(** C5: the policy layer forwards a request exactly when the session's policy
    authorises it for this tunnel: its Host values are text, it is bound to the
    destination of the CONNECT, a rule for that host and port admits its path,
    it does not ask for an upgrade while the rule's credentials are in use, and
    those credentials can be applied; the request then goes out with the
    canonical path and the credentials applied, and no counter moves. *)
Theorem serve_forwards_exact sc seed authority secrets request metrics r' m' :
  session_wf sc →
  serve (compile sc seed) authority secrets request metrics = (Forwarded r', m') ↔
  m' = metrics ∧ ∃ host_headers d rule path headers,
    mapM value_to_str (get_all (rq_headers request) HOST) = Some host_headers ∧
    names authority d ∧ request_bound (request_facts request host_headers) d ∧
    rule ∈ sc_rules sc ∧ hr_host rule = d_host d ∧ d_port d ∈ hr_ports rule ∧
    path_admitted (hr_paths rule) (default (lit "/") (rq_path request)) path ∧
    ((∀ i, i ∈ hr_inject rule → effective_credential_mode sc (hi_secret i) = Disabled) ∨
     request_has_unsupported_upgrade (rq_headers request) = false) ∧
    apply_header_credentials (rq_headers request) (compile_credential sc seed <$> hr_inject rule) secrets
      = Some headers ∧
    r' = with_headers headers (set_path path request).
Proof using All.
  intros Hwf. rewrite serve_forwarded. apply and_iff_compat_l. split.
  - intros (hs & cs & path & headers & Hh & Hau & Hu & Ha & ->).
    apply authorize_intercepted_request_Ok in Hau as (d & rule & Hn & Hb & Hin & Hho & Hp & Hpath & ->); [|done].
    exists hs, d, rule, path, headers. split_and!; try done.
    destruct Hu as [Hu|Hu]; [left|by right]. intros i Hi.
    apply (Hu (compile_credential sc seed i)), list_elem_of_fmap. eauto.
  - intros (hs & d & rule & path & headers & Hh & Hn & Hb & Hin & Hho & Hp & Hpath & Hu & Ha & ->).
    exists hs, (compile_credential sc seed <$> hr_inject rule), path, headers. split_and!; try done.
    + apply authorize_intercepted_request_Ok; [done|]. by exists d, rule.
    + destruct Hu as [Hu|Hu]; [left|by right]. intros c (i & -> & Hi)%list_elem_of_fmap. by apply Hu.
Qed.

(** The secret of [i] can reach the upstream of this request. *)
Definition released (sc : SessionConfig) (seed : CredentialSeed) (headers : HeaderMap) (i : HeaderInjection) : Prop :=
  effective_credential_mode sc (hi_secret i) = Inject ∨
  effective_credential_mode sc (hi_secret i) = Substitute ∧
  request_presents headers i (derive_fake_credential seed (hi_secret i)).

Lemma credential_value_agree sc seed headers s1 s2 i :
  (is_Some (s1 !! hi_secret i) ↔ is_Some (s2 !! hi_secret i)) →
  (released sc seed headers i → s1 !! hi_secret i = s2 !! hi_secret i) →
  credential_value headers s1 (compile_credential sc seed i) =
  credential_value headers s2 (compile_credential sc seed i).
Proof using All.
  intros Hdom Hrel. unfold credential_value, compile_credential, released in *.
  cbn [cc_mode cc_injection cc_fake_value].
  destruct (effective_credential_mode sc (hi_secret i)) eqn:Hm.
  - by rewrite Hrel by auto.
  - rewrite !bool_decide_eq_false_2, !bool_decide_eq_true_2 by done.
    destruct (name_try_from (hi_header i)) as [n|]; [|done]. cbn [mbind option_bind].
    destruct (s1 !! hi_secret i) as [a|] eqn:E1, (s2 !! hi_secret i) as [b|] eqn:E2; try done.
    2:{ by destruct Hdom as [[] _]. } 2:{ by destruct Hdom as [_ []]. }
    cbn [mbind option_bind].
    destruct (substitute_header_secret headers i (derive_fake_credential seed (hi_secret i)) a) as [t|] eqn:Ht.
    + pose proof Ht as [Hp _]%substitute_Some. pose proof (Hrel (or_intror (conj eq_refl Hp))) as [= <-]. by rewrite Ht.
    + assert (substitute_header_secret headers i (derive_fake_credential seed (hi_secret i)) b = None) as ->; [|done].
      apply eq_None_not_Some. intros [t' Ht']. apply substitute_Some in Ht' as [Hp _].
      apply (substitute_presented _ _ _ a) in Hp. rewrite Ht in Hp. by destruct Hp.
  - by rewrite !bool_decide_eq_true_2 by done.
Qed.

(** C4: secrets do not leak across rules or past the fake credential: what
    [serve] does -- the answer, the forwarded request and the counters --
    depends on the value of a secret only if the rule of this tunnel's own
    destination injects it, or substitutes it and this very request presented
    the matching fake credential. *)
Theorem serve_noninterference sc seed authority s1 s2 request metrics :
  session_wf sc →
  (∀ name, is_Some (s1 !! name) ↔ is_Some (s2 !! name)) →
  (∀ d rule i, names authority d → rule ∈ sc_rules sc → hr_host rule = d_host d → d_port d ∈ hr_ports rule →
     i ∈ hr_inject rule → released sc seed (rq_headers request) i → s1 !! hi_secret i = s2 !! hi_secret i) →
  serve (compile sc seed) authority s1 request metrics = serve (compile sc seed) authority s2 request metrics.
Proof using All.
  intros Hwf Hdom Hrel. unfold serve. destruct (mapM _ _) as [hs|]; [|done].
  destruct (authorize_intercepted_request _ _ _) as [[cs path]|e] eqn:Hau; [|done].
  apply authorize_intercepted_request_Ok in Hau as (d & rule & Hn & _ & Hin & Hho & Hp & _ & ->); [|done].
  assert (∀ p, rq_headers (set_path p request) = rq_headers request) as Hset by by intros []. rewrite !Hset.
  destruct (_ && _); [done|]. unfold apply_header_credentials.
  assert (∀ l, (∀ i, i ∈ l → i ∈ hr_inject rule) →
    credential_values (rq_headers request) s1 (compile_credential sc seed <$> l) =
    credential_values (rq_headers request) s2 (compile_credential sc seed <$> l)) as ->; [|done|done].
  induction l as [|i l IH]; intros Hl; [done|]. cbn [fmap list_fmap credential_values].
  rewrite (credential_value_agree sc seed _ s1 s2 i), IH; [done|set_solver|done|].
  intros Hr. eapply Hrel; [done..| |done]. set_solver.
Qed.

(** C36: every answer of the policy layer itself is 400 or 403: 400 exactly when
    a Host value is not text or the request's authorities are invalid; and it is
    counted as a denial except when a Host value is not text. *)
Theorem serve_answers policy authority secrets request metrics status m' :
  serve policy authority secrets request metrics = (Answered status, m') →
  (status = 400%N ∨ status = 403%N) ∧
  (status = 400%N ↔ ∀ hs, mapM value_to_str (get_all (rq_headers request) HOST) = Some hs →
     authorize_intercepted_request policy (request_facts request hs) authority = Err InvalidAuthority) ∧
  m' = (if decide (is_Some (mapM value_to_str (get_all (rq_headers request) HOST)))
        then (denied_request metrics).1 else metrics).
Proof using All.
  unfold serve. destruct (mapM _ _) as [hs|].
  - rewrite decide_True by eauto. intros Hs.
    assert ((∀ hs', Some hs = Some hs' → authorize_intercepted_request policy (request_facts request hs') authority = Err InvalidAuthority)
      ↔ authorize_intercepted_request policy (request_facts request hs) authority = Err InvalidAuthority) as ->
      by (split; [by auto|by intros ? ? [= <-]]).
    destruct (authorize_intercepted_request _ _ _) as [[cs path]|e].
    + destruct (_ && _); [|destruct (apply_header_credentials _ _ _); [done|]];
        injection Hs as <- <-; (split_and!; [auto|done|done]).
    + destruct e; injection Hs as <- <-; (split_and!; [auto|done|done]).
  - rewrite decide_False by (by intros []). intros [= <- <-]. split_and!; [auto|done|done].
Qed.
End serving.

(** ** Witnesses

    A small HTTP library (lowercase names, an association list of values) and
    a two-letters-per-byte encoding, which satisfy the laws. *)

Definition plain_value_byte (c : ascii) : bool :=
  bool_decide (c = "009") || ((32 <=? code c)%N && negb (code c =? 127)%N).

Definition plain_http : HttpTypes := {|
  HeaderName := str;
  HeaderValue := str;
  HeaderMap := list (str * str);
  name_try_from a := if bool_decide (a ≠ []) && forallb header_char a then Some (to_ascii_lowercase a) else None;
  value_try_from s := if forallb plain_value_byte s then Some s else None;
  value_to_str v := if is_ascii v then Some v else None;
  get_all h n := (filter (λ kv, kv.1 = n) h).*2;
  headers_remove n h := filter (λ kv, kv.1 ≠ n) h;
  headers_insert n v h := h ++ [(n, v)];
  HOST := lit "host";
  UPGRADE := lit "upgrade";
  CONNECTION := lit "connection";
|}.

Lemma filter_key_app (h : list (str * str)) n v m :
  (filter (λ kv, kv.1 = m) (h ++ [(n, v)])).*2 =
  (filter (λ kv, kv.1 = m) h).*2 ++ (if decide (n = m) then [v] else []).
Proof.
  rewrite filter_app, fmap_app. f_equal. destruct (decide (n = m)) as [->|Hn].
  - by rewrite filter_cons_True by done.
  - by rewrite filter_cons_False by done.
Qed.

Lemma filter_key_remove (h : list (str * str)) n m :
  (filter (λ kv, kv.1 = m) (filter (λ kv, kv.1 ≠ n) h)).*2 =
  if decide (n = m) then [] else (filter (λ kv, kv.1 = m) h).*2.
Proof.
  rewrite list_filter_filter. destruct (decide (n = m)) as [->|Hn].
  - induction h as [|[k v] h IH]; [done|]. by rewrite filter_cons_False by naive_solver.
  - f_equal. apply list_filter_iff. intros [k v]. cbn. naive_solver.
Qed.

Lemma plain_http_laws : @HttpLaws plain_http.
Proof.
  constructor.
  - intros a b n m Ha Hb. cbn in *. destruct (_ && _) in Ha; [|done]. destruct (_ && _) in Hb; [|done].
    by simplify_eq.
  - intros a Hne Ht. cbn. rewrite bool_decide_eq_true_2, Ht by done. by eexists.
  - intros n m h. cbn. apply filter_key_remove.
  - intros n v m h Hn. cbn in *. rewrite filter_key_app. destruct (decide (n = m)) as [->|Hne].
    + by rewrite Hn.
    + by rewrite app_nil_r.
  - intros s v Hs Ha. cbn in *. destruct (forallb _ s) in Hs; [|done]. simplify_eq. by rewrite Ha.
  - done.
  - done.
  - done.
Qed.

Definition nibble (n : N) : ascii := ascii_of_N (65 + n).
Definition unnibble (c : ascii) : N := (code c - 65)%N.

Fixpoint plain_decode (s : str) : option str :=
  match s with
  | [] => Some []
  | [_] => None
  | hi :: lo :: s' => cons (ascii_of_N (16 * unnibble hi + unnibble lo)) <$> plain_decode s'
  end.

Definition plain_base64 : Base64 := {|
  b64_encode s := s ≫= λ c, [nibble (code c / 16); nibble (code c mod 16)];
  b64_decode := plain_decode;
|}.

Lemma plain_base64_laws : @Base64Laws plain_base64.
Proof.
  constructor; intros s; cbn.
  - induction s as [|c s IH]; [done|]. cbn [mbind list_bind app plain_decode].
    rewrite IH. cbn. do 2 f_equal. clear. byte_decide c.
  - change (is_ascii (s ≫= λ c, [nibble (code c / 16); nibble (code c mod 16)]) = true).
    induction s as [|c s IH]; [done|]. rewrite bind_cons, is_ascii_app, IH, andb_true_r.
    clear. byte_decide c.
Qed.

Definition example_request : @Request plain_http := @mkRequest plain_http
  (lit "GET") (Some (lit "https")) (Some (lit "example.com")) (Some (lit "/v1/%7euser/x"))
  [(lit "host", lit "example.com"); (lit "authorization", lit "client"); (lit "accept", lit "any")].

Definition example_forwarded : @Request plain_http := @mkRequest plain_http
  (lit "GET") (Some (lit "https")) (Some (lit "example.com")) (Some (lit "/v1/~user/x"))
  [(lit "host", lit "example.com"); (lit "accept", lit "any"); (lit "authorization", lit "Bearer s3cr3t")].

Definition example_rule : HostRule :=
  mkHostRule (lit "example.com") Intercept [443%N] [lit "/v1/~user/**"; lit "/v2"]
    [mkHeaderInjection (lit "Authorization") (lit "api-token") Bearer None].

Lemma example_rule_wf : @rule_wf plain_host_parse example_rule.
Proof.
  pose proof (sw_rules _ example_session_wf) as Hr. apply Forall_cons in Hr as [Hr _]. exact Hr.
Qed.

Lemma apply_header_credentials_exact_witness :
  @header_after plain_http plain_base64 (rq_headers example_request) example_secrets
    (@derive_fake_credential plain_crypto [] (lit "api-token"))
    (mkHeaderInjection (lit "Authorization") (lit "api-token") Bearer None)
    [lit "client"] Inject [lit "Bearer s3cr3t"].
Proof.
  destruct (@apply_header_credentials_exact plain_http plain_http_laws plain_base64 plain_base64_laws
    plain_host_parse plain_host_laws plain_crypto example_session [] example_rule
    (rq_headers example_request) example_secrets (rq_headers example_forwarded) example_rule_wf) as [Hw _].
  { vm_compute. reflexivity. }
  apply (Hw (mkHeaderInjection (lit "Authorization") (lit "api-token") Bearer None) (lit "authorization")).
  - left.
  - vm_compute. reflexivity.
Defined.

Lemma serve_forwards_exact_witness :
  ∃ d rule, @names plain_host_parse (lit "example.com:443") d ∧ rule ∈ sc_rules example_session ∧
    hr_host rule = d_host d ∧ d_port d ∈ hr_ports rule.
Proof.
  destruct (proj1 (@serve_forwards_exact plain_http plain_http_laws plain_base64 plain_base64_laws
    plain_host_parse plain_host_laws plain_crypto example_session [] (lit "example.com:443") example_secrets
    example_request metrics_default example_forwarded metrics_default example_session_wf))
    as (_ & hs & d & rule & path & headers & _ & Hn & _ & Hin & Hh & Hp & _); [vm_compute; reflexivity|].
  exists d, rule. split_and!; assumption.
Defined.

Lemma serve_noninterference_witness :
  @serve plain_http plain_base64 plain_host_parse example_policy (lit "b.example") example_secrets
    example_request metrics_default =
  @serve plain_http plain_base64 plain_host_parse example_policy (lit "b.example")
    {[ lit "api-token" := lit "other" ]} example_request metrics_default.
Proof.
  apply (@serve_noninterference plain_http plain_http_laws plain_base64 plain_base64_laws
    plain_host_parse plain_host_laws plain_crypto example_session [] (lit "b.example")
    example_secrets {[ lit "api-token" := lit "other" ]} example_request metrics_default).
  - exact example_session_wf.
  - intros name. unfold example_secrets. destruct (decide (name = lit "api-token")) as [->|Hn].
    + rewrite !lookup_singleton_eq. done.
    + rewrite !lookup_singleton_ne by done. done.
  - intros d rule i Hn Hin Hh _ Hi _. exfalso.
    assert (d = mkDestination (lit "b.example") 443) as ->.
    { apply (@names_det plain_host_parse plain_host_laws (lit "b.example")); [exact Hn|].
      constructor. vm_compute. reflexivity. }
    apply list_elem_of_In in Hin. destruct Hin as [<-|[<-|[]]]; [discriminate Hh|].
    by apply not_elem_of_nil in Hi.
Defined.

Lemma serve_answers_witness :
  (403%N = 400%N ∨ 403%N = 403%N) ∧
  (denied_request metrics_default).1 =
    (if decide (is_Some (mapM (@value_to_str plain_http) [])) then (denied_request metrics_default).1 else metrics_default).
Proof.
  destruct (@serve_answers plain_http plain_http_laws plain_base64 plain_base64_laws plain_host_parse plain_host_laws
    plain_crypto example_policy (lit "example.com:8443") example_secrets
    (@mkRequest plain_http (lit "GET") None (Some (lit "example.com:8443")) None [])
    metrics_default 403 (denied_request metrics_default).1) as (H1 & _ & H2); [vm_compute; reflexivity|].
  split; [exact H1|exact H2].
Defined.

Lemma substitute_exact_witness :
  @presents plain_base64 (injection_bearer (lit "Authorization") (lit "api-token")) (lit "real") (lit "BEARER real").
Proof.
  apply (@substitute_exact plain_http plain_http_laws plain_base64 plain_base64_laws
    [(lit "authorization", lit "BEARER fake")] (injection_bearer (lit "Authorization") (lit "api-token"))
    (lit "fake") (lit "real")).
  vm_compute. reflexivity.
Defined.
