(* ===== verification/ProxyRuntime.v ===== *)
(** One proxy session's runtime (src/proxy_runtime.rs,
    src/proxy_runtime/rama.rs).

    A runtime owns a bound Unix socket, the policy generation that the next
    accepted connection uses, and weak references to the generations that
    connections may still be using. Which of those are still alive is the
    environment's answer. *)

From S2P Require Import Prelude RustStr PolicyTypes DnsName SessionDoc SessionPolicy Secrets Telemetry.
From stdpp Require Import options.

Definition MAX_POLICY_GENERATIONS : nat := 8.

Inductive ProxyRuntimeError :=
| BindSocket | CredentialSeedError | Build | Run | Task.
#[export] Instance ProxyRuntimeError_eq_dec : EqDecision ProxyRuntimeError.
Proof. solve_decision. Defined.

(** [ProxyRuntimeError::class]. *)
Definition error_class (e : ProxyRuntimeError) : str :=
  match e with
  | BindSocket => lit "socket_bind"
  | CredentialSeedError => lit "credential_seed"
  | Build => lit "proxy_build"
  | Run => lit "proxy_run"
  | Task => lit "task"
  end.

(** [ProxyGeneration]: what a connection gets when it is accepted. *)
Record ProxyGeneration := mkProxyGeneration {
  pg_policy : Policy;
  pg_secrets : ResolvedSecrets;
}.

(** [ProxyRuntime]. [rt_generations] are the weak references, named by
    consecutive numbers; [rt_permits] names the connection semaphore, which
    successive listeners of a session share. *)
Record Runtime := mkRuntime {
  rt_runtime_id : str;
  rt_listener_generation : N;
  rt_socket_path : str;
  rt_generation : ProxyGeneration;
  rt_generations : list nat;
  rt_next : nat;
  rt_permits : N;
  rt_credential_seed : CredentialSeed;
  rt_retired : bool;
  rt_retirement_cancelled : bool;
  rt_socket_owned : bool;
}.

Record ProxyRuntimeOptions := mkProxyRuntimeOptions {
  po_runtime_id : str;
  po_session : SessionConfig;
  po_secrets : ResolvedSecrets;
  po_credential_seed : CredentialSeed;
  po_socket_path : str;
  po_connection_permits : N;
  po_listener_generation : N;
}.

Section runtime.
Context `{Crypto}.

(** [start_with_options]; [bound] says whether the listener could be bound. *)
Definition start_with_options (bound : bool) (o : ProxyRuntimeOptions) : result ProxyRuntimeError Runtime :=
  if negb bound then Err BindSocket
  else
    Ok (mkRuntime (po_runtime_id o) (po_listener_generation o) (po_socket_path o)
          (mkProxyGeneration (compile (po_session o) (po_credential_seed o)) (po_secrets o))
          [0] 1 (po_connection_permits o) (po_credential_seed o) false false true).

(** [ProxyRuntime::start]: a runtime without secrets; [random] is the seed that
    could be read. *)
Definition runtime_start (bound : bool) (random : option CredentialSeed) (runtime_id : str) (session : SessionConfig)
    (socket_path : str) (max_connections : N) : result ProxyRuntimeError Runtime :=
  credential_seed ← ok_or random CredentialSeedError;
  start_with_options bound
    (mkProxyRuntimeOptions runtime_id session ∅ credential_seed socket_path max_connections 1).

(** [replace_generation]; [alive] answers [strong_count() > 0]. *)
Definition replace_generation (alive : nat → bool) (self : Runtime) (session : SessionConfig)
    (secrets : ResolvedSecrets) : option Runtime :=
  let generation := mkProxyGeneration (compile session (rt_credential_seed self)) secrets in
  let generations := filter (λ g, alive g = true) (rt_generations self) in
  if (MAX_POLICY_GENERATIONS <=? length generations)%nat then None
  else
    Some (mkRuntime (rt_runtime_id self) (rt_listener_generation self) (rt_socket_path self) generation
            (generations ++ [rt_next self]) (S (rt_next self)) (rt_permits self) (rt_credential_seed self)
            (rt_retired self) (rt_retirement_cancelled self) (rt_socket_owned self)).

Definition mark_retiring (self : Runtime) : Runtime :=
  mkRuntime (rt_runtime_id self) (rt_listener_generation self) (rt_socket_path self) (rt_generation self)
    (rt_generations self) (rt_next self) (rt_permits self) (rt_credential_seed self)
    true (rt_retirement_cancelled self) (rt_socket_owned self).

(** [retire]: the listener stops accepting and its socket is unlinked. *)
Definition retire (self : Runtime) : Runtime :=
  mkRuntime (rt_runtime_id self) (rt_listener_generation self) (rt_socket_path self) (rt_generation self)
    (rt_generations self) (rt_next self) (rt_permits self) (rt_credential_seed self)
    true true false.

(** [shutdown]: [drained] says whether the task ended within the grace
    period; otherwise it is aborted and counted. *)
Definition runtime_shutdown (drained : bool) (metrics : Metrics) : Metrics :=
  if drained then metrics else (forced_shutdown metrics).1.

(** The exit notification of the runtime's task: sent for a retired listener
    and for the listener that the gate currently admits. *)
Definition exit_event (self : Runtime) (gate : N) : option (str * N * bool) :=
  if rt_retired self || (gate =? rt_listener_generation self)%N
  then Some (rt_runtime_id self, rt_listener_generation self, rt_retired self)
  else None.

(** ** Generations *)

Record runtime_wf (r : Runtime) : Prop := {
  rw_bound : length (rt_generations r) ≤ MAX_POLICY_GENERATIONS;
  rw_fresh : ∀ g, g ∈ rt_generations r → g < rt_next r;
  rw_NoDup : NoDup (rt_generations r);
}.

Lemma start_with_options_wf bound o r : start_with_options bound o = Ok r → runtime_wf r.
Proof.
  unfold start_with_options. intros Hs. destruct bound; simplify_eq/=. constructor; cbn.
  - unfold MAX_POLICY_GENERATIONS. lia.
  - intros g Hg. apply list_elem_of_singleton in Hg as ->. lia.
  - apply NoDup_singleton.
Qed.

Lemma replace_generation_wf alive r session secrets r' :
  runtime_wf r → replace_generation alive r session secrets = Some r' → runtime_wf r'.
Proof.
  intros [Hb Hf Hn] Hr. unfold replace_generation in Hr.
  destruct (Nat.leb_spec MAX_POLICY_GENERATIONS (length (filter (λ g, alive g = true) (rt_generations r))))
    as [Hl|Hl]; simplify_eq/=. constructor; cbn.
  - rewrite length_app. cbn. lia.
  - intros g [Hg|Hg]%elem_of_app.
    + apply list_elem_of_filter in Hg as [_ Hg]. specialize (Hf g Hg). lia.
    + apply list_elem_of_singleton in Hg as ->. lia.
  - apply NoDup_app. split_and!; [by apply NoDup_filter| |apply NoDup_singleton].
    intros g [_ Hg]%list_elem_of_filter. specialize (Hf g Hg). rewrite list_elem_of_singleton. lia.
Qed.
End runtime.
