(* ===== verification/Registry.v ===== *)
(** The session registry (src/control/session.rs).

    Every operation of [SessionManager] is a sequence of critical sections
    under the registry lock, with the session's [reload_lock] held across the
    sections of [stop], [remove], [runtime_exit] and [reload]. Each section is
    one definition here; the operations compose them as the source does, and
    the step relation of [SessionSystem] interleaves the sections of
    concurrent operations. *)

From S2P Require Import Prelude RustStr BTree PolicyTypes DnsName Identifiers SessionDoc SessionPolicy.
From S2P Require Import Secrets Telemetry ProxyRuntime.
From stdpp Require Import options.
Local Open Scope char_scope.

(** ** Data *)

Inductive SessionLifecycle := Running | Stopping.
#[export] Instance SessionLifecycle_eq_dec : EqDecision SessionLifecycle.
Proof. solve_decision. Defined.

Record SessionInfo := mkSessionInfo {
  si_id : str;
  si_socket : str;
  si_persistent : bool;
  si_state : SessionLifecycle;
  si_generation : N;
  si_draining_generations : nat;
}.

(** [ManagedSession]; its [reload_lock] is in [SessionSystem]. *)
Record ManagedSession := mkManagedSession {
  ms_info : SessionInfo;
  ms_configuration : SessionConfig;
  ms_secrets : ResolvedSecrets;
  ms_config_source : option str;
  ms_runtime : option Runtime;
  ms_retired_runtimes : list Runtime;
  ms_listener_gate : N;
  ms_listener_generation : N;
}.

Record SessionRegistry := mkSessionRegistry {
  sr_accepting_sessions : bool;
  sr_sessions : gmap str ManagedSession;
  sr_provisioning : gset str;
}.

Inductive SessionError := AtCapacity | RuntimeError (e : ProxyRuntimeError) | ShuttingDown | Internal.
#[export] Instance SessionError_eq_dec : EqDecision SessionError.
Proof. solve_decision. Defined.

(** The settings of [SessionManager] that its operations read. *)
Record SessionManager := mkSessionManager {
  sm_socket_dir : str;
  sm_max_sessions : nat;
}.

Definition registry_new : SessionRegistry := mkSessionRegistry true ∅ ∅.

Definition set_sessions (sessions : gmap str ManagedSession) (r : SessionRegistry) : SessionRegistry :=
  mkSessionRegistry (sr_accepting_sessions r) sessions (sr_provisioning r).
Definition set_provisioning (p : gset str) (r : SessionRegistry) : SessionRegistry :=
  mkSessionRegistry (sr_accepting_sessions r) (sr_sessions r) p.

(** [absolute_socket_path]; [cwd] is [std::env::current_dir]. *)
Definition absolute_socket_path (cwd : option str) (path : str) : option str :=
  if starts_with ["/"] path then Some path else (λ d, path_join d path) <$> cwd.

(** [new_session_id]: two hexadecimal digits per random byte. *)
Definition HEX : str := lit "0123456789abcdef".
Definition hex_digit (n : N) : ascii := nth (N.to_nat n) HEX "0".
Definition session_id_of (random : str) : str :=
  random ≫= λ byte, [hex_digit (N.shiftr (code byte) 4); hex_digit (N.land (code byte) 15)].

(** ** [create] *)

Definition create_reserve (self : SessionManager) (id : str) (r : SessionRegistry)
    : result SessionError SessionRegistry :=
  if negb (sr_accepting_sessions r) then Err ShuttingDown
  else if (sm_max_sessions self <=? size (sr_sessions r) + size (sr_provisioning r))%nat then Err AtCapacity
  else if bool_decide (is_Some (sr_sessions r !! id)) || bool_decide (id ∈ sr_provisioning r)
  then Err Internal
  else Ok (set_provisioning ({[id]} ∪ sr_provisioning r) r).

(** A failure after the reservation gives it back. *)
Definition create_cancel (id : str) (r : SessionRegistry) : SessionRegistry :=
  set_provisioning (sr_provisioning r ∖ {[id]}) r.

(** The path is text already, so that [to_string_lossy] keeps it: the configured
    directory and the validated names are UTF-8. *)
Definition new_session (id : str) (session : SessionConfig) (secrets : ResolvedSecrets)
    (config_source : option str) (runtime : Runtime) : ManagedSession :=
  mkManagedSession
    (mkSessionInfo id (rt_socket_path runtime) (sc_persistent session) Running 1 0)
    session secrets config_source (Some runtime) [] 1 1.

Definition create_commit (id : str) (managed : ManagedSession) (r : SessionRegistry) (metrics : Metrics)
    : result SessionError SessionInfo * SessionRegistry * Metrics :=
  let r := create_cancel id r in
  if negb (sr_accepting_sessions r) then (Err ShuttingDown, r, metrics)
  else (Ok (ms_info managed), set_sessions (<[id := managed]> (sr_sessions r)) r, (session_started metrics).1).

(** What the environment gives to one [create]: whether the CA certificate is
    text, the random bytes of the seed and of the identifier, the working
    directory, and whether the listener binds. *)
Record create_env := mkCreateEnv {
  ce_ca_pem : option str;
  ce_seed : option str;
  ce_id_bytes : option str;
  ce_cwd : option str;
  ce_bound : bool;
  ce_permits : N;
}.

Record CreatedSession := mkCreatedSession {
  cs_info : SessionInfo;
  cs_ca_certificate_pem : str;
  cs_credential_seed_base64url : str;
}.

Section create.
Context `{Crypto}.

Definition create_socket_path (self : SessionManager) (env : create_env) (id : str) (session : SessionConfig)
    : option str :=
  let socket_name := default (id ++ lit ".sock") (sc_socket_name session) in
  absolute_socket_path (ce_cwd env) (path_join (sm_socket_dir self) socket_name).

Definition create (self : SessionManager) (env : create_env) (session : SessionConfig)
    (secrets : ResolvedSecrets) (config_source : option str) (r : SessionRegistry) (metrics : Metrics)
    : result SessionError CreatedSession * SessionRegistry * Metrics :=
  match ce_ca_pem env, ce_seed env, ce_id_bytes env with
  | Some ca_pem, Some seed, Some id_bytes =>
      let id := session_id_of id_bytes in
      match create_reserve self id r with
      | Err e => (Err e, r, metrics)
      | Ok r =>
          match create_socket_path self env id session with
          | None => (Err Internal, create_cancel id r, metrics)
          | Some socket_path =>
              match start_with_options (ce_bound env)
                      (mkProxyRuntimeOptions id session secrets seed socket_path (ce_permits env) 1) with
              | Err e => (Err (RuntimeError e), create_cancel id r, metrics)
              | Ok runtime =>
                  let '(result, r, metrics) :=
                    create_commit id (new_session id session secrets config_source runtime) r metrics in
                  (info ← result; Ok (mkCreatedSession info ca_pem (seed_as_base64url seed)), r, metrics)
              end
          end
      end
  | _, _, _ => (Err Internal, r, metrics)
  end.
End create.

(** ** [stop], [remove] and [runtime_exit] *)

(** What the section after the lock finds: no session, nothing to do, or the
    runtimes to shut down. *)
Inductive begun := Absent | Already | Taken (runtimes : list Runtime).

Definition set_info (info : SessionInfo) (s : ManagedSession) : ManagedSession :=
  mkManagedSession info (ms_configuration s) (ms_secrets s) (ms_config_source s) (ms_runtime s)
    (ms_retired_runtimes s) (ms_listener_gate s) (ms_listener_generation s).
Definition info_with (state : SessionLifecycle) (draining : nat) (i : SessionInfo) : SessionInfo :=
  mkSessionInfo (si_id i) (si_socket i) (si_persistent i) state (si_generation i) draining.

(** The session is marked and gives up all of its runtimes. *)
Definition take_session (s : ManagedSession) : ManagedSession * list Runtime :=
  (mkManagedSession (info_with Stopping (si_draining_generations (ms_info s)) (ms_info s))
     (ms_configuration s) (ms_secrets s) (ms_config_source s) None [] (ms_listener_gate s)
     (ms_listener_generation s),
   ms_retired_runtimes s ++ option_list (ms_runtime s)).

Definition take_at (id : str) (s : ManagedSession) (r : SessionRegistry) : begun * SessionRegistry :=
  let '(s', runtimes) := take_session s in
  (Taken runtimes, set_sessions (<[id := s']> (sr_sessions r)) r).

Definition stop_begin (id : str) (r : SessionRegistry) : begun * SessionRegistry :=
  match sr_sessions r !! id with
  | None => (Absent, r)
  | Some s =>
      if bool_decide (si_state (ms_info s) = Stopping) then (Already, r) else take_at id s r
  end.

Definition remove_begin (id : str) (r : SessionRegistry) : begun * SessionRegistry :=
  match sr_sessions r !! id with
  | None => (Absent, r)
  | Some s =>
      if bool_decide (si_state (ms_info s) = Stopping) && bool_decide (ms_runtime s = None) then (Already, r)
      else take_at id s r
  end.

(** A retired listener that has drained is only dropped from the session. *)
Definition drop_retired (keep : Runtime → bool) (s : ManagedSession) : ManagedSession :=
  let retired := filter (λ rt, keep rt = true) (ms_retired_runtimes s) in
  mkManagedSession (info_with (si_state (ms_info s)) (length retired) (ms_info s))
    (ms_configuration s) (ms_secrets s) (ms_config_source s) (ms_runtime s) retired
    (ms_listener_gate s) (ms_listener_generation s).

Definition runtime_exit_begin (id : str) (listener_generation : N) (r : SessionRegistry)
    : begun * SessionRegistry :=
  match sr_sessions r !! id with
  | None => (Absent, r)
  | Some s =>
      if negb (ms_listener_generation s =? listener_generation)%N then
        (Already,
         set_sessions (<[id := drop_retired (λ rt, negb (rt_listener_generation rt =? listener_generation)%N) s]>
           (sr_sessions r)) r)
      else if bool_decide (si_state (ms_info s) = Stopping) && bool_decide (ms_runtime s = None) then (Already, r)
      else take_at id s r
  end.

(** The last section: the session leaves the registry; the counter follows
    if it was still there. *)
Definition finish_remove (id : str) (r : SessionRegistry) : bool * SessionRegistry :=
  (bool_decide (is_Some (sr_sessions r !! id)), set_sessions (delete id (sr_sessions r)) r).

Definition finish_count (removed : bool) (metrics : Metrics) : Metrics :=
  if removed then (session_stopped metrics).1 else metrics.

(** [shutdown_runtimes]: [drained] answers, per runtime, whether it ended
    within the grace period. *)
Definition shutdown_runtimes (drained : Runtime → bool) (runtimes : list Runtime) (metrics : Metrics) : Metrics :=
  foldl (λ m rt, runtime_shutdown (drained rt) m) metrics runtimes.

Definition finish (drained : Runtime → bool) (id : str) (b : begun * SessionRegistry) (metrics : Metrics)
    : SessionRegistry * Metrics :=
  match b with
  | (Taken runtimes, r) =>
      let metrics := shutdown_runtimes drained runtimes metrics in
      let '(removed, r) := finish_remove id r in
      (r, finish_count removed metrics)
  | (_, r) => (r, metrics)
  end.

Definition stop (drained : Runtime → bool) (id : str) (r : SessionRegistry) (metrics : Metrics)
    : bool * SessionRegistry * Metrics :=
  let b := stop_begin id r in
  let '(r, metrics) := finish drained id b metrics in
  (match b.1 with Absent => false | _ => true end, r, metrics).

Definition remove (drained : Runtime → bool) (id : str) (r : SessionRegistry) (metrics : Metrics)
    : SessionRegistry * Metrics :=
  finish drained id (remove_begin id r) metrics.

Definition runtime_exit (drained : Runtime → bool) (id : str) (listener_generation : N)
    (r : SessionRegistry) (metrics : Metrics) : SessionRegistry * Metrics :=
  finish drained id (runtime_exit_begin id listener_generation r) metrics.

(** ** [shutdown_all] and [list] *)

Definition reject_new_sessions (r : SessionRegistry) : SessionRegistry :=
  mkSessionRegistry false (sr_sessions r) (sr_provisioning r).

Definition shutdown_begin (r : SessionRegistry) : list str * SessionRegistry :=
  ((map_to_list (sr_sessions r)).*1, mkSessionRegistry false (sr_sessions r) ∅).

Definition shutdown_take (id : str) (r : SessionRegistry) : option (list Runtime) * SessionRegistry :=
  match sr_sessions r !! id with
  | None => (None, r)
  | Some s =>
      let '(s', runtimes) := take_session s in
      (Some runtimes, set_sessions (<[id := s']> (sr_sessions r)) r)
  end.

Fixpoint shutdown_take_all (ids : list str) (r : SessionRegistry) : list Runtime * nat * SessionRegistry :=
  match ids with
  | [] => ([], 0, r)
  | id :: ids =>
      let '(taken, r) := shutdown_take id r in
      let '(runtimes, count, r) := shutdown_take_all ids r in
      match taken with
      | Some rts => (rts ++ runtimes, S count, r)
      | None => (runtimes, count, r)
      end
  end.

Definition shutdown_clear (r : SessionRegistry) : SessionRegistry := set_sessions ∅ r.

Definition shutdown_all (drained : Runtime → bool) (r : SessionRegistry) (metrics : Metrics)
    : SessionRegistry * Metrics :=
  let '(ids, r) := shutdown_begin r in
  let '(runtimes, count, r) := shutdown_take_all ids r in
  let metrics := shutdown_runtimes drained runtimes metrics in
  (shutdown_clear r, Nat.iter count (λ m, (session_stopped m).1) metrics).

(** [list]: finished retired listeners are dropped first. *)
Definition list_sessions (finished : Runtime → bool) (r : SessionRegistry) : list SessionInfo * SessionRegistry :=
  let sessions := drop_retired (λ rt, negb (finished rt)) <$> sr_sessions r in
  (sort_by_key si_id ((λ s, ms_info s.2) <$> map_to_list sessions), set_sessions sessions r).

(** ** Creation *)

Lemma hex_digit_char n : (n < 16)%N → is_ascii_alphanumeric (hex_digit n) = true.
Proof.
  intros Hn. assert (n ∈ (N.of_nat <$> seq 0 16)) as Hin.
  { apply list_elem_of_fmap. exists (N.to_nat n). rewrite elem_of_seq. split; lia. }
  assert (Forall (λ n, is_ascii_alphanumeric (hex_digit n) = true) (N.of_nat <$> seq 0 16)) as Hall.
  { apply (bool_decide_unpack _). vm_compute. exact I. }
  rewrite Forall_forall in Hall. auto.
Qed.

Lemma session_id_of_length random : length (session_id_of random) = 2 * length random.
Proof. induction random as [|c s IH]; [done|]. unfold session_id_of in *. rewrite bind_cons, length_app, IH. cbn. lia. Qed.

Lemma session_id_of_chars random c : c ∈ session_id_of random → is_ascii_alphanumeric c = true.
Proof.
  intros (byte & Hc & _)%list_elem_of_bind. pose proof (code_bound byte).
  apply elem_of_cons in Hc as [->|[->|Hc]%elem_of_cons]; [| |set_solver]; apply hex_digit_char.
  - rewrite N.shiftr_div_pow2. apply N.Div0.div_lt_upper_bound. lia.
  - change 15%N with (N.ones 4). rewrite N.land_ones. by apply N.mod_lt.
Qed.

(** Identifiers made from 16 random bytes pass the identifier check. *)
Lemma session_id_of_valid random : length random = 16 → validate_session_id (session_id_of random) = true.
Proof.
  intros Hl. unfold validate_session_id. apply negb_true_iff. rewrite !orb_false_iff, negb_false_iff.
  pose proof (session_id_of_length random) as Hlen. split_and!.
  - apply bool_decide_eq_false. intros E. rewrite E in Hlen. cbn in Hlen. lia.
  - apply Nat.ltb_ge. lia.
  - apply forallb_elem. intros c Hc. by rewrite (session_id_of_chars _ _ Hc).
Qed.

Section create_spec.
Context `{Crypto}.

Lemma create_reserve_facts mgr id r r' :
  create_reserve mgr id r = Ok r' →
  sr_accepting_sessions r = true ∧ sr_sessions r !! id = None ∧ id ∉ sr_provisioning r ∧
  size (sr_sessions r) + size (sr_provisioning r) < sm_max_sessions mgr ∧ create_cancel id r' = r.
Proof.
  unfold create_reserve. intros Hr. res_inv. bool_prop.
  match goal with H : (_ <=? _)%nat = false |- _ => apply Nat.leb_gt in H end.
  split_and!; [done|by apply eq_None_not_Some|done|done|].
  unfold create_cancel, set_provisioning. destruct r as [a s p]; cbn in *. f_equal. set_solver.
Qed.

(** Every way [create] can end. *)
Lemma create_cases mgr env session secrets source r metrics res r' m' :
  create mgr env session secrets source r metrics = (res, r', m') →
  match res with
  | Err _ => r' = r ∧ m' = metrics
  | Ok created => ∃ seed id_bytes ms rt,
      let id := session_id_of id_bytes in
      ce_seed env = Some seed ∧ ce_id_bytes env = Some id_bytes ∧
      sr_accepting_sessions r = true ∧ sr_sessions r !! id = None ∧ id ∉ sr_provisioning r ∧
      size (sr_sessions r) + size (sr_provisioning r) < sm_max_sessions mgr ∧
      r' = set_sessions (<[id := ms]> (sr_sessions r)) r ∧ m' = (session_started metrics).1 ∧
      ms_runtime ms = Some rt ∧ rt_generation rt = mkProxyGeneration (compile session seed) secrets ∧
      rt_credential_seed rt = seed ∧
      create_socket_path mgr env id session = Some (rt_socket_path rt) ∧
      ms_configuration ms = session ∧ ms_secrets ms = secrets ∧ ms_config_source ms = source ∧
      ms_info ms = mkSessionInfo id (rt_socket_path rt) (sc_persistent session) Running 1 0 ∧
      cs_info created = ms_info ms ∧ cs_credential_seed_base64url created = base64url_encode seed
  end.
Proof.
  unfold create. destruct (ce_ca_pem env) as [pem|]; [|by intros [= <- <- <-]].
  destruct (ce_seed env) as [seed|]; [|by intros [= <- <- <-]].
  destruct (ce_id_bytes env) as [id_bytes|]; [|by intros [= <- <- <-]].
  set (id := session_id_of id_bytes).
  destruct (create_reserve mgr id r) as [r1|e] eqn:Hres; [|by intros [= <- <- <-]].
  pose proof (create_reserve_facts _ _ _ _ Hres) as (Ha & Hn & Hp & Hcap & Hback).
  destruct (create_socket_path mgr env id session) as [path|] eqn:Hpath.
  2:{ intros [= <- <- <-]. done. }
  destruct (start_with_options _ _) as [rt|e] eqn:Hrt.
  2:{ intros [= <- <- <-]. done. }
  unfold create_commit. rewrite Hback, Ha. cbn [negb]. intros [= <- <- <-].
  unfold start_with_options in Hrt. destruct (ce_bound env); simplify_eq/=.
  eexists seed, id_bytes, _, _. fold id. by split_and!.
Qed.
(** Creation is all or nothing. A failed [create] leaves the registry and
    the counters exactly as they were. A successful one registers, under a
    fresh identifier and within capacity, a running session whose listener
    enforces the compiled policy of the given configuration under a new seed,
    at the configured socket name or the identifier's, and counts it; every
    other session is untouched, and the answer describes that session. *)
Theorem create_exact mgr env session secrets source r metrics res r' m' :
  create mgr env session secrets source r metrics = (res, r', m') →
  match res with
  | Err _ => r' = r ∧ m' = metrics
  | Ok created => ∃ seed id_bytes ms rt,
      let id := session_id_of id_bytes in
      ce_seed env = Some seed ∧ ce_id_bytes env = Some id_bytes ∧
      sr_accepting_sessions r = true ∧ sr_sessions r !! id = None ∧ id ∉ sr_provisioning r ∧
      size (sr_sessions r) + size (sr_provisioning r) < sm_max_sessions mgr ∧
      r' = set_sessions (<[id := ms]> (sr_sessions r)) r ∧ m' = (session_started metrics).1 ∧
      ms_runtime ms = Some rt ∧ rt_generation rt = mkProxyGeneration (compile session seed) secrets ∧
      rt_credential_seed rt = seed ∧
      create_socket_path mgr env id session = Some (rt_socket_path rt) ∧
      ms_configuration ms = session ∧ ms_secrets ms = secrets ∧ ms_config_source ms = source ∧
      ms_info ms = mkSessionInfo id (rt_socket_path rt) (sc_persistent session) Running 1 0 ∧
      cs_info created = ms_info ms ∧ cs_credential_seed_base64url created = base64url_encode seed
  end.
Proof. apply create_cases. Qed.
End create_spec.

Definition example_env : create_env :=
  mkCreateEnv (Some (lit "PEM")) (Some (replicate 32 "a")) (Some (replicate 16 "z")) None true 0.

Lemma create_exact_witness :
  ∃ created r' m', @create plain_crypto (mkSessionManager (lit "/run/baffle") 2) example_env
    example_session ∅ None registry_new metrics_default = (Ok created, r', m') ∧
  m' = (session_started metrics_default).1.
Proof.
  destruct (@create plain_crypto (mkSessionManager (lit "/run/baffle") 2) example_env
    example_session ∅ None registry_new metrics_default) as [[res r'] m'] eqn:E.
  pose proof (@create_exact plain_crypto (mkSessionManager (lit "/run/baffle") 2) example_env
    example_session ∅ None registry_new metrics_default res r' m' E) as Hc.
  destruct res as [created|e].
  - exists created, r', m'. split; [reflexivity|].
    destruct Hc as (seed & idb & ms & rt & Hc). apply Hc.
  - exfalso. apply (f_equal (λ x, is_ok x.1.1)) in E. vm_compute in E. discriminate E.
Defined.
