(* ===== verification/SessionSystem.v ===== *)
(** Concurrent session operations (src/control/session.rs,
    src/control/server.rs).

    Control connections, runtime exits and the daemon's shutdown run as
    concurrent tasks. A state is the registry, the counters, and the program
    counter of each running task; a step runs one critical section of one task.
    A task in [TLocked], [TDraining], [TCount] or [TReload] holds the
    [reload_lock] of its session. Tasks are aborted only after the daemon has
    stopped accepting sessions ([ControlServer::shutdown]). *)

From S2P Require Import Prelude RustStr PolicyTypes SessionDoc SessionPolicy Secrets Telemetry ProxyRuntime.
From S2P Require Import Registry.
From stdpp Require Import options.

Inductive lock_op := OpStop | OpRemove | OpExit (listener_generation : N).

Definition begin_op (o : lock_op) (id : str) (r : SessionRegistry) : begun * SessionRegistry :=
  match o with
  | OpStop => stop_begin id r
  | OpRemove => remove_begin id r
  | OpExit listener_generation => runtime_exit_begin id listener_generation r
  end.

Inductive task :=
| TReserved (id : str) (managed : ManagedSession)
| TLocked (id : str) (o : lock_op)
| TDraining (id : str) (runtimes : list Runtime)
| TCount (id : str)
| TReload (id : str)
| TShutdown (todo : list str) (counted : nat)
| TCleared (counted : nat).

(** The session whose [reload_lock] a task holds. *)
Definition holds (t : task) : option str :=
  match t with
  | TLocked id _ | TDraining id _ | TCount id | TReload id => Some id
  | _ => None
  end.

Record system := mkSystem {
  sys_registry : SessionRegistry;
  sys_metrics : Metrics;
  sys_tasks : gmap nat task;
  sys_shutdown : bool;
}.

Definition lock_free (id : str) (tasks : gmap nat task) : Prop :=
  ∀ tid t, tasks !! tid = Some t → holds t ≠ Some id.

(** A session that is served: running, under its own name, with a runtime. *)
Definition served (id : str) (s : ManagedSession) : Prop :=
  si_state (ms_info s) = Running ∧ is_Some (ms_runtime s) ∧ si_id (ms_info s) = id.

(** The points at which a task can be cancelled. *)
Definition abortable (t : task) : bool :=
  match t with TReserved _ _ | TLocked _ _ | TDraining _ _ | TReload _ => true | _ => false end.

Section system.
Context (mgr : SessionManager).

Inductive step : system → system → Prop :=
| step_reserve r r' m ts b tid id managed :
    ts !! tid = None → create_reserve mgr id r = Ok r' → served id managed →
    step (mkSystem r m ts b) (mkSystem r' m (<[tid := TReserved id managed]> ts) b)
| step_cancel r m ts b tid id managed :
    ts !! tid = Some (TReserved id managed) →
    step (mkSystem r m ts b) (mkSystem (create_cancel id r) m (delete tid ts) b)
| step_commit r m ts b tid id managed :
    ts !! tid = Some (TReserved id managed) →
    step (mkSystem r m ts b)
      (mkSystem (create_commit id managed r m).1.2 (create_commit id managed r m).2 (delete tid ts) b)
| step_lock r m ts b tid id t :
    ts !! tid = None → lock_free id ts → (t = TReload id ∨ ∃ o, t = TLocked id o) →
    step (mkSystem r m ts b) (mkSystem r m (<[tid := t]> ts) b)
| step_begin r r' m ts b tid id o runtimes :
    ts !! tid = Some (TLocked id o) → begin_op o id r = (Taken runtimes, r') →
    step (mkSystem r m ts b) (mkSystem r' m (<[tid := TDraining id runtimes]> ts) b)
| step_nothing r r' m ts b tid id o :
    ts !! tid = Some (TLocked id o) →
    (begin_op o id r = (Absent, r') ∨ begin_op o id r = (Already, r')) →
    step (mkSystem r m ts b) (mkSystem r' m (delete tid ts) b)
| step_remove r m ts b tid id runtimes drained :
    ts !! tid = Some (TDraining id runtimes) →
    step (mkSystem r m ts b)
      (mkSystem (finish_remove id r).2 (shutdown_runtimes drained runtimes m)
         (if (finish_remove id r).1 then <[tid := TCount id]> ts else delete tid ts) b)
| step_count r m ts b tid id :
    ts !! tid = Some (TCount id) →
    step (mkSystem r m ts b) (mkSystem r (session_stopped m).1 (delete tid ts) b)
| step_reload r m ts b tid id s s' :
    ts !! tid = Some (TReload id) → sr_accepting_sessions r = true →
    sr_sessions r !! id = Some s → si_state (ms_info s) = Running → served id s' →
    step (mkSystem r m ts b) (mkSystem (set_sessions (<[id := s']> (sr_sessions r)) r) m ts b)
| step_reload_end r m ts b tid id :
    ts !! tid = Some (TReload id) → step (mkSystem r m ts b) (mkSystem r m (delete tid ts) b)
| step_list r m ts b finished :
    step (mkSystem r m ts b) (mkSystem (list_sessions finished r).2 m ts b)
| step_reject r m ts b :
    step (mkSystem r m ts b) (mkSystem (reject_new_sessions r) m ts b)
| step_shutdown r m ts tid :
    ts !! tid = None →
    step (mkSystem r m ts false)
      (mkSystem (shutdown_begin r).2 m (<[tid := TShutdown (shutdown_begin r).1 0]> ts) true)
| step_take r r' m ts b tid id todo n taken :
    ts !! tid = Some (TShutdown (id :: todo) n) → lock_free id ts → shutdown_take id r = (taken, r') →
    step (mkSystem r m ts b)
      (mkSystem r' m (<[tid := TShutdown todo (if taken is Some _ then S n else n)]> ts) b)
| step_clear r m m' ts b tid n :
    ts !! tid = Some (TShutdown [] n) → active_sessions m' = active_sessions m →
    step (mkSystem r m ts b) (mkSystem (shutdown_clear r) m' (<[tid := TCleared n]> ts) b)
| step_uncount r m ts b tid n :
    ts !! tid = Some (TCleared (S n)) →
    step (mkSystem r m ts b) (mkSystem r (session_stopped m).1 (<[tid := TCleared n]> ts) b)
| step_done r m ts b tid :
    ts !! tid = Some (TCleared 0) →
    step (mkSystem r m ts b) (mkSystem r m (delete tid ts) b)
| step_abort r m ts b tid t :
    ts !! tid = Some t → abortable t = true → sr_accepting_sessions r = false →
    step (mkSystem r m ts b) (mkSystem r m (delete tid ts) b).

Definition system_init : system := mkSystem registry_new metrics_default ∅ false.

Inductive reachable : system → Prop :=
| reachable_init : reachable system_init
| reachable_step s s' : reachable s → step s s' → reachable s'.

(** ** Registry invariant *)

(** Running sessions have a runtime, stopping ones have none. *)
Definition session_ok (id : str) (s : ManagedSession) : Prop :=
  si_id (ms_info s) = id ∧ (si_state (ms_info s) = Running ↔ is_Some (ms_runtime s)).

Record registry_inv (r : SessionRegistry) (ts : gmap nat task) : Prop := {
  ri_capacity : size (sr_sessions r) + size (sr_provisioning r) ≤ sm_max_sessions mgr;
  ri_sessions : ∀ id s, sr_sessions r !! id = Some s → session_ok id s;
  ri_fresh : ∀ id, id ∈ sr_provisioning r → sr_sessions r !! id = None;
  ri_reserved : ∀ tid id managed, ts !! tid = Some (TReserved id managed) →
    served id managed ∧ (sr_accepting_sessions r = true → id ∈ sr_provisioning r);
  ri_unique : ∀ tid tid' id managed managed', sr_accepting_sessions r = true →
    ts !! tid = Some (TReserved id managed) → ts !! tid' = Some (TReserved id managed') → tid = tid';
}.

Lemma served_ok id s : served id s → session_ok id s.
Proof using Type. intros (? & ? & ?). split; [done|]. naive_solver. Qed.

Lemma take_session_ok id s : session_ok id s → session_ok id (take_session s).1.
Proof using Type. intros [? ?]. split; [done|]. cbn. split; [done|]. by intros []. Qed.

Lemma drop_retired_ok keep id s : session_ok id s → session_ok id (drop_retired keep s).
Proof using Type. by intros [? ?]. Qed.

(** Overwriting one session keeps the registry's shape. *)
Lemma registry_inv_update r ts id s s' :
  registry_inv r ts → sr_sessions r !! id = Some s → session_ok id s' →
  registry_inv (set_sessions (<[id := s']> (sr_sessions r)) r) ts.
Proof using Type.
  intros [Hc Hs Hf Hr Hu] Hid Hok. constructor; cbn; [|..|done|done].
  - by rewrite map_size_insert_Some by eauto.
  - intros k t [[<- <-]|[_ Hk]]%lookup_insert_Some; eauto.
  - intros k Hk. apply Hf in Hk as Hn. rewrite lookup_insert_ne by congruence. done.
Qed.

(** Tasks other than reservations may change freely. *)
Lemma registry_inv_tasks r ts ts' :
  registry_inv r ts →
  (∀ tid id managed, ts' !! tid = Some (TReserved id managed) → ts !! tid = Some (TReserved id managed)) →
  registry_inv r ts'.
Proof using Type. intros [Hc Hs Hf Hr Hu] Ht. constructor; eauto. Qed.

Lemma delete_reserved {ts : gmap nat task} {tid tid' id managed} :
  delete tid ts !! tid' = Some (TReserved id managed) → ts !! tid' = Some (TReserved id managed) ∧ tid' ≠ tid.
Proof using Type. intros [? ?]%lookup_delete_Some. auto. Qed.

Lemma insert_reserved {ts : gmap nat task} {tid tid' id managed t} :
  (∀ i m, t ≠ TReserved i m) →
  <[tid := t]> ts !! tid' = Some (TReserved id managed) → ts !! tid' = Some (TReserved id managed).
Proof using Type. intros Ht [[_ ?]|[_ ?]]%lookup_insert_Some; naive_solver. Qed.

Lemma size_difference_singleton (X : gset str) id :
  id ∈ X → size (X ∖ {[id]}) + 1 = size X.
Proof using Type.
  intros Hin. rewrite size_difference by set_solver. rewrite size_singleton.
  assert (size X ≠ 0) by (intros Hz%size_empty_inv; set_solver). lia.
Qed.

Lemma create_cancel_inv r ts tid id managed :
  registry_inv r ts → ts !! tid = Some (TReserved id managed) →
  registry_inv (create_cancel id r) (delete tid ts).
Proof using Type.
  intros [Hc Hs Hf Hr Hu] Ht. constructor; cbn.
  - assert (size (sr_provisioning r ∖ {[id]}) ≤ size (sr_provisioning r))
      by (apply subseteq_size; set_solver). lia.
  - done.
  - intros k Hk. apply Hf. set_solver.
  - intros tid' k managed' [Hk Hne]%delete_reserved. destruct (Hr _ _ _ Hk) as [? Hin].
    split; [done|]. intros Ha. specialize (Hin Ha).
    assert (k ≠ id) by (intros ->; destruct Hne; by eapply Hu). set_solver.
  - intros tid1 tid2 k m1 m2 Ha [? _]%delete_reserved [? _]%delete_reserved. by eapply Hu.
Qed.

Lemma create_reserve_inv r r' ts tid id managed :
  registry_inv r ts → ts !! tid = None → create_reserve mgr id r = Ok r' → served id managed →
  registry_inv r' (<[tid := TReserved id managed]> ts).
Proof using Type.
  intros [Hc Hs Hf Hr Hu] Hn Hres Hsv. unfold create_reserve in Hres. res_inv. bool_prop.
  assert (sr_sessions r !! id = None) as Hid.
  { apply eq_None_not_Some. done. }
  match goal with H : (_ <=? _)%nat = false |- _ => apply Nat.leb_gt in H end.
  constructor; cbn.
  - rewrite size_union, size_singleton by set_solver. lia.
  - done.
  - intros k [->%elem_of_singleton|Hk]%elem_of_union; eauto.
  - intros tid' k managed' [[_ [= -> ->]]|[_ Hk]]%lookup_insert_Some; [split; [done|set_solver]|].
    destruct (Hr _ _ _ Hk) as [? Hin]. split; [done|]. set_solver.
  - intros tid1 tid2 k m1 m2 Ha H1 H2.
    apply lookup_insert_Some in H1 as [[<- [= <- <-]]|[Hne1 H1]], H2 as [[<- E2]|[Hne2 H2]].
    + done.
    + destruct (Hr _ _ _ H2) as [_ Hin]. set_solver.
    + simplify_eq. destruct (Hr _ _ _ H1) as [_ Hin]. set_solver.
    + by eapply Hu.
Qed.

Lemma create_commit_inv r ts tid id managed m :
  registry_inv r ts → ts !! tid = Some (TReserved id managed) →
  registry_inv (create_commit id managed r m).1.2 (delete tid ts).
Proof using Type.
  intros Hinv Ht. pose proof (create_cancel_inv _ _ _ _ _ Hinv Ht) as Hcan.
  destruct Hinv as [Hc0 Hs0 Hf0 Hr0 _]. unfold create_commit.
  change (sr_accepting_sessions (create_cancel id r)) with (sr_accepting_sessions r).
  destruct (sr_accepting_sessions r) eqn:Ha; cbn [negb fst snd]; [|done]. destruct Hcan as [Hc Hs Hf Hr Hu].
  destruct (Hr0 _ _ _ Ht) as [Hsv Hin]. specialize (Hin eq_refl).
  constructor; cbn in *; [| | |done|done].
  - rewrite map_size_insert_None by auto. pose proof (size_difference_singleton _ _ Hin). lia.
  - intros k t [[<- <-]|[_ Hk]]%lookup_insert_Some; [by apply served_ok|auto].
  - intros k Hk. rewrite lookup_insert_ne by set_solver. auto.
Qed.

Lemma finish_remove_inv r ts id : registry_inv r ts → registry_inv (finish_remove id r).2 ts.
Proof using Type.
  intros [Hc Hs Hf Hr Hu]. constructor; cbn; [|..|done|done].
  - rewrite map_size_delete. destruct (sr_sessions r !! id); cbn; lia.
  - intros k s [_ Hk]%lookup_delete_Some. auto.
  - intros k Hk. apply lookup_delete_None. auto.
Qed.

Lemma begin_op_shape o id r b r' :
  begin_op o id r = (b, r') →
  r' = r ∧ (∀ rts, b ≠ Taken rts) ∨
  ∃ s, sr_sessions r !! id = Some s ∧
    (b = Taken (take_session s).2 ∧ r' = set_sessions (<[id := (take_session s).1]> (sr_sessions r)) r ∧
       (si_state (ms_info s) = Running ∨ is_Some (ms_runtime s)) ∨
     b = Already ∧ ∃ keep, r' = set_sessions (<[id := drop_retired keep s]> (sr_sessions r)) r).
Proof using Type.
  unfold begin_op, stop_begin, remove_begin, runtime_exit_begin.
  destruct (sr_sessions r !! id) as [s|] eqn:Hs; [|destruct o; intros [= <- <-]; naive_solver].
  assert (∀ b r', take_at id s r = (b, r') →
    (si_state (ms_info s) = Stopping → ms_runtime s = None → False) →
    b = Taken (take_session s).2 ∧ r' = set_sessions (<[id := (take_session s).1]> (sr_sessions r)) r ∧
       (si_state (ms_info s) = Running ∨ is_Some (ms_runtime s))) as Htake.
  { intros b0 r0 [= <- <-] Hno. split_and!; [done..|].
    destruct (si_state (ms_info s)); [by left|right]. destruct (ms_runtime s); [eauto|by destruct Hno]. }
  intros Hb. destruct o.
  - case_bool_decide; [simplify_eq; naive_solver|]. right. exists s. split; [done|]. left. by apply Htake.
  - destruct (_ && _) eqn:E; [simplify_eq; naive_solver|]. right. exists s. split; [done|]. left.
    apply Htake; [done|]. intros. by rewrite !bool_decide_eq_true_2 in E.
  - destruct (negb _); [simplify_eq; naive_solver|].
    destruct (_ && _) eqn:E; [simplify_eq; naive_solver|]. right. exists s. split; [done|]. left.
    apply Htake; [done|]. intros. by rewrite !bool_decide_eq_true_2 in E.
Qed.

Lemma begin_op_inv o id r b r' ts :
  registry_inv r ts → begin_op o id r = (b, r') → registry_inv r' ts.
Proof using Type.
  intros Hinv [[-> _]|(s & Hs & [(_ & -> & _)|(_ & keep & ->)])]%begin_op_shape; [done|..];
    eapply registry_inv_update; eauto using take_session_ok, drop_retired_ok, ri_sessions.
Qed.

Lemma list_sessions_inv finished r ts :
  registry_inv r ts → registry_inv (list_sessions finished r).2 ts.
Proof using Type.
  intros [Hc Hs Hf Hr Hu]. constructor; cbn; [|..|done|done].
  - by rewrite map_size_fmap.
  - intros k s (s0 & <- & Hk)%lookup_fmap_Some. auto using drop_retired_ok.
  - intros k Hk. rewrite lookup_fmap. by rewrite (Hf k Hk).
Qed.

Lemma shutdown_take_inv id r taken r' ts :
  registry_inv r ts → shutdown_take id r = (taken, r') → registry_inv r' ts.
Proof using Type.
  unfold shutdown_take. intros Hinv. destruct (sr_sessions r !! id) as [s|] eqn:Hs; intros [= <- <-]; [|done].
  eapply registry_inv_update; eauto. by apply (take_session_ok id s), (ri_sessions _ _ Hinv).
Qed.

Lemma registry_inv_step s s' :
  step s s' → registry_inv (sys_registry s) (sys_tasks s) → registry_inv (sys_registry s') (sys_tasks s').
Proof using Type.
  intros Hstep Hinv. destruct Hstep; cbn in *.
  - by eapply create_reserve_inv.
  - by eapply create_cancel_inv.
  - by eapply create_commit_inv.
  - eapply registry_inv_tasks; [done|]. intros ????. eapply insert_reserved; [|eassumption]. naive_solver.
  - eapply registry_inv_tasks; [by eapply begin_op_inv|]. intros ????. by eapply insert_reserved; [|eassumption].
  - eapply registry_inv_tasks; [destruct H0; by eapply begin_op_inv|]. by intros ??? [? _]%delete_reserved.
  - eapply registry_inv_tasks; [by apply (finish_remove_inv r ts)|]. intros tid' k managed.
    destruct (bool_decide _); [by apply insert_reserved|by intros [? _]%delete_reserved].
  - eapply registry_inv_tasks; [done|]. by intros ??? [? _]%delete_reserved.
  - eapply registry_inv_update; eauto using served_ok.
  - eapply registry_inv_tasks; [done|]. by intros ??? [? _]%delete_reserved.
  - by apply list_sessions_inv.
  - destruct Hinv as [Hc Hs Hf Hr Hu]. constructor; cbn; try done. intros ??? Ht. by destruct (Hr _ _ _ Ht).
  - destruct Hinv as [Hc Hs Hf Hr Hu]. constructor; cbn; try done.
    + rewrite size_empty. lia.
    + intros ??? Ht. apply insert_reserved in Ht; [|done]. by destruct (Hr _ _ _ Ht).
  - eapply registry_inv_tasks; [by eapply shutdown_take_inv|]. intros ????. by eapply insert_reserved; [|eassumption].
  - destruct Hinv as [Hc Hs Hf Hr Hu]. constructor; cbn.
    + rewrite map_size_empty. lia.
    + by intros ??.
    + intros. apply lookup_empty.
    + intros ??? Ht. apply insert_reserved in Ht; [|done]. by eapply Hr.
    + intros ????? Ha H1 H2. apply insert_reserved in H1, H2; [|done..]. by eapply Hu.
  - eapply registry_inv_tasks; [done|]. intros ????. by eapply insert_reserved; [|eassumption].
  - eapply registry_inv_tasks; [done|]. by intros ??? [? _]%delete_reserved.
  - eapply registry_inv_tasks; [done|]. by intros ??? [? _]%delete_reserved.
Qed.

Lemma registry_inv_reachable s : reachable s → registry_inv (sys_registry s) (sys_tasks s).
Proof using Type.
  induction 1; [|by eapply registry_inv_step].
  constructor; cbn; try done. rewrite map_size_empty, size_empty. lia.
Qed.

(** ** Lock invariant *)

Definition lock_inv (ts : gmap nat task) : Prop :=
  ∀ tid1 tid2 t1 t2 id, ts !! tid1 = Some t1 → ts !! tid2 = Some t2 →
    holds t1 = Some id → holds t2 = Some id → tid1 = tid2.

Lemma lock_inv_delete ts tid : lock_inv ts → lock_inv (delete tid ts).
Proof using Type. intros Hl ????? [_ ?]%lookup_delete_Some [_ ?]%lookup_delete_Some. by eapply Hl. Qed.

(** A task keeps its lock, has none, or takes a free one. *)
Lemma lock_inv_insert ts tid t :
  lock_inv ts →
  (∀ id, holds t = Some id → lock_free id ts ∨ ∃ t0, ts !! tid = Some t0 ∧ holds t0 = Some id) →
  lock_inv (<[tid := t]> ts).
Proof using Type.
  intros Hl Ht.
  assert (∀ tid' t' id, ts !! tid' = Some t' → tid' ≠ tid → holds t' = Some id → holds t = Some id → False) as Hne.
  { intros tid' t' id Hin Hn H1 H2. destruct (Ht id H2) as [Hf|(t0 & H0 & Hh)]; [by eapply Hf|].
    destruct Hn. by eapply Hl. }
  intros tid1 tid2 t1 t2 id H1 H2 Hh1 Hh2.
  apply lookup_insert_Some in H1 as [[<- <-]|[Hn1 H1]], H2 as [[<- <-]|[Hn2 H2]]; [done|..].
  - exfalso. by eapply Hne.
  - exfalso. by eapply (Hne tid1).
  - by eapply Hl.
Qed.

Lemma lock_inv_step s s' : step s s' → lock_inv (sys_tasks s) → lock_inv (sys_tasks s').
Proof using Type.
  intros Hstep Hl. destruct Hstep; cbn in *; try (by apply lock_inv_delete); try done.
  all: try (destruct (bool_decide _); [|by apply lock_inv_delete]).
  all: apply lock_inv_insert; [done|]; intros k Hk; try done.
  all: first [right; eexists; split; [eassumption|exact Hk]|left; naive_solver].
Qed.

(** ** Counting *)

Definition owed_of (t : task) : nat :=
  match t with TCount _ => 1 | TCleared n => n | _ => 0 end.

(** The session-count decrements that running tasks still have to make. *)
Definition owed (ts : gmap nat task) : nat := map_fold (λ _ t acc, owed_of t + acc) 0 ts.

Lemma owed_insert ts tid t : ts !! tid = None → owed (<[tid := t]> ts) = owed_of t + owed ts.
Proof using Type. intros Hn. unfold owed. rewrite map_fold_insert_L; [done|lia|done]. Qed.

Lemma owed_delete ts tid t : ts !! tid = Some t → owed ts = owed_of t + owed (delete tid ts).
Proof using Type. intros Ht. unfold owed. rewrite (map_fold_delete_L _ _ tid t ts); [done|lia|done]. Qed.

Lemma owed_update ts tid t t' :
  ts !! tid = Some t → owed (<[tid := t']> ts) + owed_of t = owed ts + owed_of t'.
Proof using Type.
  intros Ht. rewrite (owed_delete ts tid t Ht), <-insert_delete_eq, owed_insert by apply lookup_delete_eq. lia.
Qed.

Lemma gauge_started n g : g = (n mod U64)%N → fetch_add1 g = ((n + 1) mod U64)%N.
Proof using Type. intros ->. unfold fetch_add1. by rewrite N.Div0.add_mod_idemp_l. Qed.

Lemma gauge_stopped n g : g = ((n + 1) mod U64)%N → fetch_sub1 g = (n mod U64)%N.
Proof using Type.
  intros ->. unfold fetch_sub1. rewrite N.Div0.add_mod_idemp_l.
  replace (n + 1 + (U64 - 1))%N with (n + 1 * U64)%N by (unfold U64; lia). apply N.Div0.mod_add.
Qed.

(** The shutdown's bookkeeping. *)
Record shutdown_inv (r : SessionRegistry) (ts : gmap nat task) (b : bool) : Prop := {
  sh_flag : b = true → sr_accepting_sessions r = false;
  sh_shutdown : ∀ tid todo n, ts !! tid = Some (TShutdown todo n) → b = true;
  sh_cleared : ∀ tid n, ts !! tid = Some (TCleared n) → b = true ∧ sr_sessions r = ∅;
  sh_one : ∀ tid tid' todo todo' n n', ts !! tid = Some (TShutdown todo n) →
    ts !! tid' = Some (TShutdown todo' n') → tid = tid';
  sh_counted : ∀ tid todo n, ts !! tid = Some (TShutdown todo n) →
    NoDup todo ∧ size (dom (sr_sessions r) ∖ list_to_set todo : gset str) = n ∧
    ∀ k s, sr_sessions r !! k = Some s → k ∉ todo →
      si_state (ms_info s) = Stopping ∧ ∀ tid' rts, ts !! tid' ≠ Some (TDraining k rts);
  sh_done : b = true → (∀ tid todo n, ts !! tid ≠ Some (TShutdown todo n)) → sr_sessions r = ∅;
}.

Definition closing (t : task) : bool :=
  match t with TShutdown _ _ | TCleared _ => true | _ => false end.

(** Before the shutdown no task is closing. *)
Lemma shutdown_inv_false r ts :
  shutdown_inv r ts false ↔ ∀ tid t, ts !! tid = Some t → closing t = false.
Proof using Type.
  split.
  - intros Hinv tid t Ht. destruct t; try done; exfalso.
    + by apply (sh_shutdown _ _ _ Hinv) in Ht.
    + by apply (sh_cleared _ _ _ Hinv) in Ht as [? _].
  - intros Hc. constructor; try done; intros; exfalso;
      match goal with H : ts !! _ = Some _ |- _ => by apply Hc in H end.
Qed.

(** During the shutdown: a step that touches no closing task and no session
    already counted. *)
Lemma shutdown_inv_frame r ts r' ts' :
  shutdown_inv r ts true → sr_accepting_sessions r' = false →
  (∀ tid t, closing t = true → ts' !! tid = Some t ↔ ts !! tid = Some t) →
  (sr_sessions r = ∅ → sr_sessions r' = ∅) →
  (∀ tid todo n, ts !! tid = Some (TShutdown todo n) →
     (dom (sr_sessions r') ∖ list_to_set todo : gset str) = dom (sr_sessions r) ∖ list_to_set todo ∧
     ∀ k s, sr_sessions r' !! k = Some s → k ∉ todo →
       si_state (ms_info s) = Stopping ∧ ∀ tid' rts, ts' !! tid' ≠ Some (TDraining k rts)) →
  shutdown_inv r' ts' true.
Proof using Type.
  intros [H1 H2 H3 H4 H5 H6] Ha Ht He Hs. constructor; try done.
  - intros tid n Hn. apply Ht in Hn; [|done]. apply H3 in Hn as [_ ?]. auto.
  - intros tid tid' todo todo' n n' Hn Hn'. apply Ht in Hn, Hn'; [|done..]. by eapply H4.
  - intros tid todo n Hn. apply Ht in Hn; [|done]. destruct (H5 _ _ _ Hn) as (? & ? & _).
    destruct (Hs _ _ _ Hn) as [-> ?]. done.
  - intros _ Hno. apply He, H6; [done|]. intros tid todo n Hn. apply (Hno tid todo n). by apply Ht.
Qed.

Lemma closing_delete (ts : gmap nat task) tid t0 tid' t :
  ts !! tid = Some t0 → closing t0 = false → closing t = true →
  delete tid ts !! tid' = Some t ↔ ts !! tid' = Some t.
Proof using Type.
  intros H0 Hc Ht. rewrite lookup_delete_Some. split; [naive_solver|].
  intros Hin. split; [|done]. intros ->. simplify_eq. congruence.
Qed.

Lemma closing_insert (ts : gmap nat task) tid t0 tid' t :
  (∀ t1, ts !! tid = Some t1 → closing t1 = false) → closing t0 = false → closing t = true →
  <[tid := t0]> ts !! tid' = Some t ↔ ts !! tid' = Some t.
Proof using Type.
  intros H0 Hc Ht. rewrite lookup_insert_Some. split.
  - intros [[_ ->]|[_ ?]]; [congruence|done].
  - intros Hin. right. split; [|done]. intros ->. apply H0 in Hin. congruence.
Qed.

(** The tasks change, the sessions do not. *)
Lemma shutdown_inv_tasks r ts ts' :
  shutdown_inv r ts true →
  (∀ tid t, closing t = true → ts' !! tid = Some t ↔ ts !! tid = Some t) →
  (∀ tid k rts, ts' !! tid = Some (TDraining k rts) → ∃ tid', ts !! tid' = Some (TDraining k rts)) →
  shutdown_inv r ts' true.
Proof using Type.
  intros Hinv Ht Hd. eapply shutdown_inv_frame; [done|by apply Hinv|done|done|].
  intros tid todo n Hn. split; [done|]. intros k s Hk Hno.
  destruct (sh_counted _ _ _ Hinv _ _ _ Hn) as (_ & _ & Hc). destruct (Hc k s Hk Hno) as [? Hnd].
  split; [done|]. intros tid' rts Hin. apply Hd in Hin as [tid'' ?]. by eapply Hnd.
Qed.

Lemma dom_insert_existing (m : gmap str ManagedSession) (k : str) (s s' : ManagedSession) (X : gset str) :
  m !! k = Some s → (dom (<[k := s']> m) ∖ X : gset str) = dom m ∖ X.
Proof using Type.
  intros Hk. apply set_eq. intros x. rewrite dom_insert.
  assert (k ∈ dom m) by by eapply elem_of_dom_2. set_solver.
Qed.

(** A session that a draining step may touch has not been counted yet. *)
Lemma shutdown_inv_begin r r' ts tid id o b :
  registry_inv r ts → shutdown_inv r ts true → ts !! tid = Some (TLocked id o) →
  begin_op o id r = (b, r') →
  shutdown_inv r' (match b with Taken rts => <[tid := TDraining id rts]> ts | _ => delete tid ts end) true.
Proof using Type.
  intros Hreg Hinv Hl Hb.
  assert (shutdown_inv r (delete tid ts) true) as Hdel.
  { eapply shutdown_inv_tasks; [done| |].
    - intros tid' t Ht. by eapply closing_delete.
    - intros tid' k rts [_ ?]%lookup_delete_Some. eauto. }
  apply begin_op_shape in Hb as [[-> Hnt]|(s & Hs & [(-> & -> & Hrun)|(-> & keep & ->)])].
  - destruct b; [done..|by edestruct Hnt].
  - eapply (shutdown_inv_frame r ts); [done|by apply Hinv| | |]; cbn.
    + intros tid' t Ht. apply closing_insert; [|done|done]. intros t1 ?. by simplify_eq.
    + intros He. rewrite He in Hs. done.
    + intros tid' todo n Hn. rewrite (dom_insert_existing _ _ _ _ _ Hs). split; [done|].
      destruct (sh_counted _ _ _ Hinv _ _ _ Hn) as (_ & _ & Hc).
      destruct (decide (id ∈ todo)) as [Hin|Hnin].
      * intros k t [[<- _]|[Hne Hk]]%lookup_insert_Some Hno; [done|].
        destruct (Hc k t Hk Hno) as [? Hnd]. split; [done|].
        intros tid'' rts [[_ [= -> _]]|[_ ?]]%lookup_insert_Some; [done|by eapply Hnd].
      * exfalso. destruct (Hc id s Hs Hnin) as [Hst _].
        destruct (ri_sessions _ _ Hreg id s Hs) as [_ Hok]. rewrite Hst in *.
        destruct Hrun as [?|?%Hok]; done.
  - eapply (shutdown_inv_frame r (delete tid ts)); [done|by apply Hinv|done| |]; cbn.
    + intros He. rewrite He in Hs. done.
    + intros tid' todo n Hn. rewrite (dom_insert_existing _ _ _ _ _ Hs). split; [done|].
      destruct (sh_counted _ _ _ Hdel _ _ _ Hn) as (_ & _ & Hc).
      intros k t [[<- <-]|[Hne Hk]]%lookup_insert_Some Hno; [|by eapply Hc].
      by apply (Hc id s Hs Hno).
Qed.

Lemma shutdown_inv_remove r ts tid id runtimes :
  shutdown_inv r ts true → ts !! tid = Some (TDraining id runtimes) →
  shutdown_inv (finish_remove id r).2
    (if (finish_remove id r).1 then <[tid := TCount id]> ts else delete tid ts) true.
Proof using Type.
  intros Hinv Hd. set (ts' := if (finish_remove id r).1 then <[tid := TCount id]> ts else delete tid ts).
  assert (∀ tid' t, closing t = true → ts' !! tid' = Some t ↔ ts !! tid' = Some t) as Hcl.
  { intros tid' t Ht. subst ts'. destruct (finish_remove id r).1.
    - apply closing_insert; [|done|done]. intros t1 ?. by simplify_eq.
    - by eapply closing_delete. }
  assert (∀ tid' k rts, ts' !! tid' = Some (TDraining k rts) → ts !! tid' = Some (TDraining k rts)) as Hdr.
  { intros tid' k rts. subst ts'. destruct (finish_remove id r).1.
    - by intros [[_ ?]|[_ ?]]%lookup_insert_Some.
    - by intros [_ ?]%lookup_delete_Some. }
  eapply (shutdown_inv_frame r ts); [done|by apply Hinv|done| |]; cbn.
  - intros ->. by rewrite delete_empty.
  - intros tid' todo n Hn. destruct (sh_counted _ _ _ Hinv _ _ _ Hn) as (_ & _ & Hc). split.
    + apply set_eq. intros x. rewrite dom_delete, !elem_of_difference, elem_of_singleton, elem_of_list_to_set.
      split; [tauto|]. intros [Hx Hno]. split; [|done]. split; [done|]. intros ->.
      apply elem_of_dom in Hx as [s Hs]. destruct (Hc id s Hs Hno) as [_ Hnd]. by eapply Hnd.
    + intros k s [_ Hk]%lookup_delete_Some Hno. destruct (Hc k s Hk Hno) as [? Hnd].
      split; [done|]. intros tid'' rts ?%Hdr. by eapply Hnd.
Qed.

Lemma shutdown_inv_start r ts tid :
  shutdown_inv r ts false → ts !! tid = None →
  shutdown_inv (shutdown_begin r).2 (<[tid := TShutdown (shutdown_begin r).1 0]> ts) true.
Proof using Type.
  intros Hinv Hn. rewrite shutdown_inv_false in Hinv. constructor; cbn; try done.
  - intros tid' n [[_ ?]|[_ Ht]]%lookup_insert_Some; [done|]. by apply Hinv in Ht.
  - intros tid1 tid2 todo todo' n n' [[<- _]|[_ H1]]%lookup_insert_Some; [|by apply Hinv in H1].
    intros [[<- _]|[_ H2]]%lookup_insert_Some; [done|by apply Hinv in H2].
  - intros tid' todo n [[_ [= <- <-]]|[_ H1]]%lookup_insert_Some; [|by apply Hinv in H1]. split_and!.
    + apply NoDup_fst_map_to_list.
    + apply size_empty_iff. intros x. rewrite elem_of_difference, elem_of_list_to_set, elem_of_dom.
      split; [|set_solver]. intros [[s Hs] []]. apply list_elem_of_fmap. exists (x, s).
      by rewrite elem_of_map_to_list.
    + intros k s Hk []. apply list_elem_of_fmap. exists (k, s). by rewrite elem_of_map_to_list.
  - intros _ Hno. destruct (Hno tid ((map_to_list (sr_sessions r)).*1) 0). by rewrite lookup_insert_eq.
Qed.

Lemma shutdown_inv_take r r' ts tid id todo n taken :
  shutdown_inv r ts true → ts !! tid = Some (TShutdown (id :: todo) n) → lock_free id ts →
  shutdown_take id r = (taken, r') →
  shutdown_inv r' (<[tid := TShutdown todo (if taken is Some _ then S n else n)]> ts) true.
Proof using Type.
  intros [H1 H2 H3 H4 H5 H6] Ht Hfree Htake.
  destruct (H5 _ _ _ Ht) as ([Hid Hnd]%NoDup_cons & Hn & Hc).
  assert (sr_accepting_sessions r' = false) as Ha.
  { unfold shutdown_take in Htake. destruct (sr_sessions r !! id); simplify_eq/=; auto. }
  assert (sr_sessions r = ∅ → sr_sessions r' = ∅) as He.
  { intros E. unfold shutdown_take in Htake. rewrite E, lookup_empty in Htake. by simplify_eq. }
  constructor; try done.
  - intros tid' m [[_ ?]|[_ Hm]]%lookup_insert_Some; [done|]. destruct (H3 _ _ Hm). auto.
  - intros tid1 tid2 todo1 todo2 n1 n2 Hl1 Hl2.
    assert (∀ tid' td m, <[tid:=TShutdown todo (if taken is Some _ then S n else n)]> ts !! tid' =
      Some (TShutdown td m) → tid' = tid) as Heq.
    { intros tid' td m [[<- _]|[_ Hm]]%lookup_insert_Some; [done|]. by eapply H4. }
    apply Heq in Hl1, Hl2. congruence.
  - intros tid' td m [[_ [= <- <-]]|[Hne Hm]]%lookup_insert_Some; [|by destruct Hne; eapply H4].
    unfold shutdown_take in Htake. destruct (sr_sessions r !! id) as [s|] eqn:Hs; simplify_eq/=.
    + split_and!; [done| |].
      * rewrite (dom_insert_existing _ _ _ _ _ Hs).
        assert (dom (sr_sessions r) ∖ list_to_set todo =
                {[id]} ∪ (dom (sr_sessions r) ∖ ({[id]} ∪ list_to_set todo))) as ->.
        { apply set_eq. intros x. assert (id ∈ dom (sr_sessions r)) by (by eapply elem_of_dom_2).
          destruct (decide (x = id)); set_solver. }
        rewrite size_union, size_singleton by set_solver. done.
      * intros k t [[<- <-]|[Hk1 Hk]]%lookup_insert_Some Hno.
        -- split; [done|]. intros tid'' rts [[_ ?]|[_ Hd]]%lookup_insert_Some; [done|]. by apply Hfree in Hd.
        -- destruct (Hc k t Hk) as [? Hnod]; [set_solver|]. split; [done|].
           intros tid'' rts [[_ ?]|[_ Hd]]%lookup_insert_Some; [done|]. by eapply Hnod.
    + split_and!; [done| |].
      * f_equal. apply set_eq. intros x. assert (id ∉ dom (sr_sessions r')) by (by apply not_elem_of_dom).
        destruct (decide (x = id)); set_solver.
      * intros k t Hk Hno. destruct (Hc k t Hk) as [? Hnod]; [apply not_elem_of_cons; naive_solver|].
        split; [done|]. intros tid'' rts [[_ ?]|[_ Hd]]%lookup_insert_Some; [done|]. by eapply Hnod.
  - intros _ Hno. edestruct (Hno tid). by rewrite lookup_insert_eq.
Qed.

Lemma shutdown_inv_clear r ts tid n :
  shutdown_inv r ts true → ts !! tid = Some (TShutdown [] n) →
  shutdown_inv (shutdown_clear r) (<[tid := TCleared n]> ts) true.
Proof using Type.
  intros [H1 H2 H3 H4 H5 H6] Ht.
  assert (∀ tid' td m, <[tid := TCleared n]> ts !! tid' ≠ Some (TShutdown td m)) as Hno.
  { intros tid' td m [[_ ?]|[Hne Hm]]%lookup_insert_Some; [done|]. destruct Hne. by eapply H4. }
  constructor; try done; intros; exfalso; eapply Hno; eassumption.
Qed.

Lemma shutdown_inv_list finished r ts :
  shutdown_inv r ts true → shutdown_inv (list_sessions finished r).2 ts true.
Proof using Type.
  intros Hinv. eapply (shutdown_inv_frame r ts); [done|by apply Hinv|done| |]; cbn.
  - intros ->. by rewrite fmap_empty.
  - intros tid todo n Hn. destruct (sh_counted _ _ _ Hinv _ _ _ Hn) as (_ & _ & Hc). split.
    + by rewrite dom_fmap_L.
    + intros k s (s0 & <- & Hk)%lookup_fmap_Some Hno. by apply (Hc k s0).
Qed.

(** The system's invariant. *)
Record system_inv (s : system) : Prop := {
  inv_registry : registry_inv (sys_registry s) (sys_tasks s);
  inv_locks : lock_inv (sys_tasks s);
  inv_shutdown : shutdown_inv (sys_registry s) (sys_tasks s) (sys_shutdown s);
}.

Lemma create_reserve_accepting id r r' : create_reserve mgr id r = Ok r' → sr_accepting_sessions r = true.
Proof using Type. unfold create_reserve. by destruct (sr_accepting_sessions r). Qed.

Lemma create_commit_closed id managed r m :
  sr_accepting_sessions r = false →
  (create_commit id managed r m).1.2 = create_cancel id r ∧ (create_commit id managed r m).2 = m.
Proof using Type. intros Ha. unfold create_commit. cbn. by rewrite Ha. Qed.

(** Steps before the shutdown: no task becomes a closing one. *)
Lemma shutdown_inv_step_before s s' :
  step s s' → sys_shutdown s' = false → shutdown_inv (sys_registry s) (sys_tasks s) false →
  shutdown_inv (sys_registry s') (sys_tasks s') false.
Proof using Type.
  intros Hstep Hb. rewrite !shutdown_inv_false. intros Hc. destruct Hstep; cbn in *; try done;
    try (destruct (bool_decide _)).
  all: intros tid' t' Ht'; first
    [apply lookup_delete_Some in Ht' as [_ Ht']; by eapply Hc
    |apply lookup_insert_Some in Ht' as [[_ <-]|[_ Ht']]; [|by eapply Hc]
    |by eapply Hc].
  all: try done.
  - destruct H1 as [->|[o ->]]; done.
  - by apply Hc in H.
  - by apply Hc in H.
  - by apply Hc in H.
Qed.

Lemma shutdown_inv_step_during s s' :
  step s s' → sys_shutdown s = true → registry_inv (sys_registry s) (sys_tasks s) →
  shutdown_inv (sys_registry s) (sys_tasks s) true → shutdown_inv (sys_registry s') (sys_tasks s') true.
Proof using Type.
  intros Hstep Hb Hreg Hinv.
  assert (sr_accepting_sessions (sys_registry s) = false) as Ha by by apply Hinv.
  assert (∀ tid t, sys_tasks s !! tid = Some t → closing t = false →
            shutdown_inv (sys_registry s) (delete tid (sys_tasks s)) true) as Hdel.
  { intros tid t Ht Hcl. eapply shutdown_inv_tasks; [done| |].
    - intros. by eapply closing_delete.
    - intros tid' k rts [_ ?]%lookup_delete_Some. eauto. }
  assert (∀ id tid t, sys_tasks s !! tid = Some t → closing t = false →
            shutdown_inv (create_cancel id (sys_registry s)) (delete tid (sys_tasks s)) true) as Hcan.
  { intros id tid t Ht Hcl. specialize (Hdel tid t Ht Hcl). destruct Hdel. by constructor. }
  destruct Hstep; cbn in *; try done.
  - apply create_reserve_accepting in H0. congruence.
  - by eapply Hcan.
  - rewrite (proj1 (create_commit_closed id managed r m Ha)). by eapply Hcan.
  - assert (closing t = false) by (destruct H1 as [->|[o ->]]; done).
    eapply shutdown_inv_tasks; [done| |].
    + intros. apply closing_insert; [|done..]. intros. simplify_eq.
    + intros tid' k rts [[_ ->]|[_ ?]]%lookup_insert_Some; [|eauto]. by destruct H1 as [|[? ?]].
  - exact (shutdown_inv_begin _ _ _ _ _ _ _ Hreg Hinv H H0).
  - destruct H0 as [H0|H0]; exact (shutdown_inv_begin _ _ _ _ _ _ _ Hreg Hinv H H0).
  - exact (shutdown_inv_remove _ _ _ _ _ Hinv H).
  - by eapply Hdel.
  - congruence.
  - by eapply Hdel.
  - by apply shutdown_inv_list.
  - destruct Hinv. by constructor.
  - by eapply shutdown_inv_take.
  - by apply shutdown_inv_clear.
  - destruct Hinv as [H1 H2 H3 H4 H5 H6].
    assert (∀ tid' td m', <[tid:=TCleared n]> ts !! tid' = Some (TShutdown td m') ↔
              ts !! tid' = Some (TShutdown td m')) as Heq.
    { intros. rewrite lookup_insert_Some. split; [naive_solver|]. intros Hin. right.
      split; [|done]. intros ->. simplify_eq. }
    destruct (H3 _ _ H) as [_ He]. constructor; try done.
    + intros ?????? E1%Heq E2%Heq. by eapply H4.
    + intros tid' td m' Hm. apply Heq in Hm. destruct (H5 _ _ _ Hm) as (? & ? & Hc).
      split_and!; [done..|]. rewrite He. by intros ??.
  - pose proof Hinv as [G1 G2 G3 G4 G5 G6]. destruct (G3 _ _ H) as [_ He].
    constructor; try done.
    + intros ?????? [_ ?]%lookup_delete_Some [_ ?]%lookup_delete_Some. by eapply G4.
    + intros tid' td m' [_ Hm]%lookup_delete_Some. destruct (G5 _ _ _ Hm) as (? & ? & Hc).
      split_and!; [done..|]. rewrite He. by intros ??.
  - destruct t; try done; by eapply Hdel.
Qed.

Lemma system_inv_step s s' : step s s' → system_inv s → system_inv s'.
Proof using Type.
  intros Hstep [Hreg Hlock Hsh]. constructor.
  - by eapply registry_inv_step.
  - by eapply lock_inv_step.
  - destruct (sys_shutdown s) eqn:Hb.
    + assert (sys_shutdown s' = true) as -> by (destruct Hstep; done).
      by eapply shutdown_inv_step_during.
    + destruct (sys_shutdown s') eqn:Hb'; [|by eapply shutdown_inv_step_before].
      destruct Hstep; cbn in *; simplify_eq. by apply shutdown_inv_start.
Qed.

Lemma system_inv_reachable s : reachable s → system_inv s.
Proof using Type.
  induction 1 as [|s s' _ IH Hstep]; [|by eapply system_inv_step].
  constructor; [apply registry_inv_reachable; constructor|by intros ??|]. cbn.
  by apply shutdown_inv_false.
Qed.

(** ** The session counter *)

Definition gauge_inv (s : system) : Prop :=
  active_sessions (sys_metrics s) =
  (N.of_nat (size (sr_sessions (sys_registry s)) + owed (sys_tasks s)) mod U64)%N.

Lemma shutdown_runtimes_sessions drained rts m :
  active_sessions (shutdown_runtimes drained rts m) = active_sessions m.
Proof using Type.
  unfold shutdown_runtimes. revert m. induction rts as [|rt rts IH]; intros m; [done|].
  cbn. rewrite IH. unfold runtime_shutdown. by destruct (drained rt).
Qed.

Lemma begin_op_size o id r b r' : begin_op o id r = (b, r') → size (sr_sessions r') = size (sr_sessions r).
Proof using Type.
  intros [[-> _]|(s & Hs & [(_ & -> & _)|(_ & keep & ->)])]%begin_op_shape; [done|..]; cbn;
    by rewrite map_size_insert_Some by eauto.
Qed.

Lemma gauge_inv_step s s' : step s s' → system_inv s → gauge_inv s → gauge_inv s'.
Proof using Type.
  intros Hstep [Hreg Hlock Hsh] Hg. unfold gauge_inv in *.
  destruct Hstep; cbn -[owed create_commit list_sessions] in *.
  - rewrite owed_insert by done. unfold create_reserve in *. res_inv. done.
  - rewrite (owed_delete _ _ _ H) in Hg. done.
  - rewrite (owed_delete _ _ _ H) in Hg. cbn [owed_of] in Hg. unfold create_commit. cbn.
    destruct (sr_accepting_sessions r) eqn:Ha; cbn [negb fst snd]; [|done]. cbn.
    assert (sr_sessions r !! id = None) as Hn.
    { eapply (ri_fresh _ _ Hreg). by eapply (ri_reserved _ _ Hreg). }
    rewrite map_size_insert_None by done. rewrite (gauge_started _ _ Hg). f_equal. lia.
  - rewrite owed_insert by done. by destruct H1 as [->|[o ->]].
  - pose proof (owed_update _ _ _ (TDraining id runtimes) H) as Ho. cbn in Ho.
    rewrite (begin_op_size _ _ _ _ _ H0). rewrite Hg. do 2 f_equal. lia.
  - rewrite (owed_delete _ _ _ H) in Hg. cbn [owed_of] in Hg.
    destruct H0 as [H0|H0]; by rewrite (begin_op_size _ _ _ _ _ H0).
  - rewrite shutdown_runtimes_sessions, Hg. do 2 f_equal. rewrite map_size_delete.
    destruct (sr_sessions r !! id) as [s|] eqn:Hs.
    + rewrite bool_decide_eq_true_2 by eauto. pose proof (owed_update _ _ _ (TCount id) H) as Ho. cbn in Ho.
      assert (size (sr_sessions r) ≠ 0).
      { intros Hz%map_size_empty_inv. by rewrite Hz, lookup_empty in Hs. } lia.
    + rewrite bool_decide_eq_false_2 by (by intros []). rewrite (owed_delete _ _ _ H). cbn. lia.
  - rewrite (owed_delete _ _ _ H) in Hg. cbn [owed_of] in Hg. apply gauge_stopped. rewrite Hg. f_equal. lia.
  - by rewrite map_size_insert_Some by eauto.
  - rewrite (owed_delete _ _ _ H) in Hg. done.
  - unfold list_sessions. cbn. by rewrite map_size_fmap.
  - done.
  - by rewrite owed_insert.
  - pose proof (owed_update _ _ _ (TShutdown todo (if taken is Some _ then S n else n)) H) as Ho. cbn in Ho.
    rewrite Hg. do 2 f_equal. unfold shutdown_take in *.
    destruct (sr_sessions r !! id) eqn:Hs; simplify_eq/=; rewrite ?map_size_insert_Some by eauto; lia.
  - pose proof (owed_update _ _ _ (TCleared n) H) as Ho. cbn in Ho. rewrite H0, Hg. do 2 f_equal.
    destruct b; [|exfalso; by apply (sh_shutdown _ _ _ Hsh) in H].
    destruct (sh_counted _ _ _ Hsh _ _ _ H) as (_ & Hn & _).
    rewrite list_to_set_nil, difference_empty_L, size_dom in Hn. rewrite map_size_empty. lia.
  - pose proof (owed_update _ _ _ (TCleared n) H) as Ho. cbn in Ho.
    apply gauge_stopped. rewrite Hg. f_equal. lia.
  - rewrite (owed_delete _ _ _ H) in Hg. done.
  - rewrite (owed_delete _ _ _ H) in Hg. by destruct t.
Qed.

Lemma gauge_inv_reachable s : reachable s → gauge_inv s.
Proof using Type.
  induction 1 as [|s s' Hr IH Hstep]; [done|].
  eapply gauge_inv_step; [done|by apply system_inv_reachable|done].
Qed.

(** ** Lifecycle *)

(** While the daemon accepts sessions, a stopping session is being drained. *)
Definition drained_inv (s : system) : Prop :=
  sr_accepting_sessions (sys_registry s) = true →
  ∀ id ms, sr_sessions (sys_registry s) !! id = Some ms → si_state (ms_info ms) = Stopping →
  ∃ tid rts, sys_tasks s !! tid = Some (TDraining id rts).

(** The tasks that keep draining. *)
Lemma draining_delete (ts : gmap nat task) tid t id :
  ts !! tid = Some t → (∀ rts, t ≠ TDraining id rts) →
  (∃ tid' rts, ts !! tid' = Some (TDraining id rts)) →
  ∃ tid' rts, delete tid ts !! tid' = Some (TDraining id rts).
Proof using Type.
  intros Ht Hno (tid' & rts & Hd). exists tid', rts. apply lookup_delete_Some. split; [|done].
  intros ->. simplify_eq. by eapply Hno.
Qed.

Lemma draining_insert (ts : gmap nat task) tid t id :
  (∀ rts, ts !! tid ≠ Some (TDraining id rts)) →
  (∃ tid' rts, ts !! tid' = Some (TDraining id rts)) →
  ∃ tid' rts, <[tid := t]> ts !! tid' = Some (TDraining id rts).
Proof using Type.
  intros Hno (tid' & rts & Hd). exists tid', rts. rewrite lookup_insert_ne; [done|].
  intros ->. by eapply Hno.
Qed.

Lemma drained_inv_step s s' : step s s' → system_inv s → drained_inv s → drained_inv s'.
Proof using Type.
  intros Hstep [Hreg Hlock Hsh] Hd. unfold drained_inv in *.
  destruct Hstep; cbn -[create_commit list_sessions] in *; intros Ha k ms Hk Hst.
  - unfold create_reserve in *. res_inv. cbn in *. apply draining_insert; [by rewrite H|eauto].
  - eapply draining_delete; [exact H|done|eauto].
  - unfold create_commit in Ha, Hk. cbn in Ha, Hk. eapply draining_delete; [exact H|done|].
    destruct (sr_accepting_sessions r) eqn:Hacc; cbn in *; [|congruence].
    apply lookup_insert_Some in Hk as [[<- <-]|[_ Hk]]; [|eauto].
    destruct (ri_reserved _ _ Hreg _ _ _ H) as [(Hrun & _) _]. congruence.
  - apply draining_insert; [by rewrite H|eauto].
  - apply begin_op_shape in H0 as [[-> Hnt]|(s & Hs & [([= ->] & -> & Hrun)|(? & ?)])]; [naive_solver| |naive_solver].
    cbn in *. apply lookup_insert_Some in Hk as [[<- <-]|[_ Hk]].
    + eexists tid, _. by rewrite lookup_insert_eq.
    + apply draining_insert; [by rewrite H|eauto].
  - eapply draining_delete; [exact H|done|].
    destruct H0 as [H0|H0]; apply begin_op_shape in H0 as [[-> _]|(s & Hs & [(? & _)|(_ & keep & ->)])];
      try done; cbn in *; try (by eapply Hd).
    all: apply lookup_insert_Some in Hk as [[<- <-]|[_ Hk]]; eauto.
  - apply lookup_delete_Some in Hk as [Hne Hk].
    assert (∃ tid' rts, ts !! tid' = Some (TDraining k rts)) as Hex by eauto.
    destruct (bool_decide _); [apply draining_insert; [rewrite H|done]|eapply draining_delete; [exact H| |done]];
      naive_solver.
  - eapply draining_delete; [exact H|done|eauto].
  - apply lookup_insert_Some in Hk as [[<- <-]|[_ Hk]]; [|eauto]. destruct H3. congruence.
  - eapply draining_delete; [exact H|done|eauto].
  - unfold list_sessions in *. cbn in *. apply lookup_fmap_Some in Hk as (s0 & <- & Hk). eauto.
  - done.
  - done.
  - apply (sh_shutdown _ _ _ Hsh) in H as ->. pose proof (sh_flag _ _ _ Hsh eq_refl) as Hf.
    unfold shutdown_take in *. destruct (sr_sessions r !! id); simplify_eq/=; congruence.
  - by rewrite lookup_empty in Hk.
  - apply (sh_cleared _ _ _ Hsh) in H as [-> _]. pose proof (sh_flag _ _ _ Hsh eq_refl). congruence.
  - eapply draining_delete; [exact H|done|eauto].
  - congruence.
Qed.

Lemma drained_inv_reachable s : reachable s → drained_inv s.
Proof using Type.
  induction 1 as [|s s' Hr IH Hstep]; [by intros _ ??|].
  eapply drained_inv_step; [done|by apply system_inv_reachable|done].
Qed.

(** C9: the registry's promises, in any interleaving of creations, stops,
    lease ends, runtime exits, reloads and the shutdown.
    - The daemon never holds more than [max_sessions] sessions, counting the
      ones being provisioned.
    - The active-session counter is the number of registered sessions plus the
      decrements that running tasks still owe (modulo 2^64); no session is
      counted down twice, also when stops race with the shutdown.
    - No session is orphaned: while the daemon accepts sessions, every
      registered session either runs and has a runtime, or has given up its
      runtimes to exactly one task, which holds its lock and will remove it.
    - Once [shutdown_all] has cleared the registry, every later state has no
      session and refuses new ones. *)
Theorem session_lifecycle s :
  reachable s →
  size (sr_sessions (sys_registry s)) + size (sr_provisioning (sys_registry s)) ≤ sm_max_sessions mgr ∧
  active_sessions (sys_metrics s) =
    (N.of_nat (size (sr_sessions (sys_registry s)) + owed (sys_tasks s)) mod U64)%N ∧
  (∀ id ms, sr_accepting_sessions (sys_registry s) = true → sr_sessions (sys_registry s) !! id = Some ms →
   (si_state (ms_info ms) = Running ∧ is_Some (ms_runtime ms)) ∨
   (si_state (ms_info ms) = Stopping ∧ ms_runtime ms = None ∧
    ∃ tid rts, sys_tasks s !! tid = Some (TDraining id rts) ∧
      ∀ tid' rts', sys_tasks s !! tid' = Some (TDraining id rts') → tid' = tid)) ∧
  (sys_shutdown s = true → (∀ tid todo n, sys_tasks s !! tid ≠ Some (TShutdown todo n)) →
   sr_sessions (sys_registry s) = ∅ ∧ sr_accepting_sessions (sys_registry s) = false).
Proof using Type.
  intros Hr. destruct (system_inv_reachable s Hr) as [Hreg Hlock Hsh]. split_and!.
  - by apply (ri_capacity _ _ (registry_inv_reachable s Hr)).
  - exact (gauge_inv_reachable s Hr).
  - intros id ms Ha Hs. destruct (ri_sessions _ _ Hreg id ms Hs) as [_ Hok].
    destruct (si_state (ms_info ms)) eqn:Hst; [left; naive_solver|right].
    destruct (drained_inv_reachable s Hr Ha id ms Hs Hst) as (tid & rts & Ht).
    split_and!; [done| |].
    + destruct (ms_runtime ms) as [rt|]; [|done]. destruct Hok as [_ Hok]. by discriminate Hok.
    + exists tid, rts. split; [done|]. intros tid' rts' Ht'. by eapply (Hlock tid' tid).
  - intros Hb Hno. rewrite Hb in Hsh. split; [by apply (sh_done _ _ _ Hsh)|by apply Hsh].
Qed.
End system.

(** ** Witnesses: a session is created, stopped and removed; the daemon shuts
    down. *)

Definition example_mgr : SessionManager := mkSessionManager (lit "/run/baffle") 2.

Definition example_runtime : Runtime :=
  mkRuntime (lit "ab") 1 (lit "/run/baffle/ab.sock") (mkProxyGeneration (mkPolicy ∅ UDeny) ∅)
    [0] 1 0 [] false false true.

Definition example_managed : ManagedSession :=
  new_session (lit "ab") session_config_new ∅ None example_runtime.

Definition example_reserved : SessionRegistry := set_provisioning ({[lit "ab"]} ∪ ∅) registry_new.
Definition example_task : task := TReserved (lit "ab") example_managed.
Definition example_created : SessionRegistry * Metrics :=
  let c := create_commit (lit "ab") example_managed example_reserved metrics_default in (c.1.2, c.2).

Definition example_running : system :=
  mkSystem example_created.1 example_created.2 (delete 0 (<[0 := example_task]> ∅)) false.

Lemma example_running_reachable : reachable example_mgr example_running.
Proof.
  eapply reachable_step; [eapply reachable_step; [apply reachable_init|]|].
  - apply (step_reserve _ _ example_reserved _ _ _ 0 (lit "ab") example_managed); [done|done|].
    split_and!; [done|by eexists|done].
  - apply step_commit. by rewrite lookup_insert_eq.
Qed.

Definition example_stopping : system :=
  mkSystem (stop_begin (lit "ab") example_created.1).2 example_created.2
    (<[1 := TDraining (lit "ab") [example_runtime]]>
       (<[1 := TLocked (lit "ab") OpStop]> (delete 0 (<[0 := example_task]> ∅)))) false.

Lemma example_stopping_reachable : reachable example_mgr example_stopping.
Proof.
  eapply reachable_step; [eapply reachable_step; [apply example_running_reachable|]|].
  - apply (step_lock _ _ _ _ _ 1 (lit "ab") (TLocked (lit "ab") OpStop)); [done| |eauto].
    intros tid t. rewrite delete_insert_id by done. by rewrite lookup_empty.
  - apply (step_begin _ _ _ _ _ _ 1 (lit "ab") OpStop); [by rewrite lookup_insert_eq|done].
Qed.

Definition example_closed : system :=
  mkSystem (shutdown_clear (shutdown_begin registry_new).2) metrics_default
    (<[0 := TCleared 0]> (<[0 := TShutdown (shutdown_begin registry_new).1 0]> ∅)) true.

Lemma example_closed_reachable : reachable example_mgr example_closed.
Proof.
  eapply reachable_step; [eapply reachable_step; [apply reachable_init|]|].
  - by apply (step_shutdown _ _ _ _ 0).
  - apply step_clear; [by rewrite lookup_insert_eq|done].
Qed.

(** A session being stopped, and a daemon that has shut down. *)
Lemma session_lifecycle_witness :
  active_sessions (sys_metrics example_running) =
    (N.of_nat (size (sr_sessions (sys_registry example_running)) + owed (sys_tasks example_running)) mod U64)%N ∧
  (∃ ms, sr_sessions (sys_registry example_stopping) !! lit "ab" = Some ms ∧
   ((si_state (ms_info ms) = Running ∧ is_Some (ms_runtime ms)) ∨
    (si_state (ms_info ms) = Stopping ∧ ms_runtime ms = None ∧
     ∃ tid rts, sys_tasks example_stopping !! tid = Some (TDraining (lit "ab") rts) ∧
       ∀ tid' rts', sys_tasks example_stopping !! tid' = Some (TDraining (lit "ab") rts') → tid' = tid))) ∧
  sr_sessions (sys_registry example_closed) = ∅ ∧ sr_accepting_sessions (sys_registry example_closed) = false.
Proof.
  split; [|split].
  - apply (proj1 (proj2 (session_lifecycle example_mgr example_running example_running_reachable))).
  - exists (take_session example_managed).1. split; [vm_compute; reflexivity|].
    destruct (session_lifecycle example_mgr example_stopping example_stopping_reachable) as (_ & _ & H & _).
    apply H; [reflexivity|vm_compute; reflexivity].
  - destruct (session_lifecycle example_mgr example_closed example_closed_reachable) as (_ & _ & _ & H).
    apply H; [reflexivity|]. intros tid todo n Ht. cbn [example_closed sys_tasks] in Ht.
    apply lookup_insert_Some in Ht as [[_ ?]|[Hne Ht]]; [done|].
    rewrite lookup_insert_ne, lookup_empty in Ht by done. discriminate Ht.
Defined.
