(* ===== verification/Reload.v ===== *)
(** Reloading a session from its file (src/control/reload.rs).

    [reload_locked] runs under the session's [reload_lock]; between its
    critical sections other tasks may run, but that lock keeps them from
    changing this session except for dropping finished retired listeners, and
    the daemon may stop accepting. [interfere] is what they do between two
    sections and [rely] the condition on it. *)

From S2P Require Import Prelude RustStr BTree PolicyTypes UrlPath DnsName SessionDoc SessionPolicy.
From S2P Require Import Secrets Telemetry ProxyRuntime Registry.
From stdpp Require Import options.
Local Open Scope char_scope.

Definition MAX_RETIRED_LISTENERS : nat := 8.

(** ** Comparing rules *)

Definition lower_header (i : HeaderInjection) : HeaderInjection :=
  mkHeaderInjection (to_ascii_lowercase (hi_header i)) (hi_secret i) (hi_format i) (hi_username i).

(** [sort_unstable] on ports and [sort] on paths, then the injections by
    their lowercase header. *)
Definition canonical_rule (rule : HostRule) : HostRule :=
  mkHostRule (hr_host rule) (hr_mode rule) (merge_sort N.le (hr_ports rule))
    (sort_by_key id (hr_paths rule))
    (sort_by_key hi_header (lower_header <$> hr_inject rule)).

Definition canonical_rules (rules : list HostRule) : list HostRule :=
  sort_by_key hr_host (canonical_rule <$> rules).

Definition same_effective_rules (left right : list HostRule) : bool :=
  bool_decide (canonical_rules left = canonical_rules right).

(** ** Results *)

Inductive ReloadStatus := Reloaded | Unchanged | Failed.
#[export] Instance ReloadStatus_eq_dec : EqDecision ReloadStatus.
Proof. solve_decision. Defined.

Record SessionReloadResult := mkReloadResult {
  rr_id : str;
  rr_status : ReloadStatus;
  rr_socket : str;
  rr_reason : option str;
  rr_detail : option str;
}.

Definition reloaded (id socket : str) : SessionReloadResult := mkReloadResult id Reloaded socket None None.
Definition unchanged (id socket : str) : SessionReloadResult := mkReloadResult id Unchanged socket None None.
Definition failed (id socket : str) (reason : string) : SessionReloadResult :=
  mkReloadResult id Failed socket (Some (lit reason)) None.
Definition failed_with_detail (id socket reason detail : str) : SessionReloadResult :=
  mkReloadResult id Failed socket (Some reason) (Some detail).

(** ** [reload_locked] *)

(** What the environment answers during one reload: which listeners have
    finished, the session file's content (no store at all, or a reason and a
    detail), the resolved secrets, the working directory, which generations
    are alive, whether the new listener binds, whether it drains in time. *)
Record reload_env := mkReloadEnv {
  re_finished : Runtime → bool;
  re_read_session : option (str → result (str * str) SessionConfig);
  re_resolve : SessionConfig → option ResolvedSecrets;
  re_cwd : option str;
  re_alive : nat → bool;
  re_bound : bool;
  re_drained : bool;
}.

Definition saturating_succ (n : N) : N := N.min (n + 1) (U64 - 1).
Definition checked_succ (n : N) : option N := if (n + 1 <? U64)%N then Some (n + 1)%N else None.

Definition put_session (id : str) (s : ManagedSession) (r : SessionRegistry) : SessionRegistry :=
  set_sessions (<[id := s]> (sr_sessions r)) r.

(** The session with a new policy generation on the same listener. *)
Definition swap_generation (s : ManagedSession) (candidate : SessionConfig) (secrets : ResolvedSecrets)
    (runtime : Runtime) : ManagedSession :=
  let i := ms_info s in
  mkManagedSession
    (mkSessionInfo (si_id i) (si_socket i) (si_persistent i) (si_state i)
       (saturating_succ (si_generation i)) (length (ms_retired_runtimes s)))
    candidate secrets (ms_config_source s) (Some runtime) (ms_retired_runtimes s)
    (ms_listener_gate s) (ms_listener_generation s).

(** The session moved to a new listener; the old one is retired. As in
    [new_session], [to_string_lossy] keeps the path. *)
Definition swap_listener (s : ManagedSession) (candidate : SessionConfig) (secrets : ResolvedSecrets)
    (target_path : str) (next_listener_generation : N) (old replacement : Runtime) : ManagedSession :=
  let i := ms_info s in
  let retired := ms_retired_runtimes s ++ [retire (mark_retiring old)] in
  mkManagedSession
    (mkSessionInfo (si_id i) target_path (si_persistent i) (si_state i)
       (saturating_succ (si_generation i)) (length retired))
    candidate secrets (ms_config_source s) (Some replacement) retired
    next_listener_generation next_listener_generation.

Definition configuration_unchanged (candidate current : SessionConfig) : bool :=
  bool_decide (sc_unmatched candidate = sc_unmatched current)
  && same_effective_rules (sc_rules candidate) (sc_rules current)
  && bool_decide (sc_default_credential_mode candidate = sc_default_credential_mode current)
  && bool_decide (sc_credential_modes candidate = sc_credential_modes current).

Section reload.
Context `{Crypto}.
Context (mgr : SessionManager) (env : reload_env) (interfere : nat → SessionRegistry → SessionRegistry).

(** The part after the comparison, for an unchanged socket path. *)
Definition reload_same_path (id current_socket : str) (candidate : SessionConfig) (secrets : ResolvedSecrets)
    (r : SessionRegistry) : SessionReloadResult * SessionRegistry :=
  let r := interfere 1 r in
  if negb (sr_accepting_sessions r) then (failed id current_socket "session_stopping", r)
  else
    match sr_sessions r !! id with
    | None => (failed id current_socket "session_unavailable", r)
    | Some s =>
        match ms_runtime s with
        | None => (failed id current_socket "session_stopping", r)
        | Some runtime =>
            match replace_generation (re_alive env) runtime candidate secrets with
            | None => (failed id current_socket "generation_limit", r)
            | Some runtime =>
                (reloaded id current_socket, put_session id (swap_generation s candidate secrets runtime) r)
            end
        end
    end.

(** The part after the comparison, for a new socket path. *)
Definition reload_new_path (id current_socket target_path : str) (candidate : SessionConfig)
    (secrets : ResolvedSecrets) (r : SessionRegistry) (metrics : Metrics)
    : SessionReloadResult * SessionRegistry * Metrics :=
  let r := interfere 1 r in
  if negb (sr_accepting_sessions r) then (failed id current_socket "session_stopping", r, metrics)
  else
    match sr_sessions r !! id with
    | None => (failed id current_socket "session_unavailable", r, metrics)
    | Some s =>
        let retired := filter (λ rt, negb (re_finished env rt) = true) (ms_retired_runtimes s) in
        let s := mkManagedSession (ms_info s) (ms_configuration s) (ms_secrets s) (ms_config_source s)
                   (ms_runtime s) retired (ms_listener_gate s) (ms_listener_generation s) in
        let r := put_session id s r in
        match ms_runtime s with
        | None => (failed id current_socket "session_stopping", r, metrics)
        | Some runtime =>
            match checked_succ (ms_listener_generation s) with
            | None => (failed id current_socket "generation_limit", r, metrics)
            | Some next_listener_generation =>
                if negb (length retired <? MAX_RETIRED_LISTENERS)%nat
                then (failed id current_socket "generation_limit", r, metrics)
                else
                  match start_with_options (re_bound env)
                          (mkProxyRuntimeOptions id candidate secrets (rt_credential_seed runtime) target_path
                             (rt_permits runtime) next_listener_generation) with
                  | Err _ => (failed id current_socket "listener_unavailable", r, metrics)
                  | Ok replacement =>
                      let r := interfere 2 r in
                      let abandoned := runtime_shutdown (re_drained env) metrics in
                      if negb (sr_accepting_sessions r)
                      then (failed id current_socket "session_stopping", r, abandoned)
                      else
                        match sr_sessions r !! id with
                        | None => (failed id current_socket "session_unavailable", r, abandoned)
                        | Some s =>
                            if negb (bool_decide (si_state (ms_info s) = Running))
                            then (failed id current_socket "session_stopping", r, abandoned)
                            else
                              match ms_runtime s with
                              | None => (failed id current_socket "session_stopping", r, metrics)
                              | Some old =>
                                  (reloaded id target_path,
                                   put_session id (swap_listener s candidate secrets target_path
                                                     next_listener_generation old replacement) r,
                                   metrics)
                              end
                        end
                  end
            end
        end
    end.

Definition reload_locked (id : str) (r : SessionRegistry) (metrics : Metrics)
    : SessionReloadResult * SessionRegistry * Metrics :=
  match sr_sessions r !! id with
  | None => (failed id [] "session_unavailable", r, metrics)
  | Some s =>
      let accepting := sr_accepting_sessions r in
      let s := drop_retired (λ rt, negb (re_finished env rt)) s in
      let r := put_session id s r in
      let current_socket := si_socket (ms_info s) in
      if negb (bool_decide (si_state (ms_info s) = Running)) || negb accepting
      then (failed id current_socket "session_stopping", r, metrics)
      else
        match ms_config_source s with
        | None => (failed id current_socket "inline_session", r, metrics)
        | Some config_source =>
            let current_secrets := ms_secrets s in
            let persistent := sc_persistent (ms_configuration s) in
            match re_read_session env with
            | None => (failed id current_socket "configuration_unavailable", r, metrics)
            | Some read_session =>
                match read_session config_source with
                | Err (reason, detail) => (failed_with_detail id current_socket reason detail, r, metrics)
                | Ok candidate =>
                    let candidate := with_persistent persistent candidate in
                    match re_resolve env candidate with
                    | None => (failed id current_socket "credentials_unavailable", r, metrics)
                    | Some candidate_secrets =>
                        match absolute_socket_path (re_cwd env)
                                (path_join (sm_socket_dir mgr)
                                   (default (id ++ lit ".sock") (sc_socket_name candidate))) with
                        | None => (failed id current_socket "listener_unavailable", r, metrics)
                        | Some target_path =>
                            let same_path := str_eqb target_path current_socket in
                            let r := interfere 0 r in
                            match sr_sessions r !! id with
                            | None => (failed id current_socket "session_unavailable", r, metrics)
                            | Some s =>
                                if configuration_unchanged candidate (ms_configuration s)
                                   && same_path && has_same_values current_secrets candidate_secrets
                                then (unchanged id current_socket, r, metrics)
                                else if same_path
                                then let '(result, r) :=
                                       reload_same_path id current_socket candidate candidate_secrets r in
                                     (result, r, metrics)
                                else reload_new_path id current_socket target_path candidate candidate_secrets r metrics
                            end
                        end
                    end
                end
            end
        end
  end.

(** [reload]: [None] is the source's [Err(())], no such session. *)
Definition reload (id : str) (r : SessionRegistry) (metrics : Metrics)
    : option SessionReloadResult * SessionRegistry * Metrics :=
  match sr_sessions r !! id with
  | None => (None, r, metrics)
  | Some _ =>
      let '(result, r, metrics) := reload_locked id r metrics in (Some result, r, metrics)
  end.

(** The file-backed running sessions with their sockets, by identifier. *)
Definition reload_targets (r : SessionRegistry) : list (str * str) :=
  sort_by_key fst
    ((λ s, (si_id (ms_info s.2), si_socket (ms_info s.2))) <$>
      filter (λ s, is_Some (ms_config_source s.2) ∧ si_state (ms_info s.2) = Running)
        (map_to_list (sr_sessions r))).

Fixpoint reload_each (targets : list (str * str)) (r : SessionRegistry) (metrics : Metrics)
    : list SessionReloadResult * SessionRegistry * Metrics :=
  match targets with
  | [] => ([], r, metrics)
  | (id, socket) :: targets =>
      let '(result, r, metrics) := reload id r metrics in
      let '(results, r, metrics) := reload_each targets r metrics in
      (default (failed id socket "session_unavailable") result :: results, r, metrics)
  end.

Definition reload_all (r : SessionRegistry) (metrics : Metrics)
    : list SessionReloadResult * SessionRegistry * Metrics :=
  reload_each (reload_targets r) r metrics.
End reload.

(** ** Rules that are the same policy *)

(** Equal up to the order of ports, paths and injections and the letter case
    of header names. *)
Record rule_equiv (a b : HostRule) : Prop := {
  re_host : hr_host a = hr_host b;
  re_mode : hr_mode a = hr_mode b;
  re_ports : hr_ports a ≡ₚ hr_ports b;
  re_paths : hr_paths a ≡ₚ hr_paths b;
  re_inject : lower_header <$> hr_inject a ≡ₚ lower_header <$> hr_inject b;
}.

Lemma canonical_rule_equiv a b :
  NoDup (to_ascii_lowercase ∘ hi_header <$> hr_inject a) →
  canonical_rule a = canonical_rule b ↔ rule_equiv a b.
Proof.
  intros Hnd. split.
  - intros [= Hh Hm Hp Hpa Hi]. constructor; [done|done|..].
    + by rewrite <-(merge_sort_Permutation N.le (hr_ports a)), Hp, merge_sort_Permutation.
    + by rewrite <-(sort_by_key_perm id (hr_paths a)), Hpa, sort_by_key_perm.
    + by rewrite <-(sort_by_key_perm hi_header (lower_header <$> hr_inject a)), Hi, sort_by_key_perm.
  - intros [Hh Hm Hp Hpa Hi]. unfold canonical_rule. f_equal; [done|done|..].
    + apply (StronglySorted_unique N.le); try (apply (StronglySorted_merge_sort N.le)).
      by rewrite !merge_sort_Permutation.
    + by apply sort_str_unique.
    + apply sort_by_key_unique; [|done]. by rewrite <-list_fmap_compose.
Qed.

Lemma canonical_rules_elem rules c :
  c ∈ canonical_rules rules ↔ ∃ rule, rule ∈ rules ∧ c = canonical_rule rule.
Proof. unfold canonical_rules. rewrite sort_by_key_perm, list_elem_of_fmap. naive_solver. Qed.

Lemma canonical_rules_perm l r : canonical_rules l = canonical_rules r → canonical_rule <$> l ≡ₚ canonical_rule <$> r.
Proof. unfold canonical_rules. intros E. by rewrite <-sort_by_key_perm, E, sort_by_key_perm. Qed.

Section same_rules.
Context `{UrlHost}.

Lemma same_effective_rules_iff l r :
  Forall rule_wf l → NoDup (hr_host <$> l) → NoDup (hr_host <$> r) →
  same_effective_rules l r = true ↔
  (∀ a, a ∈ l → ∃ b, b ∈ r ∧ rule_equiv a b) ∧ (∀ b, b ∈ r → ∃ a, a ∈ l ∧ rule_equiv a b).
Proof.
  intros Hwf Hl Hr. rewrite Forall_forall in Hwf.
  assert (∀ a b, a ∈ l → canonical_rule a = canonical_rule b ↔ rule_equiv a b) as Heq.
  { intros a b Ha. apply canonical_rule_equiv, Hwf, Ha. }
  unfold same_effective_rules. rewrite bool_decide_eq_true. split.
  - intros Hp%canonical_rules_perm. split.
    + intros a Ha. assert (canonical_rule a ∈ canonical_rule <$> r) as Hin
        by (rewrite <-Hp; by apply list_elem_of_fmap_2).
      apply list_elem_of_fmap in Hin as (b & Hab & Hb). exists b. split; [done|]. by apply Heq.
    + intros b Hb. assert (canonical_rule b ∈ canonical_rule <$> l) as Hin
        by (rewrite Hp; by apply list_elem_of_fmap_2).
      apply list_elem_of_fmap in Hin as (a & Hab & Ha). exists a. split; [done|]. by apply Heq.
  - intros [H1 H2]. unfold canonical_rules. apply sort_by_key_unique.
    + rewrite <-list_fmap_compose. exact Hl.
    + assert (∀ rules, NoDup (hr_host <$> rules) → NoDup (canonical_rule <$> rules)) as Hnd.
      { intros rules Hn. apply (NoDup_fmap_1 hr_host). rewrite <-list_fmap_compose. exact Hn. }
      apply NoDup_Permutation; [by apply Hnd..|]. intros c. rewrite !list_elem_of_fmap. split.
      * intros (a & -> & Ha). destruct (H1 a Ha) as (b & Hb & Hab). exists b. split; [by apply Heq|done].
      * intros (b & -> & Hb). destruct (H2 b Hb) as (a & Ha & Hab). exists a. split; [by symmetry; apply Heq|done].
Qed.

Lemma allows_equiv sc1 sc2 d mode :
  sc_unmatched sc1 = sc_unmatched sc2 →
  (∀ a, a ∈ sc_rules sc1 → ∃ b, b ∈ sc_rules sc2 ∧ rule_equiv a b) →
  (∀ b, b ∈ sc_rules sc2 → ∃ a, a ∈ sc_rules sc1 ∧ rule_equiv a b) →
  allows sc1 d mode → allows sc2 d mode.
Proof.
  intros Hu H1 H2 [rule port Hin Hp|host Hut Hno].
  - destruct (H1 rule Hin) as (b & Hb & [-> -> Hports _ _]). constructor; [done|]. by rewrite <-Hports.
  - constructor; [congruence|]. intros (b & -> & Hb)%list_elem_of_fmap.
    destruct (H2 b Hb) as (a & Ha & [Hh _ _ _ _]). apply Hno. rewrite <-Hh. by apply list_elem_of_fmap_2.
Qed.

Lemma path_admitted_perm l1 l2 raw path : l1 ≡ₚ l2 → path_admitted l1 raw path → path_admitted l2 raw path.
Proof.
  intros Hp [->|pattern c Hin Hc Hm].
  - apply path_any. by apply Permutation_nil_l in Hp.
  - econstructor; [|done..]. by rewrite <-Hp.
Qed.

(** The comparison before a reload is exact and sound: it holds exactly
    when each rule of either side has a counterpart that differs at most in
    the order of ports, paths and injected headers and in the letter case of
    header names; and two configurations it finds equal (with the same
    unmatched policy) allow exactly the same destinations and, rule by rule,
    admit the same request paths. *)
Theorem same_effective_rules_exact sc1 sc2 :
  session_wf sc1 → session_wf sc2 →
  (same_effective_rules (sc_rules sc1) (sc_rules sc2) = true ↔
    (∀ a, a ∈ sc_rules sc1 → ∃ b, b ∈ sc_rules sc2 ∧ rule_equiv a b) ∧
    (∀ b, b ∈ sc_rules sc2 → ∃ a, a ∈ sc_rules sc1 ∧ rule_equiv a b)) ∧
  (same_effective_rules (sc_rules sc1) (sc_rules sc2) = true → sc_unmatched sc1 = sc_unmatched sc2 →
    (∀ d mode, allows sc1 d mode ↔ allows sc2 d mode) ∧
    (∀ a b raw path, rule_equiv a b →
       path_admitted (hr_paths a) raw path ↔ path_admitted (hr_paths b) raw path)).
Proof.
  intros [Hw1 Hh1 _ _] [Hw2 Hh2 _ _].
  pose proof (same_effective_rules_iff (sc_rules sc1) (sc_rules sc2) Hw1 Hh1 Hh2) as Hiff.
  split; [done|]. intros [H1 H2]%Hiff Hu. split.
  - intros d mode. split; [by apply allows_equiv|].
    assert (∀ a b, rule_equiv a b → rule_equiv b a) as Hsym by by intros a b [].
    apply allows_equiv; [done|..].
    + intros b Hb. destruct (H2 b Hb) as (a & ? & ?). eauto.
    + intros a Ha. destruct (H1 a Ha) as (b & ? & ?). eauto.
  - intros a b raw path [_ _ _ Hp _]. split; apply path_admitted_perm; by rewrite Hp.
Qed.
End same_rules.

(** ** What a reload may change *)

(** The same service: everything but the list of retired listeners, which may
    only lose members, and its displayed length. *)
Record same_service (s s' : ManagedSession) : Prop := {
  sv_id : si_id (ms_info s') = si_id (ms_info s);
  sv_socket : si_socket (ms_info s') = si_socket (ms_info s);
  sv_persistent : si_persistent (ms_info s') = si_persistent (ms_info s);
  sv_state : si_state (ms_info s') = si_state (ms_info s);
  sv_generation : si_generation (ms_info s') = si_generation (ms_info s);
  sv_configuration : ms_configuration s' = ms_configuration s;
  sv_secrets : ms_secrets s' = ms_secrets s;
  sv_source : ms_config_source s' = ms_config_source s;
  sv_runtime : ms_runtime s' = ms_runtime s;
  sv_gate : ms_listener_gate s' = ms_listener_gate s;
  sv_listener : ms_listener_generation s' = ms_listener_generation s;
  sv_retired : ms_retired_runtimes s' `sublist_of` ms_retired_runtimes s;
}.

#[export] Instance same_service_preorder : PreOrder same_service.
Proof.
  split.
  - intros s. by constructor.
  - intros a b c [] []. constructor; try congruence. by etrans.
Qed.

Lemma drop_retired_service keep s : same_service s (drop_retired keep s).
Proof. constructor; try done. cbn. apply sublist_filter. Qed.

(** What the other tasks may do to the session while its lock is held. *)
Definition rely (id : str) (r r' : SessionRegistry) : Prop :=
  ∀ s, sr_sessions r !! id = Some s → ∃ s', sr_sessions r' !! id = Some s' ∧ same_service s s'.

Lemma rely_put id s s' r :
  sr_sessions r !! id = Some s → same_service s s' → rely id r (put_session id s' r).
Proof. intros Hs Hsv s0 Hs0. simplify_eq. exists s'. cbn. by rewrite lookup_insert_eq. Qed.

Lemma rely_trans id r1 r2 r3 : rely id r1 r2 → rely id r2 r3 → rely id r1 r3.
Proof.
  intros H1 H2 s Hs. destruct (H1 s Hs) as (s' & Hs' & ?). destruct (H2 s' Hs') as (s'' & ? & ?).
  exists s''. split; [done|]. by etrans.
Qed.

Lemma rely_refl id r : rely id r r.
Proof. intros s Hs. by exists s. Qed.
#[export] Hint Resolve rely_refl : baffle.

Section reload_proofs.
Context `{Crypto}.
Context (mgr : SessionManager) (env : reload_env) (interfere : nat → SessionRegistry → SessionRegistry).
Context (id : str) (Hrely : ∀ k r, rely id r (interfere k r)).

(** The outcome of the two committing parts: nothing changed, or one of the
    two swaps was applied to the session as it then was. *)
Lemma reload_same_path_cases socket candidate secrets r res r' :
  reload_same_path env interfere id socket candidate secrets r = (res, r') →
  (rr_status res = Failed ∧ r' = interfere 1 r) ∨
  ∃ s old new, sr_sessions (interfere 1 r) !! id = Some s ∧ ms_runtime s = Some old ∧
    replace_generation (re_alive env) old candidate secrets = Some new ∧ res = reloaded id socket ∧
    r' = put_session id (swap_generation s candidate secrets new) (interfere 1 r).
Proof using Type.
  unfold reload_same_path. destruct (sr_accepting_sessions _); cbn [negb]; [|intros [= <- <-]; auto].
  destruct (sr_sessions (interfere 1 r) !! id) as [s|] eqn:Hs; [|intros [= <- <-]; auto].
  destruct (ms_runtime s) as [old|] eqn:Ho; [|intros [= <- <-]; auto].
  destruct (replace_generation _ _ _ _) as [new|] eqn:Hn; intros [= <- <-]; [right|by left].
  by exists s, old, new.
Qed.

Lemma reload_new_path_cases socket target candidate secrets r m res r' m' s0 :
  sr_sessions r !! id = Some s0 →
  reload_new_path env interfere id socket target candidate secrets r m = (res, r', m') →
  rely id r r' ∧ rr_status res = Failed ∨
  ∃ s old new next r2, sr_sessions r2 !! id = Some s ∧ same_service s0 s ∧ ms_runtime s = Some old ∧
    length (ms_retired_runtimes s) < MAX_RETIRED_LISTENERS ∧
    checked_succ (ms_listener_generation s) = Some next ∧
    start_with_options (re_bound env)
      (mkProxyRuntimeOptions id candidate secrets (rt_credential_seed old) target (rt_permits old) next) = Ok new ∧
    res = reloaded id target ∧ si_state (ms_info s) = Running ∧
    r' = put_session id (swap_listener s candidate secrets target next old new) r2.
Proof using Hrely.
  intros Hs0. unfold reload_new_path. pose proof (Hrely 1 r) as R1.
  destruct (R1 s0 Hs0) as (s1 & Hs1 & Hsv1). rewrite Hs1.
  destruct (sr_accepting_sessions (interfere 1 r)); cbn [negb]; [|intros [= <- <- <-]; auto].
  cbn [ms_runtime ms_listener_generation].
  set (retired := filter _ (ms_retired_runtimes s1)). set (s2 := mkManagedSession _ _ _ _ _ retired _ _).
  assert (same_service s1 s2) as Hsv2.
  { constructor; try done. apply sublist_filter. }
  set (r2 := put_session id s2 (interfere 1 r)).
  assert (rely id r r2) as R2 by (eapply rely_trans; [done|by eapply rely_put]).
  destruct (ms_runtime s1) as [old|] eqn:Hold; [|intros [= <- <- <-]; auto].
  destruct (checked_succ _) as [next|] eqn:Hnext; [|intros [= <- <- <-]; auto].
  destruct (Nat.ltb_spec (length retired) MAX_RETIRED_LISTENERS) as [Hlen|Hlen]; cbn [negb];
    [|intros [= <- <- <-]; auto].
  destruct (start_with_options _ _) as [new|e] eqn:Hnew; [|intros [= <- <- <-]; auto].
  assert (rely id r (interfere 2 r2)) as R3 by (eapply rely_trans; [done|apply Hrely]).
  destruct (Hrely 2 r2 s2) as (s3 & Hs3 & Hsv3); [by cbn; rewrite lookup_insert_eq|]. rewrite Hs3.
  destruct (sr_accepting_sessions (interfere 2 r2)); cbn [negb]; [|intros [= <- <- <-]; auto].
  case_bool_decide as Hrun; cbn [negb]; [|intros [= <- <- <-]; auto].
  destruct (ms_runtime s3) as [old3|] eqn:Hold3; [|intros [= <- <- <-]; auto].
  intros [= <- <- <-]. right. exists s3, old3, new, next, (interfere 2 r2).
  assert (old3 = old) as ->.
  { rewrite (sv_runtime _ _ Hsv3) in Hold3. cbn in Hold3. congruence. }
  pose proof (sv_listener _ _ Hsv3) as Hl3. cbn in Hl3. rewrite Hl3.
  pose proof (sublist_length _ _ (sv_retired _ _ Hsv3)) as Hlr. cbn in Hlr.
  split_and!; try done; [by etrans; [|etrans]|lia].
Qed.

(** The candidate that a reload tries to install. *)
Record reload_candidate (s : ManagedSession) (candidate : SessionConfig) (secrets : ResolvedSecrets)
    (target : str) : Prop := {
  rc_running : si_state (ms_info s) = Running;
  rc_read : ∃ source read_session raw, ms_config_source s = Some source ∧
    re_read_session env = Some read_session ∧ read_session source = Ok raw ∧
    candidate = with_persistent (sc_persistent (ms_configuration s)) raw;
  rc_secrets : re_resolve env candidate = Some secrets;
  rc_target : absolute_socket_path (re_cwd env)
    (path_join (sm_socket_dir mgr) (default (id ++ lit ".sock") (sc_socket_name candidate))) = Some target;
}.

Lemma reload_locked_cases r m res r' m' s :
  sr_sessions r !! id = Some s →
  reload_locked mgr env interfere id r m = (res, r', m') →
  (rely id r r' ∧ rr_status res = Failed) ∨
  ∃ candidate secrets target, reload_candidate s candidate secrets target ∧
    ((rely id r r' ∧ rr_status res = Unchanged ∧ target = si_socket (ms_info s) ∧
        configuration_unchanged candidate (ms_configuration s) = true ∧
        has_same_values (ms_secrets s) secrets = true) ∨
     (∃ s1 r1, same_service s s1 ∧ sr_sessions r1 !! id = Some s1 ∧ target = si_socket (ms_info s) ∧
        ∃ old new, ms_runtime s1 = Some old ∧
        replace_generation (re_alive env) old candidate secrets = Some new ∧ res = reloaded id target ∧
        r' = put_session id (swap_generation s1 candidate secrets new) r1) ∨
     (∃ s1 r1, same_service s s1 ∧ sr_sessions r1 !! id = Some s1 ∧ target ≠ si_socket (ms_info s) ∧
        ∃ old new next, ms_runtime s1 = Some old ∧
        length (ms_retired_runtimes s1) < MAX_RETIRED_LISTENERS ∧
        checked_succ (ms_listener_generation s1) = Some next ∧
        start_with_options (re_bound env)
          (mkProxyRuntimeOptions id candidate secrets (rt_credential_seed old) target (rt_permits old) next) = Ok new ∧
        res = reloaded id target ∧
        r' = put_session id (swap_listener s1 candidate secrets target next old new) r1)).
Proof using Hrely.
  intros Hs. unfold reload_locked. rewrite Hs. set (s0 := drop_retired _ s). set (r0 := put_session id s0 r).
  assert (same_service s s0) as Hsv0 by apply drop_retired_service.
  assert (rely id r r0) as R0 by (by eapply rely_put).
  change (si_socket (ms_info s0)) with (si_socket (ms_info s)).
  change (si_state (ms_info s0)) with (si_state (ms_info s)).
  change (ms_config_source s0) with (ms_config_source s).
  destruct (negb _ || _) eqn:Hgo; [intros [= <- <- <-]; auto|]. bool_prop.
  destruct (ms_config_source s) as [source|] eqn:Hsrc; [|intros [= <- <- <-]; auto].
  destruct (re_read_session env) as [read|] eqn:Hread; [|intros [= <- <- <-]; auto].
  destruct (read source) as [raw|[reason detail]] eqn:Hraw; [|intros [= <- <- <-]; auto].
  change (ms_configuration s0) with (ms_configuration s). change (ms_secrets s0) with (ms_secrets s).
  set (candidate := with_persistent _ raw).
  destruct (re_resolve env candidate) as [secrets|] eqn:Hsec; [|intros [= <- <- <-]; auto].
  destruct (absolute_socket_path _ _) as [target|] eqn:Htarget; [|intros [= <- <- <-]; auto].
  assert (reload_candidate s candidate secrets target) as Hcand.
  { constructor; [done| |done|done]. by exists source, read, raw. }
  destruct (Hrely 0 r0 s0) as (s1 & Hs1 & Hsv1); [by cbn; rewrite lookup_insert_eq|]. rewrite Hs1.
  assert (rely id r (interfere 0 r0)) as R1 by (eapply rely_trans; [done|apply Hrely]).
  assert (same_service s s1) as Hsv by by etrans.
  rewrite (sv_configuration _ _ Hsv).
  destruct (_ && _ && _) eqn:Hsame.
  { intros [= <- <- <-]. str_prop. right. exists candidate, secrets, target. split; [done|]. left. auto. }
  destruct (str_eqb target (si_socket (ms_info s))) eqn:Hpath.
  - apply str_eqb_true in Hpath. destruct (reload_same_path _ _ _ _ _ _ _) as [res1 r1] eqn:Hr1.
    intros [= <- <- <-].
    destruct (reload_same_path_cases _ _ _ _ _ _ Hr1) as [[Hf ->]|(s2 & old & new & Hs2 & Ho & Hn & Hres & ->)].
    + left. split; [|done]. eapply rely_trans; [exact R1|apply Hrely].
    + right. exists candidate, secrets, target. split; [done|]. right. left.
      destruct (Hrely 1 (interfere 0 r0) s1 Hs1) as (s2' & Hs2' & Hsv2). simplify_eq.
      eexists s2, _. split_and!; [by etrans|done|done|]. by exists old, new.
  - intros Hnew. apply not_true_iff_false in Hpath. rewrite str_eqb_true in Hpath.
    destruct (reload_new_path_cases _ _ _ _ _ _ _ _ _ _ Hs1 Hnew)
      as [[R ?]|(s2 & old & new & next & r2 & Hs2 & Hsv2 & Ho & Hl & Hnx & Hst & Hres & _ & ->)].
    + left. split; [|done]. by eapply rely_trans.
    + right. exists candidate, secrets, target. split; [done|]. right. right.
      exists s2, r2. split_and!; [by etrans|done|done|]. by exists old, new, next.
Qed.

(** C21: a reload that does not succeed changes nothing that is served: when
    the outcome is not [Reloaded], the session keeps its configuration,
    secrets, listener, policy generation, socket and state; only finished
    retired listeners may have been dropped. This holds with any interference
    the session's lock allows. *)
Theorem reload_failure_keeps_service r m res r' m' s :
  sr_sessions r !! id = Some s →
  reload_locked mgr env interfere id r m = (res, r', m') → rr_status res ≠ Reloaded →
  ∃ s', sr_sessions r' !! id = Some s' ∧ same_service s s'.
Proof using Hrely.
  intros Hs Hr Hst.
  destruct (reload_locked_cases _ _ _ _ _ _ Hs Hr)
    as [[R _]|(c & sec & t & _ & [(R & _)|[(s1 & r1 & _ & _ & _ & old & new & _ & _ & -> & _)
                                          |(s1 & r1 & _ & _ & _ & old & new & next & _ & _ & _ & _ & -> & _)]])];
    [by apply R|by apply R|done|done].
Qed.

(** C20: a successful reload installs exactly the file's policy: the session
    then runs the configuration read from its own source file, with the
    lifetime chosen at creation, and the secrets resolved for it; new
    connections use that policy compiled under the session's unchanged
    credential seed and the unchanged connection limit; the identifier,
    lifetime and source stay, and the generation advances. A new socket name
    moves the session to a new listener there and retires the old one. *)
Theorem reload_success_installs r m res r' m' s :
  sr_sessions r !! id = Some s →
  reload_locked mgr env interfere id r m = (res, r', m') → rr_status res = Reloaded →
  ∃ candidate secrets target s' old new,
    reload_candidate s candidate secrets target ∧
    sr_sessions r' !! id = Some s' ∧ ms_configuration s' = candidate ∧ ms_secrets s' = secrets ∧
    sc_persistent candidate = sc_persistent (ms_configuration s) ∧
    ms_runtime s = Some old ∧ ms_runtime s' = Some new ∧
    rt_generation new = mkProxyGeneration (compile candidate (rt_credential_seed old)) secrets ∧
    rt_credential_seed new = rt_credential_seed old ∧ rt_permits new = rt_permits old ∧
    si_id (ms_info s') = si_id (ms_info s) ∧ si_persistent (ms_info s') = si_persistent (ms_info s) ∧
    si_state (ms_info s') = Running ∧ ms_config_source s' = ms_config_source s ∧
    si_generation (ms_info s') = saturating_succ (si_generation (ms_info s)) ∧
    si_socket (ms_info s') = target ∧ rr_socket res = target ∧
    (target = si_socket (ms_info s) ∧ rt_socket_path new = rt_socket_path old ∧
       ms_listener_generation s' = ms_listener_generation s ∨
     target ≠ si_socket (ms_info s) ∧ rt_socket_path new = target ∧
       ms_listener_generation s' = (ms_listener_generation s + 1)%N ∧
       ms_listener_gate s' = ms_listener_generation s' ∧
       last (ms_retired_runtimes s') = Some (retire (mark_retiring old))).
Proof using Hrely.
  intros Hs Hr Hst.
  destruct (reload_locked_cases _ _ _ _ _ _ Hs Hr)
    as [[_ Hf]|(c & sec & t & Hc & [(_ & Hu & _)
          |[(s1 & r1 & Hsv & Hs1 & Ht & old & new & Ho & Hn & -> & ->)
           |(s1 & r1 & Hsv & Hs1 & Ht & old & new & next & Ho & _ & Hnx & Hn & -> & ->)]])]; [congruence..| |].
  - pose proof Hsv as [? ? ? Hstate ? ? ? ? Hrt ? ? _]. pose proof (rc_running _ _ _ _ Hc).
    destruct (rc_read _ _ _ _ Hc) as (source & read & raw & _ & _ & _ & Hcr).
    unfold replace_generation in Hn. destruct (_ <=? _)%nat; simplify_eq/=.
    exists (with_persistent (sc_persistent (ms_configuration s)) raw), sec, (si_socket (ms_info s)).
    eexists _, old, _. cbn. rewrite lookup_insert_eq.
    split_and!; try done; cbn; try congruence. left. split_and!; congruence.
  - pose proof Hsv as [? ? ? Hstate ? ? ? ? Hrt ? ? _]. pose proof (rc_running _ _ _ _ Hc).
    destruct (rc_read _ _ _ _ Hc) as (source & read & raw & _ & _ & _ & Hcr).
    unfold start_with_options in Hn. destruct (re_bound env); simplify_eq/=.
    unfold checked_succ in Hnx. destruct (_ <? _)%N; simplify_eq.
    exists (with_persistent (sc_persistent (ms_configuration s)) raw), sec, t.
    eexists _, old, _. cbn. rewrite lookup_insert_eq.
    split_and!; try done; cbn; try congruence. right. cbn. rewrite last_snoc. split_and!; congruence.
Qed.

(** A session within its resource bounds. *)
Definition session_bounded (s : ManagedSession) : Prop :=
  length (ms_retired_runtimes s) ≤ MAX_RETIRED_LISTENERS ∧
  (∀ rt, ms_runtime s = Some rt → runtime_wf rt).

(** C35: reloads are bounded: however often a session is reloaded, it never
    has more than 8 retired listeners, and its listener never has more than 8
    policy generations in use. *)
Theorem reload_bounded r m res r' m' s :
  sr_sessions r !! id = Some s → session_bounded s →
  reload_locked mgr env interfere id r m = (res, r', m') →
  ∃ s', sr_sessions r' !! id = Some s' ∧ session_bounded s'.
Proof using Hrely.
  intros Hs [Hlen Hwf] Hr.
  assert (∀ s', same_service s s' → session_bounded s') as Hkeep.
  { intros s' Hsv. split; [|by rewrite (sv_runtime _ _ Hsv)].
    pose proof (sublist_length _ _ (sv_retired _ _ Hsv)). lia. }
  destruct (reload_locked_cases _ _ _ _ _ _ Hs Hr)
    as [[R _]|(c & sec & t & Hc & [(R & _)
          |[(s1 & r1 & Hsv & Hs1 & Ht & old & new & Ho & Hn & -> & ->)
           |(s1 & r1 & Hsv & Hs1 & Ht & old & new & next & Ho & Hl & Hnx & Hn & -> & ->)]])].
  - destruct (R s Hs) as (s' & ? & ?). eauto.
  - destruct (R s Hs) as (s' & ? & ?). eauto.
  - eexists. cbn. rewrite lookup_insert_eq. split; [done|]. destruct (Hkeep s1 Hsv) as [? Hwf1].
    split; [done|]. intros rt [= <-]. eapply replace_generation_wf; [|done]. auto.
  - eexists. cbn. rewrite lookup_insert_eq. split; [done|]. split; cbn.
    + rewrite length_app. cbn. lia.
    + intros rt [= <-]. by eapply start_with_options_wf.
Qed.
End reload_proofs.

(** ** Witnesses *)

(** The example session with its rules, patterns and ports in another order. *)
Definition example_raw_reordered : RawSessionConfig :=
  mkRawSessionConfig (Some 2%Z) true None (Some (lit "tunnel"))
    (Some (RulesNamed (<[lit "example.com" := mkRawNamedRule None default_ports
              (Some [lit "/v2"; lit "/v1/~user/**"])
              (Some [mkRawHeaderInjection (lit "authorization") (lit "api-token") Bearer None])]>
       (<[lit "b.example" := mkRawNamedRule (Some Tunnel) [8443; 443]%N None None]> ∅))))
    (Some (mkRawCredentials (Some Substitute) (<[lit "api-token" := Inject]> ∅)))
    [].

Definition example_reordered : SessionConfig :=
  mkSessionConfig true None UTunnel (Some Substitute) (<[lit "api-token" := Inject]> ∅)
    [mkHostRule (lit "b.example") Tunnel [8443; 443]%N [] [];
     mkHostRule (lit "example.com") Intercept [443%N] [lit "/v2"; lit "/v1/~user/**"]
       [mkHeaderInjection (lit "authorization") (lit "api-token") Bearer None]].

Lemma example_reordered_wf : @session_wf plain_host_parse example_reordered.
Proof.
  apply (@validate_session_document_session_wf plain_host_parse plain_host_laws example_raw_reordered).
  vm_compute. reflexivity.
Qed.

Lemma same_effective_rules_exact_witness :
  let d := mkDestination (lit "b.example") 8443 in
  allows example_session d Tunnel ↔ allows example_reordered d Tunnel.
Proof.
  apply (@same_effective_rules_exact plain_host_parse example_session example_reordered).
  - exact example_session_wf.
  - exact example_reordered_wf.
  - vm_compute. reflexivity.
  - reflexivity.
Defined.

Definition reload_mgr : SessionManager := mkSessionManager (lit "/run/baffle") 2.

Definition reload_runtime : Runtime :=
  mkRuntime (lit "ab") 1 (lit "/run/baffle/ab.sock")
    (mkProxyGeneration (@compile plain_crypto session_config_new (lit "seed")) ∅) [0] 1 0 (lit "seed") false false true.

Definition reload_session : ManagedSession :=
  new_session (lit "ab") session_config_new ∅ (Some (lit "x.toml")) reload_runtime.

Definition reload_registry : SessionRegistry := mkSessionRegistry true {[ lit "ab" := reload_session ]} ∅.

Definition reload_env_of (file : result (str * str) SessionConfig) : reload_env :=
  mkReloadEnv (λ _, false) (Some (λ _, file)) (λ _, Some example_secrets) None (λ _, true) true true.

(** Reloading the session from a file with the given content, undisturbed. *)
Definition example_reload (file : result (str * str) SessionConfig) :=
  @reload_locked plain_crypto reload_mgr (reload_env_of file) (λ _ r, r) (lit "ab") reload_registry metrics_default.

Lemma reload_registry_lookup : sr_sessions reload_registry !! lit "ab" = Some reload_session.
Proof. apply lookup_singleton_eq. Qed.

Lemma reload_failure_keeps_service_witness :
  ∃ s', sr_sessions (example_reload (Err ([], []))).1.2 !! lit "ab" = Some s' ∧ same_service reload_session s'.
Proof.
  apply (@reload_failure_keeps_service plain_crypto reload_mgr (reload_env_of (Err ([], []))) (λ _ r, r) (lit "ab")
    (λ _ _, rely_refl _ _) reload_registry metrics_default (example_reload (Err ([], []))).1.1 _
    (example_reload (Err ([], []))).2 reload_session).
  - exact reload_registry_lookup.
  - unfold example_reload. destruct (reload_locked _ _ _ _ _ _) as [[??]?]. reflexivity.
  - vm_compute. discriminate.
Defined.

Lemma reload_success_installs_witness :
  ∃ candidate secrets s', sr_sessions (example_reload (Ok example_reordered)).1.2 !! lit "ab" = Some s' ∧
    ms_configuration s' = candidate ∧ ms_secrets s' = secrets ∧ sc_persistent candidate = false.
Proof.
  destruct (@reload_success_installs plain_crypto reload_mgr (reload_env_of (Ok example_reordered)) (λ _ r, r) (lit "ab")
    (λ _ _, rely_refl _ _) reload_registry metrics_default (example_reload (Ok example_reordered)).1.1
    (example_reload (Ok example_reordered)).1.2 (example_reload (Ok example_reordered)).2 reload_session)
    as (c & sec & t & s' & old & new & _ & H1 & H2 & H3 & H4 & _).
  - exact reload_registry_lookup.
  - unfold example_reload. destruct (reload_locked _ _ _ _ _ _) as [[??]?]. reflexivity.
  - vm_compute. reflexivity.
  - exists c, sec, s'. split_and!; assumption.
Defined.

Lemma reload_bounded_witness :
  ∃ s', sr_sessions (example_reload (Ok example_session)).1.2 !! lit "ab" = Some s' ∧ session_bounded s'.
Proof.
  apply (@reload_bounded plain_crypto reload_mgr (reload_env_of (Ok example_session)) (λ _ r, r) (lit "ab")
    (λ _ _, rely_refl _ _) reload_registry metrics_default (example_reload (Ok example_session)).1.1
    (example_reload (Ok example_session)).1.2 (example_reload (Ok example_session)).2 reload_session).
  - exact reload_registry_lookup.
  - split; [unfold MAX_RETIRED_LISTENERS; cbn; lia|]. intros rt [= <-]. constructor.
    + unfold MAX_POLICY_GENERATIONS. cbn. lia.
    + intros g Hg. apply list_elem_of_singleton in Hg as ->. cbn. lia.
    + apply NoDup_singleton.
  - unfold example_reload. destruct (reload_locked _ _ _ _ _ _) as [[??]?]. reflexivity.
Defined.
