(* ===== verification/ManagedSockets.v ===== *)
(** The session manager and its sockets in the file system: the operations of
    Registry and Reload (src/control/session.rs, src/control/reload.rs) with
    the guards of SocketLeases that their runtimes own
    (src/proxy_runtime/rama.rs).

    A runtime is named by its session and its listener generation. A guard is
    made when a runtime starts and dropped with it: when the runtime leaves the
    registry (by [shutdown] or by [Drop]), or earlier, when its accept loop ends.
    A listener replaced by a reload is retired: its socket is unlinked at once,
    its guard stays with the retired runtime. Operations run one after another;
    their interleaving is SessionSystem's. *)

From S2P Require Import Prelude RustStr RustPath PosixFs SocketDirs SocketOrphans SocketLeases SocketRestore.
From S2P Require Import PolicyTypes DnsName SessionDoc SessionPolicy Secrets Telemetry ProxyRuntime Registry SessionSystem Reload.
From stdpp Require Import options.
Local Open Scope char_scope.

(** ** State *)

Abbreviation runtime_key := (str * N)%type.

(** The registry, the counters, the sockets, and which runtimes the live and
    the retired guards belong to, in the order of the guards; [md_ended] are
    the runtimes whose accept loop has returned. *)
Record managed := mkManaged {
  md_registry : SessionRegistry;
  md_metrics : Metrics;
  md_sockets : socket_state;
  md_owners : list runtime_key;
  md_retired : list runtime_key;
  md_ended : gset runtime_key;
}.

Definition managed_new : managed :=
  mkManaged registry_new metrics_default (mkSocketState empty_registry [] []) [] [] ∅.

Definition set_registry (r : SessionRegistry) (metrics : Metrics) (j : managed) : managed :=
  mkManaged r metrics (md_sockets j) (md_owners j) (md_retired j) (md_ended j).

(** The runtimes of one session. *)
Definition session_runtimes (s : ManagedSession) : list Runtime := ms_retired_runtimes s ++ option_list (ms_runtime s).

Definition registered (r : SessionRegistry) (k : runtime_key) : bool :=
  match sr_sessions r !! k.1 with
  | None => false
  | Some s => existsb (λ rt, (rt_listener_generation rt =? k.2)%N) (session_runtimes s)
  end.

(** ** Guards that go with their runtimes *)

Definition position (k : runtime_key) (l : list runtime_key) : option nat := fst <$> list_find (eq k) l.

(** The end of the guard of one runtime, if it still has one. *)
Definition end_runtime (listener_first : bool) (k : runtime_key) (j : managed) : Sys managed :=
  match position k (md_owners j), position k (md_retired j) with
  | Some index, _ =>
      st ← socket_step (OpDrop index listener_first) (md_sockets j);
      mret (mkManaged (md_registry j) (md_metrics j) st (delete index (md_owners j)) (md_retired j) (md_ended j))
  | None, Some index =>
      st ← socket_step (OpDropRetired index listener_first) (md_sockets j);
      mret (mkManaged (md_registry j) (md_metrics j) st (md_owners j) (delete index (md_retired j)) (md_ended j))
  | None, None => mret j
  end.

Fixpoint end_runtimes (ks : list runtime_key) (j : managed) : Sys managed :=
  match ks with
  | [] => mret j
  | k :: ks => j ← end_runtime false k j; end_runtimes ks j
  end.

(** Runtimes that [r] no longer has are shut down or dropped. *)
Definition install (r : SessionRegistry) (metrics : Metrics) (j : managed) : Sys managed :=
  j ← end_runtimes (filter (λ k, registered r k = false) (md_owners j ++ md_retired j)) j;
  mret (set_registry r metrics j).

(** [retire] on the runtime [k]. *)
Definition retire_guard (k : runtime_key) (j : managed) : Sys managed :=
  match position k (md_owners j) with
  | None => mret j
  | Some index =>
      st ← socket_step (OpRetire index) (md_sockets j);
      mret (mkManaged (md_registry j) (md_metrics j) st (delete index (md_owners j)) (md_retired j ++ [k]) (md_ended j))
  end.

(** [bind_unix_listener] for the runtime [k]; whether it was bound. *)
Definition bind_runtime (k : runtime_key) (path : str) (j : managed) : Sys (bool * managed) :=
  st ← socket_step (OpBind path) (md_sockets j);
  let bound := (length (ss_live (md_sockets j)) <? length (ss_live st))%nat in
  mret (bound, mkManaged (md_registry j) (md_metrics j) st
                 (if bound then md_owners j ++ [k] else md_owners j) (md_retired j) (md_ended j)).

(** ** Operations *)

Section operations.
Context `{Crypto} (mgr : SessionManager).

(** Where [create] starts a listener, when it comes that far. *)
Definition create_starts (env : create_env) (session : SessionConfig) (r : SessionRegistry)
    : option (str * str) :=
  match ce_ca_pem env, ce_seed env, ce_id_bytes env with
  | Some _, Some _, Some id_bytes =>
      let id := session_id_of id_bytes in
      match create_reserve mgr id r with
      | Err _ => None
      | Ok _ => pair id <$> create_socket_path mgr env id session
      end
  | _, _, _ => None
  end.

Definition with_bound (bound : bool) (env : create_env) : create_env :=
  mkCreateEnv (ce_ca_pem env) (ce_seed env) (ce_id_bytes env) (ce_cwd env) bound (ce_permits env).

Definition managed_create (env : create_env) (session : SessionConfig) (secrets : ResolvedSecrets)
    (source : option str) (j : managed) : Sys managed :=
  match create_starts env session (md_registry j) with
  | None =>
      let '(_, r, metrics) := create mgr env session secrets source (md_registry j) (md_metrics j) in
      install r metrics j
  | Some (id, path) =>
      b ← bind_runtime (id, 1%N) path j;
      let '(bound, j) := (b : bool * managed) in
      let '(_, r, metrics) := create mgr (with_bound bound env) session secrets source (md_registry j) (md_metrics j) in
      install r metrics j
  end.

Definition with_rebound (bound : bool) (env : reload_env) : reload_env :=
  mkReloadEnv (re_finished env) (re_read_session env) (re_resolve env) (re_cwd env) (re_alive env) bound (re_drained env).

Definition alone (k : nat) (r : SessionRegistry) : SessionRegistry := r.

(** Where a reload starts a listener: the runtime it would install if the
    listener could be bound, when that is a new one, with the old one. *)
Definition reload_starts (env : reload_env) (id : str) (r : SessionRegistry) (metrics : Metrics)
    : option (Runtime * Runtime) :=
  let '(_, r', _) := reload mgr (with_rebound true env) alone id r metrics in
  s ← sr_sessions r !! id; old ← ms_runtime s;
  s' ← sr_sessions r' !! id; new ← ms_runtime s';
  if (rt_listener_generation old =? rt_listener_generation new)%N then None else Some (old, new).

Definition managed_reload (env : reload_env) (id : str) (j : managed) : Sys managed :=
  match reload_starts env id (md_registry j) (md_metrics j) with
  | None =>
      let '(_, r, metrics) := reload mgr (with_rebound true env) alone id (md_registry j) (md_metrics j) in
      install r metrics j
  | Some (old, new) =>
      b ← bind_runtime (id, rt_listener_generation new) (rt_socket_path new) j;
      let '(bound, j) := (b : bool * managed) in
      let '(_, r, metrics) := reload mgr (with_rebound bound env) alone id (md_registry j) (md_metrics j) in
      j ← (if bound : bool then retire_guard (id, rt_listener_generation old) j else mret j);
      install r metrics j
  end.

Inductive managed_op :=
| MCreate (env : create_env) (session : SessionConfig) (secrets : ResolvedSecrets) (source : option str)
| MStop (drained : Runtime → bool) (id : str)
| MRemove (drained : Runtime → bool) (id : str)
| MExit (drained : Runtime → bool) (id : str) (listener_generation : N)
| MList (finished : Runtime → bool)
| MReload (env : reload_env) (id : str)
| MShutdown (drained : Runtime → bool)
| MLoopEnd (k : runtime_key).

Definition managed_step (op : managed_op) (j : managed) : Sys managed :=
  let r := md_registry j in
  let metrics := md_metrics j in
  match op with
  | MCreate env session secrets source => managed_create env session secrets source j
  | MStop drained id => let '(_, r, metrics) := stop drained id r metrics in install r metrics j
  | MRemove drained id => let '(r, metrics) := remove drained id r metrics in install r metrics j
  | MExit drained id g => let '(r, metrics) := runtime_exit drained id g r metrics in install r metrics j
  | MList finished => install (list_sessions finished r).2 metrics j
  | MReload env id => managed_reload env id j
  | MShutdown drained => let '(r, metrics) := shutdown_all drained r metrics in install r metrics j
  | MLoopEnd k =>
      j ← end_runtime true k j;
      mret (mkManaged (md_registry j) (md_metrics j) (md_sockets j) (md_owners j) (md_retired j) ({[k]} ∪ md_ended j))
  end.

Fixpoint managed_run (ops : list managed_op) (j : managed) : Sys managed :=
  match ops with
  | [] => mret j
  | op :: ops => j ← managed_step op j; managed_run ops j
  end.
End operations.

(** ** Which runtimes a registry has *)

(** [k] is the current listener of its session, at [path]; [k] is one of its
    retired listeners. *)
Definition current_at (r : SessionRegistry) (k : runtime_key) (path : str) : Prop :=
  ∃ s rt, sr_sessions r !! k.1 = Some s ∧ ms_runtime s = Some rt ∧ rt_listener_generation rt = k.2 ∧
    rt_socket_path rt = path.
Definition retired_at (r : SessionRegistry) (k : runtime_key) : Prop :=
  ∃ s rt, sr_sessions r !! k.1 = Some s ∧ rt ∈ ms_retired_runtimes s ∧ rt_listener_generation rt = k.2.

Lemma elem_of_option_list {A} (o : option A) x : x ∈ option_list o ↔ o = Some x.
Proof. destruct o as [y|]; cbn; [rewrite list_elem_of_singleton; naive_solver|]. rewrite elem_of_nil. done. Qed.

Lemma registered_true r k : registered r k = true ↔ (∃ path, current_at r k path) ∨ retired_at r k.
Proof.
  unfold registered, current_at, retired_at, session_runtimes. destruct (sr_sessions r !! k.1) as [s|] eqn:Hs.
  - rewrite existsb_exists. setoid_rewrite <- list_elem_of_In. setoid_rewrite elem_of_app.
    setoid_rewrite elem_of_option_list. setoid_rewrite N.eqb_eq. split.
    + intros (rt & [Hin|Hin] & Hg); [right|left]; by eauto 10.
    + intros [(path & s' & rt & [= <-] & Hrt & Hg & _)|(s' & rt & [= <-] & Hin & Hg)]; by eauto 10.
  - split; [done|]. by intros [(path & ? & ? & ? & _)|(? & ? & ? & _)].
Qed.

(** Generations name the runtimes of a session: retired ones are older than
    the current one. *)
Definition session_keys (s : ManagedSession) : Prop :=
  (∀ rt, ms_runtime s = Some rt → rt_listener_generation rt = ms_listener_generation s) ∧
  (∀ rt, rt ∈ ms_retired_runtimes s → (rt_listener_generation rt < ms_listener_generation s)%N).
Definition keys_wf (r : SessionRegistry) : Prop := ∀ id s, sr_sessions r !! id = Some s → session_keys s.

Lemma current_not_retired r k path : keys_wf r → current_at r k path → retired_at r k → False.
Proof.
  intros Hk (s & rt & Hs & Hrt & Hg & _) (s' & rt' & Hs' & Hin & Hg'). simplify_eq.
  destruct (Hk _ _ Hs) as [Hc Hr]. specialize (Hc _ Hrt). specialize (Hr _ Hin). lia.
Qed.

Lemma current_path r k path path' : current_at r k path → current_at r k path' → path = path'.
Proof. intros (s & rt & Hs & Hrt & _ & <-) (s' & rt' & Hs' & Hrt' & _ & <-). congruence. Qed.

(** A step that starts no listener: sessions, and runtimes of sessions, may go. *)
Record session_shrinks (s s' : ManagedSession) : Prop := {
  ssh_runtime : ∀ rt', ms_runtime s' = Some rt' → ∃ rt, ms_runtime s = Some rt ∧
    rt_listener_generation rt = rt_listener_generation rt' ∧ rt_socket_path rt = rt_socket_path rt';
  ssh_retired : ∀ rt, rt ∈ ms_retired_runtimes s' → rt ∈ ms_retired_runtimes s;
  ssh_listener : ms_listener_generation s' = ms_listener_generation s;
}.
Definition shrinks (r r' : SessionRegistry) : Prop :=
  ∀ id s', sr_sessions r' !! id = Some s' → ∃ s, sr_sessions r !! id = Some s ∧ session_shrinks s s'.

Lemma session_shrinks_refl s : session_shrinks s s.
Proof. split; by eauto. Qed.
#[export] Hint Resolve session_shrinks_refl : baffle.

Lemma shrinks_keys r r' : shrinks r r' → keys_wf r → keys_wf r'.
Proof.
  intros Hsh Hk id s' Hs'. destruct (Hsh id s' Hs') as (s & Hs & [Hrt Hre Hl]). destruct (Hk id s Hs) as [Hc Hr].
  split; rewrite Hl; [|by eauto]. intros rt' Hrt'. destruct (Hrt rt' Hrt') as (rt & Hr1 & <- & _). by apply Hc.
Qed.

Lemma shrinks_current r r' k path : shrinks r r' → current_at r' k path → current_at r k path.
Proof.
  intros Hsh (s' & rt' & Hs' & Hrt' & Hg & Hp). destruct (Hsh _ _ Hs') as (s & Hs & Hss).
  destruct (ssh_runtime _ _ Hss rt' Hrt') as (rt & Hrt & Hg' & Hp'). exists s, rt. split; [done|]. split; [done|]. split; congruence.
Qed.

Lemma shrinks_retired r r' k : shrinks r r' → retired_at r' k → retired_at r k.
Proof.
  intros Hsh (s' & rt & Hs' & Hin & Hg). destruct (Hsh _ _ Hs') as (s & Hs & Hss).
  exists s, rt. split; [done|]. split; [by apply (ssh_retired _ _ Hss)|done].
Qed.

(** What changes at most one session. *)
Lemma shrinks_one r r' id :
  (∀ k, k ≠ id → sr_sessions r' !! k = sr_sessions r !! k) →
  (∀ s', sr_sessions r' !! id = Some s' → ∃ s, sr_sessions r !! id = Some s ∧ session_shrinks s s') → shrinks r r'.
Proof.
  intros Hother Hid k s' Hk. destruct (decide (k = id)) as [->|Hne]; [by apply Hid|].
  rewrite Hother in Hk by done. by eauto with baffle.
Qed.

Lemma take_shrinks s : session_shrinks s (take_session s).1.
Proof. split; cbn; [done| |done]. by intros rt ?%elem_of_nil. Qed.

Lemma drop_retired_shrinks keep s : session_shrinks s (drop_retired keep s).
Proof. split; cbn; [by eauto| |done]. by intros rt [_ ?]%list_elem_of_filter. Qed.

(** ** Guards and their owners *)

Section guards.
Context (p : process) (fs0 : Fs) (Hwf : fs_wf fs0).

(** Every guard has an owner, and no runtime owns two. *)
Record guards_ok (fs : Fs) (j : managed) : Prop := {
  go_live : live_inv p fs0 fs (md_sockets j);
  go_owners : length (md_owners j) = length (ss_live (md_sockets j));
  go_retired : length (md_retired j) = length (ss_retired (md_sockets j));
  go_NoDup : NoDup (md_owners j ++ md_retired j);
}.

(** [j'] has the guards of [j], less those of the runtimes that [gone] holds
    of. *)
Record fewer (gone : runtime_key → Prop) (j j' : managed) : Prop := {
  fw_registry : md_registry j' = md_registry j;
  fw_metrics : md_metrics j' = md_metrics j;
  fw_ended : md_ended j' = md_ended j;
  fw_owners : ∀ k, k ∈ md_owners j' ↔ k ∈ md_owners j ∧ ¬ gone k;
  fw_retired : ∀ k, k ∈ md_retired j' ↔ k ∈ md_retired j ∧ ¬ gone k;
  fw_live : ∀ P : runtime_key → FileId * UnixSocketGuard → Prop,
    Forall2 P (md_owners j) (ss_live (md_sockets j)) → Forall2 P (md_owners j') (ss_live (md_sockets j'));
}.

Lemma position_Some k l index : position k l = Some index → l !! index = Some k.
Proof using Type. unfold position. intros ([i k'] & (Hl & <- & _)%list_find_Some & [= ->])%fmap_Some. done. Qed.
Lemma position_None k l : position k l = None → k ∉ l.
Proof using Type.
  unfold position. intros Hn%fmap_None%list_find_None Hin. rewrite Forall_forall in Hn. by eapply Hn.
Qed.

Lemma NoDup_delete_elem {A} (l : list A) i x y : NoDup l → l !! i = Some x → y ∈ delete i l ↔ y ∈ l ∧ y ≠ x.
Proof using Type.
  intros Hnd Hi. rewrite (delete_Permutation _ _ _ Hi) in Hnd |- * at 2. apply NoDup_cons in Hnd as [Hx _].
  rewrite elem_of_cons. naive_solver.
Qed.

Lemma lookup_same_length {A B} (l : list A) (m : list B) i x :
  length l = length m → l !! i = Some x → ∃ y, m !! i = Some y.
Proof using Type. intros Hl Hi. apply lookup_lt_is_Some_2. rewrite <- Hl. by eapply lookup_lt_Some. Qed.

Lemma end_runtime_runs fs j listener_first k :
  guards_ok fs j →
  ∃ j' fs', runs p fs (end_runtime listener_first k j) j' fs' ∧ guards_ok fs' j' ∧ fewer (λ k', k' = k) j j'.
Proof using Type*.
  intros [Hl Ho Hr Hnd]. unfold end_runtime.
  pose proof Hnd as (Hndo & Hdis & Hndr)%NoDup_app.
  destruct (position k (md_owners j)) as [index|] eqn:Hpo.
  - apply position_Some in Hpo as Hk. destruct (lookup_same_length _ _ _ _ Ho Hk) as [lg Hlg].
    destruct (drop_live_runs p fs0 Hwf fs _ index listener_first lg Hl Hlg) as (reg' & fs' & Hrun & Hi).
    do 2 eexists. split; [eapply runs_bind; [exact Hrun|apply runs_ret]|]. split; split; cbn; try done.
    + rewrite !length_delete; [lia|by eexists..].
    + eapply sublist_NoDup; [exact Hnd|]. apply sublist_app; [apply sublist_delete|done].
    + intros k'. by apply NoDup_delete_elem.
    + intros k'. split; [|by intros [? _]]. intros Hin. split; [done|]. intros ->.
      apply (Hdis k); [by eapply list_elem_of_lookup_2|done].
    + intros P HP. by apply Forall2_delete.
  - apply position_None in Hpo. destruct (position k (md_retired j)) as [index|] eqn:Hpr.
    + apply position_Some in Hpr as Hk. destruct (lookup_same_length _ _ _ _ Hr Hk) as [lg Hlg].
      destruct (drop_retired_runs p fs0 Hwf fs _ index listener_first lg Hl Hlg) as (reg' & fs' & Hrun & Hi).
      do 2 eexists. split; [eapply runs_bind; [exact Hrun|apply runs_ret]|]. split; split; cbn; try done.
      * rewrite !length_delete; [lia|by eexists..].
      * eapply sublist_NoDup; [exact Hnd|]. apply sublist_app; [done|apply sublist_delete].
      * intros k'. split; [|by intros [? _]]. intros Hin. split; [done|]. by intros ->.
      * intros k'. by apply NoDup_delete_elem.
    + apply position_None in Hpr. do 2 eexists. split; [apply runs_ret|]. split; split; try done.
      * intros k'. split; [|by intros [? _]]. intros Hin. split; [done|]. by intros ->.
      * intros k'. split; [|by intros [? _]]. intros Hin. split; [done|]. by intros ->.
Qed.

Lemma end_runtimes_runs ks : ∀ fs j,
  guards_ok fs j →
  ∃ j' fs', runs p fs (end_runtimes ks j) j' fs' ∧ guards_ok fs' j' ∧ fewer (λ k, k ∈ ks) j j'.
Proof using Type*.
  induction ks as [|k ks IH]; intros fs j Hg; cbn [end_runtimes].
  { do 2 eexists. split; [apply runs_ret|]. split; [done|]. split; try done; intros k'; rewrite elem_of_nil; naive_solver. }
  destruct (end_runtime_runs fs j false k Hg) as (j1 & fs1 & Hrun1 & Hg1 & Hf1).
  destruct (IH fs1 j1 Hg1) as (j2 & fs2 & Hrun2 & Hg2 & Hf2).
  exists j2, fs2. split; [by eapply runs_bind|]. split; [done|].
  destruct Hf1 as [R1 M1 E1 O1 T1 L1], Hf2 as [R2 M2 E2 O2 T2 L2]. split; try congruence.
  - intros k'. rewrite O2, O1, elem_of_cons. naive_solver.
  - intros k'. rewrite T2, T1, elem_of_cons. naive_solver.
  - intros P HP. by apply L2, L1.
Qed.
(** ** The invariant *)

(** The guard [lg] has the file name of the listener [k]. *)
Definition serves_at (r : SessionRegistry) (k : runtime_key) (lg : FileId * UnixSocketGuard) : Prop :=
  ∃ path, current_at r k path ∧ file_name (absolute_path p path) = Some (ug_name lg.2).

(** Live guards are the current listeners', retired guards the retired ones';
    a current listener has its guard unless its loop has ended. *)
Record minv (fs : Fs) (j : managed) : Prop := {
  mi_guards : guards_ok fs j;
  mi_keys : keys_wf (md_registry j);
  mi_live : Forall2 (serves_at (md_registry j)) (md_owners j) (ss_live (md_sockets j));
  mi_retired : ∀ k, k ∈ md_retired j → retired_at (md_registry j) k;
  mi_current : ∀ k path, current_at (md_registry j) k path → k ∈ md_owners j ∨ k ∈ md_ended j;
}.

(** [j] can take [r] as its registry once the guards of departed runtimes are
    gone. *)
Record ready (fs : Fs) (r : SessionRegistry) (j : managed) : Prop := {
  rd_guards : guards_ok fs j;
  rd_keys : keys_wf r;
  rd_live : Forall2 (λ k lg, registered r k = true → serves_at r k lg) (md_owners j) (ss_live (md_sockets j));
  rd_retired : ∀ k, k ∈ md_retired j → registered r k = true → retired_at r k;
  rd_current : ∀ k path, current_at r k path → k ∈ md_owners j ∨ k ∈ md_ended j;
}.

Lemma Forall2_strengthen {A B} (P Q : A → B → Prop) (l : list A) (m : list B) :
  Forall2 P l m → (∀ x y, x ∈ l → P x y → Q x y) → Forall2 Q l m.
Proof using Type.
  induction 1 as [|x y l m HP _ IH]; intros Himp; [constructor|].
  constructor; [apply Himp; [by left|done]|]. apply IH. intros x' y' Hx'. apply Himp. by right.
Qed.

Lemma install_runs fs r metrics j :
  ready fs r j →
  ∃ j' fs', runs p fs (install r metrics j) j' fs' ∧ minv fs' j' ∧ md_registry j' = r ∧ md_metrics j' = metrics ∧
    md_ended j' = md_ended j.
Proof using Type*.
  intros [Hg Hk Hl Hr Hc]. set (ks := filter (λ k, registered r k = false) (md_owners j ++ md_retired j)).
  destruct (end_runtimes_runs ks fs j Hg) as (j' & fs' & Hrun & Hg' & [R M E O T L]).
  exists (set_registry r metrics j'), fs'. split; [eapply runs_bind; [exact Hrun|apply runs_ret]|]. split; [|done].
  assert (Hkept : ∀ k, k ∈ md_owners j ++ md_retired j → k ∉ ks → registered r k = true).
  { intros k Hin Hks. destruct (registered r k) eqn:Hreg; [done|]. destruct Hks. apply list_elem_of_filter. done. }
  split; cbn; [by destruct Hg'|done| | |].
  - eapply Forall2_strengthen; [apply L, Hl|]. intros k lg Hin Hs. apply Hs. apply O in Hin as [Hin Hks].
    apply Hkept; [by apply elem_of_app; left|done].
  - intros k [Hin Hks]%T. apply Hr; [done|]. apply Hkept; [by apply elem_of_app; right|done].
  - intros k path Hcur. rewrite E. destruct (Hc k path Hcur) as [Hin|]; [left|by right]. apply O. split; [done|].
    intros [Hreg _]%list_elem_of_filter. assert (registered r k = true); [|congruence]. apply registered_true. left. by eauto.
Qed.

Lemma minv_ready fs r j : minv fs j → shrinks (md_registry j) r → ready fs r j.
Proof using Type.
  intros [Hg Hk Hl Hr Hc] Hsh. pose proof (shrinks_keys _ _ Hsh Hk) as Hk'. split; try done.
  - eapply Forall2_impl; [exact Hl|]. intros k lg (path & Hcur & Hname) Hreg. exists path. split; [|done].
    apply registered_true in Hreg as [(path' & Hcur')|Hret].
    + by rewrite (current_path _ _ _ _ Hcur (shrinks_current _ _ _ _ Hsh Hcur')).
    + destruct (current_not_retired _ _ _ Hk Hcur). by eapply shrinks_retired.
  - intros k Hin Hreg. apply registered_true in Hreg as [(path & Hcur)|]; [|done].
    destruct (current_not_retired _ k path Hk); [by eapply shrinks_current|by apply Hr].
  - intros k path Hcur. by eapply Hc, shrinks_current.
Qed.

Lemma shrinking_step fs r metrics j :
  minv fs j → shrinks (md_registry j) r →
  ∃ j' fs', runs p fs (install r metrics j) j' fs' ∧ minv fs' j' ∧ md_registry j' = r ∧ md_metrics j' = metrics ∧
    md_ended j' = md_ended j.
Proof using Type*. intros Hm Hsh. by apply install_runs, minv_ready. Qed.

(** A new listener, when its runtime is nobody's yet. *)
Lemma bind_runtime_runs fs j k path :
  guards_ok fs j → text_name p path → k ∉ md_owners j ++ md_retired j →
  ∃ o j' fs', runs p fs (bind_runtime k path j) (bool_decide (is_Some o), j') fs' ∧ guards_ok fs' j' ∧
    md_registry j' = md_registry j ∧ md_metrics j' = md_metrics j ∧ md_ended j' = md_ended j ∧
    md_retired j' = md_retired j ∧
    md_owners j' = (if o then md_owners j ++ [k] else md_owners j) ∧
    ss_live (md_sockets j') = ss_live (md_sockets j) ++ option_list o ∧
    ∀ lg, o = Some lg → file_name (absolute_path p path) = Some (ug_name lg.2).
Proof using Type*.
  intros [Hl Ho Hr Hnd] Htext Hk.
  destruct (bind_live_runs p fs0 Hwf fs _ path Hl Htext) as (reg' & o & fs' & Hrun & Hi & Hname).
  assert (Hb : (length (ss_live (md_sockets j)) <? length (ss_live (md_sockets j) ++ option_list o))%nat
               = bool_decide (is_Some o)).
  { rewrite length_app. destruct o as [lg|]; cbn.
    - apply Nat.ltb_lt. lia.
    - apply Nat.ltb_ge. lia. }
  exists o. do 2 eexists. split.
  { eapply runs_bind; [exact Hrun|]. cbn [ss_live]. rewrite Hb. apply runs_ret. }
  assert (Hif : (if bool_decide (is_Some o) then md_owners j ++ [k] else md_owners j)
                = if o then md_owners j ++ [k] else md_owners j).
  { by destruct o. }
  rewrite Hif. split; [|done]. split; cbn; [done| |done|].
  - destruct o; cbn; rewrite ?length_app; cbn; rewrite ?app_nil_r; lia.
  - destruct o; [|done]. rewrite <- app_assoc. apply NoDup_app in Hnd as (Hn1 & Hn2 & Hn3).
    apply not_elem_of_app in Hk as [Hk1 Hk2]. apply NoDup_app. split; [done|]. split; [|by apply NoDup_cons].
    intros x Hx [->|Hx']%elem_of_cons; [done|by apply (Hn2 x)].
Qed.

Lemma retire_guard_runs fs j k :
  guards_ok fs j →
  ∃ j' fs', runs p fs (retire_guard k j) j' fs' ∧ guards_ok fs' j' ∧
    md_registry j' = md_registry j ∧ md_metrics j' = md_metrics j ∧ md_ended j' = md_ended j ∧
    (∀ k', k' ∈ md_owners j' ↔ k' ∈ md_owners j ∧ k' ≠ k) ∧
    (∀ k', k' ∈ md_retired j' → k' ∈ md_retired j ∨ k' = k) ∧
    (∀ P : runtime_key → FileId * UnixSocketGuard → Prop,
       Forall2 P (md_owners j) (ss_live (md_sockets j)) → Forall2 P (md_owners j') (ss_live (md_sockets j'))).
Proof using Type*.
  intros Hg. pose proof Hg as [Hl Ho Hr Hnd]. unfold retire_guard.
  destruct (position k (md_owners j)) as [index|] eqn:Hpo.
  - apply position_Some in Hpo as Hk. destruct (lookup_same_length _ _ _ _ Ho Hk) as [lg Hlg].
    destruct (retire_live_runs p fs0 Hwf fs _ index lg Hl Hlg) as (fs' & Hrun & Hi).
    pose proof Hnd as (Hndo & _ & _)%NoDup_app.
    do 2 eexists. split; [eapply runs_bind; [exact Hrun|apply runs_ret]|]. cbn.
    split; [split; cbn; [done| | |]|].
    + rewrite !length_delete; [lia|by eexists..].
    + rewrite !length_app. cbn. lia.
    + eapply NoDup_Permutation_proper; [|exact Hnd]. rewrite (delete_Permutation _ _ _ Hk) at 2. cbn.
      by rewrite app_assoc, <- Permutation_cons_append.
    + split_and!; try done.
      * intros k'. by apply NoDup_delete_elem.
      * intros k' [?| ->%list_elem_of_singleton]%elem_of_app; by auto.
      * intros P HP. by apply Forall2_delete.
  - apply position_None in Hpo. do 2 eexists. split; [apply runs_ret|]. split_and!; try done; [|by auto].
    intros k'. split; [|by intros [? _]]. intros Hin. split; [done|]. by intros ->.
Qed.
End guards.

(** ** The registry's part of each operation *)

Lemma put_shrinks r id s s' :
  sr_sessions r !! id = Some s → session_shrinks s s' → shrinks r (set_sessions (<[id := s']> (sr_sessions r)) r).
Proof.
  intros Hs Hss. apply (shrinks_one _ _ id).
  - intros k Hk. cbn. by rewrite lookup_insert_ne.
  - intros s1. cbn. rewrite lookup_insert_eq. intros [= <-]. by eauto.
Qed.

Lemma delete_shrinks r id : shrinks r (set_sessions (delete id (sr_sessions r)) r).
Proof. intros k s' Hk. cbn in Hk. apply lookup_delete_Some in Hk as [_ Hk]. by eauto with baffle. Qed.

Lemma shrinks_refl r : shrinks r r.
Proof. intros id s Hs. by eauto with baffle. Qed.

Lemma session_shrinks_trans s1 s2 s3 : session_shrinks s1 s2 → session_shrinks s2 s3 → session_shrinks s1 s3.
Proof.
  intros [R1 T1 L1] [R2 T2 L2]. split; [|by auto|congruence]. intros rt3 H3.
  destruct (R2 _ H3) as (rt2 & H2 & ? & ?). destruct (R1 _ H2) as (rt1 & H1 & ? & ?). exists rt1. split; [done|]. split; congruence.
Qed.

Lemma shrinks_trans r1 r2 r3 : shrinks r1 r2 → shrinks r2 r3 → shrinks r1 r3.
Proof.
  intros H12 H23 id s3 H3. destruct (H23 _ _ H3) as (s2 & H2 & Hs2). destruct (H12 _ _ H2) as (s1 & H1 & Hs1).
  exists s1. split; [done|]. by eapply session_shrinks_trans.
Qed.

(** [stop], [remove] and [runtime_exit]. *)
Lemma finish_shrinks o drained id r metrics : shrinks r (finish drained id (begin_op o id r) metrics).1.
Proof.
  destruct (begin_op o id r) as [b r1] eqn:Hb.
  assert (Hr1 : shrinks r r1).
  { apply begin_op_shape in Hb as [[-> _]|(s & Hs & [(_ & -> & _)|(_ & keep & ->)])]; [apply shrinks_refl|..];
      (eapply put_shrinks; [exact Hs|]); [apply take_shrinks|apply drop_retired_shrinks]. }
  unfold finish. destruct b as [| |runtimes]; try done. cbn. eapply shrinks_trans; [exact Hr1|]. apply delete_shrinks.
Qed.

Lemma list_shrinks finished r : shrinks r (list_sessions finished r).2.
Proof.
  intros id s' Hs'. cbn in Hs'. apply lookup_fmap_Some in Hs' as (s & <- & Hs). exists s. split; [done|].
  apply drop_retired_shrinks.
Qed.

Lemma shutdown_empty drained r metrics : sr_sessions (shutdown_all drained r metrics).1 = ∅.
Proof. unfold shutdown_all. destruct (shutdown_begin r). by destruct (shutdown_take_all _ _) as [[? ?] ?]. Qed.

Section registry_ops.
Context `{Crypto} (mgr : SessionManager).

(** [create] registers nothing, or the listener it has started. *)
Lemma create_registers env session secrets source r metrics res r' m' :
  create mgr env session secrets source r metrics = (res, r', m') →
  r' = r ∨
  ∃ id path s rt, create_starts mgr env session r = Some (id, path) ∧ ce_bound env = true ∧
    r' = set_sessions (<[id := s]> (sr_sessions r)) r ∧ ms_runtime s = Some rt ∧ ms_retired_runtimes s = [] ∧
    ms_listener_generation s = 1%N ∧ rt_listener_generation rt = 1%N ∧ rt_socket_path rt = path.
Proof using Type.
  unfold create, create_starts. destruct (ce_ca_pem env) as [pem|]; [|by intros [= <- <- <-]; left].
  destruct (ce_seed env) as [seed|]; [|by intros [= <- <- <-]; left].
  destruct (ce_id_bytes env) as [id_bytes|]; [|by intros [= <- <- <-]; left].
  destruct (create_reserve mgr _ r) as [r1|e] eqn:Hres; [|by intros [= <- <- <-]; left].
  pose proof (create_reserve_facts _ _ _ _ Hres) as (Ha & Hn & Hp & Hcap & Hback).
  destruct (create_socket_path mgr env _ session) as [path|] eqn:Hpath; [|intros [= <- <- <-]; by left].
  destruct (start_with_options _ _) as [rt|e] eqn:Hrt; [|intros [= <- <- <-]; by left].
  unfold create_commit. rewrite Hback, Ha. cbn [negb]. intros [= <- <- <-]. right.
  unfold start_with_options in Hrt. destruct (ce_bound env); simplify_eq/=. do 4 eexists. by split_and!.
Qed.

Lemma create_starts_fresh env session r id path :
  create_starts mgr env session r = Some (id, path) → sr_sessions r !! id = None.
Proof using Type.
  unfold create_starts. repeat (case_match; try done).
  intros Hp. apply fmap_Some in Hp as (path' & _ & [= -> ->]).
  match goal with Hr : create_reserve _ _ _ = Ok _ |- _ => apply create_reserve_facts in Hr as (_ & Hn & _) end. done.
Qed.

(** A reload alone changes only its own session. *)
Lemma reload_same_path_frame env id socket candidate secrets r k :
  k ≠ id → sr_sessions (reload_same_path env alone id socket candidate secrets r).2 !! k = sr_sessions r !! k.
Proof using Type.
  intros Hk. unfold reload_same_path, alone. repeat (case_match; try done). cbn. by rewrite lookup_insert_ne.
Qed.

Lemma reload_new_path_frame env id socket target candidate secrets r metrics k :
  k ≠ id →
  sr_sessions (reload_new_path env alone id socket target candidate secrets r metrics).1.2 !! k = sr_sessions r !! k.
Proof using Type.
  intros Hk. unfold reload_new_path, alone.
  repeat (case_match; try done; cbn; rewrite ?lookup_insert_ne by done; try done).
Qed.

Lemma reload_frame env id r metrics k :
  k ≠ id → sr_sessions (reload mgr env alone id r metrics).1.2 !! k = sr_sessions r !! k.
Proof using Type.
  intros Hk. unfold reload. destruct (sr_sessions r !! id) as [s|] eqn:Hs; [|done].
  assert (Hput : ∀ s', sr_sessions (put_session id s' r) !! k = sr_sessions r !! k).
  { intros s'. cbn. by rewrite lookup_insert_ne. }
  assert (Hl : sr_sessions (reload_locked mgr env alone id r metrics).1.2 !! k = sr_sessions r !! k).
  { unfold reload_locked. rewrite Hs. set (r0 := put_session id _ r). specialize (Hput (drop_retired (λ rt, negb (re_finished env rt)) s)).
    fold r0 in Hput. change (alone 0 r0) with r0. rewrite <- Hput. clearbody r0.
    repeat (case_match; try done); try (cbn; by apply reload_new_path_frame).
    match goal with H : reload_same_path ?e ?i ?d ?so ?c ?se ?r = _ |- _ =>
      pose proof (reload_same_path_frame e d so c se r k Hk) as Hf; rewrite H in Hf; exact Hf end. }
  by destruct (reload_locked _ _ _ _ _ _) as [[? ?] ?].
Qed.

(** The names a reload may give a listener. *)
Definition reload_paths (env : reload_env) (id path : str) : Prop :=
  ∃ read source candidate, re_read_session env = Some read ∧ read source = Ok candidate ∧
    absolute_socket_path (re_cwd env)
      (path_join (sm_socket_dir mgr) (default (id ++ lit ".sock") (sc_socket_name candidate))) = Some path.

(** A reload that moves its session to a new listener. *)
Record moved (env : reload_env) (id : str) (r r' : SessionRegistry) (old new : Runtime) : Prop := {
  mv_bound : re_bound env = true;
  mv_path : reload_paths env id (rt_socket_path new);
  mv_session : ∃ s s', sr_sessions r !! id = Some s ∧ ms_runtime s = Some old ∧
    sr_sessions r' !! id = Some s' ∧ ms_runtime s' = Some new ∧
    rt_listener_generation new = ms_listener_generation s' ∧
    (ms_listener_generation s < ms_listener_generation s')%N ∧
    (∀ rt, rt ∈ ms_retired_runtimes s' → rt ∈ ms_retired_runtimes s ∨ rt_listener_generation rt = rt_listener_generation old) ∧
    (∃ rt, rt ∈ ms_retired_runtimes s' ∧ rt_listener_generation rt = rt_listener_generation old);
}.

Lemma service_shrinks s s' : same_service s s' → session_shrinks s s'.
Proof using Type.
  intros Hsv. split.
  - intros rt Hrt. rewrite (sv_runtime _ _ Hsv) in Hrt. by eauto.
  - intros rt Hin. eapply elem_of_submseteq; [exact Hin|]. apply sublist_submseteq, (sv_retired _ _ Hsv).
  - apply (sv_listener _ _ Hsv).
Qed.

Lemma reload_outcome env id r metrics :
  let r' := (reload mgr env alone id r metrics).1.2 in
  shrinks r r' ∨ ∃ old new, moved env id r r' old new.
Proof using Type.
  cbv zeta. set (r' := (reload mgr env alone id r metrics).1.2).
  assert (Hframe : ∀ k, k ≠ id → sr_sessions r' !! k = sr_sessions r !! k) by (intros k Hk; by apply reload_frame).
  subst r'. revert Hframe. unfold reload. destruct (sr_sessions r !! id) as [s|] eqn:Hs; [|left; apply shrinks_refl].
  destruct (reload_locked mgr env alone id r metrics) as [[res r'] m'] eqn:Hr. cbn [fst snd]. intros Hframe.
  assert (Hkeep : ∀ s', sr_sessions r' !! id = Some s' → session_shrinks s s' → shrinks r r').
  { intros s' Hs' Hss. apply (shrinks_one _ _ id Hframe). intros s1 Hs1. exists s. split; [done|]. by simplify_eq. }
  assert (Hrely : rely id r r' → shrinks r r').
  { intros R. destruct (R s Hs) as (s' & Hs' & Hsv). eapply Hkeep; [exact Hs'|]. by apply service_shrinks. }
  destruct (reload_locked_cases mgr env alone id (λ _ _, rely_refl _ _) _ _ _ _ _ _ Hs Hr)
    as [[R _]|(c & sec & t & Hcand & [(R & _)|[(s1 & r1 & Hsv & Hs1 & Ht & old & new & Ho & Hn & -> & ->)
      |(s1 & r1 & Hsv & Hs1 & Ht & old & new & next & Ho & Hlen & Hnext & Hn & -> & ->)]])]; [by left; auto..| |].
  - left. eapply Hkeep; [apply lookup_insert_eq|]. eapply session_shrinks_trans; [by apply service_shrinks|].
    unfold replace_generation in Hn. destruct (_ <=? _)%nat; simplify_eq. split; cbn; [|done|done].
    intros rt [= <-]. by eauto.
  - right. exists old, new. unfold start_with_options in Hn. destruct (re_bound env) eqn:Hb; simplify_eq/=.
    unfold checked_succ in Hnext. destruct (_ <? U64)%N; simplify_eq.
    split; [done| |].
    + destruct (rc_read _ _ _ _ _ _ _ Hcand) as (source & read & raw & _ & Hread & Hraw & ->).
      exists read, source, raw. split; [done|]. split; [done|]. apply (rc_target _ _ _ _ _ _ _ Hcand).
    + exists s. eexists. split; [done|]. split; [by rewrite <- (sv_runtime _ _ Hsv)|].
      split; [apply lookup_insert_eq|]. cbn. split; [done|]. split; [done|].
      split; [rewrite (sv_listener _ _ Hsv); lia|]. split.
      * intros rt [Hin| ->%list_elem_of_singleton]%elem_of_app; [left|by right].
        by apply (ssh_retired _ _ (service_shrinks _ _ Hsv)).
      * eexists. split; [apply elem_of_app; right; apply list_elem_of_here|done].
Qed.

(** [reload_starts] finds the listener that is moved to. *)
Lemma reload_starts_spec env id r metrics :
  keys_wf r →
  let r' := (reload mgr (with_rebound true env) alone id r metrics).1.2 in
  match reload_starts mgr env id r metrics with
  | None => shrinks r r'
  | Some (old, new) => moved (with_rebound true env) id r r' old new
  end.
Proof using Type.
  intros Hk. cbv zeta. pose proof (reload_outcome (with_rebound true env) id r metrics) as Hout. unfold reload_starts.
  destruct (reload mgr (with_rebound true env) alone id r metrics) as [[res r'] m']. cbn [fst snd] in *.
  destruct Hout as [Hsh|(old & new & Hm)].
  - destruct (sr_sessions r !! id) as [s|] eqn:Hs; [|done]. cbn. destruct (ms_runtime s) as [old|] eqn:Ho; [|done]. cbn.
    destruct (sr_sessions r' !! id) as [s'|] eqn:Hs'; [|done]. cbn. destruct (ms_runtime s') as [new|] eqn:Hn; [|done]. cbn.
    destruct (Hsh _ _ Hs') as (s0 & Hs0 & Hss). simplify_eq. destruct (ssh_runtime _ _ Hss new Hn) as (rt & Hrt & Hg & _).
    simplify_eq. by rewrite Hg, N.eqb_refl.
  - pose proof (mv_session _ _ _ _ _ _ Hm) as (s & s' & Hs & Ho & Hs' & Hn & Hg & Hlt & _).
    rewrite Hs. cbn. rewrite Ho. cbn. rewrite Hs'. cbn. rewrite Hn. cbn.
    destruct (Hk _ _ Hs) as [Hc _]. specialize (Hc _ Ho).
    destruct (N.eqb_spec (rt_listener_generation old) (rt_listener_generation new)); [lia|done].
Qed.

Lemma reload_unbound_shrinks env id r metrics :
  shrinks r (reload mgr (with_rebound false env) alone id r metrics).1.2.
Proof using Type.
  destruct (reload_outcome (with_rebound false env) id r metrics) as [Hsh|(old & new & Hm)]; [done|].
  discriminate (mv_bound _ _ _ _ _ _ Hm).
Qed.
End registry_ops.

(** ** Operations keep the invariant *)

Section managed.
Context `{Crypto} (mgr : SessionManager) (p : process) (fs0 : Fs) (Hwf : fs_wf fs0).

(** Socket names are text, as every validated one is. *)
Definition op_names (op : managed_op) : Prop :=
  match op with
  | MCreate env session _ _ => ∀ id_bytes path, ce_id_bytes env = Some id_bytes →
      create_socket_path mgr env (session_id_of id_bytes) session = Some path → text_name p path
  | MReload env id => ∀ path, reload_paths mgr env id path → text_name p path
  | _ => True
  end.

Lemma same_current r r' k path :
  sr_sessions r' !! k.1 = sr_sessions r !! k.1 → current_at r' k path ↔ current_at r k path.
Proof using Type. intros Hs. unfold current_at. by rewrite Hs. Qed.
Lemma same_retired r r' k :
  sr_sessions r' !! k.1 = sr_sessions r !! k.1 → retired_at r' k ↔ retired_at r k.
Proof using Type. intros Hs. unfold retired_at. by rewrite Hs. Qed.
Lemma same_serves r r' k lg :
  sr_sessions r' !! k.1 = sr_sessions r !! k.1 → serves_at p r k lg → serves_at p r' k lg.
Proof using Type. intros Hs (path & Hc & Hn). exists path. by rewrite (same_current r). Qed.

Lemma owner_current fs j k : minv p fs0 fs j → k ∈ md_owners j → ∃ path, current_at (md_registry j) k path.
Proof using Type.
  intros Hm Hin. apply list_elem_of_lookup in Hin as [i Hi].
  destruct (Forall2_lookup_l _ _ _ _ _ (mi_live _ _ _ _ Hm) Hi) as (lg & _ & path & Hc & _). by eauto.
Qed.

Lemma guard_session fs j k :
  minv p fs0 fs j → k ∈ md_owners j ++ md_retired j → is_Some (sr_sessions (md_registry j) !! k.1).
Proof using Type.
  intros Hm [Hin|Hin]%elem_of_app.
  - destruct (owner_current fs j k Hm Hin) as (path & s & rt & Hs & _). by exists s.
  - destruct (mi_retired _ _ _ _ Hm k Hin) as (s & rt & Hs & _). by exists s.
Qed.

(** A session that was not there is registered with the listener just bound. *)
Lemma create_ready fs fs1 j j1 id path s rt lg :
  minv p fs0 fs j → guards_ok p fs0 fs1 j1 → sr_sessions (md_registry j) !! id = None →
  md_retired j1 = md_retired j → md_ended j1 = md_ended j → md_owners j1 = md_owners j ++ [(id, 1%N)] →
  ss_live (md_sockets j1) = ss_live (md_sockets j) ++ [lg] →
  file_name (absolute_path p path) = Some (ug_name lg.2) →
  ms_runtime s = Some rt → ms_retired_runtimes s = [] → ms_listener_generation s = 1%N →
  rt_listener_generation rt = 1%N → rt_socket_path rt = path →
  ready p fs0 fs1 (set_sessions (<[id := s]> (sr_sessions (md_registry j))) (md_registry j)) j1.
Proof using Type*.
  intros Hm Hg1 Hnone Hret Hend Hown Hlive Hname Hrt Hr0 Hls Hgen Hpath.
  set (r' := set_sessions _ _).
  assert (Hsame : ∀ k : runtime_key, k.1 ≠ id → sr_sessions r' !! k.1 = sr_sessions (md_registry j) !! k.1).
  { intros k Hk. cbn. by rewrite lookup_insert_ne. }
  assert (Hdiff : ∀ k, k ∈ md_owners j ++ md_retired j → k.1 ≠ id).
  { intros k Hin Heq. destruct (guard_session fs j k Hm Hin) as [x Hx]. rewrite Heq in Hx. congruence. }
  assert (Hnew : current_at r' (id, 1%N) path).
  { exists s, rt. cbn. rewrite lookup_insert_eq. done. }
  split; [done| | | |].
  - intros k s' Hs'. cbn in Hs'. apply lookup_insert_Some in Hs' as [[<- <-]|[_ Hs']]; [|by eapply (mi_keys _ _ _ _ Hm)].
    split; [intros rt'; congruence|]. rewrite Hr0. by intros rt' ?%elem_of_nil.
  - rewrite Hown, Hlive. apply Forall2_app.
    + eapply Forall2_strengthen; [exact (mi_live _ _ _ _ Hm)|]. intros k lg' Hin Hs _.
      eapply same_serves; [|exact Hs]. apply Hsame, Hdiff. apply elem_of_app. by left.
    + constructor; [|constructor]. intros _. by exists path.
  - intros k Hin _. rewrite Hret in Hin. apply (same_retired (md_registry j)); [|by apply (mi_retired _ _ _ _ Hm)].
    apply Hsame, Hdiff. apply elem_of_app. by right.
  - intros k path' Hc. rewrite Hown, Hend. destruct (decide (k.1 = id)) as [Heq|Hne].
    + left. destruct k as [i g]. cbn in Heq. subst i. destruct Hc as (s' & rt' & Hs' & Hrt' & Hg' & _).
      cbn in Hs', Hg'. rewrite lookup_insert_eq in Hs'. simplify_eq. rewrite Hgen. set_solver.
    + apply (same_current (md_registry j)) in Hc; [|by apply Hsame].
      destruct (mi_current _ _ _ _ Hm k path' Hc); [left|by right]. apply elem_of_app. by left.
Qed.

Lemma managed_create_inv fs j env session secrets source :
  minv p fs0 fs j → op_names (MCreate env session secrets source) →
  ∃ j' fs', runs p fs (managed_create mgr env session secrets source j) j' fs' ∧ minv p fs0 fs' j' ∧
    md_ended j' = md_ended j.
Proof using Type*.
  intros Hm Hnames. unfold managed_create. destruct (create_starts mgr env session (md_registry j)) as [[id path]|] eqn:Hst.
  2:{ destruct (create mgr env session secrets source _ _) as [[res r'] m'] eqn:Hc.
      destruct (create_registers mgr _ _ _ _ _ _ _ _ _ Hc) as [->|(? & ? & ? & ? & ? & _)]; [|congruence].
      destruct (shrinking_step p fs0 Hwf fs _ m' j Hm (shrinks_refl _)) as (j' & fs' & Hrun & Hm' & _ & _ & He). by eauto. }
  pose proof (create_starts_fresh mgr _ _ _ _ _ Hst) as Hnone.
  assert (Hk : (id, 1%N) ∉ md_owners j ++ md_retired j).
  { intros Hin. destruct (guard_session fs j _ Hm Hin) as [x Hx]. cbn in Hx. congruence. }
  assert (Htext : text_name p path).
  { unfold create_starts in Hst. repeat (case_match; try done). apply fmap_Some in Hst as (path' & Hp & [= -> ->]).
    by eapply Hnames. }
  destruct (bind_runtime_runs p fs0 Hwf fs j (id, 1%N) path (mi_guards _ _ _ _ Hm) Htext Hk)
    as (o & j1 & fs1 & Hrun1 & Hg1 & Hr1 & Hm1 & He1 & Ht1 & Ho1 & Hl1 & Hname).
  destruct (create mgr (with_bound (bool_decide (is_Some o)) env) session secrets source (md_registry j1) (md_metrics j1))
    as [[res r'] m'] eqn:Hc.
  assert (Hready : ready p fs0 fs1 r' j1).
  { rewrite Hr1 in Hc. destruct (create_registers mgr _ _ _ _ _ _ _ _ _ Hc)
      as [->|(id' & path' & s & rt & Hst' & Hb & -> & Hrt & Hr0 & Hls & Hgen & Hpath)].
    - (* nothing registered: the new listener, if there is one, is nobody's *)
      destruct (minv_ready p fs0 fs _ j Hm (shrinks_refl _)) as [_ Rk Rl Rr Rc]. split; [done|done| | |].
      + rewrite Ho1, Hl1. destruct o as [lg|]; cbn [option_list]; [|by rewrite app_nil_r].
        apply Forall2_app; [done|]. constructor; [|constructor]. intros Hreg.
        apply registered_true in Hreg as [(? & ? & ? & Hs & _)|(? & ? & Hs & _)]; cbn in Hs; congruence.
      + by rewrite Ht1.
      + intros k pth Hcur. rewrite Ho1, He1. destruct (Rc k pth Hcur); [left|by right].
        destruct o; [apply elem_of_app; by left|done].
    - assert (create_starts mgr env session (md_registry j) = Some (id', path')) as Hst2 by exact Hst'.
      rewrite Hst in Hst2. injection Hst2 as <- <-.
      destruct o as [lg|]; [|by rewrite bool_decide_eq_false_2 in Hb by (by intros [? ?])].
      eapply create_ready; try done. by apply Hname. }
  destruct (install_runs p fs0 Hwf fs1 r' m' j1 Hready) as (j' & fs' & Hrun & Hm' & _ & _ & He).
  exists j', fs'. split; [|split; [done|congruence]]. eapply runs_bind; [exact Hrun1|]. cbn. rewrite Hc. exact Hrun.
Qed.

(** The session has moved to the listener just bound, and the guard of the old
    one is retired. *)
Lemma reload_ready fs j fs1 j1 env id r' old new lg :
  minv p fs0 fs j → moved mgr env id (md_registry j) r' old new →
  (∀ k, k ≠ id → sr_sessions r' !! k = sr_sessions (md_registry j) !! k) →
  guards_ok p fs0 fs1 j1 → md_ended j1 = md_ended j →
  file_name (absolute_path p (rt_socket_path new)) = Some (ug_name lg.2) →
  (∀ k, k ∈ md_owners j1 ↔ k ∈ md_owners j ++ [(id, rt_listener_generation new)] ∧ k ≠ (id, rt_listener_generation old)) →
  (∀ k, k ∈ md_retired j1 → k ∈ md_retired j ∨ k = (id, rt_listener_generation old)) →
  (∀ P : runtime_key → FileId * UnixSocketGuard → Prop,
     Forall2 P (md_owners j ++ [(id, rt_listener_generation new)]) (ss_live (md_sockets j) ++ [lg]) →
     Forall2 P (md_owners j1) (ss_live (md_sockets j1))) →
  ready p fs0 fs1 r' j1.
Proof using Type*.
  intros Hm Hmv Hframe Hg1 Hend Hname Hown Hret Hlive.
  destruct (mv_session _ _ _ _ _ _ _ Hmv) as (s & s' & Hs & Hold & Hs' & Hnew & Hgnew & Hlt & Hrs & Hro).
  destruct (mi_keys _ _ _ _ Hm id s Hs) as [Hkc Hkr]. pose proof (Hkc _ Hold) as Hgold.
  assert (Hcur : current_at r' (id, rt_listener_generation new) (rt_socket_path new)) by (by exists s', new).
  assert (Honly : ∀ k path, k.1 = id → current_at r' k path → k = (id, rt_listener_generation new)).
  { intros [i g] path Hi (s1 & rt & Hs1 & Hrt & Hg & _). cbn in *. subst i. simplify_eq. done. }
  assert (Howner : ∀ k, k ∈ md_owners j → k.1 = id → k = (id, rt_listener_generation old)).
  { intros [i g] Hin Hi. cbn in Hi. subst i. destruct (owner_current fs j _ Hm Hin) as (path & s1 & rt & Hs1 & Hrt & Hg & _).
    cbn in *. simplify_eq. done. }
  split; [done| | | |].
  - intros k s1 Hs1. destruct (decide (k = id)) as [->|Hne].
    + assert (s1 = s') as -> by congruence. split; [intros rt; congruence|]. intros rt Hin.
      destruct (Hrs rt Hin) as [Hin'|Hg]; [specialize (Hkr rt Hin'); lia|lia].
    + rewrite Hframe in Hs1 by done. by eapply (mi_keys _ _ _ _ Hm).
  - eapply Forall2_strengthen.
    { apply (Hlive (λ k l, serves_at p (md_registry j) k l ∨ (k = (id, rt_listener_generation new) ∧ l = lg))).
      apply Forall2_app; [|constructor; [by right|constructor]].
      eapply Forall2_impl; [exact (mi_live _ _ _ _ Hm)|]. by left. }
    cbn. intros k l Hin [Hsv|[-> ->]] _; [|by exists (rt_socket_path new)].
    apply Hown in Hin as [Hin Hne].
    destruct (decide (k.1 = id)) as [Hid|Hid]; [|eapply same_serves; [|exact Hsv]; by apply Hframe].
    apply elem_of_app in Hin as [Hin| ->%list_elem_of_singleton]; [by destruct (Hne (Howner k Hin Hid))|].
    destruct Hsv as (path & (s1 & rt & Hs1 & Hrt & Hg & _) & _). cbn in *. simplify_eq. lia.
  - intros k Hin Hreg. destruct (decide (k.1 = id)) as [Hid|Hid].
    + apply registered_true in Hreg as [(path & Hc)|]; [|done]. pose proof (Honly k path Hid Hc) as ->.
      destruct (Hret _ Hin) as [Hin'|Heq].
      * destruct (mi_retired _ _ _ _ Hm _ Hin') as (s1 & rt & Hs1 & Hin1 & Hg). cbn in *. simplify_eq.
        specialize (Hkr rt Hin1). lia.
      * injection Heq as Heq. lia.
    + destruct (Hret _ Hin) as [Hin'| ->]; [|done].
      apply (same_retired (md_registry j)); [by apply Hframe|by apply (mi_retired _ _ _ _ Hm)].
  - intros k path Hc. rewrite Hend. destruct (decide (k.1 = id)) as [Hid|Hid].
    + left. pose proof (Honly k path Hid Hc) as ->. apply Hown. split; [set_solver|]. intros [= Heq]. lia.
    + apply (same_current (md_registry j)) in Hc; [|by apply Hframe].
      destruct (mi_current _ _ _ _ Hm k path Hc) as [Hin|]; [left|by right]. apply Hown.
      split; [set_solver|]. by intros ->.
Qed.

Lemma managed_reload_inv fs j env id :
  minv p fs0 fs j → op_names (MReload env id) →
  ∃ j' fs', runs p fs (managed_reload mgr env id j) j' fs' ∧ minv p fs0 fs' j' ∧ md_ended j' = md_ended j.
Proof using Type*.
  intros Hm Hnames. unfold managed_reload.
  pose proof (reload_starts_spec mgr env id (md_registry j) (md_metrics j) (mi_keys _ _ _ _ Hm)) as Hspec. cbv zeta in Hspec.
  destruct (reload_starts mgr env id _ _) as [[old new]|].
  2:{ destruct (reload mgr (with_rebound true env) alone id _ _) as [[res r'] m'].
      destruct (shrinking_step p fs0 Hwf fs r' m' j Hm Hspec) as (j' & fs' & Hrun & Hm' & _ & _ & He). by eauto. }
  set (k := (id, rt_listener_generation new)).
  destruct (mv_session _ _ _ _ _ _ _ Hspec) as (s & s' & Hs & Hold & Hs' & Hnew & Hgnew & Hlt & _).
  destruct (mi_keys _ _ _ _ Hm id s Hs) as [Hkc Hkr]. pose proof (Hkc _ Hold) as Hgold.
  assert (Hk : k ∉ md_owners j ++ md_retired j).
  { intros [Hin|Hin]%elem_of_app.
    - destruct (owner_current fs j k Hm Hin) as (path & s1 & rt & Hs1 & Hrt & Hg & _). cbn in *. simplify_eq. lia.
    - destruct (mi_retired _ _ _ _ Hm k Hin) as (s1 & rt & Hs1 & Hin1 & Hg). cbn in *. simplify_eq.
      specialize (Hkr rt Hin1). lia. }
  destruct (bind_runtime_runs p fs0 Hwf fs j k (rt_socket_path new) (mi_guards _ _ _ _ Hm)
              (Hnames _ (mv_path _ _ _ _ _ _ _ Hspec)) Hk)
    as (o & j1 & fs1 & Hrun1 & Hg1 & Hr1 & Hm1 & He1 & Ht1 & Ho1 & Hl1 & Hname).
  destruct o as [lg|].
  - rewrite bool_decide_eq_true_2 in Hrun1 by done.
    destruct (retire_guard_runs p fs0 Hwf fs1 j1 (id, rt_listener_generation old) Hg1)
      as (j2 & fs2 & Hrun2 & Hg2 & Hr2 & Hm2 & He2 & Ho2 & Ht2 & Hl2).
    assert (Hready : ready p fs0 fs2 (reload mgr (with_rebound true env) alone id (md_registry j) (md_metrics j)).1.2 j2).
    { eapply (reload_ready fs j fs2 j2); [done|exact Hspec|intros i Hi; by apply reload_frame|done|congruence|by apply Hname| | |].
      - intros k'. rewrite Ho2, Ho1. done.
      - intros k' Hin. apply Ht2 in Hin. by rewrite Ht1 in Hin.
      - intros P HP. apply Hl2. by rewrite Ho1, Hl1. }
    rewrite Hr1, Hm1 in *.
    destruct (reload mgr (with_rebound true env) alone id (md_registry j) (md_metrics j)) as [[res r'] m'] eqn:Hrl.
    destruct (install_runs p fs0 Hwf fs2 r' m' j2 Hready) as (j' & fs' & Hrun & Hm' & _ & _ & He).
    exists j', fs'. split; [|split; [done|congruence]]. eapply runs_bind; [exact Hrun1|]. cbn.
    rewrite Hr1, Hm1, Hrl. eapply runs_bind; [exact Hrun2|exact Hrun].
  - rewrite bool_decide_eq_false_2 in Hrun1 by (by intros [? ?]).
    pose proof (reload_unbound_shrinks mgr env id (md_registry j) (md_metrics j)) as Hsh.
    destruct (reload mgr (with_rebound false env) alone id (md_registry j) (md_metrics j)) as [[res r'] m'] eqn:Hrl.
    destruct (minv_ready p fs0 fs r' j Hm Hsh) as [_ Rk Rl Rr Rc].
    destruct (install_runs p fs0 Hwf fs1 r' m' j1) as (j' & fs' & Hrun & Hm' & _ & _ & He).
    { cbn [option_list] in Hl1. rewrite app_nil_r in Hl1. split; rewrite ?Ho1, ?Hl1, ?Ht1, ?He1; done. }
    exists j', fs'. split; [|split; [done|congruence]]. eapply runs_bind; [exact Hrun1|]. cbn.
    rewrite Hr1, Hm1, Hrl. eapply runs_bind; [apply runs_ret|exact Hrun].
Qed.

(** The keys whose loop an operation ends. *)
Definition op_ends (op : managed_op) : gset runtime_key := match op with MLoopEnd k => {[k]} | _ => ∅ end.

Lemma managed_step_inv fs j op :
  minv p fs0 fs j → op_names op →
  ∃ j' fs', runs p fs (managed_step mgr op j) j' fs' ∧ minv p fs0 fs' j' ∧ md_ended j' = op_ends op ∪ md_ended j ∧
    (∀ drained, op = MShutdown drained → sr_sessions (md_registry j') = ∅).
Proof using Type*.
  intros Hm Hnames.
  assert (Hinstall : ∀ r metrics, shrinks (md_registry j) r →
    ∃ j' fs', runs p fs (install r metrics j) j' fs' ∧ minv p fs0 fs' j' ∧ md_ended j' = ∅ ∪ md_ended j ∧ md_registry j' = r).
  { intros r metrics Hsh. destruct (shrinking_step p fs0 Hwf fs r metrics j Hm Hsh) as (j' & fs' & ? & ? & ? & ? & He).
    exists j', fs'. rewrite union_empty_l_L. done. }
  destruct op as [env session secrets source|drained id|drained id|drained id g|finished|env id|drained|k]; cbn [managed_step op_ends].
  - destruct (managed_create_inv fs j env session secrets source Hm Hnames) as (j' & fs' & Hrun & Hm' & He).
    exists j', fs'. rewrite union_empty_l_L. done.
  - pose proof (finish_shrinks OpStop drained id (md_registry j) (md_metrics j)) as Hsh. unfold stop. cbn [begin_op] in Hsh.
    destruct (finish _ _ _ _) as [r' m']. destruct (Hinstall r' m' Hsh) as (j' & fs' & ? & ? & ? & _).
    exists j', fs'. by split_and!.
  - pose proof (finish_shrinks OpRemove drained id (md_registry j) (md_metrics j)) as Hsh. unfold remove. cbn [begin_op] in Hsh.
    destruct (finish _ _ _ _) as [r' m']. destruct (Hinstall r' m' Hsh) as (j' & fs' & ? & ? & ? & _).
    exists j', fs'. by split_and!.
  - pose proof (finish_shrinks (OpExit g) drained id (md_registry j) (md_metrics j)) as Hsh. unfold runtime_exit. cbn [begin_op] in Hsh.
    destruct (finish _ _ _ _) as [r' m']. destruct (Hinstall r' m' Hsh) as (j' & fs' & ? & ? & ? & _).
    exists j', fs'. by split_and!.
  - destruct (Hinstall _ (md_metrics j) (list_shrinks finished (md_registry j))) as (j' & fs' & ? & ? & ? & _).
    exists j', fs'. by split_and!.
  - destruct (managed_reload_inv fs j env id Hm Hnames) as (j' & fs' & Hrun & Hm' & He).
    exists j', fs'. rewrite union_empty_l_L. done.
  - pose proof (shutdown_empty drained (md_registry j) (md_metrics j)) as Hempty.
    destruct (shutdown_all _ _ _) as [r' m']. cbn in Hempty.
    destruct (Hinstall r' m') as (j' & fs' & ? & ? & ? & Hreg); [intros i s' Hs'; by rewrite Hempty in Hs'|].
    exists j', fs'. split_and!; try done. intros _ _. by rewrite Hreg.
  - destruct (end_runtime_runs p fs0 Hwf fs j true k (mi_guards _ _ _ _ Hm)) as (j1 & fs1 & Hrun & Hg & [R M E O T L]).
    do 2 eexists. split; [eapply runs_bind; [exact Hrun|apply runs_ret]|]. split; [|by rewrite E].
    destruct Hm as [_ Hk Hl Hr Hc]. split; cbn; rewrite ?R; [by destruct Hg|done|by apply L| |].
    + intros k' [Hin _]%T. by apply Hr.
    + intros k' path Hcur. rewrite E. destruct (decide (k' = k)) as [->|Hne]; [right; set_solver|].
      destruct (Hc k' path Hcur) as [Hin|Hin]; [left; by apply O|right; set_solver].
Qed.

Definition ended_by (ops : list managed_op) : gset runtime_key := ⋃ (op_ends <$> ops).

Lemma managed_run_inv ops : ∀ fs j,
  minv p fs0 fs j → Forall op_names ops →
  ∃ j' fs', runs p fs (managed_run mgr ops j) j' fs' ∧ minv p fs0 fs' j' ∧ md_ended j' = ended_by ops ∪ md_ended j ∧
    ∀ drained, last ops = Some (MShutdown drained) → sr_sessions (md_registry j') = ∅.
Proof using Type*.
  induction ops as [|op ops IH]; intros fs j Hm Hops; cbn [managed_run].
  { do 2 eexists. split; [apply runs_ret|]. split; [done|]. split; [|done]. unfold ended_by. cbn. by rewrite union_empty_l_L. }
  apply Forall_cons in Hops as [Hop Hops].
  destruct (managed_step_inv fs j op Hm Hop) as (j1 & fs1 & Hrun1 & Hm1 & He1 & Hs1).
  destruct (IH fs1 j1 Hm1 Hops) as (j2 & fs2 & Hrun2 & Hm2 & He2 & Hs2).
  exists j2, fs2. split; [by eapply runs_bind|]. split; [done|]. split.
  - rewrite He2, He1. unfold ended_by. cbn. clear. apply leibniz_equiv. set_solver.
  - intros drained Hl. destruct ops as [|op' ops']; [|by eapply Hs2].
    cbn in Hl, Hrun2. injection Hl as ->. destruct (Hrun2 []) as [tr Heq]. injection Heq as <- _ _. by eapply Hs1.
Qed.

Lemma minv_start : minv p fs0 fs0 managed_new.
Proof using Type*.
  assert (Hno : ∀ k path, ¬ current_at registry_new k path) by (intros k path (s & rt & Hs & _); done).
  split; [split; [by apply live_inv_start|done|done|constructor]|done|constructor|by intros k ?%elem_of_nil|].
  intros k path Hc. by destruct (Hno k path).
Qed.

(** The guard of the runtime [k]: its socket [i]. *)
Definition listens (j : managed) (k : runtime_key) (i : FileId) (g : UnixSocketGuard) : Prop :=
  ∃ index, md_owners j !! index = Some k ∧ ss_live (md_sockets j) !! index = Some (i, g).

Lemma live_listens fs j i g : minv p fs0 fs j → (i, g) ∈ ss_live (md_sockets j) ↔ ∃ k, listens j k i g.
Proof using Type.
  intros Hm. split.
  - intros [index Hi]%list_elem_of_lookup.
    destruct (Forall2_lookup_r _ _ _ _ _ (mi_live _ _ _ _ Hm) Hi) as (k & Hk & _). by exists k, index.
  - intros (k & index & _ & Hi). by eapply list_elem_of_lookup_2.
Qed.

Lemma listens_current fs j k i g : minv p fs0 fs j → listens j k i g → serves_at p (md_registry j) k (i, g).
Proof using Type.
  intros Hm (index & Hk & Hi). destruct (Forall2_lookup_l _ _ _ _ _ (mi_live _ _ _ _ Hm) Hk) as (lg & Hlg & Hs).
  congruence.
Qed.

Lemma no_sessions_no_guards fs j :
  minv p fs0 fs j → sr_sessions (md_registry j) = ∅ → ss_live (md_sockets j) = [] ∧ ss_retired (md_sockets j) = [].
Proof using Type.
  intros Hm He. pose proof (mi_guards _ _ _ _ Hm) as [_ Ho Hr _].
  assert (Hnone : ∀ k, k ∉ md_owners j ++ md_retired j).
  { intros k Hin. destruct (guard_session fs j k Hm Hin) as [s Hs]. by rewrite He in Hs. }
  split; apply length_zero_iff_nil.
  - rewrite <- Ho. destruct (md_owners j) as [|k l]; [done|]. destruct (Hnone k). by left.
  - rewrite <- Hr. destruct (md_retired j) as [|k l]; [done|]. destruct (Hnone k). apply elem_of_app. right. by left.
Qed.
End managed.

(** C10: the sockets in the file system are the sessions' own. When nobody else
    changes the directories and no call fails, after any sequence of creates,
    stops, reloads, exits and lists: the names there are exactly those of the
    start, one listening socket with mode 0600 for each current listener of a
    registered session, under its session's socket name, and the directories
    made for them; every session has its socket unless its accept loop ended by
    itself; and when the sessions are gone, as after a shutdown, no directory
    is leased, every name is as it was and every inode found at the start is
    unchanged. *)
Theorem managed_sockets_exact `{Crypto} mgr p fs0 ops tr :
  fs_wf fs0 → Forall (op_names mgr p) ops →
  let res := managed_run mgr ops managed_new (mkWorld p fs0 [] tr) in
  let j := res.1 in
  let fs := w_fs res.2 in
  (∀ d n i, entries_of fs d !! n = Some i ↔
     entries_of fs0 d !! n = Some i ∨
     (∃ k g, listens j k i g ∧ ug_parent g = d ∧ ug_name g = n) ∨
     (∃ rec, ss_registry (md_sockets j) !! i = Some rec ∧ dr_created_by_baffle rec = true ∧
        dr_parent rec = d ∧ dr_name rec = n)) ∧
  (∀ k i g, listens j k i g →
     (∃ path, current_at (md_registry j) k path ∧ file_name (absolute_path p path) = Some (ug_name g)) ∧
     fs_inodes fs !! i = Some (mkInode (Socket true) (p_euid p) 384)) ∧
  (∀ k path, current_at (md_registry j) k path → k ∉ ended_by ops → ∃ i g, listens j k i g) ∧
  (sr_sessions (md_registry j) = ∅ →
     ss_registry (md_sockets j) = ∅ ∧ (∀ d, entries_of fs d = entries_of fs0 d) ∧ fs_inodes fs0 ⊆ fs_inodes fs) ∧
  (∀ drained, last ops = Some (MShutdown drained) → sr_sessions (md_registry j) = ∅).
Proof.
  intros Hwf Hops.
  destruct (managed_run_inv mgr p fs0 Hwf ops fs0 _ (minv_start p fs0 Hwf) Hops) as (j & fs & Hrun & Hm & He & Hs).
  destruct (runs_world p _ _ _ _ tr Hrun) as (Heq & Hfs & _). cbv zeta. rewrite Heq, Hfs.
  destruct (live_inv_names p fs0 Hwf fs _ (go_live _ _ _ _ (mi_guards _ _ _ _ Hm))) as (Hn & Hk & _ & Hend).
  assert (Hnames : ∀ d n i, entries_of fs d !! n = Some i ↔
     entries_of fs0 d !! n = Some i ∨ (∃ k g, listens j k i g ∧ ug_parent g = d ∧ ug_name g = n) ∨
     (∃ rec, ss_registry (md_sockets j) !! i = Some rec ∧ dr_created_by_baffle rec = true ∧
        dr_parent rec = d ∧ dr_name rec = n)).
  { intros d n i. rewrite Hn. setoid_rewrite (live_listens p fs0 fs j i _ Hm). naive_solver. }
  split; [done|]. split; [|split; [|split; [|done]]].
  - intros k i g Hl. split; [by apply (listens_current p fs0 fs j k i g Hm)|]. apply (Hk i g).
    apply (live_listens p fs0 fs j i g Hm). by eauto.
  - intros k path Hc Hne. destruct (mi_current _ _ _ _ Hm k path Hc) as [Hin|Hin].
    + apply list_elem_of_lookup in Hin as [index Hi].
      destruct (Forall2_lookup_l _ _ _ _ _ (mi_live _ _ _ _ Hm) Hi) as ([i g] & Hlg & _). by exists i, g, index.
    + rewrite He in Hin. cbn in Hin. set_solver.
  - intros Hempty. destruct (no_sessions_no_guards p fs0 fs j Hm Hempty) as [Hl Hr].
    destruct (Hend Hl Hr) as [Hreg Hsub]. split; [done|]. split; [|done]. intros d. apply map_eq. intros n.
    apply option_eq. intros i. rewrite Hn, Hl, Hreg. split; [|by left].
    intros [?|[(g & Hin & _)|(rec & Hrec & _)]]; [done|by apply elem_of_nil in Hin|by rewrite lookup_empty in Hrec].
Qed.

(** ** An example: a session is created and the manager shut down *)

Definition managed_manager : SessionManager := mkSessionManager (lit "/run/baffle") 2.
Definition managed_create_op : managed_op := MCreate Registry.example_env example_session ∅ None.
Definition managed_ops : list managed_op := [managed_create_op; MShutdown (λ _, true)].

Lemma managed_sockets_exact_witness :
  let w := mkWorld example_process example_start [] [] in
  let created := @managed_run plain_crypto managed_manager [managed_create_op] managed_new w in
  let res := @managed_run plain_crypto managed_manager managed_ops managed_new w in
  length (ss_live (md_sockets created.1)) = 1 ∧ size (sr_sessions (md_registry created.1)) = 1 ∧
  ss_registry (md_sockets res.1) = ∅ ∧ fs_inodes example_start ⊆ fs_inodes (w_fs res.2).
Proof.
  split; [vm_compute; reflexivity|]. split; [vm_compute; reflexivity|].
  destruct (@managed_sockets_exact plain_crypto managed_manager example_process example_start managed_ops [])
    as (_ & _ & _ & Hend & Hlast).
  - exact example_start_wf.
  - apply Forall_cons_2; [|apply Forall_cons_2; [exact I|apply Forall_nil_2]].
    intros id_bytes path Hid Hpath name Hname. injection Hid as <-. vm_compute in Hpath. injection Hpath as <-.
    vm_compute in Hname. injection Hname as <-. vm_compute. reflexivity.
  - destruct (Hend (Hlast _ eq_refl)) as (Hreg & _ & Hsub). split; [exact Hreg|exact Hsub].
Defined.

(** A reload that renames the socket: the new one takes its place at once, the
    old guard goes with its retired listener when that is found finished. *)
Definition renamed_session : SessionConfig :=
  mkSessionConfig (sc_persistent example_session) (Some (lit "b.sock")) (sc_unmatched example_session)
    (sc_default_credential_mode example_session) (sc_credential_modes example_session) (sc_rules example_session).
Definition renaming_env : reload_env :=
  mkReloadEnv (λ _, false) (Some (λ _, Ok renamed_session)) (λ _, Some ∅) None (λ _, true) false true.
Definition managed_id : str := session_id_of (replicate 16 "z").
Definition renaming_ops : list managed_op :=
  [MCreate Registry.example_env example_session ∅ (Some (lit "web")); MReload renaming_env managed_id].
Definition socket_names (j : managed) : list str := (λ lg, ug_name lg.2) <$> ss_live (md_sockets j).

Example renaming_moves :
  let j := (@managed_run plain_crypto managed_manager renaming_ops managed_new (mkWorld example_process example_start [] [])).1 in
  md_owners j = [(managed_id, 2%N)] ∧ md_retired j = [(managed_id, 1%N)] ∧ socket_names j = [lit "b.sock"].
Proof. vm_compute. repeat split. Qed.

Example renaming_drains :
  let j := (@managed_run plain_crypto managed_manager (renaming_ops ++ [MList (λ _, true)]) managed_new
              (mkWorld example_process example_start [] [])).1 in
  md_owners j = [(managed_id, 2%N)] ∧ md_retired j = [] ∧ length (ss_retired (md_sockets j)) = 0.
Proof. vm_compute. repeat split. Qed.
