(* ===== verification/FileConfig.v ===== *)
(** Session files and their imports (src/control/file_config.rs).

    A session file may import others below the same directory. The model reads
    files through descriptor-relative opens, whose answers are the
    environment's, and composes the import graph as the source does. The
    recursion carries fuel; the depth limit makes 33 levels enough, which is a
    theorem. The [toml] crate is an interface. *)

From S2P Require Import Prelude RustStr BTree PolicyTypes UrlPath DnsName Identifiers SessionDoc Secrets.
From stdpp Require Import options.
Local Open Scope char_scope.

Definition MAX_SESSION_CONFIG_BYTES : N := 256 * 1024.
Definition MAX_SESSION_IMPORT_DEPTH : nat := 32.
Definition MAX_SESSION_IMPORT_FILES : nat := 128.

(** ** Errors: one constructor per message *)

Inductive SessionConfigFileErrorKind := KindNotFound | KindUnavailable | KindInvalid.

Inductive file_error :=
| FileNotFound (name : str)
| FileUnavailable (name : str)
| FileTooLarge (name : str)
| FileNotUtf8 (name : str)
| FileBadComponent (name : str)
| FileEmptyPath (name : str)
| FileToml (name : str)
| FileNotTable (name : str)
| FileLifecycleFields (name : str)
| FileImportsType (name : str)
| FileImportsValue (name : str)
| FileImportName (name : str)
| FileDecode (name : str)
| FilePolicy (name : str) (e : session_config_error)
| FileUnmatchedConflict (name : str)
| FileDefaultModeConflict (name : str)
| FileModeConflict (secret : str)
| FileHostDuplicate (host : str)
| FileRootUnmatchedConflict
| FileRootModeConflict
| FileCycle (name : str)
| FileDepth
| FileCount
| FileNoRoot.

Definition file_error_kind (e : file_error) : SessionConfigFileErrorKind :=
  match e with
  | FileNotFound _ => KindNotFound
  | FileUnavailable _ => KindUnavailable
  | _ => KindInvalid
  end.

Definition create_code (e : file_error) : str :=
  match file_error_kind e with
  | KindNotFound => lit "config_file_not_found"
  | KindUnavailable => lit "config_file_unavailable"
  | KindInvalid => lit "config_file_invalid"
  end.

Definition reload_reason (e : file_error) : str :=
  match file_error_kind e with
  | KindNotFound => lit "configuration_not_found"
  | KindUnavailable => lit "configuration_unavailable"
  | KindInvalid => lit "configuration_invalid"
  end.

(** ** Import names *)

(** The loop over the import's components; [components] are the importing
    file's directory, innermost last. *)
Fixpoint resolve_components (components : list str) (import : list str) : option (list str) :=
  match import with
  | [] => Some components
  | component :: rest =>
      if str_eqb component [] then None
      else if str_eqb component (lit ".") then resolve_components components rest
      else if str_eqb component (lit "..") then
        match components with
        | [] => None
        | _ => resolve_components (removelast components) rest
        end
      else resolve_components (components ++ [component]) rest
  end.

Definition resolve_import_name (importing_name import : str) : result file_error str :=
  if str_eqb import [] || (MAX_SESSION_CONFIG_NAME_BYTES <? length import)%nat
     || starts_with ["/"] import || contains_any ["\"; ":"] import || has_control_char import
  then Err (FileImportName importing_name)
  else
    let components :=
      match rsplit_once "/" importing_name with
      | Some (parent, _) => split "/" parent
      | None => []
      end in
    components ← ok_or (resolve_components components (split "/" import)) (FileImportName importing_name);
    let name := join ["/"] components in
    if validate_session_config_name name then Ok name else Err (FileImportName importing_name).

(** ** Metadata checks *)

Definition trusted_owner (owner_uid trusted_uid : N) : bool :=
  (owner_uid =? trusted_uid)%N || (owner_uid =? 0)%N.

Definition validate_config_directory_metadata (metadata : Metadata) (trusted_uid : N)
    (allow_sticky_parent : bool) : bool :=
  if negb (bool_decide (md_kind metadata = Directory)) || negb (trusted_owner (md_uid metadata) trusted_uid)
  then false
  else
    let mode := md_mode metadata in
    let sticky_parent := allow_sticky_parent && mode_has mode 512 in
    if mode_has mode 18 && negb sticky_parent then false
    else if (md_uid metadata =? trusted_uid)%N then mode_has mode 64 else mode_has mode 73.

Definition session_file_ok (metadata : Metadata) (trusted_uid : N) : bool :=
  bool_decide (md_kind metadata = Regular) && trusted_owner (md_uid metadata) trusted_uid
  && negb (mode_has (md_mode metadata) 3602) && mode_has (md_mode metadata) 292.

(** ** The environment *)

(** The operating system's answers: duplicating a descriptor, opening one component relative to a
    directory without following links ([Err true] is "not found"), [fstat] and
    reading a descriptor to the end. Descriptors are abstract. *)
Class ConfigFs (Fd : Type) := {
  open_root : option Fd;
  fd_clone : Fd → option Fd;
  openat_dir : Fd → str → result bool Fd;
  openat_file : Fd → str → result bool Fd;
  fd_metadata : Fd → option Metadata;
  fd_read : Fd → option str;
}.

Inductive toml_value :=
| TomlString (s : str)
| TomlInteger (z : Z)
| TomlFloat (s : str)
| TomlBoolean (b : bool)
| TomlDatetime (s : str)
| TomlArray (l : list toml_value)
| TomlTable (fields : list (str * toml_value)).

(** The [toml] crate: parsing to a value, printing a value, and
    deserialisation of a session document. *)
Class Toml := {
  toml_from_str : str → option toml_value;
  toml_to_string : toml_value → option str;
  toml_session : str → option RawSessionConfig;
}.

Definition table_get (key : str) (fields : list (str * toml_value)) : option toml_value :=
  snd <$> find (λ kv, str_eqb kv.1 key) fields.
Definition contains_key (key : str) (fields : list (str * toml_value)) : bool :=
  bool_decide (is_Some (table_get key fields)).
Definition table_remove (key : str) (fields : list (str * toml_value)) : list (str * toml_value) :=
  filter (λ kv, kv.1 ≠ key) fields.

(** ** The composition *)

Record RootSettings := mkRootSettings {
  rs_persistent : bool;
  rs_socket_name : option str;
}.

Record Composition := mkComposition {
  co_stack : list str;
  co_loaded : gset str;
  co_hosts : gset str;
  co_rules : list HostRule;
  co_imported_unmatched : option UnmatchedHostPolicy;
  co_root_unmatched : option UnmatchedHostPolicy;
  co_imported_credential_default : option CredentialMode;
  co_root_credential_default : option CredentialMode;
  co_credential_modes : gmap str CredentialMode;
  co_root : option RootSettings;
}.

Definition composition_default : Composition :=
  mkComposition [] ∅ ∅ [] None None None None ∅ None.

Definition set_stack (stack : list str) (c : Composition) : Composition :=
  mkComposition stack (co_loaded c) (co_hosts c) (co_rules c) (co_imported_unmatched c) (co_root_unmatched c)
    (co_imported_credential_default c) (co_root_credential_default c) (co_credential_modes c) (co_root c).
Definition set_loaded (loaded : gset str) (c : Composition) : Composition :=
  mkComposition (co_stack c) loaded (co_hosts c) (co_rules c) (co_imported_unmatched c) (co_root_unmatched c)
    (co_imported_credential_default c) (co_root_credential_default c) (co_credential_modes c) (co_root c).

(** The setting a file makes explicitly against the one already recorded. *)
Definition agree {A} `{EqDecision A} (current : option A) (value : A) (e : file_error)
    : result file_error (option A) :=
  match current with
  | Some c => if bool_decide (c = value) then Ok (Some value) else Err e
  | None => Ok (Some value)
  end.

Definition merge_unmatched (name : str) (is_root explicit : bool) (unmatched : UnmatchedHostPolicy)
    (c : Composition) : result file_error Composition :=
  if explicit then
    current ← agree (if is_root then co_root_unmatched c else co_imported_unmatched c) unmatched
                (FileUnmatchedConflict name);
    Ok (mkComposition (co_stack c) (co_loaded c) (co_hosts c) (co_rules c)
          (if is_root then co_imported_unmatched c else current)
          (if is_root then current else co_root_unmatched c)
          (co_imported_credential_default c) (co_root_credential_default c) (co_credential_modes c) (co_root c))
  else Ok c.

Definition merge_default_mode (name : str) (is_root : bool) (mode : option CredentialMode)
    (c : Composition) : result file_error Composition :=
  match mode with
  | Some mode =>
      current ← agree (if is_root then co_root_credential_default c else co_imported_credential_default c) mode
                  (FileDefaultModeConflict name);
      Ok (mkComposition (co_stack c) (co_loaded c) (co_hosts c) (co_rules c)
            (co_imported_unmatched c) (co_root_unmatched c)
            (if is_root then co_imported_credential_default c else current)
            (if is_root then current else co_root_credential_default c)
            (co_credential_modes c) (co_root c))
  | None => Ok c
  end.

(** The loop over [policy.credential_modes]. *)
Fixpoint merge_modes (modes : gmap str CredentialMode) (l : list (str * CredentialMode))
    : result file_error (gmap str CredentialMode) :=
  match l with
  | [] => Ok modes
  | (secret, mode) :: rest =>
      match modes !! secret with
      | Some existing =>
          if bool_decide (existing = mode) then merge_modes (<[secret := mode]> modes) rest
          else Err (FileModeConflict secret)
      | None => merge_modes (<[secret := mode]> modes) rest
      end
  end.

(** The loop over [policy.rules]. *)
Fixpoint merge_rules (hosts : gset str) (rules : list HostRule) (l : list HostRule)
    : result file_error (gset str * list HostRule) :=
  match l with
  | [] => Ok (hosts, rules)
  | rule :: rest =>
      if bool_decide (hr_host rule ∈ hosts) then Err (FileHostDuplicate (hr_host rule))
      else merge_rules ({[hr_host rule]} ∪ hosts) (rules ++ [rule]) rest
  end.

(** The checks and assignments made for the root file. *)
Definition merge_root (policy : SessionConfig) (c : Composition) : result file_error Composition :=
  let root_unmatched := default unmatched_default (co_root_unmatched c) in
  let root_credential_mode := default Inject (co_root_credential_default c) in
  if bool_decide (is_Some (co_imported_unmatched c) ∧ co_imported_unmatched c ≠ Some root_unmatched)
  then Err FileRootUnmatchedConflict
  else if bool_decide (is_Some (co_imported_credential_default c)
                       ∧ co_imported_credential_default c ≠ Some root_credential_mode)
  then Err FileRootModeConflict
  else Ok (mkComposition (co_stack c) (co_loaded c) (co_hosts c) (co_rules c)
             (co_imported_unmatched c) (co_root_unmatched c)
             (co_imported_credential_default c) (co_root_credential_default c) (co_credential_modes c)
             (Some (mkRootSettings (sc_persistent policy) (sc_socket_name policy)))).

(** What [compose_file_contents] does with the decoded policy of one file. *)
Definition merge_policy (name : str) (is_root explicit_unmatched : bool) (policy : SessionConfig)
    (c : Composition) : result file_error Composition :=
  c ← merge_unmatched name is_root explicit_unmatched (sc_unmatched policy) c;
  c ← merge_default_mode name is_root (sc_default_credential_mode policy) c;
  modes ← merge_modes (co_credential_modes c) (btree_iter (sc_credential_modes policy));
  '(hosts, rules) ← merge_rules (co_hosts c) (co_rules c) (sc_rules policy);
  let c := mkComposition (co_stack c) (co_loaded c) hosts rules
             (co_imported_unmatched c) (co_root_unmatched c)
             (co_imported_credential_default c) (co_root_credential_default c) modes (co_root c) in
  if is_root then merge_root policy c else Ok c.

(** ** Reading and composing files *)

(** The elements of [imports]. *)
Fixpoint import_strings (name : str) (l : list toml_value) : result file_error (list str) :=
  match l with
  | [] => Ok []
  | TomlString s :: rest => rest ← import_strings name rest; Ok (s :: rest)
  | _ :: _ => Err (FileImportsValue name)
  end.

(** A computation with fuel: [None] is "out of fuel". *)
Definition fueled (A : Type) := option (result file_error A).
Definition fbind {A B} (m : fueled A) (f : A → fueled B) : fueled B :=
  match m with
  | None => None
  | Some (Err e) => Some (Err e)
  | Some (Ok a) => f a
  end.

Arguments fbind : simpl never.

Record SessionConfigStore (Fd : Type) := mkSessionConfigStore {
  st_directory : Fd;
  st_trusted_uid : N;
}.
Arguments mkSessionConfigStore {Fd}.
Arguments st_directory {Fd}.
Arguments st_trusted_uid {Fd}.

Section file_config.
Context {Fd : Type} `{!ConfigFs Fd} `{!Toml} `{!UrlHost}.

Definition classify_config_file_io {A} (name : str) (r : result bool A) : result file_error A :=
  map_err (λ not_found : bool, if not_found then FileNotFound name else FileUnavailable name) r.

(** The last component: the file is opened, checked and read. *)
Definition read_file (trusted_uid : N) (name : str) (directory : Fd) (component : str)
    : result file_error str :=
  file ← classify_config_file_io name (openat_file directory component);
  metadata ← ok_or (fd_metadata file) (FileUnavailable name);
  if negb (session_file_ok metadata trusted_uid) then Err (FileUnavailable name)
  else if (MAX_SESSION_CONFIG_BYTES <? md_len metadata)%N then Err (FileTooLarge name)
  else
    content ← ok_or (fd_read file) (FileUnavailable name);
    let bytes := take (N.to_nat (MAX_SESSION_CONFIG_BYTES + 1)) content in
    if (MAX_SESSION_CONFIG_BYTES <? N.of_nat (length bytes))%N then Err (FileTooLarge name)
    else if from_utf8 bytes then Ok bytes else Err (FileNotUtf8 name).

(** The loop over the components of the name. *)
Fixpoint read_components (trusted_uid : N) (name : str) (directory : Fd) (components : list str)
    : result file_error str :=
  match components with
  | [] => Err (FileEmptyPath name)
  | component :: rest =>
      if contains_char "000" component then Err (FileBadComponent name)
      else
        match rest with
        | [] => read_file trusted_uid name directory component
        | _ =>
            directory ← classify_config_file_io name (openat_dir directory component);
            metadata ← ok_or (fd_metadata directory) (FileUnavailable name);
            if validate_config_directory_metadata metadata trusted_uid false
            then read_components trusted_uid name directory rest
            else Err (FileUnavailable name)
        end
  end.

Definition read_snapshot (self : SessionConfigStore Fd) (name : str) : result file_error str :=
  directory ← ok_or (fd_clone (st_directory self)) (FileUnavailable name);
  read_components (st_trusted_uid self) name directory (split "/" name).

(** The first part of [compose_file_contents]: the file's imports and its
    document without them. *)
Definition parse_file (self : SessionConfigStore Fd) (name : str) (is_root : bool)
    : result file_error (list str * list (str * toml_value)) :=
  text ← read_snapshot self name;
  document ← ok_or (toml_from_str text) (FileToml name);
  match document with
  | TomlTable table =>
      if negb is_root && (contains_key (lit "persistent") table || contains_key (lit "socket_name") table)
      then Err (FileLifecycleFields name)
      else
        imports ← match table_get (lit "imports") table with
                  | None => Ok []
                  | Some (TomlArray imports) => import_strings name imports
                  | Some _ => Err (FileImportsType name)
                  end;
        Ok (imports, table_remove (lit "imports") table)
  | _ => Err (FileNotTable name)
  end.

(** The document decoded as a session policy. *)
Definition decode_policy (name : str) (table : list (str * toml_value)) : result file_error SessionConfig :=
  policy_text ← ok_or (toml_to_string (TomlTable table)) (FileDecode name);
  map_err (FilePolicy name) (session_config_from_toml toml_session policy_text).

(** The loop over the imports; [compose] is [compose_file]. *)
Fixpoint compose_imports (compose : str → Composition → fueled Composition) (name : str)
    (imports : list str) (c : Composition) : fueled Composition :=
  match imports with
  | [] => Some (Ok c)
  | import :: rest =>
      fbind (Some (resolve_import_name name import)) (λ imported_name,
      fbind (compose imported_name c) (λ c, compose_imports compose name rest c))
  end.

Definition compose_file_contents (compose : str → Composition → fueled Composition)
    (self : SessionConfigStore Fd) (name : str) (is_root : bool) (c : Composition) : fueled Composition :=
  fbind (Some (parse_file self name is_root)) (λ '(imports, table),
  fbind (compose_imports compose name imports c) (λ c,
  fbind (Some (decode_policy name table)) (λ policy,
  Some (merge_policy name is_root (contains_key (lit "unmatched") table) policy c)))).

Fixpoint compose_file (fuel : nat) (self : SessionConfigStore Fd) (name : str) (is_root : bool)
    (c : Composition) : fueled Composition :=
  match fuel with
  | 0 => None
  | S fuel =>
      if existsb (str_eqb name) (co_stack c) then Some (Err (FileCycle name))
      else if bool_decide (name ∈ co_loaded c) then Some (Ok c)
      else if (MAX_SESSION_IMPORT_DEPTH <=? length (co_stack c))%nat then Some (Err FileDepth)
      else if (MAX_SESSION_IMPORT_FILES <=? length (co_stack c) + size (co_loaded c))%nat
      then Some (Err FileCount)
      else
        let c := set_stack (co_stack c ++ [name]) c in
        fbind (compose_file_contents (λ imported_name, compose_file fuel self imported_name false)
                 self name is_root c) (λ c,
        Some (Ok (set_loaded ({[name]} ∪ co_loaded c) (set_stack (removelast (co_stack c)) c))))
  end.

(** One more level than the depth limit; [compose_file_enough_fuel] below. *)
Definition compose_fuel : nat := S MAX_SESSION_IMPORT_DEPTH.

Definition read_session (self : SessionConfigStore Fd) (name : str) : fueled SessionConfig :=
  fbind (compose_file compose_fuel self name true composition_default) (λ c,
  Some (match co_root c with
        | None => Err FileNoRoot
        | Some root =>
            Ok (mkSessionConfig (rs_persistent root) (rs_socket_name root)
                  (default unmatched_default (co_root_unmatched c)) (co_root_credential_default c)
                  (co_credential_modes c) (co_rules c))
        end)).

(** ** Opening the directory at start-up *)

Inductive path_component := RootDir | ParentDir | Normal (c : str).

(** [Path::components] of an absolute path: repeated separators and [.] are
    dropped, [..] is kept. *)
Definition absolute_components (path : str) : list path_component :=
  RootDir ::
  ((λ c, if str_eqb c (lit "..") then ParentDir else Normal c) <$>
   filter (λ c, c ≠ [] ∧ c ≠ lit ".") (split "/" path)).

Inductive open_error :=
| OpenNotAbsolute | OpenRootFailed | OpenPathInvalid | OpenIsRoot | OpenFailed | OpenStat | OpenUnsafe.

(** The [filter_map] and [collect] over the components. *)
Fixpoint normal_components (l : list path_component) : option (list str) :=
  match l with
  | [] => Some []
  | RootDir :: rest => normal_components rest
  | Normal c :: rest => cons c <$> normal_components rest
  | ParentDir :: _ => None
  end.

Fixpoint open_tree (trusted_uid : N) (directory : Fd) (components : list str) : result open_error Fd :=
  match components with
  | [] => Ok directory
  | component :: rest =>
      if contains_char "000" component then Err OpenPathInvalid
      else
        directory ← map_err (λ _, OpenFailed) (openat_dir directory component);
        metadata ← ok_or (fd_metadata directory) OpenStat;
        if validate_config_directory_metadata metadata trusted_uid (negb (bool_decide (rest = [])))
        then open_tree trusted_uid directory rest
        else Err OpenUnsafe
  end.

Definition open_trusted_directory_tree (path : str) (trusted_uid : N) : result open_error Fd :=
  if negb (starts_with ["/"] path) then Err OpenNotAbsolute
  else
    directory ← ok_or open_root OpenRootFailed;
    components ← ok_or (normal_components (absolute_components path)) OpenPathInvalid;
    if bool_decide (components = []) then Err OpenIsRoot
    else open_tree trusted_uid directory components.

(** [SessionConfigStore::open], after [normalize_system_path]. *)
Definition store_open (normalized_directory : str) (trusted_uid : N)
    : result open_error (SessionConfigStore Fd) :=
  directory ← open_trusted_directory_tree normalized_directory trusted_uid;
  Ok (mkSessionConfigStore directory trusted_uid).
End file_config.

(** ** Fuel *)

Lemma fbind_Ok {A B} (m : fueled A) (f : A → fueled B) b :
  fbind m f = Some (Ok b) ↔ ∃ a, m = Some (Ok a) ∧ f a = Some (Ok b).
Proof. destruct m as [[a|e]|]; cbn; naive_solver. Qed.

Lemma fbind_total {A B} (m : fueled A) (f : A → fueled B) :
  is_Some m → (∀ a, m = Some (Ok a) → is_Some (f a)) → is_Some (fbind m f).
Proof. intros [[a|e] ->] Hf; cbn; eauto. Qed.

(** Taking apart a composed computation that succeeded. *)
Ltac fuel_inv :=
  repeat match goal with
  | H : fbind _ _ = Some (Ok _) |- _ => apply fbind_Ok in H as (? & ? & ?)
  | H : Some _ = Some _ |- _ => injection H as H
  | H : Some _ = None |- _ => discriminate H
  | H : None = Some _ |- _ => discriminate H
  end; simplify_eq.

Lemma agree_Ok {A} `{EqDecision A} (current : option A) value e res :
  agree current value e = Ok res → res = Some value ∧ ∀ c, current = Some c → c = value.
Proof. unfold agree. destruct current; [case_bool_decide|]; naive_solver. Qed.

Lemma resolve_import_name_valid importing import name :
  resolve_import_name importing import = Ok name → validate_session_config_name name = true.
Proof. unfold resolve_import_name. intros Hr. res_inv. done. Qed.

(** ** Merging one file *)

Lemma merge_modes_Ok modes l res :
  merge_modes modes l = Ok res →
  ∀ s m, res !! s = Some m ↔ modes !! s = Some m ∨ (s, m) ∈ l.
Proof.
  revert modes. induction l as [|[k v] l IH]; intros modes Hm s m; cbn in Hm.
  { simplify_eq. set_solver. }
  assert (merge_modes (<[k := v]> modes) l = Ok res ∧ ∀ w, modes !! k = Some w → w = v) as [Hr Hk].
  { destruct (modes !! k); [case_bool_decide|]; naive_solver. }
  rewrite (IH _ Hr), elem_of_cons, lookup_insert_Some. split.
  - intros [[[<- <-]|[_ ?]]|?]; auto.
  - intros [Hs|[[= -> ->]|?]]; auto. destruct (decide (k = s)) as [->|]; [|by auto].
    left; left. by rewrite (Hk m Hs).
Qed.

Lemma merge_rules_Ok hosts rules l hosts' rules' :
  merge_rules hosts rules l = Ok (hosts', rules') →
  rules' = rules ++ l ∧ hosts' = list_to_set (hr_host <$> l) ∪ hosts ∧
  NoDup (hr_host <$> l) ∧ ∀ r, r ∈ l → hr_host r ∉ hosts.
Proof.
  revert hosts rules. induction l as [|r l IH]; intros hosts rules Hm; cbn in Hm.
  { simplify_eq. cbn. split_and!; [by rewrite app_nil_r|set_solver|constructor|set_solver]. }
  case_bool_decide as Hin; [done|]. apply IH in Hm as (-> & -> & Hnd & Hd). cbn.
  split_and!; [by rewrite <-app_assoc|set_solver| |set_solver].
  apply NoDup_cons. split; [|done]. intros (x & Hx & Hxl)%list_elem_of_fmap.
  apply Hd in Hxl. set_solver.
Qed.

(** What merging a file does to each group of fields; [u] and [d] are the
    fields for the file's explicit settings, before and after. *)
Record merged (explicit : bool) (policy : SessionConfig) (c c' : Composition)
    (u u' : option UnmatchedHostPolicy) (d d' : option CredentialMode) : Prop := {
  mg_stack : co_stack c' = co_stack c;
  mg_loaded : co_loaded c' = co_loaded c;
  mg_rules : co_rules c' = co_rules c ++ sc_rules policy;
  mg_hosts : co_hosts c' = list_to_set (hr_host <$> sc_rules policy) ∪ co_hosts c;
  mg_nodup : NoDup (hr_host <$> sc_rules policy);
  mg_disjoint : ∀ r, r ∈ sc_rules policy → hr_host r ∉ co_hosts c;
  mg_modes : ∀ s m, co_credential_modes c' !! s = Some m ↔
    co_credential_modes c !! s = Some m ∨ sc_credential_modes policy !! s = Some m;
  mg_unmatched : u' = (if explicit then Some (sc_unmatched policy) else u);
  mg_unmatched_agree : explicit = true → ∀ v, u = Some v → v = sc_unmatched policy;
  mg_default : d' = match sc_default_credential_mode policy with Some m => Some m | None => d end;
  mg_default_agree : ∀ v w, d = Some v → sc_default_credential_mode policy = Some w → v = w;
}.

Lemma merge_settings_Ok name is_root explicit policy c c1 c2 :
  merge_unmatched name is_root explicit (sc_unmatched policy) c = Ok c1 →
  merge_default_mode name is_root (sc_default_credential_mode policy) c1 = Ok c2 →
  co_stack c2 = co_stack c ∧ co_loaded c2 = co_loaded c ∧ co_rules c2 = co_rules c ∧
  co_hosts c2 = co_hosts c ∧ co_credential_modes c2 = co_credential_modes c ∧ co_root c2 = co_root c ∧
  (if is_root then co_imported_unmatched c2 = co_imported_unmatched c ∧
     co_imported_credential_default c2 = co_imported_credential_default c
   else co_root_unmatched c2 = co_root_unmatched c ∧
     co_root_credential_default c2 = co_root_credential_default c).
Proof.
  unfold merge_unmatched, merge_default_mode. intros H1 H2.
  destruct explicit, (sc_default_credential_mode policy), is_root; res_inv; done.
Qed.

Lemma merge_policy_split name is_root explicit policy c c' :
  merge_policy name is_root explicit policy c = Ok c' →
  ∃ c1, merged explicit policy c c1
      (if is_root then co_root_unmatched c else co_imported_unmatched c)
      (if is_root then co_root_unmatched c1 else co_imported_unmatched c1)
      (if is_root then co_root_credential_default c else co_imported_credential_default c)
      (if is_root then co_root_credential_default c1 else co_imported_credential_default c1) ∧
    co_root c1 = co_root c ∧
    (if is_root then co_imported_unmatched c1 = co_imported_unmatched c ∧
       co_imported_credential_default c1 = co_imported_credential_default c ∧ merge_root policy c1 = Ok c'
     else co_root_unmatched c1 = co_root_unmatched c ∧
       co_root_credential_default c1 = co_root_credential_default c ∧ c' = c1).
Proof.
  unfold merge_policy. intros Hm.
  apply bind_Ok_inv in Hm as (c1 & Hu & Hm). apply bind_Ok_inv in Hm as (c2 & Hd & Hm).
  apply bind_Ok_inv in Hm as (modes & Hmodes & Hm). apply bind_Ok_inv in Hm as ([hosts rules] & Hrules & Hm).
  destruct (merge_settings_Ok _ _ _ _ _ _ _ Hu Hd) as (Hst & Hl & Hr & Hh & Hcm & Hroot & Hside).
  apply merge_rules_Ok in Hrules as (-> & -> & Hnd & Hdis).
  exists (mkComposition (co_stack c2) (co_loaded c2) (list_to_set (hr_host <$> sc_rules policy) ∪ co_hosts c2)
            (co_rules c2 ++ sc_rules policy) (co_imported_unmatched c2) (co_root_unmatched c2)
            (co_imported_credential_default c2) (co_root_credential_default c2) modes (co_root c2)). split; [|split; [|destruct is_root]].
  - constructor; cbn; [exact Hst|exact Hl|by rewrite Hr|by rewrite Hh|exact Hnd|by rewrite <-Hh| | | | | ].
    + intros s m. rewrite (merge_modes_Ok _ _ _ Hmodes), Hcm. by rewrite btree_iter_elem.
    + unfold merge_unmatched, merge_default_mode in *.
      destruct explicit, (sc_default_credential_mode policy), is_root; res_inv; cbn;
        repeat match goal with H : agree _ _ _ = Ok _ |- _ => apply agree_Ok in H as [-> _] end; done.
    + intros ->. unfold merge_unmatched in Hu. destruct is_root; res_inv;
        match goal with H : agree _ _ _ = Ok _ |- _ => by apply agree_Ok in H as [_ ?] end.
    + unfold merge_unmatched, merge_default_mode in *.
      destruct explicit, (sc_default_credential_mode policy), is_root; res_inv; cbn;
        repeat match goal with H : agree _ _ _ = Ok _ |- _ => apply agree_Ok in H as [-> _] end; done.
    + intros v w Hv Hw. unfold merge_unmatched, merge_default_mode in *. rewrite Hw in Hd.
      destruct explicit, is_root; res_inv; cbn in *;
        match goal with H : agree _ w _ = Ok _ |- _ => apply agree_Ok in H as [_ H]; by apply H end.
  - exact Hroot.
  - cbn. destruct Hside as [H1 H2]. split_and!; [exact H1|exact H2|exact Hm].
  - cbn. destruct Hside as [H1 H2]. simplify_eq. done.
Qed.

Lemma merge_root_Ok policy c c' :
  merge_root policy c = Ok c' →
  (∀ u, co_imported_unmatched c = Some u → u = default unmatched_default (co_root_unmatched c)) ∧
  (∀ d, co_imported_credential_default c = Some d → d = default Inject (co_root_credential_default c)) ∧
  c' = mkComposition (co_stack c) (co_loaded c) (co_hosts c) (co_rules c)
         (co_imported_unmatched c) (co_root_unmatched c)
         (co_imported_credential_default c) (co_root_credential_default c) (co_credential_modes c)
         (Some (mkRootSettings (sc_persistent policy) (sc_socket_name policy))).
Proof.
  unfold merge_root. intros Hm. res_inv. bool_prop. split_and!; [| |done].
  - intros u Hu. rewrite Hu in *. destruct (decide (u = default unmatched_default (co_root_unmatched c)));
      [done|]. match goal with H : ¬ (_ ∧ Some u ≠ _) |- _ => destruct H; split; [done|congruence] end.
  - intros d Hd. rewrite Hd in *. destruct (decide (d = default Inject (co_root_credential_default c)));
      [done|]. match goal with H : ¬ (_ ∧ Some d ≠ _) |- _ => destruct H; split; [done|congruence] end.
Qed.

Lemma merge_policy_stack name is_root explicit policy c c' :
  merge_policy name is_root explicit policy c = Ok c' → co_stack c' = co_stack c.
Proof.
  intros (c1 & Hm & _ & Hc)%merge_policy_split. destruct is_root.
  - destruct Hc as (_ & _ & (_ & _ & ->)%merge_root_Ok). by destruct Hm.
  - destruct Hc as (_ & _ & ->). by destruct Hm.
Qed.

Section compose.
Context {Fd : Type} `{!ConfigFs Fd} `{!Toml} `{!UrlHost}.
Implicit Types (self : SessionConfigStore Fd).

(** A composition step that succeeds leaves the stack as it was. *)
Lemma compose_imports_stack compose name imports c c' :
  (∀ n c c', compose n c = Some (Ok c') → co_stack c' = co_stack c) →
  compose_imports compose name imports c = Some (Ok c') → co_stack c' = co_stack c.
Proof using Type.
  intros Hc. revert c. induction imports as [|i imports IH]; intros c Hi; cbn in Hi; fuel_inv; [done|].
  match goal with H : compose_imports _ _ _ _ = _ |- _ => rewrite (IH _ H) end. eauto.
Qed.

(** What a successful [compose_file] did. *)
Lemma compose_file_Ok fuel self name is_root c c' :
  compose_file (S fuel) self name is_root c = Some (Ok c') →
  name ∉ co_stack c ∧
  ((name ∈ co_loaded c ∧ c' = c) ∨
   (name ∉ co_loaded c ∧ length (co_stack c) < MAX_SESSION_IMPORT_DEPTH ∧
    length (co_stack c) + size (co_loaded c) < MAX_SESSION_IMPORT_FILES ∧
    ∃ imports table c1 policy c2,
      parse_file self name is_root = Ok (imports, table) ∧
      compose_imports (λ n, compose_file fuel self n false) name imports
        (set_stack (co_stack c ++ [name]) c) = Some (Ok c1) ∧
      decode_policy name table = Ok policy ∧
      merge_policy name is_root (contains_key (lit "unmatched") table) policy c1 = Ok c2 ∧
      c' = set_loaded ({[name]} ∪ co_loaded c2) (set_stack (removelast (co_stack c2)) c2))).
Proof using Type.
  cbn [compose_file]. destruct (existsb _ _) eqn:Hstack; [done|].
  assert (name ∉ co_stack c).
  { intros Hin. rewrite existsb_elem_false in Hstack. apply Hstack in Hin.
    by rewrite (proj2 (str_eqb_true name name)) in Hin. }
  case_bool_decide as Hl; [intros [= <-]; by auto|].
  destruct (Nat.leb_spec MAX_SESSION_IMPORT_DEPTH (length (co_stack c))); [done|].
  destruct (Nat.leb_spec MAX_SESSION_IMPORT_FILES (length (co_stack c) + size (co_loaded c))); [done|].
  intros Hc. fuel_inv. unfold compose_file_contents in *. fuel_inv.
  match goal with H : parse_file _ _ _ = Ok ?x |- _ => destruct x as [imports table] end. fuel_inv.
  split; [done|]. right. split_and!; [done..|by repeat eexists].
Qed.

Lemma compose_file_stack fuel self name is_root c c' :
  compose_file fuel self name is_root c = Some (Ok c') → co_stack c' = co_stack c.
Proof using Type.
  revert name is_root c c'. induction fuel as [|fuel IH]; intros name is_root c c' Hc; [done|].
  apply compose_file_Ok in Hc as (_ & [[_ ->]|(_ & _ & _ & ? & ? & c1 & ? & c2 & _ & Hi & _ & Hm & ->)]);
    [done|].
  apply merge_policy_stack in Hm as ->. apply compose_imports_stack in Hi as ->; [|eauto].
  apply removelast_last.
Qed.

(** Fuel for the levels that the depth limit leaves is enough. *)
Lemma compose_imports_total compose name imports c :
  (∀ n c', co_stack c' = co_stack c → is_Some (compose n c')) →
  (∀ n c c', compose n c = Some (Ok c') → co_stack c' = co_stack c) →
  is_Some (compose_imports compose name imports c).
Proof using Type.
  intros Ht Hs. revert c Ht. induction imports as [|i imports IH]; intros c Ht; cbn; [eauto|].
  apply fbind_total; [eauto|]. intros n _. apply fbind_total; [by apply Ht|].
  intros c' Hc'. apply IH. intros m c'' Hst. apply Ht. rewrite Hst. by eapply Hs.
Qed.

Lemma compose_file_enough_fuel fuel self name is_root c :
  length (co_stack c) ≤ MAX_SESSION_IMPORT_DEPTH < fuel + length (co_stack c) →
  is_Some (compose_file fuel self name is_root c).
Proof using Type.
  revert name is_root c. induction fuel as [|fuel IH]; intros name is_root c Hf; [cbn in Hf; lia|].
  cbn [compose_file]. destruct (existsb _ _); [eauto|]. case_bool_decide; [eauto|].
  destruct (Nat.leb_spec MAX_SESSION_IMPORT_DEPTH (length (co_stack c))); [eauto|].
  destruct (_ <=? _)%nat; [eauto|].
  apply fbind_total; [|eauto]. unfold compose_file_contents.
  apply fbind_total; [eauto|]. intros [imports table] _.
  apply fbind_total; [|intros ? _; apply fbind_total; eauto].
  apply compose_imports_total; [|intros ???; apply compose_file_stack].
  intros n c' Hst. apply IH. rewrite Hst. cbn. rewrite length_app. cbn. lia.
Qed.

(** ** The import graph

    A [loaded_file] is one file of the graph: its name, the imports it lists,
    whether it sets [unmatched], and its decoded policy. *)

Record loaded_file := mkLoadedFile {
  lf_name : str;
  lf_imports : list str;
  lf_explicit : bool;
  lf_policy : SessionConfig;
}.

Definition loads self (is_root : bool) (f : loaded_file) : Prop :=
  ∃ table, parse_file self (lf_name f) is_root = Ok (lf_imports f, table) ∧
    decode_policy (lf_name f) table = Ok (lf_policy f) ∧
    lf_explicit f = contains_key (lit "unmatched") table.

(** [g] is imported by [f]. *)
Definition imports_file (f g : loaded_file) : Prop :=
  ∃ import, import ∈ lf_imports f ∧ resolve_import_name (lf_name f) import = Ok (lf_name g).

Definition closed_imports (files : list loaded_file) (f : loaded_file) : Prop :=
  ∀ import, import ∈ lf_imports f → ∃ g, g ∈ files ∧ resolve_import_name (lf_name f) import = Ok (lf_name g).

(** The state after loading the imported files [files], in this order. *)
Record composed self (files : list loaded_file) (c : Composition) : Prop := {
  cs_loaded : co_loaded c = list_to_set (lf_name <$> files);
  cs_nodup : NoDup (lf_name <$> files);
  cs_stack : ∀ n, n ∈ co_stack c → n ∉ lf_name <$> files;
  cs_loads : Forall (loads self false) files;
  cs_names : Forall (λ f, validate_session_config_name (lf_name f) = true) files;
  cs_closed : Forall (closed_imports files) files;
  cs_rules : co_rules c = files ≫= sc_rules ∘ lf_policy;
  cs_hosts : co_hosts c = list_to_set (hr_host <$> co_rules c);
  cs_hosts_nodup : NoDup (hr_host <$> co_rules c);
  cs_modes : ∀ s m, co_credential_modes c !! s = Some m ↔
    ∃ f, f ∈ files ∧ sc_credential_modes (lf_policy f) !! s = Some m;
  cs_unmatched : ∀ f, f ∈ files → lf_explicit f = true →
    co_imported_unmatched c = Some (sc_unmatched (lf_policy f));
  cs_default : ∀ f m, f ∈ files → sc_default_credential_mode (lf_policy f) = Some m →
    co_imported_credential_default c = Some m;
  cs_root : co_root c = None ∧ co_root_unmatched c = None ∧ co_root_credential_default c = None;
  cs_bound : length (co_stack c) + length files ≤ MAX_SESSION_IMPORT_FILES;
}.

Lemma composed_default self : composed self [] composition_default.
Proof using Type. split; cbn; try done; try constructor; try set_solver; unfold MAX_SESSION_IMPORT_FILES; lia. Qed.

Lemma closed_imports_mono files files' f :
  files ⊆ files' → closed_imports files f → closed_imports files' f.
Proof using Type. intros Hs Hc i Hi. destruct (Hc i Hi) as (g & Hg & ?). eauto. Qed.

Lemma composed_size self files c : composed self files c → size (co_loaded c) = length files.
Proof using Type.
  intros Hc. rewrite (cs_loaded _ _ _ Hc), size_list_to_set by apply Hc. apply length_fmap.
Qed.

(** Pushing a file on the stack. *)
Lemma composed_push self files c name :
  composed self files c → name ∉ co_loaded c →
  length (co_stack c) + size (co_loaded c) < MAX_SESSION_IMPORT_FILES →
  composed self files (set_stack (co_stack c ++ [name]) c).
Proof using Type.
  intros Hc Hn Hb. rewrite (composed_size _ _ _ Hc) in Hb. rewrite (cs_loaded _ _ _ Hc) in Hn.
  destruct Hc. split; cbn; try done.
  - intros n [?|Hs]%elem_of_app; [auto|]. apply list_elem_of_singleton in Hs as ->.
    by rewrite elem_of_list_to_set in Hn.
  - rewrite length_app. cbn. lia.
Qed.

(** Hosts of the merged rules stay distinct. *)
Lemma merged_hosts explicit policy c c' u u' d d' :
  merged explicit policy c c' u u' d d' →
  co_hosts c = list_to_set (hr_host <$> co_rules c) → NoDup (hr_host <$> co_rules c) →
  co_hosts c' = list_to_set (hr_host <$> co_rules c') ∧ NoDup (hr_host <$> co_rules c').
Proof using Type.
  intros Hm Hh Hnd. rewrite (mg_rules _ _ _ _ _ _ _ _ Hm), (mg_hosts _ _ _ _ _ _ _ _ Hm), fmap_app, Hh.
  split; [rewrite list_to_set_app_L; set_solver|].
  apply NoDup_app. split_and!; [done| |apply Hm].
  intros h Hin (r & -> & Hr)%list_elem_of_fmap. apply (mg_disjoint _ _ _ _ _ _ _ _ Hm) in Hr.
  rewrite Hh, elem_of_list_to_set in Hr. done.
Qed.

(** Finishing an imported file. *)
Lemma composed_pop self files c1 c2 stack f :
  composed self files c1 → co_stack c1 = stack ++ [lf_name f] → lf_name f ∉ stack →
  merge_policy (lf_name f) false (lf_explicit f) (lf_policy f) c1 = Ok c2 →
  loads self false f → closed_imports files f → validate_session_config_name (lf_name f) = true →
  composed self (files ++ [f])
    (set_loaded ({[lf_name f]} ∪ co_loaded c2) (set_stack (removelast (co_stack c2)) c2)).
Proof using Type.
  intros Hc Hst Hns (c' & Hm & Hroot & Hu & Hd & ->)%merge_policy_split Hl Hcl Hv.
  pose proof (merged_hosts _ _ _ _ _ _ _ _ Hm (cs_hosts _ _ _ Hc) (cs_hosts_nodup _ _ _ Hc)) as [Hh Hhd].
  assert (lf_name f ∉ lf_name <$> files) as Hnew.
  { apply (cs_stack _ _ _ Hc). rewrite Hst. set_solver. }
  destruct Hc as [Hcl0 Hnd Hs0 Hls Hns0 Hcls Hr0 _ _ Hmo Hun Hde (? & ? & ?) Hb].
  destruct Hm as [Ms Ml Mr _ _ _ Mm Mu Mua Md Mda].
  split; cbn.
  - rewrite Ml, Hcl0, fmap_app, list_to_set_app_L. set_solver.
  - rewrite fmap_app. cbn. apply NoDup_app. split_and!; [done|set_solver|apply NoDup_singleton].
  - intros n. rewrite Ms, Hst, removelast_last. intros Hn.
    rewrite fmap_app, not_elem_of_app. split; [apply Hs0; rewrite Hst; set_solver|set_solver].
  - apply Forall_app_2; [done|]. by apply Forall_singleton.
  - apply Forall_app_2; [done|]. by apply Forall_singleton.
  - apply Forall_app_2.
    + eapply Forall_impl; [exact Hcls|]. intros g. apply closed_imports_mono. set_solver.
    + apply Forall_singleton. eapply closed_imports_mono; [|exact Hcl]. set_solver.
  - rewrite Mr, Hr0, bind_app. cbn. by rewrite app_nil_r.
  - exact Hh.
  - exact Hhd.
  - intros s m. rewrite Mm, Hmo. split.
    + intros [(g & Hg & ?)|?]; [exists g|exists f]; set_solver.
    + intros (g & [Hg|Hg]%elem_of_app & ?); [by eauto|].
      apply list_elem_of_singleton in Hg as ->. by right.
  - intros g [Hg|Hg]%elem_of_app He.
    + rewrite Mu. destruct (lf_explicit f) eqn:Hf; [|by apply Hun].
      by rewrite (Mua eq_refl _ (Hun g Hg He)).
    + apply list_elem_of_singleton in Hg as ->. by rewrite Mu, He.
  - intros g m [Hg|Hg]%elem_of_app He.
    + rewrite Md. destruct (sc_default_credential_mode (lf_policy f)) as [w|] eqn:Hf; [|by eapply Hde].
      by rewrite (Mda m w (Hde g m Hg He) eq_refl).
    + apply list_elem_of_singleton in Hg as ->. by rewrite Md, He.
  - split_and!; congruence.
  - rewrite Ms, Hst, removelast_last, !length_app in *. cbn in *. lia.
Qed.

Lemma compose_imports_composed self fuel name imports files c c' :
  (∀ n files c c', validate_session_config_name n = true → composed self files c →
     compose_file fuel self n false c = Some (Ok c') →
     ∃ new, composed self (files ++ new) c' ∧ n ∈ lf_name <$> files ++ new ∧
       Forall (λ g, (∃ f, f ∈ new ∧ imports_file f g) ∨ lf_name g = n) new) →
  composed self files c →
  compose_imports (λ n, compose_file fuel self n false) name imports c = Some (Ok c') →
  ∃ new, composed self (files ++ new) c' ∧
    (∀ i, i ∈ imports → ∃ g, g ∈ files ++ new ∧ resolve_import_name name i = Ok (lf_name g)) ∧
    Forall (λ g, (∃ f, f ∈ new ∧ imports_file f g) ∨
                 ∃ i, i ∈ imports ∧ resolve_import_name name i = Ok (lf_name g)) new.
Proof using Type.
  intros IHf. revert files c. induction imports as [|i imports IH]; intros files c Hc Hi; cbn in Hi.
  { fuel_inv. exists []. rewrite app_nil_r. split_and!; [done|set_solver|constructor]. }
  fuel_inv. match goal with H : resolve_import_name _ _ = Ok _ |- _ => rename H into Hr end.
  match goal with H : compose_file _ _ _ _ _ = _ |- _ =>
    destruct (IHf _ files c _ (resolve_import_name_valid _ _ _ Hr) Hc H) as (new1 & Hc1 & Hn & Hf1) end.
  match goal with H : compose_imports _ _ _ _ = _ |- _ =>
    destruct (IH _ _ Hc1 H) as (new2 & Hc2 & Hcov & Hf2) end.
  exists (new1 ++ new2). rewrite app_assoc. split_and!; [done| |].
  - intros j [->|Hj]%elem_of_cons; [|auto].
    apply list_elem_of_fmap in Hn as (g & -> & Hg). exists g. split; [set_solver|done].
  - apply Forall_app_2.
    + eapply Forall_impl; [exact Hf1|]. cbn. intros g [(f & ? & ?)|<-]; [left|right].
      * exists f. split; [set_solver|done].
      * exists i. split; [set_solver|done].
    + eapply Forall_impl; [exact Hf2|]. cbn. intros g [(f & ? & ?)|(j & ? & ?)]; [left|right].
      * exists f. split; [set_solver|done].
      * exists j. split; [set_solver|done].
Qed.

Lemma compose_file_composed fuel self name files c c' :
  validate_session_config_name name = true → composed self files c →
  compose_file fuel self name false c = Some (Ok c') →
  ∃ new, composed self (files ++ new) c' ∧ name ∈ lf_name <$> files ++ new ∧
    Forall (λ g, (∃ f, f ∈ new ∧ imports_file f g) ∨ lf_name g = name) new.
Proof using Type.
  revert name files c c'. induction fuel as [|fuel IH]; intros name files c c' Hv Hc Hf; [done|].
  apply compose_file_Ok in Hf as (Hs & [[Hl ->]|(Hl & _ & Hb & imports & table & c1 & policy & c2 &
    Hp & Hi & Hd & Hm & ->)]).
  { exists []. rewrite app_nil_r. split_and!; [done| |constructor].
    by rewrite (cs_loaded _ _ _ Hc), elem_of_list_to_set in Hl. }
  pose proof (compose_imports_stack _ _ _ _ _ (λ n c c', compose_file_stack _ _ _ _ _ _) Hi) as Hst.
  apply compose_imports_composed with (files := files) in Hi as (new & Hc1 & Hcov & Hnew);
    [|exact IH|by apply composed_push].
  set (f := mkLoadedFile name imports (contains_key (lit "unmatched") table) policy).
  exists (new ++ [f]). rewrite app_assoc. split_and!.
  - eapply (composed_pop self _ c1 c2 (co_stack c) f); try done. by exists table.
  - rewrite fmap_app. set_solver.
  - apply Forall_app_2; [|apply Forall_singleton; by right].
    eapply Forall_impl; [exact Hnew|]. cbn. intros g [(h & ? & ?)|(i & ? & ?)]; left.
    + exists h. split; [set_solver|done].
    + exists f. split; [set_solver|by exists i].
Qed.

(** What a session read from a file is: the root file [root], the files
    [imported] in the order they were loaded, and the session [sc]. *)
Record composes self (name : str) (imported : list loaded_file) (root : loaded_file) (sc : SessionConfig)
    : Prop := {
  cp_root : lf_name root = name ∧ loads self true root;
  cp_imported : Forall (loads self false) imported;
  cp_unique : NoDup (lf_name <$> imported ++ [root]);
  cp_names : Forall (λ f, validate_session_config_name (lf_name f) = true) (imported ++ [root]);
  cp_closed : Forall (closed_imports imported) (imported ++ [root]);
  cp_reached : Forall (λ g, ∃ f, f ∈ imported ++ [root] ∧ imports_file f g) imported;
  cp_count : length (imported ++ [root]) ≤ 128;
  cp_rules : sc_rules sc = (imported ++ [root]) ≫= sc_rules ∘ lf_policy;
  cp_hosts : NoDup (hr_host <$> sc_rules sc);
  cp_modes : ∀ s m, sc_credential_modes sc !! s = Some m ↔
    ∃ f, f ∈ imported ++ [root] ∧ sc_credential_modes (lf_policy f) !! s = Some m;
  cp_lifetime : sc_persistent sc = sc_persistent (lf_policy root) ∧
    sc_socket_name sc = sc_socket_name (lf_policy root);
  cp_unmatched : sc_unmatched sc = (if lf_explicit root then sc_unmatched (lf_policy root) else UDeny);
  cp_unmatched_agree : ∀ f, f ∈ imported → lf_explicit f = true →
    sc_unmatched (lf_policy f) = sc_unmatched sc;
  cp_default : sc_default_credential_mode sc = sc_default_credential_mode (lf_policy root);
  cp_default_agree : ∀ f m, f ∈ imported → sc_default_credential_mode (lf_policy f) = Some m →
    m = default Inject (sc_default_credential_mode sc);
}.

(** The state after the root file's own part has been merged. *)
Lemma composed_root self files c1 c2 f :
  composed self files c1 → co_stack c1 = [lf_name f] →
  merge_policy (lf_name f) true (lf_explicit f) (lf_policy f) c1 = Ok c2 →
  loads self true f → closed_imports files f → validate_session_config_name (lf_name f) = true →
  Forall (λ g, ∃ f', f' ∈ files ++ [f] ∧ imports_file f' g) files →
  co_root c2 = Some (mkRootSettings (sc_persistent (lf_policy f)) (sc_socket_name (lf_policy f))) ∧
  composes self (lf_name f) files f
    (mkSessionConfig (sc_persistent (lf_policy f)) (sc_socket_name (lf_policy f))
       (default unmatched_default (co_root_unmatched c2)) (co_root_credential_default c2)
       (co_credential_modes c2) (co_rules c2)).
Proof using Type.
  intros Hc Hst (c & Hm & _ & Hu & Hd & (Ru & Rd & ->)%merge_root_Ok)%merge_policy_split Hl Hcl Hv Hre.
  pose proof (merged_hosts _ _ _ _ _ _ _ _ Hm (cs_hosts _ _ _ Hc) (cs_hosts_nodup _ _ _ Hc)) as [_ Hhd].
  assert (lf_name f ∉ lf_name <$> files) as Hnew.
  { apply (cs_stack _ _ _ Hc). rewrite Hst. set_solver. }
  destruct Hc as [Hcl0 Hnd Hs0 Hls Hns0 Hcls Hr0 _ _ Hmo Hun Hde (_ & Nu & Nd) Hb].
  destruct Hm as [_ _ Mr _ _ _ Mm Mu _ Md _]. rewrite Nu in Mu. rewrite Nd in Md.
  rewrite Hu in Ru. rewrite Hd in Rd.
  split; [done|]. split; cbn; try done.
  - rewrite fmap_app. apply NoDup_app. split_and!; [done|set_solver|apply NoDup_singleton].
  - apply Forall_app_2; [done|]. by apply Forall_singleton.
  - apply Forall_app_2; [done|]. by apply Forall_singleton.
  - rewrite length_app. rewrite Hst in Hb. unfold MAX_SESSION_IMPORT_FILES in Hb. cbn in *. lia.
  - rewrite Mr, Hr0, bind_app. cbn. by rewrite app_nil_r.
  - intros s m. rewrite Mm, Hmo. split.
    + intros [(g & Hg & ?)|?]; [exists g|exists f]; set_solver.
    + intros (g & [Hg|Hg]%elem_of_app & ?); [by eauto|].
      apply list_elem_of_singleton in Hg as ->. by right.
  - rewrite Mu. by destruct (lf_explicit f).
  - intros g Hg He. rewrite <-(Ru _ (Hun g Hg He)). done.
  - rewrite Md. by destruct (sc_default_credential_mode (lf_policy f)).
  - intros g m Hg He. by apply Rd, (Hde g).
Qed.

Lemma read_session_composes_aux self name sc :
  validate_session_config_name name = true → read_session self name = Some (Ok sc) →
  ∃ imported root, composes self name imported root sc.
Proof using Type.
  unfold read_session, compose_fuel. intros Hv Hr. fuel_inv.
  match goal with H : compose_file _ _ _ _ _ = _ |- _ =>
    apply compose_file_Ok in H as (_ & [[Hl _]|(_ & _ & _ & imports & table & c1 & policy & c2 &
      Hp & Hi & Hd & Hm & ->)]) end; [set_solver|].
  assert (co_stack c1 = [name]) as Hst.
  { eapply compose_imports_stack in Hi; [exact Hi|]. intros n c c'. apply compose_file_stack. }
  apply compose_imports_composed with (files := []) in Hi as (new & Hc1 & Hcov & Hnew);
    [|intros ????; apply compose_file_composed
     |apply composed_push; [apply composed_default|set_solver|by apply Nat.ltb_lt]].
  set (f := mkLoadedFile name imports (contains_key (lit "unmatched") table) policy).
  destruct (composed_root self new c1 c2 f) as [Hroot Hcomp]; try done.
  - by exists table.
  - eapply Forall_impl; [exact Hnew|]. cbn. intros g [(h & ? & ?)|(i & ? & ?)].
    + exists h. split; [set_solver|done].
    + exists f. split; [set_solver|by exists i].
  - cbn in *. rewrite Hroot in *. simplify_eq/=. by exists new, f.
Qed.

Lemma loads_wf `{!UrlHostLaws} self is_root f : loads self is_root f → session_wf (lf_policy f).
Proof using Type*.
  intros (table & _ & Hd & _). unfold decode_policy, session_config_from_toml in Hd. res_inv.
  by eapply validate_session_document_session_wf.
Qed.

Lemma composes_wf `{!UrlHostLaws} self name imported root sc :
  composes self name imported root sc → session_wf sc.
Proof using Type*.
  intros Hc. assert (∀ f, f ∈ imported ++ [root] → session_wf (lf_policy f)) as Hwf.
  { intros f [Hf|Hf]%elem_of_app.
    - pose proof (cp_imported _ _ _ _ _ Hc) as Hi. rewrite Forall_forall in Hi. by eapply loads_wf, Hi.
    - apply list_elem_of_singleton in Hf as ->. eapply loads_wf, Hc. }
  split.
  - rewrite (cp_rules _ _ _ _ _ Hc). apply Forall_forall.
    intros r (f & Hr & Hf)%list_elem_of_bind. specialize (Hwf f Hf).
    pose proof (sw_rules _ Hwf) as Hrw. rewrite Forall_forall in Hrw. by apply Hrw.
  - apply Hc.
  - destruct (cp_lifetime _ _ _ _ _ Hc) as [_ ->]. apply sw_socket, Hwf. set_solver.
  - intros n m Hn. apply (cp_modes _ _ _ _ _ Hc) in Hn as (f & Hf & Hm).
    by eapply sw_modes; [apply Hwf|].
Qed.

(** Reading a session always returns: the depth limit makes 33 levels of
    recursion enough. *)
Lemma read_session_total self name : is_Some (read_session self name).
Proof using Type.
  unfold read_session. apply fbind_total; [|by eauto]. apply compose_file_enough_fuel.
  unfold compose_fuel, MAX_SESSION_IMPORT_DEPTH. cbn. lia.
Qed.

(** C8: reading a session always returns, whatever the files contain, import
    cycles included; and a session that is read is exactly the composition of
    its import graph: the root and every file it reaches, each loaded once and
    at most 128 in all, with names that passed the name validator. The rules
    are all the files' rules, with no host twice; credential modes are the
    union of the files'; lifetime, socket and the defaults are the root's, and
    imported defaults agree with them. The result is a well-formed policy. *)
Theorem read_session_composes `{!UrlHostLaws} self name :
  ∃ r, read_session self name = Some r ∧
    ∀ sc, validate_session_config_name name = true → r = Ok sc →
      session_wf sc ∧ ∃ imported root, composes self name imported root sc.
Proof using Type*.
  destruct (read_session_total self name) as [r Hr]. exists r. split; [done|]. intros sc Hv ->.
  destruct (read_session_composes_aux self name sc Hv Hr) as (imported & root & Hc).
  split; [by eapply composes_wf|eauto].
Qed.
End compose.

(** ** Confinement *)

(** The two file systems answer alike for the plain children of directories,
    and may differ on every other name. *)
Record agree_below {Fd} (fs1 fs2 : ConfigFs Fd) : Prop := {
  ab_clone fd : @fd_clone Fd fs1 fd = @fd_clone Fd fs2 fd;
  ab_dir fd c : child_component c → @openat_dir Fd fs1 fd c = @openat_dir Fd fs2 fd c;
  ab_file fd c : child_component c → @openat_file Fd fs1 fd c = @openat_file Fd fs2 fd c;
  ab_metadata fd : @fd_metadata Fd fs1 fd = @fd_metadata Fd fs2 fd;
  ab_read fd : @fd_read Fd fs1 fd = @fd_read Fd fs2 fd;
}.

Section confined.
Context {Fd : Type} (fs1 fs2 : ConfigFs Fd) (Hag : agree_below fs1 fs2) `{!Toml} `{!UrlHost}.
Implicit Types (self : SessionConfigStore Fd).

Lemma read_components_agree uid name components : ∀ fd : Fd,
  Forall child_component components →
  @read_components Fd fs1 uid name fd components = @read_components Fd fs2 uid name fd components.
Proof using Hag.
  induction components as [|c rest IH]; intros fd Hf; [done|].
  apply Forall_cons in Hf as [Hc Hf]. cbn [read_components].
  destruct (contains_char _ _); [done|]. destruct rest as [|c' rest].
  - unfold read_file. rewrite (ab_file _ _ Hag) by done.
    destruct (openat_file fd c); [|done]. cbn [classify_config_file_io map_err mbind result_bind].
    by rewrite (ab_metadata _ _ Hag), (ab_read _ _ Hag).
  - rewrite (ab_dir _ _ Hag) by done.
    destruct (openat_dir fd c); [|done]. cbn [classify_config_file_io map_err mbind result_bind].
    rewrite (ab_metadata _ _ Hag). destruct (fd_metadata _); [|done]. cbn [ok_or mbind result_bind].
    by rewrite IH.
Qed.

Lemma parse_file_agree self name is_root :
  validate_session_config_name name = true →
  @parse_file Fd fs1 _ self name is_root = @parse_file Fd fs2 _ self name is_root.
Proof using Hag.
  intros Hv. unfold parse_file, read_snapshot. rewrite (ab_clone _ _ Hag).
  destruct (fd_clone _); [|done]. cbn [ok_or mbind result_bind].
  by rewrite read_components_agree by by apply validate_session_config_name_descends.
Qed.

Lemma fbind_ext {A B} (m : fueled A) (f g : A → fueled B) :
  (∀ a, m = Some (Ok a) → f a = g a) → fbind m f = fbind m g.
Proof using Type. destruct m as [[a|]|]; intros Hf; [exact (Hf a eq_refl)|done..]. Qed.

Lemma compose_imports_agree f g name imports c :
  (∀ n c, validate_session_config_name n = true → f n c = g n c) →
  compose_imports f name imports c = compose_imports g name imports c.
Proof using Type.
  intros Hfg. revert c. induction imports as [|i imports IH]; intros c; cbn; [done|].
  apply fbind_ext. intros n [= Hn]. rewrite Hfg by by eapply resolve_import_name_valid.
  apply fbind_ext. eauto.
Qed.

Lemma compose_file_agree fuel self name is_root c :
  validate_session_config_name name = true →
  @compose_file Fd fs1 _ _ fuel self name is_root c = @compose_file Fd fs2 _ _ fuel self name is_root c.
Proof using Hag.
  revert name is_root c. induction fuel as [|fuel IH]; intros name is_root c Hv; [done|].
  cbn [compose_file]. unfold compose_file_contents. rewrite parse_file_agree by done.
  repeat (case_match; [done|]). f_equal. apply fbind_ext. intros [imports table] _.
  erewrite compose_imports_agree; [done|]. intros n c' Hn. by apply IH.
Qed.

(** C33: reading a session looks only at plain children of the directories it
    has descended into from the configured one: its result does not depend on
    what [.], [..], the empty name or a name with a separator would open,
    whatever the imports say. *)
Theorem read_session_confined self name :
  validate_session_config_name name = true →
  @read_session Fd fs1 _ _ self name = @read_session Fd fs2 _ _ self name.
Proof using Hag. intros Hv. unfold read_session. by rewrite compose_file_agree. Qed.
End confined.

(** ** A directory with two files

    Descriptors are paths. [main.toml] imports [shared/a.toml], which imports
    [../main.toml] in a second variant of the directory, a cycle. *)

Definition example_fs (files : list (str * str)) : ConfigFs str := {|
  open_root := Some (lit "/");
  fd_clone fd := Some fd;
  openat_dir fd c := if str_eqb c (lit "shared") then Ok (fd ++ c ++ lit "/") else Err true;
  openat_file fd c := if existsb (λ f, str_eqb f.1 (fd ++ c)) files then Ok (fd ++ c) else Err true;
  fd_metadata fd := Some (if ends_with (lit "/") fd then mkMetadata Directory 1000 493 0 1 1
                          else mkMetadata Regular 1000 420 100 1 2);
  fd_read fd := snd <$> find (λ f, str_eqb f.1 fd) files;
|}.

Definition example_table (imports : list str) (doc : str) (rest : list (str * toml_value)) : toml_value :=
  TomlTable ((lit "imports", TomlArray (TomlString <$> imports)) :: (lit "doc", TomlString doc) :: rest).

Definition example_imported_raw : RawSessionConfig :=
  mkRawSessionConfig (Some 2%Z) false None None
    (Some (RulesNamed (<[lit "c.example" := mkRawNamedRule None default_ports None None]> ∅)))
    None [].

#[local] Instance example_toml : Toml := {|
  toml_from_str text :=
    if str_eqb text (lit "main") then Some (example_table [lit "shared/a.toml"] (lit "M")
                                                 [(lit "unmatched", TomlString (lit "tunnel"))])
    else if str_eqb text (lit "leaf") then Some (example_table [] (lit "A") [])
    else if str_eqb text (lit "back") then Some (example_table [lit "../main.toml"] (lit "A") [])
    else None;
  toml_to_string v :=
    match v with
    | TomlTable fields =>
        match table_get (lit "doc") fields with Some (TomlString s) => Some s | _ => None end
    | _ => None
    end;
  toml_session text :=
    if str_eqb text (lit "M") then Some example_raw
    else if str_eqb text (lit "A") then Some example_imported_raw else None;
|}.

Definition example_files (shared : str) : list (str * str) :=
  [(lit "/main.toml", lit "main"); (lit "/shared/a.toml", shared)].
Definition example_config_store : SessionConfigStore str := mkSessionConfigStore (lit "/") 1000%N.

Definition example_composed : SessionConfig :=
  mkSessionConfig true (Some (lit "cladding/github.sock")) UTunnel (Some Substitute)
    (<[lit "api-token" := Inject]> ∅)
    (mkHostRule (lit "c.example") Tunnel [443%N] [] [] :: sc_rules example_session).

Example example_read :
  @read_session str (example_fs (example_files (lit "leaf"))) _ plain_host_parse
    example_config_store (lit "main.toml") = Some (Ok example_composed).
Proof. vm_compute. reflexivity. Qed.

Example example_cycle :
  @read_session str (example_fs (example_files (lit "back"))) _ plain_host_parse
    example_config_store (lit "main.toml") = Some (Err (FileCycle (lit "main.toml"))).
Proof. vm_compute. reflexivity. Qed.

Lemma read_session_composes_witness : @session_wf plain_host_parse example_composed.
Proof.
  destruct (@read_session_composes str (example_fs (example_files (lit "leaf"))) example_toml
              plain_host_parse plain_host_laws example_config_store (lit "main.toml")) as (r & Hr & H).
  refine (proj1 (H example_composed eq_refl _)).
  assert (Some r = Some (Ok example_composed)) as [= ->] by (rewrite <-Hr; vm_compute; reflexivity). reflexivity.
Defined.

(** The same directory on a system where [..] opens the parent. *)
Definition example_fs_with_parent (files : list (str * str)) : ConfigFs str := {|
  open_root := Some (lit "/");
  fd_clone fd := Some fd;
  openat_dir fd c := if str_eqb c (lit "..") then Ok (lit "/etc/") else @openat_dir str (example_fs files) fd c;
  openat_file := @openat_file str (example_fs files);
  fd_metadata := @fd_metadata str (example_fs files);
  fd_read := @fd_read str (example_fs files);
|}.

Lemma example_agree files : agree_below (example_fs files) (example_fs_with_parent files).
Proof.
  split; try done. intros fd c Hc. cbn. unfold str_eqb at 2.
  by rewrite (bool_decide_eq_false_2 (c = lit "..")) by apply Hc.
Qed.

Lemma read_session_confined_witness :
  @read_session str (example_fs (example_files (lit "leaf"))) example_toml plain_host_parse
    example_config_store (lit "main.toml") =
  @read_session str (example_fs_with_parent (example_files (lit "leaf"))) example_toml plain_host_parse
    example_config_store (lit "main.toml").
Proof. apply read_session_confined; [apply example_agree|reflexivity]. Defined.
