(* ===== verification/AsyncIo.v ===== *)
(** Byte streams as the source uses them (tokio's [AsyncRead]/[AsyncWrite]).

    A read on a connection returns some prefix of the bytes that arrived, at
    most the buffer's size, and the empty string at the end of the stream; how
    the bytes are cut into reads is the environment's choice. The interface
    [AsyncRead] is that one operation and [AsyncReadSpec] its promise: a reader
    that [delivers] a byte string hands out that string in order, whatever the
    fragmentation. The clients of this file are proved against the interface. *)

From S2P Require Import Prelude RustStr.
From stdpp Require Import options.

Class AsyncRead (R : Type) := async_read : nat → R → option (str * R).
#[export] Hint Mode AsyncRead ! : typeclass_instances.

(** [None] is an I/O error. [delivers r bs]: no read of [r] fails, and [bs] is
    what its reads return before the end of the stream. *)
Class AsyncReadSpec (R : Type) `{AsyncRead R} := {
  delivers : R → str → Prop;
  async_read_delivers r bs n : delivers r bs → 0 < n →
    ∃ got r' rest, async_read n r = Some (got, r') ∧ delivers r' rest ∧
      bs = got ++ rest ∧ length got ≤ n ∧ (bs ≠ [] → got ≠ []);
}.

(** ** Connections: a list of arrivals *)

Inductive arrival := Data (bytes : str) | ReadFailure.
Abbreviation connection := (list arrival).

#[export] Instance connection_read : AsyncRead connection := λ n c,
  match c with
  | [] => Some ([], [])
  | ReadFailure :: _ => None
  | Data bytes :: c' =>
      Some (take n bytes, if (length bytes <=? n)%nat then c' else Data (drop n bytes) :: c')
  end.

Inductive connection_delivers : connection → str → Prop :=
| delivers_nil : connection_delivers [] []
| delivers_data bytes c bs :
    bytes ≠ [] → connection_delivers c bs → connection_delivers (Data bytes :: c) (bytes ++ bs).
#[export] Hint Constructors connection_delivers : baffle.

#[export, refine] Instance connection_read_spec : AsyncReadSpec connection := {
  delivers := connection_delivers;
}.
Proof.
  intros r bs n Hd Hn. destruct Hd as [|bytes c bs Hb Hd]; cbn.
  { exists [], [], []. split_and!; first [done|constructor|cbn; lia]. }
  assert (bytes ++ bs ≠ [] → take n bytes ≠ []) by (intros _; destruct bytes, n; done || lia).
  exists (take n bytes). destruct (Nat.leb_spec (length bytes) n) as [Hl|Hl].
  - exists c, bs. rewrite take_ge in * by lia. split_and!; auto.
  - exists (Data (drop n bytes) :: c), (drop n bytes ++ bs). split_and!; [done| | | |done].
    + constructor; [|done]. intros He. apply (f_equal length) in He.
      rewrite length_drop in He. cbn in He. lia.
    + by rewrite app_assoc, take_drop.
    + rewrite length_take. lia.
Defined.

(** ** Writers: what has been written, and how the next calls end

    Each call of [write_all] or [shutdown] consumes one entry of the plan:
    [Done], or [Broken k] for a call that fails after [k] bytes. An exhausted
    plan means that the calls succeed. *)
Inductive write_event := Done | Broken (k : nat).

Record writer := mkWriter {
  w_plan : list write_event;
  w_written : str;
  w_shutdown : bool;
}.

Definition plan_next (plan : list write_event) : write_event * list write_event :=
  match plan with [] => (Done, []) | e :: plan' => (e, plan') end.

Definition write_all (bytes : str) (w : writer) : bool * writer :=
  match plan_next (w_plan w) with
  | (Done, plan) => (true, mkWriter plan (w_written w ++ bytes) (w_shutdown w))
  | (Broken k, plan) => (false, mkWriter plan (w_written w ++ take k bytes) (w_shutdown w))
  end.

Definition shutdown (w : writer) : bool * writer :=
  match plan_next (w_plan w) with
  | (Done, plan) => (true, mkWriter plan (w_written w) true)
  | (Broken _, plan) => (false, mkWriter plan (w_written w) (w_shutdown w))
  end.

(** A writer none of whose calls fails. *)
Definition reliable (w : writer) : Prop := Forall (eq Done) (w_plan w).

Lemma write_all_reliable bytes w :
  reliable w →
  ∃ plan, write_all bytes w = (true, mkWriter plan (w_written w ++ bytes) (w_shutdown w)) ∧
    Forall (eq Done) plan.
Proof.
  unfold reliable, write_all. destruct (w_plan w) as [|e plan]; cbn; [by eauto|].
  intros [<- Hp]%Forall_cons. eauto.
Qed.

Lemma shutdown_reliable w :
  reliable w → ∃ plan, shutdown w = (true, mkWriter plan (w_written w) true).
Proof.
  unfold reliable, shutdown. destruct (w_plan w) as [|e plan]; cbn; [by eauto|].
  intros [<- _]%Forall_cons. eauto.
Qed.

Lemma write_all_prefix bytes w ok w' :
  write_all bytes w = (ok, w') →
  ∃ part, w_written w' = w_written w ++ part ∧ part `prefix_of` bytes ∧ (ok = true → part = bytes) ∧
    w_shutdown w' = w_shutdown w.
Proof.
  unfold write_all. destruct (plan_next _) as [[|k] plan]; intros [= <- <-]; cbn.
  - by exists bytes.
  - exists (take k bytes). split_and!; [done|by apply prefix_take|done|done].
Qed.
