(* ===== verification/ConnectRequest.v ===== *)
(** CONNECT admission and tunnelling (src/proxy_runtime/rama/connect.rs).

    [read_connect_request] reads the request head through the [AsyncRead]
    interface, whatever the fragmentation; [BufferedConnectIo] gives the bytes
    read beyond the head back to the next protocol; [handle_client] admits the
    request by policy and tunnels it or hands it to TLS interception;
    [copy_until_eof] relays one direction.

    The loops carry fuel and answer [None] when it runs out; the theorems show
    that the fuel given is always enough. *)

From S2P Require Import Prelude RustStr PolicyTypes DnsName SessionDoc SessionPolicy Telemetry AsyncIo.
From stdpp Require Import options.
Local Open Scope char_scope.

Definition MAX_CONNECT_HEADER_BYTES : nat := N.to_nat (16 * 1024).
Definition READ_BUFFER_BYTES : nat := N.to_nat 4096.

Inductive connect_error :=
| ConnectTooLarge
| ConnectEarlyEof
| ConnectNotAscii
| ConnectMissingRequestLine
| ConnectUnsupported
| ConnectInvalidHeader
| ConnectDuplicateHost
| ConnectReadFailed.
#[export] Instance connect_error_eq_dec : EqDecision connect_error.
Proof. solve_decision. Defined.

Definition CRLF2 : str := ["013"; "010"; "013"; "010"].

(** [bytes.windows(4).position(|window| window == b"\r\n\r\n")] *)
Fixpoint position_crlf2 (bytes : str) : option nat :=
  match bytes with
  | [] => None
  | _ :: rest => if starts_with CRLF2 bytes then Some 0 else S <$> position_crlf2 rest
  end.

(** The reading loop: the head up to its terminator, the bytes read beyond
    it, and the stream. *)
Fixpoint read_head `{AsyncRead R} (fuel : nat) (bytes : str) (stream : R)
    : option (result connect_error (str * str * R)) :=
  match fuel with
  | 0 => None
  | S fuel =>
      let remaining := MAX_CONNECT_HEADER_BYTES + READ_BUFFER_BYTES - length bytes in
      if (remaining =? 0)%nat then Some (Err ConnectTooLarge)
      else
        match async_read (Nat.min remaining READ_BUFFER_BYTES) stream with
        | None => Some (Err ConnectReadFailed)
        | Some (read, stream) =>
            if (length read =? 0)%nat then Some (Err ConnectEarlyEof)
            else
              let bytes := bytes ++ read in
              match position_crlf2 bytes with
              | Some position =>
                  if (position + 4 <=? MAX_CONNECT_HEADER_BYTES)%nat
                  then Some (Ok (take (position + 4) bytes, drop (position + 4) bytes, stream))
                  else Some (Err ConnectTooLarge)
              | None =>
                  if (MAX_CONNECT_HEADER_BYTES <=? length bytes)%nat
                  then Some (Err ConnectTooLarge)
                  else read_head fuel bytes stream
              end
        end
  end.

(** The loop over the header lines. *)
Fixpoint parse_header_lines (host : option str) (has_body : bool) (lines : list str)
    : result connect_error (option str * bool) :=
  match lines with
  | [] => Ok (host, has_body)
  | line :: rest =>
      match split_once ":" line with
      | None => Err ConnectInvalidHeader
      | Some (name, value) =>
          if eq_ignore_ascii_case name (lit "host") then
            match host with
            | Some _ => Err ConnectDuplicateHost
            | None => parse_header_lines (Some (trim value)) has_body rest
            end
          else if eq_ignore_ascii_case name (lit "transfer-encoding") then
            parse_header_lines host true rest
          else if eq_ignore_ascii_case name (lit "content-length") then
            parse_header_lines host (if negb (str_eqb (trim value) (lit "0")) then true else has_body) rest
          else if eq_ignore_ascii_case name (lit "expect") then
            parse_header_lines host true rest
          else parse_header_lines host has_body rest
      end
  end.

Record ParsedConnect := mkParsedConnect {
  pc_authority : str;
  pc_host : option str;
  pc_has_body : bool;
  pc_read_ahead : str;
}.

(** The request line's authority: exactly [CONNECT], the authority and
    [HTTP/1.1], separated by ASCII white space. *)
Definition parse_request_line (request_line : str) : result connect_error str :=
  match split_ascii_whitespace request_line with
  | [method; authority; version] =>
      if str_eqb method (lit "CONNECT") && str_eqb version (lit "HTTP/1.1")
      then Ok authority else Err ConnectUnsupported
  | _ => Err ConnectUnsupported
  end.

(** The parsing half of [read_connect_request]: authority, Host value, and
    whether a body is declared. *)
Definition parse_head (headers : str) : result connect_error (str * option str * bool) :=
  if negb (from_utf8 headers && is_ascii headers) then Err ConnectNotAscii
  else
    match split_crlf (take (length headers - 4) headers) with
    | [] => Err ConnectMissingRequestLine
    | request_line :: lines =>
        authority ← parse_request_line request_line;
        '(host, has_body) ← parse_header_lines None false lines;
        Ok (authority, host, has_body)
    end.

Definition read_connect_request `{AsyncRead R} (stream : R)
    : option (result connect_error (ParsedConnect * R)) :=
  match read_head (S MAX_CONNECT_HEADER_BYTES) [] stream with
  | None => None
  | Some (Err e) => Some (Err e)
  | Some (Ok (headers, read_ahead, stream)) =>
      Some ('(authority, host, has_body) ← parse_head headers;
            Ok (mkParsedConnect authority host has_body read_ahead, stream))
  end.

(** ** [BufferedConnectIo] *)

Record BufferedConnectIo (R : Type) := mkBuffered {
  bc_inner : R;
  bc_read_ahead : str;
  bc_read_ahead_offset : nat;
}.
Arguments mkBuffered {R} _ _ _.
Arguments bc_inner {R} _.
Arguments bc_read_ahead {R} _.
Arguments bc_read_ahead_offset {R} _.

Definition buffered_new {R} (inner : R) (read_ahead : str) : BufferedConnectIo R :=
  mkBuffered inner read_ahead 0.

#[export] Instance buffered_read `{AsyncRead R} : AsyncRead (BufferedConnectIo R) := λ n this,
  if (bc_read_ahead_offset this <? length (bc_read_ahead this))%nat then
    let remaining := drop (bc_read_ahead_offset this) (bc_read_ahead this) in
    let read := Nat.min (length remaining) n in
    Some (take read remaining,
          mkBuffered (bc_inner this) (bc_read_ahead this) (bc_read_ahead_offset this + read))
  else
    match async_read n (bc_inner this) with
    | None => None
    | Some (got, inner) =>
        Some (got, mkBuffered inner (bc_read_ahead this) (bc_read_ahead_offset this))
    end.

(** ** Relaying *)

Definition COPY_BUFFER_BYTES : nat := N.to_nat (8 * 1024).
Definition saturating_add_u64 (a b : N) : N := N.min (a + b) (U64 - 1).

(** One direction: the bytes copied (or [None] for an I/O error) and the
    writer afterwards. *)
Fixpoint copy_until_eof `{AsyncRead R} (fuel : nat) (copied : N) (reader : R) (w : writer)
    : option (option N * writer) :=
  match fuel with
  | 0 => None
  | S fuel =>
      match async_read COPY_BUFFER_BYTES reader with
      | None => Some (None, w)
      | Some (read, reader) =>
          if (length read =? 0)%nat then
            let '(ok, w) := shutdown w in
            Some (if ok then Some copied else None, w)
          else
            let '(ok, w) := write_all read w in
            if ok
            then copy_until_eof fuel (saturating_add_u64 copied (N.of_nat (length read))) reader w
            else Some (None, w)
      end
  end.

(** ** Admission *)

(** [ProxyRuntimeError]'s [Run] is the only error of this module. *)
Inductive client_result := ClientOk | ClientRunError.

(** What [TcpStream::connect] within the timeout gives: the upstream's reading
    and writing halves, an error, or the timeout. *)
Inductive dial := DialConnected (reader : connection) (w : writer) | DialFailed | DialTimedOut.

(** How a client's connection goes on after admission. *)
Inductive route (R : Type) :=
| RouteClosed (result : client_result)
| RouteTunnel (destination : Destination) (client : BufferedConnectIo R)
| RouteIntercept (authority : str) (destination : Destination) (client : BufferedConnectIo R).
Arguments RouteClosed {R} _.
Arguments RouteTunnel {R} _ _.
Arguments RouteIntercept {R} _ _ _.

Definition crlf : str := ["013"; "010"].
Definition status_response (status : str) : str :=
  lit "HTTP/1.1 " ++ status ++ crlf ++ lit "Connection: close" ++ crlf ++ crlf.
Definition response_400 := status_response (lit "400 Bad Request").
Definition response_403 := status_response (lit "403 Forbidden").
Definition response_408 := status_response (lit "408 Request Timeout").
Definition response_502 := status_response (lit "502 Bad Gateway").
Definition response_504 := status_response (lit "504 Gateway Timeout").
Definition response_200 := lit "HTTP/1.1 200 Connection Established" ++ crlf ++ crlf.

(** [handle_client] up to the call of [handle_tunnel] or [intercept_client].
    [timed_out] says that the read timeout fired before the head was complete.
    The answer's failure to be written is ignored by the source. *)
Definition handle_client `{UrlHost} `{AsyncRead R} (timed_out : bool) (client : R) (w : writer)
    (policy : Policy) (metrics : Metrics) : option (route R * writer * Metrics) :=
  if timed_out then Some (RouteClosed ClientOk, (write_all response_408 w).2, metrics)
  else
    match read_connect_request client with
    | None => None
    | Some (Err _) => Some (RouteClosed ClientRunError, (write_all response_400 w).2, metrics)
    | Some (Ok (parsed, client)) =>
        let client := buffered_new client (pc_read_ahead parsed) in
        let host_headers := option_list (pc_host parsed) in
        match authorize_connect_authority policy (pc_authority parsed) host_headers with
        | Err _ => Some (RouteClosed ClientOk, (write_all response_403 w).2, (denied_request metrics).1)
        | Ok (mode, destination) =>
            if pc_has_body parsed
            then Some (RouteClosed ClientOk, (write_all response_400 w).2, (denied_request metrics).1)
            else if bool_decide (mode = Tunnel) then Some (RouteTunnel destination client, w, metrics)
            else Some (RouteIntercept (pc_authority parsed) destination client, w, metrics)
        end
    end.

(** Both directions joined: [None] inside for an error of either. An error
    cancels the other direction wherever it is and both sockets are dropped,
    so the writers are returned only for a relay that ends well. *)
Definition copy_bidirectional `{AsyncRead A} `{AsyncRead B} (fuel : nat)
    (left : A) (left_w : writer) (right : B) (right_w : writer)
    : option (option (N * N * writer * writer)) :=
  match copy_until_eof fuel 0 left right_w, copy_until_eof fuel 0 right left_w with
  | Some (Some to_right, right_w), Some (Some to_left, left_w) =>
      Some (Some (to_right, to_left, left_w, right_w))
  | Some _, Some _ => Some None
  | _, _ => None
  end.

(** How a tunnel ends: its result, the client's writer, the upstream's where
    the relay ended well, and the counters. *)
Record tunnel_end := mkTunnelEnd {
  te_result : client_result;
  te_client : writer;
  te_upstream : option writer;
  te_metrics : Metrics;
}.

Definition handle_tunnel `{AsyncRead R} (fuel : nat) (client : R) (w : writer) (outcome : dial)
    (metrics : Metrics) : option tunnel_end :=
  match outcome with
  | DialFailed =>
      Some (mkTunnelEnd ClientRunError (write_all response_502 w).2 None (upstream_failure metrics).1)
  | DialTimedOut =>
      Some (mkTunnelEnd ClientOk (write_all response_504 w).2 None (upstream_failure metrics).1)
  | DialConnected upstream upstream_w =>
      let '(ok, w) := write_all response_200 w in
      if negb ok then Some (mkTunnelEnd ClientRunError w None metrics)
      else
        match copy_bidirectional fuel client w upstream upstream_w with
        | None => None
        | Some None => Some (mkTunnelEnd ClientRunError w None metrics)
        | Some (Some (_, _, w, upstream_w)) => Some (mkTunnelEnd ClientOk w (Some upstream_w) metrics)
        end
  end.

Example connect_ex1 :
  read_connect_request [Data (lit "CONNECT Example.com:443 HT");
                        Data (lit "TP/1.1" ++ crlf ++ lit "Host:  example.com " ++ ["013"]);
                        Data (["010"; "013"; "010"] ++ lit "hello"); Data (lit " world")]
  = Some (Ok (mkParsedConnect (lit "Example.com:443") (Some (lit "example.com")) false (lit "hello"),
              [Data (lit " world")])).
Proof. vm_compute. reflexivity. Qed.

(** ** The head's end *)

Lemma position_crlf2_Some s p :
  position_crlf2 s = Some p → ∃ a b, s = a ++ CRLF2 ++ b ∧ length a = p.
Proof.
  revert p. induction s as [|c s IH]; cbn [position_crlf2]; intros p Hp; [done|].
  destruct (starts_with CRLF2 (c :: s)) eqn:Hs.
  - simplify_eq. apply starts_with_true in Hs as [k ->]. by exists [], k.
  - destruct (position_crlf2 s) as [q|]; [|done]. simplify_eq/=.
    destruct (IH q eq_refl) as (a & b & -> & <-). by exists (c :: a), b.
Qed.

Lemma position_crlf2_length s p : position_crlf2 s = Some p → p + 4 ≤ length s.
Proof. intros (a & b & -> & <-)%position_crlf2_Some. rewrite !length_app. cbn. lia. Qed.

(** A test on a prefix is not changed by what follows, once it is there. *)
Lemma starts_with_app p s t : length p ≤ length s → starts_with p (s ++ t) = starts_with p s.
Proof.
  intros Hl. apply eq_true_iff_eq. rewrite !starts_with_true. split.
  - intros [k Hk]. exists (drop (length p) s).
    rewrite <-(take_drop (length p) s) at 1. f_equal.
    apply (f_equal (take (length p))) in Hk. by rewrite take_app_le, take_app_length in Hk.
  - intros [k ->]. exists (k ++ t). by rewrite app_assoc.
Qed.

Lemma position_crlf2_app s t p : position_crlf2 s = Some p → position_crlf2 (s ++ t) = Some p.
Proof.
  revert p. induction s as [|c s IH]; cbn [position_crlf2 app]; intros p Hp; [done|].
  change (c :: s ++ t) with ((c :: s) ++ t). destruct (decide (4 ≤ length (c :: s))) as [Hl|Hl].
  - rewrite starts_with_app by done. destruct (starts_with CRLF2 (c :: s)); [done|].
    destruct (position_crlf2 s) as [q|]; simplify_eq/=. by rewrite (IH q eq_refl).
  - exfalso. assert (position_crlf2 (c :: s) = Some p) as ?%position_crlf2_length by done. lia.
Qed.

Lemma position_crlf2_later s t p :
  position_crlf2 s = None → position_crlf2 (s ++ t) = Some p → length s < p + 4.
Proof.
  revert p. induction s as [|c s IH]; intros p Hn Hp; [cbn; lia|].
  cbn [position_crlf2 app] in *. change (c :: s ++ t) with ((c :: s) ++ t) in Hp.
  destruct (decide (4 ≤ length (c :: s))) as [Hl|Hl]; [|cbn in *; lia].
  rewrite starts_with_app in Hp by done. destruct (starts_with CRLF2 (c :: s)); [done|].
  destruct (position_crlf2 s) eqn:?; [done|].
  destruct (position_crlf2 (s ++ t)) as [q|]; simplify_eq/=.
  specialize (IH q eq_refl eq_refl). lia.
Qed.

(** ** Reading the head does not depend on the fragmentation *)

(** The reference: cut the whole byte string at its first terminator. *)
Definition split_head (all : str) : result connect_error (str * str) :=
  match position_crlf2 all with
  | Some position =>
      if (position + 4 <=? MAX_CONNECT_HEADER_BYTES)%nat
      then Ok (take (position + 4) all, drop (position + 4) all)
      else Err ConnectTooLarge
  | None =>
      if (MAX_CONNECT_HEADER_BYTES <=? length all)%nat then Err ConnectTooLarge
      else Err ConnectEarlyEof
  end.

Section reading.
Context `{AsyncReadSpec R}.

Lemma read_head_split fuel bytes stream bs :
  delivers stream bs → position_crlf2 bytes = None → length bytes < MAX_CONNECT_HEADER_BYTES →
  MAX_CONNECT_HEADER_BYTES < fuel + length bytes →
  match split_head (bytes ++ bs) with
  | Err e => read_head fuel bytes stream = Some (Err e)
  | Ok (head, body) => ∃ read_ahead stream' rest,
      read_head fuel bytes stream = Some (Ok (head, read_ahead, stream')) ∧
      delivers stream' rest ∧ read_ahead ++ rest = body ∧
      length head + length read_ahead < MAX_CONNECT_HEADER_BYTES + READ_BUFFER_BYTES
  end.
Proof.
  revert bytes stream bs. induction fuel as [|fuel IH]; intros bytes stream bs Hd Hn Hl Hf; [lia|].
  cbn [read_head].
  assert (0 < READ_BUFFER_BYTES) as Hbuf by (unfold READ_BUFFER_BYTES; lia).
  rewrite (proj2 (Nat.eqb_neq _ _)), Nat.min_r by lia.
  destruct (async_read_delivers _ _ READ_BUFFER_BYTES Hd Hbuf)
    as (got & stream' & rest & -> & Hd' & -> & Hlen & Hgot).
  destruct (Nat.eqb_spec (length got) 0) as [Hz|Hz].
  { apply nil_length_inv in Hz as ->. cbn in *. destruct rest; [|by destruct Hgot].
    rewrite app_nil_r. unfold split_head. rewrite Hn.
    by rewrite (proj2 (Nat.leb_gt _ _)) by lia. }
  rewrite app_assoc. destruct (position_crlf2 (bytes ++ got)) as [p|] eqn:Hp.
  - unfold split_head. rewrite (position_crlf2_app _ rest _ Hp).
    apply position_crlf2_length in Hp as Hpl. rewrite length_app in Hpl.
    destruct (_ <=? _)%nat; [|done].
    exists (drop (p + 4) (bytes ++ got)), stream', rest. split_and!; [|done|..].
    + by rewrite (take_app_le (bytes ++ got) rest) by (rewrite length_app; lia).
    + by rewrite (drop_app_le (bytes ++ got) rest) by (rewrite length_app; lia).
    + rewrite length_take, length_drop, !length_app. lia.
  - destruct (Nat.leb_spec MAX_CONNECT_HEADER_BYTES (length (bytes ++ got))) as [Hm|Hm].
    + unfold split_head. destruct (position_crlf2 ((bytes ++ got) ++ rest)) as [p|] eqn:Hp'.
      * apply position_crlf2_later in Hp'; [|done].
        by rewrite (proj2 (Nat.leb_gt _ _)) by lia.
      * rewrite (proj2 (Nat.leb_le _ _)); [done|]. rewrite length_app. lia.
    + apply IH; [done..|]. rewrite length_app. lia.
Qed.

(** C34: reading the head of a CONNECT is independent of how the bytes are cut
    into reads, terminates, and is bounded: for every stream that delivers a
    byte string the loop ends, and answers as the reference does on the whole
    string (the head up to the first blank line, or the error for a head
    beyond 16 KiB or cut off); the read-ahead and what the stream still
    delivers are together exactly the bytes after the head, and fewer than
    20 KiB are ever buffered. *)
Theorem read_head_fragmentation stream all :
  delivers stream all →
  match split_head all with
  | Err e => read_head (S MAX_CONNECT_HEADER_BYTES) [] stream = Some (Err e)
  | Ok (head, body) => ∃ read_ahead stream' rest,
      read_head (S MAX_CONNECT_HEADER_BYTES) [] stream = Some (Ok (head, read_ahead, stream')) ∧
      delivers stream' rest ∧ read_ahead ++ rest = body ∧
      length head + length read_ahead < MAX_CONNECT_HEADER_BYTES + READ_BUFFER_BYTES
  end.
Proof.
  intros Hd. apply (read_head_split _ [] stream all); [done|done| |]; cbn [length]; [|lia].
  unfold MAX_CONNECT_HEADER_BYTES. lia.
Qed.
End reading.

(** ** The read-ahead is given back *)

(** A buffered stream delivers what is left of the read-ahead, then what the
    inner stream delivers. *)
Definition buffered_delivers `{AsyncReadSpec R} (b : BufferedConnectIo R) (bs : str) : Prop :=
  ∃ rest, delivers (bc_inner b) rest ∧ bs = drop (bc_read_ahead_offset b) (bc_read_ahead b) ++ rest.

#[export, refine] Instance buffered_read_spec `{AsyncReadSpec R} : AsyncReadSpec (BufferedConnectIo R) := {
  delivers := buffered_delivers;
}.
Proof.
  intros [inner ahead off] bs n (rest & Hd & ->) Hn. cbn [bc_inner bc_read_ahead bc_read_ahead_offset] in *.
  unfold async_read, buffered_read. cbn [bc_inner bc_read_ahead bc_read_ahead_offset].
  destruct (Nat.ltb_spec off (length ahead)) as [Hl|Hl].
  - set (left := drop off ahead). set (k := Nat.min (length left) n).
    assert (length left = length ahead - off) as Hll by apply length_drop.
    exists (take k left), (mkBuffered inner ahead (off + k)), (drop k left ++ rest). split_and!.
    + done.
    + exists rest. cbn. by rewrite <-drop_drop.
    + by rewrite app_assoc, take_drop.
    + rewrite length_take. lia.
    + intros _ He. apply (f_equal length) in He. rewrite length_take in He. cbn in He. lia.
  - destruct (async_read_delivers _ _ n Hd Hn) as (got & inner' & rest' & -> & Hd' & -> & Hlen & Hgot).
    exists got, (mkBuffered inner' ahead off), rest'. rewrite drop_ge by lia. cbn.
    split_and!; [done| |done|done|done]. exists rest'. cbn. by rewrite drop_ge by lia.
Defined.

(** ** Header lines *)

(** The trimmed value of a line whose name is [name], in any letter case. *)
Definition header_value (name line : str) : option str :=
  match split_once ":" line with
  | Some (n, value) => if eq_ignore_ascii_case n name then Some (trim value) else None
  | None => None
  end.

Definition declares_body (line : str) : bool :=
  bool_decide (is_Some (header_value (lit "transfer-encoding") line)) ||
  bool_decide (is_Some (header_value (lit "expect") line)) ||
  match header_value (lit "content-length") line with
  | Some value => negb (str_eqb value (lit "0"))
  | None => false
  end.

Lemma eq_ignore_ascii_case_iff a b :
  eq_ignore_ascii_case a b = true ↔ to_ascii_lowercase a = to_ascii_lowercase b.
Proof. apply bool_decide_eq_true. Qed.

(** A name that spells one of the tested names spells no other. *)
Lemma header_name_exclusive n a b :
  eq_ignore_ascii_case n a = true → eq_ignore_ascii_case a b = false → eq_ignore_ascii_case n b = false.
Proof.
  rewrite eq_ignore_ascii_case_iff, <-!not_true_iff_false, !eq_ignore_ascii_case_iff. congruence.
Qed.

(** One line: what it adds to the Host values and to the body flag. *)
Lemma parse_header_line host hb line rest :
  parse_header_lines host hb (line :: rest) =
  (if negb (contains_char ":" line) then Err ConnectInvalidHeader
  else match header_value (lit "host") line, host with
       | Some _, Some _ => Err ConnectDuplicateHost
       | Some value, None => parse_header_lines (Some value) hb rest
       | None, _ => parse_header_lines host (hb || declares_body line) rest
       end) ∧
  (is_Some (header_value (lit "host") line) → declares_body line = false).
Proof.
  unfold declares_body, header_value. cbn [parse_header_lines].
  destruct (split_once ":" line) as [[n v]|] eqn:Hs.
  2:{ apply split_once_None in Hs. rewrite (proj2 (contains_char_false _ _)) by done.
      split; [done|]. by intros []. }
  apply split_once_Some in Hs as [-> _].
  rewrite (proj2 (contains_char_true _ _)) by set_solver. cbn [negb].
  destruct (eq_ignore_ascii_case n (lit "host")) eqn:H1.
  { rewrite !(header_name_exclusive n (lit "host") _ H1) by done. by destruct host. }
  split; [|by intros []].
  destruct (eq_ignore_ascii_case n (lit "transfer-encoding")) eqn:H2; [by rewrite orb_true_r|].
  destruct (eq_ignore_ascii_case n (lit "content-length")) eqn:H3.
  { rewrite (header_name_exclusive n _ (lit "expect") H3) by done. cbn.
    by destruct (str_eqb _ _), hb. }
  destruct (eq_ignore_ascii_case n (lit "expect")) eqn:H4; cbn; by rewrite ?orb_true_r, ?orb_false_r.
Qed.

Lemma parse_header_lines_Ok host hb lines host' hb' :
  parse_header_lines host hb lines = Ok (host', hb') ↔
  (∀ line, line ∈ lines → ":" ∈ line) ∧
  option_list host ++ omap (header_value (lit "host")) lines = option_list host' ∧
  hb' = hb || existsb declares_body lines.
Proof.
  revert host hb. induction lines as [|line lines IH]; intros host hb.
  { cbn. rewrite app_nil_r, orb_false_r. split.
    - intros [= <- <-]. split_and!; [set_solver|done..].
    - intros (_ & Ho & ->). by destruct host, host'; simplify_eq/=. }
  destruct (parse_header_line host hb line lines) as [-> Hb].
  destruct (contains_char ":" line) eqn:Hc; cbn [negb].
  2:{ apply contains_char_false in Hc. split; [done|]. intros [Hall _]. set_solver. }
  apply contains_char_true in Hc. cbn [omap list_omap existsb].
  assert ((∀ l, l ∈ line :: lines → ":" ∈ l) ↔ ∀ l, l ∈ lines → ":" ∈ l) as -> by set_solver.
  destruct (header_value (lit "host") line) as [v|].
  - rewrite Hb, orb_false_l by done. destruct host as [h|]; [|by rewrite IH].
    split; [done|]. intros (_ & Ho & _). by destruct host'.
  - by rewrite IH, orb_assoc.
Qed.

(** What the header section of a CONNECT means: it parses exactly when
    every line has a colon and at most one line is a Host header; the Host
    value is that line's, trimmed, and a body is declared exactly when some
    line is a Transfer-Encoding, an Expect, or a Content-Length other than
    zero, in any letter case. *)
Lemma parse_header_lines_exact lines host has_body :
  parse_header_lines None false lines = Ok (host, has_body) ↔
  (∀ line, line ∈ lines → ":" ∈ line) ∧
  omap (header_value (lit "host")) lines = option_list host ∧
  has_body = existsb declares_body lines.
Proof. apply (parse_header_lines_Ok None false). Qed.

(** ** Admission *)

Section admission.
Context `{UrlHost} `{!UrlHostLaws} `{Crypto} `{AsyncReadSpec R}.

(** The request that a byte string starts with, and the bytes after it. *)
Definition connect_request (all : str) : option (str * option str * bool * str) :=
  match split_head all with
  | Ok (head, body) =>
      match parse_head head with
      | Ok (authority, host, has_body) => Some (authority, host, has_body, body)
      | Err _ => None
      end
  | Err _ => None
  end.

Lemma read_connect_request_spec stream all :
  delivers stream all →
  match connect_request all with
  | None => ∃ e, read_connect_request stream = Some (Err e)
  | Some (authority, host, has_body, body) => ∃ read_ahead stream' rest,
      read_connect_request stream =
        Some (Ok (mkParsedConnect authority host has_body read_ahead, stream')) ∧
      delivers stream' rest ∧ read_ahead ++ rest = body
  end.
Proof using Type.
  intros Hd. assert (length (@nil ascii) < MAX_CONNECT_HEADER_BYTES) as Hl
    by (unfold MAX_CONNECT_HEADER_BYTES; cbn; lia).
  pose proof (read_head_split (S MAX_CONNECT_HEADER_BYTES) [] stream all Hd eq_refl Hl ltac:(cbn; lia)) as Hr.
  cbn [app] in Hr. unfold read_connect_request, connect_request.
  destruct (split_head all) as [[head body]|e]; [|rewrite Hr; eauto].
  destruct Hr as (ahead & stream' & rest & -> & Hd' & Hrest & _).
  destruct (parse_head head) as [[[authority host] has_body]|e]; [|by eexists].
  by exists ahead, stream', rest.
Qed.

(** The way an admitted client goes on. *)
Definition route_of (mode : RuleMode) (authority : str) (d : Destination) (c : BufferedConnectIo R) : route R :=
  match mode with Tunnel => RouteTunnel d c | Intercept => RouteIntercept authority d c end.

Lemma handle_client_request client all w policy metrics :
  delivers client all →
  ∃ c, handle_client false client w policy metrics =
    match connect_request all with
    | None => Some (RouteClosed ClientRunError, (write_all response_400 w).2, metrics)
    | Some (authority, host, has_body, body) =>
        match authorize_connect_authority policy authority (option_list host) with
        | Err _ => Some (RouteClosed ClientOk, (write_all response_403 w).2, (denied_request metrics).1)
        | Ok (mode, d) =>
            if has_body
            then Some (RouteClosed ClientOk, (write_all response_400 w).2, (denied_request metrics).1)
            else Some (route_of mode authority d c, w, metrics)
        end
    end ∧
    ∀ a h b body, connect_request all = Some (a, h, b, body) → delivers c body.
Proof using Type.
  intros Hd. pose proof (read_connect_request_spec client all Hd) as Hr. unfold handle_client.
  destruct (connect_request all) as [[[[authority host] has_body] body]|].
  - destruct Hr as (ahead & stream' & rest & -> & Hd' & <-). cbn.
    exists (buffered_new stream' ahead). split.
    + destruct (authorize_connect_authority _ _ _) as [[[] d]|]; [..|done]; by destruct has_body.
    + intros a h b body [= <- <- <- <-]. exists rest. by rewrite drop_0.
  - destruct Hr as [e ->]. exists (buffered_new client []). done.
Qed.

(** A request without a body that the configuration admits to [d] in [mode]. *)
Definition admitted (sc : SessionConfig) (all authority body : str) (mode : RuleMode) (d : Destination) : Prop :=
  ∃ host, connect_request all = Some (authority, host, false, body) ∧ names authority d ∧
    host_headers_agree (option_list host) d ∧ allows sc d mode.

(** C7: CONNECT admission is exactly the policy. Whatever the fragmentation,
    a client whose bytes are [all] is routed on if and only if [all] starts
    with a well-formed CONNECT without a body, whose authority and optional
    Host header denote a destination that the configuration allows; it is then
    routed to that destination in the allowed mode, what the next protocol
    reads is exactly the bytes after the request's head, nothing has been
    answered, and no counter has moved. *)
Theorem handle_client_admission sc seed client all w metrics :
  delivers client all → session_wf sc →
  (∀ r w' m', handle_client false client w (compile sc seed) metrics = Some (r, w', m') →
     (∃ res, r = RouteClosed res) ∨
     ∃ authority body mode d c, admitted sc all authority body mode d ∧
       r = route_of mode authority d c ∧ delivers c body ∧ w' = w ∧ m' = metrics) ∧
  (∀ authority body mode d, admitted sc all authority body mode d →
     ∃ c, handle_client false client w (compile sc seed) metrics =
            Some (route_of mode authority d c, w, metrics) ∧ delivers c body).
Proof using Type*.
  intros Hd Hwf. destruct (handle_client_request client all w (compile sc seed) metrics Hd) as (c & -> & Hc).
  split.
  - intros r w' m' Heq.
    destruct (connect_request all) as [[[[authority host] has_body] body]|] eqn:Hreq; [|naive_solver].
    destruct (authorize_connect_authority _ _ _) as [[mode d]|] eqn:Ha; [|naive_solver].
    destruct has_body; [naive_solver|]. simplify_eq. right.
    exists authority, body, mode, d, c. split_and!; [|done|by eapply Hc|done..].
    exists host. by apply authorize_connect_Ok in Ha.
  - intros authority body mode d (host & Hreq & Ha). exists c. rewrite Hreq.
    apply (authorize_connect_Ok sc seed) in Ha as ->; [|done]. eauto.
Qed.

(** A client that is not admitted gets exactly one error answer and no
    connection: for every stream that delivers a byte string [handle_client]
    returns, and either routes the client silently or closes it after writing
    one of the 400 and 403 answers; a denial is counted exactly for a
    well-formed CONNECT. *)
Theorem handle_client_closes sc seed client all w metrics :
  delivers client all →
  ∃ r w' m', handle_client false client w (compile sc seed) metrics = Some (r, w', m') ∧
    match r with
    | RouteClosed res =>
        (w' = (write_all response_400 w).2 ∨ w' = (write_all response_403 w).2) ∧
        (res = ClientRunError ↔ connect_request all = None) ∧
        m' = (if decide (connect_request all = None) then metrics else (denied_request metrics).1)
    | _ => w' = w ∧ m' = metrics
    end.
Proof using Type.
  intros Hd. destruct (handle_client_request client all w (compile sc seed) metrics Hd) as (c & -> & _).
  destruct (connect_request all) as [[[[authority host] has_body] body]|] eqn:Hreq.
  - destruct (authorize_connect_authority _ _ _) as [[mode d]|] eqn:Ha; [destruct has_body|].
    + eexists _, _, _. split; [done|]. cbn. split_and!; [by left|done|done].
    + eexists _, _, _. split; [done|]. by destruct mode.
    + eexists _, _, _. split; [done|]. cbn. split_and!; [by right|done|done].
  - eexists _, _, _. split; [done|]. cbn. split_and!; [by left|done|done].
Qed.
End admission.

(** ** Relaying *)

Section relay.
Context `{AsyncReadSpec R}.

Lemma copy_until_eof_reliable fuel copied reader w bs :
  delivers reader bs → reliable w → length bs < fuel → (copied ≤ U64 - 1)%N →
  ∃ plan, copy_until_eof fuel copied reader w =
    Some (Some (saturating_add_u64 copied (N.of_nat (length bs))), mkWriter plan (w_written w ++ bs) true).
Proof.
  revert copied reader w bs. induction fuel as [|fuel IH]; intros copied reader w bs Hd Hw Hf Hc; [lia|].
  cbn [copy_until_eof]. assert (0 < COPY_BUFFER_BYTES) as Hb by (unfold COPY_BUFFER_BYTES; lia).
  destruct (async_read_delivers _ _ COPY_BUFFER_BYTES Hd Hb)
    as (got & reader' & rest & -> & Hd' & -> & Hlen & Hgot).
  destruct (Nat.eqb_spec (length got) 0) as [Hz|Hz].
  - apply nil_length_inv in Hz as ->. cbn [app] in *. destruct rest; [|by destruct Hgot].
    destruct (shutdown_reliable w Hw) as [plan ->]. exists plan. rewrite app_nil_r.
    unfold saturating_add_u64. cbn [length N.of_nat]. rewrite N.add_0_r, N.min_l by done. done.
  - destruct (write_all_reliable got w Hw) as (plan & -> & Hplan).
    rewrite length_app in Hf.
    destruct (IH (saturating_add_u64 copied (N.of_nat (length got))) reader'
                (mkWriter plan (w_written w ++ got) (w_shutdown w)) rest) as [plan' ->];
      [done|done|lia|unfold saturating_add_u64; lia|].
    exists plan'. cbn [w_written]. rewrite <-app_assoc. do 3 f_equal.
    unfold saturating_add_u64. rewrite length_app, Nat2N.inj_add. lia.
Qed.

Lemma copy_until_eof_safe fuel copied reader w bs out w' :
  delivers reader bs → copy_until_eof fuel copied reader w = Some (out, w') →
  ∃ part, w_written w' = w_written w ++ part ∧ part `prefix_of` bs ∧
    (is_Some out → part = bs ∧ w_shutdown w' = true) ∧
    (out = None → w_shutdown w' = w_shutdown w).
Proof.
  revert copied reader w bs. induction fuel as [|fuel IH]; intros copied reader w bs Hd Hc; [done|].
  cbn [copy_until_eof] in Hc. assert (0 < COPY_BUFFER_BYTES) as Hb by (unfold COPY_BUFFER_BYTES; lia).
  destruct (async_read_delivers _ _ COPY_BUFFER_BYTES Hd Hb)
    as (got & reader' & rest & Hr & Hd' & -> & Hlen & Hgot). rewrite Hr in Hc.
  destruct (Nat.eqb_spec (length got) 0) as [Hz|Hz].
  - apply nil_length_inv in Hz as ->. cbn [app] in *. destruct rest; [|by destruct Hgot].
    unfold shutdown in Hc. destruct (plan_next _) as [[|k] plan]; simplify_eq; exists []; cbn;
      rewrite app_nil_r; split_and!; try done; by intros [].
  - destruct (write_all got w) as [ok w1] eqn:Hw.
    apply write_all_prefix in Hw as (part & Hp & Hpre & Hok & Hs). destruct ok.
    + rewrite Hok in * by done. eapply IH in Hc as (part' & Hw' & Hpre' & Hout & Hnone); [|done].
      exists (got ++ part'). rewrite Hw', Hp, <-app_assoc. split_and!; [done|by apply prefix_app| |].
      * intros Ho. destruct (Hout Ho) as [-> ?]. done.
      * intros Ho. rewrite Hnone by done. done.
    + simplify_eq. exists part. split_and!; [done| |by intros []|done].
      etrans; [done|]. by eexists.
Qed.
End relay.

Section tunnel.
Context `{AsyncReadSpec R}.

(** Relaying one direction is faithful: with a reliable writer the loop
    ends, the writer has received exactly the bytes the reader delivers, in
    order, followed by the shutdown, and the count is their number (capped at
    2^64-1); and however writes fail, what was written is a prefix of those
    bytes, and the peer's writer is shut down only after all of them. *)
Lemma copy_until_eof_faithful reader w bs :
  delivers reader bs →
  (reliable w → ∀ fuel, length bs < fuel → ∃ plan,
     copy_until_eof fuel 0 reader w =
       Some (Some (N.min (N.of_nat (length bs)) (U64 - 1)), mkWriter plan (w_written w ++ bs) true)) ∧
  (∀ fuel out w', copy_until_eof fuel 0 reader w = Some (out, w') →
     ∃ part, w_written w' = w_written w ++ part ∧ part `prefix_of` bs ∧
       (is_Some out → part = bs ∧ w_shutdown w' = true) ∧
       (out = None → w_shutdown w' = w_shutdown w)).
Proof.
  intros Hd. split.
  - intros Hw fuel Hf. by apply (copy_until_eof_reliable fuel 0 reader w bs).
  - intros fuel out w' Hc. by eapply copy_until_eof_safe.
Qed.

(** C32: a tunnel is a transparent pipe: once the upstream is dialled and
    neither side's writes fail, the client receives the 200 answer followed
    by exactly the upstream's bytes, the upstream exactly the client's, both
    directions are shut down and the counters do not move; an upstream that
    cannot be dialled costs one answer, one counted failure, and no byte. *)
Theorem handle_tunnel_transparent fuel (client : R) w metrics bs :
  delivers client bs → reliable w →
  (∀ upstream upstream_w us, delivers upstream us → reliable upstream_w →
     length bs < fuel → length us < fuel →
     ∃ p1 p2, handle_tunnel fuel client w (DialConnected upstream upstream_w) metrics =
       Some (mkTunnelEnd ClientOk (mkWriter p1 (w_written w ++ response_200 ++ us) true)
               (Some (mkWriter p2 (w_written upstream_w ++ bs) true)) metrics)) ∧
  (∀ outcome, outcome = DialFailed ∨ outcome = DialTimedOut →
     ∃ e, handle_tunnel fuel client w outcome metrics = Some e ∧ te_upstream e = None ∧
       te_metrics e = (upstream_failure metrics).1 ∧
       w_written (te_client e) = w_written w ++ match outcome with DialFailed => response_502 | _ => response_504 end).
Proof.
  intros Hd Hw. split.
  - intros upstream uw us Hu Huw H1 H2. unfold handle_tunnel.
    destruct (write_all_reliable response_200 w Hw) as (plan & -> & Hplan). cbn [negb].
    unfold copy_bidirectional.
    destruct (copy_until_eof_reliable fuel 0 client uw bs) as [p2 ->]; [done..|unfold U64; lia|].
    destruct (copy_until_eof_reliable fuel 0 upstream
                (mkWriter plan (w_written w ++ response_200) (w_shutdown w)) us) as [p1 ->];
      [done..|unfold U64; lia|].
    exists p1, p2. cbn [w_written]. by rewrite <-app_assoc.
  - intros outcome Ho. unfold handle_tunnel.
    destruct Ho as [-> | ->]; eexists; (split; [done|]); cbn [te_upstream te_metrics te_client];
      [destruct (write_all_reliable response_502 w Hw) as (plan & -> & _)
      |destruct (write_all_reliable response_504 w Hw) as (plan & -> & _)]; done.
Qed.
End tunnel.

(** ** Round trip *)

(** The request a client writes. *)
Definition connect_text (authority host : str) : str :=
  lit "CONNECT " ++ authority ++ lit " HTTP/1.1" ++ crlf ++ lit "Host: " ++ host ++ CRLF2.

Lemma position_crlf2_skip a s :
  "013" ∉ a → position_crlf2 (a ++ s) = (λ p, length a + p) <$> position_crlf2 s.
Proof.
  induction a as [|c a IH]; intros Ha; cbn [position_crlf2 app length].
  { by destruct (position_crlf2 s). }
  destruct (starts_with CRLF2 (c :: a ++ s)) eqn:Hs.
  { apply starts_with_true in Hs as [k [= -> _]]. set_solver. }
  rewrite IH by set_solver. by destruct (position_crlf2 s).
Qed.

Lemma split_crlf_line a s :
  "013" ∉ a → split_crlf (a ++ crlf ++ s) = a :: split_crlf s.
Proof.
  induction a as [|c a IH]; intros Ha; [done|].
  assert (c ≠ "013") by set_solver. cbn [app split_crlf].
  destruct (a ++ crlf ++ s) as [|c' s'] eqn:E; [by destruct a|].
  rewrite decide_False by naive_solver. rewrite IH by set_solver. done.
Qed.

Lemma split_crlf_last a : "013" ∉ a → split_crlf a = [a].
Proof.
  induction a as [|c a IH]; intros Ha; [done|]. assert (c ≠ "013") by set_solver. cbn [split_crlf].
  destruct a as [|c' s']; [done|]. rewrite decide_False by naive_solver. by rewrite IH by set_solver.
Qed.

Lemma split_ws_go_word cur a s :
  forallb (λ c, negb (is_ascii_whitespace c)) a = true →
  split_ws_go cur (a ++ s) = split_ws_go (reverse a ++ cur) s.
Proof.
  revert cur. induction a as [|c a IH]; intros cur Ha; [done|]. cbn in Ha. bool_prop.
  cbn [app split_ws_go]. match goal with H : is_ascii_whitespace c = false |- _ => rewrite H end.
  rewrite IH by done. by rewrite reverse_cons, <-app_assoc.
Qed.

Lemma parse_request_line_connect authority :
  authority ≠ [] → forallb (λ c, negb (is_ascii_whitespace c)) authority = true →
  parse_request_line (lit "CONNECT " ++ authority ++ lit " HTTP/1.1") = Ok authority.
Proof.
  intros Hne Ha. unfold parse_request_line, split_ascii_whitespace.
  assert (split_ws_go [] (lit "CONNECT " ++ authority ++ lit " HTTP/1.1") =
          [lit "CONNECT"; authority; lit "HTTP/1.1"]) as ->; [|done].
  change (lit "CONNECT " ++ authority ++ lit " HTTP/1.1")
    with (lit "CONNECT" ++ " " :: (authority ++ lit " HTTP/1.1")).
  rewrite split_ws_go_word by done. cbn [split_ws_go is_ascii_whitespace].
  change (split_ws_go (reverse (lit "CONNECT") ++ []) (" " :: (authority ++ lit " HTTP/1.1")))
    with (lit "CONNECT" :: split_ws_go [] (authority ++ lit " HTTP/1.1")).
  rewrite split_ws_go_word, (app_nil_r (reverse authority)) by done. f_equal.
  destruct (reverse authority) as [|x xs] eqn:E.
  { by apply (f_equal reverse) in E; rewrite reverse_involutive in E. }
  change (split_ws_go (x :: xs) (lit " HTTP/1.1")) with (reverse (x :: xs) :: [lit "HTTP/1.1"]).
  by rewrite <-E, reverse_involutive.
Qed.

(** A value that is legal in a request: visible ASCII. *)
Definition visible (s : str) : bool := forallb (λ c, in_range 33 126 c) s.

Lemma visible_char c :
  in_range 33 126 c = true → is_ascii_whitespace c = false ∧ c ≠ "013" ∧ is_ascii_byte c = true ∧
    is_trim_space c = false.
Proof. byte_decide c. Qed.

Lemma visible_facts s :
  visible s = true →
  forallb (λ c, negb (is_ascii_whitespace c)) s = true ∧ "013" ∉ s ∧ is_ascii s = true ∧
  trim (" " :: s) = s.
Proof.
  intros Hv. assert (∀ c, c ∈ s → in_range 33 126 c = true) as Hc by by apply forallb_elem.
  split_and!.
  - apply forallb_elem. intros c Hin. by rewrite (proj1 (visible_char c (Hc c Hin))).
  - intros Hin. by destruct (visible_char _ (Hc _ Hin)) as (_ & ? & _).
  - apply forallb_elem. intros c Hin. by apply visible_char, Hc.
  - unfold trim. change (trim_start (" " :: s)) with (trim_start s).
    rewrite (trim_start_id s); [rewrite trim_start_id; [by rewrite reverse_involutive|]|].
    + intros c s' E. apply visible_char, Hc. rewrite <-elem_of_reverse, E. set_solver.
    + intros c s' ->. apply visible_char, Hc. set_solver.
Qed.

(** One line break that is not the blank line. *)
Lemma position_crlf2_break c s :
  c ≠ "013" → position_crlf2 (crlf ++ c :: s) = (λ p, 2 + p) <$> position_crlf2 (c :: s).
Proof.
  intros Hc. unfold crlf. cbn [app].
  assert (∀ a, starts_with CRLF2 ("013" :: "010" :: c :: a) = false) as E1.
  { intros a. apply not_true_iff_false. rewrite starts_with_true. intros [k [= ? _]]. done. }
  assert (∀ a, starts_with CRLF2 ("010" :: c :: a) = false) as E2.
  { intros a. apply not_true_iff_false. rewrite starts_with_true. by intros [k ?]. }
  change (position_crlf2 ("013" :: "010" :: c :: s)) with
    (if starts_with CRLF2 ("013" :: "010" :: c :: s) then Some 0
     else S <$> (if starts_with CRLF2 ("010" :: c :: s) then Some 0 else S <$> position_crlf2 (c :: s))).
  rewrite E1, E2. by destruct (position_crlf2 (c :: s)).
Qed.

Section text.
Context (authority host body : str).
Context (Hauth : visible authority = true) (Hhost : visible host = true).

Definition text_first : str := lit "CONNECT " ++ authority ++ lit " HTTP/1.1".
Definition text_second : str := lit "Host: " ++ host.

Lemma connect_text_lines : connect_text authority host = (text_first ++ crlf ++ text_second) ++ CRLF2.
Proof using Type. unfold connect_text, text_first, text_second. by rewrite <-!app_assoc. Qed.

Lemma text_first_cr : "013" ∉ text_first.
Proof using All.
  destruct (visible_facts _ Hauth) as (_ & Ha & _). unfold text_first. rewrite !elem_of_app.
  intros [Hi|[Hi|Hi]]; [|done|]; vm_compute in Hi; set_solver.
Qed.

Lemma text_second_cr : "013" ∉ text_second.
Proof using All.
  destruct (visible_facts _ Hhost) as (_ & Hh & _). unfold text_second. rewrite elem_of_app.
  intros [Hi|Hi]; [|done]. vm_compute in Hi. set_solver.
Qed.

Lemma split_head_text :
  length (connect_text authority host) ≤ MAX_CONNECT_HEADER_BYTES →
  split_head (connect_text authority host ++ body) = Ok (connect_text authority host, body).
Proof using All.
  intros Hlen.
  assert (position_crlf2 (connect_text authority host ++ body) =
          Some (length (text_first ++ crlf ++ text_second))) as Hp.
  { rewrite connect_text_lines, <-!app_assoc, position_crlf2_skip by apply text_first_cr.
    change (text_second ++ CRLF2 ++ body) with ("H" :: (lit "ost: " ++ host) ++ CRLF2 ++ body).
    rewrite position_crlf2_break by done.
    change ("H" :: (lit "ost: " ++ host) ++ CRLF2 ++ body) with (text_second ++ CRLF2 ++ body).
    rewrite position_crlf2_skip by apply text_second_cr.
    change (position_crlf2 (CRLF2 ++ body)) with (Some 0). cbn. f_equal. rewrite !length_app. cbn. lia. }
  unfold split_head. rewrite Hp. rewrite connect_text_lines in *.
  replace (length (text_first ++ crlf ++ text_second) + 4)
    with (length ((text_first ++ crlf ++ text_second) ++ CRLF2)) by (rewrite !length_app; cbn; lia).
  rewrite (proj2 (Nat.leb_le _ _)), take_app_length, drop_app_length by done. done.
Qed.

Lemma parse_head_text :
  authority ≠ [] → parse_head (connect_text authority host) = Ok (authority, Some host, false).
Proof using All.
  intros Hne.
  destruct (visible_facts _ Hauth) as (Hw & _ & Ha & _), (visible_facts _ Hhost) as (_ & _ & Hh & Ht).
  unfold parse_head.
  assert (is_ascii (connect_text authority host) = true) as Hasc.
  { unfold connect_text. by rewrite !is_ascii_app, Ha, Hh. }
  rewrite is_ascii_utf8, Hasc by done. cbn [andb negb]. rewrite connect_text_lines.
  rewrite (length_app _ CRLF2), Nat.add_sub, take_app_length, split_crlf_line by apply text_first_cr.
  rewrite split_crlf_last by apply text_second_cr.
  unfold text_first. rewrite parse_request_line_connect by done. cbn [mbind result_bind].
  unfold text_second. rewrite (proj1 (parse_header_line _ _ _ _)).
  assert (header_value (lit "host") (lit "Host: " ++ host) = Some (trim (" " :: host))) as ->.
  { unfold header_value. by rewrite (proj2 (split_once_Some ":" _ (lit "Host") (" " :: host))) by set_solver. }
  rewrite (proj2 (contains_char_true _ _)) by set_solver. by rewrite Ht.
Qed.
End text.

(** A CONNECT written for an authority and a Host value of visible
    characters is read back exactly, whatever the fragmentation and whatever
    follows it, and what follows it is left for the next reader. *)
Theorem connect_round_trip `{AsyncReadSpec R} (stream : R) authority host body :
  visible authority = true → visible host = true → authority ≠ [] →
  length (connect_text authority host) ≤ MAX_CONNECT_HEADER_BYTES →
  delivers stream (connect_text authority host ++ body) →
  ∃ read_ahead stream' rest,
    read_connect_request stream =
      Some (Ok (mkParsedConnect authority (Some host) false read_ahead, stream')) ∧
    delivers stream' rest ∧ read_ahead ++ rest = body.
Proof.
  intros Ha Hh Hne Hlen Hd. pose proof (read_connect_request_spec stream _ Hd) as Hr.
  unfold connect_request in Hr. by rewrite split_head_text, parse_head_text in Hr.
Qed.

(** ** Witnesses *)

(** A client that sends a CONNECT for b.example in three pieces, then data. *)
Definition example_text : str := connect_text (lit "b.example:8443") (lit "B.Example:8443").
Definition example_client : connection :=
  [Data (take 10 example_text); Data (drop 10 example_text ++ lit "hel"); Data (lit "lo")].

Lemma example_client_delivers : delivers example_client (example_text ++ lit "hello").
Proof.
  assert (example_text ++ lit "hello" =
          take 10 example_text ++ (drop 10 example_text ++ lit "hel") ++ lit "lo" ++ []) as ->
    by (vm_compute; reflexivity).
  repeat (constructor; [done|]). constructor.
Qed.

Definition example_writer : writer := mkWriter [] [] false.

Lemma read_head_fragmentation_witness : ∃ read_ahead stream' rest,
  read_head (S MAX_CONNECT_HEADER_BYTES) [] example_client = Some (Ok (example_text, read_ahead, stream')) ∧
  delivers stream' rest ∧ read_ahead ++ rest = lit "hello" ∧
  length example_text + length read_ahead < MAX_CONNECT_HEADER_BYTES + READ_BUFFER_BYTES.
Proof.
  pose proof (read_head_fragmentation example_client _ example_client_delivers) as Hw.
  assert (split_head (example_text ++ lit "hello") = Ok (example_text, lit "hello")) as E
    by (vm_compute; reflexivity).
  rewrite E in Hw. exact Hw.
Defined.

Lemma handle_client_admission_witness : ∃ c,
  @handle_client plain_host_parse _ _ false example_client example_writer example_policy metrics_default =
    Some (RouteTunnel (mkDestination (lit "b.example") 8443) c, example_writer, metrics_default) ∧
  delivers c (lit "hello").
Proof.
  destruct (@handle_client_admission plain_host_parse plain_host_laws plain_crypto _ _ _
              example_session [] example_client _ example_writer metrics_default
              example_client_delivers example_session_wf) as [_ Hw].
  apply (Hw (lit "b.example:8443") (lit "hello") Tunnel (mkDestination (lit "b.example") 8443)).
  exists (Some (lit "B.Example:8443")). split_and!.
  - vm_compute. reflexivity.
  - apply (names_port (lit "b.example") _ (lit "8443")); vm_compute; done.
  - right. exists (lit "B.Example:8443"). split; [done|].
    apply (names_port (lit "B.Example") _ (lit "8443")); vm_compute; done.
  - apply (allows_rule example_session (mkHostRule (lit "b.example") Tunnel [443; 8443]%N [] []));
      apply list_elem_of_In; [right; left; reflexivity|right; left; reflexivity].
Defined.

Lemma handle_client_closes_witness : ∃ r w' m',
  @handle_client plain_host_parse _ _ false [Data (lit "junk")] example_writer example_policy metrics_default =
    Some (r, w', m') ∧ m' = metrics_default.
Proof.
  destruct (@handle_client_closes plain_host_parse plain_crypto _ _ _ example_session []
              [Data (lit "junk")] (lit "junk" ++ []) example_writer metrics_default)
    as (r & w' & m' & Hr & Hm).
  { constructor; [done|constructor]. }
  exists r, w', m'. split; [exact Hr|].
  assert (connect_request (lit "junk" ++ []) = None) as E by (vm_compute; reflexivity).
  destruct r; rewrite ?E in Hm; apply Hm.
Defined.

Lemma copy_until_eof_faithful_witness : ∃ plan,
  copy_until_eof 10 0 [Data (lit "ab"); Data (lit "c")] example_writer =
    Some (Some 3%N, mkWriter plan (lit "abc") true).
Proof.
  apply (copy_until_eof_faithful [Data (lit "ab"); Data (lit "c")] example_writer (lit "abc")).
  - apply (delivers_data (lit "ab") _ (lit "c")); [done|].
    apply (delivers_data (lit "c") _ []); [done|constructor].
  - constructor.
  - cbn. lia.
Defined.

Lemma handle_tunnel_transparent_witness : ∃ p1 p2,
  handle_tunnel 10 [Data (lit "ab")] example_writer
    (DialConnected [Data (lit "xyz")] example_writer) metrics_default =
  Some (mkTunnelEnd ClientOk (mkWriter p1 ([] ++ response_200 ++ lit "xyz") true)
          (Some (mkWriter p2 ([] ++ lit "ab") true)) metrics_default).
Proof.
  apply (handle_tunnel_transparent 10 [Data (lit "ab")] example_writer metrics_default (lit "ab")).
  - apply (delivers_data (lit "ab") _ []); [done|constructor].
  - constructor.
  - apply (delivers_data (lit "xyz") _ []); [done|constructor].
  - constructor.
  - cbn. lia.
  - cbn. lia.
Defined.

Lemma connect_round_trip_witness : ∃ read_ahead stream' rest,
  read_connect_request example_client =
    Some (Ok (mkParsedConnect (lit "b.example:8443") (Some (lit "B.Example:8443")) false read_ahead, stream')) ∧
  delivers stream' rest ∧ read_ahead ++ rest = lit "hello".
Proof.
  apply (connect_round_trip example_client (lit "b.example:8443") (lit "B.Example:8443") (lit "hello")).
  - vm_compute. reflexivity.
  - vm_compute. reflexivity.
  - done.
  - apply Nat.leb_le. vm_compute. reflexivity.
  - exact example_client_delivers.
Defined.
