(* ===== verification/TlsIntercept.v ===== *)
(** TLS interception (src/proxy_runtime/rama/tls.rs), and the whole of a client
    connection: admission, then the tunnel or the interception.

    The TLS stack (ClientHello parsing, connector data, handshakes and the HTTP
    relay) is the rama crate's: [TlsStack] is what the program builds from it,
    and the outcomes of one connection are its environment [InterceptEnv]. A
    production build has no test trust anchor, so the upstream is verified
    against the system roots. *)

From S2P Require Import Prelude RustStr PolicyTypes UrlPath DnsName Identifiers SessionDoc SessionPolicy.
From S2P Require Import Secrets Telemetry HttpCredentials AsyncIo ConnectRequest.
From stdpp Require Import options.
Local Open Scope char_scope.

(** ** The TLS stack *)

Class TlsStack := {
  ClientHello : Type;
  ext_server_name : ClientHello → option str;
  Domain : Type;
  domain_try_from : str → option Domain;
  ConnectorData : Type;
}.

Inductive ServerVerifyMode := VerifyAuto | VerifyDisabled.

(** [TlsClientConfig], as the program builds it; [None]: what the crate has by
    default. *)
Record TlsClientConfig `{TlsStack} := mkTlsClientConfig {
  tc_client_hello : ClientHello;
  tc_server_name : option Domain;
  tc_server_verify : option ServerVerifyMode;
  tc_keylog_disabled : bool;
}.

Definition new_from_client_hello `{TlsStack} (hello : ClientHello) : TlsClientConfig :=
  mkTlsClientConfig _ hello None None false.
Definition with_server_name `{TlsStack} (name : Domain) (c : TlsClientConfig) : TlsClientConfig :=
  mkTlsClientConfig _ (tc_client_hello c) (Some name) (tc_server_verify c) (tc_keylog_disabled c).
Definition with_server_verify `{TlsStack} (mode : ServerVerifyMode) (c : TlsClientConfig) : TlsClientConfig :=
  mkTlsClientConfig _ (tc_client_hello c) (tc_server_name c) (Some mode) (tc_keylog_disabled c).
Definition with_keylog_disabled `{TlsStack} (c : TlsClientConfig) : TlsClientConfig :=
  mkTlsClientConfig _ (tc_client_hello c) (tc_server_name c) (tc_server_verify c) true.

Definition rama_host `{TlsStack} (destination : Destination) : option Domain :=
  domain_try_from (d_host destination).

Inductive tcp_connect := TcpConnected | TcpFailed | TcpTimedOut.

(** The outcomes of one connection: the peeked ClientHello ([None]: an error or
    a timeout; [Some None]: not a ClientHello), the connection to the upstream,
    the connector built from a configuration, the two handshakes, the decrypted
    requests in the order they are served, and the end of the relay. *)
Record InterceptEnv `{TlsStack} `{HttpTypes} := mkInterceptEnv {
  ev_peek : option (option ClientHello);
  ev_connect : tcp_connect;
  ev_connector : TlsClientConfig → option ConnectorData;
  ev_handshake : ConnectorData → bool;
  ev_requests : list Request;
  ev_relay_ok : bool;
}.

Inductive RuntimeError := RunError | BuildError.

(** What a connection did: its result, the client's socket, the counters, the
    address it connected to, the TLS client it started, and the answers of the
    policy layer to the decrypted requests. *)
Record intercepted `{TlsStack} `{HttpTypes} := mkIntercepted {
  in_result : result RuntimeError unit;
  in_client : writer;
  in_metrics : Metrics;
  in_contact : option (str * N);
  in_tls : option TlsClientConfig;
  in_served : list served;
}.

Section intercept.
Context `{TlsStack} `{HttpTypes} `{Base64} `{UrlHost}.

(** [HttpMitmRelay] with the policy layer as its middleware. *)
Fixpoint serve_requests (policy : Policy) (authority : str) (secrets : ResolvedSecrets)
    (requests : list Request) (metrics : Metrics) : list served * Metrics :=
  match requests with
  | [] => ([], metrics)
  | request :: rest =>
      let '(answer, metrics) := serve policy authority secrets request metrics in
      let '(answers, metrics) := serve_requests policy authority secrets rest metrics in
      (answer :: answers, metrics)
  end.

Definition egress_config (hello : ClientHello) (host : Domain) : TlsClientConfig :=
  with_keylog_disabled (with_server_verify VerifyAuto (with_server_name host (new_from_client_hello hello))).

(** The part after the upstream is connected. *)
Definition relay_upstream (env : InterceptEnv) (policy : Policy) (secrets : ResolvedSecrets) (authority : str)
    (destination : Destination) (hello : ClientHello) (w : writer) (metrics : Metrics) : intercepted :=
  let contact := Some (d_host destination, d_port destination) in
  match rama_host destination with
  | None => mkIntercepted _ _ (Err BuildError) w metrics contact None []
  | Some host =>
      let config := egress_config hello host in
      match ev_connector env config with
      | None => mkIntercepted _ _ (Err BuildError) w metrics contact None []
      | Some connector =>
          if negb (ev_handshake env connector)
          then mkIntercepted _ _ (Err RunError) w (interception_error metrics).1 contact (Some config) []
          else
            let '(answers, metrics) := serve_requests policy authority secrets (ev_requests env) metrics in
            mkIntercepted _ _ (if ev_relay_ok env then Ok () else Err RunError) w metrics contact (Some config) answers
      end
  end.

Definition intercept_client (env : InterceptEnv) (w : writer) (policy : Policy) (secrets : ResolvedSecrets)
    (authority : str) (destination : Destination) (metrics : Metrics) : intercepted :=
  let '(ok, w) := write_all response_200 w in
  if negb ok then mkIntercepted _ _ (Err RunError) w metrics None None []
  else
    match ev_peek env with
    | None | Some None => mkIntercepted _ _ (Err RunError) w (interception_error metrics).1 None None []
    | Some (Some client_hello) =>
        if negb (permits_tls_interception_authority policy authority (ext_server_name client_hello))
        then mkIntercepted _ _ (Err RunError) w (denied_request metrics).1 None None []
        else
          let contact := Some (d_host destination, d_port destination) in
          match ev_connect env with
          | TcpFailed => mkIntercepted _ _ (Err RunError) w (upstream_failure metrics).1 contact None []
          | TcpTimedOut => mkIntercepted _ _ (Ok ()) w (upstream_failure metrics).1 contact None []
          | TcpConnected => relay_upstream env policy secrets authority destination client_hello w metrics
          end
    end.
End intercept.

(** ** The whole connection *)

(** What a client connection did: the client's socket, the counters, the
    address that was connected to, what a tunnel wrote there, and the
    interception's TLS client and answers. *)
Record client_end `{TlsStack} `{HttpTypes} := mkClientEnd {
  ce_client : writer;
  ce_metrics : Metrics;
  ce_contact : option (str * N);
  ce_upstream : option writer;
  ce_tls : option TlsClientConfig;
  ce_served : list served;
}.

(** [connect::handle_client] with the calls it ends in. *)
Definition serve_client `{TlsStack} `{HttpTypes} `{Base64} `{UrlHost} `{AsyncRead R} (fuel : nat) (timed_out : bool)
    (client : R) (w : writer) (policy : Policy) (secrets : ResolvedSecrets) (outcome : dial) (env : InterceptEnv)
    (metrics : Metrics) : option client_end :=
  match handle_client timed_out client w policy metrics with
  | None => None
  | Some (RouteClosed _, w, metrics) => Some (mkClientEnd _ _ w metrics None None None [])
  | Some (RouteTunnel d client, w, metrics) =>
      e ← handle_tunnel fuel client w outcome metrics;
      Some (mkClientEnd _ _ (te_client e) (te_metrics e) (Some (d_host d, d_port d)) (te_upstream e) None [])
  | Some (RouteIntercept authority d _, w, metrics) =>
      let i := intercept_client env w policy secrets authority d metrics in
      Some (mkClientEnd _ _ (in_client i) (in_metrics i) (in_contact i) None (in_tls i) (in_served i))
  end.

(** No TLS client and no request: both facts about them are empty. *)
Ltac nothing_served := split; [by intros ? [=]|by intros ? ?%elem_of_nil].

Section properties.
Context `{TlsStack} `{HttpTypes} `{!HttpLaws} `{Base64} `{!Base64Laws} `{UrlHost} `{!UrlHostLaws} `{Crypto}.

(** The upstream's identity is checked against the destination of the CONNECT,
    with the system roots, and keys are not logged. *)
Definition verified_for (d : Destination) (c : TlsClientConfig) : Prop :=
  ∃ name, domain_try_from (d_host d) = Some name ∧ tc_server_name c = Some name ∧
    tc_server_verify c = Some VerifyAuto ∧ tc_keylog_disabled c = true.

(** A request that may go to [d], and the form it goes out in. *)
Definition forwarded_for (sc : SessionConfig) (seed : CredentialSeed) (secrets : ResolvedSecrets) (d : Destination)
    (request r' : Request) : Prop :=
  ∃ host_headers rule path headers,
    mapM value_to_str (get_all (rq_headers request) HOST) = Some host_headers ∧
    request_bound (request_facts request host_headers) d ∧
    rule ∈ sc_rules sc ∧ hr_host rule = d_host d ∧ d_port d ∈ hr_ports rule ∧
    path_admitted (hr_paths rule) (default (lit "/") (rq_path request)) path ∧
    apply_header_credentials (rq_headers request) (compile_credential sc seed <$> hr_inject rule) secrets
      = Some headers ∧
    r' = with_headers headers (set_path path request).

Lemma serve_forwarded_for sc seed authority secrets request metrics r' m' d :
  session_wf sc → names authority d →
  serve (compile sc seed) authority secrets request metrics = (Forwarded r', m') →
  forwarded_for sc seed secrets d request r'.
Proof using All.
  intros Hwf Hn Hs. apply serve_forwarded in Hs as (_ & hs & cs & path & headers & Hh & Hau & _ & Ha & ->).
  apply authorize_intercepted_request_Ok in Hau as (d' & rule & Hn' & Hb & Hin & Hho & Hp & Hpath & ->); [|done].
  assert (d' = d) as -> by (by eapply names_det). by exists hs, rule, path, headers.
Qed.

Lemma serve_requests_forwarded sc seed authority secrets d requests r' : session_wf sc → names authority d →
  ∀ metrics, Forwarded r' ∈ (serve_requests (compile sc seed) authority secrets requests metrics).1 →
  ∃ request, request ∈ requests ∧ forwarded_for sc seed secrets d request r'.
Proof using All.
  intros Hwf Hn. induction requests as [|request requests IH]; intros metrics; cbn [serve_requests]; [by intros ?%elem_of_nil|].
  destruct (serve _ _ _ request metrics) as [answer m1] eqn:Hs.
  destruct (serve_requests _ _ _ requests m1) as [answers m2] eqn:Hrest. cbn [fst].
  intros [<-|Hin]%elem_of_cons.
  - exists request. split; [by left|]. by eapply serve_forwarded_for.
  - specialize (IH m1). rewrite Hrest in IH. destruct (IH Hin) as (q & Hq & Hf). exists q. split; [by right|done].
Qed.

(** The client may be intercepted towards [d]: its hello names [d]'s host. *)
Definition greets (env : InterceptEnv) (sc : SessionConfig) (d : Destination) : Prop :=
  ∃ hello name, ev_peek env = Some (Some hello) ∧ ext_server_name hello = Some name ∧
    normalize_dns_name name = Ok (d_host d) ∧ allows sc d Intercept.

Lemma permits_greets sc seed env authority d hello :
  session_wf sc → names authority d → ev_peek env = Some (Some hello) →
  permits_tls_interception_authority (compile sc seed) authority (ext_server_name hello) = true ↔ greets env sc d.
Proof using All.
  intros Hwf Hn Hp. rewrite permits_tls_interception_true by done. split.
  - intros (d' & name & Hn' & Ha & Hs & Hnorm). assert (d' = d) as -> by (by eapply names_det). by exists hello, name.
  - intros (hello' & name & Hp' & Hs & Hnorm & Ha). assert (hello' = hello) as -> by congruence. by exists d, name.
Qed.

(** The stages of an interception, in the order they can be reached. *)
Lemma relay_upstream_stages sc seed env secrets authority d hello w metrics :
  session_wf sc → names authority d →
  let res := relay_upstream env (compile sc seed) secrets authority d hello w metrics in
  in_contact res = Some (d_host d, d_port d) ∧
  (∀ c, in_tls res = Some c → verified_for d c ∧ tc_client_hello c = hello ∧ is_Some (ev_connector env c)) ∧
  (∀ r', Forwarded r' ∈ in_served res →
     is_Some (in_tls res) ∧ ∃ request, request ∈ ev_requests env ∧ forwarded_for sc seed secrets d request r').
Proof using All.
  intros Hwf Hn. unfold relay_upstream, rama_host. cbv zeta.
  destruct (domain_try_from (d_host d)) as [host|] eqn:Hh; [|split; [done|nothing_served]].
  destruct (ev_connector env (egress_config hello host)) as [connector|] eqn:Hk; [|split; [done|nothing_served]].
  assert (Hv : verified_for d (egress_config hello host)) by (by exists host).
  destruct (ev_handshake env connector); cbn [negb].
  - destruct (serve_requests _ _ _ _ _) as [answers m] eqn:Hs. split; [done|]. split; [intros c [= <-]; by eauto|].
    cbn [in_served in_tls]. intros r' Hr. split; [done|].
    apply (serve_requests_forwarded sc seed authority secrets d (ev_requests env) r' Hwf Hn metrics). by rewrite Hs.
  - split; [done|]. split; [intros c [= <-]; by eauto|]. by intros r' ?%elem_of_nil.
Qed.

Lemma intercept_client_stages sc seed env w secrets authority d metrics :
  session_wf sc → names authority d →
  let res := intercept_client env w (compile sc seed) secrets authority d metrics in
  (∀ a, in_contact res = Some a ↔
     a = (d_host d, d_port d) ∧ (write_all response_200 w).1 = true ∧ greets env sc d) ∧
  (∀ c, in_tls res = Some c → is_Some (in_contact res) ∧ ev_connect env = TcpConnected ∧ verified_for d c ∧
     ev_peek env = Some (Some (tc_client_hello c)) ∧ is_Some (ev_connector env c)) ∧
  (∀ r', Forwarded r' ∈ in_served res →
     is_Some (in_tls res) ∧ ∃ request, request ∈ ev_requests env ∧ forwarded_for sc seed secrets d request r').
Proof using All.
  intros Hwf Hn. unfold intercept_client. destruct (write_all response_200 w) as [[] w1]; cbn [negb fst].
  2:{ split; [|nothing_served]. intros a. split; [done|]. by intros (_ & ? & _). }
  destruct (ev_peek env) as [[hello|]|] eqn:Hp.
  2,3: split; [|nothing_served]; intros a; split; [done|];
    intros (_ & _ & hello & name & ? & _); congruence.
  pose proof (permits_greets sc seed env authority d hello Hwf Hn Hp) as Hg.
  destruct (permits_tls_interception_authority _ _ _); cbn [negb].
  2:{ split; [|nothing_served]. intros a. split; [done|]. intros (_ & _ & Hgr).
      apply Hg in Hgr. done. }
  assert (Hgr : greets env sc d) by (by apply Hg).
  assert (Hcontact : ∀ a, Some (d_host d, d_port d) = Some a ↔ a = (d_host d, d_port d) ∧ true = true ∧ greets env sc d).
  { intros a. split; [by intros [= <-]|by intros (-> & _)]. }
  destruct (ev_connect env) eqn:Hc.
  - destruct (relay_upstream_stages sc seed env secrets authority d hello w1 metrics Hwf Hn) as (Ha & Hb & Hd).
    rewrite Ha. split; [done|]. split; [|done]. intros c Htls. destruct (Hb c Htls) as (? & <- & ?). by eauto 10.
  - split; [done|]. nothing_served.
  - split; [done|]. nothing_served.
Qed.

(** A refusal of the policy layer that it counts: the request's Host values are
    text. *)
Definition counted_denial (request : Request) (answer : served) : bool :=
  match answer with
  | Answered _ => bool_decide (is_Some (mapM value_to_str (get_all (rq_headers request) HOST)))
  | Forwarded _ => false
  end.
Definition denials (requests : list Request) (answers : list served) : nat :=
  length (filter (λ x, counted_denial x.1 x.2 = true) (zip requests answers)).
Definition count_denials (n : nat) (metrics : Metrics) : Metrics := Nat.iter n (λ m, (denied_request m).1) metrics.

Lemma serve_metrics policy authority secrets request metrics :
  let '(answer, m) := serve policy authority secrets request metrics in
  m = if counted_denial request answer then (denied_request metrics).1 else metrics.
Proof using Type.
  unfold serve, denied_response, counted_denial. destruct (mapM _ _) as [hs|] eqn:Hh.
  - destruct (authorize_intercepted_request _ _ _) as [[cs path]|e]; [destruct (_ && _); [|destruct (apply_header_credentials _ _ _)]|];
      done.
  - done.
Qed.

(** Each request is answered, and the counted refusals are the only moves. *)
Lemma serve_requests_metrics policy authority secrets requests : ∀ metrics,
  let '(answers, m) := serve_requests policy authority secrets requests metrics in
  length answers = length requests ∧ m = count_denials (denials requests answers) metrics.
Proof using Type.
  induction requests as [|request requests IH]; intros metrics; cbn [serve_requests]; [done|].
  pose proof (serve_metrics policy authority secrets request metrics) as Hs.
  destruct (serve _ _ _ request metrics) as [answer m1]. specialize (IH m1).
  destruct (serve_requests _ _ _ requests m1) as [answers m2]. destruct IH as [Hl ->]. split; [cbn; by rewrite Hl|].
  unfold denials, count_denials. cbn [zip zip_with]. destruct (counted_denial request answer) eqn:Hc; subst m1.
  - rewrite filter_cons_True by done. cbn [length]. by rewrite Nat.iter_succ_r.
  - by rewrite filter_cons_False by (cbn; congruence).
Qed.

(** Both handshakes of an interception succeed. *)
Definition handshakes (env : InterceptEnv) (c : TlsClientConfig) : bool :=
  match ev_connector env c with Some connector => ev_handshake env connector | None => false end.

(** The counters and the result of an interception, by how far it came: the
    address contacted and the TLS client started. *)
Definition interception_outcome (env : InterceptEnv) (established : bool) (contact : option (str * N))
    (tls : option TlsClientConfig) (answers : list served) (metrics : Metrics) : Metrics * result RuntimeError unit :=
  match contact, tls with
  | None, _ =>
      if negb established then (metrics, Err RunError)
      else match ev_peek env with
           | Some (Some _) => ((denied_request metrics).1, Err RunError)
           | _ => ((interception_error metrics).1, Err RunError)
           end
  | Some _, None =>
      match ev_connect env with
      | TcpConnected => (metrics, Err BuildError)
      | TcpFailed => ((upstream_failure metrics).1, Err RunError)
      | TcpTimedOut => ((upstream_failure metrics).1, Ok ())
      end
  | Some _, Some c =>
      if handshakes env c
      then (count_denials (denials (ev_requests env) answers) metrics, if ev_relay_ok env then Ok () else Err RunError)
      else ((interception_error metrics).1, Err RunError)
  end.

Lemma intercept_client_outcome env w policy secrets authority d metrics :
  let res := intercept_client env w policy secrets authority d metrics in
  (in_metrics res, in_result res) =
    interception_outcome env (write_all response_200 w).1 (in_contact res) (in_tls res) (in_served res) metrics ∧
  length (in_served res) =
    (if match in_tls res with Some c => handshakes env c | None => false end then length (ev_requests env) else 0).
Proof using Type.
  unfold intercept_client, relay_upstream, interception_outcome, handshakes. cbv zeta.
  destruct (write_all response_200 w) as [[] w1]; cbn [negb fst]; [|done].
  destruct (ev_peek env) as [[hello|]|] eqn:Hpeek; cbn; rewrite ?Hpeek; [|done..].
  destruct (permits_tls_interception_authority _ _ _); cbn; rewrite ?Hpeek; [|done].
  destruct (ev_connect env) eqn:Hcon; cbn; rewrite ?Hcon; [|done..].
  destruct (rama_host d) as [host|]; cbn; rewrite ?Hcon; [|done].
  destruct (ev_connector env (egress_config hello host)) as [connector|] eqn:Hk; cbn; rewrite ?Hcon; [|done].
  destruct (ev_handshake env connector) eqn:Hh; cbn.
  - pose proof (serve_requests_metrics policy authority secrets (ev_requests env) metrics) as Hs.
    destruct (serve_requests _ _ _ _ _) as [answers m]. destruct Hs as [Hl ->]. cbn. by rewrite Hk, Hh.
  - by rewrite Hk, Hh.
Qed.

(** A TLS client is started as soon as it can be. *)
Lemma intercept_client_starts sc seed env w secrets authority d metrics c :
  session_wf sc → names authority d →
  let res := intercept_client env w (compile sc seed) secrets authority d metrics in
  is_Some (in_contact res) → ev_connect env = TcpConnected → verified_for d c →
  ev_peek env = Some (Some (tc_client_hello c)) → is_Some (ev_connector env c) → in_tls res = Some c.
Proof using All.
  intros Hwf Hn res Hcon Htcp (name & Hname & Hsn & Hsv & Hkl) Hpeek [connector Hk]. unfold res, intercept_client in *.
  destruct (write_all response_200 w) as [[] w1]; cbn [negb] in *; [|by destruct Hcon].
  rewrite Hpeek in *. destruct (permits_tls_interception_authority _ _ _); cbn [negb] in *; [|by destruct Hcon].
  rewrite Htcp. unfold relay_upstream, rama_host. rewrite Hname.
  assert (egress_config (tc_client_hello c) name = c) as -> by (destruct c; cbn in *; by subst).
  rewrite Hk. destruct (ev_handshake env connector); cbn; [|done]. by destruct (serve_requests _ _ _ _ _).
Qed.

(** C18: interception is fail-closed, and counted. The upstream is connected to
    exactly when the 200 answer was written and the client's ClientHello names,
    as its server name, the host of the CONNECT, which an intercept rule allows;
    the address is the CONNECT's. A TLS client is started exactly when that
    connection succeeds and a connector can be built, and it verifies the
    upstream as the CONNECT's host against the system roots and logs no keys; a
    request is forwarded only over it, and only as the rule of that destination
    admits it. Each failure moves the counter it should and no other: a missing
    or foreign ClientHello and a failed handshake are interception errors, a
    server name the policy does not permit is a denial, a failed or late
    connection an upstream failure, and each request the layer refuses (with
    text in its Host header) a denial; an answer that cannot be written, a
    connector that cannot be built and a failed relay move none. *)
Theorem intercept_client_exact sc seed env w secrets authority d metrics :
  session_wf sc → names authority d →
  let res := intercept_client env w (compile sc seed) secrets authority d metrics in
  (∀ a, in_contact res = Some a ↔
     a = (d_host d, d_port d) ∧ (write_all response_200 w).1 = true ∧ greets env sc d) ∧
  (∀ c, in_tls res = Some c ↔
     is_Some (in_contact res) ∧ ev_connect env = TcpConnected ∧ verified_for d c ∧
     ev_peek env = Some (Some (tc_client_hello c)) ∧ is_Some (ev_connector env c)) ∧
  (∀ r', Forwarded r' ∈ in_served res →
     is_Some (in_tls res) ∧ ∃ request, request ∈ ev_requests env ∧ forwarded_for sc seed secrets d request r') ∧
  length (in_served res) =
    (if match in_tls res with Some c => handshakes env c | None => false end then length (ev_requests env) else 0) ∧
  (in_metrics res, in_result res) =
    interception_outcome env (write_all response_200 w).1 (in_contact res) (in_tls res) (in_served res) metrics.
Proof using All.
  intros Hwf Hn res. destruct (intercept_client_stages sc seed env w secrets authority d metrics Hwf Hn) as (Hc & Ht & Hf).
  destruct (intercept_client_outcome env w (compile sc seed) secrets authority d metrics) as [Ho Hl].
  split; [exact Hc|]. split; [|by split_and!]. intros c. split; [apply Ht|].
  intros (? & ? & ? & ? & ?). by apply intercept_client_starts.
Qed.

(** ** Any client *)

(** What a connection did stays within the policy [sc]: it contacted nobody, or
    the address of a destination that [sc] allows in the mode that was used. *)
Definition confined (sc : SessionConfig) (seed : CredentialSeed) (secrets : ResolvedSecrets) (e : client_end) : Prop :=
  match ce_contact e with
  | None => ce_upstream e = None ∧ ce_tls e = None ∧ ∀ r', Forwarded r' ∉ ce_served e
  | Some a =>
      ∃ mode d, allows sc d mode ∧ a = (d_host d, d_port d) ∧
      match mode with
      | Tunnel => ce_tls e = None ∧ ce_served e = []
      | Intercept =>
          ce_upstream e = None ∧ (∀ c, ce_tls e = Some c → verified_for d c) ∧
          ∀ r', Forwarded r' ∈ ce_served e → is_Some (ce_tls e) ∧ ∃ request, forwarded_for sc seed secrets d request r'
      end
  end.

Lemma confined_nobody sc seed secrets w metrics : confined sc seed secrets (mkClientEnd _ _ w metrics None None None []).
Proof using Type. split; [done|]. split; [done|]. intros r'. apply not_elem_of_nil. Qed.

Lemma intercept_confined sc seed env w secrets authority d metrics :
  session_wf sc → names authority d → allows sc d Intercept →
  let i := intercept_client env w (compile sc seed) secrets authority d metrics in
  confined sc seed secrets (mkClientEnd _ _ (in_client i) (in_metrics i) (in_contact i) None (in_tls i) (in_served i)).
Proof using All.
  intros Hwf Hn Ha i. destruct (intercept_client_stages sc seed env w secrets authority d metrics Hwf Hn) as (Hcon & Htls & Hfor).
  fold i in Hcon, Htls, Hfor. unfold confined. cbn [ce_contact ce_upstream ce_tls ce_served].
  destruct (in_contact i) as [a|] eqn:Hcont.
  - exists Intercept, d. split; [done|]. split; [by apply Hcon|]. split; [done|]. split.
    + intros c Hc. by destruct (Htls c Hc) as (_ & _ & ? & _).
    + intros r' Hr. destruct (Hfor r' Hr) as [? (q & _ & Hq)]. by eauto.
  - assert (Hnone : in_tls i = None).
    { destruct (in_tls i) as [c|]; [|done]. by destruct (Htls c eq_refl) as ([? ?] & _). }
    split; [done|]. split; [done|]. intros r' Hr. destruct (Hfor r' Hr) as [[? ?] _]. congruence.
Qed.

(** Whatever is read from the client, failing reads and timeouts included. *)
Lemma serve_client_confined {S} `{AsyncRead S} sc seed secrets fuel timed_out (client : S) w outcome env metrics e :
  session_wf sc → serve_client fuel timed_out client w (compile sc seed) secrets outcome env metrics = Some e →
  confined sc seed secrets e.
Proof using All.
  intros Hwf He. unfold serve_client, handle_client in He. destruct timed_out; [simplify_eq; apply confined_nobody|].
  destruct (read_connect_request client) as [[[parsed client']|err]|]; [|simplify_eq; apply confined_nobody|done].
  destruct (authorize_connect_authority _ _ _) as [[mode d]|err] eqn:Ha; [|simplify_eq; apply confined_nobody].
  destruct (pc_has_body parsed); [simplify_eq; apply confined_nobody|].
  apply authorize_connect_Ok in Ha as (Hn & _ & Hal); [|done].
  destruct mode; [rewrite bool_decide_eq_true_2 in He by done|rewrite bool_decide_eq_false_2 in He by done].
  - apply bind_Some in He as (te & _ & [= <-]). by exists Tunnel, d.
  - simplify_eq. by apply intercept_confined.
Qed.

(** A connection moves no gauge of connections. *)
Lemma serve_active policy authority secrets request metrics :
  active_connections (serve policy authority secrets request metrics).2 = active_connections metrics.
Proof using Type. unfold serve. by repeat case_match. Qed.

Lemma serve_requests_active policy authority secrets requests : ∀ metrics,
  active_connections (serve_requests policy authority secrets requests metrics).2 = active_connections metrics.
Proof using Type.
  induction requests as [|request requests IH]; intros metrics; cbn [serve_requests]; [done|].
  pose proof (serve_active policy authority secrets request metrics) as Hone.
  destruct (serve _ _ _ request metrics) as [answer m1]. specialize (IH m1).
  destruct (serve_requests _ _ _ requests m1) as [answers m2]. cbn in *. congruence.
Qed.

Lemma serve_client_active {S} `{AsyncRead S} policy secrets fuel timed_out (client : S) w outcome env metrics e :
  serve_client fuel timed_out client w policy secrets outcome env metrics = Some e →
  active_connections (ce_metrics e) = active_connections metrics.
Proof using Type.
  intros He. unfold serve_client in He. destruct (handle_client _ _ _ _ _) as [[[r w1] m1]|] eqn:Hh; [|done].
  assert (active_connections m1 = active_connections metrics) as <-.
  { unfold handle_client in Hh. by repeat (case_match; simplify_eq/=). }
  destruct r as [res|d c|authority d c]; [by simplify_eq| |].
  - apply bind_Some in He as (te & Hte & [= <-]). cbn. unfold handle_tunnel in Hte.
    by repeat (case_match; simplify_eq/=).
  - simplify_eq. cbn. unfold intercept_client, relay_upstream.
    repeat (case_match; try done); cbn [in_metrics];
      match goal with H : serve_requests ?p ?a ?s ?r ?m = _ |- _ =>
        pose proof (serve_requests_active p a s r m) as Hs; rewrite H in Hs; exact Hs end.
Qed.

(** ** From the client's bytes to the upstream *)

Context `{AsyncReadSpec R}.

Lemma copy_until_eof_total {S} `{AsyncReadSpec S} fuel : ∀ copied (reader : S) w bs,
  delivers reader bs → length bs < fuel → is_Some (copy_until_eof fuel copied reader w).
Proof using Type.
  induction fuel as [|fuel IH]; intros copied reader w bs Hd Hf; [lia|]. cbn [copy_until_eof].
  assert (0 < COPY_BUFFER_BYTES) as Hb by (unfold COPY_BUFFER_BYTES; lia).
  destruct (async_read_delivers _ _ COPY_BUFFER_BYTES Hd Hb) as (got & reader' & rest & -> & Hd' & -> & _ & _).
  destruct (Nat.eqb_spec (length got) 0) as [Hz|Hz]; [by destruct (shutdown w) as [[] ?]|].
  destruct (write_all got w) as [[] w1]; [|done]. rewrite length_app in Hf. eapply IH; [exact Hd'|lia].
Qed.

Lemma connect_request_length all a h b body : connect_request all = Some (a, h, b, body) → length body ≤ length all.
Proof using Type.
  unfold connect_request. destruct (split_head all) as [[head rest]|] eqn:Hs; [|done].
  destruct (parse_head head) as [[[? ?] ?]|]; [|done]. intros [= _ _ _ ->].
  unfold split_head in Hs. repeat case_match; simplify_eq; rewrite length_drop; lia.
Qed.

(** A tunnel that ended well gave the upstream exactly the client's bytes. *)
Lemma handle_tunnel_carries fuel (client : BufferedConnectIo R) body w outcome metrics e :
  delivers client body → handle_tunnel fuel client w outcome metrics = Some e →
  ∀ uw reader uw0, outcome = DialConnected reader uw0 → te_upstream e = Some uw → w_written uw = w_written uw0 ++ body.
Proof using Type.
  intros Hd He uw reader uw0 -> Hu.
  assert (Hsafe := λ out w', copy_until_eof_safe fuel 0 client uw0 body out w' Hd). clear Hd. unfold handle_tunnel in He.
  destruct (write_all response_200 w) as [[] w1]; cbn [negb] in He; [|by simplify_eq].
  unfold copy_bidirectional in He.
  destruct (copy_until_eof fuel 0 client uw0) as [[[n1|] uw1]|] eqn:Hcp; [|by repeat case_match; simplify_eq..].
  destruct (copy_until_eof fuel 0 reader w1) as [[[n2|] w2]|]; simplify_eq/=.
  destruct (Hsafe _ _ eq_refl) as (part & Hw & _ & Hpart & _).
  destruct (Hpart ltac:(done)) as [-> _]. done.
Qed.

Lemma handle_tunnel_total fuel (client : BufferedConnectIo R) body w outcome metrics :
  delivers client body → length body < fuel →
  (∀ reader uw, outcome = DialConnected reader uw → ∃ us, delivers reader us ∧ length us < fuel) →
  is_Some (handle_tunnel fuel client w outcome metrics).
Proof using Type.
  intros Hd Hf Hu. unfold handle_tunnel. destruct outcome as [reader uw| |]; [|done..].
  destruct (write_all response_200 w) as [[] w1]; cbn [negb]; [|done]. destruct (Hu reader uw eq_refl) as (us & Hus & Hfu).
  unfold copy_bidirectional.
  destruct (copy_until_eof_total fuel 0 client uw body Hd Hf) as [[[n1|] uw1] ->];
    destruct (copy_until_eof_total fuel 0 reader w1 us Hus Hfu) as [[[n2|] w2] ->]; by eexists.
Qed.

(** C14: whatever a client sends, and however it is cut into reads, the only
    upstream its connection reaches is the destination of the CONNECT it
    started with, which the configuration allows in the mode that was used. A
    tunnel carries only the client's own bytes, after the request's head, and
    is never decrypted. An intercepted connection carries only requests that
    the rule of that very destination admits, over TLS whose upstream was
    verified as that host; and the connection ends, for any fuel above the
    number of bytes either side sends. *)
Theorem client_confined sc seed secrets fuel (client : R) all w outcome env metrics :
  delivers client all → session_wf sc →
  let run := serve_client fuel false client w (compile sc seed) secrets outcome env metrics in
  (∀ e, run = Some e →
     match ce_contact e with
     | None => ce_upstream e = None ∧ ce_tls e = None ∧ ∀ r', Forwarded r' ∉ ce_served e
     | Some a =>
         ∃ authority body mode d, admitted sc all authority body mode d ∧ a = (d_host d, d_port d) ∧
         match mode with
         | Tunnel =>
             ce_tls e = None ∧ ce_served e = [] ∧
             ∀ uw reader uw0, outcome = DialConnected reader uw0 → ce_upstream e = Some uw →
               w_written uw = w_written uw0 ++ body
         | Intercept =>
             ce_upstream e = None ∧ (∀ c, ce_tls e = Some c → verified_for d c) ∧
             ∀ r', Forwarded r' ∈ ce_served e →
               is_Some (ce_tls e) ∧ ∃ request, request ∈ ev_requests env ∧ forwarded_for sc seed secrets d request r'
         end
     end) ∧
  (length all < fuel →
   (∀ reader uw, outcome = DialConnected reader uw → ∃ us, delivers reader us ∧ length us < fuel) →
   is_Some run).
Proof using All.
  intros Hd Hwf run. unfold run, serve_client.
  destruct (handle_client_request client all w (compile sc seed) metrics Hd) as (c & -> & Hc).
  destruct (connect_request all) as [[[[authority host] has_body] body]|] eqn:Hreq.
  2:{ split; [|done]. intros e [= <-]. split; [done|]. split; [done|]. intros r'. apply not_elem_of_nil. }
  destruct (authorize_connect_authority _ _ _) as [[mode d]|err] eqn:Ha.
  2:{ split; [|done]. intros e [= <-]. split; [done|]. split; [done|]. intros r'. apply not_elem_of_nil. }
  destruct has_body.
  { split; [|done]. intros e [= <-]. split; [done|]. split; [done|]. intros r'. apply not_elem_of_nil. }
  apply authorize_connect_Ok in Ha as Had; [|done]. specialize (Hc _ _ _ _ eq_refl).
  assert (Hadm : admitted sc all authority body mode d) by (by exists host).
  pose proof (connect_request_length _ _ _ _ _ Hreq) as Hlen. destruct mode; cbn [route_of].
  - split.
    + intros e He. apply bind_Some in He as (te & Hte & [= <-]). cbn. exists authority, body, Tunnel, d.
      do 2 (split; [done|]). do 2 (split; [done|]). intros uw reader uw0. by eapply handle_tunnel_carries.
    + intros Hf Hu. destruct (handle_tunnel_total fuel c body w outcome metrics) as [te ->]; [done|lia|done|by eexists].
  - split; [|done]. intros e [= <-]. cbn [ce_contact ce_upstream ce_tls ce_served].
    destruct (intercept_client_stages sc seed env w secrets authority d metrics Hwf (proj1 Had)) as (Hcon & Htls & Hfor).
    destruct (in_contact _) as [a|] eqn:Hcont.
    + exists authority, body, Intercept, d. split; [done|]. split; [by apply Hcon|]. split; [done|]. split; [|done].
      intros cfg Hcfg. by destruct (Htls cfg Hcfg) as (_ & _ & ? & _).
    + assert (Hnone : in_tls (intercept_client env w (compile sc seed) secrets authority d metrics) = None).
      { destruct (in_tls _) as [cfg|]; [|done]. by destruct (Htls cfg eq_refl) as ([? ?] & _). }
      split; [done|]. split; [done|]. intros r' Hr. destruct (Hfor r' Hr) as [[? ?] _]. congruence.
Qed.
End properties.

(** ** An example: one connection, one request *)

Definition plain_tls : TlsStack := {|
  ClientHello := option str;
  ext_server_name h := h;
  Domain := str;
  domain_try_from := Some;
  ConnectorData := unit;
|}.

Definition example_env : @InterceptEnv plain_tls plain_http :=
  @mkInterceptEnv plain_tls plain_http (Some (Some (Some (lit "Example.com")))) TcpConnected (λ _, Some ()) (λ _, true)
    [example_request] true.

(** The same, with a handshake that fails. *)
Definition failing_env : @InterceptEnv plain_tls plain_http :=
  @mkInterceptEnv plain_tls plain_http (Some (Some (Some (lit "Example.com")))) TcpConnected (λ _, Some ()) (λ _, false)
    [example_request] true.

Definition example_interception (env : @InterceptEnv plain_tls plain_http) : @intercepted plain_tls plain_http :=
  @intercept_client plain_tls plain_http plain_base64 plain_host_parse env (mkWriter [] [] false)
    example_policy example_secrets (lit "example.com:443") (mkDestination (lit "example.com") 443) metrics_default.

Lemma intercept_client_exact_witness :
  in_contact (example_interception example_env) = Some (lit "example.com", 443%N) ∧
  (in_metrics (example_interception failing_env), in_result (example_interception failing_env)) =
    ((interception_error metrics_default).1, Err RunError).
Proof.
  assert (Hn : @names plain_host_parse (lit "example.com:443") (mkDestination (lit "example.com") 443)).
  { apply (@parse_authority_text_Ok plain_host_parse plain_host_laws). vm_compute. reflexivity. }
  pose proof (λ env, @intercept_client_exact plain_tls plain_http plain_http_laws plain_base64 plain_base64_laws
    plain_host_parse plain_host_laws plain_crypto example_session [] env (mkWriter [] [] false)
    example_secrets (lit "example.com:443") (mkDestination (lit "example.com") 443) metrics_default
    example_session_wf Hn) as Hexact.
  split.
  - apply (proj1 (Hexact example_env)). split; [reflexivity|]. split; [reflexivity|].
    exists (Some (lit "Example.com")), (lit "Example.com"). split; [reflexivity|]. split; [reflexivity|].
    split; [vm_compute; reflexivity|].
    apply (allows_rule example_session example_rule 443); [left|vm_compute; left].
  - exact (proj2 (proj2 (proj2 (proj2 (Hexact failing_env))))).
Defined.

Definition intercept_text : str := connect_text (lit "example.com:443") (lit "example.com:443").
Definition intercept_peer : connection := [Data (take 20 intercept_text); Data (drop 20 intercept_text)].

Lemma intercept_peer_delivers : delivers intercept_peer intercept_text.
Proof.
  assert (Heq : take 20 intercept_text ++ drop 20 intercept_text ++ [] = intercept_text) by (vm_compute; reflexivity).
  rewrite <- Heq. repeat (constructor; [done|]). constructor.
Qed.

Definition example_run : option client_end :=
  @serve_client plain_tls plain_http plain_base64 plain_host_parse connection _ 300 false intercept_peer
    (mkWriter [] [] false) example_policy example_secrets DialFailed example_env metrics_default.

(** The request reaches the upstream with its secret. *)
Definition sent_authorization (s : @served plain_http) : list str :=
  match s with Forwarded r => @get_all plain_http (rq_headers r) (lit "authorization") | Answered _ => [] end.
Example example_run_forwards :
  (λ e, sent_authorization <$> ce_served e) <$> example_run = Some [[lit "Bearer s3cr3t"]].
Proof. vm_compute. reflexivity. Qed.

Lemma client_confined_witness :
  ∃ e, example_run = Some e ∧ ce_contact e = Some (lit "example.com", 443%N) ∧
    ∃ authority body mode d, @admitted plain_host_parse example_session intercept_text authority body mode d ∧
      (lit "example.com", 443%N) = (d_host d, d_port d).
Proof.
  destruct (@client_confined plain_tls plain_http plain_http_laws plain_base64 plain_base64_laws
    plain_host_parse plain_host_laws plain_crypto connection _ _ example_session [] example_secrets 300 intercept_peer
    intercept_text (mkWriter [] [] false) DialFailed example_env metrics_default
    intercept_peer_delivers example_session_wf) as [Hall Htotal].
  destruct Htotal as [e He]; [vm_compute; lia|by intros ? ? [=]|].
  exists e. split; [exact He|]. specialize (Hall e He).
  assert (Hc : ce_contact e = Some (lit "example.com", 443%N)).
  { assert (Hrun : ce_contact <$> example_run = Some (Some (lit "example.com", 443%N))) by (vm_compute; reflexivity).
    assert (He' : example_run = Some e) by exact He. rewrite He' in Hrun. injection Hrun as Hrun. exact Hrun. }
  split; [exact Hc|]. rewrite Hc in Hall. destruct Hall as (authority & body & mode & d & Hadm & Ha & _).
  exists authority, body, mode, d. split; [exact Hadm|exact Ha].
Defined.
