(* ===== verification/SessionTraffic.v ===== *)
(** The traffic of one session listener: the accept loop of AcceptLoop, the
    runtime of ProxyRuntime that installs policy generations, and the
    connections of TlsIntercept, together (run_proxy of
    src/proxy_runtime/rama/ingress.rs and replace_generation of
    src/proxy_runtime/rama.rs).

    A joint state has the loop's state and the runtime's as its projections.
    What ties them is the [Arc<ProxyGeneration>]: the loop clones the current
    one for each stream it accepts, the task that serves the stream owns the
    clone until it is dropped, and the runtime's weak references see which
    generations are still owned. Every connection that was served, or cut off
    while it was, leaves an entry in a log. *)

From S2P Require Import Prelude RustStr PolicyTypes UrlPath DnsName Identifiers SessionDoc SessionPolicy.
From S2P Require Import Secrets Telemetry AcceptLoop HttpCredentials ProxyRuntime AsyncIo ConnectRequest TlsIntercept.
From stdpp Require Import relations options.

(** What a connection's task did before it ended. *)
Record visit `{TlsStack} `{HttpTypes} := mkVisit {
  vi_conn : nat;
  vi_generation : nat;
  vi_end : client_end;
}.

(** [tf_held]: the generation each live task owns, by its number; [tf_history]
    remembers what each generation was built from, [tf_accepted] the generation
    of each accepted connection, both in order. *)
Record traffic `{TlsStack} `{HttpTypes} := mkTraffic {
  tf_loop : AcceptLoop.state;
  tf_runtime : Runtime;
  tf_held : gmap nat (nat * ProxyGeneration);
  tf_history : list (SessionConfig * ResolvedSecrets);
  tf_accepted : list nat;
  tf_log : list visit;
}.

Section traffic.
Context `{TlsStack} `{HttpTypes} `{!HttpLaws} `{Base64} `{!Base64Laws} `{UrlHost} `{!UrlHostLaws} `{Crypto}.
Context (listener_generation : N) (capacity : nat) (options : ProxyRuntimeOptions).

(** The number of the generation the next stream is accepted under. *)
Definition current (rt : Runtime) : nat := pred (rt_next rt).

(** [strong_count() > 0]: the runtime owns the current generation, tasks own
    those they were accepted under. *)
Definition alive (t : traffic) (g : nat) : bool :=
  (g =? current (tf_runtime t)) || existsb (λ kv, kv.2.1 =? g) (map_to_list (tf_held t)).

Definition with_loop (s : AcceptLoop.state) (t : traffic) : traffic :=
  mkTraffic _ _ s (tf_runtime t) (tf_held t) (tf_history t) (tf_accepted t) (tf_log t).

(** The accept branch of [run_proxy]: the task of an admitted stream owns a
    clone of the current generation. *)
Definition accept_client (t : traffic) : traffic :=
  let s := tf_loop t in
  let s' := accept_stream listener_generation s in
  if decide (st_next s' = st_next s) then with_loop s' t
  else
    mkTraffic _ _ s' (tf_runtime t)
      (<[st_next s := (current (tf_runtime t), rt_generation (tf_runtime t))]> (tf_held t))
      (tf_history t) (tf_accepted t ++ [current (tf_runtime t)]) (tf_log t).

(** A task is gone: its clone is dropped, and what it did is logged. *)
Definition task_gone (s : AcceptLoop.state) (id : nat) (visited : list visit) (t : traffic) : traffic :=
  mkTraffic _ _ s (tf_runtime t) (delete id (tf_held t)) (tf_history t) (tf_accepted t) (tf_log t ++ visited).

Definition set_metrics (metrics : Metrics) (s : AcceptLoop.state) : AcceptLoop.state :=
  set_conns (st_conns s) (st_permits s) metrics s.

Definition set_generation (generation : N) (s : AcceptLoop.state) : AcceptLoop.state :=
  AcceptLoop.mkState (st_phase s) (st_listener_open s) (st_guard_held s) (st_conns s) (st_next s) (st_permits s)
    (st_other_permits s) (st_metrics s) (st_other_active s) (st_cancelled s) (st_retired s) (st_gate s) generation.

Definition set_retired (s : AcceptLoop.state) : AcceptLoop.state :=
  AcceptLoop.mkState (st_phase s) (st_listener_open s) (st_guard_held s) (st_conns s) (st_next s) (st_permits s)
    (st_other_permits s) (st_metrics s) (st_other_active s) (st_cancelled s) true (st_gate s) (st_generation s).

(** [replace_generation] on the joint state: the receiver of the loop sees the
    generation that was sent. *)
Definition replace_policy (session : SessionConfig) (secrets : ResolvedSecrets) (t : traffic) : option traffic :=
  match replace_generation (alive t) (tf_runtime t) session secrets with
  | None => None
  | Some rt =>
      Some (mkTraffic _ _ (set_generation (N.of_nat (current rt)) (tf_loop t)) rt (tf_held t)
              (tf_history t ++ [(session, secrets)]) (tf_accepted t) (tf_log t))
  end.

Definition retire_listener (t : traffic) : traffic :=
  mkTraffic _ _ (set_retired (tf_loop t)) (retire (tf_runtime t)) (tf_held t) (tf_history t) (tf_accepted t) (tf_log t).

(** Events of the loop that touch neither the generations nor what a task
    owns. *)
Definition silent (e : event) : bool :=
  match e with Turn | Start _ | Serve _ | CancelLoop | AbortLoop | Elsewhere => true | _ => false end.

(** One run of a task under what it owns, for any client and any environment. *)
Definition served_as (pg : ProxyGeneration) (metrics : Metrics) (e : client_end) : Prop :=
  ∃ (R : Type) (read : AsyncRead R) fuel timed_out (client : R) w outcome env,
    serve_client fuel timed_out client w (pg_policy pg) (pg_secrets pg) outcome env metrics = Some e.

(** A finished connection counts what it counted; one that panics or is aborted
    has done part of what its run would have. *)
Inductive tstep : traffic → traffic → Prop :=
| tr_silent t ev s' :
    silent ev = true → step listener_generation ev (tf_loop t) s' → tstep t (with_loop s' t)
| tr_accept t : st_phase (tf_loop t) = AtAccept → tstep t (accept_client t)
| tr_finish t id c g pg e :
    st_conns (tf_loop t) !! id = Some c → cn_status c = Serving → tf_held t !! id = Some (g, pg) →
    served_as pg (st_metrics (tf_loop t)) e →
    tstep t (task_gone (end_task id c Finished (set_metrics (ce_metrics e) (tf_loop t))) id [mkVisit _ _ id g e] t)
| tr_cut t ev id c g pg e metrics s' :
    st_conns (tf_loop t) !! id = Some c → cn_status c = Serving → tf_held t !! id = Some (g, pg) →
    served_as pg (st_metrics (tf_loop t)) e →
    active_connections metrics = active_connections (st_metrics (tf_loop t)) →
    ev = Panic id ∨ ev = Aborted id → step listener_generation ev (set_metrics metrics (tf_loop t)) s' →
    tstep t (task_gone s' id [mkVisit _ _ id g e] t)
| tr_drop t id c s' :
    st_conns (tf_loop t) !! id = Some c → cn_status c ≠ Serving →
    step listener_generation (Aborted id) (tf_loop t) s' →
    tstep t (task_gone s' id [] t)
| tr_replace t t' session secrets :
    session_wf session → replace_policy session secrets t = Some t' → tstep t t'
| tr_retire t : tstep t (retire_listener t).

(** A listener just started by [start_with_options] from a valid session. *)
Definition tinitial (t : traffic) : Prop :=
  AcceptLoop.initial capacity (tf_loop t) ∧ st_generation (tf_loop t) = 0%N ∧
  start_with_options true options = Ok (tf_runtime t) ∧ session_wf (po_session options) ∧
  tf_held t = ∅ ∧ tf_history t = [(po_session options, po_secrets options)] ∧ tf_accepted t = [] ∧ tf_log t = [].

Inductive treachable : traffic → Prop :=
| treach_init t : tinitial t → treachable t
| treach_step t t' : treachable t → tstep t t' → treachable t'.

(** ** The loop's part of a step *)

(** A task is alive while it holds its permit, and with it its generation. *)
Definition live (s : AcceptLoop.state) (id : nat) : Prop :=
  ∃ c, st_conns s !! id = Some c ∧ holds_permit c = true.

(** No stream was accepted or policy installed, and at most [gone] has ended. *)
Definition tasks_after (gone : option nat) (s s' : AcceptLoop.state) : Prop :=
  st_next s' = st_next s ∧ st_generation s' = st_generation s ∧
  (∀ id, live s' id ↔ live s id ∧ gone ≠ Some id) ∧
  (∀ id c', st_conns s' !! id = Some c' → ∃ c, st_conns s !! id = Some c ∧ cn_generation c' = cn_generation c).

Definition gone (ev : event) : option nat :=
  match ev with Finish id | Panic id | Aborted id => Some id | _ => None end.

Lemma tasks_after_same s s' :
  st_next s' = st_next s → st_generation s' = st_generation s → st_conns s' = st_conns s → tasks_after None s s'.
Proof using Type.
  intros Hn Hg Hc. unfold tasks_after, live. rewrite Hc. split; [done|]. split; [done|]. split; [|by eauto].
  intros id. split; [by intros ?|by intros [? _]].
Qed.

Lemma tasks_after_delete s s' id c :
  st_conns s !! id = Some c → st_next s' = st_next s → st_generation s' = st_generation s →
  st_conns s' = delete id (st_conns s) → tasks_after (if holds_permit c then Some id else None) s s'.
Proof using Type.
  intros Hid Hn Hg Hc. unfold tasks_after, live. rewrite Hc. split; [done|]. split; [done|]. split.
  - intros i. setoid_rewrite lookup_delete_Some. destruct (decide (i = id)) as [->|Hne].
    + split; [by intros (? & [? _] & _)|]. intros ((c' & Hc' & Hh) & Hgone). simplify_eq. by rewrite Hh in Hgone.
    + split; [intros (? & [_ ?] & ?); split; [by eauto|by destruct (holds_permit c); congruence]|].
      intros ((c' & Hc' & Hh) & _). by eauto 10.
  - intros i c' [_ ?]%lookup_delete_Some. by eauto.
Qed.

Lemma tasks_after_update s s' id c status :
  st_conns s !! id = Some c → holds_permit c = true → st_next s' = st_next s → st_generation s' = st_generation s →
  st_conns s' = <[id := mkConn (cn_generation c) status]> (st_conns s) →
  tasks_after (if holds_permit (mkConn (cn_generation c) status) then None else Some id) s s'.
Proof using Type.
  intros Hid Hp Hn Hg Hc. unfold tasks_after, live. rewrite Hc. split; [done|]. split; [done|]. split.
  - intros i. destruct (decide (i = id)) as [->|Hne].
    + rewrite lookup_insert_eq. destruct (holds_permit (mkConn _ status)) eqn:Hs.
      * split; [by intros _; eauto|]. intros _. by eauto.
      * split; [intros (? & [= <-] & ?); congruence|]. by intros [_ ?].
    + rewrite lookup_insert_ne by done. split; [|by intros [? _]]. intros Hex. split; [done|].
      destruct (holds_permit (mkConn _ status)); congruence.
  - intros i c' Hi. destruct (decide (i = id)) as [->|Hne].
    + rewrite lookup_insert_eq in Hi. simplify_eq. by eauto.
    + rewrite lookup_insert_ne in Hi by done. by eauto.
Qed.

Lemma tasks_after_dead s s' id : ¬ live s id → tasks_after None s s' → tasks_after (Some id) s s'.
Proof using Type.
  intros Hd (Hn & Hg & Hl & Hc). split; [done|]. split; [done|]. split; [|done].
  intros i. rewrite Hl. split; [|by intros [? _]]. intros [Hi _]. split; [done|]. by intros [= ->].
Qed.

Lemma joinable_released c : joinable c = true → holds_permit c = false.
Proof using Type. unfold holds_permit. by intros ->. Qed.

Lemma step_tasks ev s s' :
  silent ev = true ∨ is_Some (gone ev) → step listener_generation ev s s' → tasks_after (gone ev) s s'.
Proof using Type.
  intros Hev Hstep. destruct Hstep as [| | | |s id c ? Hc Hj|  | | | |s id c ? Hc Hj| |s id c ? Hc Hs|s id c m ? Hc Hs|s id c Hc Hs|s id c Hc Hs|s id c ? Hc
    | | | | | | | | | |]; try (by destruct Hev as [?|[? ?]]);
    try (by apply tasks_after_same).
  - pose proof (tasks_after_delete s) as Hd. unfold join_one.
    specialize (Hd (join_one id c s) id c Hc). unfold join_one in Hd. rewrite (joinable_released c Hj) in Hd.
    destruct (cn_status c); by apply Hd.
  - pose proof (tasks_after_delete s (set_conns (delete id (st_conns s)) (st_permits s) (st_metrics s) s) id c Hc) as Hd.
    rewrite (joinable_released c Hj) in Hd. by apply Hd.
  - eapply (tasks_after_update s _ id c Serving); try done.
    unfold holds_permit, joinable. by rewrite Hs.
  - eapply (tasks_after_update s _ id c Finished); try done.
    unfold holds_permit, joinable. by rewrite Hs.
  - eapply (tasks_after_update s _ id c Panicked); try done.
    unfold holds_permit, joinable. by rewrite Hs.
  - pose proof (tasks_after_delete s (set_conns (delete id (st_conns s))
      (if holds_permit c then S (st_permits s) else st_permits s)
      (if serving c then connection_stopped (st_metrics s) else st_metrics s) s) id c Hc) as Hd.
    destruct (holds_permit c) eqn:Hp; [by apply Hd|]. apply tasks_after_dead; [|by apply Hd].
    intros (c' & Hc' & ?). congruence.
Qed.

(** ** The invariant *)

Definition seed : CredentialSeed := po_credential_seed options.

(** The generation that [replace_generation] builds. *)
Definition built (h : SessionConfig * ResolvedSecrets) : ProxyGeneration :=
  mkProxyGeneration (compile h.1 seed) h.2.

(** What is true of the runtime and the two records of the past. *)
Record policies_inv (s : AcceptLoop.state) (rt : Runtime) (history : list (SessionConfig * ResolvedSecrets)) : Prop := {
  pi_runtime : runtime_wf rt;
  pi_seed : rt_credential_seed rt = seed;
  pi_next : length history = rt_next rt;
  pi_number : st_generation s = N.of_nat (current rt);
  pi_current : ∃ h, history !! current rt = Some h ∧ rt_generation rt = built h;
  pi_listed : current rt ∈ rt_generations rt;
  pi_wf : Forall (λ h, session_wf h.1) history;
}.

Record tinv (t : traffic) : Prop := {
  ti_policies : policies_inv (tf_loop t) (tf_runtime t) (tf_history t);
  ti_held : ∀ id g pg, tf_held t !! id = Some (g, pg) →
    tf_accepted t !! id = Some g ∧ g ∈ rt_generations (tf_runtime t) ∧ built <$> tf_history t !! g = Some pg;
  ti_live : ∀ id, is_Some (tf_held t !! id) ↔ live (tf_loop t) id;
  ti_conns : ∀ id c, st_conns (tf_loop t) !! id = Some c →
    ∃ g, tf_accepted t !! id = Some g ∧ cn_generation c = N.of_nat g;
  ti_count : length (tf_accepted t) = st_next (tf_loop t);
  ti_sorted : ∀ i j gi gj, tf_accepted t !! i = Some gi → tf_accepted t !! j = Some gj → i ≤ j → gi ≤ gj;
  ti_bound : ∀ i g, tf_accepted t !! i = Some g → g ≤ current (tf_runtime t);
  ti_log : ∀ v, v ∈ tf_log t →
    tf_accepted t !! vi_conn v = Some (vi_generation v) ∧
    ∃ h, tf_history t !! vi_generation v = Some h ∧ confined h.1 seed h.2 (vi_end v);
}.

Lemma current_next rt history s : policies_inv s rt history → rt_next rt = S (current rt).
Proof using Type.
  intros Hp. destruct (pi_current _ _ _ Hp) as (h & Hh & _). apply lookup_lt_Some in Hh.
  rewrite (pi_next _ _ _ Hp) in Hh. unfold current in *. lia.
Qed.

Lemma policies_inv_loop s s' rt history :
  st_generation s' = st_generation s → policies_inv s rt history → policies_inv s' rt history.
Proof using Type. intros Hg [? ? ? ? ? ? ?]. split; try done. congruence. Qed.

Lemma tinv_initial t : tinitial t → tinv t.
Proof using Type.
  intros ((_ & _ & _ & Hc & Hn & _ & _) & Hg & Hs & Hwf & Hheld & Hhist & Hacc & Hlog).
  assert (Hrt : runtime_wf (tf_runtime t)) by (by eapply start_with_options_wf).
  unfold start_with_options in Hs. simpl in Hs. injection Hs as Hs. split.
  - rewrite Hhist. rewrite <- Hs in *.
    split; [done|done|done|by rewrite Hg|by eexists|by left|by apply Forall_singleton].
  - rewrite Hheld. by intros ? ? ? ?%lookup_empty_Some.
  - intros id. rewrite Hheld, lookup_empty. unfold live. rewrite Hc. split; [by intros [? ?]|].
    by intros (c & ?%lookup_empty_Some & _).
  - rewrite Hc. by intros ? ? ?%lookup_empty_Some.
  - by rewrite Hacc, Hn.
  - rewrite Hacc. intros i j gi gj. by rewrite lookup_nil.
  - rewrite Hacc. intros i g. by rewrite lookup_nil.
  - rewrite Hlog. by intros ? ?%elem_of_nil.
Qed.

(** Every step of the joint system is steps of the loop. *)
Lemma tstep_loop t t' :
  tinv t → tstep t t' → rtc (λ x y, ∃ ev, step listener_generation ev x y) (tf_loop t) (tf_loop t').
Proof using Type.
  assert (Hcounts : ∀ metrics s, active_connections metrics = active_connections (st_metrics s) →
    ∃ ev, step listener_generation ev s (set_metrics metrics s)).
  { intros metrics s Hm. exists Elsewhere. by apply other_counts. }
  intros Hinv Hstep. destruct Hstep as [t ev s' _ Hs|t Hph|t id c g pg e Hc Hst _ He|t ev id c g pg e metrics s' Hc Hst _ _ Hm _ Hs
    |t id c s' Hc _ Hs|t t' session secrets _ Hr|t]; cbn [with_loop task_gone retire_listener tf_loop].
  - apply rtc_once. by exists ev.
  - apply rtc_once. exists Accept. unfold accept_client. destruct (decide _); by apply loop_accept.
  - destruct He as (R & read & fuel & timed_out & client & w & outcome & env & He).
    eapply rtc_l; [apply (Hcounts (ce_metrics e)); by eapply serve_client_active|].
    apply rtc_once. exists (Finish id). by apply task_end.
  - eapply rtc_l; [by apply (Hcounts metrics)|]. apply rtc_once. by exists ev.
  - apply rtc_once. by exists (Aborted id).
  - pose proof (current_next _ _ _ (ti_policies _ Hinv)) as Hcur. pose proof (pi_number _ _ _ (ti_policies _ Hinv)) as Hnum.
    unfold replace_policy, replace_generation in Hr. case_match; simplify_eq/=. case_match; simplify_eq/=.
    apply rtc_once. exists Install. apply other_install. unfold current in *. cbn in *. lia.
  - apply rtc_once. exists RetireLoop. apply other_retire.
Qed.

(** Steps that accept nothing and install nothing. *)
Lemma tinv_tasks t s' o visited :
  tinv t → tasks_after o (tf_loop t) s' →
  (∀ v, v ∈ visited → ∃ h, tf_accepted t !! vi_conn v = Some (vi_generation v) ∧
     tf_history t !! vi_generation v = Some h ∧ confined h.1 seed h.2 (vi_end v)) →
  tinv (mkTraffic _ _ s' (tf_runtime t) (match o with Some id => delete id (tf_held t) | None => tf_held t end)
          (tf_history t) (tf_accepted t) (tf_log t ++ visited)).
Proof using Type.
  intros [Hp Hh Hl Hc Hn Hs Hb Hlog] (Hnext & Hgen & Hlive & Hconn) Hv. split; cbn; try done.
  - by eapply policies_inv_loop.
  - intros id g pg Hid. apply Hh. destruct o; [by apply lookup_delete_Some in Hid as [_ ?]|done].
  - intros id. rewrite Hlive, <- Hl. destruct o as [k|]; [|by split; [split|intros [? _]]].
    destruct (decide (k = id)) as [->|Hne]; [rewrite lookup_delete_eq|rewrite lookup_delete_ne by done].
    + split; [by intros [? ?]|by intros [_ ?]].
    + split; [intros ?; split; [done|congruence]|by intros [? _]].
  - intros id c' Hc'. destruct (Hconn id c' Hc') as (c & Hc0 & ->). by apply Hc.
  - by rewrite Hnext.
  - intros v [Hin|Hin]%elem_of_app; [by apply Hlog|]. destruct (Hv v Hin) as (h & ? & ? & ?). by eauto.
Qed.

(** The visit of a task that owned its generation. *)
Lemma visit_confined t id g pg e :
  tinv t → tf_held t !! id = Some (g, pg) → served_as pg (st_metrics (tf_loop t)) e →
  ∀ v, v ∈ [mkVisit _ _ id g e] → ∃ h, tf_accepted t !! vi_conn v = Some (vi_generation v) ∧
    tf_history t !! vi_generation v = Some h ∧ confined h.1 seed h.2 (vi_end v).
Proof using All.
  intros Hinv Hid (R & read & fuel & timed_out & client & w & outcome & env & He) v ->%list_elem_of_singleton. cbn.
  destruct (ti_held _ Hinv _ _ _ Hid) as (Ha & _ & Hb). apply fmap_Some in Hb as (h & Hh & ->).
  exists h. split; [done|]. split; [done|]. eapply serve_client_confined; [|exact He].
  pose proof (pi_wf _ _ _ (ti_policies _ Hinv)) as Hwf. rewrite Forall_forall in Hwf.
  apply Hwf. by eapply list_elem_of_lookup_2.
Qed.

(** The two outcomes of an accepted stream. *)
Lemma accept_stream_cases s :
  (st_next (accept_stream listener_generation s) = st_next s ∧ tasks_after None s (accept_stream listener_generation s)) ∨
  (st_next (accept_stream listener_generation s) = S (st_next s) ∧
   st_generation (accept_stream listener_generation s) = st_generation s ∧
   st_conns (accept_stream listener_generation s) = <[st_next s := mkConn (st_generation s) Spawned]> (st_conns s)).
Proof using Type.
  unfold accept_stream. destruct (negb _); [by left; split; [|apply tasks_after_same]|].
  destruct (st_permits s); [by left; split; [|apply tasks_after_same]|by right].
Qed.

Lemma tinv_accept t :
  tinv t → tinv (accept_client t).
Proof using All.
  intros Hinv. unfold accept_client. destruct (accept_stream_cases (tf_loop t)) as [[Hn Ht]|(Hn & Hg & Hc)].
  { rewrite decide_True by done. unfold with_loop. rewrite <- (app_nil_r (tf_log t)).
    apply (tinv_tasks t _ None []); [done..|]. by intros v ?%elem_of_nil. }
  rewrite decide_False by lia. destruct Hinv as [Hp Hh Hl Hcs Hcnt Hs Hb Hlog].
  set (next := st_next (tf_loop t)) in *. set (now := current (tf_runtime t)) in *.
  assert (Hold : ∀ i g, tf_accepted t !! i = Some g → (tf_accepted t ++ [now]) !! i = Some g).
  { intros i g Hi. by apply lookup_app_l_Some. }
  assert (Hnew : (tf_accepted t ++ [now]) !! next = Some now).
  { rewrite lookup_app_r by lia. by replace (next - length (tf_accepted t)) with 0 by lia. }
  assert (Hall : ∀ i g, (tf_accepted t ++ [now]) !! i = Some g → (i < next ∧ tf_accepted t !! i = Some g) ∨ (i = next ∧ g = now)).
  { intros i g Hi. apply lookup_app_Some in Hi as [Hi|[Hge Hi]].
    - left. split; [|done]. rewrite <- Hcnt. by eapply lookup_lt_Some.
    - apply list_lookup_singleton_Some in Hi as [? <-]. right. split; [lia|done]. }
  split; cbn; try done.
  - by eapply policies_inv_loop.
  - intros id g pg Hid. apply lookup_insert_Some in Hid as [[<- [= <- <-]]|[_ Hid]].
    + split; [done|]. split; [apply (pi_listed _ _ _ Hp)|]. destruct (pi_current _ _ _ Hp) as (h & Hcur & ->).
      unfold now. by rewrite Hcur.
    + destruct (Hh _ _ _ Hid) as (? & ? & ?). by eauto.
  - intros id. unfold live. rewrite Hc. destruct (decide (id = next)) as [->|Hne].
    + rewrite !lookup_insert_eq. split; [intros _; by eexists|by intros _; eexists].
    + rewrite !lookup_insert_ne by done. apply Hl.
  - rewrite Hc. intros id c Hid. apply lookup_insert_Some in Hid as [[<- <-]|[_ Hid]].
    + exists now. split; [done|]. apply (pi_number _ _ _ Hp).
    + destruct (Hcs _ _ Hid) as (g & ? & ?). by eauto.
  - rewrite length_app. cbn. lia.
  - intros i j gi gj Hi Hj Hij. apply Hall in Hi as [[Hi1 Hi2]|[-> ->]], Hj as [[Hj1 Hj2]|[-> ->]]; [by eapply Hs|by eapply Hb|lia|lia].
  - intros i g [[_ Hi]|[_ ->]]%Hall; [by eapply Hb|done].
  - intros v Hv. destruct (Hlog v Hv) as (? & ?). by eauto.
Qed.

Lemma alive_held t id g pg : tf_held t !! id = Some (g, pg) → alive t g = true.
Proof using Type.
  intros Hid. unfold alive. apply orb_true_iff. right. apply existsb_exists. exists (id, (g, pg)).
  split; [|by rewrite Nat.eqb_refl]. apply list_elem_of_In. by apply elem_of_map_to_list.
Qed.

Lemma tinv_replace t session secrets t' :
  tinv t → session_wf session → replace_policy session secrets t = Some t' → tinv t'.
Proof using All.
  intros Hinv Hwf Hr. pose proof (current_next _ _ _ (ti_policies _ Hinv)) as Hcur.
  unfold replace_policy in Hr. destruct (replace_generation _ _ _ _) as [rt|] eqn:Hrg; [|done]. injection Hr as <-.
  destruct Hinv as [[Hrt Hseed Hlen Hnum Hgen Hlisted Hall] Hh Hl Hcs Hcnt Hs Hb Hlog].
  pose proof (replace_generation_wf _ _ _ _ _ Hrt Hrg) as Hrt'.
  unfold replace_generation in Hrg. destruct (_ <=? _) eqn:Hcap; [done|]. injection Hrg as <-.
  set (now := current (tf_runtime t)) in *.
  assert (Hold : ∀ g h, tf_history t !! g = Some h → (tf_history t ++ [(session, secrets)]) !! g = Some h).
  { intros g h Hg. by apply lookup_app_l_Some. }
  split; cbn [tf_loop tf_runtime tf_held tf_history tf_accepted tf_log]; try done.
  - split; [done|done| |by cbn| | |]; cbn [rt_next rt_generation rt_generations current pred].
    + rewrite length_app, Hlen. cbn. lia.
    + exists (session, secrets). rewrite lookup_app_r, Hlen, Nat.sub_diag by (rewrite Hlen; done).
      split; [done|]. unfold built. by rewrite Hseed.
    + apply elem_of_app. right. by left.
    + apply Forall_app. split; [done|by apply Forall_singleton].
  - intros id g pg Hid. destruct (Hh _ _ _ Hid) as (? & Hg & Hb'). split; [done|]. split.
    + apply elem_of_app. left. apply list_elem_of_filter. split; [by eapply alive_held|done].
    + apply fmap_Some in Hb' as (h & Hh' & ->). by rewrite (Hold _ _ Hh').
  - intros i g Hi. specialize (Hb i g Hi). cbn. lia.
  - intros v Hv. destruct (Hlog v Hv) as (? & h & ? & ?). by eauto.
Qed.

Lemma tinv_step t t' : tinv t → tstep t t' → tinv t'.
Proof using All.
  intros Hinv Hstep. destruct Hstep as [t ev s' Hsil Hs|t Hph|t id c g pg e Hc Hst Hid He
    |t ev id c g pg e metrics s' Hc Hst Hid He Hm Hev Hs|t id c s' Hc Hst Hs|t t' session secrets Hwf Hr|t].
  - assert (Hg : gone ev = None) by (by destruct ev).
    pose proof (step_tasks ev _ _ (or_introl Hsil) Hs) as Ht. rewrite Hg in Ht.
    unfold with_loop. rewrite <- (app_nil_r (tf_log t)). apply (tinv_tasks t s' None []); [done..|]. by intros v ?%elem_of_nil.
  - by apply tinv_accept.
  - apply (tinv_tasks t _ (Some id)); [done| |by eapply visit_confined].
    by apply (step_tasks (Finish id) (set_metrics (ce_metrics e) (tf_loop t))); [right|apply task_end].
  - apply (tinv_tasks t _ (Some id)); [done| |by eapply visit_confined].
    assert (Hg : gone ev = Some id) by (by destruct Hev as [-> | ->]). rewrite <- Hg.
    apply (step_tasks ev (set_metrics metrics (tf_loop t))); [by rewrite Hg; right|done].
  - apply (tinv_tasks t _ (Some id) []); [done| |by intros v ?%elem_of_nil].
    apply (step_tasks (Aborted id)); [by right|done].
  - by eapply tinv_replace.
  - destruct Hinv as [[Hrt ? ? ? ? ? ?] ? ? ? ? ? ? ?]. split; try done. destruct Hrt. by repeat split.
Qed.

Lemma treachable_inv t : treachable t → tinv t.
Proof using All. induction 1; [by apply tinv_initial|by eapply tinv_step]. Qed.

(** The loop's own theorems hold of the joint system. *)
Lemma treachable_loop t : treachable t → AcceptLoop.reachable listener_generation capacity (tf_loop t).
Proof using All.
  induction 1 as [t Hi|t t' Ht IH Hstep]; [apply reach_init; by destruct Hi as (? & _)|].
  pose proof (tstep_loop t t' (treachable_inv t Ht) Hstep) as Hrun.
  induction Hrun as [|x y z [ev Hxy] _ IHrun]; [done|]. apply IHrun. by eapply reach_step.
Qed.

(** ** The past does not change *)

Definition extends (t t' : traffic) : Prop :=
  tf_history t `prefix_of` tf_history t' ∧ current (tf_runtime t) ≤ current (tf_runtime t') ∧
  ∃ more, tf_accepted t' = tf_accepted t ++ more ∧ Forall (λ g, current (tf_runtime t) ≤ g) more.

#[export] Instance extends_preorder : PreOrder extends.
Proof.
  split.
  - intros t. split; [done|]. split; [done|]. exists []. by rewrite app_nil_r.
  - intros t1 t2 t3 (Hh & Hc & m & He & Hm) (Hh' & Hc' & m' & He' & Hm').
    split; [by etrans|]. split; [lia|]. exists (m ++ m'). split; [by rewrite He', He, app_assoc|].
    apply Forall_app. split; [done|]. eapply Forall_impl; [exact Hm'|]. cbn. lia.
Qed.

Lemma extends_same t t' :
  tf_history t' = tf_history t → current (tf_runtime t') = current (tf_runtime t) → tf_accepted t' = tf_accepted t → extends t t'.
Proof using Type.
  intros Hh Hr Ha. unfold extends. rewrite Hh, Hr, Ha. split; [done|]. split; [done|]. exists []. by rewrite app_nil_r.
Qed.

Lemma tstep_extends t t' : tinv t → tstep t t' → extends t t'.
Proof using Type.
  intros Hinv Hstep. destruct Hstep as [| t ? | | | |t t' session secrets Hwf Hr|]; try by apply extends_same.
  - unfold accept_client. destruct (decide _); [by apply extends_same|].
    split; [done|]. split; [done|]. exists [current (tf_runtime t)]. split; [done|]. by apply Forall_singleton.
  - pose proof (current_next _ _ _ (ti_policies _ Hinv)) as Hcur.
    unfold replace_policy, replace_generation in Hr. destruct (_ <=? _); simplify_eq/=.
    split; [by apply prefix_app_r|]. split; [cbn; lia|]. exists []. by rewrite app_nil_r.
Qed.

Lemma run_extends t t' : treachable t → rtc tstep t t' → treachable t' ∧ extends t t'.
Proof using All.
  intros Ht Hrun. induction Hrun as [t|t t1 t2 Hstep _ IH]; [done|].
  destruct IH as [Ht2 Hext]; [by eapply treach_step|]. split; [done|]. etrans; [|exact Hext].
  apply tstep_extends; [by apply treachable_inv|done].
Qed.

(** C13: the traffic of a session listener obeys its policies through every
    reload. In any interleaving of the accept loop, the connections and the
    daemon, each connection that was served, or cut off while it was, contacted
    at most an address that its policy generation allows, in the mode it allows,
    and injected credentials only as that generation's rules say. That generation
    was installed when the connection was accepted: from any moment on, later
    connections are under the policy installed then or a newer one, earlier ones
    keep what they had, and an installed policy never changes. *)
Theorem session_traffic_confined t t' :
  treachable t → rtc tstep t t' →
  tf_history t `prefix_of` tf_history t' ∧
  ∀ v, v ∈ tf_log t' →
    (∃ sc secrets, tf_history t' !! vi_generation v = Some (sc, secrets) ∧ confined sc seed secrets (vi_end v)) ∧
    if decide (vi_conn v < st_next (tf_loop t)) then vi_generation v ≤ current (tf_runtime t)
    else current (tf_runtime t) ≤ vi_generation v.
Proof using All.
  intros Ht Hrun. destruct (run_extends t t' Ht Hrun) as (Ht' & Hhist & _ & more & Hmore & Hge).
  split; [done|]. intros v Hv. destruct (ti_log _ (treachable_inv _ Ht') v Hv) as (Hacc & [sc secrets] & Hh & Hconf).
  split; [by eauto|]. pose proof (ti_count _ (treachable_inv _ Ht)) as Hcnt. rewrite Hmore in Hacc.
  destruct (decide _) as [Hlt|Hlt].
  - rewrite lookup_app_l in Hacc by lia. by apply (ti_bound _ (treachable_inv _ Ht)) in Hacc.
  - rewrite lookup_app_r in Hacc by lia. rewrite Forall_forall in Hge. apply Hge. by eapply list_elem_of_lookup_2.
Qed.

(** ** When a reload is refused *)

(** The generations somebody owns: the runtime's and those of the tasks. *)
Definition owned (t : traffic) : gset nat :=
  {[ current (tf_runtime t) ]} ∪ list_to_set ((λ kv, kv.2.1) <$> map_to_list (tf_held t)).

Lemma alive_owned t g : alive t g = true ↔ g ∈ owned t.
Proof using Type.
  unfold alive, owned. rewrite orb_true_iff, Nat.eqb_eq, elem_of_union, elem_of_singleton, elem_of_list_to_set.
  rewrite existsb_exists, list_elem_of_fmap. setoid_rewrite list_elem_of_In. setoid_rewrite Nat.eqb_eq.
  split; (intros [?|(kv & ? & ?)]; [by left|right; by exists kv]).
Qed.

Lemma owned_listed t : tinv t → owned t ⊆ list_to_set (rt_generations (tf_runtime t)).
Proof using Type.
  intros Hinv g Hg. apply elem_of_list_to_set. unfold owned in Hg. apply elem_of_union in Hg as [->%elem_of_singleton|Hg].
  - apply (pi_listed _ _ _ (ti_policies _ Hinv)).
  - apply elem_of_list_to_set, list_elem_of_fmap in Hg as ([id [g' pg]] & -> & Hin).
    apply elem_of_map_to_list in Hin. by apply (ti_held _ Hinv) in Hin as (_ & ? & _).
Qed.

(** A weak reference that is not listed is not owned: the pruned list has one
    entry for each generation somebody owns. *)
Lemma pruned_owned t :
  tinv t → length (filter (λ g, alive t g = true) (rt_generations (tf_runtime t))) = size (owned t).
Proof using Type.
  intros Hinv. pose proof (pi_runtime _ _ _ (ti_policies _ Hinv)) as Hrt.
  rewrite <- (size_list_to_set (C := gset nat)) by (apply NoDup_filter, (rw_NoDup _ Hrt)).
  f_equal. apply leibniz_equiv. intros g. rewrite elem_of_list_to_set, list_elem_of_filter, alive_owned.
  split; [by intros [? _]|]. intros Hg. split; [done|]. apply owned_listed in Hg; [|done]. by apply elem_of_list_to_set in Hg.
Qed.

(** installing a policy is refused exactly while the runtime and the live
    connections own the full number of generations, which is never exceeded; a
    refusal changes nothing, and what is installed is the compiled policy. *)
Theorem replace_policy_refused t session secrets :
  treachable t →
  size (owned t) ≤ MAX_POLICY_GENERATIONS ∧
  (replace_policy session secrets t = None ↔ size (owned t) = MAX_POLICY_GENERATIONS) ∧
  (∀ t', replace_policy session secrets t = Some t' →
     rt_generation (tf_runtime t') = built (session, secrets) ∧ tf_held t' = tf_held t ∧
     st_conns (tf_loop t') = st_conns (tf_loop t)).
Proof using All.
  intros Ht. pose proof (treachable_inv _ Ht) as Hinv. pose proof (pruned_owned t Hinv) as Hlen.
  assert (Hmax : size (owned t) ≤ MAX_POLICY_GENERATIONS).
  { pose proof (rw_bound _ (pi_runtime _ _ _ (ti_policies _ Hinv))). pose proof (length_filter (λ g, alive t g = true) (rt_generations (tf_runtime t))). lia. }
  split; [done|]. unfold replace_policy, replace_generation. rewrite Hlen.
  destruct (Nat.leb_spec MAX_POLICY_GENERATIONS (size (owned t))) as [Hle|Hlt].
  - split; [split; [intros _; lia|done]|done].
  - split; [split; [done|lia]|]. intros t' [= <-]. cbn. unfold built. cbn.
    by rewrite (pi_seed _ _ _ (ti_policies _ Hinv)).
Qed.
End traffic.

(** ** An example: one client of a fresh listener *)

Definition traffic_options : ProxyRuntimeOptions :=
  mkProxyRuntimeOptions (lit "s1") example_session example_secrets [] (lit "/run/baffle/s1.sock") 1 1.

Definition traffic_runtime : Runtime :=
  mkRuntime (lit "s1") 1 (lit "/run/baffle/s1.sock") (mkProxyGeneration example_policy example_secrets)
    [0] 1 1 [] false false true.

Definition traffic_loop (ph : phase) (conns : gmap nat conn) (next permits : nat) (metrics : Metrics) : AcceptLoop.state :=
  AcceptLoop.mkState ph true true conns next permits 0 metrics 0 false false 1 0.

Abbreviation example_traffic := (@mkTraffic plain_tls plain_http).
Definition first_history : list (SessionConfig * ResolvedSecrets) := [(example_session, example_secrets)].
Definition at_phase (ph : phase) : @traffic plain_tls plain_http :=
  example_traffic (traffic_loop ph ∅ 0 2 metrics_default) traffic_runtime ∅ first_history [] [].
Definition with_task (status : conn_status) (metrics : Metrics) : @traffic plain_tls plain_http :=
  example_traffic (traffic_loop AtCancellation {[ 0 := mkConn 0 status ]} 1 1 metrics) traffic_runtime
    {[ 0 := (0, rt_generation traffic_runtime) ]} first_history [0] [].

Abbreviation example_treachable :=
  (@treachable plain_tls plain_http plain_base64 plain_host_parse plain_crypto 1 2 traffic_options).
Abbreviation example_tstep := (@tstep plain_tls plain_http plain_base64 plain_host_parse plain_crypto 1).

Lemma traffic_start : example_treachable (at_phase AtCancellation).
Proof.
  apply treach_init. split; [by repeat split|]. split; [done|]. split; [reflexivity|].
  split; [exact example_session_wf|]. by repeat split.
Qed.

Lemma traffic_turn ph ph' :
  step 1 Turn (tf_loop (at_phase ph)) (tf_loop (at_phase ph')) → example_tstep (at_phase ph) (at_phase ph').
Proof. intros Hs. by apply (tr_silent 1 (at_phase ph) Turn (tf_loop (at_phase ph'))). Qed.

Lemma traffic_accepts : rtc example_tstep (at_phase AtCancellation) (with_task Serving (connection_started metrics_default)).
Proof.
  eapply rtc_l; [apply (traffic_turn _ AtRetirement); by apply (loop_not_cancelled 1 (tf_loop (at_phase AtCancellation)))|].
  eapply rtc_l; [apply (traffic_turn _ AtJoin); by apply (loop_not_retired 1 (tf_loop (at_phase AtRetirement)))|].
  eapply rtc_l; [apply (traffic_turn _ AtAccept); apply (loop_no_join 1 (tf_loop (at_phase AtJoin))); [done|]|].
  { intros id c. cbn. by rewrite lookup_empty. }
  eapply (rtc_l _ _ (with_task Spawned metrics_default)); [by apply (tr_accept 1 (at_phase AtAccept))|].
  apply rtc_once. apply (tr_silent 1 (with_task Spawned metrics_default) (Start 0)
    (tf_loop (with_task Serving (connection_started metrics_default)))); [done|].
  by apply (task_start 1 (tf_loop (with_task Spawned metrics_default)) 0 (mkConn 0 Spawned)).
Qed.

(** The client of TlsIntercept's example, served by this listener. *)
Definition served_run : option (@client_end plain_tls plain_http) :=
  @serve_client plain_tls plain_http plain_base64 plain_host_parse connection _ 300 false intercept_peer
    (mkWriter [] [] false) example_policy example_secrets DialFailed example_env (connection_started metrics_default).

Definition traffic_end (e : @client_end plain_tls plain_http) : @traffic plain_tls plain_http :=
  let t := with_task Serving (connection_started metrics_default) in
  task_gone (end_task 0 (mkConn 0 Serving) Finished (set_metrics (ce_metrics e) (tf_loop t))) 0
    [@mkVisit plain_tls plain_http 0 0 e] t.

Lemma session_traffic_confined_witness :
  ∃ e, served_run = Some e ∧ ce_contact e = Some (lit "example.com", 443%N) ∧
    rtc example_tstep (at_phase AtCancellation) (traffic_end e) ∧
    @confined plain_tls plain_http plain_base64 plain_host_parse plain_crypto example_session [] example_secrets e.
Proof.
  assert (Hrun : ce_contact <$> served_run = Some (Some (lit "example.com", 443%N))) by (vm_compute; reflexivity).
  destruct served_run as [e|] eqn:He; [|discriminate Hrun]. injection Hrun as Hrun.
  exists e. split; [reflexivity|]. split; [exact Hrun|].
  assert (Hsteps : rtc example_tstep (at_phase AtCancellation) (traffic_end e)).
  { eapply rtc_r; [exact traffic_accepts|].
    apply (tr_finish 1 (with_task Serving (connection_started metrics_default)) 0 (mkConn 0 Serving) 0
             (rt_generation traffic_runtime)); [done..|].
    exists connection, _, 300, false, intercept_peer, (mkWriter [] [] false), DialFailed, example_env. exact He. }
  split; [exact Hsteps|].
  destruct (@session_traffic_confined plain_tls plain_http plain_http_laws plain_base64 plain_base64_laws plain_host_parse
    plain_host_laws plain_crypto 1 2 traffic_options _ _ traffic_start Hsteps) as [_ Hall].
  destruct (Hall (mkVisit _ _ 0 0 e)) as [(sc & secrets & Hh & Hc) _]; [left|].
  injection Hh as <- <-. exact Hc.
Defined.

Lemma replace_policy_refused_witness :
  owned (at_phase AtCancellation) = {[ 0 ]} ∧
  is_Some (@replace_policy plain_tls plain_http plain_crypto example_session example_secrets (at_phase AtCancellation)).
Proof.
  assert (Ho : owned (at_phase AtCancellation) = {[ 0 ]}) by (vm_compute; reflexivity).
  split; [exact Ho|].
  destruct (@replace_policy_refused plain_tls plain_http plain_http_laws plain_base64 plain_base64_laws plain_host_parse
    plain_host_laws plain_crypto 1 2 traffic_options _ example_session example_secrets traffic_start) as (_ & Hiff & _).
  destruct (replace_policy _ _ _) as [t|]; [by eexists|]. discriminate (proj1 Hiff eq_refl).
Defined.
