(* ===== verification/ControlFrame.v ===== *)
(** Frames of the control protocol
    (src/control/server.rs: [read_request_frame], [read_exact_timed],
    [write_value]; crates/baffle-client/src/lib.rs: [exchange]).

    A message is a big-endian 32-bit length and that many bytes. Both ends are
    modelled over the byte-stream interface, so the theorems hold for every
    fragmentation. JSON text is [serde_json]'s, an interface with one law. *)

From S2P Require Import Prelude RustStr BTree AsyncIo.
From stdpp Require Import options.
Local Open Scope char_scope.

(** ** Big-endian lengths *)

Definition U32 : N := 2 ^ 32.

Definition to_be_bytes (n : N) : str :=
  (λ shift, ascii_of_N (N.land (N.shiftr n shift) 255)) <$> [24; 16; 8; 0]%N.

Definition from_be_bytes (header : str) : N :=
  foldl (λ acc b, N.lor (N.shiftl acc 8) (code b)) 0%N header.

(** [u32::try_from] on a length. *)
Definition u32_try_from (n : nat) : option N :=
  if (N.of_nat n <? U32)%N then Some (N.of_nat n) else None.

(** ** JSON values

    Objects are [serde_json]'s maps, ordered by key. *)

Inductive json :=
| JNull
| JBool (b : bool)
| JNumber (n : N)
| JString (s : str)
| JArray (l : list json)
| JObject (fields : list (str * json)).

Definition json_object (fields : list (str * json)) : json := JObject (sort_by_key fst fields).

Definition json_get (key : str) (v : json) : option json :=
  match v with
  | JObject fields => snd <$> find (λ f, str_eqb f.1 key) fields
  | _ => None
  end.

(** [serde_json::to_vec] and [from_slice]. [json_to_vec] is [None] on what is
    no value of that crate, such as an object whose keys are out of order. *)
Class JsonCodec := {
  json_to_vec : json → option str;
  json_from_slice : str → option json;
}.
Class JsonCodecLaws `{JsonCodec} : Prop := {
  json_round_trip v bytes : json_to_vec v = Some bytes → json_from_slice bytes = Some v;
  json_nonempty v bytes : json_to_vec v = Some bytes → bytes ≠ [];
}.

(** ** [read_exact] *)

(** tokio's loop: read into what is left of the buffer until it is full; the
    end of the stream is an error. A read returns at least one byte otherwise,
    so [n] rounds are enough for [n] bytes. *)
Fixpoint read_exact_loop {R} `{AsyncRead R} (rounds : nat) (n : nat) (acc : str) (r : R) : option (str * R) :=
  if (n =? 0)%nat then Some (acc, r)
  else
    match rounds with
    | 0 => None
    | S rounds =>
        match async_read n r with
        | None | Some ([], _) => None
        | Some (got, r') => read_exact_loop rounds (n - length got) (acc ++ got) r'
        end
    end.

Definition read_exact {R} `{AsyncRead R} (n : nat) (r : R) : option (str * R) := read_exact_loop n n [] r.

(** ** The server's side *)

Definition MAX_REQUEST_BYTES : N := 256 * 1024.
Definition PROTOCOL_VERSION : N := 2.

Definition control_error : Type := str * str.
Definition ERR_UNAUTHORIZED : control_error := (lit "unauthorized", lit "client is not authorized").
Definition ERR_INVALID_REQUEST : control_error := (lit "invalid_request", lit "request is invalid").
Definition ERR_UNSUPPORTED_VERSION : control_error :=
  (lit "unsupported_version", lit "protocol version is not supported").
Definition ERR_FRAME_TOO_LARGE : control_error :=
  (lit "frame_too_large", lit "request exceeds the maximum frame size").
Definition ERR_TRUNCATED_FRAME : control_error := (lit "truncated_frame", lit "request frame is incomplete").
Definition ERR_READ_TIMEOUT : control_error := (lit "read_timeout", lit "request read timed out").
Definition ERR_BUSY : control_error := (lit "busy", lit "server is busy").
Definition ERR_SESSION_LIMIT : control_error := (lit "session_limit", lit "session limit has been reached").
Definition ERR_SESSION_NOT_FOUND : control_error := (lit "session_not_found", lit "session was not found").
Definition ERR_SECRET_UNAVAILABLE : control_error :=
  (lit "secret_unavailable", lit "one or more requested secrets are unavailable").
Definition ERR_INTERNAL : control_error := (lit "internal_error", lit "request could not be completed").
Definition ERR_SHUTTING_DOWN : control_error := (lit "shutting_down", lit "daemon is shutting down").
Definition ERR_OPERATION_NOT_ALLOWED : control_error :=
  (lit "operation_not_allowed", lit "session creation operation is not allowed by daemon configuration").
Definition ERR_EPHEMERAL_REQUIRED : control_error :=
  (lit "ephemeral_required", lit "session configuration must be ephemeral").

Section server.
Context {R : Type} `{!AsyncRead R}.

(** [expired k]: the [k]-th awaited operation of the connection times out. *)
Definition read_exact_timed (expired : bool) (n : nat) (r : R) : result control_error (str * R) :=
  if expired then Err ERR_READ_TIMEOUT else ok_or (read_exact n r) ERR_TRUNCATED_FRAME.

Definition read_request_frame (expired : nat → bool) (r : R) : result control_error (option (str * R)) :=
  if expired 0 then Err ERR_READ_TIMEOUT
  else
    match async_read 1 r with
    | None => Err ERR_TRUNCATED_FRAME
    | Some ([], _) => Ok None
    | Some (first, r) =>
        '(rest, r) ← read_exact_timed (expired 1) 3 r;
        let frame_length := from_be_bytes (first ++ rest) in
        if (MAX_REQUEST_BYTES <? frame_length)%N then Err ERR_FRAME_TOO_LARGE
        else if (frame_length =? 0)%N then Err ERR_INVALID_REQUEST
        else
          '(body, r) ← read_exact_timed (expired 2) (N.to_nat frame_length) r;
          Ok (Some (body, r))
    end.
End server.

Definition error_value_with_message (code message : str) : json :=
  json_object [(lit "version", JNumber PROTOCOL_VERSION); (lit "ok", JBool false);
    (lit "error", json_object [(lit "code", JString code); (lit "message", JString message)])].
Definition error_value (e : control_error) : json := error_value_with_message e.1 e.2.
Definition success (result : json) : json :=
  json_object [(lit "version", JNumber PROTOCOL_VERSION); (lit "ok", JBool true); (lit "result", result)].

(** A frame is written by two [write_all] calls; [flush] does nothing on a
    Unix stream. *)
Definition write_frame (bytes : str) (w : writer) : option bool * writer :=
  match u32_try_from (length bytes) with
  | None => (None, w)
  | Some length =>
      let '(ok, w) := write_all (to_be_bytes length) w in
      if ok then let '(ok, w) := write_all bytes w in (Some ok, w) else (Some false, w)
  end.

Section json.
Context `{!JsonCodec}.

Definition write_value (w : writer) (value : json) : bool * writer :=
  match json_to_vec value with
  | None => (false, w)
  | Some bytes => let '(ok, w) := write_frame bytes w in (default false ok, w)
  end.

Definition write_error (w : writer) (e : control_error) : bool * writer := write_value w (error_value e).
End json.

(** ** The client's side *)

Definition MAX_RESPONSE_BYTES : N := 4 * 1024 * 1024.

Inductive ClientError :=
| Authorization (message : str)
| InvalidPolicy (message : str)
| CapacityLimit (message : str)
| ProtocolMismatch
| RemoteProtocolMismatch (message : str)
| Provisioning (message : str)
| SessionNotFound (message : str)
| SessionConfigNotFound (message : str)
| SessionConfigUnavailable (message : str)
| SessionConfigInvalid (message : str)
| OperationNotAllowed (message : str)
| Transport
| Serialization
| Protocol (message : string)
| Server (code message : str).

Record RemoteError := mkRemoteError { re_code : str; re_message : str }.

Record Envelope := mkEnvelope {
  en_version : N;
  en_ok : bool;
  en_result : option json;
  en_error : option RemoteError;
}.

Definition code_in (code : str) (codes : list string) : bool := existsb (λ c, str_eqb code (lit c)) codes.

Definition map_remote_error (error : RemoteError) : ClientError :=
  let '(mkRemoteError code message) := error in
  if code_in code ["unauthorized"; "secret_unavailable"]%string then Authorization message
  else if code_in code ["invalid_request"]%string then InvalidPolicy message
  else if code_in code ["unsupported_version"]%string then RemoteProtocolMismatch message
  else if code_in code ["busy"; "session_limit"]%string then CapacityLimit message
  else if code_in code ["session_not_found"]%string then SessionNotFound message
  else if code_in code ["config_file_not_found"]%string then SessionConfigNotFound message
  else if code_in code ["config_file_unavailable"]%string then SessionConfigUnavailable message
  else if code_in code ["config_file_invalid"]%string then SessionConfigInvalid message
  else if code_in code ["ephemeral_required"]%string then InvalidPolicy message
  else if code_in code ["operation_not_allowed"]%string then OperationNotAllowed message
  else if code_in code ["internal_error"; "shutting_down"]%string then Provisioning message
  else Server code message.

(** serde's derived deserialisers: a missing or [null] field is an absent
    option, a field of the wrong type is an error, other fields are ignored. *)
Definition json_string (v : json) : option str := match v with JString s => Some s | _ => None end.
Definition json_bool (v : json) : option bool := match v with JBool b => Some b | _ => None end.
Definition json_u16 (v : json) : option N :=
  match v with JNumber n => if (n <? 65536)%N then Some n else None | _ => None end.
Definition json_optional {A} (parse : json → option A) (o : option json) : option (option A) :=
  match o with
  | None | Some JNull => Some None
  | Some v => Some <$> parse v
  end.

Definition remote_error_from_value (v : json) : option RemoteError :=
  code ← json_get (lit "code") v ≫= json_string;
  message ← json_get (lit "message") v ≫= json_string;
  Some (mkRemoteError code message).

Definition envelope_from_value (v : json) : option Envelope :=
  version ← json_get (lit "version") v ≫= json_u16;
  ok ← json_get (lit "ok") v ≫= json_bool;
  result ← json_optional Some (json_get (lit "result") v);
  error ← json_optional remote_error_from_value (json_get (lit "error") v);
  Some (mkEnvelope version ok result error).

Section client.
Context {R : Type} `{!AsyncRead R} `{!JsonCodec}.

(** The request half; [body] is the request in TOML. *)
Definition send_request (body : option str) (w : writer) : result ClientError unit * writer :=
  match body with
  | None => (Err Serialization, w)
  | Some body =>
      if str_eqb body [] || (MAX_REQUEST_BYTES <? N.of_nat (length body))%N
      then (Err (Protocol "request exceeds the supported frame size"), w)
      else
        match write_frame body w with
        | (None, w) => (Err (Protocol "request exceeds the supported frame size"), w)
        | (Some false, w) => (Err Transport, w)
        | (Some true, w) => (Ok (), w)
        end
  end.

Definition receive_response (r : R) : result ClientError (json * R) :=
  '(header, r) ← ok_or (read_exact 4 r) Transport;
  let response_length := from_be_bytes header in
  if (response_length =? 0)%N || (MAX_RESPONSE_BYTES <? response_length)%N
  then Err (Protocol "response frame has an unsupported size")
  else
    '(body, r) ← ok_or (read_exact (N.to_nat response_length) r) Transport;
    envelope ← ok_or (json_from_slice body ≫= envelope_from_value) (Protocol "response is not valid JSON");
    if negb (en_version envelope =? PROTOCOL_VERSION)%N then Err ProtocolMismatch
    else if en_ok envelope then
      value ← ok_or (en_result envelope) (Protocol "successful response has no result");
      Ok (value, r)
    else
      error ← ok_or (en_error envelope) (Protocol "failed response has no error");
      Err (map_remote_error error).

Definition exchange (body : option str) (w : writer) (r : R) : result ClientError (json * R) * writer :=
  match send_request body w with
  | (Err e, w) => (Err e, w)
  | (Ok (), w) => (receive_response r, w)
  end.
End client.

(** ** Lengths *)

Lemma code_ascii_of_N_land n : code (ascii_of_N (N.land n 255)) = N.land n 255.
Proof.
  apply code_of_N. change 255%N with (N.ones 8). rewrite N.land_ones. apply N.mod_lt. done.
Qed.

(** Appending the next byte of [n] below the bits above it. *)
Lemma next_byte n s :
  N.lor (N.shiftl (N.shiftr n (s + 8)) 8) (N.land (N.shiftr n s) 255) = N.shiftr n s.
Proof.
  apply N.bits_inj. intros k. change 255%N with (N.ones 8).
  rewrite N.lor_spec, N.land_spec, N.shiftr_spec by lia.
  destruct (N.lt_ge_cases k 8).
  - rewrite N.shiftl_spec_low, N.ones_spec_low by done. by rewrite andb_true_r.
  - rewrite N.shiftl_spec_high, N.shiftr_spec, N.ones_spec_high by lia.
    rewrite andb_false_r, orb_false_r. f_equal. lia.
Qed.

Lemma from_to_be_bytes n : (n < U32)%N → from_be_bytes (to_be_bytes n) = n.
Proof.
  intros Hn. unfold from_be_bytes, to_be_bytes. cbn [fmap list_fmap foldl].
  rewrite !code_ascii_of_N_land.
  assert (N.shiftr n 32 = 0%N) as Hz.
  { rewrite N.shiftr_div_pow2. by apply N.div_small. }
  pose proof (next_byte n 24) as H24. change (24 + 8)%N with 32%N in H24. rewrite Hz in H24.
  rewrite H24. rewrite (next_byte n 16 : N.lor (N.shiftl (N.shiftr n 24) 8) _ = _).
  rewrite (next_byte n 8 : N.lor (N.shiftl (N.shiftr n 16) 8) _ = _).
  rewrite (next_byte n 0 : N.lor (N.shiftl (N.shiftr n 8) 8) _ = _). apply N.shiftr_0_r.
Qed.

Lemma length_to_be_bytes n : length (to_be_bytes n) = 4.
Proof. done. Qed.

(** ** Reading exactly *)

Section read_exact.
Context {R : Type} `{!AsyncRead R} `{!AsyncReadSpec R}.

Lemma read_exact_loop_spec rounds n acc (r : R) bs :
  n ≤ rounds → delivers r bs →
  if decide (n ≤ length bs)
  then ∃ r', read_exact_loop rounds n acc r = Some (acc ++ take n bs, r') ∧ delivers r' (drop n bs)
  else read_exact_loop rounds n acc r = None.
Proof using Type*.
  revert n acc r bs. induction rounds as [|rounds IH]; intros n acc r bs Hn Hd; cbn [read_exact_loop];
    destruct (Nat.eqb_spec n 0) as [->|Hz].
  1,3: rewrite decide_True by lia; exists r; by rewrite take_0, app_nil_r.
  { lia. }
  destruct (async_read_delivers r bs n Hd ltac:(lia)) as (got & r' & rest & -> & Hd' & -> & Hl & Hne).
  destruct got as [|b got].
  { assert (rest = []) as -> by (destruct rest; [done|]; by destruct (Hne ltac:(done))).
    by rewrite decide_False by (cbn; lia). }
  specialize (IH (n - length (b :: got)) (acc ++ b :: got) r' rest ltac:(cbn; lia) Hd').
  rewrite length_app. destruct (decide (n ≤ length (b :: got) + length rest)).
  - rewrite decide_True in IH by lia. destruct IH as (r'' & -> & Hd''). exists r''.
    rewrite take_app, drop_app, (take_ge (b :: got)), (drop_ge (b :: got)), <-app_assoc by (cbn in *; lia).
    done.
  - rewrite decide_False in IH by lia. done.
Qed.

Lemma read_exact_Some n (r : R) bs :
  delivers r bs → n ≤ length bs →
  ∃ r', read_exact n r = Some (take n bs, r') ∧ delivers r' (drop n bs).
Proof using Type*.
  intros Hd Hn. pose proof (read_exact_loop_spec n n [] r bs ltac:(lia) Hd) as Hs.
  by rewrite decide_True in Hs by done.
Qed.

Lemma read_exact_None n (r : R) bs : delivers r bs → length bs < n → read_exact n r = None.
Proof using Type*.
  intros Hd Hn. pose proof (read_exact_loop_spec n n [] r bs ltac:(lia) Hd) as Hs.
  by rewrite decide_False in Hs by lia.
Qed.

(** What [read_request_frame] should answer for the bytes that arrive. *)
Definition request_frame (bs : str) : result control_error (option str) :=
  let n := from_be_bytes (take 4 bs) in
  if str_eqb bs [] then Ok None
  else if (length bs <? 4)%nat then Err ERR_TRUNCATED_FRAME
  else if (MAX_REQUEST_BYTES <? n)%N then Err ERR_FRAME_TOO_LARGE
  else if (n =? 0)%N then Err ERR_INVALID_REQUEST
  else if (length (drop 4 bs) <? N.to_nat n)%nat then Err ERR_TRUNCATED_FRAME
  else Ok (Some (take (N.to_nat n) (drop 4 bs))).

Lemma read_request_frame_spec (r : R) bs :
  delivers r bs →
  match request_frame bs with
  | Err e => read_request_frame (λ _, false) r = Err e
  | Ok None => read_request_frame (λ _, false) r = Ok None
  | Ok (Some body) => ∃ r', read_request_frame (λ _, false) r = Ok (Some (body, r')) ∧
      delivers r' (drop (4 + length body) bs)
  end.
Proof using Type*.
  intros Hd. unfold request_frame, read_request_frame, read_exact_timed.
  destruct (async_read_delivers r bs 1 Hd ltac:(lia)) as (got & r1 & rest & -> & Hd1 & -> & Hl & Hne).
  destruct got as [|b [|]]; cbn in Hl; [|clear Hl|lia].
  { assert (rest = []) as -> by (destruct rest; [done|]; by destruct (Hne ltac:(done))). done. }
  unfold str_eqb. rewrite bool_decide_eq_false_2 by done. cbn [app length take drop].
  destruct (Nat.ltb_spec (S (length rest)) 4).
  { by rewrite (read_exact_None 3 r1 rest) by (done || lia). }
  destruct (read_exact_Some 3 r1 rest Hd1 ltac:(lia)) as (r2 & -> & Hd2).
  cbn [ok_or mbind result_bind app].
  destruct (_ <? _)%N; [done|]. destruct (_ =? 0)%N; [done|].
  set (n := N.to_nat _). destruct (Nat.ltb_spec (length (drop 3 rest)) n).
  { by rewrite (read_exact_None n r2 (drop 3 rest)) by done. }
  destruct (read_exact_Some n r2 (drop 3 rest) Hd2 ltac:(lia)) as (r3 & -> & Hd3).
  rewrite drop_drop in Hd3. exists r3. split; [done|].
  rewrite length_take, Nat.min_l by done. exact Hd3.
Qed.

(** A request as the client sends it is a whole frame. *)
Lemma request_frame_of body rest :
  body ≠ [] → (N.of_nat (length body) ≤ MAX_REQUEST_BYTES)%N →
  request_frame (to_be_bytes (N.of_nat (length body)) ++ body ++ rest) = Ok (Some body).
Proof using Type.
  intros Hne Hl. unfold request_frame.
  assert (N.of_nat (length body) < U32)%N by (unfold MAX_REQUEST_BYTES, U32 in *; lia).
  rewrite take_app_length', drop_app_length' by done. rewrite from_to_be_bytes by done.
  rewrite length_app, length_to_be_bytes. unfold str_eqb. rewrite bool_decide_eq_false_2 by done.
  rewrite (proj2 (Nat.ltb_ge _ _)) by lia. rewrite (proj2 (N.ltb_ge _ _)) by done.
  destruct (N.eqb_spec (N.of_nat (length body)) 0); [by destruct body|].
  rewrite Nat2N.id, length_app, (proj2 (Nat.ltb_ge _ _)) by lia. by rewrite take_app_length.
Qed.
End read_exact.

Lemma u32_try_from_Some n k : u32_try_from n = Some k → k = N.of_nat n ∧ (k < U32)%N.
Proof. unfold u32_try_from. destruct (N.ltb_spec (N.of_nat n) U32); naive_solver. Qed.

(** What a frame adds to the stream. *)
Lemma write_frame_written bytes w ok w' :
  write_frame bytes w = (ok, w') →
  w_shutdown w' = w_shutdown w ∧
  ∃ part, w_written w' = w_written w ++ part ∧
    part `prefix_of` to_be_bytes (N.of_nat (length bytes)) ++ bytes ∧
    (ok = Some true → part = to_be_bytes (N.of_nat (length bytes)) ++ bytes).
Proof.
  unfold write_frame. destruct (u32_try_from _) as [n|] eqn:Hu.
  2:{ intros [= <- <-]. split; [done|]. exists []. rewrite app_nil_r. split_and!; [done|apply prefix_nil|done]. }
  apply u32_try_from_Some in Hu as [-> _].
  destruct (write_all (to_be_bytes _) w) as [ok1 w1] eqn:H1.
  apply write_all_prefix in H1 as (p1 & Hw1 & Hp1 & Hf1 & Hs1).
  destruct ok1.
  - destruct (write_all bytes w1) as [ok2 w2] eqn:H2. intros [= <- <-].
    apply write_all_prefix in H2 as (p2 & Hw2 & Hp2 & Hf2 & Hs2).
    rewrite (Hf1 eq_refl) in *. split; [congruence|].
    exists (to_be_bytes (N.of_nat (length bytes)) ++ p2). rewrite Hw2, Hw1, app_assoc. split_and!; [done| |].
    + by apply prefix_app.
    + intros [= ->]. by rewrite Hf2.
  - intros [= <- <-]. split; [done|]. exists p1. split_and!; [done|by apply prefix_app_r|done].
Qed.

(** ** The server's answer as the client reads it *)

Lemma envelope_error code message :
  envelope_from_value (error_value_with_message code message) =
  Some (mkEnvelope 2 false None (Some (mkRemoteError code message))).
Proof. vm_compute. reflexivity. Qed.

Lemma envelope_success v :
  envelope_from_value (success v) =
  Some (mkEnvelope 2 true match v with JNull => None | _ => Some v end None).
Proof. destruct v; vm_compute; reflexivity. Qed.

Section round_trip.
Context {R : Type} `{!AsyncRead R} `{!AsyncReadSpec R} `{!JsonCodec} `{!JsonCodecLaws}.

Lemma receive_response_frame (r : R) v bytes rest envelope :
  json_to_vec v = Some bytes → (N.of_nat (length bytes) ≤ MAX_RESPONSE_BYTES)%N →
  envelope_from_value v = Some envelope → en_version envelope = PROTOCOL_VERSION →
  delivers r (to_be_bytes (N.of_nat (length bytes)) ++ bytes ++ rest) →
  ∃ r', delivers r' rest ∧ receive_response r =
    if en_ok envelope
    then value ← ok_or (en_result envelope) (Protocol "successful response has no result"); Ok (value, r')
    else error ← ok_or (en_error envelope) (Protocol "failed response has no error");
         Err (map_remote_error error).
Proof using Type*.
  intros Hv Hl He Hver Hd. unfold receive_response.
  destruct (read_exact_Some 4 r _ Hd) as (r1 & -> & Hd1); [rewrite length_app, length_to_be_bytes; lia|].
  rewrite take_app_length' in * by done. rewrite drop_app_length' in Hd1 by done.
  cbn [ok_or mbind result_bind].
  rewrite from_to_be_bytes by (unfold MAX_RESPONSE_BYTES, U32 in *; lia).
  destruct (N.eqb_spec (N.of_nat (length bytes)) 0).
  { by apply json_nonempty in Hv; destruct bytes. }
  rewrite (proj2 (N.ltb_ge _ _)) by done. cbn [orb]. rewrite Nat2N.id.
  destruct (read_exact_Some (length bytes) r1 _ Hd1) as (r2 & -> & Hd2); [rewrite length_app; lia|].
  rewrite take_app_length. rewrite drop_app_length in Hd2. exists r2. split; [done|].
  cbn [ok_or mbind result_bind]. rewrite (json_round_trip _ _ Hv). cbn [mbind option_bind].
  rewrite He. cbn [ok_or mbind result_bind]. by rewrite Hver.
Qed.

(** Reading a request frame depends on the bytes and not on how they are
    cut: a clean end before the first byte is no request, a frame over 256 KiB
    is refused before its body is read, an empty or incomplete frame is an
    error, and otherwise exactly the body is read and the rest is left. *)
Theorem read_request_frame_exact (r : R) bs :
  delivers r bs →
  match request_frame bs with
  | Err e => read_request_frame (λ _, false) r = Err e
  | Ok None => read_request_frame (λ _, false) r = Ok None
  | Ok (Some body) => ∃ r', read_request_frame (λ _, false) r = Ok (Some (body, r')) ∧
      delivers r' (drop (4 + length body) bs)
  end.
Proof using AsyncReadSpec0. apply read_request_frame_spec. Qed.

(** The two ends understand each other, for any fragmentation in either
    direction: what the client's [exchange] sends, the server reads as the
    same request; what the server's [write_value] sends, the client returns as
    the same result or as the classified error. *)
Lemma frames_round_trip w :
  (∀ body w', send_request (Some body) w = (Ok (), w') →
     ∃ sent, w_written w' = w_written w ++ sent ∧
       ∀ (r : R) rest, delivers r (sent ++ rest) →
         ∃ r', read_request_frame (λ _, false) r = Ok (Some (body, r')) ∧ delivers r' rest) ∧
  (∀ v w', write_value w v = (true, w') →
     ∃ sent, w_written w' = w_written w ++ sent ∧
       ∀ (r : R) rest, delivers r (sent ++ rest) → (N.of_nat (length sent) ≤ MAX_RESPONSE_BYTES)%N →
         (∀ x, v = success x → x ≠ JNull → ∃ r', receive_response r = Ok (x, r') ∧ delivers r' rest) ∧
         (∀ code message, v = error_value_with_message code message →
            receive_response r = Err (map_remote_error (mkRemoteError code message)))).
Proof using Type*.
  split.
  - intros body w' Hs. unfold send_request in Hs.
    destruct (str_eqb body [] || _) eqn:Hok; [done|]. bool_prop.
    match goal with H : str_eqb _ _ = false |- _ => apply bool_decide_eq_false in H end.
    match goal with H : (_ <? _)%N = false |- _ => apply N.ltb_ge in H end.
    destruct (write_frame body w) as [[[]|] w1] eqn:Hw; simplify_eq.
    apply write_frame_written in Hw as (_ & part & Hw & _ & Hp). rewrite (Hp eq_refl) in Hw.
    eexists. split; [exact Hw|]. intros r rest Hd. rewrite <-app_assoc in Hd.
    pose proof (read_request_frame_spec r _ Hd) as Hr. rewrite request_frame_of in Hr by done.
    destruct Hr as (r' & Hr & Hd'). exists r'. split; [done|].
    rewrite <-drop_drop, drop_app_length', drop_app_length in Hd' by done. exact Hd'.
  - intros v w' Hw. unfold write_value in Hw. destruct (json_to_vec v) as [bytes|] eqn:Hv; [|done].
    destruct (write_frame bytes w) as [[[]|] w1] eqn:Hf; simplify_eq.
    apply write_frame_written in Hf as (_ & part & Hf & _ & Hp). rewrite (Hp eq_refl) in Hf.
    eexists. split; [exact Hf|]. intros r rest Hd Hl. rewrite <-app_assoc in Hd.
    assert (N.of_nat (length bytes) ≤ MAX_RESPONSE_BYTES)%N.
    { rewrite length_app in Hl. lia. }
    split.
    + intros x -> Hx. edestruct receive_response_frame as (r' & Hd' & ->);
        [exact Hv|done|apply envelope_success|done|exact Hd|].
      exists r'. by destruct x.
    + intros code message ->. edestruct receive_response_frame as (r' & Hd' & ->);
        [exact Hv|done|apply envelope_error|done|exact Hd|]. done.
Qed.
End round_trip.

(** A codec for the server's error answers whose code has no line break. *)
#[local] Instance example_codec : JsonCodec := {|
  json_to_vec v :=
    match v with
    | JObject [(k1, JObject [(k2, JString code); (k3, JString message)]); (k4, JBool false); (k5, JNumber n)] =>
        if bool_decide ([k1; k2; k3; k4; k5] = lit <$> ["error"; "code"; "message"; "ok"; "version"]%string ∧
                        n = PROTOCOL_VERSION ∧ "010" ∉ code)
        then Some (code ++ "010" :: message) else None
    | _ => None
    end;
  json_from_slice bytes :=
    match split_once "010" bytes with
    | Some (code, message) => Some (error_value_with_message code message)
    | None => None
    end;
|}.

Lemma example_codec_vec v bytes :
  json_to_vec v = Some bytes →
  ∃ code message, v = error_value_with_message code message ∧ "010" ∉ code ∧ bytes = code ++ "010" :: message.
Proof.
  cbn. repeat (case_match; try done). subst. intros [= <-]. bool_prop.
  match goal with H : _ ∧ _ ∧ _ |- _ => destruct H as (Hk & -> & Hc) end.
  cbn in Hk. simplify_eq. by repeat eexists.
Qed.

#[local] Instance example_codec_laws : JsonCodecLaws.
Proof.
  split; intros v bytes (code & message & -> & Hc & ->)%example_codec_vec.
  - cbn. by rewrite (proj2 (split_once_Some _ _ code message)).
  - by destruct code.
Qed.

Lemma read_request_frame_exact_witness :
  ∃ r' : connection,
    read_request_frame (λ _, false)
      [Data ["000"]; Data ["000"; "000"]; Data ["002"; "h"]; Data ["i"; "!"]] =
      Ok (Some (["h"; "i"], r')) ∧ delivers r' ["!"].
Proof.
  apply (read_request_frame_exact (R := connection) [Data _; Data _; Data _; Data _]
           ["000"; "000"; "000"; "002"; "h"; "i"; "!"]).
  repeat (apply (delivers_data [_]) || apply (delivers_data [_; _]); [done|]). constructor.
Defined.

Lemma frames_round_trip_witness :
  ∃ sent, w_written (write_error (mkWriter [] [] false) ERR_BUSY).2 = sent ∧
    ∀ (r : connection) rest, delivers r (sent ++ rest) →
      receive_response r = Err (CapacityLimit (lit "server is busy")).
Proof.
  destruct (frames_round_trip (R := connection) (mkWriter [] [] false)) as [_ Hv].
  destruct (Hv (error_value ERR_BUSY) (write_error (mkWriter [] [] false) ERR_BUSY).2) as (sent & Hs & Hr);
    [vm_compute; reflexivity|].
  exists sent. split; [exact Hs|]. intros r rest Hd. cbn [app w_written] in Hs.
  destruct (Hr r rest Hd) as [_ He]; [rewrite <-Hs; vm_compute; done|].
  by rewrite (He _ _ eq_refl).
Defined.
