(* ===== verification/ControlServer.v ===== *)
(** One control connection (src/control/server.rs: [handle_connection] and
    [create_session_response]; src/config/protocol.rs: [ControlRequest]).

    [handle_connection] is the whole handler: the peer check, the request
    frame, decoding, the operation on the registry, the answer, and the lease
    of an ephemeral session. The registry operations are those of [Registry]
    and [Reload], which treat interleaving; here [others] is what other tasks
    do while a lease is held. The text of an error's detail is a parameter. *)

From S2P Require Import Prelude RustStr BTree PolicyTypes UrlPath DnsName Identifiers SessionDoc.
From S2P Require Import SessionPolicy Secrets Telemetry ProxyRuntime Registry Reload FileConfig.
From S2P Require Import AsyncIo ControlFrame.
From stdpp Require Import options.
Local Open Scope char_scope.

(** ** Requests *)

Inductive RawControlRequest :=
| RawCreate (version : N) (session : toml_value)
| RawStop (version : N) (session_id : str)
| RawReload (version : N) (session_id : str)
| RawReloadAll (version : N)
| RawCreateFromFile (version : N) (name : str) (require_ephemeral : bool)
| RawList (version : N).

Inductive ControlRequest :=
| Create (version : N) (session : SessionConfig)
| CreateFromFile (version : N) (name : str) (require_ephemeral : bool)
| StopSession (version : N) (session_id : str)
| ReloadSession (version : N) (session_id : str)
| ReloadAll (version : N)
| ListSessions (version : N).

Inductive ConfigErrorKind := Invalid | UnsupportedProtocolVersion.
#[export] Instance ConfigErrorKind_eq_dec : EqDecision ConfigErrorKind.
Proof. solve_decision. Defined.

(** The [toml] crate's deserialisers of the envelope and of the request. *)
Class ControlToml := {
  toml_version : str → option N;
  toml_request : str → option RawControlRequest;
}.

Section request.
Context `{!Toml} `{!ControlToml} `{!UrlHost}.

Definition validate_protocol_version (version : N) : result ConfigErrorKind unit :=
  if negb (version =? PROTOCOL_VERSION)%N then Err UnsupportedProtocolVersion else Ok ().

Definition control_request_from_toml (input : str) : result ConfigErrorKind ControlRequest :=
  version ← ok_or (toml_version input) Invalid;
  _ ← validate_protocol_version version;
  raw ← ok_or (toml_request input) Invalid;
  match raw with
  | RawCreate version session =>
      text ← ok_or (toml_to_string session) Invalid;
      session ← map_err (λ _, Invalid) (session_config_from_toml toml_session text);
      Ok (Create version session)
  | RawStop version session_id =>
      if validate_session_id session_id then Ok (StopSession version session_id) else Err Invalid
  | RawReload version session_id =>
      if validate_session_id session_id then Ok (ReloadSession version session_id) else Err Invalid
  | RawReloadAll version => Ok (ReloadAll version)
  | RawCreateFromFile version name require_ephemeral =>
      if validate_session_config_name name then Ok (CreateFromFile version name require_ephemeral) else Err Invalid
  | RawList version => Ok (ListSessions version)
  end.
End request.

(** ** Answers *)

Definition lifecycle_value (state : SessionLifecycle) : json :=
  JString (match state with Running => lit "running" | Stopping => lit "stopping" end).

Definition session_info_value (i : SessionInfo) : json :=
  json_object [(lit "id", JString (si_id i)); (lit "socket", JString (si_socket i));
    (lit "persistent", JBool (si_persistent i)); (lit "state", lifecycle_value (si_state i));
    (lit "generation", JNumber (si_generation i));
    (lit "draining_generations", JNumber (N.of_nat (si_draining_generations i)))].

Definition reload_status_value (status : ReloadStatus) : json :=
  JString (match status with
           | Reloaded => lit "reloaded" | Unchanged => lit "unchanged" | Failed => lit "failed"
           end).

Definition optional_field (key : string) (o : option str) : list (str * json) :=
  match o with Some s => [(lit key, JString s)] | None => [] end.

Definition reload_result_value (r : SessionReloadResult) : json :=
  json_object ([(lit "id", JString (rr_id r)); (lit "status", reload_status_value (rr_status r));
    (lit "socket", JString (rr_socket r))]
    ++ optional_field "reason" (rr_reason r) ++ optional_field "detail" (rr_detail r)).

Definition created_value (created : CreatedSession) : json :=
  json_object [(lit "id", JString (si_id (cs_info created)));
    (lit "socket", JString (si_socket (cs_info created)));
    (lit "persistent", JBool (si_persistent (cs_info created)));
    (lit "ca_certificate_pem", JString (cs_ca_certificate_pem created));
    (lit "credential_seed_base64url", JString (cs_credential_seed_base64url created))].

(** ** State *)

Inductive SessionCreateMode := Inline | FileOnly.
#[export] Instance SessionCreateMode_eq_dec : EqDecision SessionCreateMode.
Proof. solve_decision. Defined.

Record ControlState (Fd : Type) := mkControlState {
  ct_trusted_operator_uid : N;
  ct_create_mode : SessionCreateMode;
  ct_secret_store : SecretStore;
  ct_sessions : SessionManager;
  ct_session_configs : option (SessionConfigStore Fd);
}.
Arguments mkControlState {Fd}.
Arguments ct_trusted_operator_uid {Fd}.
Arguments ct_create_mode {Fd}.
Arguments ct_secret_store {Fd}.
Arguments ct_sessions {Fd}.
Arguments ct_session_configs {Fd}.

(** What the handlers change: the registry, the counters, and the permits left
    in [provisioning_slots]. *)
Record World := mkWorld {
  wd_registry : SessionRegistry;
  wd_metrics : Metrics;
  wd_slots : nat;
}.

(** [try_acquire_owned] and the drop of the permit. *)
Definition try_acquire (world : World) : option World :=
  match wd_slots world with
  | 0 => None
  | S slots => Some (mkWorld (wd_registry world) (wd_metrics world) slots)
  end.
Definition release (world : World) : World :=
  mkWorld (wd_registry world) (wd_metrics world) (S (wd_slots world)).

(** The environment of one connection: the peer's user id, which awaited
    reads time out, the file system as the secret store sees it, what
    creation and reloading ask for, which runtimes drain in time or have
    finished, what other tasks do between the sections of a reload. *)
Record conn_env := mkConnEnv {
  ev_peer_uid : option N;
  ev_expired : nat → bool;
  ev_view : FsView;
  ev_create : create_env;
  ev_drained : Runtime → bool;
  ev_finished : Runtime → bool;
  ev_alive : nat → bool;
  ev_bound : bool;
  ev_reload_drained : bool;
  ev_interfere : nat → SessionRegistry → SessionRegistry;
}.

Section handler.
Context `{!Crypto} {Fd : Type} `{!ConfigFs Fd} `{!Toml} `{!ControlToml} `{!UrlHost} `{!JsonCodec}.
Context (detail : file_error → str).

(** [read_session_total]: the fuel never runs out. *)
Definition read_session_now (store : SessionConfigStore Fd) (name : str) : result file_error SessionConfig :=
  match read_session store name with Some r => r | None => Err FileDepth end.

(** [create_session_response]; the permit is given back on every path. *)
Definition create_session_response (state : ControlState Fd) (env : conn_env) (session : SessionConfig)
    (config_source : option str) (world : World) : json * option str * World :=
  match resolve (ct_secret_store state) (ev_view env) session with
  | Err (NotEntitled | Unavailable) => (error_value ERR_SECRET_UNAVAILABLE, None, release world)
  | Ok secrets =>
      let '(result, registry, metrics) :=
        create (ct_sessions state) (ev_create env) session secrets config_source
          (wd_registry world) (wd_metrics world) in
      let world := release (mkWorld registry metrics (wd_slots world)) in
      match result with
      | Ok created =>
          (success (created_value created),
           if si_persistent (cs_info created) then None else Some (si_id (cs_info created)), world)
      | Err AtCapacity => (error_value ERR_SESSION_LIMIT, None, world)
      | Err (RuntimeError _) => (error_value ERR_INTERNAL, None, world)
      | Err ShuttingDown => (error_value ERR_SHUTTING_DOWN, None, world)
      | Err Internal => (error_value ERR_INTERNAL, None, world)
      end
  end.

Definition reload_env_of_state (state : ControlState Fd) (env : conn_env) : reload_env :=
  mkReloadEnv (ev_finished env)
    ((λ store name, map_err (λ e, (reload_reason e, detail e)) (read_session_now store name))
       <$> ct_session_configs state)
    (λ session, match resolve (ct_secret_store state) (ev_view env) session with
                | Ok secrets => Some secrets
                | Err _ => None
                end)
    (ce_cwd (ev_create env)) (ev_alive env) (ev_bound env) (ev_reload_drained env).

(** The [match request] of [handle_connection]: the answer and the lease. The
    early returns of the source write their answer and hold no lease. *)
Definition dispatch (state : ControlState Fd) (env : conn_env) (request : ControlRequest) (world : World)
    : json * option str * World :=
  let registry := wd_registry world in
  let metrics := wd_metrics world in
  let slots := wd_slots world in
  match request with
  | Create _ session =>
      if negb (bool_decide (ct_create_mode state = Inline))
      then (error_value ERR_OPERATION_NOT_ALLOWED, None, world)
      else
        match try_acquire world with
        | None => (error_value ERR_BUSY, None, world)
        | Some world => create_session_response state env session None world
        end
  | CreateFromFile _ name require_ephemeral =>
      if negb (bool_decide (ct_create_mode state = FileOnly))
      then (error_value ERR_OPERATION_NOT_ALLOWED, None, world)
      else
        match try_acquire world with
        | None => (error_value ERR_BUSY, None, world)
        | Some world =>
            match ct_session_configs state with
            | None => (error_value ERR_INTERNAL, None, release world)
            | Some store =>
                match read_session_now store name with
                | Err error => (error_value_with_message (create_code error) (detail error), None, release world)
                | Ok session =>
                    if require_ephemeral && sc_persistent session
                    then (error_value ERR_EPHEMERAL_REQUIRED, None, release world)
                    else create_session_response state env session (Some name) world
                end
            end
        end
  | StopSession _ session_id =>
      let '(stopped, registry, metrics) := stop (ev_drained env) session_id registry metrics in
      (if stopped then success (json_object [(lit "stopped", JBool true)]) else error_value ERR_SESSION_NOT_FOUND,
       None, mkWorld registry metrics slots)
  | ReloadSession _ session_id =>
      let '(result, registry, metrics) :=
        reload (ct_sessions state) (reload_env_of_state state env) (ev_interfere env) session_id registry metrics in
      (match result with
       | Some result => success (reload_result_value result)
       | None => error_value ERR_SESSION_NOT_FOUND
       end, None, mkWorld registry metrics slots)
  | ReloadAll _ =>
      let '(results, registry, metrics) :=
        reload_all (ct_sessions state) (reload_env_of_state state env) (ev_interfere env) registry metrics in
      (success (json_object [(lit "results", JArray (reload_result_value <$> results))]), None,
       mkWorld registry metrics slots)
  | ListSessions _ =>
      let '(sessions, registry) := list_sessions (ev_finished env) registry in
      (success (json_object [(lit "sessions", JArray (session_info_value <$> sessions))]), None,
       mkWorld registry metrics slots)
  end.

(** [SessionManager::remove] on the world. *)
Definition remove_lease (env : conn_env) (id : str) (world : World) : World :=
  let '(registry, metrics) := remove (ev_drained env) id (wd_registry world) (wd_metrics world) in
  mkWorld registry metrics (wd_slots world).

(** The request the connection carries, or the error to answer; [None] is a
    connection closed before its first byte. *)
Definition decode_request {R} `{!AsyncRead R} (env : conn_env) (r : R)
    : result control_error (option ControlRequest) :=
  frame ← read_request_frame (ev_expired env) r;
  match frame with
  | None => Ok None
  | Some (body, _) =>
      if negb (from_utf8 body) then Err ERR_INVALID_REQUEST
      else
        match control_request_from_toml body with
        | Ok request => Ok (Some request)
        | Err UnsupportedProtocolVersion => Err ERR_UNSUPPORTED_VERSION
        | Err Invalid => Err ERR_INVALID_REQUEST
        end
  end.

(** [handle_connection]; [others] is what other tasks do until the lease ends. *)
Definition handle_connection {R} `{!AsyncRead R} (state : ControlState Fd) (env : conn_env)
    (others : World → World) (world : World) (r : R) (w : writer) : World * writer :=
  if negb (bool_decide (ev_peer_uid env = Some (ct_trusted_operator_uid state)))
  then (world, (write_error w ERR_UNAUTHORIZED).2)
  else
    match decode_request env r with
    | Err error => (world, (write_error w error).2)
    | Ok None => (world, w)
    | Ok (Some request) =>
        let '(response, lease_id, world) := dispatch state env request world in
        let '(written, w) := write_value w response in
        match lease_id with
        | None => (world, w)
        | Some id =>
            if negb written then (remove_lease env id world, w)
            else (remove_lease env id (others world), w)
        end
    end.
End handler.

(** ** Operations that register nothing *)

Definition no_new (r r' : SessionRegistry) : Prop :=
  ∀ id, sr_sessions r !! id = None → sr_sessions r' !! id = None.

#[export] Instance no_new_preorder : PreOrder no_new.
Proof. split; [by intros r id|]. intros a b c H1 H2 id Hid. auto. Qed.

Lemma no_new_put id s s' r : sr_sessions r !! id = Some s → no_new r (put_session id s' r).
Proof. intros Hs k Hk. cbn. apply lookup_insert_None. split; [done|]. intros ->. congruence. Qed.

Section reload_no_new.
Context `{!Crypto} (mgr : SessionManager) (renv : reload_env).
Context (interfere : nat → SessionRegistry → SessionRegistry) (Hint : ∀ k r, no_new r (interfere k r)).

Lemma reload_same_path_no_new id socket candidate secrets r :
  no_new r (reload_same_path renv interfere id socket candidate secrets r).2.
Proof using Hint.
  unfold reload_same_path. repeat case_match; cbn [snd]; try apply Hint.
  etrans; [apply (Hint 1)|]. by eapply no_new_put.
Qed.

Lemma reload_new_path_no_new id socket target candidate secrets r m :
  no_new r (reload_new_path renv interfere id socket target candidate secrets r m).1.2.
Proof using Hint.
  unfold reload_new_path. pose proof (Hint 1 r) as H1.
  destruct (negb _); [exact H1|]. destruct (sr_sessions (interfere 1 r) !! id) as [s|] eqn:Hs; [|exact H1].
  cbn [ms_runtime ms_listener_generation]. set (s2 := mkManagedSession _ _ _ _ _ _ _ _).
  set (r2 := put_session id s2 (interfere 1 r)).
  assert (no_new r r2) as H2 by (etrans; [exact H1|by eapply no_new_put]).
  destruct (ms_runtime s); [|exact H2]. destruct (checked_succ _); [|exact H2].
  destruct (negb _); [exact H2|]. destruct (start_with_options _ _); [|exact H2].
  assert (no_new r (interfere 2 r2)) as H3 by (etrans; [exact H2|apply Hint]).
  destruct (negb _); [exact H3|]. destruct (sr_sessions (interfere 2 r2) !! id) as [s3|] eqn:Hs3; [|exact H3].
  destruct (negb _); [exact H3|]. destruct (ms_runtime s3); [|exact H3].
  cbn [fst snd]. etrans; [exact H3|]. by eapply no_new_put.
Qed.

Lemma reload_locked_no_new id r m : no_new r (reload_locked mgr renv interfere id r m).1.2.
Proof using Hint.
  unfold reload_locked. destruct (sr_sessions r !! id) as [s|] eqn:Hs; [|done].
  set (s0 := drop_retired _ s). set (r0 := put_session id s0 r).
  assert (no_new r r0) as H0 by by eapply no_new_put.
  destruct (_ || _); [exact H0|]. destruct (ms_config_source s0); [|exact H0].
  destruct (re_read_session renv) as [read|]; [|exact H0]. destruct (read _) as [raw|[]]; [|exact H0].
  destruct (re_resolve _ _) as [sec|]; [|exact H0]. destruct (absolute_socket_path _ _); [|exact H0].
  assert (no_new r (interfere 0 r0)) as H1 by (etrans; [exact H0|apply Hint]).
  destruct (sr_sessions (interfere 0 r0) !! id); [|exact H1].
  destruct (_ && _ && _); [exact H1|]. destruct (str_eqb _ _).
  - pose proof (reload_same_path_no_new id (si_socket (ms_info s0))
      (with_persistent (sc_persistent (ms_configuration s0)) raw) sec (interfere 0 r0)) as H2.
    destruct (reload_same_path _ _ _ _ _ _ _) as [res r2]. cbn in *. by etrans.
  - etrans; [exact H1|apply reload_new_path_no_new].
Qed.

Lemma reload_no_new id r m : no_new r (reload mgr renv interfere id r m).1.2.
Proof using Hint.
  unfold reload. destruct (sr_sessions r !! id); [|done].
  pose proof (reload_locked_no_new id r m). destruct (reload_locked _ _ _ _ _ _) as [[??]?]. done.
Qed.

Lemma reload_each_no_new targets r m : no_new r (reload_each mgr renv interfere targets r m).1.2.
Proof using Hint.
  revert r m. induction targets as [|[id socket] targets IH]; intros r m; cbn; [done|].
  pose proof (reload_no_new id r m). destruct (reload _ _ _ _ _ _) as [[res r1] m1].
  specialize (IH r1 m1). destruct (reload_each _ _ _ _ _ _) as [[??]?]. cbn in *. by etrans.
Qed.
End reload_no_new.

Lemma finish_no_new drained id b r m :
  no_new r b.2 → no_new r (finish drained id b m).1.
Proof.
  intros Hb. destruct b as [[| |rts] r1]; cbn in *; try done.
  unfold finish_remove. cbn. intros k Hk. cbn. apply lookup_delete_None. auto.
Qed.

Lemma take_at_no_new id s r : sr_sessions r !! id = Some s → no_new r (take_at id s r).2.
Proof.
  intros Hs. unfold take_at. destruct (take_session s). cbn. intros k Hk. cbn.
  apply lookup_insert_None. split; [done|]. intros ->. congruence.
Qed.

Lemma stop_no_new drained id r m : no_new r (stop drained id r m).1.2.
Proof.
  unfold stop. pose proof (finish_no_new drained id (stop_begin id r) r m) as Hf.
  destruct (finish _ _ _ _) as [r1 m1]. cbn in *. apply Hf. unfold stop_begin.
  destruct (sr_sessions r !! id) as [s|] eqn:Hs; [|done]. case_bool_decide; [done|]. by apply take_at_no_new.
Qed.

Lemma remove_no_new drained id r m : no_new r (remove drained id r m).1.
Proof.
  apply finish_no_new. unfold remove_begin. destruct (sr_sessions r !! id) as [s|] eqn:Hs; [|done].
  destruct (_ && _); [done|]. by apply take_at_no_new.
Qed.

(** A session that [remove] leaves in the registry is one that some other task
    is already stopping. *)
Lemma remove_stops drained id r m s :
  sr_sessions (remove drained id r m).1 !! id = Some s → si_state (ms_info s) = Stopping ∧ ms_runtime s = None.
Proof.
  unfold remove, remove_begin. destruct (sr_sessions r !! id) as [s0|] eqn:Hs; cbn; [|congruence].
  destruct (bool_decide _ && _) eqn:Hb; cbn.
  - intros ?. simplify_eq. by bool_prop.
  - unfold finish_remove. cbn. by rewrite lookup_delete_eq.
Qed.

Lemma list_no_new finished r : no_new r (list_sessions finished r).2.
Proof. intros id Hid. cbn. by rewrite lookup_fmap, Hid. Qed.

(** ** What a connection leaves behind *)

#[local] Opaque error_value_with_message.

Section handler_proofs.
Context `{!Crypto} {Fd : Type} `{!ConfigFs Fd} `{!Toml} `{!ControlToml} `{!UrlHost} `{!JsonCodec}.
Context (detail : file_error → str) (state : ControlState Fd) (env : conn_env).

(** The session a create request asks for, and where it comes from. *)
Definition requested (request : ControlRequest) (session : SessionConfig) (source : option str) : Prop :=
  match request with
  | Create _ c => ct_create_mode state = Inline ∧ session = c ∧ source = None
  | CreateFromFile _ name require_ephemeral =>
      ct_create_mode state = FileOnly ∧ source = Some name ∧
      (∃ store, ct_session_configs state = Some store ∧ read_session store name = Some (Ok session)) ∧
      (require_ephemeral = true → sc_persistent session = false)
  | _ => False
  end.

(** [s] is the session [session], registered with its secrets. *)
Record registered (session : SessionConfig) (source : option str) (s : ManagedSession) : Prop := {
  rg_secrets : resolve (ct_secret_store state) (ev_view env) session = Ok (ms_secrets s);
  rg_configuration : ms_configuration s = session;
  rg_source : ms_config_source s = source;
  rg_persistent : si_persistent (ms_info s) = sc_persistent session;
}.

Lemma read_session_now_Ok store name session :
  read_session_now store name = Ok session ↔ read_session store name = Some (Ok session).
Proof using Type. unfold read_session_now. destruct (read_session store name); naive_solver. Qed.

(** Either nothing changed and the answer is an error, or exactly one session
    was registered; the lease is its identifier when it is ephemeral. *)
Definition create_outcome (session : SessionConfig) (source : option str) (world : World)
    (out : json * option str * World) : Prop :=
  let '(response, lease, world') := out in
  (wd_registry world' = wd_registry world ∧ wd_metrics world' = wd_metrics world ∧ lease = None ∧
     ∃ code message, response = error_value_with_message code message) ∨
  ∃ id s created, wd_registry world' = set_sessions (<[id := s]> (sr_sessions (wd_registry world))) (wd_registry world) ∧
    sr_sessions (wd_registry world) !! id = None ∧ registered session source s ∧
    lease = (if sc_persistent session then None else Some id) ∧ response = success (created_value created) ∧
    cs_info created = ms_info s ∧ si_id (ms_info s) = id.

Lemma create_session_response_outcome session source world :
  create_outcome session source world (create_session_response state env session source world) ∧
  wd_slots (create_session_response state env session source world).2 = S (wd_slots world).
Proof using Type.
  unfold create_session_response.
  destruct (resolve _ _ _) as [secrets|[]] eqn:Hres; [|split; [left; cbn; eauto 10|done]..].
  destruct (create _ _ _ _ _ _ _) as [[result registry] metrics] eqn:Hc.
  apply create_cases in Hc. destruct result as [created|e].
  - split; [|done]. right.
    destruct Hc as (seed & idb & ms & rt & _ & _ & _ & Hn & _ & _ & -> & -> & _ & _ & _ & _ & Hconf & Hsec & Hsrc &
      Hinfo & Hci & _).
    exists (session_id_of idb), ms, created. cbn. rewrite Hci, Hinfo. cbn. split_and!; try done.
    constructor; [by rewrite Hsec|done|done|by rewrite Hinfo].
  - destruct Hc as [-> ->].
    destruct e; (split; [left; cbn; eauto 10|done]).
Qed.

Definition is_create (request : ControlRequest) : bool :=
  match request with Create _ _ | CreateFromFile _ _ _ => true | _ => false end.

Context (Hint : ∀ k r, no_new r (ev_interfere env k r)).

(** Giving the permit back restores the world before it was taken. *)
Lemma try_acquire_release world world1 :
  try_acquire world = Some world1 →
  release world1 = world ∧ wd_registry world1 = wd_registry world ∧ wd_metrics world1 = wd_metrics world.
Proof using Type. unfold try_acquire. destruct world as [r m [|n]]; [done|]. by intros [= <-]. Qed.

Lemma dispatch_outcome request world :
  let out := dispatch detail state env request world in
  wd_slots out.2 = wd_slots world ∧
  ((∃ session source, requested request session source ∧ create_outcome session source world out) ∨
   (out.1.2 = None ∧ no_new (wd_registry world) (wd_registry out.2) ∧
    (is_create request = true → out.2 = world ∧ ∃ code message, out.1.1 = error_value_with_message code message))).
Proof using Hint.
  assert (∀ code message, wd_slots world = wd_slots world ∧
    ((∃ session source, requested request session source ∧ create_outcome session source world
        (error_value_with_message code message, None, world)) ∨
     @None str = None ∧ no_new (wd_registry world) (wd_registry world) ∧
     (is_create request = true → world = world ∧ ∃ c m,
        error_value_with_message code message = error_value_with_message c m))) as Hno.
  { intros. split; [done|]. right. split_and!; [done..|]. eauto. }
  destruct request as [v session|v name eph|v id|v id|v|v]; cbn zeta; cbn [dispatch].
  - case_bool_decide as Hmode; cbn [negb]; [|apply Hno].
    destruct (try_acquire world) as [world1|] eqn:Ha; [|apply Hno].
    destruct (try_acquire_release _ _ Ha) as (Hrel & Hr & Hm).
    destruct (create_session_response_outcome session None world1) as [Ho Hs]. split.
    + rewrite Hs, <-Hrel. done.
    + left. exists session, None. split; [done|]. unfold create_outcome in *.
      destruct (create_session_response _ _ _ _ _) as [[??]?]. by rewrite Hr, Hm in Ho.
  - case_bool_decide as Hmode; cbn [negb]; [|apply Hno].
    destruct (try_acquire world) as [world1|] eqn:Ha; [|apply Hno].
    destruct (try_acquire_release _ _ Ha) as (Hrel & Hr & Hm).
    destruct (ct_session_configs state) as [store|] eqn:Hst.
    2:{ rewrite Hrel. apply Hno. }
    destruct (read_session_now store name) as [session|e] eqn:Hread.
    2:{ rewrite Hrel. apply Hno. }
    destruct (eph && sc_persistent session) eqn:He.
    { rewrite Hrel. apply Hno. }
    destruct (create_session_response_outcome session (Some name) world1) as [Ho Hs]. split.
    + rewrite Hs, <-Hrel. done.
    + left. exists session, (Some name). split.
      * split_and!; [done|done| |by intros ->]. exists store. by rewrite <-read_session_now_Ok.
      * unfold create_outcome in *. destruct (create_session_response _ _ _ _ _) as [[??]?].
        by rewrite Hr, Hm in Ho.
  - pose proof (stop_no_new (ev_drained env) id (wd_registry world) (wd_metrics world)).
    destruct (stop _ _ _ _) as [[??]?]. split; [done|]. right. done.
  - pose proof (reload_no_new (ct_sessions state) (reload_env_of_state detail state env) _ Hint id
      (wd_registry world) (wd_metrics world)).
    destruct (reload _ _ _ _ _ _) as [[??]?]. split; [done|]. right. done.
  - pose proof (reload_each_no_new (ct_sessions state) (reload_env_of_state detail state env) _ Hint
      (reload_targets (wd_registry world)) (wd_registry world) (wd_metrics world)).
    unfold reload_all. destruct (reload_each _ _ _ _ _ _) as [[??]?]. split; [done|]. right. done.
  - pose proof (list_no_new (ev_finished env) (wd_registry world)).
    destruct (list_sessions _ _) as [??]. split; [done|]. right. done.
Qed.

Lemma remove_lease_facts id world :
  no_new (wd_registry world) (wd_registry (remove_lease env id world)) ∧
  wd_slots (remove_lease env id world) = wd_slots world ∧
  ∀ s, sr_sessions (wd_registry (remove_lease env id world)) !! id = Some s →
    si_state (ms_info s) = Stopping ∧ ms_runtime s = None.
Proof using Type.
  unfold remove_lease. pose proof (remove_no_new (ev_drained env) id (wd_registry world) (wd_metrics world)).
  pose proof (remove_stops (ev_drained env) id (wd_registry world) (wd_metrics world)).
  destruct (remove _ _ _ _) as [r m]. done.
Qed.

(** Every requested session is a well-formed policy. *)
Lemma requested_wf `{!UrlHostLaws} {R} `{!AsyncRead R} (r : R) request session source :
  decode_request env r = Ok (Some request) → requested request session source → session_wf session.
Proof using Type*.
  unfold decode_request. intros Hd Hreq. apply bind_Ok_inv in Hd as ([[body rest]|] & _ & Hd); [|done].
  destruct (negb _); [done|]. destruct (control_request_from_toml body) as [req|[]] eqn:Hc; simplify_eq.
  unfold control_request_from_toml in Hc. res_inv. case_match; res_inv; cbn in Hreq; try done.
  - destruct Hreq as (_ & -> & _). unfold session_config_from_toml in *. res_inv.
    by eapply validate_session_document_session_wf.
  - destruct Hreq as (_ & _ & (store & _ & Hread) & _).
    apply read_session_composes_aux in Hread as (imported & root & Hc); [|done]. by eapply composes_wf.
Qed.

Context (others : World → World) (Hothers : ∀ w, no_new (wd_registry w) (wd_registry (others w))).

(** C3: what a control connection leaves in the registry was asked for by the
    trusted user, in the creation mode the daemon is configured for, and is a
    session whose policy is well-formed and whose secrets the store granted;
    and it is persistent: an ephemeral session is gone when its connection
    ends, or already being drained by another task. Only file-backed creation
    records a source file, and [require_ephemeral] is honoured. *)
Theorem connection_leaves_authorized `{!UrlHostLaws} {R} `{!AsyncRead R} world (r : R) w world' w' id s :
  handle_connection detail state env others world r w = (world', w') →
  sr_sessions (wd_registry world) !! id = None →
  sr_sessions (wd_registry world') !! id = Some s →
  ev_peer_uid env = Some (ct_trusted_operator_uid state) ∧
  ∃ request session source, decode_request env r = Ok (Some request) ∧ requested request session source ∧
    session_wf session ∧
    (registered session source s ∧ sc_persistent session = true ∨
     sc_persistent session = false ∧ si_state (ms_info s) = Stopping ∧ ms_runtime s = None).
Proof using Type*.
  unfold handle_connection. intros Hh Hnone Hsome.
  case_bool_decide as Hpeer; cbn [negb] in Hh; [|simplify_eq]. split; [done|].
  destruct (decode_request env r) as [[request|]|e] eqn:Hdec; [|simplify_eq..].
  destruct (dispatch_outcome request world) as [_ Hout].
  destruct (dispatch _ _ _ _ _) as [[response lease] world1]. cbn [fst snd] in Hout.
  destruct (write_value w response) as [written w1].
  destruct Hout as [(session & source & Hreq & [(Hr & _ & -> & _)|
    (id1 & s1 & created & Hr & Hfresh & Hreg & Hlease & _ & _ & _)])|(-> & Hnn & _)].
  - simplify_eq. rewrite Hr in Hsome. congruence.
  - exists request, session, source. split_and!; [done|done|by eapply requested_wf|].
    assert (∀ k, sr_sessions (wd_registry world1) !! k = None ↔ sr_sessions (wd_registry world) !! k = None ∧ k ≠ id1)
      as Hnew. { intros k. rewrite Hr. cbn. rewrite lookup_insert_None. naive_solver. }
    destruct (sc_persistent session) eqn:Hp; subst lease.
    + simplify_eq. left. split; [|done]. rewrite Hr in Hsome. cbn in Hsome.
      apply lookup_insert_Some in Hsome as [[<- <-]|[_ ?]]; [done|congruence].
    + right. split; [done|].
      assert (∃ wz, no_new (wd_registry world1) (wd_registry wz) ∧ world' = remove_lease env id1 wz) as (wz & Hz & ->).
      { destruct written; cbn in Hh; simplify_eq; [exists (others world1)|exists world1]; split; auto. done. }
      destruct (remove_lease_facts id1 wz) as (Hrn & _ & Hst).
      destruct (decide (id = id1)) as [->|Hne]; [by apply Hst|].
      rewrite (Hrn id) in Hsome; [done|]. apply Hz, Hnew. done.
  - simplify_eq. rewrite Hnn in Hsome; done.
Qed.

(** Every connection is answered exactly once and costs nothing: it
    writes one frame (none when the peer closes without a request), gives back
    its provisioning permit on every path, and a refused create request leaves
    registry, counters and permits exactly as they were. *)
Theorem connection_conserves {R} `{!AsyncRead R} world (r : R) w world' w' :
  (∀ wd, wd_slots (others wd) = wd_slots wd) →
  handle_connection detail state env others world r w = (world', w') →
  wd_slots world' = wd_slots world ∧
  ((w' = w ∧ world' = world ∧ decode_request env r = Ok None) ∨
   ∃ v, w' = (write_value w v).2 ∧
     ((∃ code message, v = error_value_with_message code message) →
      (∀ request, decode_request env r = Ok (Some request) → is_create request = true) →
      wd_registry world' = wd_registry world ∧ wd_metrics world' = wd_metrics world)).
Proof using Hint.
  intros Hsl. unfold handle_connection. case_bool_decide; cbn [negb].
  2:{ intros [= <- <-]. split; [done|]. right. by exists (error_value ERR_UNAUTHORIZED). }
  destruct (decode_request env r) as [[request|]|e] eqn:Hdec.
  2:{ intros [= <- <-]. split; [done|]. by left. }
  2:{ intros [= <- <-]. split; [done|]. right. by exists (error_value e). }
  destruct (dispatch_outcome request world) as [Hs Hout].
  destruct (dispatch _ _ _ _ _) as [[response lease] world1]. cbn [fst snd] in *.
  destruct (write_value w response) as [written w1] eqn:Hw. intros Hh.
  assert (wd_slots world' = wd_slots world ∧ w' = w1) as [Hs' ->].
  { destruct lease as [id|]; [|by simplify_eq].
    destruct written; cbn [negb] in Hh; injection Hh as <- <-; (split; [|done]).
    - destruct (remove_lease_facts id (others world1)) as (_ & -> & _). by rewrite Hsl.
    - by destruct (remove_lease_facts id world1) as (_ & -> & _). }
  split; [done|]. right. exists response. rewrite Hw. split; [done|]. intros (code & message & ->) Hcr.
  destruct Hout as [(session & source & _ & [(Hr & Hm & -> & _)|(? & ? & ? & _ & _ & _ & _ & Hv & _)])
    |(-> & _ & Hno)].
  - by simplify_eq.
  - exfalso. apply (f_equal envelope_from_value) in Hv. rewrite envelope_error, envelope_success in Hv. done.
  - destruct (Hno (Hcr _ eq_refl)) as [-> _]. by simplify_eq.
Qed.
End handler_proofs.

(** ** A connection that creates a session *)

#[local] Instance example_control_toml : ControlToml := {|
  toml_version _ := Some 2%N;
  toml_request text :=
    if str_eqb text (lit "create") then Some (RawCreate 2 (TomlTable [(lit "doc", TomlString (lit "M"))]))
    else None;
|}.

Definition example_control_state : ControlState str :=
  mkControlState 1000%N Inline example_store (mkSessionManager (lit "/run/baffle") 2) None.

Definition example_conn_env : conn_env :=
  mkConnEnv (Some 1000%N) (λ _, false) example_view example_env (λ _, true) (λ _, false) (λ _, true) true true
    (λ _ r, r).

Definition example_request : connection := [Data (to_be_bytes 6 ++ lit "create")].

Definition example_connection : World * writer :=
  @handle_connection plain_crypto str (example_fs (example_files (lit "leaf"))) example_toml example_control_toml
    plain_host_parse example_codec (λ _, lit "detail") connection _ example_control_state example_conn_env (λ w, w)
    (mkWorld registry_new metrics_default 1) example_request (mkWriter [] [] false).

Definition example_id : str := session_id_of (replicate 16 "z").

Lemma connection_leaves_authorized_witness :
  ∃ s, sr_sessions (wd_registry example_connection.1) !! example_id = Some s ∧
    ∃ session, @session_wf plain_host_parse session.
Proof.
  destruct (sr_sessions (wd_registry example_connection.1) !! example_id) as [s|] eqn:Hs.
  2:{ exfalso. apply (f_equal (λ o : option ManagedSession, match o with Some _ => true | None => false end)) in Hs.
      vm_compute in Hs. discriminate Hs. }
  exists s. split; [reflexivity|].
  destruct (@connection_leaves_authorized plain_crypto str (example_fs (example_files (lit "leaf"))) example_toml
    example_control_toml plain_host_parse example_codec (λ _, lit "detail") example_control_state example_conn_env
    (λ _ r, reflexivity r) (λ w, w) (λ w, reflexivity (wd_registry w)) plain_host_laws connection _
    (mkWorld registry_new metrics_default 1) example_request (mkWriter [] [] false)
    example_connection.1 example_connection.2 example_id s) as (_ & request & session & source & _ & _ & Hwf & _).
  - unfold example_connection. destruct (handle_connection _ _ _ _ _ _ _). reflexivity.
  - vm_compute. reflexivity.
  - exact Hs.
  - exists session. exact Hwf.
Defined.

Lemma connection_conserves_witness : wd_slots example_connection.1 = 1.
Proof.
  apply (@connection_conserves plain_crypto str (example_fs (example_files (lit "leaf"))) example_toml
    example_control_toml plain_host_parse example_codec (λ _, lit "detail") example_control_state example_conn_env
    (λ _ r, reflexivity r) (λ w, w) connection _
    (mkWorld registry_new metrics_default 1) example_request (mkWriter [] [] false)
    example_connection.1 example_connection.2).
  - reflexivity.
  - unfold example_connection. destruct (handle_connection _ _ _ _ _ _ _). reflexivity.
Defined.
