(* ===== verification/ClientRequest.v ===== *)
(** The typed client (crates/baffle-client/src/lib.rs): the create request, the
    other operations, and the results it decodes.

    [raw_of_wire] is the document the server should read from a create request,
    with the skipped fields absent; WireForms shows that it does. *)

From S2P Require Import Prelude RustStr BTree PolicyTypes UrlPath DnsName Identifiers SessionDoc.
From S2P Require Import SessionPolicy Secrets Telemetry ProxyRuntime Registry Reload FileConfig.
From S2P Require Import AsyncIo ControlFrame ControlServer.
From stdpp Require Import options.
Local Open Scope char_scope.

(** ** The create request *)

Record NamedHostRule := mkNamedHostRule {
  nh_mode : RuleMode;
  nh_ports : list N;
  nh_paths : list str;
  nh_inject : list HeaderInjection;
}.
#[export] Instance NamedHostRule_eq_dec : EqDecision NamedHostRule.
Proof. solve_decision. Defined.

Record CredentialConfigWire := mkCredentialConfigWire {
  cw_default_mode : option CredentialMode;
  cw_overrides : gmap str CredentialMode;
}.
#[export] Instance CredentialConfigWire_eq_dec : EqDecision CredentialConfigWire.
Proof. solve_decision. Defined.

Record SessionConfigWire := mkSessionConfigWire {
  sw_version : Z;
  sw_persistent : bool;
  sw_socket_name : option str;
  sw_unmatched : UnmatchedHostPolicy;
  sw_credentials : option CredentialConfigWire;
  sw_named_rules : gmap str NamedHostRule;
}.
#[export] Instance SessionConfigWire_eq_dec : EqDecision SessionConfigWire.
Proof. solve_decision. Defined.

Record CreateRequest := mkCreateRequest {
  cq_version : N;
  cq_operation : str;
  cq_session : SessionConfigWire;
}.
#[export] Instance CreateRequest_eq_dec : EqDecision CreateRequest.
Proof. solve_decision. Defined.

Definition named_rule (rule : HostRule) : NamedHostRule :=
  mkNamedHostRule (hr_mode rule) (hr_ports rule) (hr_paths rule) (hr_inject rule).

(** The loop over [config.rules]. *)
Fixpoint collect_rules (rules : gmap str NamedHostRule) (l : list HostRule)
    : result ClientError (gmap str NamedHostRule) :=
  match l with
  | [] => Ok rules
  | rule :: rest =>
      match rules !! hr_host rule with
      | Some _ => Err (Protocol "session configuration contains duplicate host rules")
      | None => collect_rules (<[hr_host rule := named_rule rule]> rules) rest
      end
  end.

Definition create_request_new (config : SessionConfig) : result ClientError CreateRequest :=
  rules ← collect_rules ∅ (sc_rules config);
  Ok (mkCreateRequest PROTOCOL_VERSION (lit "create")
        (mkSessionConfigWire SESSION_CONFIG_VERSION (sc_persistent config) (sc_socket_name config)
           (sc_unmatched config)
           (if bool_decide (is_Some (sc_default_credential_mode config))
               || negb (bool_decide (sc_credential_modes config = ∅))
            then Some (mkCredentialConfigWire (sc_default_credential_mode config) (sc_credential_modes config))
            else None)
           rules)).

(** ** The document a create request carries *)

(** [skip_serializing_if = "Vec::is_empty"] against an optional field. *)
Definition skip_empty {A} (l : list A) : option (list A) := match l with [] => None | _ => Some l end.

Definition raw_injection (i : HeaderInjection) : RawHeaderInjection :=
  mkRawHeaderInjection (hi_header i) (hi_secret i) (hi_format i) (hi_username i).

Definition raw_named_rule (rule : NamedHostRule) : RawNamedRule :=
  mkRawNamedRule (Some (nh_mode rule)) (nh_ports rule) (skip_empty (nh_paths rule))
    (skip_empty (raw_injection <$> nh_inject rule)).

Definition raw_of_wire (wire : SessionConfigWire) : RawSessionConfig :=
  mkRawSessionConfig (Some (sw_version wire)) (sw_persistent wire) (sw_socket_name wire)
    (if is_deny (sw_unmatched wire) then None else Some (lit "tunnel"))
    (Some (RulesNamed (raw_named_rule <$> sw_named_rules wire)))
    ((λ c, mkRawCredentials (cw_default_mode c) (cw_overrides c)) <$> sw_credentials wire) [].

(** ** Responses *)

Record CreateResult := mkCreateResult {
  cr_id : str;
  cr_socket : str;
  cr_persistent : bool;
  cr_ca_certificate_pem : option str;
  cr_credential_seed_base64url : option str;
}.

Definition create_result_from_value (v : json) : option CreateResult :=
  id ← json_get (lit "id") v ≫= json_string;
  socket ← json_get (lit "socket") v ≫= json_string;
  persistent ← json_get (lit "persistent") v ≫= json_bool;
  pem ← json_optional json_string (json_get (lit "ca_certificate_pem") v);
  seed ← json_optional json_string (json_get (lit "credential_seed_base64url") v);
  Some (mkCreateResult id socket persistent pem seed).

Definition stop_result_from_value (v : json) : option bool := json_get (lit "stopped") v ≫= json_bool.

Definition json_u64 (v : json) : option N :=
  match v with JNumber n => if (n <? U64)%N then Some n else None | _ => None end.

Definition lifecycle_from_value (v : json) : option SessionLifecycle :=
  s ← json_string v;
  if str_eqb s (lit "running") then Some Running
  else if str_eqb s (lit "stopping") then Some Stopping else None.

(** Fields with [serde(default)] are [0] when absent. *)
Definition session_info_from_value (v : json) : option SessionInfo :=
  id ← json_get (lit "id") v ≫= json_string;
  socket ← json_get (lit "socket") v ≫= json_string;
  persistent ← json_get (lit "persistent") v ≫= json_bool;
  state ← json_get (lit "state") v ≫= lifecycle_from_value;
  generation ← match json_get (lit "generation") v with None => Some 0%N | Some n => json_u64 n end;
  draining ← match json_get (lit "draining_generations") v with None => Some 0%N | Some n => json_u64 n end;
  Some (mkSessionInfo id socket persistent state generation (N.to_nat draining)).

Definition list_result_from_value (v : json) : option (list SessionInfo) :=
  match json_get (lit "sessions") v with
  | Some (JArray l) => mapM session_info_from_value l
  | _ => None
  end.

Definition reload_status_from_value (v : json) : option ReloadStatus :=
  s ← json_string v;
  if str_eqb s (lit "reloaded") then Some Reloaded
  else if str_eqb s (lit "unchanged") then Some Unchanged
  else if str_eqb s (lit "failed") then Some Failed else None.

Definition reload_result_from_value (v : json) : option SessionReloadResult :=
  id ← json_get (lit "id") v ≫= json_string;
  status ← json_get (lit "status") v ≫= reload_status_from_value;
  socket ← json_get (lit "socket") v ≫= json_string;
  reason ← json_optional json_string (json_get (lit "reason") v);
  detail ← json_optional json_string (json_get (lit "detail") v);
  Some (mkReloadResult id status socket reason detail).

Definition reload_all_from_value (v : json) : option (list SessionReloadResult) :=
  match json_get (lit "results") v with
  | Some (JArray l) => mapM reload_result_from_value l
  | _ => None
  end.

Definition success_result {A} (parse : json → option A) (value : json) : result ClientError A :=
  ok_or (parse value) (Protocol "result does not match the operation response").

(** ** Operations

    [exchange_with] is [open_control] followed by [exchange] for one request;
    the connection is kept only by an ephemeral session. *)

Inductive Request :=
| RqCreate (request : CreateRequest)
| RqCreateFromFile (name : str) (require_ephemeral : bool)
| RqStop (session_id : str)
| RqReload (session_id : str)
| RqReloadAll
| RqList.

Record Session := mkSession {
  se_id : str;
  se_socket_path : str;
  se_persistent : bool;
  se_ca_certificate_pem : option str;
  se_credential_seed_base64url : option str;
  se_lease : bool;
}.

Definition session_of_result (created : CreateResult) : Session :=
  mkSession (cr_id created) (cr_socket created) (cr_persistent created) (cr_ca_certificate_pem created)
    (cr_credential_seed_base64url created) (negb (cr_persistent created)).

Section operations.
Context (exchange_with : Request → result ClientError json).

Definition client_create (config : SessionConfig) : result ClientError Session :=
  request ← create_request_new config;
  response ← exchange_with (RqCreate request);
  created ← success_result create_result_from_value response;
  Ok (session_of_result created).

Definition client_stop (session_id : str) : result ClientError unit :=
  response ← exchange_with (RqStop session_id);
  stopped ← success_result stop_result_from_value response;
  if negb (stopped : bool) then Err (Protocol "daemon did not confirm that the session stopped") else Ok ().

(** The result and the requests sent, in order. *)
Definition create_from_file_with_requirement (name : str) (require_ephemeral : bool)
    : result ClientError Session * list Request :=
  if negb (validate_session_config_name name) then (Err (InvalidPolicy (lit "session configuration name is invalid")), [])
  else
    let request := RqCreateFromFile name require_ephemeral in
    match (response ← exchange_with request; success_result create_result_from_value response) with
    | Err e => (Err e, [request])
    | Ok created =>
        if require_ephemeral && cr_persistent created then
          match client_stop (cr_id created) with
          | Ok () =>
              (Err (Protocol "daemon returned a persistent session despite require_ephemeral; the session was stopped"),
               [request; RqStop (cr_id created)])
          | Err _ =>
              (Err (Protocol "daemon returned a persistent session despite require_ephemeral; stopping the session failed"),
               [request; RqStop (cr_id created)])
          end
        else (Ok (session_of_result created), [request])
    end.

Definition client_reload (session_id : str) : result ClientError SessionReloadResult :=
  response ← exchange_with (RqReload session_id);
  success_result reload_result_from_value response.

Definition client_reload_all : result ClientError (list SessionReloadResult) :=
  response ← exchange_with RqReloadAll;
  success_result reload_all_from_value response.

Definition client_list : result ClientError (list SessionInfo) :=
  response ← exchange_with RqList;
  success_result list_result_from_value response.
End operations.

(** ** The create request round trip *)

Lemma collect_rules_Ok rules l :
  NoDup (hr_host <$> l) → (∀ r, r ∈ l → rules !! hr_host r = None) →
  collect_rules rules l = Ok (list_to_map ((λ r, (hr_host r, named_rule r)) <$> l) ∪ rules).
Proof.
  revert rules. induction l as [|r l IH]; intros rules Hnd Hd; cbn.
  { by rewrite (left_id_L ∅ (∪)). }
  apply NoDup_cons in Hnd as [Hr Hnd]. rewrite Hd by set_solver. rewrite IH; [|done|].
  - f_equal. rewrite <-insert_union_r, insert_union_l; [done|].
    apply not_elem_of_list_to_map_1. by rewrite <-list_fmap_compose.
  - intros x Hx. apply lookup_insert_None. split; [set_solver|].
    intros E. apply Hr. apply list_elem_of_fmap. by exists x.
Qed.

Lemma sorted_pairs {A V} (key : A → str) (val : A → V) l :
  StronglySorted (key_le key) l → StronglySorted (key_le fst) ((λ a, (key a, val a)) <$> l).
Proof.
  induction 1 as [|a l Hs IH Hf]; cbn; constructor; [done|].
  apply Forall_fmap. by eapply Forall_impl; [exact Hf|].
Qed.

(** Iterating over a map built from a list visits it in the order of the keys. *)
Lemma btree_iter_of_list {A V} (key : A → str) (val : A → V) l :
  NoDup (key <$> l) →
  btree_iter (list_to_map ((λ a, (key a, val a)) <$> l)) = (λ a, (key a, val a)) <$> sort_by_key key l.
Proof.
  intros Hnd. apply (sorted_key_unique fst).
  - apply btree_iter_sorted.
  - apply sorted_pairs, sort_by_key_sorted.
  - apply btree_iter_NoDup.
  - rewrite btree_iter_perm, map_to_list_to_map, sort_by_key_perm; [done|]. by rewrite <-list_fmap_compose.
Qed.

Lemma default_skip_empty {A} (l : list A) : default [] (skip_empty l) = l.
Proof. by destruct l. Qed.

Lemma injection_round_trip (l : list HeaderInjection) : injection_of_raw <$> (raw_injection <$> l) = l.
Proof. induction l as [|[] l IH]; [done|]. cbn. by rewrite IH. Qed.

Lemma validate_overrides_id modes l :
  NoDup l.*1 → (∀ n m, (n, m) ∈ l → validate_secret_id n = true ∧ modes !! n = None) →
  validate_overrides modes l = Ok (list_to_map l ∪ modes).
Proof.
  revert modes. induction l as [|[n m] l IH]; intros modes Hnd Hl; cbn.
  { by rewrite (left_id_L ∅ (∪)). }
  apply NoDup_cons in Hnd as [Hn Hnd]. destruct (Hl n m) as [-> Hnone]; [set_solver|]. cbn [negb].
  rewrite bool_decide_eq_false_2 by (by rewrite Hnone; intros [? [=]]). rewrite IH; [|done|].
  - f_equal. by rewrite <-insert_union_r, insert_union_l by by apply not_elem_of_list_to_map_1.
  - intros k v Hk. destruct (Hl k v) as [? ?]; [set_solver|]. split; [done|].
    apply lookup_insert_None. split; [done|]. intros ->. apply Hn. apply list_elem_of_fmap. by exists (k, v).
Qed.

Section round_trip.
Context `{!UrlHost} `{!UrlHostLaws}.

Lemma validate_named_rule_id hosts r :
  rule_wf r → hr_host r ∉ hosts →
  validate_named_rule hosts (hr_host r) (raw_named_rule (named_rule r)) = Ok (hr_host r, r).
Proof using Type*.
  intros Hwf Hn. unfold validate_named_rule. rewrite (rw_host _ Hwf). cbn [map_err mbind result_bind].
  rewrite bool_decide_eq_false_2 by done. cbn [raw_named_rule named_rule rn_mode rn_ports rn_paths rn_inject
    nh_mode nh_ports nh_paths nh_inject default].
  rewrite !default_skip_empty, injection_round_trip. destruct r as [host mode ports paths inject].
  cbn [hr_host hr_mode hr_ports hr_paths hr_inject] in *.
  rewrite validate_rule_id; [done|done|]. intros Ht. destruct (rw_tunnel _ Hwf Ht) as [Hp Hi].
  cbn in Hp, Hi. by subst.
Qed.

Lemma validate_named_rules_from_id hosts rules index l :
  Forall rule_wf l → NoDup (hr_host <$> l) → (∀ r, r ∈ l → hr_host r ∉ hosts) →
  validate_named_rules_from hosts rules index
    ((λ r, (hr_host r, raw_named_rule (named_rule r))) <$> l) = Ok (rules ++ l).
Proof using Type*.
  revert hosts rules index. induction l as [|r l IH]; intros hosts rules index Hf Hnd Hh; cbn.
  { by rewrite app_nil_r. }
  apply Forall_cons in Hf as [Hr Hf]. apply NoDup_cons in Hnd as [Hn Hnd].
  rewrite validate_named_rule_id by (done || (apply Hh; set_solver)). cbn [map_err mbind result_bind].
  rewrite IH; [by rewrite <-app_assoc|done|done|].
  intros x Hx. apply not_elem_of_cons. split; [|apply Hh; set_solver].
  intros E. apply Hn. apply list_elem_of_fmap. by exists x.
Qed.

(** The policy with its rules in the order of their hosts. *)
Definition host_ordered (sc : SessionConfig) : SessionConfig :=
  mkSessionConfig (sc_persistent sc) (sc_socket_name sc) (sc_unmatched sc) (sc_default_credential_mode sc)
    (sc_credential_modes sc) (sort_by_key hr_host (sc_rules sc)).

Lemma validate_named_rules_id l :
  Forall rule_wf l → NoDup (hr_host <$> l) →
  validate_named_rules (raw_named_rule <$> list_to_map ((λ r, (hr_host r, named_rule r)) <$> l)) =
  Ok (sort_by_key hr_host l).
Proof using Type*.
  intros Hf Hnd. unfold validate_named_rules. rewrite <-list_to_map_fmap, <-list_fmap_compose.
  change (prod_map id raw_named_rule ∘ (λ r, (hr_host r, named_rule r)))
    with (λ r, (hr_host r, raw_named_rule (named_rule r))).
  rewrite btree_iter_of_list by done. rewrite validate_named_rules_from_id; [done| | |set_solver].
  - by rewrite sort_by_key_perm.
  - by rewrite sort_by_key_perm.
Qed.

Lemma validate_credentials_id sc :
  session_wf sc →
  validate_credentials
    ((λ c, mkRawCredentials (cw_default_mode c) (cw_overrides c)) <$>
     (if bool_decide (is_Some (sc_default_credential_mode sc)) || negb (bool_decide (sc_credential_modes sc = ∅))
      then Some (mkCredentialConfigWire (sc_default_credential_mode sc) (sc_credential_modes sc)) else None)) =
  Ok (sc_default_credential_mode sc, sc_credential_modes sc).
Proof using Type.
  intros Hwf. destruct (_ || _) eqn:Hb; cbn.
  - rewrite validate_overrides_id.
    + cbn. rewrite (right_id_L ∅ (∪)). do 2 f_equal.
      rewrite (list_to_map_proper _ _ (btree_iter_NoDup _) (btree_iter_perm _)). apply list_to_map_to_list.
    + apply btree_iter_NoDup.
    + intros n m Hn%btree_iter_elem. split; [by eapply sw_modes|apply lookup_empty].
  - bool_prop. destruct (sc_default_credential_mode sc); [|by f_equal; f_equal].
    match goal with H : ¬ is_Some _ |- _ => destruct H; eauto end.
Qed.

Lemma validate_wire_id sc req :
  session_wf sc → create_request_new sc = Ok req →
  validate_session_document (raw_of_wire (cq_session req)) = Ok (host_ordered sc).
Proof using Type*.
  intros Hwf Hr. unfold create_request_new in Hr.
  rewrite collect_rules_Ok in Hr; [|apply Hwf|intros; apply lookup_empty].
  cbn [mbind result_bind] in Hr. rewrite (right_id_L ∅ (∪)) in Hr. injection Hr as <-.
  unfold validate_session_document, raw_of_wire. cbn [raw_version raw_unsupported_fields raw_unmatched raw_rules
    raw_socket_name raw_credentials raw_persistent cq_session sw_version sw_persistent sw_socket_name sw_unmatched
    sw_credentials sw_named_rules validate_version].
  change (SESSION_CONFIG_VERSION =? SESSION_CONFIG_VERSION)%Z with true. cbn [mbind result_bind].
  rewrite bool_decide_eq_true_2 by done. cbn [negb].
  assert (validate_unmatched (if is_deny (sc_unmatched sc) then None else Some (lit "tunnel")) = Ok (sc_unmatched sc))
    as -> by by destruct (sc_unmatched sc).
  cbn [mbind result_bind]. rewrite validate_named_rules_id by apply Hwf. cbn [mbind result_bind].
  assert (transpose ((λ n, map_err DocSocketName (validate_socket_name n)) <$> sc_socket_name sc) =
          Ok (sc_socket_name sc)) as ->.
  { destruct (sc_socket_name sc) as [n|] eqn:Hn; [|done]. cbn. by rewrite (sw_socket _ Hwf n Hn). }
  cbn [mbind result_bind]. by rewrite validate_credentials_id.
Qed.
End round_trip.

(** ** Results on the wire *)

(** The counters of a session fit their wire type. *)
Definition counters_fit (i : SessionInfo) : Prop :=
  (si_generation i < U64)%N ∧ (N.of_nat (si_draining_generations i) < U64)%N.

Lemma session_info_round_trip i :
  (si_generation i < U64)%N → (N.of_nat (si_draining_generations i) < U64)%N →
  session_info_from_value (session_info_value i) = Some i.
Proof.
  intros Hg Hd. destruct i as [id socket persistent state generation draining]. cbn in Hg, Hd.
  assert (session_info_from_value (session_info_value (mkSessionInfo id socket persistent state generation draining)) =
    (generation ← json_u64 (JNumber generation); draining ← json_u64 (JNumber (N.of_nat draining));
     Some (mkSessionInfo id socket persistent state generation (N.to_nat draining)))) as ->.
  { destruct state; reflexivity. }
  unfold json_u64. rewrite (proj2 (N.ltb_lt _ _) Hg). cbn [mbind option_bind].
  rewrite (proj2 (N.ltb_lt _ _) Hd). cbn [mbind option_bind]. by rewrite Nat2N.id.
Qed.

Lemma reload_result_round_trip r : reload_result_from_value (reload_result_value r) = Some r.
Proof. destruct r as [id status socket reason detail]; destruct status, reason, detail; reflexivity. Qed.

Lemma mapM_round_trip {A} (to : A → json) (from : json → option A) l :
  Forall (λ a, from (to a) = Some a) l → mapM from (to <$> l) = Some l.
Proof. induction 1 as [|a l Ha _ IH]; [done|]. cbn. by rewrite Ha, IH. Qed.

(** The client reads back exactly what the server reports: the created
    session with its certificate and seed, every session of a list, and every
    reload result with its reason and detail. *)
Lemma server_results_round_trip :
  (∀ created, create_result_from_value (created_value created) =
     Some (mkCreateResult (si_id (cs_info created)) (si_socket (cs_info created)) (si_persistent (cs_info created))
             (Some (cs_ca_certificate_pem created)) (Some (cs_credential_seed_base64url created)))) ∧
  (∀ sessions, Forall counters_fit sessions →
     list_result_from_value (json_object [(lit "sessions", JArray (session_info_value <$> sessions))]) =
     Some sessions) ∧
  (∀ results, reload_all_from_value (json_object [(lit "results", JArray (reload_result_value <$> results))]) =
     Some results) ∧
  (∀ result, reload_result_from_value (reload_result_value result) = Some result).
Proof.
  split_and!.
  - intros [[id socket persistent state g d] pem seed]. reflexivity.
  - intros sessions Hs. apply mapM_round_trip. eapply Forall_impl; [exact Hs|].
    intros i [??]. by apply session_info_round_trip.
  - intros results. apply mapM_round_trip, Forall_forall. intros r _. apply reload_result_round_trip.
  - apply reload_result_round_trip.
Qed.

Lemma server_results_round_trip_witness :
  list_result_from_value (json_object [(lit "sessions", JArray (session_info_value <$>
    [mkSessionInfo (lit "ab") (lit "/run/ab.sock") true Running 3 1]))]) =
  Some [mkSessionInfo (lit "ab") (lit "/run/ab.sock") true Running 3 1].
Proof.
  apply server_results_round_trip. constructor; [|constructor]. split; reflexivity.
Defined.

(** ** Leases *)

(** A session handle keeps its connection exactly when the session is
    ephemeral; asking for an ephemeral session never returns a persistent one,
    and if the daemon made one anyway the client asks it to stop that session;
    an invalid file name is refused without contacting the daemon. *)
Theorem create_from_file_lease exchange_with name require_ephemeral res sent :
  create_from_file_with_requirement exchange_with name require_ephemeral = (res, sent) →
  (∀ session, res = Ok session →
     se_lease session = negb (se_persistent session) ∧
     (require_ephemeral = true → se_lease session = true) ∧
     sent = [RqCreateFromFile name require_ephemeral]) ∧
  (∀ created,
     exchange_with (RqCreateFromFile name require_ephemeral) ≫= success_result create_result_from_value = Ok created →
     validate_session_config_name name = true → cr_persistent created = true → require_ephemeral = true →
     RqStop (cr_id created) ∈ sent) ∧
  (validate_session_config_name name = false → sent = []).
Proof.
  unfold create_from_file_with_requirement.
  destruct (validate_session_config_name name) eqn:Hv; cbn [negb].
  2:{ intros [= <- <-]. split_and!; [done|done|done]. }
  destruct (_ ≫= _) as [created|e]; [|intros [= <- <-]; split_and!; done].
  destruct (require_ephemeral && cr_persistent created) eqn:He.
  - bool_prop. intros Hr.
    assert (is_ok res = false ∧ sent = [RqCreateFromFile name require_ephemeral; RqStop (cr_id created)]) as [Hn ->].
    { by destruct (client_stop _ _) as [[]|]; simplify_eq. }
    split_and!; [by intros s ->| |done]. intros c [= <-] _ _ _. set_solver.
  - intros [= <- <-]. split_and!; [|intros c [= <-] _ Hp ->; by rewrite Hp in He|done].
    intros s [= <-]. split_and!; [done| |done]. intros ->. cbn in *. by rewrite He.
Qed.

Definition example_created : CreatedSession :=
  mkCreatedSession (mkSessionInfo (lit "ab") (lit "/run/ab.sock") true Running 1 0) (lit "PEM") (lit "seed").

(** A daemon that ignores [require_ephemeral]. *)
Definition example_daemon (request : Request) : result ClientError json :=
  match request with
  | RqStop _ => Ok (json_object [(lit "stopped", JBool true)])
  | _ => Ok (created_value example_created)
  end.

Lemma create_from_file_lease_witness :
  RqStop (lit "ab") ∈ (create_from_file_with_requirement example_daemon (lit "a.toml") true).2.
Proof.
  destruct (create_from_file_lease example_daemon (lit "a.toml") true
    (create_from_file_with_requirement example_daemon (lit "a.toml") true).1
    (create_from_file_with_requirement example_daemon (lit "a.toml") true).2) as (_ & Hstop & _).
  - destruct (create_from_file_with_requirement _ _ _). reflexivity.
  - apply (Hstop (mkCreateResult (lit "ab") (lit "/run/ab.sock") true (Some (lit "PEM")) (Some (lit "seed"))));
      reflexivity.
Defined.
