(* ===== verification/WireForms.v ===== *)
(** The documents on the control socket as TOML values: what the client's
    request structures serialise to (crates/baffle-client/src/lib.rs), and what
    the derived deserialisers of the server make of a value
    (src/config/protocol.rs, crates/baffle-client/src/policy.rs), with their
    field names, tags, defaults, skipped and unknown fields.

    A table lists its keys in the order of the crate's map. Only the text in
    between is an interface: [WireToml] says that a printed request parses to
    its value, that deserialising a text reads its value, and that a session
    found in a request can be printed again. *)

From S2P Require Import Prelude RustStr BTree PolicyTypes UrlPath DnsName Identifiers SessionDoc.
From S2P Require Import SessionPolicy Secrets Telemetry ProxyRuntime Registry Reload FileConfig.
From S2P Require Import AsyncIo ControlFrame ControlServer ClientRequest.
From stdpp Require Import options.
Local Open Scope char_scope.

(** ** Names of the variants *)

Definition credential_mode_text (mode : CredentialMode) : str :=
  match mode with Inject => lit "inject" | Substitute => lit "substitute" | Disabled => lit "disabled" end.
Definition rule_mode_text (mode : RuleMode) : str :=
  match mode with Tunnel => lit "tunnel" | Intercept => lit "intercept" end.
Definition format_text (format : InjectionFormat) : str :=
  match format with Raw => lit "raw" | Bearer => lit "bearer" | BasicPassword => lit "basic_password" end.
Definition unmatched_text (unmatched : UnmatchedHostPolicy) : str :=
  match unmatched with UDeny => lit "deny" | UTunnel => lit "tunnel" end.

(** ** Serialising *)

(** A field that [skip_serializing_if] may leave out. *)
Definition field {A} (key : string) (f : A → toml_value) (o : option A) : list (str * toml_value) :=
  match o with Some a => [(lit key, f a)] | None => [] end.

Definition string_array (l : list str) : toml_value := TomlArray (TomlString <$> l).

Definition map_table {A} (f : A → toml_value) (m : gmap str A) : toml_value :=
  TomlTable ((λ kv : str * A, (kv.1, f kv.2)) <$> btree_iter m).

Definition injection_table (i : HeaderInjection) : toml_value :=
  TomlTable ([(lit "format", TomlString (format_text (hi_format i))); (lit "header", TomlString (hi_header i));
              (lit "secret", TomlString (hi_secret i))]
             ++ field "username" TomlString (hi_username i)).

Definition named_rule_table (rule : NamedHostRule) : toml_value :=
  TomlTable (field "inject" (λ l, TomlArray (injection_table <$> l)) (skip_empty (nh_inject rule))
             ++ [(lit "mode", TomlString (rule_mode_text (nh_mode rule)))]
             ++ field "paths" string_array (skip_empty (nh_paths rule))
             ++ [(lit "ports", TomlArray ((λ p, TomlInteger (Z.of_N p)) <$> nh_ports rule))]).

(** [CredentialModeOverrideWire] *)
Definition override_table (mode : CredentialMode) : toml_value :=
  TomlTable [(lit "mode", TomlString (credential_mode_text mode))].

Definition credentials_table (c : CredentialConfigWire) : toml_value :=
  TomlTable (field "default_mode" (TomlString ∘ credential_mode_text) (cw_default_mode c)
             ++ field "overrides" (map_table override_table)
                  (if decide (cw_overrides c = ∅) then None else Some (cw_overrides c))).

Definition session_table (wire : SessionConfigWire) : toml_value :=
  TomlTable (field "credentials" credentials_table (sw_credentials wire)
             ++ [(lit "persistent", TomlBoolean (sw_persistent wire));
                 (lit "rules", map_table named_rule_table (sw_named_rules wire))]
             ++ field "socket_name" TomlString (sw_socket_name wire)
             ++ field "unmatched" (TomlString ∘ unmatched_text)
                  (if is_deny (sw_unmatched wire) then None else Some (sw_unmatched wire))
             ++ [(lit "version", TomlInteger (sw_version wire))]).

(** The structure each operation sends; [require_ephemeral] is skipped when
    false. *)
Definition request_table (request : Request) : toml_value :=
  let operation name := [(lit "operation", TomlString (lit name))] in
  let version := [(lit "version", TomlInteger (Z.of_N PROTOCOL_VERSION))] in
  match request with
  | RqCreate r =>
      TomlTable [(lit "operation", TomlString (cq_operation r)); (lit "session", session_table (cq_session r));
                 (lit "version", TomlInteger (Z.of_N (cq_version r)))]
  | RqCreateFromFile name require_ephemeral =>
      TomlTable ([(lit "name", TomlString name)] ++ operation "create_from_file"%string
                 ++ field "require_ephemeral" TomlBoolean (if require_ephemeral then Some true else None) ++ version)
  | RqStop session_id =>
      TomlTable (operation "stop"%string ++ [(lit "session_id", TomlString session_id)] ++ version)
  | RqReload session_id =>
      TomlTable (operation "reload"%string ++ [(lit "session_id", TomlString session_id)] ++ version)
  | RqReloadAll => TomlTable (operation "reload_all"%string ++ version)
  | RqList => TomlTable (operation "list"%string ++ version)
  end.

(** ** Deserialising *)

Definition as_string (v : toml_value) : option str := match v with TomlString s => Some s | _ => None end.
Definition as_bool (v : toml_value) : option bool := match v with TomlBoolean b => Some b | _ => None end.
Definition as_i64 (v : toml_value) : option Z := match v with TomlInteger z => Some z | _ => None end.
Definition as_u16 (v : toml_value) : option N :=
  match v with
  | TomlInteger z => if (0 <=? z)%Z && (z <? 65536)%Z then Some (Z.to_N z) else None
  | _ => None
  end.
Definition as_array {A} (parse : toml_value → option A) (v : toml_value) : option (list A) :=
  match v with TomlArray l => mapM parse l | _ => None end.
Definition as_table (v : toml_value) : option (list (str * toml_value)) :=
  match v with TomlTable fields => Some fields | _ => None end.
Definition as_map {A} (parse : toml_value → option A) (v : toml_value) : option (gmap str A) :=
  fields ← as_table v;
  list_to_map <$> mapM (λ kv : str * toml_value, pair kv.1 <$> parse kv.2) fields.

(** A variant by its name. *)
Definition as_variant {A} (variants : list (string * A)) (v : toml_value) : option A :=
  s ← as_string v;
  snd <$> find (λ kv : string * A, str_eqb s (lit kv.1)) variants.

Definition as_credential_mode : toml_value → option CredentialMode :=
  as_variant [("inject", Inject); ("substitute", Substitute); ("disabled", Disabled)]%string.
Definition as_rule_mode : toml_value → option RuleMode :=
  as_variant [("tunnel", Tunnel); ("intercept", Intercept)]%string.
Definition as_format : toml_value → option InjectionFormat :=
  as_variant [("raw", Raw); ("bearer", Bearer); ("basic_password", BasicPassword)]%string.

Definition required {A} (key : string) (parse : toml_value → option A) (fields : list (str * toml_value)) : option A :=
  table_get (lit key) fields ≫= parse.
(** [serde(default)]: the default when absent, an error when malformed. *)
Definition defaulted {A} (key : string) (parse : toml_value → option A) (d : A) (fields : list (str * toml_value))
    : option A :=
  match table_get (lit key) fields with None => Some d | Some v => parse v end.
Definition optional {A} (key : string) (parse : toml_value → option A) (fields : list (str * toml_value))
    : option (option A) :=
  defaulted key (λ v, Some <$> parse v) None fields.

Definition is_known (keys : list string) (key : str) : bool := existsb (λ k, str_eqb key (lit k)) keys.
(** [serde(deny_unknown_fields)] *)
Definition deny_unknown_fields (keys : list string) (fields : list (str * toml_value)) : option unit :=
  if forallb (λ kv : str * toml_value, is_known keys kv.1) fields then Some () else None.

Definition raw_injection_from_value (v : toml_value) : option RawHeaderInjection :=
  fields ← as_table v;
  _ ← deny_unknown_fields ["header"; "secret"; "format"; "username"]%string fields;
  header ← required "header" as_string fields;
  secret ← required "secret" as_string fields;
  format ← required "format" as_format fields;
  username ← optional "username" as_string fields;
  Some (mkRawHeaderInjection header secret format username).

Definition raw_named_rule_from_value (v : toml_value) : option RawNamedRule :=
  fields ← as_table v;
  _ ← deny_unknown_fields ["mode"; "ports"; "paths"; "inject"]%string fields;
  mode ← optional "mode" as_rule_mode fields;
  ports ← defaulted "ports" (as_array as_u16) default_ports fields;
  paths ← optional "paths" (as_array as_string) fields;
  inject ← optional "inject" (as_array raw_injection_from_value) fields;
  Some (mkRawNamedRule mode ports paths inject).

(** The untagged [RawRules]: any value is [Other] when it is not named rules. *)
Definition raw_rules_from_value (v : toml_value) : option RawRules :=
  Some (match as_map raw_named_rule_from_value v with Some rules => RulesNamed rules | None => RulesOther end).

(** [RawCredentialModeOverride] *)
Definition raw_override_from_value (v : toml_value) : option CredentialMode :=
  fields ← as_table v;
  _ ← deny_unknown_fields ["mode"]%string fields;
  required "mode" as_credential_mode fields.

Definition raw_credentials_from_value (v : toml_value) : option RawCredentials :=
  fields ← as_table v;
  _ ← deny_unknown_fields ["default_mode"; "overrides"]%string fields;
  default_mode ← optional "default_mode" as_credential_mode fields;
  overrides ← defaulted "overrides" (as_map raw_override_from_value) ∅ fields;
  Some (mkRawCredentials default_mode overrides).

(** The fields the flattened map collects are those with no field of their own. *)
Definition raw_session_from_value (v : toml_value) : option RawSessionConfig :=
  fields ← as_table v;
  version ← optional "version" as_i64 fields;
  persistent ← defaulted "persistent" as_bool false fields;
  socket_name ← optional "socket_name" as_string fields;
  unmatched ← optional "unmatched" as_string fields;
  rules ← optional "rules" raw_rules_from_value fields;
  credentials ← optional "credentials" raw_credentials_from_value fields;
  let known := ["version"; "persistent"; "socket_name"; "unmatched"; "rules"; "credentials"]%string in
  Some (mkRawSessionConfig version persistent socket_name unmatched rules credentials
          (filter (λ key, is_known known key = false) fields.*1)).

(** [RawProtocolVersion] *)
Definition version_from_value (v : toml_value) : option N := as_table v ≫= required "version" as_u16.

(** The internally tagged [RawControlRequest]. *)
Definition raw_request_from_value (v : toml_value) : option RawControlRequest :=
  fields ← as_table v;
  operation ← required "operation" as_string fields;
  version ← required "version" as_u16 fields;
  let only keys := deny_unknown_fields ("operation" :: "version" :: keys)%string fields in
  if str_eqb operation (lit "create") then
    _ ← only ["session"%string]; session ← table_get (lit "session") fields; Some (RawCreate version session)
  else if str_eqb operation (lit "stop") then
    _ ← only ["session_id"%string]; id ← required "session_id" as_string fields; Some (RawStop version id)
  else if str_eqb operation (lit "reload") then
    _ ← only ["session_id"%string]; id ← required "session_id" as_string fields; Some (RawReload version id)
  else if str_eqb operation (lit "reload_all") then _ ← only []; Some (RawReloadAll version)
  else if str_eqb operation (lit "create_from_file") then
    _ ← only ["name"; "require_ephemeral"]%string;
    name ← required "name" as_string fields;
    require_ephemeral ← defaulted "require_ephemeral" as_bool false fields;
    Some (RawCreateFromFile version name require_ephemeral)
  else if str_eqb operation (lit "list") then _ ← only []; Some (RawList version)
  else None.

(** ** The text in between *)

(** [toml::to_string] on a request. *)
Class RequestToml := request_to_string : Request → option str.

Class WireToml `{!Toml} `{!ControlToml} `{!RequestToml} : Prop := {
  request_text request text :
    request_to_string request = Some text → toml_from_str text = Some (request_table request);
  version_text text v n :
    toml_from_str text = Some v → version_from_value v = Some n → toml_version text = Some n;
  request_value_text text v raw :
    toml_from_str text = Some v → raw_request_from_value v = Some raw → toml_request text = Some raw;
  session_value_text text v raw :
    toml_from_str text = Some v → raw_session_from_value v = Some raw → toml_session text = Some raw;
  session_printed text version session :
    toml_request text = Some (RawCreate version session) → is_Some (as_table session) →
    ∃ session_text, toml_to_string session = Some session_text ∧ toml_from_str session_text = Some session;
}.

(** ** A request is read as it was meant *)

Lemma mapM_fmap_round_trip {A B C} (to : A → B) (from : B → option C) (g : A → C) l :
  Forall (λ a, from (to a) = Some (g a)) l → mapM from (to <$> l) = Some (g <$> l).
Proof. induction 1 as [|a l Ha _ IH]; [done|]. cbn. by rewrite Ha, IH. Qed.

Lemma as_map_table {A B} (to : A → toml_value) (from : toml_value → option B) (g : A → B) (m : gmap str A) :
  map_Forall (λ _ a, from (to a) = Some (g a)) m → as_map from (map_table to m) = Some (g <$> m).
Proof.
  intros Hm. unfold as_map, map_table. cbn [as_table mbind option_bind].
  rewrite (mapM_fmap_round_trip _ _ (λ kv : str * A, (kv.1, g kv.2))).
  - cbn [fmap option_fmap option_map]. f_equal. apply map_eq. intros k.
    rewrite <-(list_to_map_to_list m) at 2. rewrite <-list_to_map_fmap. f_equal. apply list_to_map_proper.
    + rewrite <-list_fmap_compose. apply btree_iter_NoDup.
    + by rewrite btree_iter_perm.
  - apply Forall_forall. intros [k a] Hk%btree_iter_elem. cbn. by rewrite (Hm k a Hk).
Qed.

Lemma as_credential_mode_text mode : as_credential_mode (TomlString (credential_mode_text mode)) = Some mode.
Proof. by destruct mode. Qed.

Lemma injection_read i : raw_injection_from_value (injection_table i) = Some (raw_injection i).
Proof. destruct i as [header secret [] [username|]]; reflexivity. Qed.

Lemma as_u16_read p : (p < 65536)%N → as_u16 (TomlInteger (Z.of_N p)) = Some p.
Proof.
  intros Hp. cbn [as_u16]. rewrite (proj2 (Z.leb_le _ _)), (proj2 (Z.ltb_lt _ _)) by lia. cbn. by rewrite N2Z.id.
Qed.

Lemma ports_read ports :
  Forall (λ p, (p < 65536)%N) ports → as_array as_u16 (TomlArray ((λ p, TomlInteger (Z.of_N p)) <$> ports)) = Some ports.
Proof.
  intros Hp. cbn [as_array]. rewrite (mapM_fmap_round_trip _ _ id), list_fmap_id; [done|].
  eapply Forall_impl; [exact Hp|]. apply as_u16_read.
Qed.

Lemma strings_read l : as_array as_string (string_array l) = Some l.
Proof. cbn [as_array string_array]. rewrite (mapM_fmap_round_trip _ _ id), list_fmap_id; [done|]. by apply Forall_forall. Qed.

Lemma injections_read l :
  as_array raw_injection_from_value (TomlArray (injection_table <$> l)) = Some (raw_injection <$> l).
Proof. apply mapM_fmap_round_trip, Forall_forall. intros i _. apply injection_read. Qed.

Lemma named_rule_read rule :
  Forall (λ p, (p < 65536)%N) (nh_ports rule) →
  raw_named_rule_from_value (named_rule_table rule) = Some (raw_named_rule rule).
Proof.
  intros Hp. destruct rule as [mode ports paths inject]. cbn [nh_ports] in Hp.
  assert (raw_named_rule_from_value (named_rule_table (mkNamedHostRule mode ports paths inject)) =
    (ports ← as_array as_u16 (TomlArray ((λ p, TomlInteger (Z.of_N p)) <$> ports));
     paths ← match skip_empty paths with None => Some None | Some l => Some <$> as_array as_string (string_array l) end;
     inject ← match skip_empty inject with
              | None => Some None
              | Some l => Some <$> as_array raw_injection_from_value (TomlArray (injection_table <$> l)) end;
     Some (mkRawNamedRule (Some mode) ports paths inject))) as ->.
  { destruct mode, paths, inject; reflexivity. }
  rewrite ports_read by done. unfold raw_named_rule. cbn [mbind option_bind nh_mode nh_ports nh_paths nh_inject].
  destruct paths as [|path paths], inject as [|i inject]; cbn [skip_empty mbind option_bind];
    rewrite ?strings_read, ?injections_read; done.
Qed.

Lemma overrides_read m : as_map raw_override_from_value (map_table override_table m) = Some m.
Proof.
  rewrite (as_map_table _ _ id), map_fmap_id; [done|]. intros k mode _. by destruct mode.
Qed.

Lemma credentials_read c :
  raw_credentials_from_value (credentials_table c) = Some (mkRawCredentials (cw_default_mode c) (cw_overrides c)).
Proof.
  destruct c as [mode overrides]. unfold credentials_table. cbn [cw_default_mode cw_overrides].
  assert (∀ o, raw_credentials_from_value (TomlTable (field "default_mode" (TomlString ∘ credential_mode_text) mode
      ++ field "overrides" (map_table override_table) o)) =
    (overrides ← match o with None => Some ∅ | Some m => as_map raw_override_from_value (map_table override_table m) end;
     Some (mkRawCredentials mode overrides))) as ->.
  { intros [m|]; destruct mode as [[]|]; reflexivity. }
  destruct (decide (overrides = ∅)) as [->|]; [done|]. by rewrite overrides_read.
Qed.

(** Every port of the rules is a [u16]. *)
Definition ports_u16 (wire : SessionConfigWire) : Prop :=
  map_Forall (λ _ rule, Forall (λ p, (p < 65536)%N) (nh_ports rule)) (sw_named_rules wire).

Lemma rules_read rules :
  map_Forall (λ _ rule, Forall (λ p, (p < 65536)%N) (nh_ports rule)) rules →
  raw_rules_from_value (map_table named_rule_table rules) = Some (RulesNamed (raw_named_rule <$> rules)).
Proof.
  intros Hp. unfold raw_rules_from_value. rewrite (as_map_table _ _ raw_named_rule); [done|].
  intros k rule Hk. apply named_rule_read. by eapply Hp.
Qed.

Lemma session_read wire :
  ports_u16 wire → raw_session_from_value (session_table wire) = Some (raw_of_wire wire).
Proof.
  intros Hp. destruct wire as [version persistent socket_name unmatched credentials rules]. unfold ports_u16 in Hp.
  cbn [sw_named_rules] in Hp.
  assert (raw_session_from_value (session_table (mkSessionConfigWire version persistent socket_name unmatched credentials rules)) =
    (rules ← raw_rules_from_value (map_table named_rule_table rules);
     credentials ← match credentials with None => Some None | Some c => Some <$> raw_credentials_from_value (credentials_table c) end;
     Some (mkRawSessionConfig (Some version) persistent socket_name
             (if is_deny unmatched then None else Some (lit "tunnel")) (Some rules) credentials []))) as ->.
  { destruct socket_name, unmatched, credentials; reflexivity. }
  rewrite rules_read by done. unfold raw_of_wire.
  cbn [mbind option_bind sw_version sw_persistent sw_socket_name sw_unmatched sw_credentials sw_named_rules].
  destruct credentials as [c|]; cbn [fmap option_fmap option_map]; [by rewrite credentials_read|done].
Qed.

Section understood.
Context `{!UrlHost} `{!UrlHostLaws} `{!Toml} `{!ControlToml} `{!RequestToml} `{!WireToml}.

Lemma request_version_read request v :
  version_from_value (request_table request) = Some v →
  ∀ text, request_to_string request = Some text → toml_version text = Some v.
Proof using Type*. intros Hv text Ht. eapply version_text; [by apply request_text|done]. Qed.

(** A request whose version and body are read. *)
Lemma control_request_of_value request raw text :
  version_from_value (request_table request) = Some PROTOCOL_VERSION →
  raw_request_from_value (request_table request) = Some raw →
  request_to_string request = Some text →
  toml_version text = Some PROTOCOL_VERSION ∧ toml_request text = Some raw.
Proof using Type*.
  intros Hv Hr Ht. split; [by eapply request_version_read|]. eapply request_value_text; [by apply request_text|done].
Qed.

(** What the server should make of a request: the session of a create in the
    order of its hosts; identifiers it does not accept are refused. *)
Definition meant (request : Request) : result ConfigErrorKind ControlRequest :=
  match request with
  | RqCreate r =>
      Create PROTOCOL_VERSION <$> map_err (λ _, Invalid) (validate_session_document (raw_of_wire (cq_session r)))
  | RqCreateFromFile name require_ephemeral =>
      if validate_session_config_name name then Ok (CreateFromFile PROTOCOL_VERSION name require_ephemeral)
      else Err Invalid
  | RqStop id => if validate_session_id id then Ok (StopSession PROTOCOL_VERSION id) else Err Invalid
  | RqReload id => if validate_session_id id then Ok (ReloadSession PROTOCOL_VERSION id) else Err Invalid
  | RqReloadAll => Ok (ReloadAll PROTOCOL_VERSION)
  | RqList => Ok (ListSessions PROTOCOL_VERSION)
  end.

(** The requests the client builds. *)
Definition client_built (request : Request) : Prop :=
  match request with
  | RqCreate r => cq_version r = PROTOCOL_VERSION ∧ cq_operation r = lit "create" ∧ ports_u16 (cq_session r)
  | _ => True
  end.

Lemma request_meant request text :
  client_built request → request_to_string request = Some text → control_request_from_toml text = meant request.
Proof using Type*.
  intros Hb Ht. unfold control_request_from_toml.
  assert (∃ raw, version_from_value (request_table request) = Some PROTOCOL_VERSION ∧
    raw_request_from_value (request_table request) = Some raw ∧
    raw = match request with
          | RqCreate r => RawCreate PROTOCOL_VERSION (session_table (cq_session r))
          | RqCreateFromFile name e => RawCreateFromFile PROTOCOL_VERSION name e
          | RqStop id => RawStop PROTOCOL_VERSION id
          | RqReload id => RawReload PROTOCOL_VERSION id
          | RqReloadAll => RawReloadAll PROTOCOL_VERSION
          | RqList => RawList PROTOCOL_VERSION
          end) as (raw & Hv & Hr & ->).
  { eexists. split_and!; [| |reflexivity].
    - destruct request as [[version op session]|name []|id|id| |]; try reflexivity. destruct Hb as (Hv & Ho & _). cbn in Hv, Ho. by subst.
    - destruct request as [[version op session]|name []|id|id| |]; try reflexivity. destruct Hb as (Hv & Ho & _). cbn in Hv, Ho. by subst. }
  destruct (control_request_of_value _ _ _ Hv Hr Ht) as [-> Hreq]. cbn [ok_or mbind result_bind].
  change (validate_protocol_version PROTOCOL_VERSION) with (Ok () : result ConfigErrorKind ()).
  cbn [mbind result_bind]. rewrite Hreq. cbn [ok_or mbind result_bind].
  destruct request as [r|name e|id|id| |]; try done. destruct Hb as (_ & _ & Hp).
  destruct (session_printed _ _ _ Hreq) as (session_text & Hs & Hparse); [by eexists|].
  rewrite Hs. cbn [ok_or mbind result_bind]. unfold session_config_from_toml.
  rewrite (session_value_text _ _ _ Hparse (session_read _ Hp)). cbn [ok_or mbind result_bind meant].
  by destruct (validate_session_document _).
Qed.

Lemma create_request_built sc :
  session_wf sc → Forall (λ r, Forall (λ p, (p < 65536)%N) (hr_ports r)) (sc_rules sc) →
  ∃ req, create_request_new sc = Ok req ∧ client_built (RqCreate req).
Proof using Type.
  intros Hwf Hp. unfold create_request_new. rewrite collect_rules_Ok; [|apply Hwf|intros; apply lookup_empty].
  cbn [mbind result_bind]. eexists. split; [done|]. split_and!; [done|done|].
  unfold ports_u16. cbn [cq_session sw_named_rules]. rewrite (right_id_L ∅ (∪)).
  intros k rule Hk%elem_of_list_to_map_2. apply list_elem_of_fmap in Hk as (r & [= -> ->] & Hr).
  by apply (proj1 (Forall_forall _ _) Hp r).
Qed.

(** C22: the server understands every request as the client meant it: every
    well-formed policy can be sent, and what the server decodes from the text
    is that policy, with its rules in host order and every field, default and
    mode preserved; the name of a session file and its requirement, the
    identifier of a session to stop or reload, and the requests without
    arguments arrive unchanged; an identifier the server does not accept is
    refused as invalid. *)
Theorem requests_understood :
  (∀ sc, session_wf sc → Forall (λ r, Forall (λ p, (p < 65536)%N) (hr_ports r)) (sc_rules sc) →
     ∃ req, create_request_new sc = Ok req ∧
       ∀ text, request_to_string (RqCreate req) = Some text →
         control_request_from_toml text = Ok (Create PROTOCOL_VERSION (host_ordered sc))) ∧
  (∀ name require_ephemeral text, request_to_string (RqCreateFromFile name require_ephemeral) = Some text →
     control_request_from_toml text =
     if validate_session_config_name name then Ok (CreateFromFile PROTOCOL_VERSION name require_ephemeral)
     else Err Invalid) ∧
  (∀ id text, request_to_string (RqStop id) = Some text →
     control_request_from_toml text =
     if validate_session_id id then Ok (StopSession PROTOCOL_VERSION id) else Err Invalid) ∧
  (∀ id text, request_to_string (RqReload id) = Some text →
     control_request_from_toml text =
     if validate_session_id id then Ok (ReloadSession PROTOCOL_VERSION id) else Err Invalid) ∧
  (∀ text, request_to_string RqReloadAll = Some text →
     control_request_from_toml text = Ok (ReloadAll PROTOCOL_VERSION)) ∧
  (∀ text, request_to_string RqList = Some text →
     control_request_from_toml text = Ok (ListSessions PROTOCOL_VERSION)).
Proof using Type*.
  split; [|split_and!; intros; (etrans; [eapply request_meant; [|eassumption]; exact I|done])].
  intros sc Hwf Hp. destruct (create_request_built sc Hwf Hp) as (req & Hreq & Hb). exists req. split; [done|].
  intros text Ht. rewrite (request_meant _ _ Hb Ht). cbn [meant]. by rewrite (validate_wire_id sc req Hwf Hreq).
Qed.
End understood.

(** ** Witness: a policy and a stop request sent and decoded *)

Definition example_create : CreateRequest :=
  match create_request_new example_session with
  | Ok req => req
  | Err _ => mkCreateRequest 0 [] (mkSessionConfigWire 0 false None UDeny None ∅)
  end.

#[local] Instance wire_request_toml : RequestToml := λ request,
  match request with
  | RqCreate req => if bool_decide (req = example_create) then Some (lit "create") else None
  | RqStop id => if str_eqb id (lit "ab") then Some (lit "stop") else None
  | _ => None
  end.

Definition wire_value (text : str) : option toml_value :=
  if str_eqb text (lit "create") then Some (request_table (RqCreate example_create))
  else if str_eqb text (lit "stop") then Some (request_table (RqStop (lit "ab")))
  else if str_eqb text (lit "session") then Some (session_table (cq_session example_create))
  else None.

#[local] Instance wire_toml : Toml := {|
  toml_from_str := wire_value;
  toml_to_string _ := Some (lit "session");
  toml_session text := wire_value text ≫= raw_session_from_value;
|}.

#[local] Instance wire_control_toml : ControlToml := {|
  toml_version text := wire_value text ≫= version_from_value;
  toml_request text := wire_value text ≫= raw_request_from_value;
|}.

#[local] Instance wire_laws : @WireToml wire_toml wire_control_toml wire_request_toml.
Proof.
  split.
  - intros [req| |id| | |] text; try done; unfold request_to_string, wire_request_toml.
    + case_bool_decide as E; [|done]. intros [= <-]. by subst.
    + destruct (str_eqb id (lit "ab")) eqn:E; [|done]. apply str_eqb_true in E as ->. by intros [= <-].
  - intros text v n Hv Hn. cbn in *. by rewrite Hv.
  - intros text v raw Hv Hr. cbn in *. by rewrite Hv.
  - intros text v raw Hv Hr. cbn in *. by rewrite Hv.
  - intros text version session Hr _. exists (lit "session"). split; [done|]. cbn in Hr. unfold wire_value in Hr.
    destruct (str_eqb text (lit "create")); [by injection Hr as <- <-|].
    destruct (str_eqb text (lit "stop")); [done|]. destruct (str_eqb text (lit "session")); done.
Qed.

Lemma example_ports : Forall (λ r, Forall (λ p, (p < 65536)%N) (hr_ports r)) (sc_rules example_session).
Proof.
  apply Forall_forall. intros r Hr. apply Forall_forall. intros p Hp. apply N.ltb_lt.
  assert (Hb : forallb (λ r, forallb (λ p, p <? 65536)%N (hr_ports r)) (sc_rules example_session) = true) by reflexivity.
  apply (proj1 (forallb_elem _ _) (proj1 (forallb_elem _ _) Hb r Hr) p Hp).
Qed.

Lemma requests_understood_witness :
  @control_request_from_toml wire_toml wire_control_toml plain_host_parse (lit "stop") =
    Ok (StopSession PROTOCOL_VERSION (lit "ab")) ∧
  @control_request_from_toml wire_toml wire_control_toml plain_host_parse (lit "create") =
    Ok (Create PROTOCOL_VERSION (host_ordered example_session)).
Proof.
  destruct (@requests_understood plain_host_parse plain_host_laws wire_toml wire_control_toml wire_request_toml
    wire_laws) as (Hc & _ & Hs & _).
  split; [exact (Hs (lit "ab") (lit "stop") eq_refl)|].
  destruct (Hc example_session example_session_wf example_ports) as (req & Hreq & Htext).
  apply Htext. assert (req = example_create) as -> by (unfold example_create; by rewrite Hreq).
  unfold request_to_string, wire_request_toml. by rewrite bool_decide_eq_true_2.
Defined.
