(* ===== verification/EndToEnd.v ===== *)
(** The typed client against the server: one operation from the client's call
    to its result, through both ends of the connection.

    The client is that of ClientRequest and [exchange], its text that of
    WireForms, the server's side is [handle_connection]. A conversation is one
    connection on which nothing is lost: each end reads, in any fragmentation,
    what the other one wrote. *)

From S2P Require Import Prelude RustStr BTree PolicyTypes UrlPath DnsName Identifiers SessionDoc.
From S2P Require Import SessionPolicy Secrets Telemetry ProxyRuntime Registry Reload FileConfig.
From S2P Require Import AsyncIo ControlFrame ControlServer ClientRequest WireForms.
From stdpp Require Import options.
Local Open Scope char_scope.

(** What the client makes of a complete answer. *)
Definition client_view (response : json) : result ClientError json :=
  envelope ← ok_or (envelope_from_value response) (Protocol "response is not valid JSON");
  if en_ok envelope then ok_or (en_result envelope) (Protocol "successful response has no result")
  else error ← ok_or (en_error envelope) (Protocol "failed response has no error"); Err (map_remote_error error).

Lemma client_view_success x : x ≠ JNull → client_view (success x) = Ok x.
Proof. intros Hx. unfold client_view. rewrite envelope_success. by destruct x. Qed.

Lemma client_view_error code message :
  client_view (error_value_with_message code message) = Err (map_remote_error (mkRemoteError code message)).
Proof. unfold client_view. by rewrite envelope_error. Qed.

(** Every answer of the server has one of two forms. *)
Definition proper_answer (response : json) : Prop :=
  (∃ x, response = success x ∧ x ≠ JNull) ∨ ∃ code message, response = error_value_with_message code message.

Lemma proper_error e : proper_answer (error_value e).
Proof. right. destruct e as [code message]. by exists code, message. Qed.
Lemma proper_success fields : proper_answer (success (json_object fields)).
Proof. left. by eexists. Qed.
#[export] Hint Resolve proper_error : baffle.
#[export] Hint Extern 1 (proper_answer (success _)) => apply proper_success : baffle.
Ltac proper := cbn [fst snd]; solve [auto with baffle].

Section conversation.
Context `{!Crypto} {Fd : Type} `{!ConfigFs Fd} `{!Toml} `{!ControlToml} `{!RequestToml} `{!WireToml}.
Context `{!UrlHost} `{!UrlHostLaws} `{!JsonCodec} `{!JsonCodecLaws} {R : Type} `{!AsyncRead R} `{!AsyncReadSpec R}.
Context (detail : file_error → str) (state : ControlState Fd) (env : conn_env) (others : World → World).

Lemma create_session_response_proper session source world :
  proper_answer (create_session_response state env session source world).1.1.
Proof using Type.
  unfold create_session_response. destruct (resolve _ _ _) as [secrets|[]]; [|proper..].
  destruct (create _ _ _ _ _ _ _) as [[[created|[]] registry] metrics]; proper.
Qed.

Lemma dispatch_proper request world : proper_answer (dispatch detail state env request world).1.1.
Proof using Type.
  destruct request as [v session|v name eph|v id|v id|v|v]; cbn [dispatch].
  - case_bool_decide; cbn [negb]; [|proper]. destruct (try_acquire world); [|proper].
    apply create_session_response_proper.
  - case_bool_decide; cbn [negb]; [|proper]. destruct (try_acquire world); [|proper].
    destruct (ct_session_configs state); [|proper]. destruct (read_session_now _ _) as [session|e].
    + destruct (eph && _); [proper|]. apply create_session_response_proper.
    + right. by eexists _, _.
  - destruct (stop _ _ _ _) as [[[] ?] ?]; proper.
  - destruct (reload _ _ _ _ _ _) as [[[] ?] ?]; proper.
  - destruct (reload_all _ _ _ _ _) as [[? ?] ?]; proper.
  - destruct (list_sessions _ _) as [? ?]; proper.
Qed.

(** One connection: the client sends [request] and gets [answer]; the server
    reads what it sent and answers it. *)
Definition conversation (request : Request) (world world' : World) (answer : result ClientError json) : Prop :=
  ∃ text wc wc' sent (rs : R) ws ws' received (rc : R) r,
    request_to_string request = Some text ∧ from_utf8 text = true ∧
    (send_request (Some text) wc).1 = Ok () ∧ exchange (Some text) wc rc = (r, wc') ∧ answer = fst <$> r ∧
    w_written wc' = w_written wc ++ sent ∧ delivers rs sent ∧
    reliable ws ∧ handle_connection detail state env others world rs ws = (world', ws') ∧
    w_written ws' = w_written ws ++ received ∧ received ≠ [] ∧ delivers rc received ∧
    (N.of_nat (length received) ≤ MAX_RESPONSE_BYTES)%N.

Lemma write_value_reliable w v :
  reliable w → (write_value w v).1 = true ∨ w_written (write_value w v).2 = w_written w.
Proof using Type.
  intros Hw. unfold write_value, write_frame. destruct (json_to_vec v) as [bytes|]; [|by right].
  destruct (u32_try_from _) as [n|]; [|by right]. left.
  destruct (write_all_reliable (to_be_bytes n) w Hw) as (plan & -> & Hp).
  by destruct (write_all_reliable bytes (mkWriter plan (w_written w ++ to_be_bytes n) (w_shutdown w)) Hp) as (? & -> & _).
Qed.

(** What arrives of an answer that was written. *)
Lemma answer_received ws v received (rc : R) :
  reliable ws → proper_answer v → w_written (write_value ws v).2 = w_written ws ++ received → received ≠ [] →
  delivers rc received → (N.of_nat (length received) ≤ MAX_RESPONSE_BYTES)%N →
  fst <$> receive_response rc = client_view v ∧ (write_value ws v).1 = true.
Proof using All.
  intros Hrel Hv Hw Hne Hd Hl. destruct (write_value_reliable ws v Hrel) as [Hok|Hno].
  2:{ rewrite Hno in Hw. destruct Hne. apply (app_inv_head (w_written ws)). by rewrite app_nil_r. }
  split; [|done]. destruct (write_value ws v) as [? ws'] eqn:Hwv. cbn [fst snd] in *. subst.
  destruct (proj2 (frames_round_trip ws) v ws' Hwv) as (sent & Hs & Hrecv). rewrite Hs in Hw.
  apply app_inv_head in Hw as ->. rewrite <-(app_nil_r received) in Hd. destruct (Hrecv rc [] Hd Hl) as [Hsucc Herr].
  destruct Hv as [(x & -> & Hx)|(code & message & ->)].
  - rewrite (client_view_success x Hx). by destruct (Hsucc x eq_refl Hx) as (? & -> & _).
  - rewrite client_view_error. by rewrite (Herr code message eq_refl).
Qed.

Lemma meant_err request e : meant request = Err e → e = Invalid.
Proof using Type.
  destruct request as [r|name eph|id|id| |]; cbn [meant]; try done; [|by destruct (validate_session_config_name _); intros [=]
    |by destruct (validate_session_id _); intros [=]..].
  destruct (validate_session_document _); by intros [=].
Qed.

Context (Hpeer : ev_peer_uid env = Some (ct_trusted_operator_uid state)) (Hexpired : ev_expired env = (λ _, false)).

(** The server's answer to a request of the client, and what it leaves. *)
Lemma conversation_result request world world' answer :
  client_built request → conversation request world world' answer →
  match meant request with
  | Err _ => answer = Err (InvalidPolicy (lit "request is invalid")) ∧ world' = world
  | Ok req =>
      let out := dispatch detail state env req world in
      answer = client_view out.1.1 ∧
      world' = match out.1.2 with None => out.2 | Some id => remove_lease env id (others out.2) end
  end.
Proof using All.
  intros Hb (text & wc & wc' & sent & rs & ws & ws' & received & rc & r & Ht & Hutf & Hs & Hx & -> & Hsent & Hd & Hrel
    & Hh & Hrec & Hne & Hdc & Hl).
  unfold exchange in Hx. destruct (send_request (Some text) wc) as [[[]|] wc1] eqn:Hsr; [|done]. injection Hx as <- ->.
  destruct (proj1 (frames_round_trip (R:=R) wc) text wc' Hsr) as (sent' & Hs' & Hread). rewrite Hs' in Hsent.
  apply app_inv_head in Hsent as ->. rewrite <-(app_nil_r sent) in Hd. destruct (Hread rs [] Hd) as (r' & Hr & _).
  unfold handle_connection in Hh. rewrite bool_decide_eq_true_2 in Hh by done. cbn [negb] in Hh.
  unfold decode_request in Hh. rewrite Hexpired, Hr in Hh. cbn [mbind result_bind] in Hh.
  rewrite Hutf, (request_meant _ _ Hb Ht) in Hh. cbn [negb] in Hh.
  destruct (meant request) as [req|e] eqn:Hm.
  - cbv zeta. destruct (dispatch detail state env req world) as [[response lease] world1] eqn:Hdis.
    pose proof (dispatch_proper req world) as Hp. rewrite Hdis in Hp. cbn [fst snd] in *.
    destruct (write_value ws response) as [written ws1] eqn:Hw.
    assert (ws1 = ws') as ->. { by destruct lease, written; injection Hh as _ ->. }
    destruct (answer_received ws response received rc) as [Ha Hok]; rewrite ?Hw; try done.
    rewrite Hw in Hok. cbn in Hok. subst written. split; [done|]. by destruct lease; injection Hh as <-.
  - apply meant_err in Hm as ->. injection Hh as <- <-. split; [|done].
    by destruct (answer_received ws (error_value ERR_INVALID_REQUEST) received rc) as [-> _];
      [done|apply proper_error|..].
Qed.

(** ** Operations *)

Definition not_found : ClientError := SessionNotFound (lit "session was not found").
Definition invalid_request : ClientError := InvalidPolicy (lit "request is invalid").

Lemma list_end_to_end world world' answer :
  conversation RqList world world' answer →
  let out := list_sessions (ev_finished env) (wd_registry world) in
  Forall counters_fit out.1 →
  client_list (λ _, answer) = Ok out.1 ∧ wd_registry world' = out.2.
Proof using All.
  intros Hc out Hfit. apply (conversation_result RqList _ _ _ I) in Hc. cbn [meant dispatch] in Hc. cbv zeta in Hc.
  unfold out in *. destruct (list_sessions _ _) as [sessions registry]. cbn [fst snd] in *. destruct Hc as [-> ->].
  split; [|done]. unfold client_list. rewrite client_view_success by done. cbn [mbind result_bind]. unfold success_result.
  by rewrite (proj1 (proj2 server_results_round_trip) sessions Hfit).
Qed.

Lemma stop_end_to_end id world world' answer :
  conversation (RqStop id) world world' answer →
  if validate_session_id id then
    let '(stopped, registry, metrics) := stop (ev_drained env) id (wd_registry world) (wd_metrics world) in
    client_stop (λ _, answer) id = (if stopped then Ok () else Err not_found) ∧
    world' = mkWorld registry metrics (wd_slots world)
  else client_stop (λ _, answer) id = Err invalid_request ∧ world' = world.
Proof using All.
  intros Hc. apply (conversation_result (RqStop id) _ _ _ I) in Hc. cbn [meant] in Hc.
  destruct (validate_session_id id).
  - cbn [dispatch] in Hc. cbv zeta in Hc. destruct (stop _ _ _ _) as [[stopped registry] metrics]. cbn [fst snd] in Hc.
    destruct Hc as [-> ->]. split; [|done]. unfold client_stop. by destruct stopped.
  - by destruct Hc as [-> ->].
Qed.

Lemma reload_end_to_end id world world' answer :
  conversation (RqReload id) world world' answer →
  if validate_session_id id then
    let '(result, registry, metrics) :=
      reload (ct_sessions state) (reload_env_of_state detail state env) (ev_interfere env) id
        (wd_registry world) (wd_metrics world) in
    client_reload (λ _, answer) id = ok_or result not_found ∧ world' = mkWorld registry metrics (wd_slots world)
  else client_reload (λ _, answer) id = Err invalid_request ∧ world' = world.
Proof using All.
  intros Hc. apply (conversation_result (RqReload id) _ _ _ I) in Hc. cbn [meant] in Hc.
  destruct (validate_session_id id).
  - cbn [dispatch] in Hc. cbv zeta in Hc. destruct (reload _ _ _ _ _ _) as [[res registry] metrics]. cbn [fst snd] in Hc.
    destruct Hc as [-> ->]. split; [|done]. unfold client_reload. destruct res as [r|]; [|done].
    rewrite client_view_success by done. cbn [mbind result_bind]. unfold success_result. by rewrite reload_result_round_trip.
  - by destruct Hc as [-> ->].
Qed.

Lemma reload_all_end_to_end world world' answer :
  conversation RqReloadAll world world' answer →
  let '(results, registry, metrics) :=
    reload_all (ct_sessions state) (reload_env_of_state detail state env) (ev_interfere env)
      (wd_registry world) (wd_metrics world) in
  client_reload_all (λ _, answer) = Ok results ∧ world' = mkWorld registry metrics (wd_slots world).
Proof using All.
  intros Hc. apply (conversation_result RqReloadAll _ _ _ I) in Hc. cbn [meant dispatch] in Hc. cbv zeta in Hc.
  destruct (reload_all _ _ _ _ _) as [[results registry] metrics]. cbn [fst snd] in Hc. destruct Hc as [-> ->].
  split; [|done]. unfold client_reload_all. rewrite client_view_success by done. cbn [mbind result_bind].
  unfold success_result. by rewrite (proj1 (proj2 (proj2 server_results_round_trip)) results).
Qed.

Context (Hint : ∀ k r, no_new r (ev_interfere env k r)).

(** The client holds a handle exactly when the server registered the session:
    under its identifier, with its secrets, for as long as its lease. *)
Definition handle_matches (session : SessionConfig) (source : option str) (world world' : World)
    (handle : result ClientError Session) : Prop :=
  match handle with
  | Ok h =>
      ∃ ms world1, sr_sessions (wd_registry world) !! se_id h = None ∧
        wd_registry world1 = set_sessions (<[se_id h := ms]> (sr_sessions (wd_registry world))) (wd_registry world) ∧
        registered state env session source ms ∧
        se_socket_path h = si_socket (ms_info ms) ∧ se_persistent h = sc_persistent session ∧
        se_lease h = negb (sc_persistent session) ∧
        world' = (if sc_persistent session then world1 else remove_lease env (se_id h) (others world1))
  | Err _ => wd_registry world' = wd_registry world ∧ wd_metrics world' = wd_metrics world
  end.

(** What the client makes of the answer to a create request. *)
Definition created_handle (answer : result ClientError json) : result ClientError Session :=
  response ← answer;
  created ← success_result create_result_from_value response;
  Ok (session_of_result created).

Lemma create_outcome_handle session source world out answer :
  create_outcome state env session source world out → answer = client_view out.1.1 →
  handle_matches session source world
    (match out.1.2 with None => out.2 | Some id => remove_lease env id (others out.2) end) (created_handle answer).
Proof using Type.
  destruct out as [[response lease] world1]. cbn [fst snd].
  intros [(Hr & Hm & -> & code & message & ->)|(id & ms & created & Hr & Hn & Hreg & -> & -> & Hci & Hid)] ->.
  - by rewrite client_view_error.
  - rewrite client_view_success by done. unfold created_handle, success_result. cbn [mbind result_bind].
    rewrite (proj1 server_results_round_trip created). cbn [ok_or mbind result_bind handle_matches].
    rewrite Hci, Hid, (rg_persistent _ _ _ _ _ Hreg). exists ms, world1. split_and!; try done.
    cbn [session_of_result se_id cr_id]. by destruct (sc_persistent session).
Qed.

(** A create request that reached the server as [req]. *)
Lemma created_end_to_end req world world' answer :
  is_create req = true →
  (let out := dispatch detail state env req world in
   answer = client_view out.1.1 ∧
   world' = match out.1.2 with None => out.2 | Some id => remove_lease env id (others out.2) end) →
  (∃ session source, requested state req session source ∧
     handle_matches session source world world' (created_handle answer)) ∨
  ((∃ e, created_handle answer = Err e) ∧ world' = world).
Proof using Hint.
  intros Hcreate [Ha ->]. destruct (dispatch_outcome detail state env Hint req world) as [_ [(session & source & Hreq & Ho)|(Hl & _ & Hno)]].
  - left. exists session, source. split; [done|]. by apply create_outcome_handle.
  - right. destruct (Hno Hcreate) as [Hw (code & message & Hr)]. rewrite Hl. split; [|done].
    rewrite Hr, client_view_error in Ha. subst answer. by eexists.
Qed.

Lemma create_end_to_end sc req world world' answer :
  session_wf sc → Forall (λ r, Forall (λ p, (p < 65536)%N) (hr_ports r)) (sc_rules sc) →
  create_request_new sc = Ok req → conversation (RqCreate req) world world' answer →
  handle_matches (host_ordered sc) None world world' (client_create (λ _, answer) sc) ∧
  (is_ok (client_create (λ _, answer) sc) = true → ct_create_mode state = Inline).
Proof using All.
  intros Hwf Hp Hreq Hc. destruct (create_request_built sc Hwf Hp) as (req' & Hreq' & Hb).
  assert (req' = req) as -> by congruence. apply (conversation_result _ _ _ _ Hb) in Hc. cbn [meant] in Hc.
  rewrite (validate_wire_id sc req Hwf Hreq) in Hc. cbn [map_err fmap result_fmap] in Hc.
  assert (client_create (λ _, answer) sc = created_handle answer) as ->.
  { unfold client_create. rewrite Hreq. reflexivity. }
  apply created_end_to_end in Hc as [(session & source & (Hm & -> & ->) & Hh)|[[e ->] ->]]; done.
Qed.

Lemma create_from_file_end_to_end name require_ephemeral world world' answer :
  validate_session_config_name name = true →
  conversation (RqCreateFromFile name require_ephemeral) world world' answer →
  let handle := (create_from_file_with_requirement (λ _, answer) name require_ephemeral).1 in
  (∃ session, requested state (CreateFromFile PROTOCOL_VERSION name require_ephemeral) session (Some name) ∧
     handle_matches session (Some name) world world' handle) ∨
  ((∃ e, handle = Err e) ∧ world' = world).
Proof using All.
  intros Hname Hc. apply (conversation_result (RqCreateFromFile name require_ephemeral) _ _ _ I) in Hc. cbn [meant] in Hc.
  rewrite Hname in Hc. apply created_end_to_end in Hc; [|done]. cbv zeta.
  unfold create_from_file_with_requirement. rewrite Hname. cbn [negb].
  change (response ← answer; success_result create_result_from_value response)
    with (answer ≫= success_result create_result_from_value). unfold created_handle in Hc.
  destruct answer as [v|e]; cbn [mbind result_bind] in Hc |- *; [|].
  2:{ destruct Hc as [(session & source & Hr & Hh)|[_ ->]]; [|right; by eauto].
      left. assert (source = Some name) as -> by apply Hr. by exists session. }
  destruct (success_result create_result_from_value v) as [created|e] eqn:Hs; cbn [mbind result_bind] in Hc |- *.
  2:{ destruct Hc as [(session & source & Hr & Hh)|[_ ->]]; [|right; by eauto].
      left. assert (source = Some name) as -> by apply Hr. by exists session. }
  destruct Hc as [(session & source & Hr & Hh)|[[? [=]] _]].
  assert (source = Some name) as -> by apply Hr. left. exists session. split; [done|].
  assert (require_ephemeral && cr_persistent created = false) as ->; [|done].
  destruct Hh as (ms & world1 & _ & _ & _ & _ & Hper & _). cbn [session_of_result se_persistent] in Hper. rewrite Hper.
  destruct Hr as (_ & _ & _ & Heph). destruct require_ephemeral; [|done]. by apply Heph.
Qed.

(** C15: the typed client and the server together do what the operation says,
    over any connection of the trusted user on which nothing is lost, in any
    fragmentation. A create returns a handle exactly when the server registered
    that policy, in host order and with its secrets, under the identifier and
    socket the handle names, and an ephemeral one is removed when its lease
    ends; from a file the policy is the composed one, and never persistent when
    that was asked for; an error leaves the registry as it was. A list returns
    what the registry lists; a stop or a reload reports exactly what the server
    did to the session, or that there is no such session. *)
Theorem operations_end_to_end world world' answer :
  (∀ sc req, session_wf sc → Forall (λ r, Forall (λ p, (p < 65536)%N) (hr_ports r)) (sc_rules sc) →
     create_request_new sc = Ok req → conversation (RqCreate req) world world' answer →
     handle_matches (host_ordered sc) None world world' (client_create (λ _, answer) sc) ∧
     (is_ok (client_create (λ _, answer) sc) = true → ct_create_mode state = Inline)) ∧
  (∀ name require_ephemeral, validate_session_config_name name = true →
     conversation (RqCreateFromFile name require_ephemeral) world world' answer →
     let handle := (create_from_file_with_requirement (λ _, answer) name require_ephemeral).1 in
     (∃ session, requested state (CreateFromFile PROTOCOL_VERSION name require_ephemeral) session (Some name) ∧
        handle_matches session (Some name) world world' handle) ∨
     ((∃ e, handle = Err e) ∧ world' = world)) ∧
  (conversation RqList world world' answer →
     let out := list_sessions (ev_finished env) (wd_registry world) in
     Forall counters_fit out.1 →
     client_list (λ _, answer) = Ok out.1 ∧ wd_registry world' = out.2) ∧
  (∀ id, conversation (RqStop id) world world' answer →
     if validate_session_id id then
       let '(stopped, registry, metrics) := stop (ev_drained env) id (wd_registry world) (wd_metrics world) in
       client_stop (λ _, answer) id = (if stopped then Ok () else Err not_found) ∧
       world' = mkWorld registry metrics (wd_slots world)
     else client_stop (λ _, answer) id = Err invalid_request ∧ world' = world) ∧
  (∀ id, conversation (RqReload id) world world' answer →
     if validate_session_id id then
       let '(result, registry, metrics) :=
         reload (ct_sessions state) (reload_env_of_state detail state env) (ev_interfere env) id
           (wd_registry world) (wd_metrics world) in
       client_reload (λ _, answer) id = ok_or result not_found ∧ world' = mkWorld registry metrics (wd_slots world)
     else client_reload (λ _, answer) id = Err invalid_request ∧ world' = world) ∧
  (conversation RqReloadAll world world' answer →
     let '(results, registry, metrics) :=
       reload_all (ct_sessions state) (reload_env_of_state detail state env) (ev_interfere env)
         (wd_registry world) (wd_metrics world) in
     client_reload_all (λ _, answer) = Ok results ∧ world' = mkWorld registry metrics (wd_slots world)).
Proof using All.
  split_and!.
  - intros sc req. apply create_end_to_end.
  - intros name require_ephemeral. apply create_from_file_end_to_end.
  - apply list_end_to_end.
  - intros id. apply stop_end_to_end.
  - intros id. apply reload_end_to_end.
  - apply reload_all_end_to_end.
Qed.
End conversation.

(** ** Witness: stopping a session that is not there *)

Definition stop_world : World := mkWorld registry_new metrics_default 1.
Definition stop_sent : str := to_be_bytes 4 ++ lit "stop".
Definition stop_answered : str := w_written (@write_error example_codec (mkWriter [] [] false) ERR_SESSION_NOT_FOUND).2.

Lemma stop_conversation :
  @conversation plain_crypto str (example_fs []) wire_toml wire_control_toml wire_request_toml plain_host_parse
    example_codec connection _ connection_read_spec (λ _, lit "detail") example_control_state example_conn_env
    (λ w, w) (RqStop (lit "ab")) stop_world stop_world (Err not_found).
Proof.
  exists (lit "stop"), (mkWriter [] [] false), (mkWriter [] stop_sent false), stop_sent, [Data stop_sent],
    (mkWriter [] [] false), (mkWriter [] stop_answered false), stop_answered, [Data stop_answered],
    (Err not_found).
  split_and!; try (vm_compute; reflexivity).
  - rewrite <-(app_nil_r stop_sent) at 2. constructor; [done|constructor].
  - constructor.
  - vm_compute. done.
  - rewrite <-(app_nil_r stop_answered) at 2. constructor; [vm_compute; done|constructor].
  - vm_compute. done.
Qed.

Lemma operations_end_to_end_witness :
  let '(stopped, registry, metrics) := stop (ev_drained example_conn_env) (lit "ab") registry_new metrics_default in
  client_stop (λ _, Err not_found) (lit "ab") = (if stopped then Ok () else Err not_found) ∧
  stop_world = mkWorld registry metrics 1.
Proof.
  destruct (@operations_end_to_end plain_crypto str (example_fs []) wire_toml wire_control_toml wire_request_toml
    wire_laws plain_host_parse plain_host_laws example_codec example_codec_laws connection _ connection_read_spec
    (λ _, lit "detail") example_control_state example_conn_env (λ w, w) eq_refl eq_refl (λ _ _ _ Hn, Hn)
    stop_world stop_world (Err not_found)) as (_ & _ & _ & Hstop & _).
  exact (Hstop (lit "ab") stop_conversation).
Defined.
