(* ===== verification/DaemonConfig.v ===== *)
(** The daemon's own configuration (src/config/daemon.rs, src/config/policy.rs).

    The model starts from the deserialised document, with serde's defaults
    applied ([raw_settings_default] has them), and the directory of the
    configuration file, against which relative paths are resolved. *)

From S2P Require Import Prelude RustStr BTree PolicyTypes UrlPath DnsName Identifiers SessionDoc.
From S2P Require Import Secrets FileConfig SessionPolicy Telemetry ProxyRuntime Registry Reload.
From S2P Require Import AsyncIo ControlFrame ControlServer.
From stdpp Require Import options.
Local Open Scope char_scope.

(** ** Data *)

Record RawDaemonSettings := mkRawDaemonSettings {
  rd_control_socket : str;
  rd_socket_dir : str;
  rd_trusted_operator_uid : N;
  rd_max_sessions : N;
  rd_max_connections_per_session : N;
  rd_shutdown_grace_seconds : N;
  rd_control_read_timeout_ms : N;
  rd_max_provisioning_requests : N;
  rd_io_timeout_ms : N;
  rd_session_config_dir : option str;
  rd_create_mode : SessionCreateMode;
}.

Record RawCaConfig := mkRawCaConfig { rca_certificate : str; rca_private_key : str }.
Record RawSecretStoreConfig := mkRawSecretStoreConfig { rss_directory : str; rss_allowed : list str }.

Record RawDaemonConfig := mkRawDaemonConfig {
  rdc_daemon : RawDaemonSettings;
  rdc_ca : RawCaConfig;
  rdc_secrets : RawSecretStoreConfig;
}.

Record DaemonSettings := mkDaemonSettings {
  ds_control_socket : str;
  ds_socket_dir : str;
  ds_trusted_operator_uid : N;
  ds_max_sessions : N;
  ds_max_connections_per_session : N;
  ds_shutdown_grace_seconds : N;
  ds_control_read_timeout_ms : N;
  ds_max_provisioning_requests : N;
  ds_io_timeout_ms : N;
  ds_session_config_dir : option str;
  ds_create_mode : SessionCreateMode;
}.

Record CaConfig := mkCaConfig { ca_certificate : str; ca_private_key : str }.
Record SecretStoreConfig := mkSecretStoreConfig { ssc_directory : str; ssc_allowed : gset str }.

Record DaemonConfig := mkDaemonConfig {
  dc_daemon : DaemonSettings;
  dc_ca : CaConfig;
  dc_secrets : SecretStoreConfig;
}.

(** The defaults of the optional settings. *)
Definition DEFAULT_MAX_SESSIONS : N := 64.
Definition DEFAULT_MAX_CONNECTIONS_PER_SESSION : N := 128.
Definition DEFAULT_SHUTDOWN_GRACE_SECONDS : N := 5.
Definition DEFAULT_CONTROL_READ_TIMEOUT_MS : N := 5000.
Definition DEFAULT_MAX_PROVISIONING_REQUESTS : N := 8.
Definition DEFAULT_IO_TIMEOUT_MS : N := 30000.

(** A document that sets only what it must. *)
Definition raw_settings_default (control_socket socket_dir : str) (trusted_operator_uid : N) : RawDaemonSettings :=
  mkRawDaemonSettings control_socket socket_dir trusted_operator_uid DEFAULT_MAX_SESSIONS
    DEFAULT_MAX_CONNECTIONS_PER_SESSION DEFAULT_SHUTDOWN_GRACE_SECONDS DEFAULT_CONTROL_READ_TIMEOUT_MS
    DEFAULT_MAX_PROVISIONING_REQUESTS DEFAULT_IO_TIMEOUT_MS None Inline.

Inductive daemon_error :=
| DirRequiresFileOnly
| DirRequired
| DirInvalid
| EmptyPath (field : string)
| ZeroLimit (field : string)
| SecretNameInvalid
| SecretNameDuplicate.

(** ** Operations *)

(** The loop of [validate_allowed_secrets]. *)
Fixpoint validate_allowed_from (allowed : gset str) (raw : list str) : result daemon_error (gset str) :=
  match raw with
  | [] => Ok allowed
  | secret :: rest =>
      if negb (validate_secret_id secret) then Err SecretNameInvalid
      else if bool_decide (secret ∈ allowed) then Err SecretNameDuplicate
      else validate_allowed_from ({[secret]} ∪ allowed) rest
  end.

Definition validate_allowed_secrets (raw : list str) : result daemon_error (gset str) :=
  validate_allowed_from ∅ raw.

Definition is_absolute (path : str) : bool := starts_with ["/"] path.

Definition resolve_config_path (path directory : str) : str :=
  if str_eqb path [] || is_absolute path then path else path_join directory path.

Definition resolve_paths (directory : str) (raw : RawDaemonConfig) : RawDaemonConfig :=
  let d := rdc_daemon raw in
  let resolve p := resolve_config_path p directory in
  mkRawDaemonConfig
    (mkRawDaemonSettings (resolve (rd_control_socket d)) (resolve (rd_socket_dir d)) (rd_trusted_operator_uid d)
       (rd_max_sessions d) (rd_max_connections_per_session d) (rd_shutdown_grace_seconds d)
       (rd_control_read_timeout_ms d) (rd_max_provisioning_requests d) (rd_io_timeout_ms d)
       (resolve <$> rd_session_config_dir d) (rd_create_mode d))
    (mkRawCaConfig (resolve (rca_certificate (rdc_ca raw))) (resolve (rca_private_key (rdc_ca raw))))
    (mkRawSecretStoreConfig (resolve (rss_directory (rdc_secrets raw))) (rss_allowed (rdc_secrets raw))).

Definition required_path (path : str) (field : string) : result daemon_error str :=
  if str_eqb path [] then Err (EmptyPath field) else Ok path.

Definition is_parent_dir (c : path_component) : bool := match c with ParentDir => true | _ => false end.

(** [path.components()] is only asked of an absolute path: the first disjunct
    decides otherwise. *)
Definition validate_session_config_dir (path : str) : result daemon_error unit :=
  if negb (is_absolute path) || str_eqb path [] || contains_char "000" path
     || existsb (λ component, str_eqb component (lit ".") || str_eqb component (lit "..")) (split "/" path)
     || existsb is_parent_dir (absolute_components path)
     || (length (absolute_components path) <? 2)%nat
  then Err DirInvalid else Ok ().

Definition select_session_config_dir (mode : SessionCreateMode) (dir : option str)
    : result daemon_error (option str) :=
  match mode, dir with
  | Inline, None => Ok None
  | Inline, Some _ => Err DirRequiresFileOnly
  | FileOnly, None => Err DirRequired
  | FileOnly, Some path => _ ← validate_session_config_dir path; Ok (Some path)
  end.

(** The checks on the limits, in the source's order. *)
Definition check_limits (d : DaemonSettings) : result daemon_error unit :=
  if (ds_max_sessions d =? 0)%N then Err (ZeroLimit "max_sessions")
  else if (ds_max_connections_per_session d =? 0)%N then Err (ZeroLimit "max_connections_per_session")
  else if (ds_control_read_timeout_ms d =? 0)%N then Err (ZeroLimit "control_read_timeout_ms")
  else if (ds_max_provisioning_requests d =? 0)%N then Err (ZeroLimit "max_provisioning_requests")
  else if (ds_io_timeout_ms d =? 0)%N then Err (ZeroLimit "io_timeout_ms")
  else Ok ().

Definition from_toml_in_directory (raw : RawDaemonConfig) (config_directory : option str)
    : result daemon_error DaemonConfig :=
  let raw := match config_directory with Some directory => resolve_paths directory raw | None => raw end in
  let d := rdc_daemon raw in
  session_config_dir ← select_session_config_dir (rd_create_mode d) (rd_session_config_dir d);
  control_socket ← required_path (rd_control_socket d) "daemon.control_socket";
  socket_dir ← required_path (rd_socket_dir d) "daemon.socket_dir";
  let daemon := mkDaemonSettings control_socket socket_dir (rd_trusted_operator_uid d) (rd_max_sessions d)
                  (rd_max_connections_per_session d) (rd_shutdown_grace_seconds d) (rd_control_read_timeout_ms d)
                  (rd_max_provisioning_requests d) (rd_io_timeout_ms d) session_config_dir (rd_create_mode d) in
  _ ← check_limits daemon;
  certificate ← required_path (rca_certificate (rdc_ca raw)) "ca.certificate";
  private_key ← required_path (rca_private_key (rdc_ca raw)) "ca.private_key";
  directory ← required_path (rss_directory (rdc_secrets raw)) "secrets.directory";
  allowed ← validate_allowed_secrets (rss_allowed (rdc_secrets raw));
  Ok (mkDaemonConfig daemon (mkCaConfig certificate private_key) (mkSecretStoreConfig directory allowed)).

Definition daemon_config_from_toml (raw : RawDaemonConfig) : result daemon_error DaemonConfig :=
  from_toml_in_directory raw None.

(** ** Accepted configurations *)

Lemma required_path_Ok path field p : required_path path field = Ok p ↔ p = path ∧ path ≠ [].
Proof.
  unfold required_path. destruct (str_eqb path []) eqn:E.
  - apply str_eqb_true in E. naive_solver.
  - apply bool_decide_eq_false in E. naive_solver.
Qed.

Lemma validate_allowed_from_Ok allowed raw res :
  validate_allowed_from allowed raw = Ok res →
  res = list_to_set raw ∪ allowed ∧ NoDup raw ∧ ∀ s, s ∈ raw → validate_secret_id s = true ∧ s ∉ allowed.
Proof.
  revert allowed. induction raw as [|s raw IH]; intros allowed Hv; cbn in Hv.
  { simplify_eq. split_and!; [set_solver|constructor|set_solver]. }
  res_inv. bool_prop. apply IH in Hv as (-> & Hnd & Hall).
  split_and!; [cbn; set_solver| |].
  - constructor; [|done]. intros Hin. apply Hall in Hin. set_solver.
  - intros x [->|Hx]%elem_of_cons; [done|]. destruct (Hall x Hx). set_solver.
Qed.

Lemma resolve_config_path_absolute path directory :
  is_absolute directory = true → resolve_config_path path directory ≠ [] →
  is_absolute (resolve_config_path path directory) = true.
Proof.
  unfold resolve_config_path. intros Hd.
  destruct (str_eqb path []) eqn:He; cbn [orb]; [by apply str_eqb_true in He|].
  destruct (is_absolute path) eqn:Ha; [done|]. intros _. unfold path_join, is_absolute in *. rewrite Ha.
  apply starts_with_true in Hd as [k ->]. apply starts_with_true.
  destruct (_ || _); cbn; eauto.
Qed.

(** The components of a directory that passed the check. *)
Lemma validate_session_config_dir_components path :
  validate_session_config_dir path = Ok () →
  is_absolute path = true ∧
  ∃ l, normal_components (absolute_components path) = Some l ∧ l ≠ [] ∧
    ∀ c, c ∈ l → child_component c ∧ "000" ∉ c.
Proof.
  unfold validate_session_config_dir. intros Hv. res_inv. bool_prop.
  match goal with H : contains_char _ _ = false |- _ => apply contains_char_false in H as Hnul end.
  match goal with H : existsb is_parent_dir _ = false |- _ => clear H end.
  match goal with H : existsb _ (split _ _) = false |- _ => rewrite existsb_elem_false in H; rename H into Hdots end.
  split; [done|].
  match goal with H : (_ <? 2)%nat = false |- _ => apply Nat.ltb_ge in H; rename H into Hlen end.
  unfold absolute_components in *. cbn [normal_components length] in *. rewrite length_fmap in Hlen.
  set (l := filter (λ c, c ≠ [] ∧ c ≠ lit ".") (split "/" path)) in *.
  assert (∀ c, c ∈ l → child_component c ∧ "000" ∉ c ∧ str_eqb c (lit "..") = false) as Hl.
  { intros c [[Hne Hnd] Hc]%list_elem_of_filter. specialize (Hdots c Hc). bool_prop.
    split_and!; [|intros Hin; by apply Hnul; eapply split_elem|done].
    constructor; [done|by eapply split_no_sep|done|].
    intros ->. match goal with H : str_eqb _ _ = false |- _ => by rewrite (proj2 (str_eqb_true _ _)) in H end. }
  exists l. split_and!; [|by destruct l; cbn in Hlen; [lia|]|].
  - clear Hlen. clearbody l. induction l as [|c l IH]; [done|]. rewrite fmap_cons.
    destruct (Hl c) as (_ & _ & ->); [set_solver|]. cbn [normal_components]. rewrite IH; [done|]. intros x Hx. apply Hl. set_solver.
  - intros c Hc. by destruct (Hl c Hc) as (? & ? & _).
Qed.

(** Such a directory is opened or refused for what the file system says of
    it, never for the shape of its path. *)
Definition shape_error (e : open_error) : bool :=
  match e with OpenNotAbsolute | OpenPathInvalid | OpenIsRoot => true | _ => false end.

Lemma open_tree_shape {Fd} `{!ConfigFs Fd} uid (l : list str) (fd : Fd) e :
  (∀ c, c ∈ l → "000" ∉ c) → open_tree uid fd l = Err e → shape_error e = false.
Proof.
  revert fd. induction l as [|c l IH]; intros fd Hc He; cbn [open_tree] in He; [done|].
  rewrite (proj2 (contains_char_false _ _)) in He by (apply Hc; set_solver).
  destruct (openat_dir fd c) as [fd'|]; cbn [map_err mbind result_bind] in He; [|by simplify_eq].
  destruct (fd_metadata fd'); cbn [ok_or mbind result_bind] in He; [|by simplify_eq].
  destruct (validate_config_directory_metadata _ _ _); [|by simplify_eq].
  eapply IH; [|done]. intros x Hx. apply Hc. set_solver.
Qed.

Lemma open_accepted_directory {Fd} `{!ConfigFs Fd} path uid e :
  validate_session_config_dir path = Ok () →
  open_trusted_directory_tree (Fd := Fd) path uid = Err e → shape_error e = false.
Proof.
  intros (Ha & l & Hl & Hne & Hc)%validate_session_config_dir_components.
  unfold open_trusted_directory_tree. unfold is_absolute in Ha. rewrite Ha. cbn [negb].
  destruct open_root as [fd|]; cbn [ok_or mbind result_bind]; [|by intros [= <-]].
  rewrite Hl. cbn [ok_or mbind result_bind]. rewrite bool_decide_eq_false_2 by done.
  apply open_tree_shape. intros c Hin. by destruct (Hc c Hin).
Qed.

(** An accepted daemon configuration is usable: with the configuration
    file's directory every path is absolute, every limit and timeout that
    bounds a resource is positive, session files are configured exactly in
    file-only mode and in a directory that start-up refuses only for what the
    file system says of it, and the secret entitlements are exactly the listed
    names, valid and without repetition. *)
Lemma daemon_config_sound {Fd} `{!ConfigFs Fd} raw directory c :
  is_absolute directory = true → from_toml_in_directory raw (Some directory) = Ok c →
  Forall (λ p, is_absolute p = true)
    [ds_control_socket (dc_daemon c); ds_socket_dir (dc_daemon c); ca_certificate (dc_ca c);
     ca_private_key (dc_ca c); ssc_directory (dc_secrets c)] ∧
  Forall (λ n, (0 < n)%N)
    [ds_max_sessions (dc_daemon c); ds_max_connections_per_session (dc_daemon c);
     ds_control_read_timeout_ms (dc_daemon c); ds_max_provisioning_requests (dc_daemon c);
     ds_io_timeout_ms (dc_daemon c)] ∧
  (ds_create_mode (dc_daemon c) = FileOnly ↔ is_Some (ds_session_config_dir (dc_daemon c))) ∧
  (∀ dir uid e, ds_session_config_dir (dc_daemon c) = Some dir →
     open_trusted_directory_tree (Fd := Fd) dir uid = Err e → shape_error e = false) ∧
  ssc_allowed (dc_secrets c) = list_to_set (rss_allowed (rdc_secrets raw)) ∧
  NoDup (rss_allowed (rdc_secrets raw)) ∧
  (∀ s, s ∈ ssc_allowed (dc_secrets c) → validate_secret_id s = true).
Proof.
  intros Hd. unfold from_toml_in_directory. cbn zeta. intros Hc.
  apply bind_Ok_inv in Hc as (dir & Hdir & Hc). res_inv. rewrite !required_path_Ok in *.
  repeat match goal with H : _ = _ ∧ _ ≠ [] |- _ => destruct H as [-> ?] end.
  match goal with H : validate_allowed_secrets _ = _ |- _ =>
    apply validate_allowed_from_Ok in H as (-> & Hnd & Hall) end.
  cbn [rdc_daemon rdc_ca rdc_secrets resolve_paths dc_daemon dc_ca dc_secrets ds_control_socket ds_socket_dir
    ca_certificate ca_private_key ssc_directory ssc_allowed ds_session_config_dir ds_create_mode] in *.
  split_and!.
  - repeat constructor; by apply resolve_config_path_absolute.
  - match goal with H : check_limits _ = Ok _ |- _ => unfold check_limits in H; res_inv end.
    repeat match goal with H : (_ =? 0)%N = false |- _ => apply N.eqb_neq in H end.
    cbn in *. repeat constructor; lia.
  - unfold select_session_config_dir in Hdir. cbn in Hdir |- *.
    destruct (rd_create_mode _), (rd_session_config_dir _); cbn in Hdir; res_inv; split; naive_solver.
  - intros d uid e -> He. unfold select_session_config_dir in Hdir.
    repeat case_match; try done. res_inv.
    match goal with H : validate_session_config_dir _ = Ok ?x |- _ => destruct x end.
    by eapply open_accepted_directory.
  - set_solver.
  - done.
  - intros s Hs. apply Hall. set_solver.
Qed.

Definition example_daemon_raw : RawDaemonConfig :=
  mkRawDaemonConfig
    (mkRawDaemonSettings (lit "run/control.sock") (lit "/run/baffle/proxies") 1000 64 128 5 5000 8 30000
       (Some (lit "sessions")) FileOnly)
    (mkRawCaConfig (lit "ca.pem") (lit "ca.key"))
    (mkRawSecretStoreConfig (lit "/etc/baffle/secrets") [lit "api-token"; lit "github"]).

Lemma daemon_config_sound_witness :
  ∃ c, from_toml_in_directory example_daemon_raw (Some (lit "/etc/baffle")) = Ok c ∧
    ds_session_config_dir (dc_daemon c) = Some (lit "/etc/baffle/sessions") ∧
    is_absolute (ds_control_socket (dc_daemon c)) = true.
Proof.
  eexists. split; [reflexivity|]. split; [reflexivity|].
  destruct (@daemon_config_sound str (example_fs []) example_daemon_raw (lit "/etc/baffle") _
    eq_refl eq_refl) as [Hp _].
  by apply Forall_cons in Hp as [? _].
Defined.
