(* ===== verification/ControlStartup.v ===== *)
(** Start-up of the control server: private directories, the start-up lock,
    stale sockets, and the control socket itself (ControlServer::bind,
    StartupLock, ensure_private_directory and SocketGuard of
    src/control/server.rs).

    Path-based calls of [std::fs] resolve the path again each time, through
    [namei]. Destructors on error paths are explicit. The test trust override
    does not exist outside integration tests and is left out; so is logging. *)

From S2P Require Import Prelude RustStr BTree PolicyTypes UrlPath DnsName Identifiers SessionDoc.
From S2P Require Import Secrets FileConfig SessionPolicy Telemetry ProxyRuntime Registry Reload.
From S2P Require Import AsyncIo ControlFrame ControlServer DaemonConfig.
From S2P Require Import RustPath PosixFs SocketDirs SocketLeases SocketRestore StaleSockets StaleSweep.
From stdpp Require Import options.
Local Open Scope char_scope.

(** ** Calls by path *)

Definition set_permissions (path : str) (mode : N) : Sys (result errno unit) :=
  with_cwd (λ cwd, libc as_unit (Fchmodat cwd path mode)).
(** [fs::create_dir]: mode 0777 less the file creation mask. *)
Definition create_dir (path : str) : Sys (result errno unit) :=
  with_cwd (λ cwd, libc as_unit (Mkdirat cwd path 511)).
Definition unix_listener_bind (path : str) : Sys (result errno FileId) :=
  with_cwd (λ cwd, listener_bind cwd path).

(** ** Private directories *)

(** The loop over the components of the absolute path. *)
Fixpoint ensure_components (current : str) (cs : list component) : Sys (result anyhow unit) :=
  match cs with
  | [] => mret (Ok ())
  | c :: cs =>
      let current := path_join current (component_os_str c) in
      metadata ← symlink_metadata current;
      match metadata with
      | Ok st =>
          if is_symlink st || negb (is_dir st)
          then mret (Err "control socket directory path contains a non-directory component"%string)
          else ensure_components current cs
      | Err e =>
          if decide (errno_kind e = NotFound) then
            created ← create_dir current;
            match created with
            | Err _ => mret (Err "could not create directory"%string)
            | Ok _ =>
                restricted ← set_permissions current 448;
                match restricted with
                | Err _ => mret (Err "could not restrict control directory permissions"%string)
                | Ok _ => ensure_components current cs
                end
            end
          else mret (Err "could not inspect control socket directory"%string)
      end
  end.

Definition ensure_private_directory (path : str) (expected_uid : N) : Sys (result anyhow unit) :=
  absolute ← (if is_absolute path then mret (Ok path)
              else cwd ← current_dir; mret ((λ cwd, path_join cwd path) <$> cwd));
  match absolute with
  | Err _ => mret (Err "could not resolve working directory"%string)
  | Ok absolute =>
      absolute_path ← normalize_system_path absolute;
      walked ← ensure_components [] (components absolute_path);
      match walked with
      | Err e => mret (Err e)
      | Ok _ =>
          metadata ← symlink_metadata absolute_path;
          mret (match metadata with
                | Err _ => Err "could not inspect control socket directory"%string
                | Ok st =>
                    if negb (st_uid st =? expected_uid)%N
                    then Err "control socket directory is not owned by the trusted operator"%string
                    else if negb (N.land (st_mode st) 63 =? 0)%N
                    then Err "control socket directory permissions must be 0700 or more restrictive"%string
                    else Ok ()
                end)
      end
  end.

(** ** The start-up lock *)

(** The lock file is kept open, and so is the lock, until start-up ends; its
    closing, which releases the lock, is not an event of the trace. *)
Definition startup_lock_acquire (control_socket : str) (expected_uid : N) : Sys (result anyhow FileId) :=
  match file_name control_socket with
  | None => mret (Err "control socket path has no file name"%string)
  | Some name =>
      let lock_path := with_file_name control_socket (to_string_lossy name ++ lit ".lock") in
      file ← with_cwd (λ cwd, libc as_fd (Open_create cwd lock_path 384));
      match file with
      | Err _ => mret (Err "could not open startup lock"%string)
      | Ok file =>
          metadata ← libc as_stat (Fstat file);
          match metadata with
          | Err _ => mret (Err "could not inspect startup lock"%string)
          | Ok st =>
              if negb (is_file st) || negb (st_uid st =? expected_uid)%N
                 || negb (N.land (st_mode st) 63 =? 0)%N
              then mret (Err "startup lock has unexpected owner, type, or permissions"%string)
              else
                locked ← libc as_unit (Flock file);
                mret (match locked with
                      | Ok _ => Ok file
                      | Err _ => Err "could not lock startup file"%string
                      end)
          end
      end
  end.

(** ** The control socket *)

Record SocketGuard := mkSocketGuard { sg_path : str; sg_device : N; sg_inode : N }.

(** [SocketGuard::drop]: both calls take the path from the working directory. *)
Definition drop_socket_guard (g : SocketGuard) : Sys unit :=
  with_cwd (λ cwd,
    metadata ← libc as_stat (Fstatat cwd (sg_path g));
    match metadata with
    | Ok st =>
        if is_socket st && (st_dev st =? sg_device g)%N && (st_ino st =? sg_inode g)%N
        then _ ← libc as_unit (Unlinkat cwd (sg_path g) false); mret ()
        else mret ()
    | Err _ => mret ()
    end).

(** A socket already at the path: removed when stale, refused otherwise. *)
Definition clear_control_path (control_socket : str) (trusted_uid : N) : Sys (result anyhow unit) :=
  metadata ← symlink_metadata control_socket;
  match metadata with
  | Ok st =>
      if is_socket st then
        removed ← remove_stale_socket control_socket trusted_uid;
        mret (match removed with
              | Err e => Err e
              | Ok true => Ok ()
              | Ok false => Err "control socket path already exists"%string
              end)
      else mret (Err "control socket path already exists"%string)
  | Err e =>
      mret (if decide (errno_kind e = NotFound) then Ok ()
            else Err "could not inspect control socket path"%string)
  end.

(** Binding the listener and restricting the socket; the guard removes the
    socket again when a later step fails. *)
Definition bind_control_socket (control_socket : str) (trusted_uid : N)
    : Sys (result anyhow (FileId * SocketGuard)) :=
  listener ← unix_listener_bind control_socket;
  match listener with
  | Err _ => mret (Err "could not bind control socket"%string)
  | Ok listener =>
      metadata ← symlink_metadata control_socket;
      match metadata with
      | Err _ =>
          _ ← close_listener listener; mret (Err "could not inspect bound control socket"%string)
      | Ok st =>
          if negb (is_socket st) then
            _ ← close_listener listener;
            mret (Err "bound control socket has unexpected file type"%string)
          else
            let guard := mkSocketGuard control_socket (st_dev st) (st_ino st) in
            let fail e := _ ← drop_socket_guard guard; _ ← close_listener listener; mret (Err e) in
            restricted ← set_permissions control_socket 384;
            match restricted with
            | Err _ => fail "could not restrict control socket permissions"%string
            | Ok _ =>
                metadata ← symlink_metadata control_socket;
                match metadata with
                | Err _ => fail "could not inspect bound control socket"%string
                | Ok st =>
                    if negb (is_socket st) || negb (st_uid st =? trusted_uid)%N
                       || negb (N.land (st_mode st) 511 =? 384)%N
                    then fail "bound control socket has unexpected owner or permissions"%string
                    else mret (Ok (listener, guard))
                end
            end
      end
  end.

(** ** [ControlServer::bind] *)

Section bind.
Context {Fd : Type} `{ConfigFs Fd}.

Definition open_session_configs (d : DaemonSettings) : Sys (result anyhow (option (SessionConfigStore Fd))) :=
  match ds_create_mode d with
  | Inline => mret (Ok None)
  | FileOnly =>
      match ds_session_config_dir d with
      | None => mret (Err "file-only mode requires a session configuration directory"%string)
      | Some dir =>
          normalized ← normalize_system_path dir;
          mret (map_err (λ _, "session configuration directory is not trusted"%string)
                  (Some <$> store_open normalized (ds_trusted_operator_uid d)))
      end
  end.

(** The server's own state; the registry starts empty and accepting. *)
Record BoundServer := mkBoundServer {
  bs_listener : FileId;
  bs_socket_guard : SocketGuard;
  bs_state : ControlState Fd;
  bs_world : World;
}.

Definition initial_state (config : DaemonConfig) (configs : option (SessionConfigStore Fd)) : ControlState Fd :=
  let d := dc_daemon config in
  mkControlState (ds_trusted_operator_uid d) (ds_create_mode d)
    (mkSecretStore (ssc_directory (dc_secrets config)) (ds_trusted_operator_uid d) (ssc_allowed (dc_secrets config)))
    (mkSessionManager (ds_socket_dir d) (N.to_nat (ds_max_sessions d)))
    configs.

Definition initial_world (config : DaemonConfig) : World :=
  ControlServer.mkWorld (mkSessionRegistry true ∅ ∅) metrics_default
    (N.to_nat (ds_max_provisioning_requests (dc_daemon config))).

(** [None]: the fuel of the sweep was not enough. *)
Definition server_bind (fuel : nat) (config : DaemonConfig) : Sys (option (result anyhow BoundServer)) :=
  let d := dc_daemon config in
  let control_socket := ds_control_socket d in
  let trusted_uid := ds_trusted_operator_uid d in
  let stop e := mret (Some (Err e)) in
  r ← ensure_private_directory (parent_or_dot control_socket) trusted_uid;
  match r with
  | Err e => stop e
  | Ok _ =>
      r ← ensure_private_directory (ds_socket_dir d) trusted_uid;
      match r with
      | Err e => stop e
      | Ok _ =>
          lock ← startup_lock_acquire control_socket trusted_uid;
          match lock with
          | Err e => stop e
          | Ok lock =>
              configs ← open_session_configs d;
              match configs with
              | Err e => stop e
              | Ok configs =>
                  r ← clear_control_path control_socket trusted_uid;
                  match r with
                  | Err e => stop e
                  | Ok _ =>
                      r ← remove_stale_session_sockets fuel (ds_socket_dir d) trusted_uid;
                      match r with
                      | None => mret None
                      | Some (Err e) => stop e
                      | Some (Ok _) =>
                          bound ← bind_control_socket control_socket trusted_uid;
                          mret (Some (match bound with
                                      | Err e => Err e
                                      | Ok (listener, guard) =>
                                          Ok (mkBoundServer listener guard (initial_state config configs)
                                                (initial_world config))
                                      end))
                      end
                  end
              end
          end
      end
  end.
End bind.

(** ** What start-up does, in every environment *)

(** Calls that neither remove nor bind anything. *)
Definition gentle (c : syscall) : Prop :=
  match c with Unlinkat _ _ _ | Bind _ _ => False | _ => True end.
Definition gentle_trace (tr : trace) : Prop := Forall (λ cr : syscall * sysret, gentle cr.1) tr.
Definition gently {A} (m : Sys A) : Prop := emits (λ _ tr, gentle_trace tr) m.

Lemma gently_ret {A} (a : A) : gently (mret a).
Proof. apply emits_ret. constructor. Qed.
Lemma gently_bind {A B} (m : Sys A) (f : A → Sys B) : gently m → (∀ a, gently (f a)) → gently (m ≫= f).
Proof. apply emits_compose. unfold gentle_trace. intros. by apply Forall_app. Qed.
Lemma gently_libc {A} (view : sysret → result errno A) c : gentle c → gently (libc view c).
Proof. intros Hc. apply emits_libc. intros r. by repeat constructor. Qed.
Lemma gently_cwd {A} (f : FileId → Sys A) : (∀ cwd, gently (f cwd)) → gently (with_cwd f).
Proof. apply emits_cwd. Qed.

Create HintDb gently.
#[local] Hint Resolve gently_ret : gently.

Ltac gently_step :=
  match goal with
  | |- gently (mret _) => apply gently_ret
  | |- gently (libc _ _) => apply gently_libc; exact I
  | |- gently (with_cwd _) => apply gently_cwd; intros ?
  | |- gently (_ ≫= _) => apply gently_bind; [|intros ?]
  | |- gently (match ?x with _ => _ end) => destruct x
  | |- gently (let '_ := ?x in _) => destruct x
  end.
Ltac gently_solve := repeat (gently_step; try assumption; try (by auto with gently)).

Lemma gently_symlink_metadata path : gently (symlink_metadata path).
Proof. unfold symlink_metadata. gently_solve. Qed.
Lemma gently_normalize path : gently (normalize_system_path path).
Proof. unfold normalize_system_path, symlink_metadata. gently_solve. Qed.
#[local] Hint Resolve gently_symlink_metadata gently_normalize : gently.

Lemma gently_ensure_components cs : ∀ current, gently (ensure_components current cs).
Proof.
  induction cs as [|c cs IH]; intros current; cbn [ensure_components]; [apply gently_ret|].
  unfold create_dir, set_permissions. gently_solve.
Qed.
#[local] Hint Resolve gently_ensure_components : gently.

Lemma gently_ensure_private path uid : gently (ensure_private_directory path uid).
Proof. unfold ensure_private_directory, current_dir. gently_solve. Qed.

(** The lock file was seen to be private to the operator right before it was
    locked. *)
Definition lock_taken (uid : N) (tr : trace) : Prop :=
  ∃ pre f st r, tr = pre ++ [(Fstat f, RStat st); (Flock f, r)] ∧ as_unit r = Ok () ∧
    is_file st = true ∧ st_uid st = uid ∧ N.land (st_mode st) 63 = 0%N.

Lemma emits_lock path uid :
  emits (λ r tr, gentle_trace tr ∧ (is_ok r = true → lock_taken uid tr)) (startup_lock_acquire path uid).
Proof.
  unfold startup_lock_acquire. destruct (file_name path) as [name|]; [|apply emits_ret; split; [constructor|done]].
  eapply (emits_bind (λ _ tr, gentle_trace tr)); [unfold gentle_trace; by apply gently_cwd; intros; apply gently_libc|].
  intros [f|e] tr1 Htr1; [|apply emits_ret; rewrite app_nil_r; by split].
  eapply emits_bind; [apply (emits_libc (λ r tr, ∃ x, tr = [(Fstat f, x)] ∧ r = as_stat x)); eauto|].
  intros md tr2 (x & -> & ->).
  assert (H2 : gentle_trace (tr1 ++ [(Fstat f, x)])) by (apply Forall_app; split; [done|by repeat constructor]).
  destruct (as_stat x) as [st|e] eqn:Hx; [|apply emits_ret; rewrite app_nil_r; by split].
  destruct x as [| | |st'| |]; cbn in Hx; simplify_eq.
  destruct (_ || _) eqn:Hchk; [apply emits_ret; rewrite app_nil_r; by split|].
  eapply emits_bind; [apply (emits_libc (λ r tr, ∃ x, tr = [(Flock f, x)] ∧ r = as_unit x)); eauto|].
  intros a tr3 (y & -> & ->). apply emits_ret. rewrite app_nil_r. split.
  { rewrite (assoc_L (++)). apply Forall_app; split; [done|by repeat constructor]. }
  intros Hok. bool_prop. rewrite N.eqb_eq in *. exists tr1, f, st, y.
  destruct (as_unit y) as [[]|]; [|done]. repeat split; try done.
Qed.

(** After the listener is bound, a removal concerns only the socket that was
    found at its path. *)
Definition own_socket (path : str) (id : FileId) (d : FileId) (n : str) (removedir : bool) (st : stat) : Prop :=
  removedir = false ∧ n = path ∧ is_socket st = true ∧ st_id st = id.

Definition bound_trace (path : str) (tr : trace) : Prop :=
  tr = [] ∨ ∃ d r rest id, tr = (Bind d path, r) :: rest ∧ checked (own_socket path id) rest.

Lemma gentle_checked own tr : gentle_trace tr → checked own tr.
Proof.
  induction 1 as [|[c r] tr Hc _ IH]; [constructor|]. apply checked_other; [|done]. by destruct c.
Qed.

Lemma emits_drop_guard path st :
  emits (λ _ tr, checked (own_socket path (st_id st)) tr)
    (drop_socket_guard (mkSocketGuard path (st_dev st) (st_ino st))).
Proof.
  unfold drop_socket_guard. apply emits_cwd. intros cwd. cbn [sg_path].
  eapply (emits_bind (λ r tr, ∃ x, tr = [(Fstatat cwd path, x)] ∧ r = as_stat x)).
  { apply emits_libc. eauto. }
  intros r tr (x & -> & ->).
  destruct (as_stat x) as [st'|e] eqn:Hx; [|apply emits_ret; by repeat constructor].
  destruct x as [| | |st''| |]; cbn in Hx; simplify_eq.
  destruct (_ && _) eqn:Hm; [|apply emits_ret; by repeat constructor].
  bool_prop. rewrite N.eqb_eq in *. cbn in *.
  eapply emits_bind; [apply (emits_libc (λ _ tr, ∃ r, tr = [(Unlinkat cwd path false, r)])); eauto|].
  intros a tr (r & ->). apply emits_ret. rewrite app_nil_r. cbn. apply checked_unlink; [|constructor].
  unfold own_socket, st_id. repeat split; try done. congruence.
Qed.

(** A step that makes no calls. *)
Lemma emits_close {A} (G : A → trace → Prop) i (m : Sys A) :
  emits G m → emits G (_ ← close_listener i; m).
Proof. intros Hm w. rewrite sys_bind_run. cbn [fst snd]. apply (Hm (close_listener i w).2). Qed.

(** The calls so far: the bind, then gentle ones. *)
Definition bound_so_far (path : str) (tr : trace) : Prop :=
  ∃ d r rest, tr = (Bind d path, r) :: rest ∧ gentle_trace rest.
Definition bound_emits {A} (path : str) (pre : trace) (m : Sys A) : Prop :=
  emits (λ _ tr, bound_trace path (pre ++ tr)) m.

Lemma bound_emits_ret {A} path pre (a : A) : bound_so_far path pre → bound_emits path pre (mret a).
Proof.
  intros (d & r & rest & -> & Hrest). apply emits_ret. right. exists d, r, rest, (mkFileId 0 0).
  rewrite app_nil_r. split; [done|]. by apply gentle_checked.
Qed.

Lemma bound_emits_bind {A B} path pre (m : Sys A) (f : A → Sys B) :
  bound_so_far path pre → gently m →
  (∀ a pre', bound_so_far path pre' → bound_emits path pre' (f a)) →
  bound_emits path pre (m ≫= f).
Proof.
  intros (d & r & rest & -> & Hrest) Hm Hf. eapply emits_bind; [exact Hm|]. intros a tr Htr.
  eapply emits_mono; [apply (Hf a (((Bind d path, r) :: rest) ++ tr))|].
  - exists d, r, (rest ++ tr). split; [done|]. by apply Forall_app.
  - intros b tr2. by rewrite (assoc_L (++)).
Qed.

Lemma bound_emits_fail {A} path pre st i (e : A) :
  bound_so_far path pre →
  bound_emits path pre
    (_ ← drop_socket_guard (mkSocketGuard path (st_dev st) (st_ino st)); _ ← close_listener i; mret e).
Proof.
  intros (d & r & rest & -> & Hrest). eapply emits_bind; [apply emits_drop_guard|]. intros [] tr Htr.
  apply emits_close, emits_ret. rewrite app_nil_r. right. exists d, r, (rest ++ tr), (st_id st).
  split; [done|]. apply checked_app; [by apply gentle_checked|done].
Qed.

Lemma emits_bind_control path uid :
  emits (λ _ tr, bound_trace path tr) (bind_control_socket path uid).
Proof.
  unfold bind_control_socket.
  eapply (emits_bind (λ _ tr, bound_so_far path tr)).
  { unfold unix_listener_bind, listener_bind. apply emits_cwd. intros d.
    eapply emits_bind; [apply (emits_libc (λ _ tr, ∃ r, tr = [(Bind d path, r)])); eauto|].
    intros [i|e] tr (r & ->); [|apply emits_ret; exists d, r, []; by repeat constructor].
    eapply emits_bind; [apply (gently_libc as_unit (Listen i)); exact I|].
    intros a tr Htr. apply emits_ret. exists d, r, tr. by rewrite app_nil_r. }
  intros [listener|e] pre Hpre; [|by apply bound_emits_ret]. fold (@bound_emits (result anyhow (FileId * SocketGuard)) path pre).
  apply bound_emits_bind; [done|apply gently_symlink_metadata|]. clear dependent pre.
  intros [st|e] pre Hpre; [|by apply emits_close, bound_emits_ret].
  destruct (negb (is_socket st)); [by apply emits_close, bound_emits_ret|].
  apply bound_emits_bind; [done|unfold set_permissions; apply gently_cwd; intros; by apply gently_libc|].
  clear dependent pre. intros [[]|e] pre Hpre; [|by apply bound_emits_fail].
  apply bound_emits_bind; [done|apply gently_symlink_metadata|]. clear dependent pre.
  intros [st'|e] pre Hpre; [|by apply bound_emits_fail].
  destruct (_ || _); [by apply bound_emits_fail|by apply bound_emits_ret].
Qed.

(** The trace of a whole start-up: gentle calls, the lock among them, then the
    cleanup, then the control socket. *)
Definition startup_trace (path : str) (uid : N) (tr : trace) : Prop :=
  ∃ before during after, tr = before ++ during ++ after ∧ gentle_trace before ∧
    (during ++ after = [] ∨ ∃ locked rest, before = locked ++ rest ∧ lock_taken uid locked) ∧
    stale_checked uid during ∧ bound_trace path after.

Section startup.
Context {Fd : Type} `{ConfigFs Fd}.

Lemma gently_open_session_configs d : gently (open_session_configs d).
Proof.
  unfold open_session_configs. destruct (ds_create_mode d); [apply gently_ret|].
  destruct (ds_session_config_dir d); [|apply gently_ret]. apply gently_bind; [apply gently_normalize|].
  intros. apply gently_ret.
Qed.

Lemma stale_gently {A} uid (m : Sys A) : gently m → stale_emits uid m.
Proof.
  intros Hm. eapply emits_mono; [exact Hm|]. intros a tr Htr. apply stale_checked_quiet.
  eapply Forall_impl; [exact Htr|]. intros [c r]. by destruct c.
Qed.

Lemma stale_clear_control path uid : stale_emits uid (clear_control_path path uid).
Proof.
  unfold clear_control_path. apply stale_emits_bind; [apply stale_gently, gently_symlink_metadata|].
  intros [st|e]; [|apply stale_emits_ret]. destruct (is_socket st); [|apply stale_emits_ret].
  apply stale_emits_bind; [apply stale_emits_remove_socket|]. intros. apply stale_emits_ret.
Qed.

(** The cleanup and the bind, once the lock is held. *)
Lemma emits_after_lock fuel (config : DaemonConfig) (configs : option (SessionConfigStore Fd)) :
  let d := dc_daemon config in
  let uid := ds_trusted_operator_uid d in
  emits (λ _ tr, ∃ during after, tr = during ++ after ∧ stale_checked uid during ∧ bound_trace (ds_control_socket d) after)
    (r ← clear_control_path (ds_control_socket d) uid;
     match r with
     | Err e => mret (Some (Err e))
     | Ok _ =>
         r ← remove_stale_session_sockets fuel (ds_socket_dir d) uid;
         match r with
         | None => mret None
         | Some (Err e) => mret (Some (Err e))
         | Some (Ok _) =>
             bound ← bind_control_socket (ds_control_socket d) uid;
             mret (Some (match bound with
                         | Err e => Err e
                         | Ok (listener, guard) =>
                             Ok (mkBoundServer listener guard (initial_state config configs) (initial_world config))
                         end))
         end
     end).
Proof.
  intros d uid.
  assert (Hstop : ∀ tr, stale_checked uid tr →
    ∃ during after, tr = during ++ after ∧ stale_checked uid during ∧ bound_trace (ds_control_socket d) after).
  { intros tr Htr. exists tr, []. rewrite app_nil_r. repeat split; [done|by left]. }
  eapply emits_bind; [apply (stale_clear_control (ds_control_socket d) uid)|]. intros [[]|e] tr1 Htr1.
  2:{ apply emits_ret. rewrite app_nil_r. auto. }
  eapply emits_bind; [apply (stale_emits_remove_sockets uid)|]. intros [[[]|e]|] tr2 Htr2.
  2,3: apply emits_ret; rewrite app_nil_r; apply Hstop; by apply stale_checked_app.
  eapply emits_bind; [apply emits_bind_control|]. intros bound tr3 Htr3. apply emits_ret. rewrite app_nil_r.
  exists (tr1 ++ tr2), tr3. split; [by rewrite (assoc_L (++))|]. split; [by apply stale_checked_app|done].
Qed.

Lemma emits_server_bind fuel config :
  emits (λ _ tr, startup_trace (ds_control_socket (dc_daemon config)) (ds_trusted_operator_uid (dc_daemon config)) tr)
    (server_bind (Fd:=Fd) fuel config).
Proof.
  set (d := dc_daemon config). set (uid := ds_trusted_operator_uid d).
  assert (Hstop : ∀ tr, gentle_trace tr → startup_trace (ds_control_socket d) uid tr).
  { intros tr Htr. exists tr, [], []. rewrite !app_nil_r. repeat split; [done|by left|constructor|by left]. }
  unfold server_bind. fold d uid.
  eapply emits_bind; [apply gently_ensure_private|]. intros [[]|e] tr1 Htr1.
  2:{ apply emits_ret. rewrite app_nil_r. auto. }
  eapply emits_bind; [apply gently_ensure_private|]. intros [[]|e] tr2 Htr2.
  2:{ apply emits_ret. rewrite app_nil_r. apply Hstop. by apply Forall_app. }
  eapply emits_bind; [apply emits_lock|]. intros [lock|e] tr3 [Htr3 Hlock].
  2:{ apply emits_ret. rewrite app_nil_r. apply Hstop. apply Forall_app; split; [done|by apply Forall_app]. }
  eapply emits_bind; [apply gently_open_session_configs|]. intros [configs|e] tr4 Htr4.
  2:{ apply emits_ret. rewrite app_nil_r. apply Hstop. repeat (apply Forall_app; split; [done|]). done. }
  eapply emits_mono; [apply emits_after_lock|]. intros a tr5 (during & after & -> & Hd & Ha).
  exists (tr1 ++ tr2 ++ tr3 ++ tr4), during, after. split; [by rewrite !(assoc_L (++))|]. split.
  { repeat (apply Forall_app; split; [done|]). done. }
  split; [right|done]. destruct (Hlock eq_refl) as (pre & f & st & r & -> & Hr & Hst).
  exists (tr1 ++ tr2 ++ pre ++ [(Fstat f, RStat st); (Flock f, r)]), tr4. split; [by rewrite !(assoc_L (++))|].
  exists (tr1 ++ tr2 ++ pre), f, st, r. split; [by rewrite !(assoc_L (++))|done].
Qed.
End startup.

(** C28: in every environment, start-up removes and binds nothing before it
    holds the start-up lock, a file it saw to be regular and private to the
    operator; then it removes only sockets it checked to be stale; and after
    binding the control socket it removes at most the socket it found there. *)
Theorem startup_is_locked {Fd} `{ConfigFs Fd} fuel config w :
  ∃ tr, w_trace (server_bind (Fd:=Fd) fuel config w).2 = w_trace w ++ tr ∧
    startup_trace (ds_control_socket (dc_daemon config)) (ds_trusted_operator_uid (dc_daemon config)) tr.
Proof. apply emits_server_bind. Qed.
