(* ===== verification/StartupQuiet.v ===== *)
(** Start-up when nobody else acts (src/control/server.rs): the control socket
    it leaves behind, and the sockets of other daemons it leaves alone. *)

From S2P Require Import Prelude RustStr BTree PolicyTypes UrlPath DnsName Identifiers SessionDoc.
From S2P Require Import Secrets FileConfig SessionPolicy Telemetry ProxyRuntime Registry Reload.
From S2P Require Import AsyncIo ControlFrame ControlServer DaemonConfig.
From S2P Require Import RustPath PosixFs SocketDirs SocketLeases SocketRestore StaleSockets StaleSweep ControlStartup.
From stdpp Require Import options.
Local Open Scope char_scope.

(** ** Keeping names *)

(** The inodes whose names start-up must not take away: everything but
    sockets on which nobody listens. *)
Definition vital (k : inode_kind) : bool :=
  match k with Socket listening => listening | _ => true end.

Record kept (fs fs' : Fs) : Prop := {
  kept_sound : sound fs';
  kept_names : keeps vital fs fs';
}.

Lemma vital_stable : stable_kinds vital.
Proof. intros [[] ? ?] [[] ? ?] [_ Hk]; cbn in *; naive_solver. Qed.

Lemma vital_walk k : match k with Directory _ _ _ | Symlink _ => vital k = true | _ => True end.
Proof. by destruct k. Qed.

Lemma kept_refl fs : sound fs → kept fs fs.
Proof. by split. Qed.
Lemma kept_trans fs1 fs2 fs3 : kept fs1 fs2 → kept fs2 fs3 → kept fs1 fs3.
Proof. intros [] []. split; [done|]. by eapply keeps_trans; [apply vital_stable|..]. Qed.

(** [protects m]: run without disturbance, [m] keeps every vital name. *)
Definition protects {A} (m : Sys A) : Prop :=
  ∀ p fs tr, sound fs → ∃ a fs' tr', m (mkWorld p fs [] tr) = (a, mkWorld p fs' [] tr') ∧ kept fs fs'.

Lemma protects_ret {A} (a : A) : protects (mret a).
Proof. intros p fs tr Hs. exists a, fs, tr. split; [done|by apply kept_refl]. Qed.

Lemma protects_bind {A B} (m : Sys A) (f : A → Sys B) :
  protects m → (∀ a, protects (f a)) → protects (m ≫= f).
Proof.
  intros Hm Hf p fs tr Hs. destruct (Hm p fs tr Hs) as (a & fs1 & tr1 & Hrun1 & Hk1).
  destruct (Hf a p fs1 tr1 (kept_sound _ _ Hk1)) as (b & fs2 & tr2 & Hrun2 & Hk2).
  exists b, fs2, tr2. split; [|by eapply kept_trans]. rewrite sys_bind_run, Hrun1. done.
Qed.

Lemma protects_cwd {A} (f : FileId → Sys A) : (∀ cwd, protects (f cwd)) → protects (with_cwd f).
Proof. intros Hf p fs tr Hs. by apply (Hf (p_cwd p)). Qed.

Lemma do_call_quiet p fs tr c :
  do_call c (mkWorld p fs [] tr)
  = ((exec p fs c).1, mkWorld p (exec p fs c).2 [] (tr ++ [(c, (exec p fs c).1)])).
Proof. unfold do_call. cbn [w_schedule ev_interfere ev_fault w_fs w_proc w_trace id]. by destruct (exec p fs c). Qed.

Lemma protects_call c :
  (∀ p fs, sound fs → kept fs (exec p fs c).2) → protects (do_call c).
Proof. intros Hc p fs tr Hs. do 3 eexists. split; [apply do_call_quiet|]. by apply Hc. Qed.

Lemma protects_libc {A} (view : sysret → result errno A) c :
  (∀ p fs, sound fs → kept fs (exec p fs c).2) → protects (libc view c).
Proof. intros Hc. apply protects_bind; [by apply protects_call|]. intros. apply protects_ret. Qed.

(** ** The calls *)

Lemma same_node_kind a b : same_node a b → same_kind a b.
Proof. intros (? & ? & ?). by split. Qed.

Lemma create_kept fs d n nd i fs' :
  sound fs → create_inode d n nd fs = (i, fs') → directory_at fs d → entries_of fs d !! n = None →
  match i_kind nd with Directory es _ _ => es = ∅ | _ => True end → kept fs fs'.
Proof.
  intros Hs Hc Hd Hn Hnd.
  destruct (create_inode_spec _ _ _ _ _ _ Hc Hd Hnd) as (Hf & Hne & Hroot & Hnode & Hsame & _ & Hent).
  split.
  - intros e m j. rewrite Hent. destruct (decide (e = d ∧ m = n)); [intros [= <-]; by rewrite Hnode|].
    intros Hj. destruct (Hs e m j Hj) as [nj Hnj]. destruct (Hsame j nj Hnj) as (nj' & -> & _). done.
  - split; [done| |].
    + intros j nj Hj. destruct (Hsame j nj Hj) as (nj' & ? & ?). exists nj'. split; [done|]. by apply same_node_kind.
    + intros e m j nj Hj _ _. rewrite Hent. destruct (decide (e = d ∧ m = n)) as [[-> ->]|]; [congruence|done].
Qed.

Lemma exec_create_kept fs e nd d path :
  sound fs → (∀ dir, match i_kind (nd dir) with Directory es _ _ => es = ∅ | _ => True end) →
  kept fs (exec_create fs e nd d path).2.
Proof.
  intros Hs Hnd. unfold exec_create. destruct (namei fs false d path) as [[dir n [j|]|dir]|err] eqn:Hw;
    try (by apply kept_refl).
  destruct (is_dead fs dir); [by apply kept_refl|].
  destruct (namei_end _ _ _ _ _ _ _ Hw) as [Hn Hd].
  destruct (create_inode dir n (nd dir) fs) as [i fs'] eqn:Hc.
  eapply create_kept; [done|exact Hc|done|done|apply Hnd].
Qed.

Lemma update_perm_kept fs i mode : sound fs → kept fs (update_inode (set_perm mode) i fs).
Proof.
  intros Hs.
  assert (Hent : ∀ e, entries_of (update_inode (set_perm mode) i fs) e = entries_of fs e).
  { intros e. unfold entries_of at 1. rewrite lookup_update_inode. unfold entries_of.
    destruct (decide (e = i)) as [->|]; [|done]. by destruct (fs_inodes fs !! i) as [[[] ? ?]|]. }
  split.
  - intros e m j. rewrite Hent. intros Hj. rewrite lookup_update_inode. destruct (Hs e m j Hj) as [nj Hnj].
    destruct (decide (j = i)) as [->|]; by rewrite Hnj.
  - split; [done| |intros; by rewrite Hent].
    intros j nj Hj. rewrite lookup_update_inode. destruct (decide (j = i)) as [->|]; [|by exists nj].
    rewrite Hj. eexists. split; [done|]. by destruct nj as [[] ? ?].
Qed.

(** Calls that only look, create or change permissions. *)
Definition mild (c : syscall) : Prop :=
  match c with Unlinkat _ _ _ | Bind _ _ | Listen _ | Write _ _ | Link _ _ _ => False | _ => True end.

Lemma mild_kept p fs c : mild c → sound fs → kept fs (exec p fs c).2.
Proof.
  intros Hc Hs. destruct c; try done; cbn; try (by apply kept_refl).
  - unfold exec_open_create. destruct (namei fs false at_dir path) as [[dir n [j|]|dir]|err] eqn:Hw;
      try (by apply kept_refl); try (by apply exec_create_kept).
    destruct (i_kind <$> fs_inodes fs !! j) as [[]|]; by apply kept_refl.
  - match goal with |- context [exec_create fs ?e ?nd ?d ?q] =>
      pose proof (exec_create_kept fs e nd d q Hs (λ _, eq_refl)) as Hk; destruct (exec_create fs e nd d q) as [[] ?] end;
      done.
  - by apply update_perm_kept.
  - unfold exec_chmod. destruct (resolve fs true at_dir path); [by apply update_perm_kept|by apply kept_refl].
  - destruct (i_kind <$> fs_inodes fs !! fd) as [[]|]; by apply kept_refl.
  - by apply exec_create_kept.
Qed.

Lemma protects_mild {A} (view : sysret → result errno A) c : mild c → protects (libc view c).
Proof. intros Hc. apply protects_libc. intros. by apply mild_kept. Qed.

(** ** The steps of start-up *)

Ltac protects_step :=
  match goal with
  | |- protects (mret _) => apply protects_ret
  | |- protects (libc _ _) => apply protects_mild; exact I
  | |- protects (with_cwd _) => apply protects_cwd; intros ?
  | |- protects (_ ≫= _) => apply protects_bind; [|intros ?]
  | |- protects (match ?x with _ => _ end) => destruct x
  | |- protects (let '_ := ?x in _) => destruct x
  end.
Create HintDb protects.
Ltac protects_solve := repeat (protects_step; try assumption; try (by auto with protects)).

Lemma protects_symlink_metadata path : protects (symlink_metadata path).
Proof. unfold symlink_metadata. protects_solve. Qed.
#[local] Hint Resolve protects_symlink_metadata : protects.
Lemma protects_normalize path : protects (normalize_system_path path).
Proof. unfold normalize_system_path. protects_solve. Qed.
#[local] Hint Resolve protects_normalize : protects.

Lemma protects_ensure_components cs : ∀ current, protects (ensure_components current cs).
Proof.
  induction cs as [|c cs IH]; intros current; cbn [ensure_components]; [apply protects_ret|].
  unfold create_dir, set_permissions. protects_solve.
Qed.
#[local] Hint Resolve protects_ensure_components : protects.

Lemma protects_ensure_private path uid : protects (ensure_private_directory path uid).
Proof. unfold ensure_private_directory, current_dir. protects_solve. Qed.
Lemma protects_lock path uid : protects (startup_lock_acquire path uid).
Proof. unfold startup_lock_acquire. protects_solve. Qed.
Lemma protects_open_directory path : protects (open_socket_directory path).
Proof. unfold open_socket_directory. protects_solve. Qed.
Lemma protects_stat_at d n : protects (stat_at d n).
Proof. unfold stat_at. protects_solve. Qed.
#[local] Hint Resolve protects_ensure_private protects_lock protects_open_directory protects_stat_at : protects.

(** What [stat_at] and the probe answer in a quiet world. *)
Lemma stat_at_quiet p fs tr d n :
  ∃ tr', stat_at d n (mkWorld p fs [] tr) =
    (match resolve fs false d n ≫= stat_inode fs with
     | Ok st => Ok (Some st)
     | Err e => if decide (errno_kind e = NotFound) then Ok None else Err (OsError e)
     end, mkWorld p fs [] tr').
Proof.
  unfold stat_at, libc. rewrite !sys_bind_run, do_call_quiet. cbn [fst snd exec].
  destruct (resolve fs false d n ≫= stat_inode fs); by eexists.
Qed.

Lemma resolve_stat fs d n st :
  resolve fs false d n ≫= stat_inode fs = Ok st →
  ∃ i nd, resolve fs false d n = Ok i ∧ fs_inodes fs !! i = Some nd ∧ st = stat_of i nd.
Proof.
  destruct (resolve fs false d n) as [i|e]; [|done]. cbn. unfold stat_inode.
  destruct (fs_inodes fs !! i) as [nd|] eqn:Hi; [|done]. intros [= <-]. eauto.
Qed.

(** A socket nobody listens on: its name may go. *)
Lemma unlink_kept p fs d n i u perm :
  sound fs → resolve fs false d n = Ok i → fs_inodes fs !! i = Some (mkInode (Socket false) u perm) →
  kept fs (exec p fs (Unlinkat d n false)).2.
Proof.
  intros Hs Hr Hi. cbn. unfold exec_unlink. unfold resolve in Hr.
  destruct (namei fs false d n) as [[dir m [j|]|dir]|e] eqn:Hw; cbn in Hr; simplify_eq; try (by apply kept_refl).
  rewrite Hi. cbn. destruct (namei_end _ _ _ _ _ _ _ Hw) as [Hent Hd]. split.
  - intros e m' j. rewrite entries_of_unlinked. destruct (decide (e = dir ∧ m' = m)); [done|]. intros Hj.
    rewrite lookup_update_inode. destruct (Hs _ _ _ Hj) as [nj Hnj]. destruct (decide (j = dir)) as [->|]; by rewrite Hnj.
  - split; [done| |].
    + intros j nj Hj. rewrite lookup_update_inode. destruct (decide (j = dir)) as [->|]; [|by exists nj].
      rewrite Hj. eexists. split; [done|]. apply same_node_kind, same_node_set_entries.
    + intros e m' j nj Hj Hnj Hv. rewrite entries_of_unlinked. destruct (decide (e = dir ∧ m' = m)) as [[-> ->]|]; [|done].
      exfalso. rewrite Hent in Hj. by simplify_eq.
Qed.

Lemma protects_remove_at d n uid : protects (remove_stale_socket_at d n uid).
Proof.
  intros p fs tr Hs. unfold remove_stale_socket_at, remove_stale_socket_at_with_probe.
  assert (Hsame : ∀ (b : result anyhow bool) tr', ∃ a fs' tr'', (b, mkWorld p fs [] tr') = (a, mkWorld p fs' [] tr'') ∧ kept fs fs').
  { intros b tr'. do 3 eexists. split; [done|by apply kept_refl]. }
  rewrite sys_bind_run. destruct (stat_at_quiet p fs tr d n) as [tr1 Hst]. rewrite Hst. cbn [fst snd].
  destruct (resolve fs false d n ≫= stat_inode fs) as [st|e] eqn:Hres;
    [|destruct (decide (errno_kind e = NotFound)); apply Hsame].
  destruct (resolve_stat _ _ _ _ Hres) as (i & nd & Hri & Hi & ->).
  destruct (negb (is_socket (stat_of i nd)) || _) eqn:Hsk; [apply Hsame|]. bool_prop.
  rewrite is_socket_stat_of in *. destruct nd as [[|b| |] u perm]; try done.
  rewrite sys_bind_run. unfold probe_pinned_socket, probe_socket_path, libc.
  rewrite !sys_bind_run, do_call_quiet. cbn [fst snd exec]. cbv [mret sys_ret]. cbn [fst snd].
  assert (Hun : probe_answer (as_unit (ret_of (λ _, RUnit) (resolve fs true d n ≫= connect fs))) = Ok Stale →
    kept fs (exec p fs (Unlinkat d n false)).2).
  { intros Hstale. destruct b; [|by eapply unlink_kept]. unfold resolve in Hri.
    destruct (namei fs false d n) as [[dir m [j|]|dir]|e] eqn:Hw; cbn in Hri; simplify_eq.
    - exfalso. unfold resolve in Hstale. rewrite (namei_follow _ _ _ _ _ _ Hw) in Hstale.
      + cbn in Hstale. unfold connect in Hstale. by rewrite Hi in Hstale.
      + intros k t [= <-]. by rewrite Hi.
    - cbn. unfold exec_unlink. rewrite Hw. by apply kept_refl. }
  destruct (probe_answer _) as [[]|e]; [apply Hsame| |apply Hsame|apply Hsame].
  rewrite sys_bind_run. destruct (stat_at_quiet p fs (tr1 ++ [(Connect d n, ret_of (λ _, RUnit) (resolve fs true d n ≫= connect fs))]) d n)
    as [tr2 Hst2]. rewrite Hst2, Hres. cbn [fst snd].
  destruct (_ || negb (same_id _ _)); [apply Hsame|].
  unfold libc. rewrite !sys_bind_run, do_call_quiet. do 3 eexists. split; [done|]. by apply Hun.
Qed.

Lemma protects_remove_socket path uid : protects (remove_stale_socket path uid).
Proof. pose proof protects_remove_at. unfold remove_stale_socket. protects_solve. Qed.

Lemma protects_clear_control path uid : protects (clear_control_path path uid).
Proof. pose proof protects_remove_socket. unfold clear_control_path. protects_solve. Qed.

Lemma protects_clean_entries recurse d uid names :
  (∀ c, protects (recurse c)) → protects (clean_entries recurse d uid names).
Proof.
  intros Hrec. pose proof protects_remove_at. induction names as [|n names IH]; cbn [clean_entries]; [apply protects_ret|].
  apply protects_bind; [unfold clean_entry; protects_solve|]. intros ?. protects_solve.
Qed.

Lemma protects_sweep fuel uid : ∀ d, protects (remove_stale_session_sockets_at fuel uid d).
Proof.
  induction fuel as [|fuel IH]; intros d; cbn [remove_stale_session_sockets_at]; [apply protects_ret|].
  apply protects_bind; [unfold directory_entry_names, sys_try; protects_solve|].
  intros [names|e]; [by apply protects_clean_entries|apply protects_ret].
Qed.

Lemma protects_sweep_directory fuel dir uid : protects (remove_stale_session_sockets fuel dir uid).
Proof. pose proof protects_sweep. unfold remove_stale_session_sockets. protects_solve. Qed.

(** ** The control socket *)

Lemma linked_keeps imp fs fs' d n i nd :
  linked fs fs' d n i nd → entries_of fs d !! n = None → keeps imp fs fs'.
Proof.
  intros Hl Hn. split; [apply (lk_root _ _ _ _ _ _ Hl)| |].
  - intros j nj Hj. destruct (lk_same _ _ _ _ _ _ Hl j nj Hj) as (nj' & ? & ?). exists nj'.
    split; [done|]. by apply same_node_kind.
  - intros e m j nj Hj _ _. rewrite (lk_entries _ _ _ _ _ _ Hl).
    destruct (decide (e = d ∧ m = n)) as [[-> ->]|]; [congruence|done].
Qed.

Lemma namei_linked fs fs' d0 path d n i nd :
  sound fs → linked fs fs' d n i nd → namei fs false d0 path = Ok (AtName d n None) →
  namei fs' false d0 path = Ok (AtName d n (Some i)).
Proof.
  intros Hs Hl Hw. destruct (namei_end _ _ _ _ _ _ _ Hw) as [Hn _]. unfold namei in *.
  destruct (decide (path = [])); [discriminate Hw|]. rewrite (lk_root _ _ _ _ _ _ Hl).
  rewrite (walk_keeps (λ _, true) fs fs' false) with (r := AtName d n None); [| |by eapply linked_keeps|done|done|done|done].
  - cbn. rewrite (lk_entries _ _ _ _ _ _ Hl). by rewrite decide_True.
  - intros []; done.
Qed.

(** Taking the name away again restores every inode. *)
Lemma linked_restore fs fs' d n i nd g :
  linked fs fs' d n i nd → entries_of fs d !! n = None →
  fs_inodes fs ⊆ fs_inodes (update_inode g i (update_inode (set_entries (delete n)) d fs')).
Proof.
  intros Hl Hn. apply map_subseteq_spec. intros j nj Hj.
  assert (j ≠ i) by (intros ->; rewrite (lk_fresh _ _ _ _ _ _ Hl) in Hj; done).
  rewrite lookup_update_inode, decide_False by done. rewrite lookup_update_inode.
  destruct (decide (j = d)) as [->|]; [|by rewrite (lk_other _ _ _ _ _ _ Hl)].
  destruct (lk_same _ _ _ _ _ _ Hl d nj Hj) as (nj' & Hnj' & Hu & Hp & Hk). rewrite Hnj'. cbn. f_equal.
  pose proof (lk_entries _ _ _ _ _ _ Hl d) as Hent. unfold entries_of in Hent, Hn. rewrite Hnj', Hj in Hent.
  rewrite Hj in Hn. destruct nj as [k u q], nj' as [k' u' q']. cbn in *. subst.
  destruct k as [es ? ?| | |], k' as [es' ? ?| | |]; try done; try (by simplify_eq).
  destruct Hk as [-> ->]. cbn in *. do 2 f_equal. apply map_eq. intros m. rewrite lookup_delete.
  destruct (decide (n = m)) as [<-|Hne]; [done|]. rewrite (Hent m). by rewrite decide_False by naive_solver.
Qed.

Section control_socket.
Context (p : process) (fs : Fs) (path : str) (d : FileId) (n : str).
Hypothesis Hsound : sound fs.
Hypothesis Hpath : namei fs false (p_cwd p) path = Ok (AtName d n None).
Hypothesis Halive : is_dead fs d = false.

Lemma bind_path_runs : ∃ i fs1,
  linked fs fs1 d n i (mkInode (Socket true) (p_euid p) (N.ldiff 511 (p_umask p))) ∧
  runs p fs (unix_listener_bind path) (Ok i) fs1.
Proof using Type*.
  destruct (namei_end _ _ _ _ _ _ _ Hpath) as [Hn Hd].
  set (nd := mkInode (Socket false) (p_euid p) (N.ldiff 511 (p_umask p))).
  destruct (create_inode d n nd fs) as [i fs1] eqn:Hcr.
  assert (Hl1 : linked fs fs1 d n i nd).
  { destruct (create_inode_spec _ _ _ _ _ _ Hcr Hd I) as (? & ? & ? & ? & ? & ? & ?). done. }
  exists i, (update_inode (set_listening true) i fs1).
  split; [by apply (linked_update _ _ _ _ _ _ (set_listening true) Hl1)|].
  intros tr. unfold unix_listener_bind, with_cwd, listener_bind.
  eapply (runs_bind p fs fs1 _ _ _ (Ok i)); [|eapply runs_bind; [by apply runs_libc|apply runs_ret]].
  apply (runs_libc p fs fs1 (Bind (p_cwd p) path) as_fd (RFd i)).
  change (exec_create fs EADDRINUSE (λ _, nd) (p_cwd p) path = (RFd i, fs1)). unfold exec_create.
  by rewrite Hpath, Halive, Hcr.
Qed.

Lemma metadata_runs fs' i nd :
  linked fs fs' d n i nd → runs p fs' (symlink_metadata path) (Ok (stat_of i nd)) fs'.
Proof using Type*.
  intros Hl tr. apply (runs_libc p fs' fs' (Fstatat (p_cwd p) path) as_stat (RStat (stat_of i nd))). cbn.
  unfold resolve. rewrite (namei_linked _ _ _ _ _ _ _ _ Hsound Hl Hpath). cbn. unfold stat_inode.
  by rewrite (lk_node _ _ _ _ _ _ Hl).
Qed.

Lemma restrict_runs fs' i nd mode :
  linked fs fs' d n i nd → is_socket_kind (i_kind nd) = true →
  runs p fs' (set_permissions path mode) (Ok ()) (update_inode (set_perm mode) i fs').
Proof using Type*.
  intros Hl Hk tr. apply (runs_libc p fs' _ (Fchmodat (p_cwd p) path mode) as_unit RUnit). cbn.
  unfold resolve. rewrite (namei_follow _ _ _ _ _ _ (namei_linked _ _ _ _ _ _ _ _ Hsound Hl Hpath)); [done|].
  intros j t [= <-]. rewrite (lk_node _ _ _ _ _ _ Hl). cbn. intros [= Ht]. by rewrite Ht in Hk.
Qed.

Lemma drop_socket_guard_runs fs' i nd :
  linked fs fs' d n i nd → is_socket_kind (i_kind nd) = true →
  runs p fs' (drop_socket_guard (mkSocketGuard path (id_dev i) (id_ino i))) ()
    (update_inode (set_entries (delete n)) d fs').
Proof using Type*.
  intros Hl Hk. pose proof (namei_linked _ _ _ _ _ _ _ _ Hsound Hl Hpath) as Hw.
  intros tr. unfold drop_socket_guard, with_cwd. cbn [sg_path sg_device sg_inode].
  eapply (runs_bind p fs' fs' _ _ _ (Ok (stat_of i nd))).
  { apply (runs_libc p fs' fs' (Fstatat (p_cwd p) path) as_stat (RStat (stat_of i nd))). cbn.
    unfold resolve. rewrite Hw. cbn. unfold stat_inode. by rewrite (lk_node _ _ _ _ _ _ Hl). }
  rewrite is_socket_stat_of, Hk. cbn. rewrite !N.eqb_refl. cbn. eapply runs_bind; [|apply runs_ret].
  apply (runs_libc p fs' _ (Unlinkat (p_cwd p) path false) as_unit RUnit). cbn. unfold exec_unlink. rewrite Hw.
  rewrite (lk_node _ _ _ _ _ _ Hl). cbn. by destruct (i_kind nd).
Qed.

Lemma bind_control_runs uid :
  ∃ i fs', linked fs fs' d n i (mkInode (Socket true) (p_euid p) 384) ∧
    if decide (p_euid p = uid)
    then runs p fs (bind_control_socket path uid) (Ok (i, mkSocketGuard path (id_dev i) (id_ino i))) fs'
    else runs p fs (bind_control_socket path uid)
           (Err "bound control socket has unexpected owner or permissions"%string)
           (update_inode (set_listening false) i (update_inode (set_entries (delete n)) d fs')).
Proof using Type*.
  destruct bind_path_runs as (i & fs1 & Hl1 & Hbind).
  pose proof (linked_update _ _ _ _ _ _ (set_perm 384) Hl1 I) as Hl2.
  change (set_perm 384 _) with (mkInode (Socket true) (p_euid p) 384) in Hl2.
  exists i, (update_inode (set_perm 384) i fs1). split; [done|].
  assert (Hrun : ∀ r fs2,
    runs p (update_inode (set_perm 384) i fs1)
      (if negb (p_euid p =? uid)%N
       then _ ← drop_socket_guard (mkSocketGuard path (id_dev i) (id_ino i)); _ ← close_listener i;
            mret (Err "bound control socket has unexpected owner or permissions"%string)
       else mret (Ok (i, mkSocketGuard path (id_dev i) (id_ino i)))) r fs2 →
    runs p fs (bind_control_socket path uid) r fs2).
  { intros r fs2 Hr. unfold bind_control_socket. eapply runs_bind; [exact Hbind|]. cbn.
    eapply runs_bind; [by apply metadata_runs|]. cbn. rewrite is_socket_stat_of. cbn.
    eapply runs_bind; [by eapply restrict_runs|]. cbn. eapply runs_bind; [by apply metadata_runs|]. cbn.
    rewrite is_socket_stat_of. cbn. rewrite orb_false_r. exact Hr. }
  destruct (decide (p_euid p = uid)) as [<-|Hne]; apply Hrun.
  - rewrite N.eqb_refl. apply runs_ret.
  - rewrite (proj2 (N.eqb_neq _ _) Hne). cbn. eapply runs_bind; [by eapply drop_socket_guard_runs|].
    eapply runs_bind; [apply close_listener_runs|apply runs_ret].
Qed.
End control_socket.

Lemma protects_runs {A} p fs tr (m : Sys A) a fs' :
  runs p fs m a fs' → kept fs fs' →
  ∃ a fs' tr', m (mkWorld p fs [] tr) = (a, mkWorld p fs' [] tr') ∧ kept fs fs'.
Proof. intros Hr Hk. destruct (Hr tr) as [tr' Heq]. eauto 10. Qed.

(** A path that is taken, or whose directory is gone, cannot be bound. *)
Lemma bind_control_refused p fs path uid :
  (∀ d n, namei fs false (p_cwd p) path = Ok (AtName d n None) → is_dead fs d = true) →
  runs p fs (bind_control_socket path uid) (Err "could not bind control socket"%string) fs.
Proof.
  intros Hno. unfold bind_control_socket.
  assert (Hb : ∃ e, exec p fs (Bind (p_cwd p) path) = (RErr e, fs)).
  { change (∃ e, exec_create fs EADDRINUSE
              (λ _, mkInode (Socket false) (p_euid p) (N.ldiff 511 (p_umask p))) (p_cwd p) path = (RErr e, fs)).
    unfold exec_create. destruct (namei fs false (p_cwd p) path) as [[d n [j|]|d]|e] eqn:Hw; eauto.
    rewrite (Hno d n eq_refl). eauto. }
  destruct Hb as [e Hb]. eapply (runs_bind p fs fs _ _ _ (Err e)); [|apply runs_ret].
  intros tr. unfold unix_listener_bind, with_cwd, listener_bind.
  eapply (runs_bind p fs fs _ _ _ (Err e)); [|apply runs_ret].
  by apply (runs_libc p fs fs (Bind (p_cwd p) path) as_fd (RErr e)).
Qed.

Lemma protects_bind_control path uid : protects (bind_control_socket path uid).
Proof.
  intros p fs tr Hs.
  destruct (namei fs false (p_cwd p) path) as [[d n [j|]|d]|e] eqn:Hw;
    try (eapply protects_runs; [apply bind_control_refused; congruence|by apply kept_refl]).
  destruct (is_dead fs d) eqn:Hdead.
  { eapply protects_runs; [apply bind_control_refused; intros; congruence|by apply kept_refl]. }
  destruct (namei_end _ _ _ _ _ _ _ Hw) as [Hn _].
  destruct (bind_control_runs p fs path d n Hs Hw Hdead uid) as (i & fs' & Hl & Hrun).
  assert (Hold : ∀ j, is_Some (fs_inodes fs !! j) → is_Some (fs_inodes fs' !! j)).
  { intros j [nj Hj]. destruct (lk_same _ _ _ _ _ _ Hl j nj Hj) as (? & -> & _). done. }
  destruct (decide (p_euid p = uid)) as [Hu|Hu].
  - eapply protects_runs; [exact Hrun|]. split; [|by eapply linked_keeps].
    intros e m j. rewrite (lk_entries _ _ _ _ _ _ Hl). destruct (decide _); [intros [= <-]|].
    + by rewrite (lk_node _ _ _ _ _ _ Hl).
    + intros Hj. apply Hold. by eapply Hs.
  - eapply protects_runs; [exact Hrun|]. clear Hrun.
    set (fs2 := update_inode (set_listening false) i (update_inode (set_entries (delete n)) d fs')).
    pose proof (linked_restore _ _ _ _ _ _ (set_listening false) Hl Hn) as Hsub. fold fs2 in Hsub.
    assert (Hent : ∀ e m, entries_of fs2 e !! m = entries_of fs e !! m).
    { intros e m. unfold fs2. rewrite entries_of_listening, entries_of_unlinked, (lk_entries _ _ _ _ _ _ Hl).
      destruct (decide (e = d ∧ m = n)) as [[-> ->]|]; congruence. }
    split.
    + intros e m j Hj. rewrite Hent in Hj. destruct (Hs e m j Hj) as [nj Hnj]. exists nj.
      by eapply lookup_weaken.
    + split; [apply (lk_root _ _ _ _ _ _ Hl)| |intros; by rewrite Hent].
      intros j nj Hj. exists nj. split; [by eapply lookup_weaken|done].
Qed.

Section whole_startup.
Context {Fd : Type} `{ConfigFs Fd}.

Lemma protects_open_session_configs d : protects (open_session_configs d).
Proof.
  unfold open_session_configs. destruct (ds_create_mode d); [apply protects_ret|].
  destruct (ds_session_config_dir d); [|apply protects_ret]. apply protects_bind; [apply protects_normalize|].
  intros. apply protects_ret.
Qed.

(** A path that leads to something vital keeps leading there. *)
Definition taken (p : process) (path : str) (fs : Fs) : Prop :=
  sound fs ∧ ∃ i ni, resolve fs false (p_cwd p) path = Ok i ∧ fs_inodes fs !! i = Some ni ∧ vital (i_kind ni) = true.

Lemma taken_kept p path fs fs' : kept fs fs' → taken p path fs → taken p path fs'.
Proof.
  intros [Hs' Hk] (Hs & i & ni & Hr & Hni & Hv). split; [done|].
  destruct (kp_node _ _ _ Hk i ni Hni) as (ni' & Hni' & Hsame). exists i, ni'. split; [|split; [done|]].
  - eapply resolve_keeps; [apply vital_walk|exact Hk|exact Hs|exact Hr|exact Hni|exact Hv].
  - by rewrite <- (vital_stable _ _ Hsame).
Qed.

(** [refuses m]: while the path is taken, [m] does not answer with a server. *)
Definition refuses p path (m : Sys (option (result anyhow (BoundServer (Fd:=Fd))))) : Prop :=
  ∀ fs tr, taken p path fs → ∀ s, (m (mkWorld p fs [] tr)).1 ≠ Some (Ok s).

Lemma refuses_bind {A} p path (m : Sys A) f :
  protects m → (∀ a, refuses p path (f a)) → refuses p path (m ≫= f).
Proof.
  intros Hm Hf fs tr Ht s. destruct (Hm p fs tr (proj1 Ht)) as (a & fs' & tr' & Hrun & Hk).
  rewrite sys_bind_run, Hrun. cbn [fst snd]. apply Hf. by eapply taken_kept.
Qed.

Lemma refuses_error p path e : refuses p path (mret (Some (Err e))).
Proof. by intros fs tr _ s. Qed.

Lemma server_bind_refuses p fuel config :
  refuses p (ds_control_socket (dc_daemon config)) (server_bind fuel config).
Proof.
  unfold server_bind. apply refuses_bind; [apply protects_ensure_private|]. intros [[]|e]; [|apply refuses_error].
  apply refuses_bind; [apply protects_ensure_private|]. intros [[]|e]; [|apply refuses_error].
  apply refuses_bind; [apply protects_lock|]. intros [lock|e]; [|apply refuses_error].
  apply refuses_bind; [apply protects_open_session_configs|]. intros [configs|e]; [|apply refuses_error].
  apply refuses_bind; [apply protects_clear_control|]. intros [[]|e]; [|apply refuses_error].
  apply refuses_bind; [apply protects_sweep_directory|]. intros [[[]|e]|]; [|apply refuses_error|by intros ? ? ? ?].
  intros fs tr (Hs & i & ni & Hr & _) s. rewrite sys_bind_run.
  destruct (bind_control_refused p fs (ds_control_socket (dc_daemon config))
              (ds_trusted_operator_uid (dc_daemon config))) with (tr := tr) as [tr' ->]; [|done].
  intros d n Hw. unfold resolve in Hr. rewrite Hw in Hr. discriminate Hr.
Qed.

Lemma server_bind_protects fuel config : protects (server_bind (Fd:=Fd) fuel config).
Proof.
  pose proof protects_open_session_configs. pose proof protects_clear_control.
  pose proof protects_sweep_directory. pose proof protects_bind_control.
  unfold server_bind. protects_solve.
Qed.
End whole_startup.

(** When nobody else acts and no call fails, start-up takes away only names
    of sockets on which nobody listens: every other name keeps leading to the
    same inode, of the same owner and kind; and while the control path leads to
    a listening socket (or to anything but a dead socket), start-up fails. *)
Theorem live_sockets_kept {Fd} `{ConfigFs Fd} p fs tr fuel config :
  sound fs →
  let res := server_bind (Fd:=Fd) fuel config (mkWorld p fs [] tr) in
  (∀ d n i ni, entries_of fs d !! n = Some i → fs_inodes fs !! i = Some ni → vital (i_kind ni) = true →
     entries_of (w_fs res.2) d !! n = Some i ∧
     ∃ ni', fs_inodes (w_fs res.2) !! i = Some ni' ∧ same_kind ni ni') ∧
  (∀ i ni, resolve fs false (p_cwd p) (ds_control_socket (dc_daemon config)) = Ok i →
     fs_inodes fs !! i = Some ni → vital (i_kind ni) = true → ∀ s, res.1 ≠ Some (Ok s)).
Proof.
  intros Hs res. split.
  - destruct (server_bind_protects (Fd:=Fd) fuel config p fs tr Hs) as (a & fs' & tr' & Hrun & [_ Hk]).
    unfold res. rewrite Hrun. cbn. intros d n i ni Hi Hni Hv. split; [by eapply (kp_entries _ _ _ Hk)|].
    by apply (kp_node _ _ _ Hk).
  - intros i ni Hr Hni Hv. apply server_bind_refuses. split; [done|]. eauto.
Qed.

(** On a free control path the listener is bound there, listening and
    restricted to its owner; when the daemon runs as the trusted operator,
    binding succeeds with a guard for that socket, and dropping the guard
    restores every inode; when it runs as anybody else, binding fails and has
    restored them itself. *)
Theorem control_socket_bound p fs path d n uid tr :
  sound fs → namei fs false (p_cwd p) path = Ok (AtName d n None) → is_dead fs d = false →
  let res := bind_control_socket path uid (mkWorld p fs [] tr) in
  if decide (p_euid p = uid)
  then ∃ i guard, res.1 = Ok (i, guard) ∧
    namei (w_fs res.2) false (p_cwd p) path = Ok (AtName d n (Some i)) ∧
    fs_inodes (w_fs res.2) !! i = Some (mkInode (Socket true) uid 384) ∧
    fs_inodes fs ⊆ fs_inodes (w_fs (drop_socket_guard guard res.2).2)
  else is_ok res.1 = false ∧ fs_inodes fs ⊆ fs_inodes (w_fs res.2).
Proof.
  intros Hs Hw Hdead. destruct (namei_end _ _ _ _ _ _ _ Hw) as [Hn _].
  destruct (bind_control_runs p fs path d n Hs Hw Hdead uid) as (i & fs' & Hl & Hrun). cbv zeta.
  destruct (decide (p_euid p = uid)) as [<-|Hne]; destruct (Hrun tr) as [tr' ->]; cbn [fst snd].
  - exists i, (mkSocketGuard path (id_dev i) (id_ino i)). split; [done|].
    split; [by apply (namei_linked _ _ _ _ _ _ _ _ Hs Hl)|]. split; [apply (lk_node _ _ _ _ _ _ Hl)|].
    destruct (drop_socket_guard_runs p fs path d n Hs Hw Hdead fs' i _ Hl eq_refl tr') as [tr2 ->]. cbn.
    etrans; [apply (linked_restore _ _ _ _ _ _ id Hl Hn)|]. cbn.
    apply map_subseteq_spec. intros j nj Hj. by rewrite alter_id in Hj.
  - split; [done|]. by apply linked_restore with (nd := mkInode (Socket true) (p_euid p) 384).
Qed.

(** ** Examples: a first start, and a start beside a running daemon *)

Definition startup_config : DaemonConfig := mkDaemonConfig
  (mkDaemonSettings (lit "/run/control.sock") (lit "/run/proxies") 7 64 128 5 5000 8 30000 None Inline)
  (mkCaConfig [] []) (mkSecretStoreConfig [] ∅).
Definition startup_process : process := mkProcess 7 18 (mkFileId 1 2) (lit "/").
Definition startup_fs (socket : option bool) : Fs := mkFs
  (list_to_map
    ([ (mkFileId 1 2, mkInode (Directory {[ lit "run" := mkFileId 1 3 ]} (mkFileId 1 2) false) 0 493);
       (mkFileId 1 3, mkInode (Directory (match socket with
                                          | Some _ => {[ lit "control.sock" := mkFileId 1 4 ]}
                                          | None => ∅ end) (mkFileId 1 2) false) 7 448) ]
     ++ match socket with Some b => [ (mkFileId 1 4, mkInode (Socket b) 7 384) ] | None => [] end))
  (mkFileId 1 2).
Definition startup_result (socket : option bool) : option (result anyhow (BoundServer (Fd:=str))) :=
  (@server_bind str (example_fs []) 9 startup_config (mkWorld startup_process (startup_fs socket) [] [])).1.

(** A free path and a stale socket both lead to a bound server. *)
Example startup_first : is_ok <$> startup_result None = Some true.
Proof. vm_compute. reflexivity. Qed.
Example startup_stale : is_ok <$> startup_result (Some false) = Some true.
Proof. vm_compute. reflexivity. Qed.

Lemma startup_sound socket : sound (startup_fs socket).
Proof.
  intros d n i. unfold entries_of. destruct (fs_inodes (startup_fs socket) !! d) as [nd|] eqn:Hd;
    [|by cbn [fmap option_fmap option_map]; rewrite lookup_empty].
  apply elem_of_list_to_map_2 in Hd.
  destruct socket as [b|]; cbn [app] in Hd; rewrite !elem_of_cons, elem_of_nil in Hd;
    destruct_or! Hd; simplify_eq; cbn [fmap option_fmap option_map i_kind];
    try (rewrite lookup_empty; done); intros [_ <-]%lookup_singleton_Some; by eexists.
Qed.

Lemma live_sockets_kept_witness :
  entries_of (w_fs (@server_bind str (example_fs []) 9 startup_config
                      (mkWorld startup_process (startup_fs (Some true)) [] [])).2) (mkFileId 1 3)
    !! lit "control.sock" = Some (mkFileId 1 4)
  ∧ ∀ s, startup_result (Some true) ≠ Some (Ok s).
Proof.
  destruct (@live_sockets_kept str (example_fs []) startup_process (startup_fs (Some true)) [] 9 startup_config)
    as [Hkept Hrefused]; [apply startup_sound|].
  split.
  - apply (Hkept (mkFileId 1 3) (lit "control.sock") (mkFileId 1 4) (mkInode (Socket true) 7 384));
      vm_compute; reflexivity.
  - apply (Hrefused (mkFileId 1 4) (mkInode (Socket true) 7 384)); vm_compute; reflexivity.
Defined.

Lemma control_socket_bound_witness :
  ∃ i guard, (bind_control_socket (lit "/run/control.sock") 7
                (mkWorld startup_process (startup_fs None) [] [])).1 = Ok (i, guard).
Proof.
  destruct (control_socket_bound startup_process (startup_fs None) (lit "/run/control.sock")
              (mkFileId 1 3) (lit "control.sock") 7 []) as (i & guard & Hok & _).
  - apply startup_sound.
  - vm_compute. reflexivity.
  - vm_compute. reflexivity.
  - exists i, guard. exact Hok.
Defined.
