(* ===== verification/CertAuthority.v ===== *)
(** The certificate authority (src/ca.rs): loading and checking the daemon's
    CA, generating a pair without replacing existing files, and exporting the
    public certificate.

    The certificate libraries (rcgen, x509-parser, the TLS runtime) are the
    interface [CaCrypto]; files are those of PosixFs. A path with a NUL byte is
    refused by the standard library before any call. Key generation, the
    process id and the clock are the environment of [initialize]; the counter
    behind temporary names is a [u64] that wraps around. *)

From S2P Require Import Prelude RustStr BTree PolicyTypes UrlPath DnsName Identifiers SessionDoc.
From S2P Require Import Secrets FileConfig Telemetry DaemonConfig.
From S2P Require Import RustPath PosixFs SocketDirs StaleSockets.
From stdpp Require Import pretty.
From stdpp Require Import options.
Local Open Scope char_scope.

(** ** The certificate libraries *)

Record Pem := mkPem { pem_label : str; pem_contents : str }.

(** A parsed certificate: an extension is invalid ([None]), missing or there. *)
Record X509Certificate := mkX509Certificate {
  x_basic_constraints_ca : option (option bool);
  x_key_cert_sign : option (option bool);
  x_subject_pki : str;
  x_is_valid : Z → bool;
}.

Inductive KeyUsagePurpose := KeyCertSign | CrlSign.

(** The parameters the program sets; the rest are the defaults of rcgen. *)
Record CertificateParams := mkCertificateParams {
  cp_not_before : Z;
  cp_not_after : Z;
  cp_common_name : str;
  cp_is_unconstrained_ca : bool;
  cp_key_usages : list KeyUsagePurpose;
}.

Class CaCrypto := {
  KeyPair : Type;
  Issuer : Type;
  X509 : Type;
  PKey : Type;
  self_signed : CertificateParams → KeyPair → option str;
  serialize_pem : KeyPair → str;
  public_key_pem : KeyPair → str;
  key_pair_from_pem : str → option KeyPair;
  parse_x509_pem : str → option (str * Pem);
  parse_x509_certificate : str → option (str * X509Certificate);
  issuer_from_ca_cert_pem : str → KeyPair → option Issuer;
  signs_probe : Issuer → bool;
  x509_from_pem : str → option X509;
  private_key_from_pem : str → option PKey;
}.

(** ** [std::fs] by path *)

Definition std_path {A} (path : str) (f : FileId → Sys (result errno A)) : Sys (result errno A) :=
  if contains_char "000" path then mret (Err EINVAL) else with_cwd f.

Definition fs_metadata (path : str) : Sys (result errno stat) :=
  std_path path (λ cwd, libc as_stat (Stat_follow cwd path)).
Definition fs_symlink_metadata (path : str) : Sys (result errno stat) :=
  std_path path (λ cwd, libc as_stat (Fstatat cwd path)).
Definition fs_read (path : str) : Sys (result errno str) :=
  std_path path (λ cwd, libc as_path (Read_file cwd path)).
Definition fs_remove_file (path : str) : Sys (result errno unit) :=
  std_path path (λ cwd, libc as_unit (Unlinkat cwd path false)).
Definition fs_hard_link (old new : str) : Sys (result errno unit) :=
  std_path old (λ _, std_path new (λ cwd, libc as_unit (Link cwd old new))).
(** [OpenOptions::new().write(true).create_new(true).mode(mode).open(path)] *)
Definition create_new (path : str) (mode : N) : Sys (result errno FileId) :=
  std_path path (λ cwd, libc as_fd (Create_new cwd path mode)).
(** A canonical path names one directory; it stands for it. *)
Definition fs_canonicalize (path : str) : Sys (result errno FileId) :=
  std_path path (λ cwd, libc as_fd (Real_directory cwd path)).

(** [with_context] on an answer of the file system. *)
Definition or_fail {A B} (message : string) (m : Sys (result errno A)) (k : A → Sys (result anyhow B))
    : Sys (result anyhow B) :=
  r ← m; match r with Ok a => k a | Err _ => mret (Err message) end.

Definition require (b : bool) (message : string) : result anyhow unit := if b then Ok () else Err message.

Section ca.
Context `{CaCrypto}.

(** ** Loading *)

(** The checks of [PublicCaCertificate::load] on the bytes of the file. *)
Definition check_public_certificate (now : Z) (pem : str) : result anyhow unit :=
  '(remainder, parsed_pem) ← ok_or (parse_x509_pem pem) "could not parse CA certificate PEM"%string;
  _ ← require (str_eqb (pem_label parsed_pem) (lit "CERTIFICATE") && forallb is_ascii_whitespace remainder)
        "CA certificate file must contain one CERTIFICATE PEM block"%string;
  '(remainder, certificate) ← ok_or (parse_x509_certificate (pem_contents parsed_pem))
                                "could not parse CA certificate"%string;
  _ ← require (bool_decide (remainder = [])) "CA certificate contains trailing data"%string;
  constraints ← ok_or (x_basic_constraints_ca certificate) "CA certificate has invalid Basic Constraints"%string;
  ca ← ok_or constraints "CA certificate must have Basic Constraints"%string;
  _ ← require ca "CA certificate is not marked as a certificate authority"%string;
  usage ← ok_or (x_key_cert_sign certificate) "CA certificate has invalid Key Usage"%string;
  key_cert_sign ← ok_or usage "CA certificate must have Key Usage"%string;
  _ ← require key_cert_sign "CA certificate is not permitted to sign certificates"%string;
  require (x_is_valid certificate now) "CA certificate is not currently valid"%string.

(** [PublicCaCertificate::load]; the certificate is its PEM text. *)
Definition public_ca_certificate_load (now : Z) (path : str) : Sys (result anyhow str) :=
  or_fail "could not inspect CA certificate file"%string (fs_metadata path) (λ metadata,
    if negb (is_file metadata) then mret (Err "CA certificate path must be a regular file"%string)
    else
      or_fail "could not read CA certificate file"%string (fs_read path) (λ pem,
        mret (_ ← check_public_certificate now pem; Ok pem))).

Definition validate_private_key_permissions (metadata : stat) : result anyhow unit :=
  let mode := st_mode metadata in
  if negb (N.land mode 3647 =? 0)%N || negb (N.land mode 73 =? 0)%N || (N.land mode 256 =? 0)%N
  then Err "CA private key permissions must allow owner read access only"%string
  else Ok ().

Definition read_private_key (path : str) : Sys (result anyhow str) :=
  or_fail "could not inspect CA private key file"%string (fs_symlink_metadata path) (λ metadata,
    if negb (is_file metadata)
    then mret (Err "CA private key path must be a regular, non-symlink file"%string)
    else match validate_private_key_permissions metadata with
         | Err e => mret (Err e)
         | Ok _ => or_fail "could not read CA private key file"%string (fs_read path) (λ key, mret (Ok key))
         end).

Record ManagedCa := mkManagedCa {
  mc_certificate : X509;
  mc_private_key : PKey;
  mc_public_certificate_pem : str;
}.

(** The checks of [ManagedCa::load] on the bytes of both files. *)
Definition match_pair (certificate_pem key_bytes : str) : result anyhow ManagedCa :=
  _ ← require (from_utf8 key_bytes) "CA private key is not valid PEM text"%string;
  key_pair ← ok_or (key_pair_from_pem key_bytes) "could not parse CA private key"%string;
  '(_, parsed_pem) ← ok_or (parse_x509_pem certificate_pem) "could not parse CA certificate PEM"%string;
  '(_, parsed_certificate) ← ok_or (parse_x509_certificate (pem_contents parsed_pem))
                               "could not parse CA certificate"%string;
  '(_, public_key) ← ok_or (parse_x509_pem (public_key_pem key_pair)) "could not inspect CA public key"%string;
  _ ← require (str_eqb (x_subject_pki parsed_certificate) (pem_contents public_key))
        "CA certificate and private key do not match"%string;
  _ ← require (from_utf8 certificate_pem) "CA certificate is not valid PEM text"%string;
  issuer ← ok_or (issuer_from_ca_cert_pem certificate_pem key_pair)
             "CA certificate cannot be used as an issuer"%string;
  runtime_certificate ← ok_or (x509_from_pem certificate_pem)
                          "could not load CA certificate for proxy runtime"%string;
  runtime_private_key ← ok_or (private_key_from_pem key_bytes)
                          "could not load CA private key for proxy runtime"%string;
  _ ← require (signs_probe issuer) "CA private key cannot sign certificates"%string;
  Ok (mkManagedCa runtime_certificate runtime_private_key certificate_pem).

(** [ManagedCa::load] *)
Definition managed_ca_load (now : Z) (config : CaConfig) : Sys (result anyhow ManagedCa) :=
  certificate ←? public_ca_certificate_load now (ca_certificate config);
  key_bytes ←? read_private_key (ca_private_key config);
  mret (match_pair certificate key_bytes).

Definition runtime_signing_material (ca : ManagedCa) : X509 * PKey := (mc_certificate ca, mc_private_key ca).
Definition public_certificate_pem (ca : ManagedCa) : str := mc_public_certificate_pem ca.

(** ** Exporting *)

Definition export_public_certificate (now : Z) (ca : CaConfig) (output : str) : Sys (result anyhow unit) :=
  certificate ←? public_ca_certificate_load now (ca_certificate ca);
  or_fail "could not create CA certificate output"%string (create_new output 420) (λ file,
    or_fail "could not write CA certificate output"%string (libc as_unit (Write file certificate)) (λ _,
      or_fail "could not finish CA certificate output"%string (libc as_unit (Fsync file)) (λ _,
        mret (Ok ())))).
End ca.

(** ** Generating *)

Definition GENERATED_CA_VALIDITY_DAYS : Z := 365.
Definition GENERATED_CA_CLOCK_SKEW_SECONDS : Z := 5 * 60.

(** The parent must lead to a directory. *)
Definition validate_target_parent (path : str) : Sys (result anyhow FileId) :=
  let parent := parent_or_dot path in
  or_fail "parent directory must already exist; create it first"%string (fs_metadata parent) (λ metadata,
    if negb (is_dir metadata) then mret (Err "parent path is not a directory"%string)
    else or_fail "could not resolve parent directory"%string (fs_canonicalize parent) (λ d, mret (Ok d))).

Definition temporary_name (pid sequence : N) : str :=
  lit ".baffle-ca-init-" ++ lit (pretty pid) ++ lit "-" ++ lit (pretty sequence) ++ lit ".tmp".

(** The loop that allocates a name: the counter, and the file it created. *)
Fixpoint create_temporary (tries : nat) (pid : N) (parent : str) (mode sequence : N)
    : Sys (N * result anyhow (str * FileId)) :=
  match tries with
  | O => mret (sequence, Err "could not allocate a temporary file"%string)
  | S tries =>
      let temporary := path_join parent (temporary_name pid sequence) in
      let sequence := fetch_add1 sequence in
      r ← create_new temporary mode;
      match r with
      | Ok file => mret (sequence, Ok (temporary, file))
      | Err e =>
          if decide (errno_kind e = AlreadyExists) then create_temporary tries pid parent mode sequence
          else mret (sequence, Err "could not create temporary file"%string)
      end
  end.

Definition write_temporary_file (pid : N) (target contents : str) (mode : N) (sequence : N)
    (temporary_paths : list str) : Sys (N * list str * result anyhow str) :=
  '(sequence, created) ← create_temporary 128 pid (parent_or_dot target) mode sequence;
  match created with
  | Err e => mret (sequence, temporary_paths, Err e)
  | Ok (temporary, file) =>
      r ← or_fail "could not set permissions on temporary file"%string (libc as_unit (Fchmod file mode)) (λ _,
            or_fail "could not write temporary file"%string (libc as_unit (Write file contents)) (λ _,
              or_fail "could not finish writing temporary file"%string (libc as_unit (Fsync file)) (λ _,
                mret (Ok temporary))));
      mret (sequence, temporary_paths ++ [temporary], r)
  end.

(** [FileIdentity] is the device and inode. *)
Record LinkedTarget := mkLinkedTarget { lt_target : str; lt_identity : FileId }.

Definition file_identity (path : str) : Sys (result errno FileId) :=
  r ← fs_metadata path; mret (st_id <$> r).

Definition install_without_overwrite (temporary target : str) (linked_targets : list LinkedTarget)
    : Sys (list LinkedTarget * result anyhow unit) :=
  identity ← file_identity temporary;
  match identity with
  | Err _ => mret (linked_targets, Err "could not inspect temporary file"%string)
  | Ok identity =>
      r ← fs_hard_link temporary target;
      mret (match r with
            | Ok _ => (linked_targets ++ [mkLinkedTarget target identity], Ok ())
            | Err e =>
                (linked_targets,
                 Err (if decide (errno_kind e = AlreadyExists) then "refusing to overwrite existing file"%string
                      else "could not install file"%string))
            end)
  end.

(** The path of a failed removal; a file that is gone is no failure. *)
Definition removal_error (path : str) (r : result errno unit) : list str :=
  match r with
  | Ok _ => []
  | Err e => if decide (errno_kind e = NotFound) then [] else [path]
  end.

Fixpoint remove_paths (paths : list str) : Sys (list str) :=
  match paths with
  | [] => mret []
  | path :: rest =>
      r ← fs_remove_file path;
      errors ← remove_paths rest;
      mret (removal_error path r ++ errors)
  end.

Definition file_has_identity (path : str) (identity : FileId) : Sys (result errno bool) :=
  r ← fs_symlink_metadata path;
  mret (match r with
        | Ok st => Ok (is_file st && bool_decide (st_id st = identity))
        | Err e => if decide (errno_kind e = NotFound) then Ok false else Err e
        end).

(** The targets in the order they are visited, last linked first. *)
Fixpoint remove_each_linked (targets : list LinkedTarget) : Sys (list str) :=
  match targets with
  | [] => mret []
  | linked :: rest =>
      same ← file_has_identity (lt_target linked) (lt_identity linked);
      here ← match same with
             | Ok true => r ← fs_remove_file (lt_target linked); mret (removal_error (lt_target linked) r)
             | Ok false => mret []
             | Err _ => mret [lt_target linked]
             end;
      errors ← remove_each_linked rest;
      mret (here ++ errors)
  end.
Definition remove_linked_targets (linked_targets : list LinkedTarget) : Sys (list str) :=
  remove_each_linked (rev linked_targets).

Section initialize.
Context `{CaCrypto}.

(** What [initialize] gets from outside: the key that was generated, the
    process id, and the clock at the three times it is read. *)
Record InitEnv := mkInitEnv {
  ie_key_pair : option KeyPair;
  ie_pid : N;
  ie_now : Z;
  ie_staged_now : Z;
  ie_installed_now : Z;
}.

Definition generated_params (now : Z) : CertificateParams :=
  mkCertificateParams (now - GENERATED_CA_CLOCK_SKEW_SECONDS) (now + GENERATED_CA_VALIDITY_DAYS * 86400)
    (lit "Baffle Interception CA") true [KeyCertSign; CrlSign].

(** The PEM texts of a fresh pair: the key and its certificate. *)
Definition generate_pair (env : InitEnv) : result anyhow (str * str) :=
  key_pair ← ok_or (ie_key_pair env) "could not generate P-256 CA private key"%string;
  certificate ← ok_or (self_signed (generated_params (ie_now env)) key_pair)
                  "could not create self-signed Baffle CA certificate"%string;
  Ok (serialize_pem key_pair, certificate).

(** Linking both files and loading the installed pair. *)
Definition install_pair (env : InitEnv) (config : CaConfig) (temporary_key temporary_certificate : str)
    : Sys (list LinkedTarget * result anyhow unit) :=
  '(linked, r) ← install_without_overwrite temporary_key (ca_private_key config) [];
  match r with
  | Err e => mret (linked, Err e)
  | Ok _ =>
      '(linked, r) ← install_without_overwrite temporary_certificate (ca_certificate config) linked;
      match r with
      | Err e => mret (linked, Err e)
      | Ok _ =>
          loaded ← managed_ca_load (ie_installed_now env) config;
          mret (linked, match loaded with
                        | Ok _ => Ok ()
                        | Err _ => Err "installed CA pair failed Baffle validation"%string
                        end)
      end
  end.

(** The result, with the temporary paths and linked targets it recorded. *)
Definition initialize_pair (env : InitEnv) (sequence : N) (config : CaConfig)
    : Sys (N * list str * list LinkedTarget * result anyhow unit) :=
  match generate_pair env with
  | Err e => mret (sequence, [], [], Err e)
  | Ok (key_pem, certificate_pem) =>
      '(sequence, temporary_paths, temporary_key) ←
        write_temporary_file (ie_pid env) (ca_private_key config) key_pem 384 sequence [];
      match temporary_key with
      | Err e => mret (sequence, temporary_paths, [], Err e)
      | Ok temporary_key =>
          '(sequence, temporary_paths, temporary_certificate) ←
            write_temporary_file (ie_pid env) (ca_certificate config) certificate_pem 420 sequence temporary_paths;
          match temporary_certificate with
          | Err e => mret (sequence, temporary_paths, [], Err e)
          | Ok temporary_certificate =>
              staged ← managed_ca_load (ie_staged_now env) (mkCaConfig temporary_certificate temporary_key);
              match staged with
              | Err _ =>
                  mret (sequence, temporary_paths, [], Err "generated CA pair failed Baffle validation"%string)
              | Ok _ =>
                  '(linked_targets, r) ← install_pair env config temporary_key temporary_certificate;
                  mret (sequence, temporary_paths, linked_targets, r)
              end
          end
      end
  end.

(** The targets that exist already. *)
Fixpoint find_conflicts (paths : list str) : Sys (result anyhow (list str)) :=
  match paths with
  | [] => mret (Ok [])
  | path :: rest =>
      r ← fs_symlink_metadata path;
      match r with
      | Ok _ => conflicts ←? find_conflicts rest; mret (Ok (path :: conflicts))
      | Err e =>
          if decide (errno_kind e = NotFound) then find_conflicts rest
          else mret (Err "could not inspect target"%string)
      end
  end.

(** The cleanup after [initialize_pair]. *)
Definition finish_initialize (temporary_paths : list str) (linked_targets : list LinkedTarget)
    (result : result anyhow unit) : Sys (Prelude.result anyhow unit) :=
  match result with
  | Ok _ =>
      temporary_cleanup ← remove_paths temporary_paths;
      if decide (temporary_cleanup = []) then mret (Ok ())
      else
        _ ← remove_linked_targets linked_targets;
        mret (Err "CA validation succeeded, but temporary files could not be removed"%string)
  | Err error =>
      rollback_errors ← remove_linked_targets linked_targets;
      temporary_cleanup ← remove_paths temporary_paths;
      mret (Err (if decide (rollback_errors ++ temporary_cleanup = []) then error
                 else (error ++ "; cleanup also failed")%string))
  end.

Definition initialize (env : InitEnv) (sequence : N) (config : CaConfig) : Sys (result anyhow unit) :=
  certificate_parent ←? validate_target_parent (ca_certificate config);
  private_key_parent ←? validate_target_parent (ca_private_key config);
  match file_name (ca_certificate config), file_name (ca_private_key config) with
  | None, _ => mret (Err "CA certificate path must name a file"%string)
  | _, None => mret (Err "CA private key path must name a file"%string)
  | Some certificate_name, Some private_key_name =>
      if bool_decide ((certificate_parent, certificate_name) = (private_key_parent, private_key_name))
      then mret (Err "CA certificate and private key must use different paths"%string)
      else
        conflicts ←? find_conflicts [ca_certificate config; ca_private_key config];
        if decide (conflicts = []) then
          '(_, temporary_paths, linked_targets, result) ← initialize_pair env sequence config;
          finish_initialize temporary_paths linked_targets result
        else mret (Err "refusing to overwrite existing files"%string)
  end.
End initialize.
