(* ===== verification/CaLoad.v ===== *)
(** What loading and exporting the certificate authority does (src/ca.rs):
    exactly which files are accepted, and what the export creates. *)

From S2P Require Import Prelude RustStr BTree PolicyTypes UrlPath DnsName Identifiers SessionDoc.
From S2P Require Import Secrets FileConfig Telemetry DaemonConfig.
From S2P Require Import RustPath PosixFs SocketDirs StaleSockets FsOverlay CertAuthority.
From stdpp Require Import options.
Local Open Scope char_scope.

(** ** Quiet runs of the path functions *)

Definition no_nul (path : str) : bool := negb (contains_char "000" path).

(** What a call by path answers: nothing is called for a path with a NUL. *)
Definition by_path {A} (view : sysret → result errno A) (p : process) (fs : Fs) (path : str)
    (c : FileId → syscall) : result errno A * Fs :=
  if no_nul path then let '(r, fs') := exec p fs (c (p_cwd p)) in (view r, fs') else (Err EINVAL, fs).

Lemma runs_std_path {A} (view : sysret → result errno A) p fs path c :
  runs p fs (std_path path (λ cwd, libc view (c cwd))) (by_path view p fs path c).1 (by_path view p fs path c).2.
Proof.
  unfold std_path, by_path, no_nul. destruct (contains_char "000" path); cbn [negb]; [apply runs_ret|].
  apply runs_cwd. destruct (exec p fs (c (p_cwd p))) as [r fs'] eqn:He. by apply runs_libc.
Qed.

Lemma ends_std_path {A} (view : sysret → result errno A) p fs path c (Q : result errno A → Fs → Prop) :
  Q (by_path view p fs path c).1 (by_path view p fs path c).2 →
  ends p fs (std_path path (λ cwd, libc view (c cwd))) Q.
Proof. intros HQ. eexists _, _. split; [apply runs_std_path|done]. Qed.

Lemma ends_or_fail {A B} p fs message (m : Sys (result errno A)) (k : A → Sys (result anyhow B)) Q :
  ends p fs m (λ r fs1, match r with Ok a => ends p fs1 (k a) Q | Err _ => Q (Err message) fs1 end) →
  ends p fs (or_fail message m k) Q.
Proof.
  intros Hm. apply ends_bind. eapply ends_mono; [exact Hm|]. cbn. intros [a|e] fs1 HQ; [done|by apply ends_ret].
Qed.

Lemma ends_try {E A B} p fs (m : Sys (result E A)) (k : A → Sys (result E B)) Q :
  ends p fs m (λ r fs1, match r with Ok a => ends p fs1 (k a) Q | Err e => Q (Err e) fs1 end) →
  ends p fs (sys_try m k) Q.
Proof.
  intros Hm. apply ends_bind. eapply ends_mono; [exact Hm|]. cbn. intros [a|e] fs1 HQ; [done|by apply ends_ret].
Qed.

(** ** Following links *)

Lemma walk_follow_dir fs links : ∀ cs cur d,
  walk fs false links cur cs = Ok (AtDir d) → walk fs true links cur cs = Ok (AtDir d).
Proof.
  induction links as [links IHl] using lt_wf_ind. induction cs as [|c cs IHcs]; intros cur d Hw.
  { by rewrite walk_nil in *. }
  rewrite walk_cons in *. cbv zeta in *.
  destruct (fs_inodes fs !! cur) as [[[es par dead| | |] uid perm]|]; [|done..].
  destruct (decide (c = ["."])); [by apply IHcs|]. destruct (decide (c = [".";"."])); [by apply IHcs|].
  destruct (es !! c) as [i|]; [|by destruct (decide (cs = []))].
  destruct (i_kind <$> fs_inodes fs !! i) as [[| | |t]|];
    (destruct (decide (cs = [])); [done|]); try (by apply IHcs).
  destruct links as [|l]; [done|]. by apply IHl; [lia|].
Qed.

Lemma resolve_follow fs d path i ni :
  resolve fs false d path = Ok i → fs_inodes fs !! i = Some ni → (∀ t, i_kind ni ≠ Symlink t) →
  resolve fs true d path = Ok i.
Proof.
  unfold resolve. destruct (namei fs false d path) as [[d' n [j|]|d']|e] eqn:Hw; cbn; intros [= <-] Hni Hk.
  - rewrite (namei_follow _ _ _ _ _ _ Hw); [done|]. intros j' t [= <-]. rewrite Hni. cbn. intros [= Heq]. by apply (Hk t).
  - unfold namei in *. destruct (decide (path = [])); [done|]. by rewrite (walk_follow_dir _ _ _ _ _ Hw).
Qed.

(** ** Modes *)

Lemma is_file_stat_of i n : is_file (stat_of i n) = true ↔ ∃ c, i_kind n = Regular c.
Proof.
  unfold is_file, stat_of. cbn. rewrite type_bits_of. destruct (i_kind n); cbn; naive_solver.
Qed.

Definition accepted_mode (m : N) : bool :=
  (N.land m 3647 =? 0)%N && (N.land m 73 =? 0)%N && negb (N.land m 256 =? 0)%N.

Lemma accepted_mode_low (m : N) :
  (m < 4096)%N → accepted_mode (N.lor S_IFREG m) = bool_decide (m = 256 ∨ m = 384)%N.
Proof.
  intros Hm.
  assert (Hall : forallb (λ k, let m := N.of_nat k in
            Bool.eqb (accepted_mode (N.lor S_IFREG m)) ((m =? 256)%N || (m =? 384)%N)) (seq 0 4096) = true)
    by (vm_compute; reflexivity).
  rewrite forallb_forall in Hall. specialize (Hall (N.to_nat m)). rewrite N2Nat.id in Hall.
  cbv zeta in Hall. rewrite Bool.eqb_true_iff in Hall.
  rewrite Hall by (apply in_seq; change 4096%N with (N.of_nat 4096) in Hm; lia).
  apply eq_true_iff_eq. rewrite orb_true_iff, !N.eqb_eq, bool_decide_eq_true. done.
Qed.

(** Owner-only means mode 0400 or 0600, without set-id or sticky bits. *)
Definition owner_only (perm : N) : Prop := N.land perm 4095 = 256%N ∨ N.land perm 4095 = 384%N.

Lemma validate_private_key_permissions_ok i n c :
  i_kind n = Regular c →
  is_ok (validate_private_key_permissions (stat_of i n)) = true ↔ owner_only (i_perm n).
Proof.
  intros Hk. unfold validate_private_key_permissions, stat_of. cbn [st_mode]. rewrite Hk. cbn [type_bits].
  set (m := N.land (i_perm n) 4095). pose proof (accepted_mode_low m) as Hm. unfold accepted_mode in Hm.
  assert (Hlt : (m < 4096)%N).
  { unfold m. change 4095%N with (N.ones 12). rewrite N.land_ones. by apply N.mod_lt. }
  specialize (Hm Hlt). unfold owner_only. fold m.
  rewrite <- (bool_decide_eq_true (m = 256 ∨ m = 384)%N), <- Hm.
  destruct (N.land (N.lor S_IFREG m) 3647 =? 0)%N, (N.land (N.lor S_IFREG m) 73 =? 0)%N,
    (N.land (N.lor S_IFREG m) 256 =? 0)%N; done.
Qed.

(** ** Which files are accepted *)

Section load.
Context `{CaCrypto}.

(** The text is one PEM block of a certificate that may sign, at this time. *)
Definition ca_certificate_text (now : Z) (pem : str) (certificate : X509Certificate) : Prop :=
  ∃ remainder parsed,
    parse_x509_pem pem = Some (remainder, parsed) ∧ pem_label parsed = lit "CERTIFICATE" ∧
    forallb is_ascii_whitespace remainder = true ∧
    parse_x509_certificate (pem_contents parsed) = Some ([], certificate) ∧
    x_basic_constraints_ca certificate = Some (Some true) ∧ x_key_cert_sign certificate = Some (Some true) ∧
    x_is_valid certificate now = true.

Lemma require_Ok b message u : require b message = Ok u ↔ b = true.
Proof. destruct b, u; cbn; naive_solver. Qed.

Lemma check_public_certificate_ok now pem :
  check_public_certificate now pem = Ok () ↔ ∃ certificate, ca_certificate_text now pem certificate.
Proof.
  unfold check_public_certificate, ca_certificate_text. split.
  - intros Hc. apply bind_Ok_inv in Hc as ([remainder parsed] & Hp%ok_or_Ok_inv & Hc).
    apply bind_Ok_inv in Hc as ([] & [Hl Hw]%require_Ok%andb_true_iff & Hc).
    apply bind_Ok_inv in Hc as ([rest certificate] & Hx%ok_or_Ok_inv & Hc).
    apply bind_Ok_inv in Hc as ([] & Hr%require_Ok%bool_decide_eq_true & Hc). subst rest.
    apply bind_Ok_inv in Hc as ([ca|] & Hb%ok_or_Ok_inv & Hc); apply bind_Ok_inv in Hc as (? & [=]%ok_or_Ok_inv & Hc). subst.
    apply bind_Ok_inv in Hc as ([] & ->%require_Ok & Hc).
    apply bind_Ok_inv in Hc as ([ku|] & Hk%ok_or_Ok_inv & Hc); apply bind_Ok_inv in Hc as (? & [=]%ok_or_Ok_inv & Hc). subst.
    apply bind_Ok_inv in Hc as ([] & ->%require_Ok & Hv%require_Ok).
    apply bool_decide_eq_true in Hl. by exists certificate, remainder, parsed.
  - intros (certificate & remainder & parsed & -> & Hl & Hw & Hx & Hb & Hk & Hv). cbn.
    unfold str_eqb. rewrite bool_decide_eq_true_2 by done. rewrite Hw. cbn. rewrite Hx. cbn.
    rewrite Hb. cbn. rewrite Hk. cbn. by rewrite Hv.
Qed.

(** The key is the certificate's, and the runtime can sign with both. *)
Definition signing_pair (pem : str) (certificate : X509Certificate) (key : str) (ca : ManagedCa) : Prop :=
  ∃ key_pair remainder public_key issuer,
    from_utf8 key = true ∧ from_utf8 pem = true ∧ key_pair_from_pem key = Some key_pair ∧
    parse_x509_pem (public_key_pem key_pair) = Some (remainder, public_key) ∧
    x_subject_pki certificate = pem_contents public_key ∧
    issuer_from_ca_cert_pem pem key_pair = Some issuer ∧ signs_probe issuer = true ∧
    x509_from_pem pem = Some (mc_certificate ca) ∧ private_key_from_pem key = Some (mc_private_key ca) ∧
    mc_public_certificate_pem ca = pem.

Lemma match_pair_ok now pem certificate key ca :
  ca_certificate_text now pem certificate →
  match_pair pem key = Ok ca ↔ signing_pair pem certificate key ca.
Proof.
  intros (remainder & parsed & Hp & _ & _ & Hx & _). unfold match_pair, signing_pair. split.
  - intros Hc. apply bind_Ok_inv in Hc as ([] & Hu%require_Ok & Hc).
    apply bind_Ok_inv in Hc as (key_pair & Hk%ok_or_Ok_inv & Hc). rewrite Hp in Hc. cbn [ok_or mbind result_bind] in Hc.
    rewrite Hx in Hc. cbn [ok_or mbind result_bind] in Hc.
    apply bind_Ok_inv in Hc as ([rest public_key] & Hpk%ok_or_Ok_inv & Hc).
    apply bind_Ok_inv in Hc as ([] & Hs%require_Ok%bool_decide_eq_true & Hc).
    apply bind_Ok_inv in Hc as ([] & Hu'%require_Ok & Hc).
    apply bind_Ok_inv in Hc as (issuer & Hi%ok_or_Ok_inv & Hc).
    apply bind_Ok_inv in Hc as (certificate' & Hc'%ok_or_Ok_inv & Hc).
    apply bind_Ok_inv in Hc as (key' & Hk'%ok_or_Ok_inv & Hc).
    apply bind_Ok_inv in Hc as ([] & Hsign%require_Ok & Hc). injection Hc as <-.
    by exists key_pair, rest, public_key, issuer.
  - intros (key_pair & rest & public_key & issuer & Hu & Hu' & Hk & Hpk & Hs & Hi & Hsign & Hc' & Hk' & Hpem).
    rewrite Hu. cbn [require mbind result_bind]. rewrite Hk. cbn [ok_or mbind result_bind]. rewrite Hp. cbn [ok_or mbind result_bind].
    rewrite Hx. cbn [ok_or mbind result_bind]. rewrite Hpk. cbn [ok_or mbind result_bind].
    unfold str_eqb. rewrite bool_decide_eq_true_2 by done. cbn [require mbind result_bind]. rewrite Hu'. cbn [require mbind result_bind].
    rewrite Hi. cbn [ok_or mbind result_bind]. rewrite Hc'. cbn [ok_or mbind result_bind]. rewrite Hk'.
    cbn [ok_or mbind result_bind]. rewrite Hsign. cbn. destruct ca; cbn in *. by subst.
Qed.

(** The regular file a path leads to. *)
Definition file_at (fs : Fs) (follow : bool) (d : FileId) (path content : str) (perm : N) : Prop :=
  no_nul path = true ∧ ∃ i uid, resolve fs follow d path = Ok i ∧
    fs_inodes fs !! i = Some (mkInode (Regular content) uid perm).

Lemma file_at_unique fs follow d path c c' q q' :
  file_at fs follow d path c q → file_at fs follow d path c' q' → c = c' ∧ q = q'.
Proof. intros (_ & i & u & Hi & Hn) (_ & j & u' & Hj & Hm). assert (i = j) as -> by congruence. by simplify_eq. Qed.

Lemma public_ca_certificate_load_ends p fs now path :
  ends p fs (public_ca_certificate_load now path) (λ r fs', fs' = fs ∧ ∀ pem, r = Ok pem ↔
    ∃ perm certificate, file_at fs true (p_cwd p) path pem perm ∧ ca_certificate_text now pem certificate).
Proof.
  apply ends_or_fail, ends_std_path. unfold by_path. destruct (no_nul path) eqn:Hnul; cbn [fst snd].
  2:{ split; [done|]. intros pem. split; [done|]. intros (perm & certificate & [? _] & _). congruence. }
  cbn [exec]. destruct (resolve fs true (p_cwd p) path) as [i|e] eqn:Hi; cbn [mbind result_bind ret_of fst snd as_stat].
  2:{ split; [done|]. intros pem. split; [done|]. intros (perm & certificate & (_ & i & u & ? & _) & _). congruence. }
  unfold stat_inode. destruct (fs_inodes fs !! i) as [ni|] eqn:Hni; cbn [ret_of fst snd as_stat].
  2:{ split; [done|]. intros pem. split; [done|]. intros (perm & certificate & (_ & j & u & ? & ?) & _). congruence. }
  destruct (is_file (stat_of i ni)) eqn:Hf; cbn [negb].
  2:{ apply ends_ret. split; [done|]. intros pem. split; [done|].
      intros (perm & certificate & (_ & j & u & Hj & Hnj) & _). assert (j = i) as -> by congruence. simplify_eq.
      rewrite (proj2 (is_file_stat_of i _)) in Hf; [done|by eexists]. }
  apply is_file_stat_of in Hf as [content Hk]. destruct ni as [k uid perm]. cbn in Hk. subst k.
  apply ends_or_fail, ends_std_path. unfold by_path. rewrite Hnul. cbn [exec fst snd]. rewrite Hi.
  cbn [mbind result_bind]. rewrite Hni. cbn [fmap option_fmap option_map i_kind ret_of fst snd as_path].
  apply ends_ret. split; [done|]. intros pem. rewrite bind_Ok_inv. split.
  - intros ([] & Hc & [= <-]). apply check_public_certificate_ok in Hc as [certificate Hc].
    exists perm, certificate. split; [|done]. split; [done|]. by exists i, uid.
  - intros (perm' & certificate & (_ & j & u & Hj & Hnj) & Hc). assert (j = i) as -> by congruence. simplify_eq. exists (). split; [|done].
    apply check_public_certificate_ok. by exists certificate.
Qed.

Lemma read_private_key_ends p fs path :
  ends p fs (read_private_key path) (λ r fs', fs' = fs ∧ ∀ key, r = Ok key ↔
    ∃ perm, file_at fs false (p_cwd p) path key perm ∧ owner_only perm).
Proof.
  apply ends_or_fail, ends_std_path. unfold by_path. destruct (no_nul path) eqn:Hnul; cbn [fst snd].
  2:{ split; [done|]. intros key. split; [done|]. intros (perm & [? _] & _). congruence. }
  cbn [exec]. destruct (resolve fs false (p_cwd p) path) as [i|e] eqn:Hi; cbn [mbind result_bind ret_of fst snd as_stat].
  2:{ split; [done|]. intros key. split; [done|]. intros (perm & (_ & i & u & ? & _) & _). congruence. }
  unfold stat_inode. destruct (fs_inodes fs !! i) as [ni|] eqn:Hni; cbn [ret_of fst snd as_stat].
  2:{ split; [done|]. intros key. split; [done|]. intros (perm & (_ & j & u & ? & ?) & _). congruence. }
  destruct (is_file (stat_of i ni)) eqn:Hf; cbn [negb].
  2:{ apply ends_ret. split; [done|]. intros key. split; [done|].
      intros (perm & (_ & j & u & Hj & Hnj) & _). assert (j = i) as -> by congruence. simplify_eq.
      rewrite (proj2 (is_file_stat_of i _)) in Hf; [done|by eexists]. }
  apply is_file_stat_of in Hf as [content Hk]. pose proof (validate_private_key_permissions_ok i ni content Hk) as Hperm.
  destruct ni as [k uid perm]. cbn in Hk. subst k. cbn [i_perm] in Hperm.
  destruct (validate_private_key_permissions _) as [[]|e].
  2:{ apply ends_ret. split; [done|]. intros key. split; [done|].
      intros (perm' & (_ & j & u & Hj & Hnj) & Hown). assert (j = i) as -> by congruence. simplify_eq. cbn in Hperm. by apply Hperm in Hown. }
  apply ends_or_fail, ends_std_path. unfold by_path. rewrite Hnul. cbn [exec fst snd].
  rewrite (resolve_follow _ _ _ _ _ Hi Hni) by done.
  cbn [mbind result_bind]. rewrite Hni. cbn [fmap option_fmap option_map i_kind ret_of fst snd as_path].
  apply ends_ret. split; [done|]. intros key. split.
  - intros [= <-]. exists perm. split; [|by apply Hperm]. split; [done|]. by exists i, uid.
  - intros (perm' & (_ & j & u & Hj & Hnj) & _). assert (j = i) as -> by congruence. by simplify_eq.
Qed.

Lemma managed_ca_load_ends p fs now config :
  ends p fs (managed_ca_load now config) (λ r fs', fs' = fs ∧ ∀ ca, r = Ok ca ↔
    ∃ pem key certificate certificate_mode key_mode,
      file_at fs true (p_cwd p) (ca_certificate config) pem certificate_mode ∧
      file_at fs false (p_cwd p) (ca_private_key config) key key_mode ∧ owner_only key_mode ∧
      ca_certificate_text now pem certificate ∧ signing_pair pem certificate key ca).
Proof.
  apply ends_try. eapply ends_mono; [apply public_ca_certificate_load_ends|]. cbn.
  intros [pem|e] ? [-> Hpem].
  2:{ split; [done|]. intros ca. split; [done|]. intros (pem & key & cert & q & q' & Hf & _ & _ & Hc & _).
      assert (Err e = Ok pem) as [=] by (apply Hpem; by exists q, cert). }
  destruct (proj1 (Hpem pem) eq_refl) as (q & certificate & Hfile & Htext).
  apply ends_try. eapply ends_mono; [apply read_private_key_ends|]. cbn. intros [key|e] ? [-> Hkey].
  2:{ split; [done|]. intros ca. split; [done|]. intros (pem' & key & cert & q1 & q2 & _ & Hf & Ho & _).
      assert (Err e = Ok key) as [=] by (apply Hkey; by exists q2). }
  destruct (proj1 (Hkey key) eq_refl) as (q' & Hfile' & Hown).
  apply ends_ret. split; [done|]. intros ca. rewrite (match_pair_ok now pem certificate) by done. split.
  - intros Hs. by exists pem, key, certificate, q, q'.
  - intros (pem' & key' & cert' & q1 & q2 & Hf1 & Hf2 & _ & Ht & Hs).
    destruct (file_at_unique _ _ _ _ _ _ _ _ Hfile Hf1) as [<- _].
    destruct (file_at_unique _ _ _ _ _ _ _ _ Hfile' Hf2) as [<- _].
    destruct Htext as (r1 & p1 & Hp1 & _ & _ & Hx1 & _), Ht as (r2 & p2 & Hp2 & _ & _ & Hx2 & _).
    by simplify_eq.
Qed.
End load.

(** C23: loading the daemon's certificate authority changes nothing and succeeds
    exactly when the certificate path leads to a regular file with one PEM
    block of a currently valid certificate that is marked as an authority and
    may sign, and the key path names, without following a link, a regular file
    of mode 0400 or 0600 that holds that certificate's key, usable to sign. *)
Theorem managed_ca_load_exact `{CaCrypto} p fs now config tr ca :
  let res := managed_ca_load now config (mkWorld p fs [] tr) in
  w_fs res.2 = fs ∧
  (res.1 = Ok ca ↔
   ∃ pem key certificate certificate_mode key_mode,
     file_at fs true (p_cwd p) (ca_certificate config) pem certificate_mode ∧
     file_at fs false (p_cwd p) (ca_private_key config) key key_mode ∧ owner_only key_mode ∧
     ca_certificate_text now pem certificate ∧ signing_pair pem certificate key ca).
Proof.
  destruct (ends_world _ _ _ _ tr (managed_ca_load_ends p fs now config)) as [Hfs Hiff].
  split; [exact Hfs|apply Hiff].
Qed.
