(* ===== verification/CaInit.v ===== *)
(** Generating the certificate authority (src/ca.rs, [initialize]) when nobody
    else touches the directories: either the pair is installed and nothing
    else is left, or the file system is as it was found. *)

From S2P Require Import Prelude RustStr BTree PolicyTypes UrlPath DnsName Identifiers SessionDoc.
From S2P Require Import Secrets FileConfig Telemetry DaemonConfig.
From S2P Require Import RustPath PosixFs SocketDirs StaleSockets FsOverlay CertAuthority CaLoad.
From stdpp Require Import pretty.
From stdpp Require Import options.
Local Open Scope char_scope.

Definition link_of (a : added) : LinkedTarget := mkLinkedTarget (a_path a) (a_inode a).

Definition spelt (a : added) : Prop := no_nul (a_path a) = true.

Lemma frame_app L1 L2 fs fs' : frame (L1 ++ L2) fs fs' ↔ frame L1 fs fs' ∧ frame L2 fs fs'.
Proof. unfold frame. setoid_rewrite elem_of_app. naive_solver. Qed.
Lemma frame_trans L fs1 fs2 fs3 : frame L fs1 fs2 → frame L fs2 fs3 → frame L fs1 fs3.
Proof. intros H1 H2 a Ha. by rewrite (H2 a Ha), (H1 a Ha). Qed.
Lemma frame_refl L fs : frame L fs fs.
Proof. done. Qed.
Lemma frame_sub L L' fs fs' : frame L' fs fs' → L ⊆ L' → frame L fs fs'.
Proof. intros Hf Hs a Ha. apply Hf. by apply Hs. Qed.

Section quiet.
Context (p : process) (fs0 : Fs).
Local Abbreviation cwd := (p_cwd p).

(** ** Temporary files *)

(** A path under which a file can be created. *)
Definition vacant (fs : Fs) (path : str) (d : FileId) (n : str) : Prop :=
  no_nul path = true ∧ namei fs false cwd path = Ok (AtName d n None) ∧ is_dead fs d = false.

Lemma overlay_vacant L fs path d n :
  sound fs0 → overlay cwd fs0 L fs → vacant fs0 path d n → (d, n) ∉ a_key <$> L → vacant fs path d n.
Proof.
  intros Hs Ho (Hnul & Hw & Hd) Hk. split; [done|]. split.
  - rewrite (namei_settled fs0 fs Hs (overlay_same_paths _ _ _ _ Ho) _ _ _ Hw). cbn.
    destruct (entries_of fs d !! n) as [i|] eqn:Hi; [|done]. apply (ov_entries _ _ _ _ Ho) in Hi as [Hi|(a & Ha & Hak & _)].
    + destruct (namei_end _ _ _ _ _ _ _ Hw). congruence.
    + destruct Hk. rewrite <- Hak. by apply list_elem_of_fmap_2.
  - destruct (namei_end _ _ _ _ _ _ _ Hw) as [_ [par Hpar]].
    apply dir_inode in Hpar as (dead & uid & perm & Hdi). destruct (ov_old _ _ _ _ Ho d _ Hdi) as ([k u q] & Hd' & (_ & _ & Hkk)).
    unfold is_dead in *. rewrite Hdi in Hd. rewrite Hd'. cbn in *. destruct k; naive_solver.
Qed.

(** A file that was just created: not there before. *)
Definition created (L : list added) (a : added) (content : str) (perm : N) (fs fs' : Fs) : Prop :=
  spelt a ∧ overlay cwd fs0 (L ++ [a]) fs' ∧ frame L fs fs' ∧ fs_inodes fs !! a_inode a = None ∧
  fs_inodes fs' !! a_inode a = Some (mkInode (Regular content) (p_euid p) perm).

Lemma create_new_ends L fs path mode :
  overlay cwd fs0 L fs →
  ends p fs (create_new path mode) (λ r fs',
    (∃ e, r = Err e ∧ fs' = fs ∧ ∀ d n, ¬ vacant fs path d n) ∨
    ∃ a, r = Ok (a_inode a) ∧ a_path a = path ∧ vacant fs path (a_dir a) (a_name a) ∧ created L a [] (N.ldiff mode (p_umask p)) fs fs').
Proof.
  intros Ho. apply ends_std_path. unfold by_path. destruct (no_nul path) eqn:Hnul.
  2:{ left. eexists. split; [done|]. split; [done|]. intros d n [? _]. congruence. }
  destruct (overlay_create _ _ _ _ path mode Ho) as [[e He]|(d & n & i & Hr & Hw & Hdead & Ho' & Hf & Hi & Hn)].
  { rewrite He. left. eexists. split; [done|]. split; [done|]. intros d n (_ & Hw & Hd). cbn [exec] in He.
    unfold exec_create in He. rewrite Hw, Hd in He. by destruct (create_inode _ _ _ _). }
  destruct (exec p fs (Create_new cwd path mode)) as [r fs']. cbn [fst snd] in *. subst r.
  right. by exists (mkAdded path d n i).
Qed.

Lemma create_temporary_ends L fs tries pid parent mode : ∀ sequence,
  overlay cwd fs0 L fs →
  ends p fs (create_temporary tries pid parent mode sequence) (λ r fs',
    (∃ e, r.2 = Err e ∧ fs' = fs) ∨
    ∃ a, r.2 = Ok (a_path a, a_inode a) ∧ created L a [] (N.ldiff mode (p_umask p)) fs fs').
Proof.
  induction tries as [|tries IH]; intros sequence Ho; cbn [create_temporary]; [apply ends_ret; left; by eexists|].
  apply ends_bind. eapply ends_mono; [by apply create_new_ends|]. cbn.
  intros r fs' [(e & -> & -> & _)|(a & -> & <- & _ & Ha)].
  - destruct (decide (errno_kind e = AlreadyExists)); [by apply IH|]. apply ends_ret. left. by eexists.
  - apply ends_ret. right. by exists a.
Qed.

(** The first name is taken when it is free. *)
Lemma create_temporary_first L fs tries pid parent mode sequence d n :
  overlay cwd fs0 L fs → vacant fs (path_join parent (temporary_name pid sequence)) d n →
  ends p fs (create_temporary (S tries) pid parent mode sequence) (λ r fs',
    r.1 = fetch_add1 sequence ∧
    ∃ i, r.2 = Ok (path_join parent (temporary_name pid sequence), i)).
Proof.
  intros Ho Hv. cbn [create_temporary]. apply ends_bind. eapply ends_mono; [by apply create_new_ends|]. cbn beta.
  intros r fs' [(e & -> & -> & Hno)|(a & -> & Hpa & _ & Ha)]; [by destruct (Hno d n)|].
  apply ends_ret. split; [done|]. by exists (a_inode a).
Qed.

(** Permissions and contents of the new file. *)
Lemma created_update L a content perm content' perm' f fs fs' :
  created L a content perm fs fs' →
  (∀ c u q, ∃ c' u' q', f (mkInode (Regular c) u q) = mkInode (Regular c') u' q') →
  f (mkInode (Regular content) (p_euid p) perm) = mkInode (Regular content') (p_euid p) perm' →
  created L a content' perm' fs (update_inode f (a_inode a) fs').
Proof.
  intros (Hsp & Ho & Hf & Hi & Hn) Hreg Hfa. split; [done|].
  split; [apply overlay_update; [done|apply elem_of_app; right; by apply list_elem_of_singleton|done]|].
  split; [|split; [done|by rewrite lookup_update_inode, decide_True, Hn, <- Hfa by done]].
  intros b Hb. rewrite lookup_update_inode, decide_False; [by apply Hf|].
  intros Hab. assert (b ∈ L ++ [a]) as Hb' by (apply elem_of_app; by left).
  specialize (Hf b Hb). rewrite Hab, Hn, Hi in Hf. done.
Qed.

Lemma write_temporary_file_ends L fs pid target contents mode sequence temporary_paths :
  overlay cwd fs0 L fs →
  ends p fs (write_temporary_file pid target contents mode sequence temporary_paths) (λ r fs',
    (∃ e, r.2 = Err e ∧ r.1.2 = temporary_paths ∧ fs' = fs) ∨
    ∃ a, r.2 = Ok (a_path a) ∧ r.1.2 = temporary_paths ++ [a_path a] ∧ created L a contents mode fs fs').
Proof.
  intros Ho. apply ends_bind. eapply ends_mono; [by apply create_temporary_ends|]. cbn.
  intros [seq r] fs1 [(e & Hr & ->)|(a & Hr & Ha)]; cbn in Hr; subst r; [apply ends_ret; left; by eexists|].
  apply (created_update _ _ _ _ [] mode (set_perm mode)) in Ha; [|by do 3 eexists|done].
  apply (created_update _ _ _ _ contents mode (write_contents contents)) in Ha; [|by do 3 eexists|done].
  apply ends_bind, ends_or_fail, ends_libc. cbn [exec exec_chmod fst snd as_unit].
  apply ends_or_fail, ends_libc. cbn [exec fst snd as_unit].
  apply ends_or_fail, ends_libc. cbn [exec fst snd as_unit].
  apply ends_ret, ends_ret. right. by exists a.
Qed.

(** ** Installing *)

Lemma install_ends L fs a target linked :
  overlay cwd fs0 L fs → a ∈ L → spelt a →
  ends p fs (install_without_overwrite (a_path a) target linked) (λ r fs',
    (∃ e, r = (linked, Err e) ∧ fs' = fs ∧ ∀ d n, ¬ vacant fs target d n) ∨
    ∃ b, r = (linked ++ [link_of b], Ok ()) ∧ a_path b = target ∧ a_inode b = a_inode a ∧ spelt b ∧
      overlay cwd fs0 (L ++ [b]) fs' ∧ frame L fs fs').
Proof.
  intros Ho Ha Hsp. destruct (ov_new _ _ _ _ Ho a Ha) as [_ (c & u & q & Hn)].
  destruct (overlay_stat _ _ _ _ _ _ Ho Ha Hn) as [_ Hst].
  apply ends_bind, ends_bind, ends_std_path. unfold by_path. rewrite Hsp, Hst. cbn [fst snd as_stat].
  apply ends_ret. cbn [fmap result_fmap]. rewrite st_id_stat_of. apply ends_bind.
  unfold fs_hard_link. unfold std_path at 1. unfold spelt, no_nul in Hsp. apply negb_true_iff in Hsp. rewrite Hsp.
  eexists _, _. split; [apply runs_cwd, runs_std_path|]. unfold by_path. destruct (no_nul target) eqn:Hnul.
  2:{ cbn [fst snd]. apply ends_ret. left. eexists. split; [done|]. split; [done|]. intros d n [? _]. congruence. }
  destruct (overlay_link _ _ _ _ a target Ho Ha) as [[e He]|(d & n & Hr & Ho' & Hf)].
  { rewrite He. cbn [fst snd as_unit]. apply ends_ret. left. eexists. split; [done|]. split; [done|].
    intros d n (_ & Hw & Hd). cbn [exec] in He. unfold exec_link in He.
    rewrite (overlay_resolve _ _ _ _ _ false Ho Ha), Hn in He. cbn [fmap option_fmap option_map i_kind] in He.
    rewrite Hw, Hd in He. done. }
  destruct (exec p fs (Link cwd (a_path a) target)) as [r fs']. cbn [fst snd] in *. subst r. cbn [as_unit].
  apply ends_ret. right. by exists (mkAdded target d n (a_inode a)).
Qed.

(** ** Taking away again *)

Lemma fs_remove_file_ends L1 a L2 fs (Q : result errno unit → Fs → Prop) :
  overlay cwd fs0 (L1 ++ a :: L2) fs → spelt a →
  (∀ fs', overlay cwd fs0 (L1 ++ L2) fs' → frame (L1 ++ L2) fs fs' → Q (Ok ()) fs') →
  ends p fs (fs_remove_file (a_path a)) Q.
Proof.
  intros Ho Hsp HQ. apply ends_std_path. unfold by_path. rewrite Hsp.
  destruct (overlay_unlink _ _ _ _ _ _ Ho) as (Hr & Ho' & Hf).
  destruct (exec p fs (Unlinkat cwd (a_path a) false)) as [r fs']. cbn [fst snd] in *. subst r. cbn [as_unit].
  apply HQ; [done|]. eapply frame_sub; [exact Hf|]. intros b. rewrite !elem_of_app, elem_of_cons. tauto.
Qed.

Lemma remove_paths_ends T : ∀ K fs,
  overlay cwd fs0 (T ++ K) fs → Forall spelt T →
  ends p fs (remove_paths (a_path <$> T)) (λ r fs', r = [] ∧ overlay cwd fs0 K fs' ∧ frame K fs fs').
Proof.
  induction T as [|a T IH]; intros K fs Ho Hsp; cbn [fmap list_fmap remove_paths]; [by apply ends_ret|].
  apply Forall_cons in Hsp as [Ha Hsp]. apply ends_bind. apply (fs_remove_file_ends [] a (T ++ K)); [done|done|].
  intros fs1 Ho1 Hf1. apply ends_bind. eapply ends_mono; [by apply IH|]. cbn. intros r fs2 (-> & Ho2 & Hf2).
  apply ends_ret. split; [done|]. split; [done|]. eapply frame_trans; [|exact Hf2].
  apply (frame_app T K). exact Hf1.
Qed.

Lemma remove_each_linked_ends T : ∀ Kr fs,
  overlay cwd fs0 (T ++ rev Kr) fs → Forall spelt Kr →
  ends p fs (remove_each_linked (link_of <$> Kr)) (λ r fs', r = [] ∧ overlay cwd fs0 T fs' ∧ frame T fs fs').
Proof.
  induction Kr as [|a Kr IH]; intros fs Ho Hsp; cbn [fmap list_fmap remove_each_linked].
  { rewrite app_nil_r in Ho. by apply ends_ret. }
  apply Forall_cons in Hsp as [Ha Hsp]. cbn [rev] in Ho. rewrite app_assoc in Ho.
  assert (Hin : a ∈ (T ++ rev Kr) ++ [a]) by (apply elem_of_app; right; by apply list_elem_of_singleton).
  destruct (ov_new _ _ _ _ Ho a Hin) as [_ (c & u & q & Hn)].
  destruct (overlay_stat _ _ _ _ _ _ Ho Hin Hn) as [Hst _].
  apply ends_bind, ends_bind, ends_std_path. unfold by_path. cbn [link_of lt_target lt_identity]. rewrite Ha.
  rewrite Hst. cbn [fst snd as_stat]. apply ends_ret.
  assert (is_file (stat_of (a_inode a) (mkInode (Regular c) u q)) = true) as -> by (apply is_file_stat_of; by eexists).
  rewrite st_id_stat_of, bool_decide_eq_true_2 by done. cbn [andb]. apply ends_bind, ends_bind.
  apply (fs_remove_file_ends (T ++ rev Kr) a []); [done|done|]. rewrite app_nil_r. intros fs1 Ho1 Hf1.
  apply ends_ret, ends_bind. eapply ends_mono; [by apply IH|]. cbn. intros r fs2 (-> & Ho2 & Hf2).
  apply ends_ret. split; [done|]. split; [done|]. eapply frame_trans; [|exact Hf2].
  apply (frame_app T (rev Kr)). exact Hf1.
Qed.

Lemma remove_linked_targets_ends T K fs :
  overlay cwd fs0 (T ++ K) fs → Forall spelt K →
  ends p fs (remove_linked_targets (link_of <$> K)) (λ r fs', r = [] ∧ overlay cwd fs0 T fs' ∧ frame T fs fs').
Proof.
  intros Ho Hsp. unfold remove_linked_targets.
  assert (Hrev : rev (link_of <$> K) = link_of <$> rev K) by (symmetry; apply map_rev). rewrite Hrev.
  apply remove_each_linked_ends; [by rewrite rev_involutive|]. by apply Forall_rev.
Qed.

(** ** The whole of [initialize_pair] *)

Context `{CaCrypto}.

Lemma load_staged L fs now ac ak certificate key certificate_mode key_mode :
  overlay cwd fs0 L fs → ac ∈ L → ak ∈ L →
  fs_inodes fs !! a_inode ac = Some (mkInode (Regular certificate) (p_euid p) certificate_mode) →
  fs_inodes fs !! a_inode ak = Some (mkInode (Regular key) (p_euid p) key_mode) →
  ends p fs (managed_ca_load now (mkCaConfig (a_path ac) (a_path ak))) (λ r fs', fs' = fs ∧
    ∀ ca, r = Ok ca → ∃ parsed, ca_certificate_text now certificate parsed ∧ signing_pair certificate parsed key ca).
Proof.
  intros Ho Hac Hak Hc Hk. eapply ends_mono; [apply managed_ca_load_ends|]. cbn. intros r fs' [-> Hiff].
  split; [done|]. intros ca Hca. apply Hiff in Hca as (pem & k & parsed & q1 & q2 & H1 & H2 & _ & Ht & Hs).
  assert (file_at fs true cwd (a_path ac) certificate certificate_mode) as Hf1.
  { split; [apply H1|]. exists (a_inode ac), (p_euid p). split; [by eapply overlay_resolve|done]. }
  assert (file_at fs false cwd (a_path ak) key key_mode) as Hf2.
  { split; [apply H2|]. exists (a_inode ak), (p_euid p). split; [by eapply overlay_resolve|done]. }
  destruct (file_at_unique _ _ _ _ _ _ _ _ H1 Hf1) as [-> _]. destruct (file_at_unique _ _ _ _ _ _ _ _ H2 Hf2) as [-> _].
  by exists parsed.
Qed.

(** The names [ak] and [ac] lead to the generated pair, which loads. *)
Definition pair_installed (env : InitEnv) (config : CaConfig) (ak ac : added) (fs : Fs) : Prop :=
  ∃ key certificate parsed ca,
    generate_pair env = Ok (key, certificate) ∧
    a_path ak = ca_private_key config ∧ a_path ac = ca_certificate config ∧
    fs_inodes fs !! a_inode ak = Some (mkInode (Regular key) (p_euid p) 384) ∧
    fs_inodes fs !! a_inode ac = Some (mkInode (Regular certificate) (p_euid p) 420) ∧
    ca_certificate_text (ie_installed_now env) certificate parsed ∧ signing_pair certificate parsed key ca.

Lemma pair_installed_frame env config ak ac fs fs' :
  pair_installed env config ak ac fs → frame [ak; ac] fs fs' → pair_installed env config ak ac fs'.
Proof.
  intros (key & certificate & parsed & ca & Hg & Hpk & Hpc & Hk & Hc & Ht & Hs) Hf.
  exists key, certificate, parsed, ca. rewrite !Hf by set_solver. done.
Qed.

(** What [initialize_pair] leaves for the cleanup. *)
Definition pair_state (env : InitEnv) (config : CaConfig) (r : N * list str * list LinkedTarget * result anyhow unit)
    (fs : Fs) : Prop :=
  ∃ T K, r.1.1.2 = a_path <$> T ∧ r.1.2 = link_of <$> K ∧ Forall spelt T ∧ Forall spelt K ∧
    overlay cwd fs0 (T ++ K) fs ∧ (r.2 = Ok () → ∃ ak ac, K = [ak; ac] ∧ pair_installed env config ak ac fs).

Lemma pair_state_failed env config sequence T e fs :
  Forall spelt T → overlay cwd fs0 T fs → pair_state env config (sequence, a_path <$> T, [], Err e) fs.
Proof. intros HT Ho. exists T, []. cbn [fst snd]. rewrite app_nil_r. do 3 (split; [done|]). split; [constructor|]. by split. Qed.

Lemma install_pair_ends env config tk tc key certificate fs :
  generate_pair env = Ok (key, certificate) →
  overlay cwd fs0 [tk; tc] fs → spelt tk → spelt tc →
  fs_inodes fs !! a_inode tk = Some (mkInode (Regular key) (p_euid p) 384) →
  fs_inodes fs !! a_inode tc = Some (mkInode (Regular certificate) (p_euid p) 420) →
  ends p fs (install_pair env config (a_path tk) (a_path tc)) (λ r fs', ∃ K, r.1 = link_of <$> K ∧ Forall spelt K ∧
    overlay cwd fs0 ([tk; tc] ++ K) fs' ∧
    (r.2 = Ok () → ∃ ak ac, K = [ak; ac] ∧ pair_installed env config ak ac fs')).
Proof.
  intros Hg Ho Hsk Hsc Hk Hc. apply ends_bind.
  eapply ends_mono; [apply (install_ends _ _ _ _ _ Ho); [set_solver|done]|]. cbn beta.
  intros r fs1 [(e & -> & -> & _)|(ak & -> & Hpk & Hik & Hsak & Ho1 & Hf1)]; cbn iota beta.
  { apply ends_ret. by exists []. }
  apply ends_bind. eapply ends_mono; [apply (install_ends _ _ tc (ca_certificate config) ([] ++ [link_of ak]) Ho1); [set_solver|done]|].
  cbn beta. intros r fs2 [(e & -> & -> & _)|(ac & -> & Hpc & Hic & Hsac & Ho2 & Hf2)]; cbn iota beta.
  { apply ends_ret. exists [ak]. split; [done|]. split; [by repeat constructor|]. done. }
  assert (Hk2 : fs_inodes fs2 !! a_inode ak = Some (mkInode (Regular key) (p_euid p) 384)).
  { rewrite Hf2, Hik, Hf1 by set_solver. done. }
  assert (Hc2 : fs_inodes fs2 !! a_inode ac = Some (mkInode (Regular certificate) (p_euid p) 420)).
  { rewrite Hic, Hf2, Hf1 by set_solver. done. }
  apply ends_bind. eapply ends_mono.
  - replace config with (mkCaConfig (a_path ac) (a_path ak)) by (destruct config; cbn in *; congruence).
    apply (load_staged _ _ (ie_installed_now env) ac ak certificate key 420 384 Ho2); [set_solver|set_solver|exact Hc2|exact Hk2].
  - cbn beta. intros r fs3 [-> Hload]. apply ends_ret. exists [ak; ac]. split; [done|]. split; [by repeat constructor|].
    split; [done|]. cbn [snd]. destruct r as [ca|]; [|done]. intros _. exists ak, ac. split; [done|].
    destruct (Hload ca eq_refl) as (parsed & Ht & Hs). by exists key, certificate, parsed, ca.
Qed.

Lemma initialize_pair_ends env sequence config fs :
  overlay cwd fs0 [] fs → ends p fs (initialize_pair env sequence config) (pair_state env config).
Proof.
  intros Ho. unfold initialize_pair. destruct (generate_pair env) as [[key certificate]|e] eqn:Hg.
  2:{ apply ends_ret, (pair_state_failed _ _ _ []); [constructor|done]. }
  apply ends_bind. eapply ends_mono; [by apply write_temporary_file_ends|]. cbn beta.
  intros [[seq1 temps1] r1] fs1 [(e & Hr & Ht & ->)|(tk & Hr & Ht & Hsk & Ho1 & Hf1 & Hi1 & Hn1)]; cbn in Hr, Ht; subst r1 temps1;
    cbn iota beta.
  { apply ends_ret, (pair_state_failed _ _ _ []); [constructor|done]. }
  apply ends_bind. eapply ends_mono; [by apply write_temporary_file_ends|]. cbn beta.
  intros [[seq2 temps2] r2] fs2 [(e & Hr & Ht & ->)|(tc & Hr & Ht & Hsc & Ho2 & Hf2 & Hi2 & Hn2)]; cbn in Hr, Ht; subst r2 temps2;
    cbn iota beta.
  { apply ends_ret, (pair_state_failed _ _ _ [tk]); [by repeat constructor|done]. }
  assert (Hk2 : fs_inodes fs2 !! a_inode tk = Some (mkInode (Regular key) (p_euid p) 384)) by (rewrite Hf2 by set_solver; done).
  apply ends_bind. eapply ends_mono; [apply (load_staged _ _ (ie_staged_now env) tc tk certificate key 420 384 Ho2); [set_solver|set_solver|exact Hn2|exact Hk2]|].
  cbn beta. intros staged fs3 [-> _].
  assert (Hsp : Forall spelt [tk; tc]) by (by repeat constructor).
  destruct staged as [ca|e].
  2:{ apply ends_ret, (pair_state_failed _ _ _ [tk; tc]); done. }
  apply ends_bind. eapply ends_mono; [by apply (install_pair_ends env config tk tc key certificate)|]. cbn beta.
  intros [linked r] fs4 (K & HK & HspK & HoK & Hok). apply ends_ret. by exists [tk; tc], K.
Qed.

(** ** [initialize] *)

Definition init_outcome (env : InitEnv) (config : CaConfig) (r : result anyhow unit) (fs : Fs) : Prop :=
  match r with
  | Ok _ => ∃ ak ac, overlay cwd fs0 [ak; ac] fs ∧ Forall spelt [ak; ac] ∧ pair_installed env config ak ac fs
  | Err _ => overlay cwd fs0 [] fs
  end.

Lemma finish_initialize_ends env config r fs :
  pair_state env config r fs →
  ends p fs (finish_initialize r.1.1.2 r.1.2 r.2) (init_outcome env config).
Proof.
  intros (T & K & -> & -> & HT & HK & Ho & Hok). unfold finish_initialize. destruct r.2 as [[]|e].
  - destruct (Hok eq_refl) as (ak & ac & -> & Hpair). apply ends_bind.
    eapply ends_mono; [by apply remove_paths_ends|]. cbn beta. intros errors fs1 (-> & Ho1 & Hf1).
    rewrite decide_True by done. apply ends_ret. exists ak, ac. split; [done|]. split; [done|]. by eapply pair_installed_frame.
  - apply ends_bind. eapply ends_mono; [by apply remove_linked_targets_ends|]. cbn beta. intros errors fs1 (-> & Ho1 & _).
    apply ends_bind. eapply ends_mono; [apply (remove_paths_ends T []); [by rewrite app_nil_r|done]|].
    cbn beta. intros errors fs2 (-> & Ho2 & _). by apply ends_ret.
Qed.

Lemma validate_target_parent_ends path fs :
  ends p fs (validate_target_parent path) (λ _ fs', fs' = fs).
Proof.
  apply ends_or_fail, ends_std_path. unfold by_path.
  destruct (no_nul (parent_or_dot path)) eqn:Hnul; cbn [fst snd exec]; [|done].
  destruct (as_stat _) as [st|e]; [|done]. destruct (is_dir st); cbn [negb]; [|by apply ends_ret].
  apply ends_or_fail, ends_std_path. unfold by_path. rewrite Hnul. cbn [fst snd exec].
  destruct (as_fd _); [by apply ends_ret|done].
Qed.

Lemma find_conflicts_ends paths : ∀ fs, ends p fs (find_conflicts paths) (λ _ fs', fs' = fs).
Proof.
  induction paths as [|path paths IH]; intros fs; cbn [find_conflicts]; [by apply ends_ret|].
  apply ends_bind, ends_std_path. unfold by_path. destruct (no_nul path); cbn [fst snd exec].
  2:{ destruct (decide _); [apply IH|by apply ends_ret]. }
  destruct (as_stat _) as [st|e]; [|destruct (decide _); [apply IH|by apply ends_ret]].
  apply ends_try. eapply ends_mono; [apply IH|]. cbn beta. intros [] ? ->; [by apply ends_ret|done].
Qed.

Lemma initialize_ends env sequence config :
  sound fs0 → ends p fs0 (initialize env sequence config) (init_outcome env config).
Proof.
  intros Hs. pose proof (overlay_start p fs0 Hs) as Ho. unfold initialize.
  apply ends_try. eapply ends_mono; [apply validate_target_parent_ends|]. cbn beta. intros [d1|] ? ->; [|done].
  apply ends_try. eapply ends_mono; [apply validate_target_parent_ends|]. cbn beta. intros [d2|] ? ->; [|done].
  destruct (file_name _) as [n1|]; [|by apply ends_ret]. destruct (file_name _) as [n2|]; [|by apply ends_ret].
  destruct (bool_decide _); [by apply ends_ret|].
  apply ends_try. eapply ends_mono; [apply find_conflicts_ends|]. cbn beta. intros [conflicts|] ? ->; [|done].
  destruct (decide (conflicts = [])); [|by apply ends_ret].
  apply ends_bind. eapply ends_mono; [by apply initialize_pair_ends|]. cbn beta.
  intros [[[seq temps] linked] r] fs1 Hst. apply (finish_initialize_ends _ _ _ _ Hst).
Qed.

(** ** When it succeeds *)

Context (Hsound : sound fs0).

Lemma overlay_key L fs a d n :
  overlay cwd fs0 L fs → a ∈ L → vacant fs0 (a_path a) d n → a_key a = (d, n).
Proof using Hsound.
  intros Ho Ha (_ & Hw & _). apply (namei_settled fs0 fs Hsound (overlay_same_paths _ _ _ _ Ho)) in Hw.
  rewrite (ov_path _ _ _ _ Ho a Ha) in Hw. cbn in Hw. injection Hw as Hd Hn _. unfold a_key. congruence.
Qed.

Lemma write_temporary_vacant L fs pid target contents mode sequence temporary_paths d n :
  let path := path_join (parent_or_dot target) (temporary_name pid sequence) in
  overlay cwd fs0 L fs → vacant fs0 path d n → (d, n) ∉ a_key <$> L →
  ends p fs (write_temporary_file pid target contents mode sequence temporary_paths) (λ r fs',
    ∃ a, r = (fetch_add1 sequence, temporary_paths ++ [path], Ok path) ∧ a_path a = path ∧ a_key a = (d, n) ∧
      created L a contents mode fs fs').
Proof using Hsound.
  intros path Ho Hv Hk. assert (Hv' : vacant fs path d n) by (by eapply overlay_vacant).
  eapply ends_mono.
  - apply ends_and; [by apply write_temporary_file_ends|]. instantiate (1 := λ r _, r.1.1 = fetch_add1 sequence ∧ r.2 = Ok path).
    apply ends_bind. eapply ends_mono; [by apply (create_temporary_first L fs 127 _ _ _ _ d n)|]. cbn beta.
    intros [seq r] fs1 [Hseq [i Hr]]. cbn in Hseq, Hr. subst seq r.
    apply ends_bind, ends_or_fail, ends_libc. cbn [exec exec_chmod fst snd as_unit].
    apply ends_or_fail, ends_libc. cbn [exec fst snd as_unit].
    apply ends_or_fail, ends_libc. cbn [exec fst snd as_unit]. by apply ends_ret, ends_ret.
  - cbn beta. intros [[seq temps] r] fs' [[(e & Hr & _)|(a & Hr & Htemps & Ha)] [Hseq Hok]]; cbn in *; [congruence|].
    subst seq temps r. assert (Hpa : a_path a = path) by congruence. exists a. rewrite Hpa.
    split; [done|]. split; [done|]. split; [|done]. destruct Ha as (_ & Ho' & _).
    eapply overlay_key; [exact Ho'|apply elem_of_app; right; by apply list_elem_of_singleton|by rewrite Hpa].
Qed.

Lemma install_vacant L fs a target linked d n :
  overlay cwd fs0 L fs → a ∈ L → spelt a → vacant fs0 target d n → (d, n) ∉ a_key <$> L →
  ends p fs (install_without_overwrite (a_path a) target linked) (λ r fs',
    ∃ b, r = (linked ++ [link_of b], Ok ()) ∧ a_path b = target ∧ a_inode b = a_inode a ∧ a_key b = (d, n) ∧ spelt b ∧
      overlay cwd fs0 (L ++ [b]) fs' ∧ frame L fs fs').
Proof using Hsound.
  intros Ho Ha Hsp Hv Hk. assert (Hv' : vacant fs target d n) by (by eapply overlay_vacant).
  eapply ends_mono; [by apply install_ends|]. cbn beta.
  intros r fs' [(e & _ & _ & Hno)|(b & -> & Hpb & Hib & Hsb & Ho' & Hf)]; [by destruct (Hno d n)|].
  exists b. do 3 (split; [done|]). split; [|done].
  eapply overlay_key; [exact Ho'|apply elem_of_app; right; by apply list_elem_of_singleton|by rewrite Hpb].
Qed.

Lemma load_accepted L fs now ac ak certificate key parsed ca :
  overlay cwd fs0 L fs → ac ∈ L → ak ∈ L → spelt ac → spelt ak →
  fs_inodes fs !! a_inode ac = Some (mkInode (Regular certificate) (p_euid p) 420) →
  fs_inodes fs !! a_inode ak = Some (mkInode (Regular key) (p_euid p) 384) →
  ca_certificate_text now certificate parsed → signing_pair certificate parsed key ca →
  ends p fs (managed_ca_load now (mkCaConfig (a_path ac) (a_path ak))) (λ r fs', fs' = fs ∧ r = Ok ca).
Proof.
  intros Ho Hac Hak Hsc Hsk Hc Hk Ht Hs. eapply ends_mono; [apply managed_ca_load_ends|]. cbn beta.
  intros r fs' [-> Hiff]. split; [done|]. apply Hiff. exists certificate, key, parsed, 420%N, 384%N.
  split; [split; [done|]; exists (a_inode ac), (p_euid p); split; [by eapply overlay_resolve|done]|].
  split; [split; [done|]; exists (a_inode ak), (p_euid p); split; [by eapply overlay_resolve|done]|].
  split; [by right|done].
Qed.

(** Everything [initialize] needs: a generated pair the daemon accepts, and
    four free names in live directories, those of the targets and of the
    first temporary files, with parents that lead to directories. *)
Record init_ready (env : InitEnv) (sequence : N) (config : CaConfig) : Prop := {
  ir_pair : ∃ key certificate parsed ca, generate_pair env = Ok (key, certificate) ∧
    ca_certificate_text (ie_staged_now env) certificate parsed ∧
    ca_certificate_text (ie_installed_now env) certificate parsed ∧ signing_pair certificate parsed key ca;
  ir_names : ∃ dk nk dc nc dtk ntk dtc ntc,
    vacant fs0 (ca_private_key config) dk nk ∧ vacant fs0 (ca_certificate config) dc nc ∧
    vacant fs0 (path_join (parent_or_dot (ca_private_key config)) (temporary_name (ie_pid env) sequence)) dtk ntk ∧
    vacant fs0 (path_join (parent_or_dot (ca_certificate config))
                  (temporary_name (ie_pid env) (fetch_add1 sequence))) dtc ntc ∧
    NoDup [(dk, nk); (dc, nc); (dtk, ntk); (dtc, ntc)];
  ir_parents : ∃ pk fk pc fc,
    file_name (ca_private_key config) = Some fk ∧ file_name (ca_certificate config) = Some fc ∧
    no_nul (parent_or_dot (ca_private_key config)) = true ∧ no_nul (parent_or_dot (ca_certificate config)) = true ∧
    resolve fs0 true cwd (parent_or_dot (ca_private_key config)) = Ok pk ∧ directory_at fs0 pk ∧
    resolve fs0 true cwd (parent_or_dot (ca_certificate config)) = Ok pc ∧ directory_at fs0 pc ∧
    (pc, fc) ≠ (pk, fk);
}.

Section ready.
Context (env : InitEnv) (sequence : N) (config : CaConfig) (Hready : init_ready env sequence config).

Lemma install_pair_ready tk tc key certificate parsed ca dk nk dc nc fs :
  overlay cwd fs0 [tk; tc] fs → spelt tk → spelt tc →
  fs_inodes fs !! a_inode tk = Some (mkInode (Regular key) (p_euid p) 384) →
  fs_inodes fs !! a_inode tc = Some (mkInode (Regular certificate) (p_euid p) 420) →
  ca_certificate_text (ie_installed_now env) certificate parsed → signing_pair certificate parsed key ca →
  vacant fs0 (ca_private_key config) dk nk → vacant fs0 (ca_certificate config) dc nc →
  NoDup [(dk, nk); (dc, nc); a_key tk; a_key tc] →
  ends p fs (install_pair env config (a_path tk) (a_path tc)) (λ r fs', r.2 = Ok ()).
Proof using Hsound.
  clear Hready. intros Ho Hsk Hsc Hk Hc Ht Hs Hvk Hvc Hnd. apply NoDup_cons in Hnd as [Hnk [Hnc _]%NoDup_cons].
  apply ends_bind. eapply ends_mono; [apply (install_vacant _ _ tk _ _ dk nk Ho); [set_solver|done|done|set_solver]|].
  cbn beta. intros r fs1 (ak & -> & Hpk & Hik & Hkk & Hsak & Ho1 & Hf1). cbn iota beta.
  apply ends_bind. eapply ends_mono.
  { apply (install_vacant _ _ tc (ca_certificate config) ([] ++ [link_of ak]) dc nc Ho1); [set_solver|done|done|].
    rewrite fmap_app. cbn. rewrite Hkk. set_solver. }
  cbn beta. intros r fs2 (ac & -> & Hpc & Hic & _ & Hsac & Ho2 & Hf2). cbn iota beta.
  apply ends_bind. eapply ends_mono.
  - replace config with (mkCaConfig (a_path ac) (a_path ak)) by (destruct config; cbn in *; congruence).
    apply (load_accepted _ _ (ie_installed_now env) ac ak certificate key parsed ca Ho2); try done; [set_solver|set_solver| |].
    + rewrite Hic, Hf2, Hf1 by set_solver. done.
    + rewrite Hf2, Hik, Hf1 by set_solver. done.
  - cbn beta. intros r fs3 [-> ->]. by apply ends_ret.
Qed.

Lemma initialize_pair_ready :
  ends p fs0 (initialize_pair env sequence config) (λ r _, r.2 = Ok ()).
Proof using Type*.
  destruct Hready as [(key & certificate & parsed & ca & Hg & Ht1 & Ht2 & Hs)
    (dk & nk & dc & nc & dtk & ntk & dtc & ntc & Hvk & Hvc & Hvtk & Hvtc & Hnd) _].
  pose proof (overlay_start p fs0 Hsound) as Ho. unfold initialize_pair. rewrite Hg. apply ends_bind.
  eapply ends_mono; [apply (write_temporary_vacant [] fs0 _ _ key 384 _ [] dtk ntk Ho Hvtk); set_solver|]. cbn beta.
  intros r fs1 (tk & -> & Hptk & Hktk & Hsk & Ho1 & Hf1 & _ & Hn1). cbn iota beta. apply ends_bind.
  assert (Hne : (dtc, ntc) ∉ [(dtk, ntk)]).
  { apply NoDup_cons in Hnd as [_ [_ [Hnin _]%NoDup_cons]%NoDup_cons]. set_solver. }
  eapply ends_mono.
  { apply (write_temporary_vacant [tk] fs1 _ _ certificate 420 _ _ dtc ntc Ho1 Hvtc). cbn. by rewrite Hktk. }
  cbn beta. intros r fs2 (tc & -> & Hptc & Hktc & Hsc & Ho2 & Hf2 & _ & Hn2). cbn iota beta.
  assert (Hk2 : fs_inodes fs2 !! a_inode tk = Some (mkInode (Regular key) (p_euid p) 384)) by (rewrite Hf2 by set_solver; done).
  rewrite <- Hptk, <- Hptc. apply ends_bind. eapply ends_mono.
  { apply (load_accepted _ _ (ie_staged_now env) tc tk certificate key parsed ca Ho2); try done; set_solver. }
  cbn beta. intros r fs3 [-> ->]. apply ends_bind. eapply ends_mono.
  { apply (install_pair_ready tk tc key certificate parsed ca dk nk dc nc fs2); try done. by rewrite Hktk, Hktc. }
  cbn beta. intros [linked r] fs4 Hr. cbn in Hr. subst r. by apply ends_ret.
Qed.

Lemma validate_target_parent_ready path d :
  no_nul (parent_or_dot path) = true → resolve fs0 true cwd (parent_or_dot path) = Ok d → directory_at fs0 d →
  ends p fs0 (validate_target_parent path) (λ r fs', r = Ok d ∧ fs' = fs0).
Proof.
  intros Hnul Hres [par Hpar]. apply dir_inode in Hpar as (dead & uid & perm & Hd).
  apply ends_or_fail, ends_std_path. unfold by_path. rewrite Hnul. cbn [exec]. rewrite Hres. cbn [mbind result_bind].
  unfold stat_inode. rewrite Hd. cbn [ret_of fst snd as_stat]. rewrite is_dir_stat_of. cbn [i_kind is_directory_kind negb].
  apply ends_or_fail, ends_std_path. unfold by_path. rewrite Hnul. cbn [exec]. rewrite Hres. by apply ends_ret.
Qed.

Lemma find_conflicts_vacant paths :
  (∀ path, path ∈ paths → ∃ d n, vacant fs0 path d n) →
  ends p fs0 (find_conflicts paths) (λ r fs', r = Ok [] ∧ fs' = fs0).
Proof.
  induction paths as [|path paths IH]; intros Hv; cbn [find_conflicts]; [by apply ends_ret|].
  destruct (Hv path) as (d & n & Hnul & Hw & _); [by left|].
  apply ends_bind, ends_std_path. unfold by_path. rewrite Hnul. cbn [exec]. unfold resolve. rewrite Hw.
  cbn [mbind result_bind ret_of fst snd as_stat]. rewrite decide_True by done. apply IH. intros q Hq. apply Hv. by right.
Qed.

Lemma initialize_ready : ends p fs0 (initialize env sequence config) (λ r _, r = Ok ()).
Proof using Type*.
  pose proof Hready as [_ (dk & nk & dc & nc & dtk & ntk & dtc & ntc & Hvk & Hvc & _)
    (pk & fk & pc & fc & Hfk & Hfc & Hnk & Hnc & Hrk & Hdk & Hrc & Hdc & Hne)].
  unfold initialize. apply ends_try. eapply ends_mono; [by apply (validate_target_parent_ready _ pc)|]. cbn beta.
  intros r ? [-> ->]. apply ends_try. eapply ends_mono; [by apply (validate_target_parent_ready _ pk)|]. cbn beta.
  intros r ? [-> ->]. rewrite Hfc, Hfk, bool_decide_eq_false_2 by done. apply ends_try.
  eapply ends_mono; [apply find_conflicts_vacant|].
  { intros path [-> |[-> |[]%elem_of_nil]%elem_of_cons]%elem_of_cons; eauto. }
  cbn beta. intros r ? [-> ->]. rewrite decide_True by done. apply ends_bind.
  pose proof (overlay_start p fs0 Hsound) as Ho.
  eapply ends_mono; [apply ends_and; [by apply initialize_pair_ends|apply initialize_pair_ready]|]. cbn beta.
  intros [[[seq temps] linked] r] fs1 [(T & K & Ht & Hl & HT & HK & HoT & _) Hr]. cbn in Ht, Hl, Hr. subst temps linked r.
  unfold finish_initialize. apply ends_bind. eapply ends_mono; [by apply remove_paths_ends|]. cbn beta.
  intros errors fs2 (-> & _). rewrite decide_True by done. by apply ends_ret.
Qed.
End ready.
End quiet.

(** Exporting creates one new file with the certificate, or nothing: it
    succeeds exactly when the certificate is accepted and the output name is
    free, and a failure changes nothing. *)
Lemma export_exact `{CaCrypto} p fs0 now ca output tr :
  sound fs0 →
  let res := export_public_certificate now ca output (mkWorld p fs0 [] tr) in
  let fs := w_fs res.2 in
  (res.1 = Ok () ↔
   ∃ pem perm parsed d n, file_at fs0 true (p_cwd p) (ca_certificate ca) pem perm ∧
     ca_certificate_text now pem parsed ∧ vacant p fs0 output d n) ∧
  match res.1 with
  | Err _ => fs = fs0
  | Ok _ => ∃ a pem perm parsed, overlay (p_cwd p) fs0 [a] fs ∧ a_path a = output ∧
      file_at fs0 true (p_cwd p) (ca_certificate ca) pem perm ∧ ca_certificate_text now pem parsed ∧
      fs_inodes fs !! a_inode a = Some (mkInode (Regular pem) (p_euid p) (N.ldiff 420 (p_umask p)))
  end.
Proof.
  intros Hs. cbv zeta. pattern (export_public_certificate now ca output (mkWorld p fs0 [] tr)).1,
    (w_fs (export_public_certificate now ca output (mkWorld p fs0 [] tr)).2). apply ends_world.
  pose proof (overlay_start p fs0 Hs) as Ho. apply ends_try.
  eapply ends_mono; [apply public_ca_certificate_load_ends|]. cbn beta. intros [pem|e] ? [-> Hpem].
  2:{ split; [|done]. split; [done|]. intros (pem & perm & parsed & d & n & Hf & Ht & _).
      assert (Err e = Ok pem) as [=] by (apply Hpem; by exists perm, parsed). }
  destruct (proj1 (Hpem pem) eq_refl) as (perm & parsed & Hfile & Htext).
  apply ends_or_fail. eapply ends_mono; [by apply create_new_ends|]. cbn beta.
  intros r fs1 [(e & -> & -> & Hno)|(a & -> & Hpa & Hv & Ha)].
  { split; [|done]. split; [done|]. intros (_ & _ & _ & d & n & _ & _ & Hv). by destruct (Hno d n). }
  apply (created_update p fs0 _ _ _ _ pem (N.ldiff 420 (p_umask p)) (write_contents pem)) in Ha; [|by do 3 eexists|done].
  apply ends_or_fail, ends_libc. cbn [exec fst snd as_unit]. apply ends_or_fail, ends_libc. cbn [exec fst snd as_unit].
  apply ends_ret. destruct Ha as (_ & Ho1 & _ & _ & Hn1). split.
  - split; [|done]. intros _. by exists pem, perm, parsed, (a_dir a), (a_name a).
  - by exists a, pem, perm, parsed.
Qed.

(** C16: when nobody else touches the directories, generating the authority
    either fails and has restored every inode, or succeeds and has added
    exactly two names, both free before: the key's, of a file with the
    generated key and mode 0600, and the certificate's, of a file with its
    certificate and mode 0644; the installed pair passes every check of the
    daemon; and no temporary file is left. It succeeds whenever a pair is
    generated that the daemon accepts and the names it needs are free. *)
Theorem initialize_exact `{CaCrypto} p fs0 env sequence config tr :
  sound fs0 →
  let res := initialize env sequence config (mkWorld p fs0 [] tr) in
  let fs := w_fs res.2 in
  (init_ready p fs0 env sequence config → res.1 = Ok ()) ∧
  match res.1 with
  | Err _ => fs_inodes fs0 ⊆ fs_inodes fs
  | Ok _ =>
      ∃ key certificate dk nk ik dc nc ic,
        generate_pair env = Ok (key, certificate) ∧ (dk, nk) ≠ (dc, nc) ∧
        entries_of fs0 dk !! nk = None ∧ entries_of fs0 dc !! nc = None ∧
        (∀ d n i, entries_of fs d !! n = Some i ↔
           entries_of fs0 d !! n = Some i ∨ (d, n, i) = (dk, nk, ik) ∨ (d, n, i) = (dc, nc, ic)) ∧
        (∀ j nj, fs_inodes fs0 !! j = Some nj → ∃ nj', fs_inodes fs !! j = Some nj' ∧ same_node nj nj') ∧
        namei fs false (p_cwd p) (ca_private_key config) = Ok (AtName dk nk (Some ik)) ∧
        namei fs false (p_cwd p) (ca_certificate config) = Ok (AtName dc nc (Some ic)) ∧
        fs_inodes fs !! ik = Some (mkInode (Regular key) (p_euid p) 384) ∧
        fs_inodes fs !! ic = Some (mkInode (Regular certificate) (p_euid p) 420) ∧
        ∃ parsed ca, ca_certificate_text (ie_installed_now env) certificate parsed ∧
          signing_pair certificate parsed key ca
  end.
Proof.
  intros Hs res fs. split.
  { intros Hready. apply (ends_world _ _ _ _ tr (initialize_ready p fs0 Hs env sequence config Hready)). }
  pose proof (ends_world _ _ _ _ tr (initialize_ends p fs0 env sequence config Hs)) as Hout.
  fold res in Hout. fold fs in Hout. destruct res.1 as [[]|e]; [|by eapply overlay_restored].
  destruct Hout as (ak & ac & Ho & _ & key & certificate & parsed & ca & Hg & Hpk & Hpc & Hk & Hc & Ht & Hsg).
  exists key, certificate, (a_dir ak), (a_name ak), (a_inode ak), (a_dir ac), (a_name ac), (a_inode ac).
  split; [done|]. split.
  { pose proof (ov_keys _ _ _ _ Ho) as Hnd. apply NoDup_cons in Hnd as [Hnin _]. intros Heq. apply Hnin.
    apply list_elem_of_singleton. exact Heq. }
  split; [apply (ov_free _ _ _ _ Ho); set_solver|]. split; [apply (ov_free _ _ _ _ Ho); set_solver|].
  split.
  { intros d n i. rewrite (ov_entries _ _ _ _ Ho). split; (intros [?|Hin]; [by left|right]).
    - destruct Hin as (a & [-> |[-> |[]%elem_of_nil]%elem_of_cons]%elem_of_cons & [= <- <-] & <-); auto.
    - destruct Hin as [[= -> -> ->]|[= -> -> ->]]; [exists ak|exists ac]; set_solver. }
  split; [apply (ov_old _ _ _ _ Ho)|]. rewrite <- Hpk, <- Hpc.
  split; [apply (ov_path _ _ _ _ Ho); set_solver|]. split; [apply (ov_path _ _ _ _ Ho); set_solver|].
  split; [done|]. split; [done|]. by exists parsed, ca.
Qed.

(** ** An example: a fresh directory *)

#[local] Instance toy_crypto : CaCrypto := {|
  KeyPair := unit; Issuer := unit; X509 := str; PKey := str;
  self_signed params _ := Some (lit "certificate of " ++ cp_common_name params);
  serialize_pem _ := lit "key";
  public_key_pem _ := lit "public";
  key_pair_from_pem s := if str_eqb s (lit "key") then Some () else None;
  parse_x509_pem s := Some (lit " ", mkPem (lit "CERTIFICATE") s);
  parse_x509_certificate _ :=
    Some ([], mkX509Certificate (Some (Some true)) (Some (Some true)) (lit "public") (λ now, (now <? 31536000)%Z));
  issuer_from_ca_cert_pem _ _ := Some ();
  signs_probe _ := true;
  x509_from_pem := Some;
  private_key_from_pem := Some;
|}.

Definition init_fs : Fs := mkFs
  (list_to_map
     [ (mkFileId 1 2, mkInode (Directory {[ lit "etc" := mkFileId 1 3 ]} (mkFileId 1 2) false) 0 493);
       (mkFileId 1 3, mkInode (Directory ∅ (mkFileId 1 2) false) 7 448) ])
  (mkFileId 1 2).
Definition init_process : process := mkProcess 7 18 (mkFileId 1 2) (lit "/").
Definition init_config : CaConfig := mkCaConfig (lit "/etc/ca.pem") (lit "/etc/ca-key.pem").
Definition init_env (now : Z) : InitEnv := mkInitEnv (Some ()) 41 now now now.

Lemma init_sound : sound init_fs.
Proof.
  intros d n i. unfold entries_of. destruct (fs_inodes init_fs !! d) as [nd|] eqn:Hd;
    [|by cbn [fmap option_fmap option_map]; rewrite lookup_empty].
  apply elem_of_list_to_map_2 in Hd. rewrite !elem_of_cons, elem_of_nil in Hd.
  destruct_or! Hd; simplify_eq; cbn [fmap option_fmap option_map i_kind];
    try (rewrite lookup_empty; done); intros [_ <-]%lookup_singleton_Some; by eexists.
Qed.

(** The names after a run: the pair, or nothing. *)
Definition init_names (now : Z) : result anyhow unit * list str :=
  let res := initialize (init_env now) 0 init_config (mkWorld init_process init_fs [] []) in
  (res.1, (map_to_list (entries_of (w_fs res.2) (mkFileId 1 3))).*1).

Example init_valid : init_names 1000 = (Ok (), [lit "ca-key.pem"; lit "ca.pem"]) ∨ init_names 1000 = (Ok (), [lit "ca.pem"; lit "ca-key.pem"]).
Proof. vm_compute. auto. Qed.
(** A clock past the certificate's end: the staged pair is refused. *)
Example init_expired : init_names 31536000 = (Err "generated CA pair failed Baffle validation"%string, []).
Proof. vm_compute. reflexivity. Qed.

Lemma initialize_exact_witness :
  init_ready init_process init_fs (init_env 1000) 0 init_config ∧
  (initialize (init_env 1000) 0 init_config (mkWorld init_process init_fs [] [])).1 = Ok ().
Proof.
  assert (Hready : init_ready init_process init_fs (init_env 1000) 0 init_config).
  { split.
    - eexists _, _, _, (@mkManagedCa toy_crypto (lit "certificate of Baffle Interception CA") (lit "key") (lit "certificate of Baffle Interception CA")).
      split; [reflexivity|]. split; [by eexists _, _|]. split; [by eexists _, _|]. by eexists (), _, _, ().
    - exists (mkFileId 1 3), (lit "ca-key.pem"), (mkFileId 1 3), (lit "ca.pem"),
        (mkFileId 1 3), (lit ".baffle-ca-init-41-0.tmp"), (mkFileId 1 3), (lit ".baffle-ca-init-41-1.tmp").
      split; [repeat split; vm_compute; reflexivity|]. split; [repeat split; vm_compute; reflexivity|].
      split; [repeat split; vm_compute; reflexivity|]. split; [repeat split; vm_compute; reflexivity|].
      apply (bool_decide_unpack _). vm_compute. exact I.
    - exists (mkFileId 1 3), (lit "ca-key.pem"), (mkFileId 1 3), (lit "ca.pem").
      do 5 (split; [vm_compute; reflexivity|]). split; [by eexists|]. split; [vm_compute; reflexivity|].
      split; [by eexists|]. done. }
  split; [exact Hready|].
  destruct (initialize_exact init_process init_fs (init_env 1000) 0 init_config [] init_sound) as [Hok _].
  exact (Hok Hready).
Defined.
