(* ===== verification/CaTrace.v ===== *)
(** What generating and exporting the certificate authority may do to files in
    any environment (src/ca.rs): other processes changing the directories
    between any two calls, any call failing. *)

From S2P Require Import Prelude RustStr BTree PolicyTypes UrlPath DnsName Identifiers SessionDoc.
From S2P Require Import Secrets FileConfig Telemetry DaemonConfig.
From S2P Require Import RustPath PosixFs SocketDirs StaleSockets CertAuthority.
From stdpp Require Import options.
Local Open Scope char_scope.

(** ** Traces in which every call is justified by what came before *)

Section guarded.
Context (allowed : trace → syscall → Prop).

Fixpoint guarded (pre tr : trace) : Prop :=
  match tr with
  | [] => True
  | (c, r) :: rest => allowed pre c ∧ guarded (pre ++ [(c, r)]) rest
  end.

Lemma guarded_app tr1 : ∀ pre tr2,
  guarded pre (tr1 ++ tr2) ↔ guarded pre tr1 ∧ guarded (pre ++ tr1) tr2.
Proof.
  induction tr1 as [|[c r] tr1 IH]; intros pre tr2; cbn; [rewrite app_nil_r; tauto|].
  rewrite IH, <- app_assoc. cbn. tauto.
Qed.

(** After the calls [pre], the calls of [m] are justified and its answer and
    the calls so far satisfy [Q]. *)
Definition guards {A} (pre : trace) (m : Sys A) (Q : A → trace → Prop) : Prop :=
  emits (λ a tr, guarded pre tr ∧ Q a (pre ++ tr)) m.

Lemma guards_ret {A} pre (a : A) (Q : A → trace → Prop) : Q a pre → guards pre (mret a) Q.
Proof. intros HQ. apply emits_ret. by rewrite app_nil_r. Qed.

Lemma guards_bind {A B} pre (m : Sys A) (f : A → Sys B) Q :
  guards pre m (λ a pre', guards pre' (f a) Q) → guards pre (m ≫= f) Q.
Proof.
  intros Hm. eapply emits_bind; [exact Hm|]. cbn. intros a tr1 [H1 Hf].
  eapply emits_mono; [exact Hf|]. cbn. intros b tr2 [H2 HQ]. rewrite guarded_app, (assoc_L (++)). done.
Qed.

Lemma guards_mono {A} pre (m : Sys A) (P Q : A → trace → Prop) :
  guards pre m P → (∀ a pre', P a pre' → Q a pre') → guards pre m Q.
Proof. intros Hm HPQ. eapply emits_mono; [exact Hm|]. cbn. intros a tr [? ?]. auto. Qed.

Lemma guards_libc {A} pre (view : sysret → result errno A) c (Q : result errno A → trace → Prop) :
  allowed pre c → (∀ r, Q (view r) (pre ++ [(c, r)])) → guards pre (libc view c) Q.
Proof. intros Hc HQ. apply emits_libc. intros r. cbn. split; [by split|apply HQ]. Qed.

Lemma guards_cwd {A} pre (f : FileId → Sys A) Q : (∀ cwd, guards pre (f cwd) Q) → guards pre (with_cwd f) Q.
Proof. apply emits_cwd. Qed.

Lemma guards_std_path {A} pre path (f : FileId → Sys (result errno A)) Q :
  (∀ cwd, guards pre (f cwd) Q) → Q (Err EINVAL) pre → guards pre (std_path path f) Q.
Proof. intros Hf HQ. unfold std_path. destruct (contains_char _ _); [by apply guards_ret|by apply guards_cwd]. Qed.

Lemma guards_or_fail {A B} pre message (m : Sys (result errno A)) (k : A → Sys (result anyhow B)) Q :
  guards pre m (λ r pre', match r with Ok a => guards pre' (k a) Q | Err _ => Q (Err message) pre' end) →
  guards pre (or_fail message m k) Q.
Proof.
  intros Hm. apply guards_bind. eapply guards_mono; [exact Hm|]. cbn. intros [a|e] pre' HQ; [done|by apply guards_ret].
Qed.

Lemma guards_try {E A B} pre (m : Sys (result E A)) (k : A → Sys (result E B)) Q :
  guards pre m (λ r pre', match r with Ok a => guards pre' (k a) Q | Err e => Q (Err e) pre' end) →
  guards pre (sys_try m k) Q.
Proof.
  intros Hm. apply guards_bind. eapply guards_mono; [exact Hm|]. cbn. intros [a|e] pre' HQ; [done|by apply guards_ret].
Qed.
End guarded.

(** ** Looking *)

(** The calls that change nothing. *)
Definition looks (c : syscall) : bool :=
  match c with
  | Fstatat _ _ | Stat_follow _ _ | Read_file _ _ | Real_directory _ _ | Fsync _ | Getcwd => true
  | _ => false
  end.

Section looking.
Context `{CaCrypto} (allowed : trace → syscall → Prop).
Hypothesis Hlooks : ∀ pre c, looks c = true → allowed pre c.

(** Looking only makes the trace longer. *)
Definition only_looks {A} (m : Sys A) : Prop := ∀ pre, guards allowed pre m (λ _ pre', pre `prefix_of` pre').

Lemma only_looks_ret {A} (a : A) : only_looks (mret a).
Proof. intros pre. by apply guards_ret. Qed.
Lemma only_looks_bind {A B} (m : Sys A) (f : A → Sys B) : only_looks m → (∀ a, only_looks (f a)) → only_looks (m ≫= f).
Proof.
  intros Hm Hf pre. apply guards_bind. eapply guards_mono; [apply Hm|]. cbn. intros a pre' H1.
  eapply guards_mono; [apply Hf|]. cbn. intros _ pre'' H2. by trans pre'.
Qed.
Lemma only_looks_path {A} (view : sysret → result errno A) path c :
  (∀ cwd, looks (c cwd) = true) → only_looks (std_path path (λ cwd, libc view (c cwd))).
Proof using Hlooks.
  intros Hc pre. apply guards_std_path; [|done]. intros cwd. apply guards_libc; [by apply Hlooks|].
  intros r. by apply prefix_app_r.
Qed.

Create HintDb looks.
Hint Resolve only_looks_ret : looks.
Hint Extern 1 (only_looks (_ ≫= _)) => apply only_looks_bind; [|intros ?] : looks.
Hint Extern 1 (only_looks (sys_try _ _)) => apply only_looks_bind; [|intros [?|?]] : looks.
Hint Extern 1 (only_looks (or_fail _ _ _)) => apply only_looks_bind; [|intros [?|?]] : looks.
Hint Extern 1 (only_looks (std_path _ _)) => apply only_looks_path; reflexivity : looks.
Hint Extern 2 (only_looks (if ?b then _ else _)) => destruct b : looks.

Lemma only_looks_certificate now path : only_looks (public_ca_certificate_load now path).
Proof using Hlooks. unfold public_ca_certificate_load, fs_metadata, fs_read. auto 10 with looks. Qed.
Lemma only_looks_key path : only_looks (read_private_key path).
Proof using Hlooks.
  unfold read_private_key, fs_symlink_metadata, fs_read.
  apply only_looks_bind; [auto with looks|]. intros [st|e]; [|auto with looks].
  destruct (negb (is_file st)); [auto with looks|]. destruct (validate_private_key_permissions st); auto with looks.
Qed.
Hint Resolve only_looks_certificate only_looks_key : looks.
Lemma only_looks_load now c : only_looks (managed_ca_load now c).
Proof using Hlooks. unfold managed_ca_load. auto 10 with looks. Qed.
Lemma only_looks_parent path : only_looks (validate_target_parent path).
Proof using Hlooks. unfold validate_target_parent, fs_metadata, fs_canonicalize. cbv zeta. auto 10 with looks. Qed.
Lemma only_looks_conflicts paths : only_looks (find_conflicts paths).
Proof using Hlooks.
  induction paths as [|path paths IH]; cbn [find_conflicts]; [auto with looks|].
  apply only_looks_bind; [unfold fs_symlink_metadata; auto with looks|]. intros [st|e].
  - apply only_looks_bind; [done|]. intros [?|?]; auto with looks.
  - destruct (decide _); auto with looks.
Qed.
End looking.

(** A trace of looking only. *)
Lemma guarded_looks tr : ∀ pre, guarded (λ _ c, looks c = true) pre tr → Forall (λ cr : syscall * sysret, looks cr.1 = true) tr.
Proof. induction tr as [|[c r] tr IH]; intros pre Hg; constructor; [apply Hg|]. eapply IH. apply Hg. Qed.

(** ** What [initialize] may do *)

Definition succeeded (r : sysret) : bool := is_ok (as_unit r).

(** A file created under this path, by this program, as a new file. *)
Definition created_here (pre : trace) (path : str) : Prop :=
  ∃ d mode fd, (Create_new d path mode, RFd fd) ∈ pre.

(** The last call saw a regular file at the path, and it is the file that was
    linked there. *)
Definition seen_linked (pre : trace) (path : str) : Prop :=
  ∃ before d st d1 old st' d2 r,
    pre = before ++ [(Fstatat d path, RStat st)] ∧ is_file st = true ∧
    (Stat_follow d1 old, RStat st') ∈ before ∧ st_id st' = st_id st ∧
    (Link d2 old path, r) ∈ before ∧ succeeded r = true ∧ created_here before old.

Section initialize.
Context `{CaCrypto} (env : InitEnv) (config : CaConfig).

(** The two files and their modes. *)
Definition target_mode (target : str) (mode : N) : Prop :=
  (target = ca_private_key config ∧ mode = 384%N) ∨ (target = ca_certificate config ∧ mode = 420%N).

(** The text written to a file of this mode: the key only to one of mode 0600. *)
Definition content_mode (contents : str) (mode : N) : Prop :=
  ∃ key certificate, generate_pair env = Ok (key, certificate) ∧
    ((contents = key ∧ mode = 384%N) ∨ (contents = certificate ∧ mode = 420%N)).

Definition init_allowed (pre : trace) (c : syscall) : Prop :=
  match c with
  | Create_new _ path mode =>
      ∃ target sequence, path = path_join (parent_or_dot target) (temporary_name (ie_pid env) sequence) ∧
        target_mode target mode
  | Fchmod fd mode => ∃ d path, (Create_new d path mode, RFd fd) ∈ pre
  | Write fd contents =>
      ∃ d path mode r, (Create_new d path mode, RFd fd) ∈ pre ∧ (Fchmod fd mode, r) ∈ pre ∧ succeeded r = true ∧
        content_mode contents mode
  | Link _ old new => created_here pre old ∧ (new = ca_private_key config ∨ new = ca_certificate config)
  | Unlinkat _ path removedir => removedir = false ∧ (created_here pre path ∨ seen_linked pre path)
  | c => looks c = true
  end.

Local Abbreviation ig := (guards init_allowed).

Lemma looks_allowed pre c : looks c = true → init_allowed pre c.
Proof. by destruct c. Qed.

(** ** Temporary files *)

Lemma create_temporary_guards tries target mode : target_mode target mode → ∀ sequence pre,
  ig pre (create_temporary tries (ie_pid env) (parent_or_dot target) mode sequence) (λ r pre',
    pre `prefix_of` pre' ∧
    ∀ path fd, r.2 = Ok (path, fd) → ∃ d, (Create_new d path mode, RFd fd) ∈ pre').
Proof.
  intros Hm. induction tries as [|tries IH]; intros sequence pre; cbn [create_temporary].
  { apply guards_ret. by split. }
  apply guards_bind, guards_std_path.
  - intros cwd. apply guards_libc; [by exists target, sequence|]. intros r.
    assert (Hpre : ∀ x, pre `prefix_of` pre ++ [x]) by (intros; by apply prefix_app_r).
    assert (Hagain : ig (pre ++ [(Create_new cwd (path_join (parent_or_dot target) (temporary_name (ie_pid env) sequence)) mode, r)])
              (create_temporary tries (ie_pid env) (parent_or_dot target) mode (fetch_add1 sequence)) (λ r pre',
      pre `prefix_of` pre' ∧ ∀ path fd, r.2 = Ok (path, fd) → ∃ d, (Create_new d path mode, RFd fd) ∈ pre')).
    { eapply guards_mono; [apply IH|]. cbn. intros a pre' [H1 H2]. split; [|done]. etrans; [apply Hpre|exact H1]. }
    destruct (as_fd r) as [fd|e] eqn:Hr.
    + apply guards_ret. split; [apply Hpre|]. intros path fd' [= <- <-]. exists cwd.
      destruct r; try done. injection Hr as ->. apply elem_of_app. right. by apply list_elem_of_singleton.
    + destruct (decide _); [exact Hagain|]. apply guards_ret. split; [apply Hpre|done].
  - change (errno_kind EINVAL) with InvalidInput. rewrite decide_False by done. apply guards_ret. by split.
Qed.

Lemma created_here_mono pre pre' path : pre `prefix_of` pre' → created_here pre path → created_here pre' path.
Proof. intros [tr ->] (d & mode & fd & Hin). exists d, mode, fd. apply elem_of_app. by left. Qed.

Lemma write_temporary_file_guards target contents mode sequence temporary_paths pre :
  target_mode target mode → content_mode contents mode →
  Forall (created_here pre) temporary_paths →
  ig pre (write_temporary_file (ie_pid env) target contents mode sequence temporary_paths) (λ r pre',
    pre `prefix_of` pre' ∧ Forall (created_here pre') r.1.2 ∧ ∀ path, r.2 = Ok path → created_here pre' path).
Proof.
  intros Hm Hc Htemps. apply guards_bind. eapply guards_mono; [by apply create_temporary_guards|]. cbn beta.
  intros [seq [[path fd]|e]] pre1 [H1 Hcr]; cbn iota beta.
  2:{ apply guards_ret. split; [done|]. split; [|done]. eapply Forall_impl; [exact Htemps|].
      intros q. by apply created_here_mono. }
  destruct (Hcr path fd eq_refl) as [d Hin]. apply guards_bind.
  eapply guards_mono with (P := λ r pre', pre1 `prefix_of` pre' ∧ (∀ q, r = Ok q → q = path)).
  - apply guards_or_fail, guards_libc; [by exists d, path|]. intros r1. destruct (as_unit r1) as [[]|] eqn:Hr1.
    2:{ split; [by apply prefix_app_r|done]. }
    apply guards_or_fail, guards_libc.
    { exists d, path, mode, r1. split; [apply elem_of_app; by left|].
      split; [apply elem_of_app; right; by apply list_elem_of_singleton|].
      split; [unfold succeeded; by rewrite Hr1|done]. }
    intros r2. destruct (as_unit r2); [|split; [rewrite <- app_assoc; by apply prefix_app_r|done]].
    apply guards_or_fail, guards_libc; [done|]. intros r3.
    assert (Hp : ∀ x y z : syscall * sysret, pre1 `prefix_of` ((pre1 ++ [x]) ++ [y]) ++ [z]).
    { intros. rewrite <- !app_assoc. by apply prefix_app_r. }
    destruct (as_unit r3); [apply guards_ret|]; (split; [apply Hp|]); naive_solver.
  - cbn beta. intros r pre2 [H2 Hr]. apply guards_ret. cbn [fst snd].
    assert (Hp : pre `prefix_of` pre2) by (by trans pre1).
    assert (Hpath : created_here pre2 path) by (eapply created_here_mono; [exact H2|by exists d, mode, fd]).
    split; [done|]. split; [|intros q Hq; by rewrite (Hr q Hq)]. apply Forall_app. split; [|by repeat constructor].
    eapply Forall_impl; [exact Htemps|]. intros q. by apply created_here_mono.
Qed.

(** ** Installing and taking away *)

(** A target this program linked, with the identity it saw. *)
Definition linked_here (pre : trace) (linked : LinkedTarget) : Prop :=
  ∃ d1 old st' d2 r,
    (Stat_follow d1 old, RStat st') ∈ pre ∧ st_id st' = lt_identity linked ∧
    (Link d2 old (lt_target linked), r) ∈ pre ∧ succeeded r = true ∧ created_here pre old.

Lemma linked_here_mono pre pre' l : pre `prefix_of` pre' → linked_here pre l → linked_here pre' l.
Proof.
  intros Hp (d1 & old & st' & d2 & r & H1 & Hid & H2 & Hr & Hc).
  exists d1, old, st', d2, r. split; [|split; [done|split; [|split; [done|by eapply created_here_mono]]]].
  - destruct Hp as [tr ->]. apply elem_of_app. by left.
  - destruct Hp as [tr ->]. apply elem_of_app. by left.
Qed.

Lemma install_guards temporary target linked pre :
  created_here pre temporary → (target = ca_private_key config ∨ target = ca_certificate config) →
  Forall (linked_here pre) linked →
  ig pre (install_without_overwrite temporary target linked) (λ r pre',
    pre `prefix_of` pre' ∧ Forall (linked_here pre') r.1).
Proof.
  intros Hc Ht Hl. apply guards_bind, guards_bind, guards_std_path.
  2:{ apply guards_ret. cbn [fmap result_fmap]. apply guards_ret. by split. }
  intros cwd. apply guards_libc; [done|]. intros r. set (pre1 := pre ++ _).
  assert (H1 : pre `prefix_of` pre1) by (by apply prefix_app_r).
  assert (Hl1 : Forall (linked_here pre1) linked).
  { eapply Forall_impl; [exact Hl|]. intros l. by apply linked_here_mono. }
  apply guards_ret. destruct (as_stat r) as [st|e] eqn:Hr; cbn [fmap result_fmap]; [|apply guards_ret; by split].
  assert (Hst : (Stat_follow cwd temporary, RStat st) ∈ pre1).
  { destruct r; try done. injection Hr as ->. apply elem_of_app. right. by apply list_elem_of_singleton. }
  assert (Hc1 : created_here pre1 temporary) by (by eapply created_here_mono).
  apply guards_bind. unfold fs_hard_link. apply guards_std_path.
  2:{ apply guards_ret. by split. }
  intros _. apply guards_std_path.
  2:{ apply guards_ret. by split. }
  intros cwd2. apply guards_libc; [by split|]. intros r2. set (pre2 := pre1 ++ _).
  assert (H2 : pre1 `prefix_of` pre2) by (by apply prefix_app_r).
  assert (Hl2 : Forall (linked_here pre2) linked).
  { eapply Forall_impl; [exact Hl1|]. intros l. by apply linked_here_mono. }
  apply guards_ret. destruct (as_unit r2) as [[]|e] eqn:Hr2; cbn [fst]; (split; [by trans pre1|]); [|done].
  apply Forall_app. split; [done|]. repeat constructor. exists cwd, temporary, st, cwd2, r2.
  split; [apply elem_of_app; by left|]. split; [done|].
  split; [apply elem_of_app; right; by apply list_elem_of_singleton|].
  split; [unfold succeeded; by rewrite Hr2|by eapply created_here_mono].
Qed.

Lemma remove_paths_guards paths : ∀ pre,
  Forall (created_here pre) paths → ig pre (remove_paths paths) (λ _ pre', pre `prefix_of` pre').
Proof.
  induction paths as [|path paths IH]; intros pre Hp; cbn [remove_paths]; [by apply guards_ret|].
  apply Forall_cons in Hp as [Hpath Hp]. apply guards_bind, guards_std_path.
  - intros cwd. apply guards_libc; [split; [done|by left]|]. intros r. apply guards_bind.
    assert (H1 : ∀ x, pre `prefix_of` pre ++ [x]) by (intros; by apply prefix_app_r).
    eapply guards_mono; [apply IH|].
    { eapply Forall_impl; [exact Hp|]. intros q. by apply created_here_mono. }
    cbn beta. intros errors pre' H2. apply guards_ret. etrans; [apply H1|exact H2].
  - apply guards_bind. eapply guards_mono; [by apply IH|]. cbn beta. intros errors pre' H2. by apply guards_ret.
Qed.

Lemma remove_each_linked_guards targets : ∀ pre,
  Forall (linked_here pre) targets → ig pre (remove_each_linked targets) (λ _ pre', pre `prefix_of` pre').
Proof.
  induction targets as [|linked targets IH]; intros pre Hl; cbn [remove_each_linked]; [by apply guards_ret|].
  apply Forall_cons in Hl as [Hlinked Hl].
  assert (Hrest : ∀ pre1 (here : list str), pre `prefix_of` pre1 →
    ig pre1 (errors ← remove_each_linked targets; mret (here ++ errors)) (λ _ pre', pre `prefix_of` pre')).
  { intros pre1 here H1. apply guards_bind. eapply guards_mono; [apply IH|].
    { eapply Forall_impl; [exact Hl|]. intros q. by apply linked_here_mono. }
    cbn beta. intros errors pre2 H2. apply guards_ret. by trans pre1. }
  apply guards_bind, guards_bind, guards_std_path.
  2:{ change (errno_kind EINVAL) with InvalidInput. apply guards_ret. rewrite decide_False by done.
      apply guards_bind, guards_ret. by apply Hrest. }
  intros cwd. apply guards_libc; [done|]. intros r. set (pre1 := pre ++ _).
  assert (H1 : pre `prefix_of` pre1) by (by apply prefix_app_r). apply guards_ret.
  destruct (as_stat r) as [st|e] eqn:Hr.
  2:{ destruct (decide _); apply guards_bind, guards_ret; by apply Hrest. }
  destruct (is_file st && bool_decide (st_id st = lt_identity linked)) eqn:Hsame;
    [|apply guards_bind, guards_ret; by apply Hrest].
  apply andb_true_iff in Hsame as [Hfile Hid%bool_decide_eq_true].
  apply guards_bind, guards_bind, guards_std_path; [|apply guards_ret; by apply Hrest].
  intros cwd2. apply guards_libc.
  - split; [done|]. right. destruct Hlinked as (d1 & old & st' & d2 & r' & Hs & Hs' & Hk & Hk' & Hc).
    destruct r; try done. injection Hr as ->.
    exists pre, cwd, st, d1, old, st', d2, r'. repeat (split; [done||congruence|]). done.
  - intros r2. apply guards_ret. apply Hrest. etrans; [exact H1|]. by apply prefix_app_r.
Qed.

(** ** The whole *)

Lemma initialize_pair_guards sequence pre :
  ig pre (initialize_pair env sequence config) (λ r pre',
    pre `prefix_of` pre' ∧ Forall (created_here pre') r.1.1.2 ∧ Forall (linked_here pre') r.1.2).
Proof.
  unfold initialize_pair. destruct (generate_pair env) as [[key certificate]|e] eqn:Hg.
  2:{ apply guards_ret. by repeat split; try constructor. }
  apply guards_bind. eapply guards_mono.
  { apply write_temporary_file_guards; [by left|exists key, certificate; by auto|constructor]. }
  cbn beta. intros [[seq1 temps1] [tk|e]] pre1 (H1 & Ht1 & Hk1); cbn [fst snd] in *.
  2:{ apply guards_ret. by repeat split; try constructor. }
  apply guards_bind. eapply guards_mono.
  { apply write_temporary_file_guards; [by right|exists key, certificate; by auto|exact Ht1]. }
  cbn beta. intros [[seq2 temps2] [tc|e]] pre2 (H2 & Ht2 & Hk2); cbn [fst snd] in *.
  2:{ apply guards_ret. split; [by trans pre1|]. split; [done|constructor]. }
  specialize (Hk1 tk eq_refl). specialize (Hk2 tc eq_refl).
  apply guards_bind. eapply guards_mono; [apply (only_looks_load init_allowed looks_allowed)|]. cbn beta. intros [ca|e] pre3 H3.
  2:{ apply guards_ret. split; [by trans pre1; [|trans pre2]|]. split; [|constructor].
      eapply Forall_impl; [exact Ht2|]. intros q. by apply created_here_mono. }
  apply guards_bind.
  assert (Htk : created_here pre3 tk) by (eapply created_here_mono; [|exact Hk1]; by trans pre2).
  assert (Htc : created_here pre3 tc) by (by eapply created_here_mono).
  eapply guards_mono with (P := λ r pre', pre3 `prefix_of` pre' ∧ Forall (linked_here pre') r.1).
  - apply guards_bind. eapply guards_mono; [apply install_guards; [done|by left|constructor]|]. cbn beta.
    intros [linked1 [[]|e]] pre4 [H4 Hl4]; cbn [fst] in *; [|by apply guards_ret].
    apply guards_bind. eapply guards_mono.
    { apply install_guards; [by eapply created_here_mono|by right|exact Hl4]. }
    cbn beta. intros [linked2 [[]|e]] pre5 [H5 Hl5]; cbn [fst] in *; [|apply guards_ret; split; [by trans pre4|done]].
    apply guards_bind. eapply guards_mono; [apply (only_looks_load init_allowed looks_allowed)|]. cbn beta. intros loaded pre6 H6.
    apply guards_ret. split; [trans pre4; [done|by trans pre5]|].
    eapply Forall_impl; [exact Hl5|]. intros q. by apply linked_here_mono.
  - cbn beta. intros [linked r] pre4 [H4 Hl4]. apply guards_ret. cbn [fst snd] in *.
    split; [trans pre1; [done|trans pre2; [done|by trans pre3]]|]. split; [|done].
    eapply Forall_impl; [exact Ht2|]. intros q. apply created_here_mono. by trans pre3.
Qed.

Lemma finish_initialize_guards temps linked r pre :
  Forall (created_here pre) temps → Forall (linked_here pre) linked →
  ig pre (finish_initialize temps linked r) (λ _ _, True).
Proof.
  intros Ht Hl. assert (Hl' : Forall (linked_here pre) (rev linked)) by (by apply Forall_rev).
  unfold finish_initialize, remove_linked_targets. destruct r as [[]|e]; apply guards_bind.
  - eapply guards_mono; [by apply remove_paths_guards|]. cbn beta. intros errors pre1 H1.
    destruct (decide _); [by apply guards_ret|]. apply guards_bind.
    eapply guards_mono; [apply remove_each_linked_guards|cbn beta; intros; by apply guards_ret].
    eapply Forall_impl; [exact Hl'|]. intros q. by apply linked_here_mono.
  - eapply guards_mono; [by apply remove_each_linked_guards|]. cbn beta. intros errors pre1 H1. apply guards_bind.
    eapply guards_mono; [apply remove_paths_guards|cbn beta; intros; by apply guards_ret].
    eapply Forall_impl; [exact Ht|]. intros q. by apply created_here_mono.
Qed.

Lemma initialize_guards sequence : ig [] (initialize env sequence config) (λ _ _, True).
Proof.
  unfold initialize. apply guards_try. eapply guards_mono; [apply (only_looks_parent init_allowed looks_allowed)|]. cbn beta. intros [d1|] pre1 _; [|done].
  apply guards_try. eapply guards_mono; [apply (only_looks_parent init_allowed looks_allowed)|]. cbn beta. intros [d2|] pre2 _; [|done].
  destruct (file_name _); [|by apply guards_ret]. destruct (file_name _); [|by apply guards_ret].
  destruct (bool_decide _); [by apply guards_ret|]. apply guards_try.
  eapply guards_mono; [apply (only_looks_conflicts init_allowed looks_allowed)|]. cbn beta. intros [conflicts|] pre3 _; [|done].
  destruct (decide (conflicts = [])); [|by apply guards_ret]. apply guards_bind.
  eapply guards_mono; [apply initialize_pair_guards|]. cbn beta.
  intros [[[seq temps] linked] r] pre4 (_ & Ht & Hl). by apply finish_initialize_guards.
Qed.
End initialize.

(** C17: in every environment, generating the authority creates only new files,
    under temporary names beside the targets, the key's with mode 0600; writes
    to them only once their mode is set, the key only to the file of mode 0600;
    links only such files, and only to the two targets; and removes a name only
    if it created it as a new file, or right after it saw there the very file
    it had linked. It makes no other change. *)
Theorem initialize_checked `{CaCrypto} env sequence config w :
  ∃ tr, w_trace (initialize env sequence config w).2 = w_trace w ++ tr ∧ guarded (init_allowed env config) [] tr.
Proof. destruct (initialize_guards env config sequence w) as (tr & Htr & Hg & _). by exists tr. Qed.
