(* ===== verification/Daemon.v ===== *)
(** The daemon's entry points (src/daemon.rs, [DaemonConfig::load] of
    src/config/daemon.rs): reading the configuration file, the certificate
    authority commands, and the daemon from its configuration to its shutdown.

    Serving (the [select!] between the control server and the interrupt) is an
    argument of [run_with_config]: its parts are modelled in ControlServer and
    SessionSystem. The TOML deserialiser is a parameter. *)

From S2P Require Import Prelude RustStr BTree PolicyTypes UrlPath DnsName Identifiers SessionDoc.
From S2P Require Import Secrets FileConfig SessionPolicy Telemetry ProxyRuntime Registry Reload.
From S2P Require Import AsyncIo ControlFrame ControlServer DaemonConfig.
From S2P Require Import RustPath PosixFs SocketDirs StaleSockets ControlStartup.
From S2P Require Import FsOverlay CertAuthority CaLoad CaInit CaTrace.
From stdpp Require Import options.
Local Open Scope char_scope.

(** ** [DaemonConfig::load] *)

Class DaemonToml := toml_daemon : str → option RawDaemonConfig.

Inductive load_error :=
| ConfigUnreadable
| ConfigDirectoryUnresolved
| ConfigSyntax
| ConfigInvalid (e : daemon_error).

(** The components of the directory without [.], pushed one by one. *)
Definition config_directory (absolute_parent : str) : str :=
  foldl path_join [] (component_os_str <$> filter (λ c, c ≠ CurDirC) (components absolute_parent)).

Definition daemon_config_load `{DaemonToml} (path : str) : Sys (result load_error DaemonConfig) :=
  input ← fs_read path;
  match input with
  | Err _ => mret (Err ConfigUnreadable)
  | Ok input =>
      if negb (from_utf8 input) then mret (Err ConfigUnreadable)
      else
        let parent := parent_or_dot path in
        absolute_parent ← (if RustPath.is_absolute parent then mret (Ok parent)
                           else cwd ← current_dir; mret ((λ d, path_join d parent) <$> cwd));
        match absolute_parent with
        | Err _ => mret (Err ConfigDirectoryUnresolved)
        | Ok absolute_parent =>
            mret (raw ← ok_or (toml_daemon input) ConfigSyntax;
                  map_err ConfigInvalid (from_toml_in_directory raw (Some (config_directory absolute_parent))))
        end
  end.

(** ** The authority commands *)

Section commands.
Context `{DaemonToml} `{CaCrypto}.

Definition load_config (path : str) : Sys (result anyhow DaemonConfig) :=
  r ← daemon_config_load path; mret (map_err (λ _, "invalid daemon configuration"%string) r).

(** [initialize_ca] *)
Definition initialize_ca (env : InitEnv) (sequence : N) (config_path : str) : Sys (result anyhow CaConfig) :=
  config ←? load_config config_path;
  _ ←? initialize env sequence (dc_ca config);
  mret (Ok (dc_ca config)).

(** [export_ca_certificate] *)
Definition export_ca_certificate (now : Z) (config_path output : str) : Sys (result anyhow unit) :=
  config ←? load_config config_path;
  export_public_certificate now (dc_ca config) output.

(** ** The daemon *)

Context {Fd : Type} `{ConfigFs Fd}.

(** The end of [ControlServer::shutdown] for the control socket: the listener
    is closed first, the socket removed last. *)
Definition shutdown_sockets (server : BoundServer (Fd:=Fd)) (drain : Sys unit) : Sys unit :=
  _ ← close_listener (bs_listener server);
  _ ← drain;
  drop_socket_guard (bs_socket_guard server).

(** [run_with_config]; [serve] is the daemon's life until it is interrupted,
    [drain] the shutdown of its sessions. *)
Definition run_with_config (now : Z) (fuel : nat) (serve : BoundServer (Fd:=Fd) → Sys (result anyhow unit))
    (drain : Sys unit) (config : DaemonConfig) : Sys (option (result anyhow unit)) :=
  ca ← managed_ca_load now (dc_ca config);
  match ca with
  | Err _ => mret (Some (Err "invalid daemon CA material"%string))
  | Ok _ =>
      bound ← server_bind fuel config;
      match bound with
      | None => mret None
      | Some (Err e) => mret (Some (Err e))
      | Some (Ok server) =>
          result ← serve server;
          _ ← shutdown_sockets server drain;
          mret (Some result)
      end
  end.

Definition run (now : Z) (fuel : nat) (serve : BoundServer (Fd:=Fd) → Sys (result anyhow unit)) (drain : Sys unit)
    (config_path : str) : Sys (option (result anyhow unit)) :=
  config ← load_config config_path;
  match config with
  | Err e => mret (Some (Err e))
  | Ok config => run_with_config now fuel serve drain config
  end.
End commands.

(** ** Loaded configurations *)

Lemma path_join_absolute base q : RustPath.is_absolute base = true → RustPath.is_absolute (RustPath.path_join base q) = true.
Proof.
  unfold RustPath.path_join, RustPath.is_absolute. intros Hb. destruct (starts_with ["/"] q) eqn:Hq; [done|].
  apply starts_with_true in Hb as [k ->]. apply starts_with_true. destruct (last _) as [c|]; [|by eexists].
  destruct (decide (c = "/")) as [->|]; [by eexists|].
  assert (Hc : ∃ s, match c with "/" => (["/"] ++ k) ++ q | _ => (["/"] ++ k) ++ "/" :: q end = "/" :: s).
  { destruct c as [[] [] [] [] [] [] [] []]; by eexists. }
  destruct Hc as [s Hs]. exists s. exact Hs.
Qed.

Lemma config_directory_absolute parent : RustPath.is_absolute parent = true → RustPath.is_absolute (config_directory parent) = true.
Proof.
  intros Hp. unfold config_directory, components. rewrite Hp. cbn [app]. rewrite filter_cons_True by done.
  cbn [fmap list_fmap foldl component_os_str]. change (RustPath.path_join [] ["/"]) with ["/"].
  generalize (component_os_str <$> filter (λ c, c ≠ CurDirC) (concat (segment <$> split "/" parent))). intros l.
  assert (Hb : RustPath.is_absolute ["/"] = true) by done. revert Hb. generalize (["/"] : str).
  induction l as [|c l IH]; intros base Hb; [done|]. cbn. apply IH. by apply path_join_absolute.
Qed.

(** What [getcwd] answers, whatever happens to the file system. *)
Lemma current_dir_answer w d : (current_dir w).1 = Ok d → d = p_cwd_path (w_proc w).
Proof.
  unfold current_dir. rewrite sys_bind_run. cbn [mret sys_ret fst]. unfold libc. rewrite sys_bind_run. cbn [mret sys_ret fst].
  unfold do_call. destruct (match w_schedule w with [] => _ | _ => _ end) as [ev rest].
  destruct (ev_fault ev); cbn; [done|]. by intros [= <-].
Qed.

Lemma fs_read_process path w : w_proc (fs_read path w).2 = w_proc w.
Proof.
  unfold fs_read, std_path. destruct (contains_char _ _); [done|]. unfold with_cwd, libc. rewrite sys_bind_run. cbn [mret sys_ret snd].
  unfold do_call. destruct (match w_schedule w with [] => _ | _ => _ end) as [ev rest].
  destruct (ev_fault ev); cbn [snd w_proc]; [done|]. by destruct (exec _ _ _).
Qed.

(** The directory a loaded configuration was resolved against is absolute. *)
Lemma daemon_config_load_Ok `{DaemonToml} path w c :
  RustPath.is_absolute (p_cwd_path (w_proc w)) = true → (daemon_config_load path w).1 = Ok c →
  ∃ input raw directory, (fs_read path w).1 = Ok input ∧ from_utf8 input = true ∧ toml_daemon input = Some raw ∧
    RustPath.is_absolute directory = true ∧ from_toml_in_directory raw (Some directory) = Ok c.
Proof.
  intros Hcwd. unfold daemon_config_load. rewrite sys_bind_run. destruct (fs_read path w).1 as [input|]; [|done].
  destruct (from_utf8 input) eqn:Hu; cbn [negb]; [|done]. cbv zeta. rewrite sys_bind_run.
  set (m := if RustPath.is_absolute (parent_or_dot path) then _ else _).
  assert (Habs : ∀ q, (m (fs_read path w).2).1 = Ok q → RustPath.is_absolute q = true).
  { intros q. unfold m. destruct (RustPath.is_absolute (parent_or_dot path)) eqn:Hp; [by intros [= <-]|].
    rewrite sys_bind_run. cbn [mret sys_ret fst]. destruct (current_dir _).1 as [d|] eqn:Hd; [|done]. intros [= <-].
    apply current_dir_answer in Hd as ->. rewrite fs_read_process. by apply path_join_absolute. }
  destruct (m _).1 as [q|]; [|done]. intros Hr. cbn [mret sys_ret fst] in Hr.
  apply bind_Ok_inv in Hr as (raw & Hraw%ok_or_Ok_inv & Hc%map_err_Ok_inv).
  exists input, raw, (config_directory q). do 3 (split; [done|]). split; [by apply config_directory_absolute, Habs|done].
Qed.

(** C26: a configuration the daemon loads is usable, whatever happens to the
    file system meanwhile and however the file is named: every path in it is
    absolute, every limit and timeout that bounds a resource is positive,
    session files are configured exactly in file-only mode and in a directory
    that start-up refuses only for what the file system says of it, and the
    secret entitlements are exactly the listed names, valid and without
    repetition. *)
Theorem daemon_config_load_sound {Fd} `{!ConfigFs Fd} `{DaemonToml} path w c :
  RustPath.is_absolute (p_cwd_path (w_proc w)) = true → (daemon_config_load path w).1 = Ok c →
  Forall (λ p, RustPath.is_absolute p = true)
    [ds_control_socket (dc_daemon c); ds_socket_dir (dc_daemon c); ca_certificate (dc_ca c);
     ca_private_key (dc_ca c); ssc_directory (dc_secrets c)] ∧
  Forall (λ n, (0 < n)%N)
    [ds_max_sessions (dc_daemon c); ds_max_connections_per_session (dc_daemon c);
     ds_control_read_timeout_ms (dc_daemon c); ds_max_provisioning_requests (dc_daemon c);
     ds_io_timeout_ms (dc_daemon c)] ∧
  (ds_create_mode (dc_daemon c) = FileOnly ↔ is_Some (ds_session_config_dir (dc_daemon c))) ∧
  (∀ dir uid e, ds_session_config_dir (dc_daemon c) = Some dir →
     open_trusted_directory_tree (Fd := Fd) dir uid = Err e → shape_error e = false) ∧
  ∃ input raw, (fs_read path w).1 = Ok input ∧ toml_daemon input = Some raw ∧
    ssc_allowed (dc_secrets c) = list_to_set (rss_allowed (rdc_secrets raw)) ∧
    NoDup (rss_allowed (rdc_secrets raw)) ∧ (∀ s, s ∈ ssc_allowed (dc_secrets c) → validate_secret_id s = true).
Proof.
  intros Hcwd Hc. destruct (daemon_config_load_Ok path w c Hcwd Hc) as (input & raw & directory & Hin & _ & Hraw & Hd & Hok).
  destruct (daemon_config_sound (Fd:=Fd) raw directory c Hd Hok) as (Hp & Hl & Hm & Hs & Ha & Hnd & Hv).
  do 4 (split; [done|]). by exists input, raw.
Qed.

(** ** From [ca init] to the daemon *)

(** The world a quiet run leaves is quiet. *)
Lemma ends_quiet {A} p fs (m : Sys A) (Q : A → Fs → Prop) tr :
  ends p fs m Q → ∃ a fs' tr', m (mkWorld p fs [] tr) = (a, mkWorld p fs' [] tr') ∧ Q a fs'.
Proof. intros (a & fs' & Hrun & HQ). destruct (Hrun tr) as [tr' Heq]. by exists a, fs', tr'. Qed.

Lemma ca_text_at `{CaCrypto} now now' pem parsed :
  ca_certificate_text now pem parsed → x_is_valid parsed now' = true → ca_certificate_text now' pem parsed.
Proof. intros (r & q & ? & ? & ? & ? & ? & ? & _) Hv. by exists r, q. Qed.

Lemma ca_text_parsed `{CaCrypto} now now' pem parsed parsed' :
  ca_certificate_text now pem parsed → ca_certificate_text now' pem parsed' → parsed = parsed'.
Proof. intros (r & q & Hp & _ & _ & Hx & _) (r' & q' & Hp' & _ & _ & Hx' & _). by simplify_eq. Qed.

(** The installed files, as [ManagedCa::load] looks for them. *)
Lemma installed_files `{CaCrypto} p fs0 fs env config ak ac :
  overlay (p_cwd p) fs0 [ak; ac] fs → Forall spelt [ak; ac] → pair_installed p env config ak ac fs →
  ∃ key certificate parsed ca,
    file_at fs true (p_cwd p) (ca_certificate config) certificate 420 ∧
    file_at fs false (p_cwd p) (ca_private_key config) key 384 ∧
    ca_certificate_text (ie_installed_now env) certificate parsed ∧ signing_pair certificate parsed key ca.
Proof.
  intros Ho Hsp (key & certificate & parsed & ca & _ & Hpk & Hpc & Hk & Hc & Ht & Hs).
  rewrite !Forall_cons in Hsp. destruct Hsp as (Hsk & Hsc & _). unfold spelt in *. rewrite Hpk in Hsk. rewrite Hpc in Hsc.
  exists key, certificate, parsed, ca. rewrite <- Hpk, <- Hpc.
  split; [split; [by rewrite Hpc|]; exists (a_inode ac), (p_euid p); split; [eapply overlay_resolve; [exact Ho|set_solver]|done]|].
  split; [split; [by rewrite Hpk|]; exists (a_inode ak), (p_euid p); split; [eapply overlay_resolve; [exact Ho|set_solver]|done]|].
  done.
Qed.

(** C24: what [ca init] installed, the daemon loads and [ca export] exports: after
    a successful initialisation nobody disturbs, the daemon accepts the pair at
    every time the certificate is valid, and refuses it at every other; and an
    export to a free name then creates a file with exactly that certificate. *)
Theorem ca_round_trip `{CaCrypto} p fs0 env sequence config tr :
  let run := initialize env sequence config (mkWorld p fs0 [] tr) in
  sound fs0 → run.1 = Ok () →
  ∃ certificate parsed ca,
    ca_certificate_text (ie_installed_now env) certificate parsed ∧ public_certificate_pem ca = certificate ∧
    (∀ now, if x_is_valid parsed now then (managed_ca_load now config run.2).1 = Ok ca
            else is_ok (managed_ca_load now config run.2).1 = false) ∧
    (∀ now output d n, x_is_valid parsed now = true → vacant p (w_fs run.2) output d n →
       let export := export_public_certificate now config output run.2 in
       export.1 = Ok () ∧ ∃ i, entries_of (w_fs export.2) d !! n = Some i ∧
         fs_inodes (w_fs export.2) !! i = Some (mkInode (Regular certificate) (p_euid p) (N.ldiff 420 (p_umask p)))).
Proof.
  intros run Hs Hok. destruct (ends_quiet _ _ _ _ tr (initialize_ends p fs0 env sequence config Hs)) as (r & fs & tr' & Hrun & Hout).
  unfold run in *. rewrite Hrun in *. cbn [fst snd w_fs] in *. subst r. destruct Hout as (ak & ac & Ho & Hsp & Hpair).
  destruct (installed_files _ _ _ _ _ _ _ Ho Hsp Hpair) as (key & certificate & parsed & ca & Hfc & Hfk & Ht & Hsign).
  exists certificate, parsed, ca. split; [done|]. split; [by destruct Hsign as (? & ? & ? & ? & _ & _ & _ & _ & _ & _ & _ & _ & _ & ?)|].
  split.
  - intros now. destruct (ends_world _ _ _ _ tr' (managed_ca_load_ends p fs now config)) as [_ Hload].
    destruct (x_is_valid parsed now) eqn:Hv.
    + apply Hload. exists certificate, key, parsed, 420%N, 384%N. split; [done|]. split; [done|]. split; [by right|].
      split; [by eapply ca_text_at|done].
    + destruct (managed_ca_load now config _).1 as [ca'|]; [|done].
      destruct (proj1 (Hload ca') eq_refl) as (pem & key' & parsed' & q & q' & Hf & _ & _ & Ht' & _).
      destruct (file_at_unique _ _ _ _ _ _ _ _ Hfc Hf) as [<- _].
      assert (parsed' = parsed) as -> by (symmetry; by eapply ca_text_parsed). destruct Ht' as (? & ? & _ & _ & _ & _ & _ & _ & ?). congruence.
  - intros now output d n Hv Hvac. destruct (export_exact p fs now config output tr' (ov_sound _ _ _ _ Ho)) as [Hiff Hres].
    assert (Hex : (export_public_certificate now config output (mkWorld p fs [] tr')).1 = Ok ()).
    { apply Hiff. exists certificate, 420%N, parsed, d, n. split; [done|]. split; [by eapply ca_text_at|done]. }
    split; [done|]. rewrite Hex in Hres. destruct Hres as (a & pem & q & parsed' & Ho' & Hpa & Hf & _ & Hn).
    destruct (file_at_unique _ _ _ _ _ _ _ _ Hfc Hf) as [<- _]. exists (a_inode a). split; [|done].
    assert (Hka : a_key a = (d, n)).
    { apply (overlay_key p fs (ov_sound _ _ _ _ Ho) [a] (w_fs (export_public_certificate now config output (mkWorld p fs [] tr')).2) a d n);
        [done|set_solver|by rewrite Hpa]. }
    apply (ov_entries _ _ _ _ Ho'). right. exists a. split; [set_solver|done].
Qed.

(** ** The daemon needs its authority *)

(** In every environment: without a valid authority the daemon fails before it
    makes any call that changes anything. *)
Lemma run_needs_ca `{CaCrypto} {Fd} `{ConfigFs Fd} now fuel serve drain config w :
  is_ok (managed_ca_load now (dc_ca config) w).1 = false →
  let res := run_with_config (Fd:=Fd) now fuel serve drain config w in
  res.1 = Some (Err "invalid daemon CA material"%string) ∧
  ∃ tr, w_trace res.2 = w_trace w ++ tr ∧ Forall (λ cr : syscall * sysret, looks cr.1 = true) tr.
Proof.
  intros Hca. cbv zeta. unfold run_with_config. rewrite sys_bind_run.
  destruct (only_looks_load (λ _ c, looks c = true) (λ _ c Hc, Hc) now (dc_ca config) [] w) as (tr & Htr & Hg & _).
  destruct (managed_ca_load now (dc_ca config) w).1 as [ca|e]; [done|]. split; [done|].
  exists tr. split; [done|]. by eapply guarded_looks.
Qed.

(** ** Examples *)

Lemma ca_round_trip_witness :
  is_ok (@managed_ca_load toy_crypto 2000 init_config
           (@initialize toy_crypto (init_env 1000) 0 init_config (mkWorld init_process init_fs [] [])).2).1 = true.
Proof.
  destruct (@ca_round_trip toy_crypto init_process init_fs (init_env 1000) 0 init_config [])
    as (certificate & parsed & ca & (r & q & _ & _ & _ & Hx & _) & _ & Hload & _).
  - exact init_sound.
  - vm_compute. reflexivity.
  - cbn in Hx. injection Hx as <-. specialize (Hload 2000%Z). cbn in Hload. by rewrite Hload.
Defined.

Definition config_fs : Fs := mkFs
  (list_to_map
     [ (mkFileId 1 2, mkInode (Directory {[ lit "etc" := mkFileId 1 3 ]} (mkFileId 1 2) false) 0 493);
       (mkFileId 1 3, mkInode (Directory {[ lit "daemon.toml" := mkFileId 1 4 ]} (mkFileId 1 2) false) 7 448);
       (mkFileId 1 4, mkInode (Regular (lit "config")) 7 384) ])
  (mkFileId 1 2).
Definition config_world : world := mkWorld init_process config_fs [] [].
Definition example_toml : DaemonToml := λ _, Some example_daemon_raw.

Example config_loads : is_ok (@daemon_config_load example_toml (lit "./etc/daemon.toml") config_world).1 = true.
Proof. vm_compute. reflexivity. Qed.

Lemma daemon_config_load_sound_witness :
  ∃ c, (@daemon_config_load example_toml (lit "./etc/daemon.toml") config_world).1 = Ok c ∧
    RustPath.is_absolute (ca_private_key (dc_ca c)) = true.
Proof.
  destruct (proj1 (is_ok_true _) config_loads) as [c Hc]. exists c. split; [exact Hc|].
  destruct (@daemon_config_load_sound str (example_fs []) example_toml (lit "./etc/daemon.toml") config_world c
    eq_refl Hc) as [Hp _].
  do 3 (apply Forall_cons in Hp as [_ Hp]). apply Forall_cons in Hp as [Hp _]. exact Hp.
Defined.
