(* ===== verification/Cli.v ===== *)
(** The command line (src/cli.rs, the dispatch of src/main.rs): what each
    command asks of the daemon or does itself, what it prints, and how it ends.

    The arguments are those clap accepts. A connection to the daemon is the
    [exchange_with] of ClientRequest; files are those of PosixFs. Standard
    output is the list of JSON documents written, one per line, each in the
    order of its struct's fields; whether a document could be written, and
    whether the signal handlers could be installed, is the environment. *)

From S2P Require Import Prelude RustStr BTree PolicyTypes UrlPath DnsName Identifiers SessionDoc.
From S2P Require Import SessionPolicy Secrets Telemetry ProxyRuntime Registry Reload FileConfig.
From S2P Require Import AsyncIo ControlFrame ControlServer ClientRequest DaemonConfig.
From S2P Require Import RustPath PosixFs SocketDirs StaleSockets ControlStartup CertAuthority CaInit Daemon.
From stdpp Require Import options.
Local Open Scope char_scope.

(** ** Arguments *)

Record CreateArgs := mkCreateArgs { ca_file : option str; ca_config : option str }.
Record ReloadArgs := mkReloadArgs { ra_session_id : option str; ra_all : bool }.

Inductive CaCommand := CaInitCommand (config : str) | CaExportCommand (config output : str).

Inductive Command :=
| DaemonCommand (config : str)
| Create (args : CreateArgs)
| List
| Stop (session_id : str)
| ReloadCommand (args : ReloadArgs)
| Ca (command : CaCommand).

(** The argument groups: exactly one source, exactly one target. *)
Definition accepted_by_clap (c : Command) : Prop :=
  match c with
  | Create args => is_Some (ca_file args) ↔ ca_config args = None
  | ReloadCommand args => is_Some (ra_session_id args) ↔ ra_all args = false
  | _ => True
  end.

(** The default of [--control-socket] on Linux. *)
Definition default_control_socket : str := lit "/run/baffle/control.sock".

(** ** Results *)

Inductive cli_error :=
| SocketUnavailable
| InlineDisabled (message : str)
| ClientFailed (e : ClientError)
| LocalConfigUnreadable
| LocalConfigInvalid
| SignalsUnavailable
| OutputFailed
| ReloadFailed
| CommandFailed (e : anyhow).

(** [Waited]: the command held the session's connection until a signal came. *)
Inductive cli_exit := Exited | Waited | Failed_with (e : cli_error) | Panicked_at (message : string).

Record cli_end := mkCliEnd {
  cl_exit : cli_exit;
  cl_stdout : list json;
  cl_requests : list Request;
}.

(** What is not decided by the daemon: whether standard output can be written
    and whether the signal handlers can be installed. *)
Record CliEnv := mkCliEnv { ce_stdout_ok : bool; ce_signals_ok : bool }.

Definition client_error (error : ClientError) (inline : bool) : cli_error :=
  match error with
  | Transport => SocketUnavailable
  | OperationNotAllowed message => if inline then InlineDisabled message else ClientFailed error
  | error => ClientFailed error
  end.

(** ** Documents *)

Definition session_state_output (state : SessionLifecycle) : json :=
  JString (match state with Running => lit "running" | Stopping => lit "stopping" end).

Definition created_session_output (session : Session) : json :=
  JObject ([(lit "id", JString (se_id session)); (lit "socket", JString (se_socket_path session));
            (lit "persistent", JBool (se_persistent session))]
           ++ optional_field "ca_certificate_pem" (se_ca_certificate_pem session)
           ++ optional_field "credential_seed_base64url" (se_credential_seed_base64url session)).

Definition session_info_output (i : SessionInfo) : json :=
  JObject [(lit "id", JString (si_id i)); (lit "socket", JString (si_socket i));
           (lit "persistent", JBool (si_persistent i)); (lit "state", session_state_output (si_state i));
           (lit "generation", JNumber (si_generation i));
           (lit "draining_generations", JNumber (N.of_nat (si_draining_generations i)))].

Definition session_list_output (sessions : list SessionInfo) : json :=
  JObject [(lit "sessions", JArray (session_info_output <$> sessions))].

Definition stop_output (session_id : str) : json :=
  JObject [(lit "stopped", JBool true); (lit "id", JString session_id)].

(** The flattened result, then the diagnostic. *)
Definition reload_entry_output (r : SessionReloadResult) : json :=
  JObject ([(lit "id", JString (rr_id r)); (lit "status", reload_status_value (rr_status r));
            (lit "socket", JString (rr_socket r))]
           ++ optional_field "reason" (rr_reason r) ++ optional_field "detail" (rr_detail r)).

Definition reload_output (results : list SessionReloadResult) : json :=
  JObject [(lit "results", JArray (reload_entry_output <$> results))].

Definition ca_init_output (ca : CaConfig) : json :=
  JObject [(lit "initialized", JBool true); (lit "certificate", JString (to_string_lossy (ca_certificate ca)));
           (lit "private_key", JString (to_string_lossy (ca_private_key ca)));
           (lit "trust_store_installed", JBool false)].

Definition ca_export_output (output : str) : json :=
  JObject [(lit "exported", JBool true); (lit "output", JString (to_string_lossy output))].

(** ** Commands *)

Section commands.
Context (env : CliEnv) (exchange_with : Request → Prelude.result ClientError json).

(** [write_json]; the rest runs when the document was written. *)
Definition write_json (value : json) (requests : list Request) (next : cli_exit) : cli_end :=
  if ce_stdout_ok env then mkCliEnd next [value] requests else mkCliEnd (Failed_with OutputFailed) [] requests.

Definition fail_with (e : cli_error) (requests : list Request) : cli_end := mkCliEnd (Failed_with e) [] requests.

(** The end of [create], once the session exists. *)
Definition report_session (session : Session) (requests : list Request) : cli_end :=
  if se_persistent session then write_json (created_session_output session) requests Exited
  else if negb (ce_signals_ok env) then fail_with SignalsUnavailable requests
  else write_json (created_session_output session) requests Waited.

Definition create_from_server_file (name : str) : cli_end :=
  let '(created, requests) := create_from_file_with_requirement exchange_with name false in
  match created with
  | Err e => fail_with (client_error e false) requests
  | Ok session => report_session session requests
  end.

(** The request [Client::create] sends, if it builds one. *)
Definition create_requests (config : SessionConfig) : list Request :=
  match create_request_new config with Ok request => [RqCreate request] | Err _ => [] end.

Definition create_inline (config : SessionConfig) : cli_end :=
  match client_create exchange_with config with
  | Err e => fail_with (client_error e true) (create_requests config)
  | Ok session => report_session session (create_requests config)
  end.

Definition list_sessions : cli_end :=
  match client_list exchange_with with
  | Err e => fail_with (client_error e false) [RqList]
  | Ok sessions => write_json (session_list_output sessions) [RqList] Exited
  end.

Definition stop (session_id : str) : cli_end :=
  match client_stop exchange_with session_id with
  | Err e => fail_with (client_error e false) [RqStop session_id]
  | Ok _ => write_json (stop_output session_id) [RqStop session_id] Exited
  end.

Definition is_failed (r : SessionReloadResult) : bool := bool_decide (rr_status r = Failed).

(** The report of a reload: printed also when a session failed. *)
Definition report_reload (results : list SessionReloadResult) (requests : list Request) : cli_end :=
  write_json (reload_output results) requests
    (if existsb is_failed results then Failed_with ReloadFailed else Exited).

Definition reload (args : ReloadArgs) : cli_end :=
  if ra_all args then
    match client_reload_all exchange_with with
    | Err e => fail_with (client_error e false) [RqReloadAll]
    | Ok results => report_reload results [RqReloadAll]
    end
  else
    match ra_session_id args with
    | None => mkCliEnd (Panicked_at "clap requires one reload target") [] []
    | Some session_id =>
        match client_reload exchange_with session_id with
        | Err e => fail_with (client_error e false) [RqReload session_id]
        | Ok r => report_reload [r] [RqReload session_id]
        end
    end.

(** ** Commands that read files *)

Context `{UrlHost} `{!Toml}.

Definition load_local_session_config (path : str) : Sys (Prelude.result cli_error SessionConfig) :=
  r ← fs_read path;
  mret (match r with
        | Err _ => Err LocalConfigUnreadable
        | Ok toml =>
            if negb (from_utf8 toml) then Err LocalConfigUnreadable
            else map_err (λ _, LocalConfigInvalid) (session_config_from_toml toml_session toml)
        end).

Definition create (args : CreateArgs) : Sys cli_end :=
  match ca_file args, ca_config args with
  | Some name, _ => mret (create_from_server_file name)
  | None, Some path =>
      config ← load_local_session_config path;
      mret (match config with Err e => fail_with e [] | Ok config => create_inline config end)
  | None, None => mret (mkCliEnd (Panicked_at "clap requires one create source") [] [])
  end.

Context `{DaemonToml} `{CaCrypto}.

Definition ca_init (init_env : InitEnv) (sequence : N) (config_path : str) : Sys cli_end :=
  r ← initialize_ca init_env sequence config_path;
  mret (match r with
        | Err e => fail_with (CommandFailed e) []
        | Ok ca => write_json (ca_init_output ca) [] Exited
        end).

Definition ca_export (now : Z) (config_path output : str) : Sys cli_end :=
  r ← export_ca_certificate now config_path output;
  mret (match r with
        | Err e => fail_with (CommandFailed e) []
        | Ok _ => write_json (ca_export_output output) [] Exited
        end).

(** The dispatch of [main]; [daemon] is [daemon::run]. *)
Definition main (daemon : str → Sys (Prelude.result anyhow unit)) (init_env : InitEnv) (sequence : N) (now : Z)
    (command : Command) : Sys cli_end :=
  match command with
  | DaemonCommand config =>
      r ← daemon config;
      mret (match r with Ok _ => mkCliEnd Exited [] [] | Err e => fail_with (CommandFailed e) [] end)
  | Create args => create args
  | List => mret list_sessions
  | Stop session_id => mret (stop session_id)
  | ReloadCommand args => mret (reload args)
  | Ca (CaInitCommand config) => ca_init init_env sequence config
  | Ca (CaExportCommand config output) => ca_export now config output
  end.
End commands.

(** ** What is printed reads back *)

Lemma session_state_output_read state : lifecycle_from_value (session_state_output state) = Some state.
Proof. by destruct state. Qed.

Lemma created_session_read c : create_result_from_value (created_session_output (session_of_result c)) = Some c.
Proof. destruct c as [id socket persistent [pem|] [seed|]]; reflexivity. Qed.

Lemma session_info_read i : counters_fit i → session_info_from_value (session_info_output i) = Some i.
Proof. intros [Hg Hd]. rewrite <-(session_info_round_trip i Hg Hd). by destruct i as [? ? ? [] ? ?]. Qed.

Lemma json_u64_bound v n : json_u64 v = Some n → (n < U64)%N.
Proof. destruct v; cbn; try done. destruct (_ <? U64)%N eqn:Hn; [|done]. intros [= <-]. by apply N.ltb_lt. Qed.

Lemma defaulted_u64_bound o n :
  match o with None => Some 0%N | Some v => json_u64 v end = Some n → (n < U64)%N.
Proof. destruct o; [apply json_u64_bound|]. by intros [= <-]. Qed.

Lemma session_info_fits v i : session_info_from_value v = Some i → counters_fit i.
Proof.
  unfold session_info_from_value. intros Hi. repeat (apply bind_Some in Hi as (? & ? & Hi)). injection Hi as <-.
  split; cbn; [|rewrite N2Nat.id]; by eapply defaulted_u64_bound.
Qed.

Lemma list_result_fits v l : list_result_from_value v = Some l → Forall counters_fit l.
Proof.
  unfold list_result_from_value. destruct (json_get _ v) as [[| | | |vs|]|]; try done. intros Hl%mapM_Some.
  apply Forall_forall. intros i Hi. apply list_elem_of_lookup in Hi as [k Hk].
  destruct (Forall2_lookup_r _ _ _ _ _ Hl Hk) as (x & _ & Hx). by eapply session_info_fits.
Qed.

Lemma session_list_read l : Forall counters_fit l → list_result_from_value (session_list_output l) = Some l.
Proof. intros Hl. apply mapM_round_trip. eapply Forall_impl; [exact Hl|]. apply session_info_read. Qed.

Lemma reload_entry_read r : reload_result_from_value (reload_entry_output r) = Some r.
Proof. destruct r as [id [] socket [reason|] [detail|]]; reflexivity. Qed.

Lemma reload_output_read l : reload_all_from_value (reload_output l) = Some l.
Proof. apply mapM_round_trip, Forall_forall. intros r _. apply reload_entry_read. Qed.

(** ** What a command reports *)

Section reports.
Context (env : CliEnv) (exchange_with : Request → Prelude.result ClientError json).

(** The daemon's answer to a request, when it is one. *)
Definition answer {A} (parse : json → option A) (request : Request) : option A :=
  match exchange_with request with Ok v => parse v | Err _ => None end.

Definition command_failed (e : cli_exit) : Prop := ∃ error, e = Failed_with error.

(** One document that reads back as the answer, and the end that goes with
    it; without an answer, or when [usable] does not hold, nothing is printed
    and the command fails. *)
Definition reports {A} (parse : json → option A) (answer : option A) (usable : A → bool) (exit : A → cli_exit)
    (e : cli_end) : Prop :=
  match answer with
  | Some a =>
      if ce_stdout_ok env && usable a then ∃ doc, cl_stdout e = [doc] ∧ parse doc = Some a ∧ cl_exit e = exit a
      else cl_stdout e = [] ∧ command_failed (cl_exit e)
  | None => cl_stdout e = [] ∧ command_failed (cl_exit e)
  end.

Lemma reports_failed {A} (parse : json → option A) usable exit error requests :
  reports parse None usable exit (fail_with error requests).
Proof. split; [done|]. by exists error. Qed.

Lemma reports_written {A} (parse : json → option A) (a : A) (usable : A → bool) (exit : A → cli_exit) doc requests :
  usable a = true → parse doc = Some a → reports parse (Some a) usable exit (write_json env doc requests (exit a)).
Proof.
  intros Hu Hp. unfold reports, write_json. rewrite Hu, andb_true_r. destruct (ce_stdout_ok env); cbn.
  - by exists doc.
  - split; [done|]. by exists OutputFailed.
Qed.

(** Answers of an operation that parses its response as it is. *)
Lemma operation_answer {A} (parse : json → option A) request :
  (response ← exchange_with request; success_result parse response) =
  match exchange_with request with
  | Ok _ => ok_or (answer parse request) (Protocol "result does not match the operation response")
  | Err e => Err e
  end.
Proof. unfold answer. by destruct (exchange_with request). Qed.

Lemma operation_reports {A} (parse : json → option A) request usable exit (present : A → cli_end) requests inline :
  (∀ a, answer parse request = Some a → reports parse (Some a) usable exit (present a)) →
  reports parse (answer parse request) usable exit
    (match (response ← exchange_with request; success_result parse response) with
     | Err e => fail_with (client_error e inline) requests
     | Ok a => present a
     end).
Proof.
  intros Hp. rewrite operation_answer. unfold answer in *. destruct (exchange_with request) as [v|e]; [|apply reports_failed].
  destruct (parse v); [by apply Hp|apply reports_failed].
Qed.

(** An ephemeral session is held until a signal, which needs the handlers. *)
Definition session_usable (c : CreateResult) : bool := cr_persistent c || ce_signals_ok env.
Definition session_exit (c : CreateResult) : cli_exit := if cr_persistent c then Exited else Waited.

Lemma report_session_reports c requests :
  reports create_result_from_value (Some c) session_usable session_exit
    (report_session env (session_of_result c) requests).
Proof.
  unfold report_session. cbn [session_of_result se_persistent]. destruct (cr_persistent c) eqn:Hc.
  - replace Exited with (session_exit c) by (unfold session_exit; by rewrite Hc).
    apply reports_written; [unfold session_usable; by rewrite Hc|apply created_session_read].
  - destruct (ce_signals_ok env) eqn:Hs; cbn [negb].
    + replace Waited with (session_exit c) by (unfold session_exit; by rewrite Hc).
      apply reports_written; [unfold session_usable; by rewrite Hc, Hs|apply created_session_read].
    + unfold reports, session_usable. rewrite Hc, Hs, andb_false_r. split; [done|]. by exists SignalsUnavailable.
Qed.
End reports.

(** ** The commands *)

Section faithful.
Context (env : CliEnv) (exchange_with : Request → Prelude.result ClientError json).
Context `{UrlHost} `{!Toml} `{DaemonToml} `{CaCrypto}.
Context (daemon : str → Sys (Prelude.result anyhow unit)) (init_env : InitEnv) (sequence : N) (now : Z).

(** The request a create command sends, if it gets that far. *)
Definition create_command_request (args : CreateArgs) (w : world) : option Request :=
  match ca_file args, ca_config args with
  | Some name, _ => if validate_session_config_name name then Some (RqCreateFromFile name false) else None
  | None, Some path =>
      match (load_local_session_config path w).1 with
      | Ok config => match create_request_new config with Ok request => Some (RqCreate request) | Err _ => None end
      | Err _ => None
      end
  | None, None => None
  end.

Definition reload_request (args : ReloadArgs) : Request :=
  if ra_all args then RqReloadAll else RqReload (default [] (ra_session_id args)).

(** The results of the reload, one for a single session. *)
Definition reload_answer (args : ReloadArgs) : option (list SessionReloadResult) :=
  if ra_all args then answer exchange_with reload_all_from_value (reload_request args)
  else (λ r, [r]) <$> answer exchange_with reload_result_from_value (reload_request args).

Definition reload_exit (results : list SessionReloadResult) : cli_exit :=
  if existsb is_failed results then Failed_with ReloadFailed else Exited.

Lemma list_reports :
  reports env list_result_from_value (answer exchange_with list_result_from_value RqList) (λ _, true) (λ _, Exited)
    (list_sessions env exchange_with).
Proof using Type.
  apply operation_reports. intros l Hl. apply (reports_written env _ _ (λ _, true) (λ _, Exited)); [done|].
  apply session_list_read. unfold answer in Hl. destruct (exchange_with RqList); [|done]. by eapply list_result_fits.
Qed.

Lemma reload_reports args :
  (is_Some (ra_session_id args) ↔ ra_all args = false) →
  reports env reload_all_from_value (reload_answer args) (λ _, true) reload_exit (reload env exchange_with args) ∧
  cl_requests (reload env exchange_with args) = [reload_request args].
Proof using Type.
  intros Hargs. unfold reload_answer, reload, reload_request, report_reload. destruct (ra_all args).
  - split.
    + apply operation_reports. intros l _.
      apply (reports_written env _ l (λ _, true) reload_exit); [done|apply reload_output_read].
    + destruct (client_reload_all exchange_with); [|done]. unfold write_json. by destruct (ce_stdout_ok env).
  - destruct (ra_session_id args) as [sid|]; [|destruct (proj2 Hargs eq_refl); done].
    change (default [] (Some sid)) with sid.
    unfold client_reload. rewrite operation_answer. unfold answer.
    destruct (exchange_with (RqReload sid)) as [v|]; [|split; [apply reports_failed|done]].
    destruct (reload_result_from_value v) as [r|]; [|split; [apply reports_failed|done]]. cbn [ok_or fmap option_fmap option_map].
    split; [|unfold write_json; by destruct (ce_stdout_ok env)].
    apply (reports_written env _ [r] (λ _, true) reload_exit); [done|apply reload_output_read].
Qed.

Lemma report_session_requests session requests : cl_requests (report_session env session requests) = requests.
Proof using Type. unfold report_session, write_json. by destruct (se_persistent session), (ce_signals_ok env), (ce_stdout_ok env). Qed.

(** The report of a create command whose request was sent. *)
Definition created_reports (request : option Request) (e : cli_end) : Prop :=
  reports env create_result_from_value (request ≫= answer exchange_with create_result_from_value)
    (session_usable env) session_exit e ∧
  cl_requests e = option_list request.

Lemma create_from_server_file_reports name :
  created_reports (if validate_session_config_name name then Some (RqCreateFromFile name false) else None)
    (create_from_server_file env exchange_with name).
Proof using Type.
  unfold create_from_server_file, create_from_file_with_requirement, created_reports.
  destruct (validate_session_config_name name); cbn [negb]; [|split; [apply reports_failed|done]].
  rewrite operation_answer. unfold answer. cbn [mbind option_bind andb].
  destruct (exchange_with _) as [v|]; [|split; [apply reports_failed|done]].
  destruct (create_result_from_value v) as [c|]; cbn [ok_or]; [|split; [apply reports_failed|done]].
  split; [apply report_session_reports|apply report_session_requests].
Qed.

Lemma create_inline_reports config :
  created_reports (match create_request_new config with Ok request => Some (RqCreate request) | Err _ => None end)
    (create_inline env exchange_with config).
Proof using Type.
  unfold create_inline, created_reports, client_create, create_requests.
  destruct (create_request_new config) as [request|e]; cbn [mbind result_bind]; [|split; [apply reports_failed|done]].
  unfold answer, success_result. cbn [mbind option_bind].
  destruct (exchange_with _) as [v|]; cbn [mbind result_bind]; [|split; [apply reports_failed|done]].
  destruct (create_result_from_value v) as [c|]; cbn [ok_or mbind result_bind]; [|split; [apply reports_failed|done]].
  split; [apply report_session_reports|apply report_session_requests].
Qed.

Lemma create_reports args w :
  (is_Some (ca_file args) ↔ ca_config args = None) →
  created_reports (create_command_request args w) (create env exchange_with args w).1.
Proof using Type.
  intros Hargs. unfold create_command_request, create. destruct (ca_file args) as [name|].
  { apply create_from_server_file_reports. }
  destruct (ca_config args) as [path|]; [|destruct (proj2 Hargs eq_refl); done].
  rewrite sys_bind_run. cbn [mret sys_ret fst]. destruct (load_local_session_config path w).1.
  - apply create_inline_reports.
  - split; [apply reports_failed|done].
Qed.

(** A command that contacts no daemon prints at most one document, and only
    when it succeeded. *)
Definition local_end (e : cli_end) : Prop :=
  cl_requests e = [] ∧ (cl_exit e = Exited ∨ (command_failed (cl_exit e) ∧ cl_stdout e = [])).

Lemma write_json_local doc : local_end (write_json env doc [] Exited).
Proof using Type.
  unfold write_json, local_end. destruct (ce_stdout_ok env); cbn; [by auto|].
  split; [done|]. right. split; [by eexists|done].
Qed.

Lemma local_command {A} (m : Sys (Prelude.result anyhow A)) (present : A → cli_end) w :
  (∀ a, local_end (present a)) →
  local_end ((r ← m; mret (match r with Err e => fail_with (CommandFailed e) [] | Ok a => present a end)) w).1.
Proof using Type.
  intros Hp. rewrite sys_bind_run. cbn [mret sys_ret fst]. destruct (m w).1; [apply Hp|].
  split; [done|]. right. split; [by eexists|done].
Qed.

(** C25: a command tells the truth about the daemon. For the arguments clap
    accepts and in any environment: create, list and reload send the one
    request that belongs to them and print, when the daemon answered it, one
    document that the typed client reads back as exactly that answer; stop
    prints its confirmation only when the daemon confirmed it; a reload ends
    in failure when any session failed, after printing all results; an
    ephemeral session is held until a signal and a persistent one is not;
    anything else prints nothing and fails, and no command panics. Commands
    about the certificate authority and the daemon itself send nothing. *)
Theorem cli_faithful command w :
  accepted_by_clap command →
  let e := (main env exchange_with daemon init_env sequence now command w).1 in
  match command with
  | List =>
      reports env list_result_from_value (answer exchange_with list_result_from_value RqList) (λ _, true)
        (λ _, Exited) e ∧
      cl_requests e = [RqList]
  | Stop id =>
      (if ce_stdout_ok env && bool_decide (answer exchange_with stop_result_from_value (RqStop id) = Some true)
       then cl_exit e = Exited ∧ cl_stdout e = [stop_output id]
       else command_failed (cl_exit e) ∧ cl_stdout e = []) ∧
      cl_requests e = [RqStop id]
  | ReloadCommand args =>
      reports env reload_all_from_value (reload_answer args) (λ _, true) reload_exit e ∧
      cl_requests e = [reload_request args]
  | Create args => created_reports (create_command_request args w) e
  | Ca _ | DaemonCommand _ => local_end e
  end.
Proof using Type.
  intros Hc. destruct command as [config|args| |id|args|[config|config output]]; cbn [main].
  - cbv zeta. rewrite sys_bind_run. cbn [mret sys_ret fst]. destruct (daemon config w).1.
    + split; [done|]. by left.
    + split; [done|]. right. split; [by eexists|done].
  - by apply create_reports.
  - split; [apply list_reports|]. cbn [mret sys_ret fst]. unfold list_sessions.
    destruct (client_list exchange_with); [|done]. unfold write_json. by destruct (ce_stdout_ok env).
  - cbn [mret sys_ret fst]. unfold stop, client_stop, answer, success_result.
    destruct (exchange_with _) as [v|err]; cbn [mbind result_bind].
    2:{ rewrite bool_decide_eq_false_2 by done. rewrite andb_false_r. split_and!; [by eexists|done|done]. }
    destruct (stop_result_from_value v) as [[]|]; cbn [ok_or mbind result_bind negb].
    + rewrite bool_decide_eq_true_2, andb_true_r by done. unfold write_json. destruct (ce_stdout_ok env); cbn; [done|].
      split_and!; [by eexists|done|done].
    + rewrite bool_decide_eq_false_2, andb_false_r by done. split_and!; [by eexists|done|done].
    + rewrite bool_decide_eq_false_2, andb_false_r by done. split_and!; [by eexists|done|done].
  - by apply reload_reports.
  - apply local_command. intros a. apply write_json_local.
  - apply local_command. intros a. apply write_json_local.
Qed.
End faithful.

(** ** Witness: a reload of all sessions, one of which failed *)

Definition example_results : list SessionReloadResult :=
  [mkReloadResult (lit "ab") Reloaded (lit "/run/ab.sock") None None;
   mkReloadResult (lit "cd") Failed (lit "/run/cd.sock") (Some (lit "configuration_invalid")) (Some (lit "version"))].

Definition reload_daemon (request : Request) : Prelude.result ClientError json :=
  Ok (json_object [(lit "results", JArray (reload_result_value <$> example_results))]).

Definition no_toml : Toml := {| toml_from_str _ := None; toml_to_string _ := None; toml_session _ := None |}.

Lemma cli_faithful_witness :
  let e := (@main (mkCliEnv true true) reload_daemon plain_host_parse no_toml example_toml toy_crypto
              (λ _, mret (Ok ())) (init_env 1000) 0 1000 (ReloadCommand (mkReloadArgs None true)) config_world).1 in
  cl_exit e = Failed_with ReloadFailed ∧
  ∃ doc, cl_stdout e = [doc] ∧ reload_all_from_value doc = Some example_results.
Proof.
  destruct (@cli_faithful (mkCliEnv true true) reload_daemon plain_host_parse no_toml example_toml toy_crypto
    (λ _, mret (Ok ())) (init_env 1000) 0 1000 (ReloadCommand (mkReloadArgs None true)) config_world)
    as [(doc & Hout & Hdoc & Hexit) _].
  - split; [intros [? [=]]|done].
  - split; [exact Hexit|]. exists doc. split; [exact Hout|exact Hdoc].
Defined.
