(* ===== verification/Numerals.v ===== *)
(** Numbers and text of the measurement tools (bench/measure_sessions.rs,
    bench/runtime.rs): decimal integers, IEEE 754 doubles with Rust's
    fixed-point formatting and total order, Unicode white space, and lines.

    Doubles are the Standard Library's [spec_float] at precision 53 and
    exponent bound 1024, so every operation computes. *)

From Stdlib Require Import SpecFloat DecimalN.
From S2P Require Import Prelude RustStr.
From stdpp Require Import options.
Local Open Scope char_scope.

(** ** Decimal integers *)

Fixpoint uint_str (u : Decimal.uint) : str :=
  match u with
  | Decimal.Nil => []
  | Decimal.D0 u => "0" :: uint_str u
  | Decimal.D1 u => "1" :: uint_str u
  | Decimal.D2 u => "2" :: uint_str u
  | Decimal.D3 u => "3" :: uint_str u
  | Decimal.D4 u => "4" :: uint_str u
  | Decimal.D5 u => "5" :: uint_str u
  | Decimal.D6 u => "6" :: uint_str u
  | Decimal.D7 u => "7" :: uint_str u
  | Decimal.D8 u => "8" :: uint_str u
  | Decimal.D9 u => "9" :: uint_str u
  end.

(** [to_string] of an unsigned integer. *)
Definition dec (n : N) : str := uint_str (N.to_uint n).

(** [str::parse::<u32>], [::<u64>] and [::<usize>] of a 64-bit target. *)
Definition parse_u32 : str → option N := parse_uint 4294967295.
Definition USIZE_MAX : N := 18446744073709551615.
Definition parse_usize : str → option N := parse_uint USIZE_MAX.

(** ** Doubles *)

Definition f64 : Type := spec_float.
Definition f64_of_N (n : N) : f64 := binary_normalize 53 1024 (Z.of_N n) 0 false.
Definition f64_mul : f64 → f64 → f64 := SFmul 53 1024.
Definition f64_div : f64 → f64 → f64 := SFdiv 53 1024.
Definition f64_add : f64 → f64 → f64 := SFadd 53 1024.

(** [Duration::as_secs_f64] of a duration in nanoseconds, and the
    milliseconds the tools print. *)
Definition NANOS_PER_SEC : N := 1000000000.
Definition as_secs_f64 (d : N) : f64 :=
  f64_add (f64_of_N (d / NANOS_PER_SEC)) (f64_div (f64_of_N (d mod NANOS_PER_SEC)) (f64_of_N NANOS_PER_SEC)).
Definition as_millis_f64 (d : N) : f64 := f64_mul (as_secs_f64 d) (f64_of_N 1000).

(** [num / den] rounded to the nearest integer, ties to even. *)
Definition round_half_even (num den : N) : N :=
  let q := (num / den)%N in
  match (2 * (num mod den) ?= den)%N with
  | Lt => q
  | Gt => q + 1
  | Eq => if N.even q then q else q + 1
  end%N.

(** [format!("{x:.k}")]: the exact value rounded to [k] decimals. *)
Definition pad0 (k : nat) (s : str) : str := replicate (k - length s) "0" ++ s.
Definition fixed_digits (k : nat) (q : N) : str :=
  let scale := (10 ^ N.of_nat k)%N in
  dec (q / scale) ++ "." :: pad0 k (dec (q mod scale)).
Definition sign_str (s : bool) : str := if s then ["-"] else [].
Definition fixed (k : nat) (x : f64) : str :=
  match x with
  | S754_nan => lit "NaN"
  | S754_infinity s => sign_str s ++ lit "inf"
  | S754_zero s => sign_str s ++ fixed_digits k 0
  | S754_finite s m e =>
      let scaled := (Npos m * 10 ^ N.of_nat k)%N in
      sign_str s ++ fixed_digits k
        (if (0 <=? e)%Z then scaled * 2 ^ Z.to_N e else round_half_even scaled (2 ^ Z.to_N (- e)))%N
  end.

(** The bits of [f64::total_cmp], as a signed integer. *)
Definition magnitude_bits (x : f64) : Z :=
  match x with
  | S754_zero _ => 0
  | S754_finite _ m e => (e + 1074) * 2 ^ 52 + Zpos m
  | S754_infinity _ => 2047 * 2 ^ 52
  | S754_nan => 2047 * 2 ^ 52 + 2 ^ 51
  end.
Definition sign_bit (x : f64) : bool :=
  match x with S754_zero s | S754_finite s _ _ | S754_infinity s => s | S754_nan => false end.
Definition total_key (x : f64) : Z := (if sign_bit x then - magnitude_bits x - 1 else magnitude_bits x)%Z.

(** [x.ceil() as usize]: saturating, NaN is zero. *)
Definition ceil_usize (x : f64) : N :=
  match x with
  | S754_nan | S754_zero _ | S754_finite true _ _ | S754_infinity true => 0
  | S754_infinity false => USIZE_MAX
  | S754_finite false m e =>
      N.min USIZE_MAX
        (if (0 <=? e)%Z then Npos m * 2 ^ Z.to_N e
         else (Npos m + (2 ^ Z.to_N (- e) - 1)) / 2 ^ Z.to_N (- e))
  end%N.

(** ** White space and lines

    The encodings of the characters with the Unicode property White_Space. *)
Definition white_space : list str :=
  (λ n, [ascii_of_N n]) <$> [9; 10; 11; 12; 13; 32]%N.
Definition white_space_wide : list str :=
  [["194"; "133"]; ["194"; "160"]; ["225"; "154"; "128"]]
  ++ ((λ n, ["226"; "128"; ascii_of_N n]) <$> [128; 129; 130; 131; 132; 133; 134; 135; 136; 137; 138; 168; 169; 175]%N)
  ++ [["226"; "129"; "159"]; ["227"; "128"; "128"]].
Definition white_spaces : list str := white_space ++ white_space_wide.

(** The rest after one white-space character, if the text starts with one. *)
Fixpoint strip_any (ps : list str) (s : str) : option str :=
  match ps with
  | [] => None
  | p :: ps => match strip_prefix p s with Some k => Some k | None => strip_any ps s end
  end.

Fixpoint strip_all (ps : list str) (fuel : nat) (s : str) : str :=
  match fuel with
  | 0 => s
  | S fuel => match strip_any ps s with Some k => strip_all ps fuel k | None => s end
  end.

(** [str::trim]. *)
Definition trim_unicode (s : str) : str :=
  let s := strip_all white_spaces (length s) s in
  reverse (strip_all (reverse <$> white_spaces) (length s) (reverse s)).

(** [str::split_whitespace]: the maximal runs of other characters. *)
Fixpoint split_space_go (fuel : nat) (cur s : str) : list str :=
  let word := match cur with [] => [] | _ => [reverse cur] end in
  match fuel, s with
  | S fuel, c :: s' =>
      match strip_any white_spaces s with
      | Some k => word ++ split_space_go fuel [] k
      | None => split_space_go fuel (c :: cur) s'
      end
  | _, _ => word
  end.
Definition split_whitespace (s : str) : list str := split_space_go (length s) [] s.

(** [str::lines]: split at LF, a CR before it removed, no empty last line. *)
Definition strip_cr (s : str) : str := default s (strip_suffix ["013"] s).
Definition lines (s : str) : list str :=
  let pieces := split "010" s in
  let ends := removelast pieces in
  (strip_cr <$> ends) ++ match last pieces with Some (c :: w) => [c :: w] | _ => [] end.

(** [str::replace] of one ASCII character by another. *)
Definition replace_char (c d : ascii) (s : str) : str := (λ x, if decide (x = c) then d else x) <$> s.

Example fixed_examples :
  fixed 6 (as_millis_f64 1234567) = lit "1.234567" ∧ fixed 3 (f64_div (f64_of_N 1) (f64_of_N 3)) = lit "0.333"
  ∧ fixed 1 (f64_div (f64_of_N 1) (f64_of_N 4)) = lit "0.2" ∧ fixed 6 (f64_div (f64_of_N 7) (f64_of_N 0)) = lit "inf"
  ∧ fixed 6 (f64_div (f64_of_N 0) (f64_of_N 0)) = lit "NaN" ∧ ceil_usize (f64_mul (f64_of_N 80) (f64_div (f64_of_N 95) (f64_of_N 100))) = 76%N.
Proof. by vm_compute. Qed.

Example text_examples :
  trim_unicode (lit " 12	" ++ ["194"; "160"]) = lit "12" ∧ dec 0 = lit "0" ∧ dec 120 = lit "120"
  ∧ split_whitespace (lit "VmRSS:	  77 kB") = [lit "VmRSS:"; lit "77"; lit "kB"]
  ∧ lines (lit "a" ++ ["013"; "010"; "010"] ++ lit "b" ++ ["010"]) = [lit "a"; []; lit "b"].
Proof. by vm_compute. Qed.

(** ** Lemmas on integers *)

Fixpoint uint_val (acc : N) (u : Decimal.uint) : N :=
  match u with
  | Decimal.Nil => acc
  | Decimal.D0 u => uint_val (acc * 10 + 0) u
  | Decimal.D1 u => uint_val (acc * 10 + 1) u
  | Decimal.D2 u => uint_val (acc * 10 + 2) u
  | Decimal.D3 u => uint_val (acc * 10 + 3) u
  | Decimal.D4 u => uint_val (acc * 10 + 4) u
  | Decimal.D5 u => uint_val (acc * 10 + 5) u
  | Decimal.D6 u => uint_val (acc * 10 + 6) u
  | Decimal.D7 u => uint_val (acc * 10 + 7) u
  | Decimal.D8 u => uint_val (acc * 10 + 8) u
  | Decimal.D9 u => uint_val (acc * 10 + 9) u
  end%N.

Lemma uint_val_pos u p : uint_val (Npos p) u = Npos (Pos.of_uint_acc u p).
Proof.
  revert p. induction u; intros p; cbn [uint_val Pos.of_uint_acc]; [done|..];
    (etransitivity; [|apply IHu]; f_equal; lia).
Qed.

Lemma uint_val_of_uint u : uint_val 0 u = N.of_uint u.
Proof. induction u; cbn [uint_val]; try done; apply uint_val_pos. Qed.

Lemma uint_val_le u acc : (acc ≤ uint_val acc u)%N.
Proof. revert acc. induction u; intros acc; cbn [uint_val]; [done|..]; (etransitivity; [|apply IHu]; lia). Qed.

Lemma parse_digits_uint max u acc :
  (uint_val acc u ≤ max)%N → parse_digits max acc (uint_str u) = Some (uint_val acc u).
Proof.
  revert acc. induction u; intros acc H; cbn [uint_str parse_digits uint_val] in *; [done|..];
    (match goal with |- context [digit_value ?c] =>
       let v := eval vm_compute in (digit_value c) in replace (digit_value c) with v by reflexivity end;
     cbv zeta; rewrite (proj2 (N.ltb_ge _ _)) by (etransitivity; [apply uint_val_le|exact H]); by apply IHu).
Qed.

Lemma uint_str_digits u : forallb is_ascii_digit (uint_str u) = true.
Proof. induction u; cbn [uint_str forallb]; [done|..]; by rewrite IHu. Qed.

Lemma dec_digits n : forallb is_ascii_digit (dec n) = true.
Proof. apply uint_str_digits. Qed.

Lemma dec_nonempty n : dec n ≠ [].
Proof.
  unfold dec. destruct n as [|p]; [done|]. cbn [N.to_uint]. intros E.
  pose proof (DecimalPos.Unsigned.to_uint_nonnil p). by destruct (Pos.to_uint p).
Qed.

Lemma dec_elem n c : c ∈ dec n → is_ascii_digit c = true.
Proof. intros H. eapply forallb_elem; [apply dec_digits|done]. Qed.

Lemma parse_uint_dec max n : (n ≤ max)%N → parse_uint max (dec n) = Some n.
Proof.
  intros Hn. unfold parse_uint.
  assert (match dec n with c :: s' => if decide (c = "+") then s' else dec n | [] => dec n end = dec n) as ->.
  { pose proof (dec_digits n) as Hd. destruct (dec n) as [|c s]; [done|]. destruct (decide (c = "+")); [by subst|done]. }
  pose proof (dec_nonempty n). destruct (dec n) eqn:E; [done|]. rewrite <-E.
  unfold dec. assert (uint_val 0 (N.to_uint n) = n) as Hv by (by rewrite uint_val_of_uint, DecimalN.Unsigned.of_to).
  rewrite parse_digits_uint; by rewrite ?Hv.
Qed.

(** ** Lemmas on text *)

(** No field or line separator: what a column of the output may hold. *)
Definition plain (s : str) : Prop := "," ∉ s ∧ "010" ∉ s.
#[export] Instance plain_dec s : Decision (plain s).
Proof. unfold plain. apply _. Defined.

Lemma plain_app a b : plain a → plain b → plain (a ++ b).
Proof. unfold plain. set_solver. Qed.
Lemma plain_cons c s : c ≠ "," → c ≠ "010" → plain s → plain (c :: s).
Proof. unfold plain. set_solver. Qed.
Lemma plain_digits s : forallb is_ascii_digit s = true → plain s.
Proof. intros H. split; intros Hc; by eapply forallb_elem in H; [|exact Hc]. Qed.
Lemma plain_dec_str n : plain (dec n).
Proof. apply plain_digits, dec_digits. Qed.
Lemma plain_pad0 k s : plain s → plain (pad0 k s).
Proof. intros Hs. apply plain_app; [|done]. split; intros [? ?]%elem_of_replicate; done. Qed.
Lemma plain_sign s : plain (sign_str s).
Proof. destruct s; split; set_solver. Qed.
Lemma plain_fixed_digits k q : plain (fixed_digits k q).
Proof. apply plain_app; [apply plain_dec_str|]. apply plain_cons; [done..|]. apply plain_pad0, plain_dec_str. Qed.

Lemma plain_fixed k x : plain (fixed k x).
Proof.
  assert (plain (lit "NaN") ∧ plain (lit "inf")) as [Hn Hi] by (split; apply (bool_decide_unpack _); by vm_compute).
  destruct x as [s|s| |s m e]; cbn [fixed]; try done; apply plain_app; try apply plain_sign;
    solve [done | apply plain_fixed_digits].
Qed.

Lemma replace_char_elem c d x s : x ∈ replace_char c d s → x = d ∨ (x ∈ s ∧ x ≠ c).
Proof. intros (y & -> & Hy)%list_elem_of_fmap. case_decide; [by left|by right]. Qed.

(** The text of an error after its separators have been replaced. *)
Lemma plain_replaced s : plain (replace_char "010" " " (replace_char "," ";" s)).
Proof.
  split; intros [?|[H ?]]%replace_char_elem; try done. by apply replace_char_elem in H as [?|[? ?]].
Qed.
