(* ===== verification/MeasureSessions.v ===== *)
(** The session measurement tool (bench/measure_sessions.rs) over the typed
    client of crates/baffle-client.

    The tool runs in a small state and error monad. Its state is the outside
    world, the local variables that own something (session handles, streams,
    the set of creation tasks) and the trace of what it did. The daemon, the
    clock, the file system and the task scheduler are the class [MeasureWorld].
    Durations are in nanoseconds. *)

From S2P Require Import Prelude RustStr RustPath PolicyTypes Registry ControlFrame ClientRequest Numerals.
From stdpp Require Import options.
Local Open Scope char_scope.

(** ** Errors *)

(** [impl Display for ClientError]; the text of the errors whose cause is not
    kept (the transport's, the serialiser's, the daemon's version) is given. *)
Record client_texts := mkClientTexts { ct_transport : str; ct_serialization : str; ct_version : str }.

Definition client_error_display (texts : client_texts) (e : ClientError) : str :=
  match e with
  | Authorization message => lit "authorization failed: " ++ message
  | InvalidPolicy message => lit "invalid policy: " ++ message
  | CapacityLimit message => lit "capacity limit: " ++ message
  | ProtocolMismatch => lit "protocol mismatch: " ++ ct_version texts
  | RemoteProtocolMismatch message => lit "protocol mismatch: " ++ message
  | Provisioning message => lit "provisioning failed: " ++ message
  | SessionNotFound message => lit "session not found: " ++ message
  | SessionConfigNotFound message => lit "session configuration not found: " ++ message
  | SessionConfigUnavailable message => lit "session configuration unavailable: " ++ message
  | SessionConfigInvalid message => lit "invalid session configuration: " ++ message
  | OperationNotAllowed message => lit "operation not allowed: " ++ message
  | Transport => lit "control transport failed: " ++ ct_transport texts
  | Serialization => lit "could not encode request: " ++ ct_serialization texts
  | Protocol message => lit "control protocol error: " ++ lit message
  | Server code message => lit "daemon error " ++ code ++ lit ": " ++ message
  end.

(** How the tool fails: [bail!] and [context] (the outermost message), a
    client or input/output error, a panic. [Diverged] is a wait that outlives
    the bound given to it. *)
Inductive tool_error :=
| Said (message : str)
| ClientSaid (e : ClientError)
| IoSaid (text : str)
| ToolPanicked (message : str)
| Diverged.

(** ** The world and the trace *)

(** Each operation returns: [mw_exchange] is a request the daemon answers or
    whose connection fails (the client has no read timeout). *)
Class MeasureWorld (W stream : Type) := {
  mw_exchange : Request → W → Prelude.result ClientError json * W;
  mw_drop_session : Session → W → W;
  mw_abort_create : N → W → W;
  mw_connect_unix : str → W → Prelude.result str stream * W;
  mw_drop_stream : stream → W → W;
  mw_now : W → N * W;
  mw_sleep : N → W → W;
  mw_read_to_string : str → W → option str * W;
  mw_write_file : str → str → bool → W → Prelude.result str unit * W;
  mw_print : str → W → bool * W;
  mw_eprint : str → W → bool * W;
  (* the scheduler: whether the task panics, how many tasks finish before one
     is collected, and which of the running ones finishes next *)
  mw_task_panics : W → bool * W;
  mw_wakes : W → nat * W;
  mw_pick : nat → W → nat * W;
  (* whether so many elements can be reserved, and the build's overflow checks *)
  mw_can_reserve : N → bool;
  mw_overflow_checks : bool;
}.

Inductive effect (stream : Type) :=
| Wrote (path row : str) (append : bool)
| Printed (row : str)
| Complained (row : str)
| Opened (session : Session)
| Closed (session : Session)
| Listed (sessions : list SessionInfo)
| Connected (s : stream)
| Disconnected (s : stream).
Arguments Wrote {stream}. Arguments Printed {stream}. Arguments Complained {stream}. Arguments Opened {stream}.
Arguments Closed {stream}. Arguments Listed {stream}. Arguments Connected {stream}. Arguments Disconnected {stream}.

(** A finished creation task: its index, and its latency and result unless it
    panicked. *)
Definition task_end : Type := N * option (N * Prelude.result ClientError Session).

Record tool (W stream : Type) := mkTool {
  tl_world : W;
  tl_log : list (effect stream);
  tl_sessions : list Session;
  tl_streams : list stream;
  tl_running : list N;
  tl_done : list task_end;
}.
Arguments mkTool {W stream}. Arguments tl_world {W stream}. Arguments tl_log {W stream}. Arguments tl_sessions {W stream}.
Arguments tl_streams {W stream}. Arguments tl_running {W stream}. Arguments tl_done {W stream}.

Definition M (W stream A : Type) : Type := tool W stream → Prelude.result tool_error A * tool W stream.
#[export] Instance M_ret {W stream} : MRet (M W stream) := λ A a t, (Ok a, t).
#[export] Instance M_bind {W stream} : MBind (M W stream) := λ A B f m t,
  match m t with (Ok a, t') => f a t' | (Err e, t') => (Err e, t') end.

Section tool.
Context {W stream : Type} `{!MeasureWorld W stream} (texts : client_texts).
Implicit Types t : tool W stream.

Definition fail {A} (e : tool_error) : M W stream A := λ t, (Err e, t).
Definition lift_result {A} (r : Prelude.result tool_error A) : M W stream A := λ t, (r, t).
Definition world {A} (f : W → A * W) : M W stream A := λ t,
  let '(a, w) := f (tl_world t) in
  (Ok a, mkTool w (tl_log t) (tl_sessions t) (tl_streams t) (tl_running t) (tl_done t)).
Definition world_ (f : W → W) : M W stream unit := world (λ w, ((), f w)).
Definition emit (e : effect stream) : M W stream unit := λ t,
  (Ok (), mkTool (tl_world t) (tl_log t ++ [e]) (tl_sessions t) (tl_streams t) (tl_running t) (tl_done t)).
Definition gets {A} (f : tool W stream → A) : M W stream A := λ t, (Ok (f t), t).
Definition set_sessions (l : list Session) : M W stream unit := λ t,
  (Ok (), mkTool (tl_world t) (tl_log t) l (tl_streams t) (tl_running t) (tl_done t)).
Definition set_streams (l : list stream) : M W stream unit := λ t,
  (Ok (), mkTool (tl_world t) (tl_log t) (tl_sessions t) l (tl_running t) (tl_done t)).
Definition set_tasks (running : list N) (done : list task_end) : M W stream unit := λ t,
  (Ok (), mkTool (tl_world t) (tl_log t) (tl_sessions t) (tl_streams t) running done).

Fixpoint for_each {A} (l : list A) (f : A → M W stream unit) : M W stream unit :=
  match l with [] => mret () | a :: l => f a ≫= λ _, for_each l f end.

(** [0..n] *)
Definition upto (n : N) : list N := N.of_nat <$> seq 0 (N.to_nat n).

Definition now : M W stream N := world mw_now.
Definition elapsed (start : N) : M W stream N := stop ← now; mret (stop - start)%N.
Definition sleep_ms (ms : N) : M W stream unit := world_ (mw_sleep (ms * 1000000)).

Definition reserve (n : N) : M W stream unit :=
  if mw_can_reserve n then mret () else fail (ToolPanicked (lit "capacity overflow")).
Definition usize_op (n : N) : M W stream N :=
  if (n <=? USIZE_MAX)%N then mret n
  else if mw_overflow_checks then fail (ToolPanicked (lit "arithmetic overflow")) else mret (n mod (USIZE_MAX + 1))%N.

(** ** The client *)

Definition create (policy : SessionConfig) : M W stream (Prelude.result ClientError Session) :=
  match create_request_new policy with
  | Err e => mret (Err e)
  | Ok request =>
      answer ← world (mw_exchange (RqCreate request));
      let created := client_create (λ _, answer) policy in
      match created with
      | Ok session => emit (Opened session) ≫= λ _, mret created
      | Err _ => mret created
      end
  end.

Definition list_active : M W stream (list SessionInfo) :=
  answer ← world (mw_exchange RqList);
  match client_list (λ _, answer) with
  | Ok sessions => emit (Listed sessions) ≫= λ _, mret sessions
  | Err e => fail (ClientSaid e)
  end.

Definition drop_session (session : Session) : M W stream unit :=
  world_ (mw_drop_session session) ≫= λ _, emit (Closed session).
Definition drop_stream (s : stream) : M W stream unit := world_ (mw_drop_stream s) ≫= λ _, emit (Disconnected s).

Definition drop_sessions : M W stream unit :=
  sessions ← gets tl_sessions; set_sessions [] ≫= λ _, for_each sessions drop_session.
Definition drop_streams : M W stream unit :=
  streams ← gets tl_streams; set_streams [] ≫= λ _, for_each streams drop_stream.

(** Dropping a [JoinSet]: running tasks are aborted, results dropped. *)
Definition drop_task_end (e : task_end) : M W stream unit :=
  match e.2 with Some (_, Ok session) => drop_session session | _ => mret () end.
Definition drop_tasks : M W stream unit :=
  running ← gets tl_running; finished ← gets tl_done;
  set_tasks [] [] ≫= λ _, for_each running (λ i, world_ (mw_abort_create i)) ≫= λ _, for_each finished drop_task_end.

(** The locals of a trial are dropped on every exit, the last declared first. *)
Definition scope (body : M W stream unit) : M W stream unit := λ t,
  let '(r, t1) := body t in
  let '(_, t2) := (drop_streams ≫= λ _, drop_sessions ≫= λ _, drop_tasks) t1 in (r, t2).

(** ** Output *)

Definition write_row (path row : str) (append : bool) : M W stream unit :=
  emit (Wrote path row append) ≫= λ _,
  written ← world (mw_write_file path row append);
  lift_result (map_err IoSaid written).

Definition row_text (kind : str) (repeat count index : N) (metric value : str) : str :=
  kind ++ "," :: dec repeat ++ "," :: dec count ++ "," :: dec index ++ "," :: metric ++ "," :: value ++ ["010"].

Definition record (output : option str) (kind : str) (repeat count index : N) (metric : str) (value : f64) : M W stream unit :=
  let row := row_text kind repeat count index metric (fixed 6 value) in
  match output with
  | Some path => write_row path row true
  | None =>
      emit (Printed row) ≫= λ _, printed ← world (mw_print row);
      if (printed : bool) then mret () else fail (ToolPanicked (lit "failed printing to stdout"))
  end.

Definition record_failure (output : option str) (repeat count index : N) (metric error : str) : M W stream unit :=
  let safe_error := replace_char "010" " " (replace_char "," ";" error) in
  let row := row_text (lit "failure") repeat count index metric safe_error in
  match output with
  | Some path => write_row path row true
  | None =>
      emit (Complained row) ≫= λ _, printed ← world (mw_eprint row);
      if (printed : bool) then mret () else fail (ToolPanicked (lit "failed printing to stderr"))
  end.

(** ** Resident memory *)

Definition parse_rss (status : str) : Prelude.result tool_error N :=
  line ← ok_or (List.find (starts_with (lit "VmRSS:")) (lines status)) (Said (lit "VmRSS was not present in process status"));
  value ← ok_or (split_whitespace line !! 1%nat) (Said (lit "VmRSS had no value"));
  ok_or (parse_uint USIZE_MAX value) (Said (lit "VmRSS was not an integer")).

Definition read_rss_kib (pid : N) : M W stream N :=
  let path := lit "/proc/" ++ dec pid ++ lit "/status" in
  status ← world (mw_read_to_string path);
  match status with
  | None => fail (Said (lit "could not read " ++ path))
  | Some text => lift_result (parse_rss text)
  end.

(** ** Waiting for the daemon *)

Fixpoint wait_loop (fuel : nat) (deadline : N) : M W stream unit :=
  match fuel with
  | 0 => fail Diverged
  | S fuel =>
      sessions ← list_active;
      if bool_decide (sessions = []) then mret ()
      else
        time ← now;
        if (deadline <=? time)%N then fail (Said (lit "ephemeral sessions did not stop within three seconds"))
        else sleep_ms 1 ≫= λ _, wait_loop fuel deadline
  end.

(** A sleep lasts at least a millisecond, so 3001 rounds reach the deadline. *)
Definition WAIT_FUEL : nat := 3001.
Definition wait_until_empty : M W stream unit :=
  start ← now; wait_loop WAIT_FUEL (start + 3 * NANOS_PER_SEC)%N.

(** ** Trials *)

(** [session.create] failed: the failure is recorded, then returned. *)
Definition create_failed (output : option str) (repeat count index : N) (metric : str) (e : ClientError)
    : M W stream unit :=
  record_failure output repeat count index metric (client_error_display texts e) ≫= λ _, fail (ClientSaid e).

Definition push_session (session : Session) : M W stream unit :=
  sessions ← gets tl_sessions; set_sessions (sessions ++ [session]).

(** The handle is the loop's until it is pushed; an error before drops it. *)
Definition keep_session (session : Session) (body : M W stream unit) : M W stream unit := λ t,
  match body t with
  | (Ok _, t1) => push_session session t1
  | (Err e, t1) => (Err e, (drop_session session t1).2)
  end.

Definition sequential_create (policy : SessionConfig) (output : option str) (repeat count index : N)
    : M W stream unit :=
  create_started ← now;
  created ← create policy;
  match created with
  | Err e => create_failed output repeat count index (lit "sequential_create") e
  | Ok session =>
      keep_session session (
        latency ← elapsed create_started;
        record output (lit "sample") repeat count index (lit "sequential_create_ms") (as_millis_f64 latency))
  end.

Definition sequential_trial (policy : SessionConfig) (daemon_pid repeat count settle_ms : N) (output : option str)
    : M W stream unit := scope (
  let sample := λ index metric value, record output (lit "sample") repeat count index (lit metric) value in
  rss_before ← read_rss_kib daemon_pid;
  reserve count ≫= λ _,
  started ← now;
  for_each (upto count) (sequential_create policy output repeat count) ≫= λ _,
  create_wall ← elapsed started;
  sleep_ms settle_ms ≫= λ _,
  rss_after ← read_rss_kib daemon_pid;
  sample 0%N "sequential_create_wall_ms"%string (as_millis_f64 create_wall) ≫= λ _,
  sample 0%N "sequential_idle_rss_before_kib"%string (f64_of_N rss_before) ≫= λ _,
  sample 0%N "sequential_idle_rss_after_kib"%string (f64_of_N rss_after) ≫= λ _,
  sample 0%N "sequential_idle_rss_delta_per_session_kib"%string
    (f64_div (f64_of_N (rss_after - rss_before)) (f64_of_N count)) ≫= λ _,
  stop_started ← now;
  drop_sessions ≫= λ _,
  wait_until_empty ≫= λ _,
  stopped ← elapsed stop_started;
  sample 0%N "sequential_teardown_wall_ms"%string (as_millis_f64 stopped)).

(** [creates.spawn] for each index. *)
Definition spawn (index : N) : M W stream unit :=
  running ← gets tl_running; finished ← gets tl_done; set_tasks (running ++ [index]) finished.

(** One task of the [JoinSet]. *)
Definition create_task (policy : SessionConfig) (index : N) : M W stream task_end :=
  panics ← world mw_task_panics;
  if (panics : bool) then mret (index, None)
  else
    create_started ← now;
    result ← create policy;
    latency ← elapsed create_started;
    mret (index, Some (latency, result)).

(** [n] running tasks finish, in the order the scheduler picks them. *)
Fixpoint finish_tasks (policy : SessionConfig) (n : nat) : M W stream unit :=
  match n with
  | 0 => mret ()
  | S n =>
      running ← gets tl_running;
      pick ← world (mw_pick (length running));
      match running !! (pick mod length running) with
      | None => mret ()
      | Some index =>
          finished ← create_task policy index;
          rest ← gets tl_done;
          set_tasks (delete (pick mod length running) running) (rest ++ [finished]) ≫= λ _, finish_tasks policy n
      end
  end.

(** [JoinSet::join_next]: some tasks finish, the first of the finished ones
    is taken; [None] when the set is empty. *)
Definition take_finished : M W stream (option task_end) :=
  running ← gets tl_running; finished ← gets tl_done;
  match finished with
  | [] => mret None
  | e :: rest => set_tasks running rest ≫= λ _, mret (Some e)
  end.
Definition join_next (policy : SessionConfig) : M W stream (option task_end) :=
  finished ← gets tl_done;
  wakes ← world mw_wakes;
  finish_tasks policy (match finished with [] => S wakes | _ => wakes end) ≫= λ _, take_finished.

Definition concurrent_created (output : option str) (repeat count : N) (e : task_end) : M W stream unit :=
  match e with
  | (_, None) => fail (Said (lit "session creation task panicked"))
  | (index, Some (_, Err error)) => create_failed output repeat count index (lit "concurrent_create") error
  | (index, Some (latency, Ok session)) =>
      keep_session session
        (record output (lit "sample") repeat count index (lit "concurrent_create_ms") (as_millis_f64 latency))
  end.

(** The loop over [join_next]; each round takes one task out of the set. *)
Fixpoint collect_tasks (policy : SessionConfig) (output : option str) (repeat count : N) (fuel : nat)
    : M W stream unit :=
  match fuel with
  | 0 => fail Diverged
  | S fuel =>
      next ← join_next policy;
      match next with
      | None => mret ()
      | Some e => concurrent_created output repeat count e ≫= λ _, collect_tasks policy output repeat count fuel
      end
  end.

Definition connect_one (output : option str) (repeat count connections_per_session : N) (session_index : N)
    (session : Session) (connection_index : N) : M W stream unit :=
  connected ← world (mw_connect_unix (se_socket_path session));
  match connected with
  | Ok connection =>
      emit (Connected connection) ≫= λ _, streams ← gets tl_streams; set_streams (streams ++ [connection])
  | Err error =>
      base ← usize_op (session_index * connections_per_session);
      index ← usize_op (base + connection_index);
      record_failure output repeat count index (lit "active_unix_connection") error ≫= λ _, fail (IoSaid error)
  end.

Definition open_connections (output : option str) (repeat count connections_per_session : N) : M W stream unit :=
  sessions ← gets tl_sessions;
  for_each (imap pair sessions) (λ s,
    for_each (upto connections_per_session)
      (connect_one output repeat count connections_per_session (N.of_nat s.1) s.2)).

Definition concurrent_trial (policy : SessionConfig) (daemon_pid repeat count connections_per_session settle_ms : N)
    (output : option str) : M W stream unit := scope (
  let sample := λ index metric value, record output (lit "sample") repeat count index (lit metric) value in
  rss_before ← read_rss_kib daemon_pid;
  started ← now;
  for_each (upto count) spawn ≫= λ _,
  reserve count ≫= λ _,
  collect_tasks policy output repeat count (S (N.to_nat count)) ≫= λ _,
  wall ← elapsed started;
  sleep_ms settle_ms ≫= λ _,
  rss_with_sessions ← read_rss_kib daemon_pid;
  sample 0%N "concurrent_create_wall_ms"%string (as_millis_f64 wall) ≫= λ _,
  sample 0%N "concurrent_idle_rss_before_kib"%string (f64_of_N rss_before) ≫= λ _,
  sample 0%N "concurrent_idle_rss_after_kib"%string (f64_of_N rss_with_sessions) ≫= λ _,
  sample 0%N "concurrent_idle_session_rss_delta_per_session_kib"%string
    (f64_div (f64_of_N (rss_with_sessions - rss_before)) (f64_of_N count)) ≫= λ _,
  capacity ← usize_op (count * connections_per_session);
  reserve capacity ≫= λ _,
  open_connections output repeat count connections_per_session ≫= λ _,
  sleep_ms settle_ms ≫= λ _,
  rss_with_connections ← read_rss_kib daemon_pid;
  streams ← gets tl_streams;
  let active := N.of_nat (length streams) in
  sample active "active_idle_connections"%string (f64_of_N active) ≫= λ _,
  sample active "active_connection_rss_delta_kib"%string
    (f64_of_N (rss_with_connections - rss_with_sessions)) ≫= λ _,
  sample active "active_connection_rss_delta_per_connection_kib"%string
    (f64_div (f64_of_N (rss_with_connections - rss_with_sessions)) (f64_of_N (N.max active 1))) ≫= λ _,
  drop_streams ≫= λ _,
  sleep_ms settle_ms ≫= λ _,
  rss_after_connection_close ← read_rss_kib daemon_pid;
  stop_started ← now;
  drop_sessions ≫= λ _,
  wait_until_empty ≫= λ _,
  stopped ← elapsed stop_started;
  sample 0%N "concurrent_teardown_wall_ms"%string (as_millis_f64 stopped) ≫= λ _,
  rss_final ← read_rss_kib daemon_pid;
  sample 0%N "post_teardown_rss_delta_from_baseline_kib"%string (f64_of_N (rss_final - rss_before)) ≫= λ _,
  sample 0%N "post_connection_close_rss_delta_kib"%string
    (f64_of_N (rss_with_connections - rss_after_connection_close))).

(** ** The program *)

(** The environment, in the bytes of the process. *)
Context (env : str → option str).

Definition env_var (name : str) : option str :=
  match env name with Some v => if from_utf8 v then Some v else None | None => None end.

Definition env_usize (name : str) (default_value : N) : Prelude.result tool_error N :=
  ok_or (parse_usize (default (dec default_value) (env_var name))) (Said (name ++ lit " must be an integer")).

Definition env_counts (name : str) (default_value : list N) : Prelude.result tool_error (list N) :=
  match env name with
  | None => Ok default_value
  | Some value =>
      counts ← ok_or (mapM (λ v, parse_usize (trim_unicode v)) (split "," (to_string_lossy value)))
                 (Said (name ++ lit " must be a comma-separated list of integers"));
      if bool_decide (counts = []) || bool_decide (0%N ∈ counts)
      then Err (Said (name ++ lit " must contain one or more positive session counts")) else Ok counts
  end.

Definition HEADER : str := lit "kind,repeat,count,index,metric,value" ++ ["010"].

Definition warm_up (policy : SessionConfig) (_ : N) : M W stream unit :=
  created ← create policy;
  match created with
  | Ok session => drop_session session
  | Err e => fail (ClientSaid e)
  end.

(** What [main] reads from the environment before it talks to the daemon. *)
Record settings := mkSettings {
  st_daemon_pid : N;
  st_repeats : N;
  st_counts : list N;
  st_settle_ms : N;
  st_connections_per_session : N;
  st_allowed_host : str;
  st_output : option str;
}.

Definition read_settings : Prelude.result tool_error settings :=
  _ ← ok_or (env_var (lit "BAFFLE_CONTROL_SOCKET"))
        (Said (lit "set BAFFLE_CONTROL_SOCKET to the daemon control socket"));
  pid_text ← ok_or (env_var (lit "BAFFLE_DAEMON_PID")) (Said (lit "set BAFFLE_DAEMON_PID to the daemon process ID"));
  daemon_pid ← ok_or (parse_u32 pid_text) (Said (lit "BAFFLE_DAEMON_PID must be an integer"));
  repeats ← env_usize (lit "BAFFLE_MEASURE_REPEATS") 7;
  counts ← env_counts (lit "BAFFLE_MEASURE_COUNTS") [1; 2; 4; 8]%N;
  settle_ms ← env_usize (lit "BAFFLE_MEASURE_SETTLE_MS") 200;
  connections_per_session ← env_usize (lit "BAFFLE_MEASURE_CONNECTIONS_PER_SESSION") 4;
  if (repeats =? 0)%N then Err (Said (lit "BAFFLE_MEASURE_REPEATS must be greater than zero"))
  else Ok (mkSettings daemon_pid repeats counts settle_ms connections_per_session
             (default (lit "example.com") (env_var (lit "BAFFLE_MEASURE_HOST"))) (env_var (lit "BAFFLE_BENCH_RAW"))).

Definition measure (s : settings) : M W stream unit :=
  active ← list_active;
  if negb (bool_decide (active = []))
  then fail (Said (lit "use a fresh daemon with no active sessions for this measurement")) else
  match st_output s with Some path => write_row path HEADER false | None => mret () end ≫= λ _,
  let policy := with_rule (host_rule_tunnel (st_allowed_host s)) session_config_new in
  match st_counts s with
  | [] => fail (ToolPanicked (lit "index out of bounds"))
  | first :: _ =>
      for_each (upto (N.max first 1)) (warm_up policy) ≫= λ _,
      wait_until_empty ≫= λ _,
      for_each (st_counts s) (λ count, for_each (upto (st_repeats s)) (λ repeat,
        sequential_trial policy (st_daemon_pid s) repeat count (st_settle_ms s) (st_output s) ≫= λ _,
        concurrent_trial policy (st_daemon_pid s) repeat count (st_connections_per_session s) (st_settle_ms s)
          (st_output s)))
  end.

Definition main : M W stream unit := s ← lift_result read_settings; measure s.
End tool.
