(* ===== verification/MeasureProps.v ===== *)
(** Properties of the session measurement tool: what it opens it closes, on
    every exit; a successful run ends with the daemon empty and has written
    each sample once; it terminates; its rows are well formed.

    [respects R] is the closure of a relation on the tool's state under
    sequencing, loops and scopes: each property is a relation and what it says
    of the primitives. *)

From S2P Require Import Prelude RustStr RustPath PolicyTypes Registry ControlFrame ClientRequest Numerals MeasureSessions.
From stdpp Require Import options.
Local Open Scope char_scope.

Section relation.
Context {W stream : Type} `{!MeasureWorld W stream} (texts : client_texts).
Implicit Types t : tool W stream.

Definition respects {A} (R : relation (tool W stream)) (m : M W stream A) : Prop := ∀ t, R t (m t).2.

Lemma bind_assoc {A B C} (m : M W stream A) (g : A → M W stream B) (f : B → M W stream C) t :
  ((m ≫= g) ≫= f) t = (m ≫= λ a, g a ≫= f) t.
Proof using Type. unfold mbind, M_bind. by destruct (m t) as [[a|e] t1]. Qed.
Lemma respects_assoc {A B C} R (m : M W stream A) (g : A → M W stream B) (f : B → M W stream C) :
  respects R (m ≫= λ a, g a ≫= f) → respects R ((m ≫= g) ≫= f).
Proof using Type. intros H t. rewrite bind_assoc. apply H. Qed.

Section closure.
Context (R : relation (tool W stream)) `{!PreOrder R}.

Lemma respects_ret {A} (a : A) : respects R (mret a).
Proof using PreOrder0. by intros t. Qed.
Lemma respects_fail {A} e : respects R (fail (A:=A) e).
Proof using PreOrder0. by intros t. Qed.
Lemma respects_lift {A} r : respects R (lift_result (A:=A) r).
Proof using PreOrder0. by intros t. Qed.
Lemma respects_gets {A} (f : tool W stream → A) : respects R (gets f).
Proof using PreOrder0. by intros t. Qed.

Lemma respects_bind {A B} (m : M W stream A) (f : A → M W stream B) :
  respects R m → (∀ a, respects R (f a)) → respects R (m ≫= f).
Proof using PreOrder0.
  intros Hm Hf t. specialize (Hm t). unfold mbind, M_bind. destruct (m t) as [[a|e] t1]; cbn in *; [|done].
  etransitivity; [done|apply Hf].
Qed.

Lemma respects_for_each {A} (l : list A) f : (∀ a, respects R (f a)) → respects R (for_each l f).
Proof using PreOrder0. intros Hf. induction l as [|a l IH]; cbn [for_each]; [apply respects_ret|by apply respects_bind]. Qed.

Lemma respects_option {A B} (o : option A) (f : A → M W stream B) g :
  (∀ a, respects R (f a)) → respects R g → respects R (match o with Some a => f a | None => g end).
Proof using PreOrder0. by destruct o. Qed.

Lemma respects_scope body :
  respects R (drop_streams ≫= λ _, drop_sessions ≫= λ _, drop_tasks) → respects R body → respects R (scope body).
Proof using PreOrder0.
  intros Hd Hb t. unfold scope. specialize (Hb t). destruct (body t) as [r t1]. cbn in Hb. specialize (Hd t1).
  unfold respects. revert Hd. generalize ((drop_streams ≫= λ _, drop_sessions ≫= λ _, drop_tasks) t1).
  intros [u t2] Hd. cbn in *. by etransitivity.
Qed.

Lemma respects_keep_session s body :
  respects R (push_session s) → respects R (drop_session s) → respects R body → respects R (keep_session s body).
Proof using PreOrder0.
  intros Hp Hd Hb t. unfold keep_session. specialize (Hb t).
  destruct (body t) as [[[]|e] t1]; cbn in Hb; (etransitivity; [done|]); [apply Hp|apply Hd].
Qed.

Lemma respects_snd {A} (m : M W stream A) (r : Prelude.result tool_error A) t1 t : respects R m → m t = (r, t1) → R t t1.
Proof using PreOrder0. intros Hm E. specialize (Hm t). by rewrite E in Hm. Qed.
End closure.
End relation.

(** Take a composed computation apart down to its primitives. *)
Ltac respects_step :=
  match goal with
  | |- respects _ (mbind _ _) => apply respects_bind; [apply _| |intros ?]
  | |- respects _ (mret _) => apply respects_ret; apply _
  | |- respects _ (fail _) => apply respects_fail; apply _
  | |- respects _ (lift_result _) => apply respects_lift; apply _
  | |- respects _ (gets _) => apply respects_gets; apply _
  | |- respects _ (for_each _ _) => apply respects_for_each; [apply _|intros ?]
  | |- respects _ (if ?b then _ else _) => destruct b
  | |- respects _ (match ?x with _ => _ end) => destruct x
  | |- respects _ (let _ := _ in _) => cbv zeta
  end.
Ltac respects_auto := repeat (respects_step || (progress unfold elapsed, sleep_ms, now, world_, reserve, usize_op));
  try (by eauto with measure).
Create HintDb measure.

(** ** Rows *)

Section rows.
Context {W stream : Type} `{!MeasureWorld W stream} (texts : client_texts).
Implicit Types t : tool W stream.

(** A row: six columns, one line. *)
Definition row_columns (row : str) : list str := split "," (take (length row - 1) row).
Definition six_columns (row : str) : Prop :=
  ∃ body, row = body ++ ["010"] ∧ "010" ∉ body ∧ length (split "," body) = 6.

(** What the tool may do: it truncates only with the header. *)
Definition effect_ok (e : effect stream) : Prop :=
  match e with
  | Wrote _ row append => six_columns row ∧ (append = false → row = HEADER)
  | Printed row | Complained row => six_columns row
  | _ => True
  end.

Definition logs_ok t t' : Prop := ∃ l, tl_log t' = tl_log t ++ l ∧ Forall effect_ok l.
#[local] Instance logs_ok_preorder : PreOrder logs_ok.
Proof.
  split.
  - intros t. exists []. by rewrite app_nil_r.
  - intros t1 t2 t3 (l1 & E1 & H1) (l2 & E2 & H2). exists (l1 ++ l2). rewrite E2, E1, app_assoc.
    split; [done|by apply Forall_app].
Qed.

Lemma split_row kind a b c metric value :
  plain kind → plain a → plain b → plain c → plain metric → plain value →
  split "," (kind ++ "," :: a ++ "," :: b ++ "," :: c ++ "," :: metric ++ "," :: value) = [kind; a; b; c; metric; value].
Proof. unfold plain. intros. by rewrite !split_app_sep, !split_no_sep_single by naive_solver. Qed.

Lemma row_text_split kind repeat count index metric value :
  row_text kind repeat count index metric value =
  (kind ++ "," :: dec repeat ++ "," :: dec count ++ "," :: dec index ++ "," :: metric ++ "," :: value) ++ ["010"].
Proof. unfold row_text. by repeat (rewrite <-app_assoc; cbn [app]). Qed.

Lemma six_columns_row kind repeat count index metric value :
  plain kind → plain metric → plain value → six_columns (row_text kind repeat count index metric value).
Proof.
  intros Hk Hm Hv. rewrite row_text_split. eexists. split; [done|].
  pose proof (plain_dec_str repeat) as Hr. pose proof (plain_dec_str count) as Hc. pose proof (plain_dec_str index) as Hi.
  rewrite split_row by done. split; [|done]. unfold plain in *. set_solver.
Qed.

Lemma logs_world {A} (f : W → A * W) : respects logs_ok (world f).
Proof. intros t. unfold world. destruct (f _). exists []. by rewrite app_nil_r. Qed.
Lemma logs_emit e : effect_ok e → respects logs_ok (emit e).
Proof. intros He t. exists [e]. split; [done|by constructor]. Qed.
Lemma logs_sessions l : respects logs_ok (set_sessions l).
Proof. intros t. exists []. by rewrite app_nil_r. Qed.
Lemma logs_streams l : respects logs_ok (set_streams l).
Proof. intros t. exists []. by rewrite app_nil_r. Qed.
Lemma logs_tasks l l' : respects logs_ok (set_tasks l l').
Proof. intros t. exists []. by rewrite app_nil_r. Qed.
#[local] Hint Resolve logs_world logs_emit logs_sessions logs_streams logs_tasks : measure.
#[local] Hint Extern 1 (effect_ok _) => exact I : measure.

Lemma logs_write_row path row append :
  six_columns row → (append = false → row = HEADER) → respects logs_ok (write_row path row append).
Proof. intros. unfold write_row. respects_auto. by apply logs_emit. Qed.

Lemma logs_record output kind repeat count index metric value :
  plain kind → plain metric → respects logs_ok (record output kind repeat count index metric value).
Proof.
  intros Hk Hm. pose proof (six_columns_row kind repeat count index metric _ Hk Hm (plain_fixed 6 value)).
  unfold record. destruct output; [by apply logs_write_row|]. respects_auto.
Qed.

Lemma logs_record_failure output repeat count index metric error :
  plain metric → respects logs_ok (record_failure output repeat count index metric error).
Proof.
  intros Hm. assert (plain (lit "failure")) as Hf by (apply (bool_decide_unpack _); by vm_compute).
  pose proof (six_columns_row _ repeat count index metric _ Hf Hm (plain_replaced error)).
  unfold record_failure. destruct output; [by apply logs_write_row|]. respects_auto.
Qed.

Lemma logs_create policy : respects logs_ok (create policy).
Proof. unfold create. respects_auto. Qed.
Lemma logs_list_active : respects logs_ok list_active.
Proof. unfold list_active. respects_auto. Qed.
Lemma logs_drop_session s : respects logs_ok (drop_session s).
Proof. unfold drop_session. respects_auto. Qed.
Lemma logs_drop_stream s : respects logs_ok (drop_stream s).
Proof. unfold drop_stream. respects_auto. Qed.
#[local] Hint Resolve logs_create logs_list_active logs_drop_session logs_drop_stream : measure.

Lemma logs_drops : respects logs_ok (drop_streams ≫= λ _, drop_sessions ≫= λ _, drop_tasks).
Proof. unfold drop_streams, drop_sessions, drop_tasks, drop_task_end. respects_auto. Qed.
Lemma logs_scope body : respects logs_ok body → respects logs_ok (scope body).
Proof. apply respects_scope; [apply _|apply logs_drops]. Qed.

Lemma logs_read_rss pid : respects logs_ok (read_rss_kib pid).
Proof. unfold read_rss_kib. respects_auto. Qed.
Lemma logs_wait_loop fuel deadline : respects logs_ok (wait_loop fuel deadline).
Proof. induction fuel; cbn [wait_loop]; respects_auto. Qed.
#[local] Hint Resolve logs_scope logs_read_rss logs_wait_loop : measure.

Lemma logs_push_session s : respects logs_ok (push_session s).
Proof. unfold push_session. respects_auto. Qed.
Lemma logs_keep_session s body : respects logs_ok body → respects logs_ok (keep_session s body).
Proof. apply respects_keep_session; [apply _|apply logs_push_session|apply logs_drop_session]. Qed.

Lemma logs_create_failed output repeat count index metric e :
  plain metric → respects logs_ok (create_failed texts output repeat count index metric e).
Proof. intros. unfold create_failed. respects_auto. by apply logs_record_failure. Qed.

(** The column texts of the program are literals without separators. *)
#[local] Hint Extern 1 (plain (lit _)) => apply (bool_decide_unpack _); vm_compute; exact I : measure.
#[local] Hint Resolve logs_record logs_record_failure logs_create_failed logs_keep_session : measure.

Lemma logs_sequential_trial policy pid repeat count settle output :
  respects logs_ok (sequential_trial texts policy pid repeat count settle output).
Proof.
  apply logs_scope. unfold sequential_create, wait_until_empty, drop_sessions. respects_auto.
  apply logs_keep_session. respects_auto.
Qed.

Lemma logs_finish_tasks policy n : respects logs_ok (finish_tasks policy n).
Proof. induction n; cbn [finish_tasks]; unfold create_task; respects_auto. Qed.
#[local] Hint Resolve logs_finish_tasks : measure.

Lemma logs_collect_tasks policy output repeat count fuel :
  respects logs_ok (collect_tasks texts policy output repeat count fuel).
Proof. induction fuel; cbn [collect_tasks]; unfold join_next, take_finished, concurrent_created; respects_auto. Qed.
#[local] Hint Resolve logs_collect_tasks : measure.

Lemma logs_concurrent_trial policy pid repeat count connections settle output :
  respects logs_ok (concurrent_trial texts policy pid repeat count connections settle output).
Proof.
  apply logs_scope. unfold wait_until_empty, drop_sessions, drop_streams, open_connections, connect_one, spawn. respects_auto.
Qed.
#[local] Hint Resolve logs_sequential_trial logs_concurrent_trial : measure.

Lemma six_columns_header : six_columns HEADER.
Proof. exists (take (length HEADER - 1) HEADER). split_and!; [done| |done]. apply (bool_decide_unpack _). by vm_compute. Qed.

Lemma logs_main env : respects logs_ok (main texts env).
Proof.
  unfold main, measure, warm_up, wait_until_empty. respects_auto. by apply logs_write_row; [apply six_columns_header|].
Qed.
End rows.

(** ** Handles *)

Section handles.
Context {W stream : Type} `{!MeasureWorld W stream} (texts : client_texts).
Implicit Types t : tool W stream.

(** A session's handle or a connection to its socket. *)
Definition handle : Type := Session + stream.

Definition acquired (e : effect stream) : option handle :=
  match e with Opened s => Some (inl s) | Connected c => Some (inr c) | _ => None end.
Definition released (e : effect stream) : option handle :=
  match e with Closed s => Some (inl s) | Disconnected c => Some (inr c) | _ => None end.

Definition result_handles (r : Prelude.result ClientError Session) : list handle :=
  match r with Ok s => [inl s] | Err _ => [] end.
Definition end_handles (e : task_end) : list handle := match e.2 with Some (_, r) => result_handles r | None => [] end.
Definition held t : list handle :=
  (inl <$> tl_sessions t) ++ (inr <$> tl_streams t) ++ (tl_done t ≫= end_handles).

(** Everything acquired is released, in a local, or in [extra]. *)
Definition owes (extra : list handle) t : Prop :=
  omap acquired (tl_log t) ≡ₚ omap released (tl_log t) ++ held t ++ extra.
Definition keeps_debt t t' : Prop := ∀ extra, owes extra t → owes extra t'.
#[local] Instance keeps_debt_preorder : PreOrder keeps_debt.
Proof. split; [by intros t extra|]. intros t1 t2 t3 H1 H2 extra H. by apply H2, H1. Qed.

Lemma debt_world {A} (f : W → A * W) : respects keeps_debt (world f).
Proof. intros t. unfold world. destruct (f _). intros extra H. exact H. Qed.
Lemma owes_emit e t extra :
  owes (option_list (released e) ++ extra) t →
  (acquired e = None) → owes extra (emit e t).2.
Proof.
  unfold owes, held. cbn. rewrite !omap_app. intros -> Ha. cbn. rewrite Ha, app_nil_r.
  destruct (released e); cbn; [|by rewrite app_nil_r]. solve_Permutation.
Qed.
Lemma debt_emit e : acquired e = None → released e = None → respects keeps_debt (emit e).
Proof. intros Ha Hr t extra H. apply owes_emit; [by rewrite Hr|done]. Qed.
Lemma owes_acquire e h t extra : acquired e = Some h → released e = None → owes extra t → owes (h :: extra) (emit e t).2.
Proof.
  unfold owes, held. cbn. rewrite !omap_app. intros Ha Hr ->. cbn. rewrite Ha, Hr, app_nil_r. solve_Permutation.
Qed.
#[local] Hint Resolve debt_world : measure.
#[local] Hint Extern 1 (respects keeps_debt (emit _)) => by apply debt_emit : measure.

Lemma debt_record output kind repeat count index metric value :
  respects keeps_debt (record output kind repeat count index metric value).
Proof. unfold record, write_row. respects_auto. Qed.
Lemma debt_record_failure output repeat count index metric error :
  respects keeps_debt (record_failure output repeat count index metric error).
Proof. unfold record_failure, write_row. respects_auto. Qed.
Lemma debt_read_rss pid : respects keeps_debt (read_rss_kib pid).
Proof. unfold read_rss_kib. respects_auto. Qed.
Lemma debt_list_active : respects keeps_debt list_active.
Proof. unfold list_active. respects_auto. Qed.
#[local] Hint Resolve debt_list_active : measure.
Lemma debt_wait_loop fuel deadline : respects keeps_debt (wait_loop fuel deadline).
Proof. induction fuel; cbn [wait_loop]; respects_auto. Qed.
#[local] Hint Resolve debt_record debt_record_failure debt_read_rss debt_wait_loop : measure.

(** Creating adds the new session to what is owed; dropping settles it. *)
Lemma create_owes policy t extra :
  owes extra t → ∃ r, (create policy t).1 = Ok r ∧ owes (result_handles r ++ extra) (create policy t).2.
Proof.
  intros H. unfold create. destruct (create_request_new policy) as [request|e]; [|by exists (Err e); split; [|exact H]].
  unfold mbind, M_bind. pose proof (debt_world (mw_exchange (RqCreate request)) t extra H) as H1.
  destruct (world _ t) as [[answer|e] t1] eqn:E; cbn in H1; [|by unfold world in E; destruct (mw_exchange _ _)].
  destruct (client_create _ policy) as [s|e]; [|by exists (Err e); split; [|exact H1]].
  exists (Ok s). split; [done|]. by apply (owes_acquire (Opened s)).
Qed.

Lemma drop_session_owes s t extra : owes (inl s :: extra) t → owes extra (drop_session s t).2.
Proof. intros H. apply (owes_emit (Closed s)); [|done]. by apply (debt_world (λ w, ((), mw_drop_session s w)) t). Qed.
Lemma drop_stream_owes c t extra : owes (inr c :: extra) t → owes extra (drop_stream c t).2.
Proof. intros H. apply (owes_emit (Disconnected c)); [|done]. by apply (debt_world (λ w, ((), mw_drop_stream c w)) t). Qed.

Lemma for_each_owes {A} (f : A → M W stream unit) (h : A → list handle) l t extra :
  (∀ a t extra, owes (h a ++ extra) t → (f a t).1 = Ok () ∧ owes extra (f a t).2) →
  owes ((l ≫= h) ++ extra) t → (for_each l f t).1 = Ok () ∧ owes extra (for_each l f t).2.
Proof.
  intros Hf. revert t. induction l as [|a l IH]; intros t H; cbn [for_each]; [done|].
  cbn in H. rewrite <-app_assoc in H. destruct (Hf a t _ H) as [Hr Ho].
  unfold mbind, M_bind. destruct (f a t) as [[[]|e] t1]; cbn in *; [by apply IH|done].
Qed.

Lemma owes_same t t' extra extra' :
  tl_log t' = tl_log t → held t ++ extra ≡ₚ held t' ++ extra' → owes extra t → owes extra' t'.
Proof. unfold owes. intros -> Hh ->. by rewrite Hh. Qed.

Lemma drop_sessions_owes t extra :
  owes extra t → (drop_sessions t).1 = Ok () ∧ owes extra (drop_sessions t).2.
Proof.
  intros H. unfold drop_sessions. change (mbind _ (gets tl_sessions) t) with
    (for_each (tl_sessions t) drop_session (set_sessions [] t).2).
  apply (for_each_owes _ (λ s, [inl s])); [by intros; split; [|apply drop_session_owes]|].
  rewrite list_bind_singleton. eapply (owes_same t); [done| |exact H]. unfold held. cbn.
  solve_Permutation.
Qed.

Lemma drop_streams_owes t extra :
  owes extra t → (drop_streams t).1 = Ok () ∧ owes extra (drop_streams t).2.
Proof.
  intros H. unfold drop_streams. change (mbind _ (gets tl_streams) t) with
    (for_each (tl_streams t) drop_stream (set_streams [] t).2).
  apply (for_each_owes _ (λ s, [inr s])); [by intros; split; [|apply drop_stream_owes]|].
  rewrite list_bind_singleton. eapply (owes_same t); [done| |exact H]. unfold held. cbn.
  solve_Permutation.
Qed.
Lemma drop_tasks_owes t extra : owes extra t → (drop_tasks t).1 = Ok () ∧ owes extra (drop_tasks t).2.
Proof.
  intros H. unfold drop_tasks. change (mbind _ (gets tl_running) t) with
    ((for_each (tl_running t) (λ i, world_ (mw_abort_create i)) ≫= λ _, for_each (tl_done t) drop_task_end)
       (set_tasks [] [] t).2).
  unfold mbind, M_bind.
  destruct (for_each_owes (λ i, world_ (mw_abort_create i)) (λ _, []) (tl_running t) (set_tasks [] [] t).2
    ((tl_done t ≫= end_handles) ++ extra)) as [Hr Ho].
  - intros i t' extra' H'. by apply (debt_world (λ w, ((), mw_abort_create i w)) t') in H'.
  - assert (tl_running t ≫= (λ _, []) = ([] : list handle)) as -> by (induction (tl_running t); done).
    eapply (owes_same t); [done| |exact H]. unfold held. cbn. solve_Permutation.
  - destruct (for_each _ _ _) as [[[]|e] t1]; [|done]. cbn in Ho. apply (for_each_owes _ end_handles); [|done].
    intros [i [[l [s|e]]|]] t2 extra' H2; cbn in H2; (split; [done|]); try exact H2. by apply drop_session_owes.
Qed.

Lemma debt_drop_sessions : respects keeps_debt drop_sessions.
Proof. intros t extra H. by apply drop_sessions_owes. Qed.
Lemma debt_drop_streams : respects keeps_debt drop_streams.
Proof. intros t extra H. by apply drop_streams_owes. Qed.
Lemma debt_drop_tasks : respects keeps_debt drop_tasks.
Proof. intros t extra H. by apply drop_tasks_owes. Qed.
#[local] Hint Resolve debt_drop_sessions debt_drop_streams debt_drop_tasks : measure.

Lemma debt_scope body : respects keeps_debt body → respects keeps_debt (scope body).
Proof. apply respects_scope; [apply _|]. respects_auto. Qed.

Lemma keep_session_owes s body t extra :
  respects keeps_debt body → owes (inl s :: extra) t → owes extra (keep_session s body t).2.
Proof.
  intros Hb H%Hb. unfold keep_session. destruct (body t) as [[[]|e] t1]; cbn [snd] in *.
  - eapply (owes_same t1); [done| |exact H]. unfold push_session, mbind, M_bind.
    unfold held. cbn [snd set_sessions gets tl_sessions tl_streams tl_done]. rewrite fmap_app. cbn. solve_Permutation.
  - by apply drop_session_owes.
Qed.

(** What follows a creation takes over the handle. *)
Lemma create_then {A} policy (f : Prelude.result ClientError Session → M W stream A) :
  (∀ r t extra, owes (result_handles r ++ extra) t → owes extra (f r t).2) → respects keeps_debt (create policy ≫= f).
Proof.
  intros Hf t extra H. destruct (create_owes policy t extra H) as (r & Hr & Ho). unfold mbind, M_bind.
  destruct (create policy t) as [[r'|e] t1]; [|done]. cbn in Hr, Ho. injection Hr as ->. by apply Hf.
Qed.

Lemma debt_create_failed output repeat count index metric e :
  respects keeps_debt (create_failed texts output repeat count index metric e).
Proof. unfold create_failed. respects_auto. Qed.

Lemma debt_sequential_create policy output repeat count index :
  respects keeps_debt (sequential_create texts policy output repeat count index).
Proof.
  unfold sequential_create. respects_step; [respects_auto|]. apply create_then. intros [s|e] t extra H.
  - apply keep_session_owes; [|done]. respects_auto.
  - by apply debt_create_failed.
Qed.

Lemma debt_warm_up policy n : respects keeps_debt (warm_up policy n).
Proof. unfold warm_up. apply create_then. intros [s|e] t extra H; [by apply drop_session_owes|exact H]. Qed.
#[local] Hint Resolve debt_scope debt_sequential_create debt_warm_up : measure.

Lemma debt_sequential_trial policy pid repeat count settle output :
  respects keeps_debt (sequential_trial texts policy pid repeat count settle output).
Proof. apply debt_scope. unfold wait_until_empty. respects_auto. Qed.

Lemma create_task_owes policy index t extra :
  owes extra t → ∃ e, (create_task policy index t).1 = Ok e ∧ e.1 = index ∧
    owes (end_handles e ++ extra) (create_task policy index t).2.
Proof.
  intros H. unfold create_task, elapsed, now, world, mbind, M_bind, mret, M_ret.
  destruct (mw_task_panics _) as [[] w1]; cbn; [by exists (index, None)|].
  destruct (mw_now w1) as [n w2]. cbn.
  set (t2 := mkTool w2 _ _ _ _ _). destruct (create_owes policy t2 extra H) as (r & Hr & Ho).
  destruct (create policy t2) as [[r'|e] t3]; [|done]. cbn in *. injection Hr as ->.
  destruct (mw_now (tl_world t3)) as [n' w4]. cbn. by exists (index, Some ((n' - n)%N, r)).
Qed.
Lemma set_tasks_owes running rest e t extra :
  tl_done t = rest → owes (end_handles e ++ extra) t → owes extra (set_tasks running (rest ++ [e]) t).2.
Proof.
  intros <- H. eapply (owes_same t); [done| |exact H]. unfold held. cbn. rewrite bind_app. cbn.
  rewrite app_nil_r. solve_Permutation.
Qed.

Lemma debt_finish_tasks policy n : respects keeps_debt (finish_tasks policy n).
Proof.
  induction n as [|n IH]; cbn [finish_tasks]; [respects_auto|]. respects_step; [respects_auto|].
  respects_step; [respects_auto|]. destruct (_ !! _) as [index|]; [|respects_auto].
  intros t extra H. destruct (create_task_owes policy index t extra H) as (e & He & _ & Ho).
  unfold mbind, M_bind. destruct (create_task policy index t) as [[e'|] t1]; [|done]. cbn in He, Ho. injection He as ->.
  cbn [gets]. by apply IH, set_tasks_owes.
Qed.

(** Taking a finished task out of the set hands its session on. *)
Lemma take_finished_owes t extra :
  owes extra t → ∃ r, (take_finished t).1 = Ok r ∧
    owes (match r with Some e => end_handles e | None => [] end ++ extra) (take_finished t).2.
Proof.
  intros H. unfold take_finished, mbind, M_bind. cbn [gets]. destruct (tl_done t) as [|e rest] eqn:Hd; [by exists None|].
  exists (Some e). split; [done|]. eapply (owes_same t); [done| |exact H]. unfold held. rewrite Hd. cbn. solve_Permutation.
Qed.

Lemma debt_collect_tasks policy output repeat count fuel :
  respects keeps_debt (collect_tasks texts policy output repeat count fuel).
Proof.
  induction fuel as [|fuel IH]; cbn [collect_tasks]; [respects_auto|]. unfold join_next.
  do 2 (apply respects_assoc; respects_step; [respects_auto|]).
  apply respects_assoc. respects_step; [apply debt_finish_tasks|]. intros t extra H.
  destruct (take_finished_owes t extra H) as (r & Hr & Ho). unfold mbind, M_bind.
  destruct (take_finished t) as [[r'|] t1]; [|done]. cbn in Hr, Ho. injection Hr as ->.
  destruct r as [e|]; [|exact Ho].
  assert (owes extra (concurrent_created texts output repeat count e t1).2) as Hc.
  { destruct e as [index [[latency [s|error]]|]]; cbn in *; [|by apply debt_create_failed|done].
    apply keep_session_owes; [respects_auto|done]. }
  destruct (concurrent_created _ _ _ _ _ _) as [[[]|e'] t2]; [by apply IH|done].
Qed.

Lemma debt_spawn i : respects keeps_debt (spawn i).
Proof. intros t extra H. exact H. Qed.

Lemma debt_connect_one output repeat count connections i s j :
  respects keeps_debt (connect_one output repeat count connections i s j).
Proof.
  unfold connect_one. respects_step; [respects_auto|]. destruct (_ : Prelude.result _ _) as [c|]; [|respects_auto].
  intros t extra H. pose proof (owes_acquire (Connected c) _ t extra eq_refl eq_refl H) as H1.
  eapply owes_same; [| |exact H1]; [done|]. unfold held, mbind, M_bind.
  cbn [emit gets set_streams snd tl_sessions tl_streams tl_done]. rewrite fmap_app. cbn. solve_Permutation.
Qed.
#[local] Hint Resolve debt_collect_tasks debt_connect_one debt_spawn : measure.

Lemma debt_concurrent_trial policy pid repeat count connections settle output :
  respects keeps_debt (concurrent_trial texts policy pid repeat count connections settle output).
Proof. apply debt_scope. unfold wait_until_empty, open_connections. respects_auto. Qed.
#[local] Hint Resolve debt_sequential_trial debt_concurrent_trial : measure.

Lemma debt_main env : respects keeps_debt (main texts env).
Proof. unfold main, measure, wait_until_empty, write_row. respects_auto. Qed.
End handles.

(** ** Locals *)

Section locals.
Context {W stream : Type} `{!MeasureWorld W stream} (texts : client_texts).
Implicit Types t : tool W stream.

Definition locals t : list Session * list stream * list N * list task_end :=
  (tl_sessions t, tl_streams t, tl_running t, tl_done t).
Definition same_locals t t' : Prop := locals t' = locals t.
Definition idle t : Prop := locals t = ([], [], [], []).
#[export] Instance same_locals_preorder : PreOrder same_locals.
Proof. split; [done|]. unfold same_locals. intros ? ? ? -> ->. done. Qed.

Lemma locals_world {A} (f : W → A * W) : respects same_locals (world f).
Proof. intros t. unfold world. by destruct (f _). Qed.
Lemma locals_emit e : respects same_locals (emit e).
Proof. by intros t. Qed.
#[local] Hint Resolve locals_world locals_emit : measure.

Lemma locals_record output kind repeat count index metric value :
  respects same_locals (record output kind repeat count index metric value).
Proof. unfold record, write_row. respects_auto. Qed.
Lemma locals_read_rss pid : respects same_locals (read_rss_kib pid).
Proof. unfold read_rss_kib. respects_auto. Qed.
Lemma locals_list_active : respects same_locals list_active.
Proof. unfold list_active. respects_auto. Qed.
#[local] Hint Resolve locals_list_active : measure.
Lemma locals_wait : respects same_locals wait_until_empty.
Proof.
  unfold wait_until_empty. respects_auto. generalize WAIT_FUEL. intros n. induction n; cbn [wait_loop]; respects_auto.
Qed.
Lemma locals_create policy : respects same_locals (create policy).
Proof. unfold create. respects_auto. Qed.
#[local] Hint Resolve locals_create : measure.
Lemma locals_warm_up policy n : respects same_locals (warm_up policy n).
Proof. unfold warm_up, drop_session. respects_auto. Qed.
Lemma locals_create_task policy index : respects same_locals (create_task policy index).
Proof. unfold create_task. respects_auto. Qed.
Lemma locals_write_row path row append : respects same_locals (write_row path row append).
Proof. unfold write_row. respects_auto. Qed.
Lemma locals_drop_session s : respects same_locals (drop_session s).
Proof. unfold drop_session. respects_auto. Qed.

Lemma drop_sessions_locals t : locals (drop_sessions t).2 = ([], tl_streams t, tl_running t, tl_done t).
Proof.
  assert (respects same_locals (for_each (tl_sessions t) drop_session)) as H
    by (unfold drop_session; respects_auto).
  apply (H (set_sessions [] t).2).
Qed.
Lemma drop_streams_locals t : locals (drop_streams t).2 = (tl_sessions t, [], tl_running t, tl_done t).
Proof.
  assert (respects same_locals (for_each (tl_streams t) drop_stream)) as H
    by (unfold drop_stream; respects_auto).
  apply (H (set_streams [] t).2).
Qed.
Lemma drop_tasks_locals t : locals (drop_tasks t).2 = (tl_sessions t, tl_streams t, [], []).
Proof.
  assert (respects same_locals (for_each (tl_running t) (λ i, world_ (mw_abort_create i)) ≫= λ _,
    for_each (tl_done t) drop_task_end)) as H by (unfold drop_task_end, drop_session; respects_auto).
  apply (H (set_tasks [] [] t).2).
Qed.

Lemma for_each_total {A} (f : A → M W stream unit) l t :
  (∀ a t, (f a t).1 = Ok ()) → (for_each l f t).1 = Ok ().
Proof.
  intros Hf. revert t. induction l as [|a l IH]; intros t; [done|]. cbn [for_each]. unfold mbind, M_bind.
  specialize (Hf a t). destruct (f a t) as [[[]|] t1]; [apply IH|done].
Qed.

Lemma drop_streams_total t : (drop_streams t).1 = Ok ().
Proof. by apply (for_each_total drop_stream (tl_streams t) (set_streams [] t).2). Qed.
Lemma drop_sessions_total t : (drop_sessions t).1 = Ok ().
Proof. by apply (for_each_total drop_session (tl_sessions t) (set_sessions [] t).2). Qed.

Lemma bind_Ok_eq {A B} (m : M W stream A) (f : A → M W stream B) t a :
  (m t).1 = Ok a → (m ≫= f) t = f a (m t).2.
Proof. unfold mbind, M_bind. destruct (m t) as [[b|] t1]; cbn; intros H; by simplify_eq. Qed.

(** A scope gives the result of its body and leaves no local behind. *)
Lemma scope_eq body t :
  scope body t = ((body t).1, (drop_tasks (drop_sessions (drop_streams (body t).2).2).2).2).
Proof.
  unfold scope. destruct (body t) as [r t1]. cbn [fst snd].
  rewrite (bind_Ok_eq _ _ _ _ (drop_streams_total t1)), (bind_Ok_eq _ _ _ _ (drop_sessions_total _)).
  by destruct (drop_tasks _).
Qed.

Lemma scope_idle body t : idle (scope body t).2.
Proof.
  rewrite scope_eq. unfold idle. cbn [snd]. set (t1 := (body t).2). rewrite drop_tasks_locals.
  pose proof (drop_sessions_locals (drop_streams t1).2) as H1. pose proof (drop_streams_locals t1) as H2.
  unfold locals in *. injection H1 as -> -> _ _. by injection H2 as _ -> _ _.
Qed.

Definition keeps_idle t t' : Prop := idle t → idle t'.
#[export] Instance keeps_idle_preorder : PreOrder keeps_idle.
Proof. split; [intros t H; exact H|]. intros t1 t2 t3 H1 H2 H. by apply H2, H1. Qed.
Lemma locals_idle {A} (m : M W stream A) : respects same_locals m → respects keeps_idle m.
Proof. intros H t Hi. unfold idle. by rewrite (H t). Qed.
Lemma idle_scope body : respects keeps_idle (scope body).
Proof. intros t _. apply scope_idle. Qed.
#[local] Hint Resolve locals_idle idle_scope locals_wait locals_warm_up locals_write_row : measure.

Lemma idle_main env : respects keeps_idle (main texts env).
Proof. unfold main, measure, sequential_trial, concurrent_trial. respects_auto. Qed.
End locals.

(** ** The last listing *)

Section settled.
Context {W stream : Type} `{!MeasureWorld W stream} (texts : client_texts).
Implicit Types t : tool W stream.

(** The daemon's last listing was empty and no session was opened since. *)
Definition settled t : Prop :=
  ∃ before after, tl_log t = before ++ Listed [] :: after ∧ ∀ s, Opened s ∉ after.

(** No session is opened. *)
Definition quiet t t' : Prop := ∃ l, tl_log t' = tl_log t ++ l ∧ ∀ s, Opened s ∉ l.
#[local] Instance quiet_preorder : PreOrder quiet.
Proof.
  split.
  - intros t. exists []. by rewrite app_nil_r; split; [|set_solver].
  - intros t1 t2 t3 (l1 & E1 & H1) (l2 & E2 & H2). exists (l1 ++ l2). rewrite E2, E1, app_assoc.
    split; [done|]. intros s. rewrite elem_of_app. naive_solver.
Qed.
Lemma settled_quiet t t' : settled t → quiet t t' → settled t'.
Proof.
  intros (before & after & E & H) (l & E' & H'). exists before, (after ++ l). rewrite E', E, <-app_assoc.
  split; [done|]. intros s. rewrite elem_of_app. naive_solver.
Qed.

Lemma quiet_same_log {A} (m : M W stream A) : (∀ t, tl_log (m t).2 = tl_log t) → respects quiet m.
Proof. intros H t. exists []. by rewrite app_nil_r; split; [|set_solver]. Qed.
Lemma quiet_world {A} (f : W → A * W) : respects quiet (world f).
Proof. apply quiet_same_log. intros t. unfold world. by destruct (f _). Qed.
Lemma quiet_emit e : (∀ s, e ≠ Opened s) → respects quiet (emit e).
Proof. intros He t. exists [e]. split; [done|]. intros s E%list_elem_of_singleton. by apply (He s). Qed.
Lemma quiet_set_sessions l : respects quiet (set_sessions l).
Proof. by apply quiet_same_log. Qed.
Lemma quiet_set_streams l : respects quiet (set_streams l).
Proof. by apply quiet_same_log. Qed.
Lemma quiet_set_tasks l l' : respects quiet (set_tasks l l').
Proof. by apply quiet_same_log. Qed.
#[local] Hint Resolve quiet_world quiet_set_sessions quiet_set_streams quiet_set_tasks : measure.
#[local] Hint Extern 1 (respects quiet (emit _)) => by apply quiet_emit : measure.

Lemma quiet_record output kind repeat count index metric value :
  respects quiet (record output kind repeat count index metric value).
Proof. unfold record, write_row. respects_auto. Qed.
Lemma quiet_read_rss pid : respects quiet (read_rss_kib pid).
Proof. unfold read_rss_kib. respects_auto. Qed.
Lemma quiet_drops : respects quiet (drop_streams ≫= λ _, drop_sessions ≫= λ _, drop_tasks).
Proof. unfold drop_streams, drop_sessions, drop_tasks, drop_task_end, drop_session, drop_stream. respects_auto. Qed.
#[local] Hint Resolve quiet_record quiet_read_rss : measure.

(** A successful run of [m] ends settled. *)
Definition settles (m : M W stream unit) : Prop := ∀ t t', m t = (Ok (), t') → settled t'.

Lemma settles_after {A} (m : M W stream A) f : (∀ a, settles (f a)) → settles (m ≫= f).
Proof. intros Hf t t'. unfold mbind, M_bind. destruct (m t) as [[a|] t1]; [apply Hf|done]. Qed.
Lemma settles_before m f : settles m → respects quiet (f ()) → settles (m ≫= f).
Proof.
  intros Hm Hf t t'. unfold mbind, M_bind. destruct (m t) as [[[]|] t1] eqn:E; [|done]. intros E'.
  eapply settled_quiet; [by eapply Hm|]. specialize (Hf t1). by rewrite E' in Hf.
Qed.
Lemma settles_scope body : settles body → settles (scope body).
Proof.
  intros Hb t t'. unfold scope. destruct (body t) as [r t1] eqn:E. pose proof (quiet_drops t1) as Hq. revert Hq.
  generalize ((drop_streams ≫= λ _, drop_sessions ≫= λ _, drop_tasks) t1). intros [u t2] Hq [= -> ->].
  eapply settled_quiet; [by eapply Hb|done].
Qed.
Lemma list_active_log t sessions t' : list_active t = (Ok sessions, t') → tl_log t' = tl_log t ++ [Listed sessions].
Proof.
  unfold list_active, world, mbind, M_bind. destruct (mw_exchange _ _) as [answer w].
  destruct (client_list _) as [l|e]; [|done]. by intros [= -> <-].
Qed.

Lemma settles_wait_loop fuel deadline : settles (wait_loop fuel deadline).
Proof.
  induction fuel as [|fuel IH]; [done|]. cbn [wait_loop]. intros t t'. unfold mbind at 1, M_bind at 1.
  destruct (list_active t) as [[sessions|] t1] eqn:E; [|done]. case_bool_decide; subst.
  - intros [= <-]. exists (tl_log t), []. rewrite (list_active_log _ _ _ E). split; [done|set_solver].
  - revert t1 t' E. intros t1 t' _. revert t1 t'. apply settles_after. intros time.
    destruct (_ <=? _)%N; [done|]. by apply settles_after.
Qed.

Lemma settles_wait : settles wait_until_empty.
Proof. apply settles_after. intros start. apply settles_wait_loop. Qed.

(** Pass what comes before the last wait. *)
Ltac settles_seek :=
  repeat lazymatch goal with
  | |- settles (mbind _ wait_until_empty) => fail
  | |- settles (mbind _ _) => apply settles_after; intros ?
  end; apply settles_before; [apply settles_wait|].

Lemma settles_sequential_trial policy pid repeat count settle output :
  settles (sequential_trial texts policy pid repeat count settle output).
Proof.
  apply settles_scope. cbv zeta. settles_seek. respects_auto.
Qed.

Lemma settles_concurrent_trial policy pid repeat count connections settle output :
  settles (concurrent_trial texts policy pid repeat count connections settle output).
Proof. apply settles_scope. cbv zeta. settles_seek. respects_auto. Qed.

Lemma settles_for_each {A} (l : list A) f : l ≠ [] → (∀ a, settles (f a)) → settles (for_each l f).
Proof.
  intros Hl Hf. induction l as [|a [|b l] IH]; [done| |].
  - cbn [for_each]. apply settles_before; [apply Hf|]. apply respects_ret, _.
  - apply settles_after. intros _. by apply IH.
Qed.

Lemma read_settings_repeats env s : read_settings env = Ok s → st_repeats s ≠ 0%N.
Proof. unfold read_settings. intros H. res_inv. cbn. by apply N.eqb_neq. Qed.

Lemma settles_main env : settles (main texts env).
Proof.
  unfold main. intros t t'. unfold mbind at 1, M_bind, lift_result. destruct (read_settings env) as [s|] eqn:Hs; [|done].
  apply read_settings_repeats in Hs. revert t t'. fold (settles (measure texts s)). unfold measure.
  apply settles_after. intros active. destruct (negb _); [done|]. apply settles_after. intros _.
  destruct (st_counts s) as [|first rest]; [done|]. do 2 (apply settles_after; intros _).
  apply settles_for_each; [done|]. intros count. apply settles_for_each.
  - unfold upto. intros E%fmap_nil_inv. by destruct (N.to_nat _) eqn:?; [lia|].
  - intros repeat. apply settles_after. intros _. apply settles_concurrent_trial.
Qed.
End settled.

(** ** The set of creation tasks *)

Section tasks.
Context {W stream : Type} `{!MeasureWorld W stream} (texts : client_texts).
Implicit Types t : tool W stream.

(** The tasks that have not been collected. *)
Definition pending t : list N := tl_running t ++ (fst <$> tl_done t).
Definition vars t : list Session * list stream := (tl_sessions t, tl_streams t).

Lemma create_task_total policy index t :
  ∃ o, (create_task policy index t).1 = Ok (index, o) ∧ locals (create_task policy index t).2 = locals t.
Proof.
  pose proof (locals_create_task policy index t) as Hl. unfold same_locals in Hl.
  assert (∃ o, (create_task policy index t).1 = Ok (index, o)) as [o Ho]; [|by exists o].
  unfold create_task, elapsed, now, world, mbind, M_bind, mret, M_ret.
  destruct (mw_task_panics _) as [[] w1]; cbn; [by exists None|]. destruct (mw_now w1) as [n w2]. cbn.
  assert (∀ t, ∃ r, (create policy t).1 = Ok r) as Hc.
  { intros t'. unfold create, world, mbind, M_bind. destruct (create_request_new policy); [|by eexists].
    destruct (mw_exchange _ _) as [answer w]. destruct (client_create _ policy); by eexists. }
  destruct (Hc (mkTool w2 (tl_log t) (tl_sessions t) (tl_streams t) (tl_running t) (tl_done t))) as [r Hr].
  destruct (create policy _) as [[r'|] t3]; [|done]. cbn. destruct (mw_now (tl_world t3)). cbn. by eexists.
Qed.

Lemma finish_tasks_S policy n t :
  ∃ t1, locals t1 = locals t ∧
    ((tl_running t = [] ∧ finish_tasks policy (S n) t = (Ok (), t1)) ∨
     ∃ k index o, tl_running t !! k = Some index ∧
       finish_tasks policy (S n) t =
       finish_tasks policy n (set_tasks (delete k (tl_running t)) (tl_done t ++ [(index, o)]) t1).2).
Proof.
  cbn [finish_tasks]. unfold gets, world. unfold mbind, M_bind.
  destruct (mw_pick _ _) as [pick w]. set (t0 := mkTool w _ _ _ _ _). set (k := pick mod _).
  destruct (tl_running t !! k) as [index|] eqn:Hk.
  - destruct (create_task_total policy index t0) as (o & Ho & Hl).
    destruct (create_task policy index t0) as [[e|] t1]; [|done]. cbn in Ho, Hl. injection Ho as ->.
    exists t1. split; [done|]. right. exists k, index, o. split; [done|].
    assert (tl_done t1 = tl_done t) as -> by by injection Hl. done.
  - exists t0. split; [done|]. left. split; [|done]. destruct (tl_running t) as [|i l]; [done|].
    apply lookup_ge_None in Hk. assert (k < length (i :: l)) by (apply Nat.mod_upper_bound; done). lia.
Qed.

Lemma finish_tasks_spec policy n t :
  let t' := (finish_tasks policy n t).2 in
  (finish_tasks policy n t).1 = Ok () ∧ pending t' ≡ₚ pending t ∧ vars t' = vars t ∧
  (tl_done t ≠ [] ∨ n ≠ 0 ∧ pending t ≠ [] → tl_done t' ≠ []).
Proof.
  revert t. induction n as [|n IH]; intros t; [cbn; naive_solver|].
  destruct (finish_tasks_S policy n t) as (t1 & Hl & [[Hr ->]|(k & index & o & Hk & ->)]); unfold locals in Hl.
  - injection Hl as Hs Hc Hr' Hd. unfold pending, vars. cbn [fst snd]. rewrite Hs, Hc, Hr', Hd, Hr. split_and!; try done.
    intros [H|[_ H]]; [done|]. intros E. by rewrite E in H.
  - set (t2 := (set_tasks _ _ t1).2). destruct (IH t2) as (H1 & H2 & H3 & H4).
    assert (pending t2 ≡ₚ pending t) as Hp.
    { unfold pending, t2. cbn. rewrite fmap_app. cbn. rewrite (delete_Permutation (tl_running t) k index Hk) at 2.
      solve_Permutation. }
    split_and!; [done|by rewrite H2| |].
    + rewrite H3. unfold vars, t2. cbn. by injection Hl as -> ->.
    + intros _. apply H4. left. unfold t2. cbn. by destruct (tl_done t).
Qed.

Lemma join_next_eq policy t :
  ∃ n t0, locals t0 = locals t ∧ (tl_done t = [] → n ≠ 0) ∧
    join_next policy t = take_finished (finish_tasks policy n t0).2.
Proof.
  unfold join_next, gets, world. unfold mbind at 1, M_bind at 1. unfold mbind at 1, M_bind at 1.
  destruct (mw_wakes _) as [wakes w]. set (t0 := mkTool w _ _ _ _ _). set (n := match tl_done t with [] => _ | _ => _ end).
  exists n, t0. split_and!; [done|by unfold n; intros ->|].
  by rewrite (bind_Ok_eq _ _ _ _ (proj1 (finish_tasks_spec policy n t0))).
Qed.

(** [join_next] takes exactly one task out of the set, and answers [None] only
    when it is empty. *)
Lemma join_next_spec policy t :
  ∃ r, (join_next policy t).1 = Ok r ∧ vars (join_next policy t).2 = vars t ∧
    match r with
    | None => pending t = [] ∧ pending (join_next policy t).2 = []
    | Some e => pending t ≡ₚ e.1 :: pending (join_next policy t).2
    end.
Proof.
  destruct (join_next_eq policy t) as (n & t0 & Hl & Hn & ->). unfold locals in Hl. injection Hl as Hs Hc Hr Hd0.
  destruct (finish_tasks_spec policy n t0) as (H1 & H2 & H3 & H4). set (t1 := (finish_tasks policy n t0).2) in *.
  assert (pending t0 = pending t) as Hp by (unfold pending; congruence).
  assert (vars t0 = vars t) as Hv by (unfold vars; congruence). rewrite Hp, Hd0 in *. rewrite Hv in *.
  unfold take_finished, gets, mbind, M_bind.
  destruct (tl_done t1) as [|e rest] eqn:Hd.
  - exists None. split_and!; [done|exact H3| |].
    + destruct (decide (pending t = [])) as [|Hne]; [done|]. destruct H4; [|done].
      destruct (tl_done t) eqn:E; [right|by left]. split; [|done]. by apply Hn.
    + cbn. destruct (decide (pending t = [])) as [E|Hne]; [by rewrite E, Permutation_nil_r in H2|].
      destruct H4; [|done]. destruct (tl_done t) eqn:E; [right|by left]. split; [|done]. by apply Hn.
  - exists (Some e). split_and!; [done|exact H3|]. rewrite <-H2. unfold pending. cbn. rewrite Hd. cbn. solve_Permutation.
Qed.

Lemma spawn_all l t :
  for_each l spawn t = (Ok (), mkTool (tl_world t) (tl_log t) (tl_sessions t) (tl_streams t) (tl_running t ++ l) (tl_done t)).
Proof.
  revert t. induction l as [|i l IH]; intros t; [rewrite app_nil_r; by destruct t|].
  cbn [for_each]. rewrite (bind_Ok_eq (spawn i) _ t () eq_refl), IH. unfold spawn, mbind, M_bind. cbn.
  by rewrite <-app_assoc.
Qed.

Lemma keep_session_pending s body t :
  respects same_locals body → pending (keep_session s body t).2 = pending t ∧
  tl_streams (keep_session s body t).2 = tl_streams t ∧
  ((keep_session s body t).1 = Ok () → tl_sessions (keep_session s body t).2 = tl_sessions t ++ [s]).
Proof.
  intros Hb. specialize (Hb t). unfold same_locals, locals in Hb. unfold keep_session, pending.
  destruct (body t) as [[[]|e] t1]; cbn [snd fst] in *; injection Hb as H1 H2 H3 H4.
  - unfold push_session, mbind, M_bind. cbn. by rewrite H1, H2, H3, H4.
  - unfold drop_session, world_, world, mbind, M_bind. cbn. by rewrite H2, H3, H4.
Qed.

Lemma locals_create_failed output repeat count index metric e :
  respects same_locals (create_failed texts output repeat count index metric e).
Proof. unfold create_failed, record_failure, write_row. respects_auto; solve [apply locals_world|apply locals_emit]. Qed.

Lemma same_pending t t' : same_locals t t' → pending t' = pending t.
Proof. unfold same_locals, locals, pending. congruence. Qed.

Lemma concurrent_created_pending output repeat count e t :
  pending (concurrent_created texts output repeat count e t).2 = pending t.
Proof.
  destruct e as [index [[latency [s|error]]|]]; cbn [concurrent_created].
  - apply keep_session_pending, locals_record.
  - apply same_pending, locals_create_failed.
  - done.
Qed.
End tasks.

(** ** Termination *)

(** A monotone clock: reading it and talking to the daemon do not turn it
    back, and a sleep lasts at least as long as asked. *)
Class MeasureClock (W stream : Type) `{!MeasureWorld W stream} := {
  mc_clock : W → N;
  mc_exchange r w : (mc_clock w ≤ mc_clock (mw_exchange r w).2)%N;
  mc_now w : (mc_clock w ≤ (mw_now w).1)%N ∧ ((mw_now w).1 ≤ mc_clock (mw_now w).2)%N;
  mc_sleep d w : (mc_clock w + d ≤ mc_clock (mw_sleep d w))%N;
}.

Section termination.
Context {W stream : Type} `{!MeasureWorld W stream, !MeasureClock W stream} (texts : client_texts).
Implicit Types t : tool W stream.

Definition ends {A} (m : M W stream A) : Prop := ∀ t, (m t).1 ≠ Err Diverged.
Definition clock t : N := mc_clock (tl_world t).

Lemma ends_seq {A B} (m : M W stream A) (f : A → M W stream B) : ends m → (∀ a, ends (f a)) → ends (m ≫= f).
Proof using Type.
  intros Hm Hf t. specialize (Hm t). unfold mbind, M_bind. destruct (m t) as [[a|e] t1]; [apply Hf|]. cbn in *. congruence.
Qed.
Lemma ends_for_each {A} (l : list A) f : (∀ a, ends (f a)) → ends (for_each l f).
Proof using Type. intros Hf. induction l as [|a l IH]; cbn [for_each]; [done|by apply ends_seq]. Qed.
Lemma ends_call {A} (f : W → A * W) : ends (world f).
Proof using Type. intros t. unfold world. by destruct (f _). Qed.
Lemma ends_lift_ok_or {A} (o : option A) e : e ≠ Diverged → ends (lift_result (ok_or o e)).
Proof using Type. intros He t. destruct o; cbn; congruence. Qed.
Lemma ends_lift_io {A} (r : Prelude.result str A) : ends (lift_result (map_err IoSaid r)).
Proof using Type. by intros t; destruct r. Qed.

Ltac ends_step :=
  match goal with
  | |- ends (mbind _ _) => apply ends_seq; [|intros ?]
  | |- ends (for_each _ _) => apply ends_for_each; intros ?
  | |- ends (world _) => apply ends_call
  | |- ends (lift_result (ok_or _ _)) => by apply ends_lift_ok_or
  | |- ends (lift_result (map_err IoSaid _)) => apply ends_lift_io
  | |- ends (if ?b then _ else _) => destruct b
  | |- ends (match ?x with _ => _ end) => destruct x
  | |- ends (let _ := _ in _) => cbv zeta
  end.
Ltac ends_auto :=
  repeat (ends_step || (progress unfold elapsed, sleep_ms, now, world_, reserve, usize_op)); try done; try by eauto with measure.

Lemma ends_record output kind repeat count index metric value :
  ends (record output kind repeat count index metric value).
Proof using Type. unfold record, write_row. ends_auto. Qed.
Lemma ends_record_failure output repeat count index metric error :
  ends (record_failure output repeat count index metric error).
Proof using Type. unfold record_failure, write_row. ends_auto. Qed.
Lemma ends_read_rss pid : ends (read_rss_kib pid).
Proof using Type.
  unfold read_rss_kib. ends_auto. intros t. unfold lift_result, parse_rss. cbn.
  destruct (List.find _ _) as [line|]; [|done]. cbn. destruct (split_whitespace line !! 1%nat) as [v|]; [|done]. cbn.
  by destruct (parse_uint _ _).
Qed.
Lemma ends_create policy : ends (create policy).
Proof using Type. unfold create. ends_auto. Qed.
Lemma ends_list_active : ends list_active.
Proof using Type. unfold list_active. ends_auto. Qed.
#[local] Hint Resolve ends_record ends_record_failure ends_read_rss ends_create ends_list_active : measure.

(** Time does not go back. *)
Definition later t t' : Prop := (clock t ≤ clock t')%N.
#[local] Instance later_preorder : PreOrder later.
Proof using Type. unfold later. split; [intros t; apply N.le_refl|]. intros ? ? ? ? ?. by etransitivity. Qed.

Lemma later_list_active : respects later list_active.
Proof using Type.
  intros t. unfold list_active, world, mbind, M_bind. pose proof (mc_exchange RqList (tl_world t)) as H.
  destruct (mw_exchange RqList (tl_world t)) as [answer w]. cbn in H. by destruct (client_list _).
Qed.

(** Each round takes a millisecond: [fuel] rounds pass [fuel] milliseconds. *)
Lemma wait_loop_ends fuel deadline t :
  fuel ≠ 0 → (deadline ≤ clock t + N.of_nat (fuel - 1) * 1000000)%N → (wait_loop fuel deadline t).1 ≠ Err Diverged.
Proof using Type*.
  revert t. induction fuel as [|fuel IH]; intros t Hf Hd; [done|]. cbn [wait_loop]. unfold mbind at 1, M_bind at 1.
  pose proof (later_list_active t) as H1. pose proof (ends_list_active t) as H2. unfold later in H1.
  destruct (list_active t) as [[sessions|e] t1]; cbn in H1, H2; [|cbn; congruence]. case_bool_decide; [done|].
  unfold now, world, mbind, M_bind. pose proof (mc_now (tl_world t1)) as [H3 H4].
  destruct (mw_now (tl_world t1)) as [time w]. cbn in H3, H4. destruct (deadline <=? time)%N eqn:Ht; [done|].
  apply N.leb_gt in Ht. unfold sleep_ms, world_, world. cbn [tl_world].
  pose proof (mc_sleep (1 * 1000000) w) as H5. unfold clock in *. apply IH; cbn [tl_world]; lia.
Qed.

Lemma wait_ends : ends wait_until_empty.
Proof using Type*.
  intros t. unfold wait_until_empty, now, world, mbind, M_bind. pose proof (mc_now (tl_world t)) as [H1 H2].
  destruct (mw_now (tl_world t)) as [start w]. cbn in H1, H2. apply wait_loop_ends; [done|].
  unfold clock. cbn [tl_world]. unfold NANOS_PER_SEC, WAIT_FUEL. lia.
Qed.
#[local] Hint Resolve wait_ends : measure.

Lemma collect_tasks_ends policy output repeat count fuel t :
  length (pending t) < fuel → (collect_tasks texts policy output repeat count fuel t).1 ≠ Err Diverged.
Proof using Type.
  revert t. induction fuel as [|fuel IH]; intros t Hf; [lia|]. cbn [collect_tasks].
  destruct (join_next_spec policy t) as (r & Hr & _ & Hp). rewrite (bind_Ok_eq _ _ _ _ Hr).
  destruct r as [e|]; [|done]. set (t1 := (join_next policy t).2) in *.
  pose proof (concurrent_created_pending texts output repeat count e t1) as Hc. unfold mbind, M_bind.
  assert (ends (concurrent_created texts output repeat count e)) as He.
  { unfold concurrent_created. destruct e as [index [[latency [s|error]]|]]; [|unfold create_failed; ends_auto|done].
    intros t2. unfold keep_session. pose proof (ends_record output (lit "sample") repeat count index
      (lit "concurrent_create_ms") (as_millis_f64 latency) t2) as H.
    destruct (record _ _ _ _ _ _ _ t2) as [[[]|] t3]; [done|exact H]. }
  specialize (He t1). destruct (concurrent_created _ _ _ _ e t1) as [[[]|e'] t2]; [|exact He].
  apply IH. cbn in Hc. rewrite Hc. rewrite Hp in Hf. cbn in Hf. lia.
Qed.

Definition ends_in {A} (I : tool W stream → Prop) (m : M W stream A) : Prop := ∀ t, I t → (m t).1 ≠ Err Diverged.
Lemma ends_in_any {A} I (m : M W stream A) : ends m → ends_in I m.
Proof using Type. intros H t _. apply H. Qed.
Lemma ends_in_bind {A B} I I' (m : M W stream A) (f : A → M W stream B) :
  ends_in I m → (∀ t, I t → I' (m t).2) → (∀ a, ends_in I' (f a)) → ends_in I (m ≫= f).
Proof using Type.
  intros Hm Hi Hf t HI. specialize (Hm t HI). specialize (Hi t HI). unfold mbind, M_bind.
  destruct (m t) as [[a|e] t1]; [by apply Hf|]. cbn in *. congruence.
Qed.
Lemma ends_in_scope I body : ends_in I body → ends_in I (scope body).
Proof using Type. intros H t HI. rewrite scope_eq. by apply H. Qed.

Lemma ends_sequential_create policy output repeat count index :
  ends (sequential_create texts policy output repeat count index).
Proof using Type.
  unfold sequential_create, create_failed. ends_auto.
  intros t. unfold keep_session. match goal with |- context [mbind ?f ?m t] =>
    assert (ends (mbind f m)) as He by ends_auto; specialize (He t); destruct (mbind f m t) as [[[]|] t1] end; [done|exact He].
Qed.
#[local] Hint Resolve ends_sequential_create : measure.

Lemma ends_drop_sessions : ends drop_sessions.
Proof using Type. intros t. by rewrite drop_sessions_total. Qed.
Lemma ends_drop_streams : ends drop_streams.
Proof using Type. intros t. by rewrite drop_streams_total. Qed.
#[local] Hint Resolve ends_drop_sessions ends_drop_streams : measure.

Lemma ends_sequential_trial policy pid repeat count settle output :
  ends (sequential_trial texts policy pid repeat count settle output).
Proof using Type*. intros t. apply (ends_in_scope (λ _, True)); [|done]. apply ends_in_any. ends_auto. Qed.

Lemma idle_same {A} (m : M W stream A) : respects same_locals m → ∀ t, idle t → idle (m t).2.
Proof using Type. intros H t Hi. unfold idle. by rewrite (H t). Qed.

Lemma ends_concurrent_trial policy pid repeat count connections settle output :
  ends_in idle (concurrent_trial texts policy pid repeat count connections settle output).
Proof using Type*.
  apply ends_in_scope. cbv zeta.
  eapply ends_in_bind; [apply ends_in_any; ends_auto|apply idle_same, locals_read_rss|intros rss_before].
  eapply ends_in_bind; [apply ends_in_any; ends_auto|apply idle_same, locals_world|intros started].
  apply (ends_in_bind _ (λ t, pending t = upto count)).
  { intros t _. by rewrite spawn_all. }
  { intros t Hi. rewrite spawn_all. unfold idle, locals in Hi. injection Hi as _ _ -> ->. unfold pending. cbn. apply app_nil_r. }
  intros _. apply (ends_in_bind _ (λ t, pending t = upto count)); [apply ends_in_any; ends_auto|by unfold reserve; intros t; destruct (mw_can_reserve _)|].
  intros _. apply (ends_in_bind _ (λ _, True)); [|done|].
  { intros t Hp. apply collect_tasks_ends. rewrite Hp. unfold upto. rewrite length_fmap, length_seq. lia. }
  intros _. apply ends_in_any. unfold open_connections, connect_one. ends_auto.
Qed.

Lemma ends_in_for_each {A} (l : list A) f :
  (∀ a, ends_in idle (f a)) → (∀ a, respects keeps_idle (f a)) → ends_in idle (for_each l f).
Proof using Type.
  intros Hf Hi. induction l as [|a l IH]; cbn [for_each]; [done|].
  eapply ends_in_bind; [done|apply Hi|by intros _].
Qed.

Lemma sane_bind {A B} (r : Prelude.result tool_error A) (f : A → Prelude.result tool_error B) :
  r ≠ Err Diverged → (∀ a, f a ≠ Err Diverged) → r ≫= f ≠ Err Diverged.
Proof using Type. intros Hr Hf. destruct r; cbn; [apply Hf|congruence]. Qed.
Lemma sane_ok_or {A} (o : option A) e : e ≠ Diverged → ok_or o e ≠ Err Diverged.
Proof using Type. intros He. destruct o; cbn; congruence. Qed.

Lemma ends_settings env : ends (lift_result (read_settings env)).
Proof using Type.
  intros t. unfold lift_result, read_settings, env_usize, env_counts. cbn [fst].
  repeat lazymatch goal with
  | |- mbind _ _ ≠ _ => apply sane_bind; [|intros ?]
  | |- ok_or _ _ ≠ _ => by apply sane_ok_or
  | |- (if ?b then _ else _) ≠ _ => by destruct b
  | |- (match ?o with Some _ => _ | None => _ end) ≠ _ => destruct o; [|done]
  end.
Qed.

Lemma ends_main env : ends_in idle (main texts env).
Proof using Type*.
  unfold main. eapply ends_in_bind; [apply ends_in_any, ends_settings|by intros t Hi|]. intros s. unfold measure.
  eapply ends_in_bind; [apply ends_in_any, ends_list_active|apply idle_same, locals_list_active|intros active].
  destruct (negb _); [done|].
  eapply ends_in_bind.
  { apply ends_in_any. unfold write_row. ends_auto. }
  { apply idle_same. destruct (st_output s); [apply locals_write_row|apply respects_ret, _]. }
  intros _. cbv zeta. destruct (st_counts s) as [|first rest]; [done|].
  eapply ends_in_bind.
  { apply ends_in_any. unfold warm_up, drop_session. ends_auto. }
  { apply idle_same. apply respects_for_each; [apply _|]. intros i. apply locals_warm_up. }
  intros _. eapply ends_in_bind; [apply ends_in_any, wait_ends|apply idle_same, locals_wait|intros _].
  apply ends_in_for_each; intros count; [apply ends_in_for_each; intros repeat|].
  - eapply ends_in_bind; [apply ends_in_any, ends_sequential_trial|intros t _; apply scope_idle|intros _].
    apply ends_concurrent_trial.
  - apply respects_bind; [apply _|apply idle_scope|intros _; apply idle_scope].
  - apply respects_for_each; [apply _|]. intros repeat.
    apply respects_bind; [apply _|apply idle_scope|intros _; apply idle_scope].
Qed.
End termination.

(** ** The samples of a successful run *)

Section samples.
Context {W stream : Type} `{!MeasureWorld W stream} (texts : client_texts).
Implicit Types t : tool W stream.

Definition row_of (e : effect stream) : option str :=
  match e with Wrote _ row true | Printed row | Complained row => Some row | _ => None end.
(** The columns before the value. *)
Definition row_key (row : str) : list str := take 5 (split "," row).
Definition keys t : list (list str) := row_key <$> omap row_of (tl_log t).

Lemma row_key_text kind repeat count index metric value :
  plain kind → plain metric → row_key (row_text kind repeat count index metric value) =
    [kind; dec repeat; dec count; dec index; metric].
Proof.
  intros [Hk _] [Hm _]. unfold row_key, row_text. rewrite !split_app_sep.
  rewrite (split_no_sep_single _ kind Hk), (split_no_sep_single _ metric Hm).
  rewrite !(λ n, split_no_sep_single _ (dec n) (proj1 (plain_dec_str n))). done.
Qed.

(** From a state whose locals satisfy [J], a successful run of [m] writes the
    rows [K] and leaves locals that satisfy [Q]. *)
Definition writes {A} (J : list Session * list stream * list N * list task_end → Prop) (m : M W stream A)
    (K : list (list str)) (Q : A → list Session * list stream * list N * list task_end → Prop) : Prop :=
  ∀ t a t', J (locals t) → m t = (Ok a, t') → keys t' ≡ₚ keys t ++ K ∧ Q a (locals t').

Lemma writes_bind {A B} J (m : M W stream A) K1 Q1 (f : A → M W stream B) K2 Q2 K :
  writes J m K1 Q1 → (∀ a, writes (Q1 a) (f a) K2 Q2) → K ≡ₚ K1 ++ K2 → writes J (m ≫= f) K Q2.
Proof.
  intros Hm Hf HK t b t' HJ. unfold mbind, M_bind. destruct (m t) as [[a|] t1] eqn:E; [|done]. intros E'.
  destruct (Hm t a t1 HJ E) as [H1 HQ]. destruct (Hf a t1 b t' HQ E') as [H2 HQ']. split; [|done].
  by rewrite H2, H1, HK, app_assoc.
Qed.

Lemma writes_then {A B} J (m : M W stream A) Q1 (f : A → M W stream B) K Q :
  writes J m [] Q1 → (∀ a, writes (Q1 a) (f a) K Q) → writes J (m ≫= f) K Q.
Proof. intros Hm Hf. by apply (writes_bind _ _ [] Q1 _ K). Qed.

Lemma writes_weaken {A} (J J' : _ → Prop) (m : M W stream A) K (Q Q' : _ → _ → Prop) :
  (∀ l, J' l → J l) → (∀ a l, Q a l → Q' a l) → writes J m K Q → writes J' m K Q'.
Proof. intros HJ HQ H t a t' HJ' E. destruct (H t a t' (HJ _ HJ') E). auto. Qed.

Definition no_rows t t' : Prop := keys t' = keys t.
#[local] Instance no_rows_preorder : PreOrder no_rows.
Proof. unfold no_rows. split; [done|]. by intros ? ? ? -> ->. Qed.
Lemma no_rows_log t t' l : tl_log t' = tl_log t ++ l → omap row_of l = [] → no_rows t t'.
Proof. unfold no_rows, keys. intros -> Hl. by rewrite omap_app, Hl, app_nil_r. Qed.
Lemma no_rows_world {A} (f : W → A * W) : respects no_rows (world f).
Proof. intros t. unfold world. by destruct (f _). Qed.
Lemma no_rows_emit e : row_of e = None → respects no_rows (emit e).
Proof. intros He t. apply (no_rows_log _ _ [e]); [done|]. cbn. by rewrite He. Qed.
#[local] Hint Resolve no_rows_world locals_world locals_emit : measure.
#[local] Hint Extern 1 (respects no_rows (emit _)) => by apply no_rows_emit : measure.

Lemma writes_silent {A} J (m : M W stream A) :
  respects no_rows m → respects same_locals m → writes J m [] (λ _, J).
Proof.
  intros Hr Hl t a t' HJ E. specialize (Hr t). specialize (Hl t). rewrite E in Hr, Hl. cbn in Hr, Hl.
  unfold no_rows, same_locals in *. rewrite Hr, Hl, app_nil_r. done.
Qed.

Lemma silent_read_rss pid : respects no_rows (read_rss_kib pid).
Proof. unfold read_rss_kib. respects_auto. Qed.
Lemma silent_list_active : respects no_rows list_active.
Proof. unfold list_active. respects_auto. Qed.
#[local] Hint Resolve silent_list_active : measure.
Lemma silent_wait : respects no_rows wait_until_empty.
Proof.
  unfold wait_until_empty. respects_auto. generalize WAIT_FUEL. intros n. induction n; cbn [wait_loop]; respects_auto.
Qed.
Lemma silent_create policy : respects no_rows (create policy).
Proof. unfold create. respects_auto. Qed.
Lemma silent_drop_session s : respects no_rows (drop_session s).
Proof. unfold drop_session. respects_auto. Qed.
#[local] Hint Resolve silent_create silent_drop_session : measure.
Lemma silent_drop_sessions : respects no_rows drop_sessions.
Proof. unfold drop_sessions. respects_auto. Qed.
Lemma silent_drop_streams : respects no_rows drop_streams.
Proof. unfold drop_streams, drop_stream. respects_auto. Qed.
Lemma silent_drop_tasks : respects no_rows drop_tasks.
Proof. unfold drop_tasks, drop_task_end. respects_auto. Qed.
#[local] Hint Resolve silent_read_rss silent_wait silent_drop_sessions silent_drop_streams silent_drop_tasks : measure.
#[local] Hint Resolve locals_read_rss locals_list_active locals_wait locals_create locals_drop_session : measure.

Definition sample_key (repeat count index : N) (metric : str) : list str :=
  [lit "sample"; dec repeat; dec count; dec index; metric].

Lemma writes_record J output repeat count index metric value :
  plain metric →
  writes J (record output (lit "sample") repeat count index metric value) [sample_key repeat count index metric] (λ _, J).
Proof.
  intros Hm t [] t' HJ E. pose proof (locals_record output (lit "sample") repeat count index metric value t) as Hl.
  rewrite E in Hl. cbn in Hl. unfold same_locals in Hl. rewrite Hl. split; [|done].
  assert (tl_log t' = tl_log t ++ [match output with Some path => Wrote path (row_text (lit "sample") repeat count index metric (fixed 6 value)) true
    | None => Printed (row_text (lit "sample") repeat count index metric (fixed 6 value)) end]) as Hlog.
  { revert E. unfold record, write_row, world, mbind, M_bind. destruct output; cbn [emit tl_world].
    - destruct (mw_write_file _ _ _ _) as [[[]|] w]; cbn; by intros [= <-].
    - destruct (mw_print _ _) as [[] w]; cbn; by intros [= <-]. }
  unfold keys. rewrite Hlog, omap_app, fmap_app. f_equiv.
  assert (plain (lit "sample")) as Hs by (apply (bool_decide_unpack _); by vm_compute).
  destruct output; cbn [omap list_omap row_of fmap list_fmap]; by rewrite row_key_text by done.
Qed.

(** What follows a computation that writes nothing, or one sample. *)
Lemma writes_after {A B} J (m : M W stream A) (f : A → M W stream B) K Q :
  respects no_rows m → respects same_locals m → (∀ a, writes J (f a) K Q) → writes J (m ≫= f) K Q.
Proof. intros Hr Hl Hf. by eapply writes_bind; [by apply writes_silent|exact Hf|]. Qed.
Lemma writes_after_any {A B} J (m : M W stream A) (f : A → M W stream B) K Q :
  respects no_rows m → (∀ a, writes (λ _, True) (f a) K Q) → writes J (m ≫= f) K Q.
Proof.
  intros Hr Hf. eapply (writes_bind _ _ [] (λ _ _, True)); [|done|done]. intros t a t' _ E. specialize (Hr t).
  rewrite E in Hr. cbn in Hr. unfold no_rows in Hr. by rewrite Hr, app_nil_r.
Qed.
Lemma writes_sample {B} J output repeat count index metric value (f : unit → M W stream B) K Q :
  plain metric → writes J (f ()) K Q →
  writes J (record output (lit "sample") repeat count index metric value ≫= f)
    (sample_key repeat count index metric :: K) Q.
Proof. intros Hm Hf. by eapply writes_bind; [by apply writes_record|intros []; exact Hf|]. Qed.

Lemma writes_for_each {A} (J : nat → _ → Prop) (f : A → M W stream unit) (k : A → list (list str)) l n :
  (∀ a n, writes (J n) (f a) (k a) (λ _, J (S n))) → writes (J n) (for_each l f) (l ≫= k) (λ _, J (n + length l)%nat).
Proof.
  intros Hf. revert n. induction l as [|a l IH]; intros n; cbn [for_each].
  - rewrite Nat.add_0_r. intros t [] t' HJ [= <-]. by rewrite app_nil_r.
  - cbn [length]. rewrite <-Nat.add_succ_comm. eapply writes_bind; [apply Hf|intros []; apply IH|done].
Qed.

Lemma writes_scope J body K Q : writes J body K Q → writes J (scope body) K (λ _ l, l = ([], [], [], [])).
Proof.
  intros Hb t [] t' HJ E. pose proof (scope_idle body t) as Hi. rewrite E in Hi. split; [|done].
  rewrite scope_eq in E. injection E as Hr <-. destruct (body t) as [r t1] eqn:Eb. cbn in Hr. subst r. cbn [snd].
  destruct (Hb t () t1 HJ Eb) as [Hk _]. rewrite <-Hk. unfold keys.
  pose proof (silent_drop_tasks (drop_sessions (drop_streams t1).2).2) as H1.
  pose proof (silent_drop_sessions (drop_streams t1).2) as H2. pose proof (silent_drop_streams t1) as H3.
  unfold no_rows, keys in *. by rewrite H1, H2, H3.
Qed.

Lemma keep_session_inv s body t t' :
  keep_session s body t = (Ok (), t') → ∃ t1, body t = (Ok (), t1) ∧ keys t' = keys t1.
Proof. unfold keep_session. destruct (body t) as [[[]|] t1]; [|done]. intros [= <-]. by exists t1. Qed.

#[local] Hint Extern 1 (plain (lit _)) => apply (bool_decide_unpack _); vm_compute; exact I : measure.

Lemma writes_keep_session J s body K Q : writes J body K Q → writes J (keep_session s body) K (λ _ _, True).
Proof. intros Hb t [] t' HJ (t1 & E & ->)%keep_session_inv. split; [|done]. by eapply Hb. Qed.

Ltac writes_auto :=
  cbv zeta; repeat lazymatch goal with
  | |- writes _ (record _ _ _ _ _ _ _ ≫= _) (_ :: _) _ => apply writes_sample; [by eauto with measure|]
  | |- writes _ (now ≫= _) _ _ => apply writes_after; [apply no_rows_world|apply locals_world|intros ?]
  | |- writes _ (elapsed _ ≫= _) _ _ =>
      apply writes_after; [unfold elapsed, now; respects_auto|unfold elapsed, now; respects_auto|intros ?]
  | |- writes _ (sleep_ms _ ≫= _) _ _ => apply writes_after; [apply no_rows_world|apply locals_world|intros ?]
  | |- writes _ (reserve _ ≫= _) _ _ => apply writes_after; [unfold reserve; respects_auto|unfold reserve; respects_auto|intros ?]
  | |- writes _ (usize_op _ ≫= _) _ _ => apply writes_after; [unfold usize_op; respects_auto|unfold usize_op; respects_auto|intros ?]
  | |- writes _ (read_rss_kib _ ≫= _) _ _ => apply writes_after; [apply silent_read_rss|apply locals_read_rss|intros ?]
  | |- writes _ (wait_until_empty ≫= _) _ _ => apply writes_after; [apply silent_wait|apply locals_wait|intros ?]
  | |- writes _ (drop_sessions ≫= _) _ _ => apply writes_after_any; [apply silent_drop_sessions|intros ?]
  | |- writes _ (drop_streams ≫= _) _ _ => apply writes_after_any; [apply silent_drop_streams|intros ?]
  end.

Lemma writes_sequential_create J policy output repeat count index :
  writes J (sequential_create texts policy output repeat count index)
    [sample_key repeat count index (lit "sequential_create_ms")] (λ _ _, True).
Proof.
  unfold sequential_create. writes_auto. apply writes_after; [apply silent_create|apply locals_create|]. intros [s|e].
  - eapply writes_keep_session. writes_auto. apply writes_record. eauto with measure.
  - intros t u t' _. unfold create_failed, mbind, M_bind. by destruct (record_failure _ _ _ _ _ _ _) as [[]].
Qed.

Definition sequential_keys (repeat count : N) : list (list str) :=
  (upto count ≫= λ i, [sample_key repeat count i (lit "sequential_create_ms")])
  ++ (sample_key repeat count 0 ∘ lit <$>
      ["sequential_create_wall_ms"; "sequential_idle_rss_before_kib"; "sequential_idle_rss_after_kib";
       "sequential_idle_rss_delta_per_session_kib"; "sequential_teardown_wall_ms"]%string).

Lemma writes_sequential_trial J policy pid repeat count settle output :
  writes J (sequential_trial texts policy pid repeat count settle output) (sequential_keys repeat count)
    (λ _ l, l = ([], [], [], [])).
Proof.
  apply (writes_scope _ _ _ (λ _ _, True)). unfold sequential_keys. writes_auto. eapply writes_bind; [| |reflexivity].
  - eapply (writes_weaken (λ _, True)); [done..|]. apply (writes_for_each (λ _ _, True) _ _ _ 0). intros i _.
    apply writes_sequential_create.
  - intros []. unfold compose. cbn [fmap list_fmap]. writes_auto. apply writes_record. eauto with measure.
Qed.

Lemma silent_finish_tasks policy n : respects no_rows (finish_tasks policy n).
Proof. induction n; cbn [finish_tasks]; unfold create_task; respects_auto. Qed.
#[local] Hint Resolve silent_finish_tasks : measure.
Lemma silent_join_next policy : respects no_rows (join_next policy).
Proof. unfold join_next, take_finished. respects_auto. Qed.

Definition created_key (repeat count index : N) : list str :=
  sample_key repeat count index (lit "concurrent_create_ms").

Lemma concurrent_created_spec output repeat count e t t' :
  concurrent_created texts output repeat count e t = (Ok (), t') →
  keys t' ≡ₚ keys t ++ [created_key repeat count e.1] ∧ pending t' = pending t ∧
  length (tl_sessions t') = S (length (tl_sessions t)) ∧ tl_streams t' = tl_streams t.
Proof.
  destruct e as [index [[latency [s|error]]|]]; cbn [concurrent_created]; intros E; [| |done].
  - destruct (keep_session_pending s _ t (locals_record output (lit "sample") repeat count index
      (lit "concurrent_create_ms") (as_millis_f64 latency))) as (Hp & Hc & Hs).
    rewrite E in Hp, Hc, Hs. cbn [fst snd] in *. rewrite Hs by done. rewrite length_app. cbn.
    split_and!; [|done|lia|done]. apply keep_session_inv in E as (t1 & E & ->).
    destruct (writes_record (λ _, True) output repeat count index (lit "concurrent_create_ms") (as_millis_f64 latency)
      ltac:(eauto with measure) t () t1 I E) as [Hk _]. exact Hk.
  - revert E. unfold create_failed, mbind, M_bind. by destruct (record_failure _ _ _ _ _ _ _) as [[]].
Qed.

Lemma collect_tasks_spec policy output repeat count fuel t t' :
  collect_tasks texts policy output repeat count fuel t = (Ok (), t') →
  keys t' ≡ₚ keys t ++ (created_key repeat count <$> pending t) ∧ pending t' = [] ∧
  length (tl_sessions t') = length (tl_sessions t) + length (pending t) ∧ tl_streams t' = tl_streams t.
Proof.
  revert t. induction fuel as [|fuel IH]; intros t; [done|]. cbn [collect_tasks].
  destruct (join_next_spec policy t) as (r & Hr & Hv & Hp). rewrite (bind_Ok_eq _ _ _ _ Hr).
  pose proof (silent_join_next policy t) as Hn. set (t1 := (join_next policy t).2) in *. unfold no_rows in Hn.
  unfold vars in Hv. injection Hv as Hs Hc. destruct r as [e|].
  - unfold mbind, M_bind. destruct (concurrent_created _ _ _ _ e t1) as [[[]|] t2] eqn:E; [|done].
    apply concurrent_created_spec in E as (K1 & P1 & S1 & C1). intros (K2 & P2 & S2 & C2)%IH.
    rewrite K2, K1, Hn, P1, Hp, S2, S1, Hs, C2, C1, Hc, P1. cbn. split_and!; [|done|lia|done].
    by rewrite <-app_assoc.
  - destruct Hp as [Hp Hp']. intros [= <-]. rewrite Hn, Hp, Hp', Hs, Hc. cbn. rewrite app_nil_r. split_and!; [done..|lia|done].
Qed.

(** Connections: each success adds one stream. *)
Definition streams_are (sessions : list Session) (n : nat)
    (l : list Session * list stream * list N * list task_end) : Prop :=
  l.1.1.1 = sessions ∧ length l.1.1.2 = n.

Lemma writes_connect_one sessions n output repeat count connections i s j :
  writes (streams_are sessions n) (connect_one output repeat count connections i s j) [] (λ _, streams_are sessions (S n)).
Proof.
  unfold connect_one. apply writes_after; [apply no_rows_world|apply locals_world|]. intros [c|error].
  - intros t [] t' [Hs Hn] [= <-]. cbn in Hs, Hn. rewrite app_nil_r. split.
    + unfold keys. cbn. rewrite omap_app. cbn. by rewrite app_nil_r.
    + split; cbn; [done|]. rewrite length_app. cbn. lia.
  - assert (∀ index, writes (streams_are sessions n) (record_failure output repeat count index
      (lit "active_unix_connection") error ≫= λ _, fail (IoSaid error)) [] (λ _ : unit, streams_are sessions (S n))) as Hf.
    { intros index t u t' _. unfold mbind, M_bind. by destruct (record_failure _ _ _ _ _ _ _) as [[]]. }
    writes_auto. apply Hf.
Qed.

Lemma writes_gets {A B} J (g : tool W stream → A) (f : A → M W stream B) K Q (h : _ → A) :
  (∀ t, g t = h (locals t)) → (∀ l, J l → writes (eq l) (f (h l)) K Q) → writes J (gets g ≫= f) K Q.
Proof. intros Hg Hf t b t' HJ E. eapply (Hf (locals t) HJ t b t' eq_refl). by rewrite <-Hg. Qed.

Lemma writes_exists {A X} (P : X → Prop) (J : X → _ → Prop) (m : M W stream A) K Q :
  (∀ x, P x → writes (J x) m K Q) → writes (λ l, ∃ x, P x ∧ J x l) m K Q.
Proof. intros H t a t' (x & Hx & HJ). by eapply H. Qed.

Lemma writes_open_connections sessions output repeat count connections :
  writes (streams_are sessions 0) (open_connections output repeat count connections) []
    (λ _, streams_are sessions (length sessions * N.to_nat connections)).
Proof.
  unfold open_connections. apply (writes_gets _ _ _ _ _ (λ l, l.1.1.1)); [done|]. intros l HJ.
  destruct (HJ) as [-> _]. eapply (writes_weaken (streams_are sessions (0 * N.to_nat connections))
    _ _ _ (λ _, streams_are sessions ((0 + length (imap pair sessions)) * N.to_nat connections))).
  { by intros ? <-. }
  { intros _ l'. by rewrite length_imap. }
  assert (imap pair sessions ≫= (λ _, []) = ([] : list (list str))) as <- by (induction (imap pair sessions); done).
  apply (writes_for_each (λ n, streams_are sessions (n * N.to_nat connections))). intros [i s] n. cbn [fst snd].
  assert (S n * N.to_nat connections = n * N.to_nat connections + length (upto connections)) as ->
    by (unfold upto; rewrite length_fmap, length_seq; lia).
  assert (upto connections ≫= (λ _, []) = ([] : list (list str))) as <- by (induction (upto connections); done).
  apply (writes_for_each (streams_are sessions)). intros j n'. apply writes_connect_one.
Qed.

Definition concurrent_keys (repeat count connections : N) : list (list str) :=
  (created_key repeat count <$> upto count)
  ++ (sample_key repeat count 0 ∘ lit <$>
      ["concurrent_create_wall_ms"; "concurrent_idle_rss_before_kib"; "concurrent_idle_rss_after_kib";
       "concurrent_idle_session_rss_delta_per_session_kib"]%string)
  ++ (sample_key repeat count (count * connections) ∘ lit <$>
      ["active_idle_connections"; "active_connection_rss_delta_kib";
       "active_connection_rss_delta_per_connection_kib"]%string)
  ++ (sample_key repeat count 0 ∘ lit <$>
      ["concurrent_teardown_wall_ms"; "post_teardown_rss_delta_from_baseline_kib";
       "post_connection_close_rss_delta_kib"]%string).

Lemma writes_collect_tasks policy output repeat count fuel :
  writes (λ l, l = ([], [], upto count, [])) (collect_tasks texts policy output repeat count fuel)
    (created_key repeat count <$> upto count) (λ _ l, ∃ ss, length ss = N.to_nat count ∧ streams_are ss 0 l).
Proof.
  intros t [] t' Hl (HK & _ & HS & HC)%collect_tasks_spec. unfold locals in Hl. injection Hl as L1 L2 L3 L4.
  unfold pending in HK, HS. rewrite L3, L4 in *. cbn in HK, HS. rewrite app_nil_r in *. split; [done|].
  exists (tl_sessions t'). rewrite L1 in HS. cbn in HS. unfold upto in HS. rewrite length_fmap, length_seq in HS.
  split; [done|]. unfold streams_are, locals. cbn. by rewrite HC, L2.
Qed.

Lemma writes_concurrent_trial policy pid repeat count connections settle output :
  writes (λ l, l = ([], [], [], [])) (concurrent_trial texts policy pid repeat count connections settle output)
    (concurrent_keys repeat count connections) (λ _ l, l = ([], [], [], [])).
Proof.
  apply (writes_scope _ _ _ (λ _ _, True)). unfold concurrent_keys. writes_auto.
  apply (writes_then _ _ (λ _ l, l = ([], [], upto count, []))).
  { intros t [] t' HJ. rewrite spawn_all. intros [= <-]. unfold locals in *. cbn. injection HJ as -> -> -> ->.
    unfold keys. cbn. by rewrite app_nil_r. }
  intros _. writes_auto. eapply writes_bind; [apply writes_collect_tasks| |reflexivity]. intros [].
  unfold compose. cbn [fmap list_fmap app]. writes_auto.
  apply writes_exists. intros ss Hlen. eapply writes_then; [apply writes_open_connections|].
  intros []. writes_auto. apply (writes_gets _ _ _ _ _ (λ l, l.1.1.2)); [done|]. intros l [_ Hst].
  assert (N.of_nat (length l.1.1.2) = (count * connections)%N) as Ha by (rewrite Hst, Hlen; lia).
  cbv zeta. rewrite Ha. writes_auto. apply writes_record. eauto with measure.
Qed.

(** What the run is to measure: each count, each repetition, both trials. *)
Definition expected_keys (repeats : N) (connections : N) (counts : list N) : list (list str) :=
  counts ≫= λ count, upto repeats ≫= λ repeat, sequential_keys repeat count ++ concurrent_keys repeat count connections.

Lemma writes_loop {A} J (f : A → M W stream unit) (k : A → list (list str)) l :
  (∀ a, writes J (f a) (k a) (λ _, J)) → writes J (for_each l f) (l ≫= k) (λ _, J).
Proof. intros Hf. apply (writes_for_each (λ _, J) f k l 0). intros a _. apply Hf. Qed.

Lemma writes_nothing {A} J (f : A → M W stream unit) l :
  (∀ a, respects no_rows (f a)) → (∀ a, respects same_locals (f a)) → writes J (for_each l f) [] (λ _, J).
Proof. intros. apply writes_silent; by apply respects_for_each; [apply _|]. Qed.

Lemma no_rows_header path : respects no_rows (write_row path HEADER false).
Proof. unfold write_row. respects_auto. Qed.

Lemma measure_writes s :
  writes (λ l, l = ([], [], [], [])) (measure texts s)
    (expected_keys (st_repeats s) (st_connections_per_session s) (st_counts s)) (λ _ l, l = ([], [], [], [])).
Proof.
  unfold measure. apply writes_after; [apply silent_list_active|apply locals_list_active|]. intros active.
  destruct (negb _); [done|]. apply writes_after.
  { destruct (st_output s); [apply no_rows_header|apply respects_ret, _]. }
  { destruct (st_output s); [apply locals_write_row|apply respects_ret, _]. }
  intros _. cbv zeta. destruct (st_counts s) as [|first rest] eqn:Hc; [done|]. rewrite <-Hc. eapply writes_then.
  { apply writes_nothing; intros i; [unfold warm_up; respects_auto|apply locals_warm_up]. }
  intros []. writes_auto. apply writes_loop. intros count. apply writes_loop. intros repeat.
  eapply writes_bind; [apply writes_sequential_trial|intros []; apply writes_concurrent_trial|done].
Qed.
End samples.

(** ** A daemon to measure

    It answers every create with an ephemeral session, lists the sessions whose
    handle is held, and its clock moves a microsecond with every step. *)

Record demo := mkDemo { dm_time : N; dm_next : N; dm_live : list str }.
Definition tick (d : demo) : demo := mkDemo (dm_time d + 1000) (dm_next d) (dm_live d).

Definition demo_exchange (r : Request) (d : demo) : Prelude.result ClientError json * demo :=
  match r with
  | RqCreate _ =>
      let id := lit "session-" ++ dec (dm_next d) in
      (Ok (JObject [(lit "id", JString id); (lit "socket", JString (lit "/run/" ++ id)); (lit "persistent", JBool false)]),
       mkDemo (dm_time d + 1000) (dm_next d + 1) (id :: dm_live d))
  | RqList =>
      (Ok (JObject [(lit "sessions", JArray ((λ id, JObject [(lit "id", JString id); (lit "socket", JString id);
         (lit "persistent", JBool false); (lit "state", JString (lit "running"))]) <$> dm_live d))]), tick d)
  | _ => (Err Transport, tick d)
  end.

#[export] Instance demo_world : MeasureWorld demo N := {|
  mw_exchange := demo_exchange;
  mw_drop_session s d := mkDemo (dm_time d) (dm_next d) (filter (λ id, id ≠ se_id s) (dm_live d));
  mw_abort_create _ d := d;
  mw_connect_unix _ d := (Ok (dm_next d), mkDemo (dm_time d) (dm_next d + 1) (dm_live d));
  mw_drop_stream _ d := d;
  mw_now d := (dm_time d, tick d);
  mw_sleep n d := mkDemo (dm_time d + n) (dm_next d) (dm_live d);
  mw_read_to_string _ d := (Some (lit "Name: baffle" ++ ["010"] ++ lit "VmRSS:	 4096 kB" ++ ["010"]), d);
  mw_write_file _ _ _ d := (Ok (), d);
  mw_print _ d := (true, d);
  mw_eprint _ d := (true, d);
  mw_task_panics d := (false, d);
  mw_wakes d := (1, d);
  mw_pick n d := (n - 1, d);
  mw_can_reserve _ := true;
  mw_overflow_checks := true;
|}.

#[export] Instance demo_clock : MeasureClock demo N.
Proof.
  refine {| mc_clock := dm_time |}; try (intros; cbn; lia).
  intros [] w; cbn; lia.
Defined.

Definition demo_env (name : str) : option str :=
  if str_eqb name (lit "BAFFLE_CONTROL_SOCKET") then Some (lit "/run/baffle/control.sock")
  else if str_eqb name (lit "BAFFLE_DAEMON_PID") then Some (lit "42")
  else if str_eqb name (lit "BAFFLE_MEASURE_REPEATS") then Some (lit "2")
  else if str_eqb name (lit "BAFFLE_MEASURE_COUNTS") then Some (lit "1, 3")
  else if str_eqb name (lit "BAFFLE_MEASURE_CONNECTIONS_PER_SESSION") then Some (lit "2")
  else None.
Definition demo_texts : client_texts := mkClientTexts (lit "closed") (lit "bad") (lit "1").
Definition demo_start : tool demo N := mkTool (mkDemo 0 0 []) [] [] [] [] [].

Example demo_runs :
  let '(r, t) := main demo_texts demo_env demo_start in
  r = Ok () ∧ length (omap row_of (tl_log t)) = 2 * (2 * 1 + 15 + (2 * 3 + 15)) ∧
  omap row_of (tl_log t) !! 0 = Some (lit "sample,0,1,0,sequential_create_ms,0.002000" ++ ["010"]).
Proof. by vm_compute. Qed.

(** ** The run as a whole *)

(** C37: with a clock that does not go back and sleeps that last, the tool
    always ends, provided the daemon answers each request or its connection
    ends, whatever it answers and however the tool's tasks are scheduled (the
    wait for the daemon is bounded by its three seconds). On
    every exit, errors and panics included, each session handle and each
    connection it acquired has been released exactly once and no task is left;
    and after a successful run the daemon's last listing was empty and no
    session has been opened since. *)
Theorem measure_ends_clean {W stream} `{!MeasureWorld W stream, !MeasureClock W stream} texts env
    (t t' : tool W stream) r :
  idle t → tl_log t = [] → main texts env t = (r, t') →
  r ≠ Err Diverged ∧ idle t' ∧ omap acquired (tl_log t') ≡ₚ omap released (tl_log t') ∧ (r = Ok () → settled t').
Proof.
  intros Hi Hl E. assert (owes [] t) as Ho.
  { unfold owes, held. rewrite Hl. unfold idle, locals in Hi. by injection Hi as -> -> _ ->. }
  apply (debt_main texts env t) in Ho. pose proof (idle_main texts env t Hi) as Hi'.
  pose proof (ends_main texts env t Hi) as He. rewrite E in Ho, Hi', He. cbn [fst snd] in *. split_and!; [done|done| |].
  - revert Ho. unfold owes, held. unfold idle, locals in Hi'. injection Hi' as -> -> _ ->. cbn. by rewrite app_nil_r.
  - intros ->. by eapply settles_main.
Qed.

(** Two repetitions of one and three sessions. *)
Lemma measure_ends_clean_witness :
  let t' := (main demo_texts demo_env demo_start).2 in
  idle t' ∧ omap acquired (tl_log t') ≡ₚ omap released (tl_log t') ∧ length (omap acquired (tl_log t')) ≠ 0.
Proof.
  destruct (measure_ends_clean demo_texts demo_env demo_start _ _ eq_refl eq_refl (surjective_pairing _)) as (_ & H1 & H2 & _).
  split_and!; [exact H1|exact H2|]. by vm_compute.
Defined.

(** C38: every row the tool writes has the type of its table: one line of six
    columns, whatever text an error carries, and the file is truncated only to
    write the header. A successful run has measured exactly what its settings
    ask for: for every count and repetition each sample once, with the number
    of connections it opened as the index of the connection samples, in the
    order in which the concurrent creations happen to finish. *)
Theorem measure_table {W stream} `{!MeasureWorld W stream} texts env (t t' : tool W stream) r :
  idle t → tl_log t = [] → main texts env t = (r, t') →
  Forall effect_ok (tl_log t') ∧
  (r = Ok () → ∃ s, read_settings env = Ok s ∧
    keys t' ≡ₚ expected_keys (st_repeats s) (st_connections_per_session s) (st_counts s)).
Proof.
  intros Hi Hl E. split.
  - pose proof (logs_main texts env t) as (l & El & Hok). rewrite E, Hl in El. cbn in El. by rewrite El.
  - intros ->. unfold main, mbind, M_bind, lift_result in E. destruct (read_settings env) as [s|]; [|done].
    exists s. split; [done|]. destruct (measure_writes texts s t () t' Hi E) as [Hk _]. rewrite Hk.
    unfold keys. by rewrite Hl.
Qed.

(** The same run, by its number of rows. *)
Lemma measure_table_witness :
  let t' := (main demo_texts demo_env demo_start).2 in
  Forall effect_ok (tl_log t') ∧ keys t' ≡ₚ expected_keys 2 2 [1; 3]%N.
Proof.
  destruct (measure_table demo_texts demo_env demo_start _ _ eq_refl eq_refl (surjective_pairing _)) as [H1 H2].
  split; [exact H1|]. destruct H2 as (s & Hs & Hk); [by vm_compute|].
  assert (Ok s = Ok (mkSettings 42 2 [1; 3]%N 200 2 (lit "example.com") None)) as [= ->] by (rewrite <-Hs; by vm_compute).
  exact Hk.
Defined.
