(* ===== verification/RuntimeBench.v ===== *)
(** The runtime benchmark (bench/runtime.rs): its settings, the sessions it
    runs, its HTTP/1.1 client and origin, the statistics and the rows.

    TLS, HTTP/2 and the tokio runtime are third-party code ([BenchTrials]); a
    connection is the bytes that arrive and whether it then ends or breaks. The
    allocator's answer to a large buffer is the environment. *)

From Stdlib Require Import SpecFloat.
From S2P Require Import Prelude RustStr RustPath BTree PolicyTypes UrlPath DnsName Identifiers SessionDoc SessionPolicy AsyncIo ConnectRequest.
From S2P Require Import Numerals MeasureSessions.
From stdpp Require Import options.
Local Open Scope char_scope.

(** ** Settings *)

Definition TRIALS : N := 5.
Definition WARMUP_REQUESTS : N := 16.
Definition MEASURED_REQUESTS : N := 80.
Definition CHARACTERIZATION_CONCURRENCY : list N := [1; 4; 16]%N.
Definition REQUEST_BODY_BYTES : N := 4096.
Definition RESPONSE_BODY_BYTES : N := 32768.
Definition MAX_CHARACTERIZATION_BODY_BYTES : N := 4 * 1024 * 1024.

Inductive io_kind := InvalidData | UnexpectedEof | ConnectionBroken | OutOfMemory.

(** A message of the program, one that ends with the debug form of a status
    line, an error of parsing, of the connection, or of the allocator. *)
Inductive bench_error :=
| BenchSaid (message : str)
| BenchStatus (message status : str)
| BenchParse
| BenchIo (kind : io_kind)
| BenchAborted.

Section settings.
Context (env : str → option str).

Fixpoint repeats_earlier (seen levels : list N) : bool :=
  match levels with
  | [] => false
  | level :: rest => bool_decide (level ∈ seen) || repeats_earlier (seen ++ [level]) rest
  end.

Definition benchmark_concurrency_levels : Prelude.result bench_error (list N) :=
  match env (lit "BAFFLE_BENCH_CONCURRENCY") with
  | None => Ok CHARACTERIZATION_CONCURRENCY
  | Some value =>
      levels ← ok_or (mapM parse_usize (split "," (to_string_lossy value))) BenchParse;
      if bool_decide (levels = [])
         || existsb (λ level, negb (bool_decide (level ∈ CHARACTERIZATION_CONCURRENCY))) levels
         || repeats_earlier [] levels
      then Err (BenchSaid (lit "benchmark concurrency must use 1, 4, and/or 16")) else Ok levels
  end.

Definition benchmark_body_bytes (variable : str) (default_value : N) : Prelude.result bench_error N :=
  match env variable with
  | None => Ok default_value
  | Some value =>
      value ← ok_or (parse_usize (to_string_lossy value)) BenchParse;
      if (value =? 0)%N || (MAX_CHARACTERIZATION_BODY_BYTES <? value)%N
      then Err (BenchSaid (variable ++ lit " must be between 1 and " ++ dec MAX_CHARACTERIZATION_BODY_BYTES ++ lit " bytes"))
      else Ok value
  end.
End settings.

(** ** Sessions

    The documents of the two create requests, and the policies they denote. *)

Definition intercept_document (port : N) : RawSessionConfig :=
  mkRawSessionConfig (Some 2%Z) true None None
    (Some (RulesNamed {[ lit "localhost" :=
      mkRawNamedRule (Some Intercept) [port] (Some [lit "/allowed"])
        (Some [mkRawHeaderInjection (lit "X-Bench-Token") (lit "benchmark-token") Raw None]) ]})) None [].

Definition tunnel_document (port : N) : RawSessionConfig :=
  mkRawSessionConfig (Some 2%Z) true None None
    (Some (RulesNamed {[ lit "localhost" := mkRawNamedRule (Some Tunnel) [port] None None ]})) None [].

Definition intercept_session `{UrlHost} (port : N) := validate_session_document (intercept_document port).
Definition tunnel_session `{UrlHost} (port : N) := validate_session_document (tunnel_document port).

Definition bench_authority (port : N) : str := lit "localhost:" ++ dec port.

(** ** Reading a connection *)

(** What arrives, and whether the connection then breaks or ends. *)
Record input := mkInput { in_bytes : str; in_breaks : bool }.

(** [read_line]: up to and with the next LF, or the rest at the end. *)
Definition read_line (i : input) : Prelude.result io_kind (str * input) :=
  match split_once "010" (in_bytes i) with
  | Some (line, rest) =>
      let line := line ++ ["010"] in
      if from_utf8 line then Ok (line, mkInput rest (in_breaks i)) else Err InvalidData
  | None =>
      if in_breaks i then Err ConnectionBroken
      else if from_utf8 (in_bytes i) then Ok (in_bytes i, mkInput [] false) else Err InvalidData
  end.

Definition read_exact (n : N) (i : input) : Prelude.result io_kind (str * input) :=
  if (n <=? N.of_nat (length (in_bytes i)))%N
  then Ok (take (N.to_nat n) (in_bytes i), mkInput (drop (N.to_nat n) (in_bytes i)) (in_breaks i))
  else Err (if in_breaks i then ConnectionBroken else UnexpectedEof).

Definition CRLF : str := ["013"; "010"].

(** The header loop: each line but the blank one changes [acc]. *)
Fixpoint header_loop {A} (fuel : nat) (step : A → str → A) (acc : A) (i : input)
    : option (Prelude.result io_kind (A * input)) :=
  match fuel with
  | 0 => None
  | S fuel =>
      match read_line i with
      | Err e => Some (Err e)
      | Ok (header, i) =>
          if bool_decide (header = []) || str_eqb header CRLF then Some (Ok (acc, i))
          else header_loop fuel step (step acc header) i
      end
  end.

Section connection.
Context (can_allocate : N → bool).

(** [vec![0; n]] and [read_exact] into it. *)
Definition read_body (n : N) (i : input) : Prelude.result io_kind input :=
  if can_allocate n then '(_, i) ← read_exact n i; Ok i else Err OutOfMemory.

(** ** The origin *)

Definition TOKEN : str := lit "fixed-benchmark-credential".

(** The content length and whether the credential was seen. *)
Definition origin_header (acc : N * bool) (header : str) : N * bool :=
  match split_once ":" header with
  | None => acc
  | Some (name, value) =>
      let acc := if eq_ignore_ascii_case name (lit "content-length")
                 then (default 0%N (parse_usize (trim_unicode value)), acc.2) else acc in
      if eq_ignore_ascii_case name (lit "x-bench-token") && str_eqb (trim_unicode value) TOKEN
      then (acc.1, true) else acc
  end.

Record origin := mkOrigin { og_requests : N; og_credentials : N; og_writer : writer }.

Definition origin_response (response_body_bytes : N) : str :=
  lit "HTTP/1.1 200 OK" ++ CRLF ++ lit "Content-Length: " ++ dec response_body_bytes ++ CRLF
  ++ lit "Connection: keep-alive" ++ CRLF ++ CRLF ++ replicate (N.to_nat response_body_bytes) "R".

(** [serve_http1] after the TLS handshake; the counters are shared atomics,
    so those of other connections are not part of the result. *)
Fixpoint serve_http1 (fuel : nat) (response_body_bytes : N) (o : origin) (i : input)
    : option (Prelude.result io_kind unit * origin) :=
  match fuel with
  | 0 => None
  | S fuel =>
      match read_line i with
      | Err e => Some (Err e, o)
      | Ok ([], _) => Some (Ok (), o)
      | Ok (_, i) =>
          match header_loop (S (length (in_bytes i))) origin_header (0%N, false) i with
          | None => None
          | Some (Err e) => Some (Err e, o)
          | Some (Ok ((content_length, authorized), i)) =>
              match read_body content_length i with
              | Err e => Some (Err e, o)
              | Ok i =>
                  let '(sent, w) := write_all (origin_response response_body_bytes) (og_writer o) in
                  let o := mkOrigin (og_requests o + 1) (og_credentials o + (if authorized then 1 else 0)) w in
                  if (sent : bool) then serve_http1 fuel response_body_bytes o i else Some (Err ConnectionBroken, o)
              end
          end
      end
  end.

(** ** The client *)

Definition http1_request (authority : str) (request_body_bytes : N) : str :=
  lit "POST /allowed HTTP/1.1" ++ CRLF ++ lit "Host: " ++ authority ++ CRLF
  ++ lit "Content-Length: " ++ dec request_body_bytes ++ CRLF
  ++ lit "Connection: keep-alive" ++ CRLF ++ CRLF ++ replicate (N.to_nat request_body_bytes) "Q".

Definition client_header (response_length : N) (header : str) : N :=
  match split_once ":" header with
  | Some (name, value) =>
      if eq_ignore_ascii_case name (lit "content-length") then default 0%N (parse_usize (trim_unicode value))
      else response_length
  | None => response_length
  end.

(** A buffer that cannot be allocated ends the program. *)
Definition body_error (k : io_kind) : bench_error :=
  match k with OutOfMemory => BenchAborted | k => BenchIo k end.

(** Reading the answer of [send_http1_request]. *)
Definition read_response (i : input) : option (Prelude.result bench_error input) :=
  match read_line i with
  | Err k => Some (Err (BenchIo k))
  | Ok (status, i) =>
      if negb (starts_with (lit "HTTP/1.1 200") status)
      then Some (Err (BenchStatus (lit "HTTP/1.1 request failed: ") status))
      else
        match header_loop (S (length (in_bytes i))) client_header 0%N i with
        | None => None
        | Some (Err k) => Some (Err (BenchIo k))
        | Some (Ok (response_length, i)) => Some (map_err body_error (read_body response_length i))
        end
  end.

Definition send_http1_request (w : writer) (authority : str) (request_body_bytes : N) (i : input)
    : option (Prelude.result bench_error input) * writer :=
  let '(sent, w) := write_all (http1_request authority request_body_bytes) w in
  (if (sent : bool) then read_response i else Some (Err (BenchIo ConnectionBroken)), w).

(** [tls_over_connect] up to the handshake: the CONNECT request, the status
    line, and the header lines up to the blank one. *)
Definition connect_proxy (w : writer) (authority : str) (i : input)
    : option (Prelude.result bench_error input) * writer :=
  let '(sent, w) := write_all (connect_text authority authority) w in
  if negb sent then (Some (Err (BenchIo ConnectionBroken)), w) else
  match read_line i with
  | Err k => (Some (Err (BenchIo k)), w)
  | Ok (status, i) =>
      if negb (starts_with (lit "HTTP/1.1 200") status) then (Some (Err (BenchStatus (lit "CONNECT failed: ") status)), w)
      else
        match header_loop (S (length (in_bytes i))) (λ _ _, ()) () i with
        | None => (None, w)
        | Some (Err k) => (Some (Err (BenchIo k)), w)
        | Some (Ok (_, i)) => (Some (Ok i), w)
        end
  end.
End connection.

(** ** Statistics and rows *)

(** The order of [sort_by(f64::total_cmp)]. *)
Definition total_le (a b : f64) : Prop := (total_key a ≤ total_key b)%Z.
#[export] Instance total_le_dec : RelDecision total_le.
Proof. intros a b. unfold total_le. apply _. Defined.

Definition f64_50 : f64 := f64_div (f64_of_N 50) (f64_of_N 100).
Definition f64_95 : f64 := f64_div (f64_of_N 95) (f64_of_N 100).

(** The index of a percentile among [n] sorted samples. *)
Definition percentile_index (p : f64) (n : nat) : nat :=
  N.to_nat (N.min (ceil_usize (f64_mul (f64_of_N (N.of_nat n)) p) - 1) (N.of_nat n - 1)).
(** No sample: the subtraction or the index panics. *)
Definition percentile (samples : list f64) (p : f64) : option f64 :=
  merge_sort total_le samples !! percentile_index p (length samples).

Definition bench_row (kind : str) (trial index : N) (metric value : str) : str :=
  kind ++ "," :: dec trial ++ "," :: dec index ++ "," :: metric ++ "," :: value ++ ["010"].

Definition expected_http1 : N := TRIALS * (WARMUP_REQUESTS + MEASURED_REQUESTS).
Definition expected_http2 : N := WARMUP_REQUESTS + TRIALS * MEASURED_REQUESTS.
Definition expected_characterization (levels : list N) : N :=
  TRIALS * foldr N.add 0%N levels * (WARMUP_REQUESTS + MEASURED_REQUESTS).

(** The seconds and microseconds of [getrusage], user and system. *)
Definition cpu_time_us (user_sec user_usec system_sec system_usec : N) : N :=
  user_sec * 1000000 + user_usec + (system_sec * 1000000 + system_usec).

(** ** Percentiles are nearest ranks *)

#[export] Instance total_le_total : Total total_le.
Proof. intros a b. unfold total_le. lia. Qed.
#[export] Instance total_le_trans : Transitive total_le.
Proof. intros a b c. unfold total_le. lia. Qed.

Definition rank_exact (p : N) (pf : f64) (n : nat) : bool :=
  (percentile_index pf n =? N.to_nat ((p * N.of_nat n + 99) / 100) - 1)%nat.

(** The sizes of the samples: trials of start-up, requests of one trial at each
    concurrency, and those of all trials. *)
Definition sample_sizes : list nat :=
  N.to_nat <$> (TRIALS :: ((λ c, c * MEASURED_REQUESTS) <$> CHARACTERIZATION_CONCURRENCY)
                ++ ((λ c, TRIALS * (c * MEASURED_REQUESTS)) <$> CHARACTERIZATION_CONCURRENCY))%N.

(** At these sizes double precision gives the exact rank. *)
Lemma ranks_exact n :
  n ∈ sample_sizes → n ≠ 0 ∧ rank_exact 50 f64_50 n = true ∧ rank_exact 95 f64_95 n = true.
Proof.
  intros Hn. assert (forallb (λ n, negb (n =? 0) && (rank_exact 50 f64_50 n && rank_exact 95 f64_95 n))%nat sample_sizes = true)
    as H by by vm_compute.
  eapply forallb_elem in H; [|exact Hn]. apply andb_true_iff in H as [H0 H]. apply andb_true_iff in H. split; [|done].
  by apply negb_true_iff, Nat.eqb_neq in H0.
Qed.

Definition total_lt (a b : f64) : Prop := (total_key a < total_key b)%Z.
#[export] Instance total_lt_dec : RelDecision total_lt.
Proof. intros a b. unfold total_lt. apply _. Defined.

Lemma filter_all {A} (P : A → Prop) `{∀ x, Decision (P x)} l : Forall P l → filter P l = l.
Proof. induction 1 as [|x l Hx _ IH]; [done|]. by rewrite filter_cons_True, IH. Qed.
Lemma filter_none {A} (P : A → Prop) `{∀ x, Decision (P x)} l : Forall (λ x, ¬ P x) l → filter P l = [].
Proof. induction 1 as [|x l Hx _ IH]; [done|]. by rewrite filter_cons_False, IH. Qed.

Lemma sorted_rank (l : list f64) k x :
  StronglySorted total_le l → l !! k = Some x →
  k < length (filter (λ y, total_le y x) l) ∧ length (filter (λ y, total_lt y x) l) ≤ k.
Proof.
  intros Hs Hk. rewrite <-(take_drop_middle _ _ _ Hk) in Hs |- *. pose proof (lookup_lt_Some _ _ _ Hk) as Hlt.
  apply StronglySorted_app in Hs as (Hle & _ & Hs). apply StronglySorted_inv in Hs as [_ Hge].
  rewrite !filter_app, !length_app. split.
  - rewrite (filter_all _ (take k l)).
    + rewrite length_take, filter_cons_True by (unfold total_le; lia). cbn. lia.
    + apply Forall_forall. intros y Hy. by apply Hle; [|left].
  - pose proof (length_filter (λ y, total_lt y x) (take k l)) as Ht. rewrite length_take in Ht.
    rewrite filter_cons_False by (unfold total_lt; lia).
    rewrite (filter_none _ (drop (S k) l)); [cbn; lia|].
    eapply Forall_impl; [exact Hge|]. intros y Hy. unfold total_le, total_lt in *. lia.
Qed.

(** The reported median and 95th percentile are the nearest ranks of the
    samples: one of them, with at least that share of them at or below it and
    less than that share below it. *)
Lemma percentile_nearest_rank samples p pf :
  length samples ∈ sample_sizes → (p, pf) ∈ [(50%N, f64_50); (95%N, f64_95)] →
  let rank := N.to_nat ((p * N.of_nat (length samples) + 99) / 100) in
  ∃ x, percentile samples pf = Some x ∧ x ∈ samples ∧
    rank ≤ length (filter (λ y, total_le y x) samples) ∧ length (filter (λ y, total_lt y x) samples) < rank.
Proof.
  intros Hn Hp rank. apply ranks_exact in Hn as (Hn & H50 & H95). set (n := length samples) in *.
  assert (percentile_index pf n = rank - 1) as Hi.
  { apply elem_of_cons in Hp as [[= -> ->]|[= -> ->]%list_elem_of_singleton]; by apply Nat.eqb_eq. }
  assert (0 < rank ≤ n) as Hr.
  { unfold rank. assert (p = 50 ∨ p = 95)%N as Hp'
      by (apply elem_of_cons in Hp as [[= -> _]|[= -> _]%list_elem_of_singleton]; auto).
    assert (100 * ((p * N.of_nat n + 99) / 100) ≤ p * N.of_nat n + 99)%N by (apply N.Div0.mul_div_le).
    assert (1 ≤ (p * N.of_nat n + 99) / 100)%N by (apply N.div_le_lower_bound; lia). destruct Hp'; subst; lia. }
  pose proof (merge_sort_Permutation total_le samples) as Hperm.
  destruct (lookup_lt_is_Some_2 (merge_sort total_le samples) (rank - 1)) as [x Hx].
  { rewrite Hperm. fold n. lia. }
  exists x. unfold percentile. fold n. rewrite Hi. split; [done|]. split.
  { rewrite <-Hperm. by eapply list_elem_of_lookup_2. }
  destruct (sorted_rank _ _ _ (StronglySorted_merge_sort total_le samples) Hx) as [H1 H2].
  rewrite Hperm in H1, H2. lia.
Qed.

(** ** Lines *)

(** A line of text, its LF included. *)
Definition text_line (l : str) : Prop := ∃ b, l = b ++ ["010"] ∧ "010" ∉ b ∧ from_utf8 l = true.
Definition header_line (l : str) : Prop := text_line l ∧ l ≠ CRLF.

Lemma read_line_text l rest e : text_line l → read_line (mkInput (l ++ rest) e) = Ok (l, mkInput rest e).
Proof.
  intros (b & -> & Hb & Hu). unfold read_line. cbn [in_bytes in_breaks].
  assert (split_once "010" ((b ++ ["010"]) ++ rest) = Some (b, rest)) as ->
    by (apply split_once_Some; by rewrite <-app_assoc). by rewrite Hu.
Qed.

Lemma text_line_nonempty l : text_line l → l ≠ [].
Proof. intros (b & -> & _). by destruct b. Qed.

Lemma text_line_ascii b : "010" ∉ b → is_ascii b = true → text_line (b ++ CRLF).
Proof.
  intros Hb Ha. exists (b ++ ["013"]). split_and!; [by rewrite <-app_assoc|set_solver|].
  apply is_ascii_utf8. by rewrite is_ascii_app, Ha.
Qed.

Lemma crlf_line : text_line CRLF.
Proof. by apply (text_line_ascii []); [set_solver|]. Qed.

Lemma header_loop_lines {A} (step : A → str → A) acc headers rest e fuel :
  Forall header_line headers → length headers < fuel →
  header_loop fuel step acc (mkInput (concat headers ++ CRLF ++ rest) e) =
  Some (Ok (foldl step acc headers, mkInput rest e)).
Proof.
  revert acc fuel. induction headers as [|h headers IH]; intros acc fuel Hf Hl; destruct fuel as [|fuel]; [cbn in Hl; lia| |cbn in Hl; lia|].
  - cbn [concat app header_loop]. rewrite (read_line_text CRLF) by apply crlf_line. done.
  - apply Forall_cons in Hf as [[Ht Hne] Hf]. cbn [concat header_loop]. rewrite <-app_assoc, read_line_text by done.
    rewrite bool_decide_eq_false_2 by by apply text_line_nonempty. unfold str_eqb.
    rewrite bool_decide_eq_false_2 by done. cbn [orb foldl]. apply IH; [done|]. cbn in Hl. lia.
Qed.

(** The fuel of a header loop is enough. *)
Lemma read_line_shorter i line i' :
  read_line i = Ok (line, i') → length line + length (in_bytes i') = length (in_bytes i).
Proof.
  unfold read_line. destruct (split_once "010" (in_bytes i)) as [[l rest]|] eqn:E.
  - apply split_once_Some in E as [-> _]. destruct (from_utf8 _); [|done]. intros [= <- <-]. cbn. rewrite !length_app. cbn. lia.
  - destruct (in_breaks i); [done|]. destruct (from_utf8 _); [|done]. intros [= <- <-]. cbn. lia.
Qed.

Lemma header_loop_total {A} (step : A → str → A) fuel acc i :
  length (in_bytes i) < fuel → header_loop fuel step acc i ≠ None.
Proof.
  revert acc i. induction fuel as [|fuel IH]; intros acc i Hf; [lia|]. cbn [header_loop].
  destruct (read_line i) as [[header i']|e] eqn:E; [|done]. apply read_line_shorter in E.
  destruct (bool_decide (header = []) || _) eqn:Hb; [done|]. bool_prop. apply IH. destruct header; [done|]. cbn in E. lia.
Qed.

Lemma length_concat_headers headers : Forall header_line headers → length headers ≤ length (concat headers).
Proof.
  induction 1 as [|h headers [Ht _] _ IH]; [done|]. cbn. rewrite length_app.
  apply text_line_nonempty in Ht. destruct h; [done|]. cbn. lia.
Qed.

(** ** Trimming a number *)

Lemma strip_any_None ps c s : Forall (λ p, head p ≠ Some c ∧ p ≠ []) ps → strip_any ps (c :: s) = None.
Proof.
  induction 1 as [|p ps [Hh Hne] _ IH]; [done|]. cbn [strip_any].
  assert (strip_prefix p (c :: s) = None) as ->; [|done]. unfold strip_prefix, starts_with.
  rewrite bool_decide_eq_false_2; [done|]. intros [k Hk]. destruct p as [|d p]; [done|]. injection Hk as -> _. done.
Qed.

Lemma strip_all_None ps fuel c s : Forall (λ p, head p ≠ Some c ∧ p ≠ []) ps → strip_all ps fuel (c :: s) = c :: s.
Proof. intros H. destruct fuel; [done|]. cbn [strip_all]. by rewrite strip_any_None. Qed.

Lemma digit_not_space c :
  is_ascii_digit c = true →
  Forall (λ p, head p ≠ Some c ∧ p ≠ []) white_spaces ∧ Forall (λ p, head p ≠ Some c ∧ p ≠ []) (reverse <$> white_spaces).
Proof. byte_decide c. Qed.

(** A number after a space and before the end of its line. *)
Lemma trim_number ds : ds ≠ [] → forallb is_ascii_digit ds = true → trim_unicode (" " :: ds ++ CRLF) = ds.
Proof.
  intros Hne Hd. unfold trim_unicode. cbn [length strip_all].
  assert (∀ s, strip_any white_spaces (" " :: s) = Some s) as -> by done.
  destruct ds as [|c ds]; [done|]. cbn in Hd. apply andb_true_iff in Hd as [Hc Hd].
  cbn [app]. rewrite strip_all_None by by apply digit_not_space.
  assert (∃ k, length (c :: ds ++ CRLF) = S (S k)) as [k ->].
  { exists (S (length ds)). cbn. rewrite length_app. cbn. lia. }
  assert (reverse (c :: ds ++ CRLF) = "010" :: "013" :: reverse (c :: ds)) as ->
    by (rewrite app_comm_cons, reverse_app; done).
  cbn [strip_all].
  assert (∀ s, strip_any (reverse <$> white_spaces) ("010" :: s) = Some s) as -> by done.
  assert (∀ s, strip_any (reverse <$> white_spaces) ("013" :: s) = Some s) as -> by done.
  destruct (reverse (c :: ds)) as [|d ds'] eqn:E; [by apply (f_equal length) in E; rewrite length_reverse in E|].
  assert (is_ascii_digit d = true) as Hd'.
  { assert (d ∈ c :: ds) as Hin by (apply elem_of_reverse; rewrite E; left).
    apply elem_of_cons in Hin as [->|Hin]; [done|]. by eapply forallb_elem in Hd. }
  rewrite strip_all_None by by apply digit_not_space. rewrite <-E. apply reverse_involutive.
Qed.

(** ** Requests at the origin *)

Record origin_request := mkOriginRequest { or_line : str; or_headers : list str; or_body : str }.
Definition request_bytes (r : origin_request) : str := or_line r ++ concat (or_headers r) ++ CRLF ++ or_body r.
Definition request_facts_of (r : origin_request) : N * bool := foldl origin_header (0%N, false) (or_headers r).

(** ** The headers of the two sides *)

Lemma split_once_name name value : ":" ∉ name → split_once ":" (name ++ ":" :: value) = Some (name, value).
Proof. intros H. by apply split_once_Some. Qed.

Lemma length_header n : (n ≤ USIZE_MAX)%N →
  split_once ":" (lit "Content-Length: " ++ dec n ++ CRLF) = Some (lit "Content-Length", " " :: dec n ++ CRLF) ∧
  parse_usize (trim_unicode (" " :: dec n ++ CRLF)) = Some n.
Proof.
  intros Hn. split.
  - apply (split_once_name (lit "Content-Length") (" " :: dec n ++ CRLF)). set_solver.
  - rewrite trim_number by (apply dec_nonempty || apply dec_digits). by apply parse_uint_dec.
Qed.

Lemma ascii_dec n : is_ascii (dec n) = true.
Proof.
  apply forallb_forall. intros c Hc%list_elem_of_In%dec_elem. revert Hc. byte_decide c.
Qed.
Lemma dec_no_newline n : "010" ∉ dec n.
Proof. apply plain_dec_str. Qed.

Lemma length_header_line n : header_line (lit "Content-Length: " ++ dec n ++ CRLF).
Proof.
  split; [|done]. rewrite app_assoc. apply text_line_ascii.
  - pose proof (dec_no_newline n). set_solver.
  - by rewrite is_ascii_app, ascii_dec.
Qed.

Lemma keep_alive_line : header_line (lit "Connection: keep-alive" ++ CRLF).
Proof. split; [|done]. by apply text_line_ascii; [set_solver|]. Qed.

Lemma answer_headers n :
  Forall header_line [lit "Content-Length: " ++ dec n ++ CRLF; lit "Connection: keep-alive" ++ CRLF].
Proof. apply Forall_cons. split; [apply length_header_line|]. apply Forall_singleton, keep_alive_line. Qed.

(** The answer and the request, line by line. *)
Lemma origin_response_lines m :
  origin_response m = (lit "HTTP/1.1 200 OK" ++ CRLF)
    ++ concat [lit "Content-Length: " ++ dec m ++ CRLF; lit "Connection: keep-alive" ++ CRLF]
    ++ CRLF ++ replicate (N.to_nat m) "R".
Proof. unfold origin_response. cbn [concat]. by rewrite app_nil_r, <-!app_assoc. Qed.

Definition client_request (authority : str) (n : N) (extra : list str) : origin_request :=
  mkOriginRequest (lit "POST /allowed HTTP/1.1" ++ CRLF)
    ([lit "Host: " ++ authority ++ CRLF; lit "Content-Length: " ++ dec n ++ CRLF;
      lit "Connection: keep-alive" ++ CRLF] ++ extra)
    (replicate (N.to_nat n) "Q").
Lemma http1_request_lines authority n : http1_request authority n = request_bytes (client_request authority n []).
Proof. unfold http1_request, request_bytes. cbn [client_request or_line or_headers or_body concat app].
  by rewrite app_nil_r, <-!app_assoc. Qed.

Section exchange.
Context (can_allocate : N → bool).

(** A well-formed request whose stated length is that of its body. *)
Record origin_accepts (r : origin_request) : Prop := {
  oa_line : text_line (or_line r);
  oa_headers : Forall header_line (or_headers r);
  oa_length : (request_facts_of r).1 = N.of_nat (length (or_body r));
  oa_memory : can_allocate (N.of_nat (length (or_body r))) = true;
}.

Lemma read_body_exact n body rest e :
  n = N.of_nat (length body) → can_allocate n = true →
  read_body can_allocate n (mkInput (body ++ rest) e) = Ok (mkInput rest e).
Proof using Type.
  intros -> Ha. unfold read_body, read_exact. rewrite Ha. cbn [in_bytes in_breaks].
  rewrite (proj2 (N.leb_le _ _)) by (rewrite length_app; lia). cbn. by rewrite Nat2N.id, drop_app_length.
Qed.

Definition credentialed (rs : list origin_request) : list origin_request := filter (λ r, (request_facts_of r).2 = true) rs.

Lemma serve_http1_step fuel m o r rest :
  origin_accepts r → reliable (og_writer o) →
  ∃ w, reliable w ∧ w_written w = w_written (og_writer o) ++ origin_response m ∧
    serve_http1 can_allocate (S fuel) m o (mkInput (request_bytes r ++ rest) false) =
    serve_http1 can_allocate fuel m
      (mkOrigin (og_requests o + 1) (og_credentials o + (if (request_facts_of r).2 then 1 else 0)) w) (mkInput rest false).
Proof using Type.
  intros [Hl Hh Hn Ha] Hw. destruct (write_all_reliable (origin_response m) (og_writer o) Hw) as (plan & Hwa & Hp).
  exists (mkWriter plan (w_written (og_writer o) ++ origin_response m) (w_shutdown (og_writer o))). split; [done|]. split; [done|].
  cbn [serve_http1]. unfold request_bytes. rewrite <-app_assoc, read_line_text by done.
  pose proof (text_line_nonempty _ Hl). destruct (or_line r) as [|c line]; [done|].
  rewrite <-!app_assoc, header_loop_lines; [|done|].
  - unfold request_facts_of in *. destruct (foldl _ _ _) as [len authorized]. cbn in Hn. subst len.
    rewrite read_body_exact by done. by rewrite Hwa.
  - cbn [in_bytes]. rewrite length_app. pose proof (length_concat_headers _ Hh). lia.
Qed.

Lemma request_bytes_nonempty r : origin_accepts r → request_bytes r ≠ [].
Proof using Type. intros [Hl%text_line_nonempty _ _ _]. unfold request_bytes. by destruct (or_line r). Qed.

Lemma length_requests rs : Forall origin_accepts rs → length rs ≤ length (concat (request_bytes <$> rs)).
Proof using Type.
  induction 1 as [|r rs Hr _ IH]; [done|]. cbn. rewrite length_app.
  apply request_bytes_nonempty in Hr. destruct (request_bytes r); [done|]. cbn. lia.
Qed.

Lemma serve_http1_all fuel m o rs :
  Forall origin_accepts rs → reliable (og_writer o) → length rs < fuel →
  ∃ w, reliable w ∧ w_written w = w_written (og_writer o) ++ concat (replicate (length rs) (origin_response m)) ∧
    serve_http1 can_allocate fuel m o (mkInput (concat (request_bytes <$> rs)) false) =
    Some (Ok (), mkOrigin (og_requests o + N.of_nat (length rs)) (og_credentials o + N.of_nat (length (credentialed rs))) w).
Proof using Type.
  revert fuel o. induction rs as [|r rs IH]; intros fuel o Hrs Hw Hf; (destruct fuel as [|fuel]; [lia|]).
  - exists (og_writer o). split; [done|]. split; [by rewrite app_nil_r|]. cbn. rewrite !N.add_0_r. by destruct o.
  - apply Forall_cons in Hrs as [Hr Hrs]. cbn [fmap list_fmap concat].
    destruct (serve_http1_step fuel m o r (concat (request_bytes <$> rs)) Hr Hw) as (w1 & Hw1 & Hs1 & ->).
    set (o1 := mkOrigin _ _ w1). destruct (IH fuel o1 Hrs Hw1) as (w & Hw2 & Hs & ->); [cbn in Hf; lia|].
    exists w. split; [done|]. split; [rewrite Hs; cbn; by rewrite Hs1, <-app_assoc|].
    unfold o1. cbn [og_requests og_credentials length]. do 3 f_equal; [lia|]. unfold credentialed.
    destruct (request_facts_of r).2 eqn:E; [rewrite filter_cons_True by done; cbn [length]; lia|].
    rewrite filter_cons_False by (by rewrite E). lia.
Qed.

(** ** The client reads exactly the answers *)

Lemma read_response_exact m rest e :
  (m ≤ USIZE_MAX)%N → can_allocate m = true →
  read_response can_allocate (mkInput (origin_response m ++ rest) e) = Some (Ok (mkInput rest e)).
Proof using Type.
  intros Hm Ha. unfold read_response. rewrite origin_response_lines, <-!app_assoc, app_assoc.
  assert (text_line (lit "HTTP/1.1 200 OK" ++ CRLF)) as Hl by (by apply text_line_ascii; [set_solver|]).
  rewrite read_line_text by done.
  assert (starts_with (lit "HTTP/1.1 200") (lit "HTTP/1.1 200 OK" ++ CRLF) = true) as -> by by vm_compute.
  cbn [negb]. rewrite header_loop_lines.
  - destruct (length_header m Hm) as [E1 E2]. cbn [foldl]. unfold client_header at 2. rewrite E1, E2.
    assert (eq_ignore_ascii_case (lit "Content-Length") (lit "content-length") = true) as -> by by vm_compute.
    assert (∀ k, client_header k (lit "Connection: keep-alive" ++ CRLF) = k) as -> by by vm_compute.
    cbn [default]. unfold id. rewrite read_body_exact; [done| |done]. rewrite length_replicate. lia.
  - apply answer_headers.
  - pose proof (length_concat_headers _ (answer_headers m)). cbn [in_bytes]. rewrite length_app. lia.
Qed.

(** [k] requests on one connection, as the benchmark's loops send them. *)
Fixpoint send_requests (k : nat) (w : writer) (authority : str) (n : N) (i : input)
    : option (Prelude.result bench_error input) * writer :=
  match k with
  | 0 => (Some (Ok i), w)
  | S k =>
      match send_http1_request can_allocate w authority n i with
      | (Some (Ok i), w) => send_requests k w authority n i
      | r => r
      end
  end.

Lemma send_requests_exact authority n m rest e k w :
  (m ≤ USIZE_MAX)%N → can_allocate m = true → reliable w →
  ∃ w', send_requests k w authority n (mkInput (concat (replicate k (origin_response m)) ++ rest) e) =
      (Some (Ok (mkInput rest e)), w') ∧
    w_written w' = w_written w ++ concat (replicate k (request_bytes (client_request authority n []))).
Proof using Type.
  intros Hm Ha. revert w. induction k as [|k IH]; intros w Hw; cbn [send_requests replicate concat].
  { exists w. by rewrite app_nil_r. }
  unfold send_http1_request.
  destruct (write_all_reliable (http1_request authority n) w Hw) as (plan & -> & Hp).
  rewrite <-app_assoc, read_response_exact by done. destruct (IH (mkWriter plan (w_written w ++ http1_request authority n) (w_shutdown w)) Hp)
    as (w' & -> & Hw'). exists w'. split; [done|]. rewrite Hw'. cbn [w_written]. by rewrite http1_request_lines, <-app_assoc.
Qed.

(** The proxy's answer to the CONNECT is read, and nothing after it. *)
Lemma connect_proxy_exact authority rest e w :
  reliable w →
  ∃ w', connect_proxy w authority (mkInput (response_200 ++ rest) e) = (Some (Ok (mkInput rest e)), w') ∧
    w_written w' = w_written w ++ connect_text authority authority.
Proof using Type.
  intros Hw. unfold connect_proxy.
  destruct (write_all_reliable (connect_text authority authority) w Hw) as (plan & -> & Hp). cbn [negb].
  assert (text_line (lit "HTTP/1.1 200 Connection Established" ++ CRLF)) as Hl by (by apply text_line_ascii; [set_solver|]).
  change (response_200 ++ rest) with ((lit "HTTP/1.1 200 Connection Established" ++ CRLF) ++ concat [] ++ CRLF ++ rest).
  rewrite read_line_text by done.
  assert (starts_with (lit "HTTP/1.1 200") (lit "HTTP/1.1 200 Connection Established" ++ CRLF) = true) as -> by by vm_compute.
  cbn [negb]. rewrite header_loop_lines; [|done|cbn; lia]. by eexists.
Qed.

(** A header the proxy adds: a line that does not change the body's length. *)
Definition added_header (h : str) : Prop := header_line h ∧ ∀ acc, (origin_header acc h).1 = acc.1.

Lemma added_headers_length extra acc : Forall added_header extra → (foldl origin_header acc extra).1 = acc.1.
Proof using Type.
  intros H. revert acc. induction H as [|h extra [_ Hh] _ IH]; intros acc; [done|]. cbn. by rewrite IH, Hh.
Qed.

Lemma client_request_accepted authority n extra :
  "010" ∉ authority → is_ascii authority = true → (n ≤ USIZE_MAX)%N → can_allocate n = true →
  Forall added_header extra → origin_accepts (client_request authority n extra).
Proof using Type.
  intros Hna Haa Hn Ha He. split; cbn [client_request or_line or_headers or_body].
  - by apply text_line_ascii; [set_solver|].
  - apply Forall_app. split; [|eapply Forall_impl; [exact He|by intros h [? _]]].
    apply Forall_cons. split; [|apply answer_headers]. split; [|done].
    rewrite app_assoc. apply text_line_ascii; [set_solver|]. by rewrite is_ascii_app, Haa.
  - change ((foldl origin_header (origin_header (origin_header (origin_header (0%N, false) (lit "Host: " ++ authority ++ CRLF))
      (lit "Content-Length: " ++ dec n ++ CRLF)) (lit "Connection: keep-alive" ++ CRLF)) extra).1 =
      N.of_nat (length (replicate (N.to_nat n) "Q"))).
    rewrite added_headers_length by exact He.
    destruct (length_header n Hn) as [E1 E2].
    assert (∀ acc v, (origin_header acc (lit "Host" ++ ":" :: v)).1 = acc.1) as Hhost.
    { intros acc v. unfold origin_header. rewrite split_once_name by set_solver.
      assert (eq_ignore_ascii_case (lit "Host") (lit "content-length") = false) as -> by by vm_compute.
      assert (eq_ignore_ascii_case (lit "Host") (lit "x-bench-token") = false) as -> by by vm_compute. done. }
    assert (∀ acc, origin_header acc (lit "Connection: keep-alive" ++ CRLF) = acc) as -> by by vm_compute.
    unfold origin_header at 1. rewrite E1, E2.
    assert (eq_ignore_ascii_case (lit "Content-Length") (lit "content-length") = true) as -> by by vm_compute.
    assert (eq_ignore_ascii_case (lit "Content-Length") (lit "x-bench-token") = false) as -> by by vm_compute.
    cbn. rewrite length_replicate. lia.
  - rewrite length_replicate. by rewrite N2Nat.id.
Qed.
End exchange.

(** The header the proxy injects. *)
Definition token_header : str := lit "x-bench-token: " ++ TOKEN ++ CRLF.

Lemma token_header_added : added_header token_header.
Proof.
  split; [split; [|by vm_compute]|].
  - apply (text_line_ascii (lit "x-bench-token: " ++ TOKEN)); [|by vm_compute]. apply (bool_decide_unpack _). by vm_compute.
  - intros [n b]. by vm_compute.
Qed.

(** ** The benchmark's sessions *)

Section sessions.
Context `{!UrlHost} (Hlocal : host_parse (lit "localhost") = Some (HostDomain (lit "localhost"))).

Definition bench_policy (mode : RuleMode) (port : N) (paths : list str) (inject : list HeaderInjection) : SessionConfig :=
  mkSessionConfig true None UDeny None ∅ [mkHostRule (lit "localhost") mode [port] paths inject].
Definition bench_injection : HeaderInjection :=
  mkHeaderInjection (lit "X-Bench-Token") (lit "benchmark-token") Raw None.

Lemma localhost_normal : normalize_dns_name (lit "localhost") = Ok (lit "localhost").
Proof using Hlocal.
  unfold normalize_dns_name.
  assert (default (to_ascii_lowercase (lit "localhost")) (strip_suffix ["."] (to_ascii_lowercase (lit "localhost"))) =
    lit "localhost") as -> by by vm_compute.
  rewrite Hlocal. by vm_compute.
Qed.

Lemma bench_document mode port paths inject paths' inject' :
  port ≠ 0%N →
  validate_paths [] 0 (default [] paths) = Ok paths' →
  validate_injections [] 0 (injection_of_raw <$> default [] inject) = Ok inject' →
  (mode = Tunnel → paths = None ∧ inject = None) →
  validate_session_document (mkRawSessionConfig (Some 2%Z) true None None
    (Some (RulesNamed {[ lit "localhost" := mkRawNamedRule (Some mode) [port] paths inject ]})) None []) =
  Ok (bench_policy mode port paths' inject').
Proof using Hlocal.
  intros Hp Hpaths Hinj Ht. unfold validate_session_document, validate_named_rules.
  assert (∀ r : RawNamedRule, btree_iter {[ lit "localhost" := r ]} = [(lit "localhost", r)]) as Hb.
  { intros r. unfold btree_iter. by rewrite map_to_list_singleton. }
  cbn [raw_version raw_unsupported_fields raw_unmatched raw_rules raw_socket_name raw_credentials raw_persistent].
  assert (validate_version (Some 2%Z) = Ok ()) as -> by by vm_compute.
  assert (validate_unmatched None = Ok UDeny) as -> by by vm_compute.
  cbn [mbind result_bind negb]. rewrite bool_decide_eq_true_2 by done. cbn [mbind result_bind negb]. rewrite Hb. cbn [validate_named_rules_from].
  unfold validate_named_rule. rewrite localhost_normal. cbn [map_err mbind result_bind rn_mode rn_ports rn_paths rn_inject default].
  rewrite (bool_decide_eq_false_2 (lit "localhost" ∈ [])) by apply not_elem_of_nil. unfold validate_rule. cbn [hr_ports hr_mode hr_paths hr_inject hr_host id].
  rewrite (bool_decide_eq_false_2 ([port] = [])) by done. cbn [validate_ports]. rewrite (proj2 (N.eqb_neq _ _) Hp).
  rewrite (bool_decide_eq_false_2 (port ∈ [])) by apply not_elem_of_nil. cbn [mbind result_bind].
  assert (bool_decide (mode = Tunnel) && (bool_decide (is_Some paths) || bool_decide (is_Some inject)) = false) as ->.
  { case_bool_decide as Hm; [|done]. by destruct (Ht Hm) as [-> ->]. }
  cbn [id] in *. rewrite Hpaths. cbn [mbind result_bind]. rewrite Hinj. done.
Qed.

Lemma intercept_session_Ok port :
  port ≠ 0%N → intercept_session port = Ok (bench_policy Intercept port [lit "/allowed"] [bench_injection]).
Proof using Hlocal. intros Hp. apply bench_document; [done|by vm_compute|by vm_compute|done]. Qed.
Lemma tunnel_session_Ok port : port ≠ 0%N → tunnel_session port = Ok (bench_policy Tunnel port [] []).
Proof using Hlocal. intros Hp. by apply bench_document. Qed.

Lemma bench_authority_names port :
  (0 < port ≤ 65535)%N → names (bench_authority port) (mkDestination (lit "localhost") port).
Proof using Hlocal.
  intros Hp. apply (names_port (lit "localhost")); [apply localhost_normal|apply parse_uint_dec; lia|lia].
Qed.
End sessions.

(** ** The benchmark's accounts *)

Lemma bench_authority_plain port : "010" ∉ bench_authority port ∧ is_ascii (bench_authority port) = true.
Proof.
  unfold bench_authority. split; [|by rewrite is_ascii_app, ascii_dec].
  intros [H|H]%elem_of_app; [|by apply dec_no_newline in H]. revert H. apply (bool_decide_unpack _). by vm_compute.
Qed.

(** The request the policy layer sees of what the client wrote. *)
Definition bench_facts (port : N) : RequestFacts :=
  mkRequestFacts (lit "POST") None None (lit "/allowed") [bench_authority port].

(** C39: the benchmark's accounts add up. For every origin port its session is
    valid, the proxy admits its CONNECT for interception at exactly that
    destination (and the client reads the proxy's answer and no more), and
    authorises its POST with exactly the benchmark's credential. And whatever
    headers the proxy adds to the requests of a connection, the origin counts
    each request once, and as credentialed exactly when it carries the token;
    the client sends exactly these requests, succeeds, and consumes exactly the
    bytes of the answers. So the totals the
    benchmark compares with its expected counts are those of the requests sent
    and of the credentials injected. *)
Theorem benchmark_accounts `{!UrlHost, !UrlHostLaws, !Crypto} can_allocate port n m extras w seed :
  host_parse (lit "localhost") = Some (HostDomain (lit "localhost")) →
  (0 < port ≤ 65535)%N → (n ≤ USIZE_MAX)%N → (m ≤ USIZE_MAX)%N →
  can_allocate n = true → can_allocate m = true → Forall (Forall added_header) extras → reliable w →
  let authority := bench_authority port in
  let rs := client_request authority n <$> extras in
  let sent := concat (request_bytes <$> rs) in
  (∃ sc, intercept_session port = Ok sc ∧
    (∀ w rest e, reliable w → ∃ w', connect_proxy w authority (mkInput (response_200 ++ rest) e) =
       (Some (Ok (mkInput rest e)), w') ∧ w_written w' = w_written w ++ connect_text authority authority) ∧
    authorize_connect_authority (compile sc seed) authority [authority] =
      Ok (Intercept, mkDestination (lit "localhost") port) ∧
    authorize_intercepted_request (compile sc seed) (bench_facts port) authority =
      Ok ([compile_credential sc seed bench_injection], Some (lit "/allowed"))) ∧
  ∃ w' answers,
    serve_http1 can_allocate (S (length sent)) m (mkOrigin 0 0 w) (mkInput sent false) =
      Some (Ok (), mkOrigin (N.of_nat (length extras)) (N.of_nat (length (credentialed rs))) w') ∧
    w_written w' = w_written w ++ answers ∧
    ∀ wc rest e, reliable wc →
      ∃ wc', send_requests can_allocate (length extras) wc authority n (mkInput (answers ++ rest) e) =
        (Some (Ok (mkInput rest e)), wc') ∧
      w_written wc' = w_written wc ++ concat (replicate (length extras) (request_bytes (client_request authority n []))).
Proof.
  intros Hlocal Hp Hn Hm Han Ham He Hw authority rs sent. split.
  - pose proof (bench_authority_names Hlocal port Hp) as Hnames.
    assert (intercept_session port = Ok (bench_policy Intercept port [lit "/allowed"] [bench_injection])) as Hs
      by (apply intercept_session_Ok; [done|lia]).
    eexists. split; [exact Hs|]. apply validate_session_document_session_wf in Hs.
    split; [by intros; apply connect_proxy_exact|]. split.
    + apply authorize_connect_Ok; [done|]. split_and!; [done|by right; eexists|].
      apply (allows_rule _ (mkHostRule (lit "localhost") Intercept [port] [lit "/allowed"] [bench_injection])); set_solver.
    + apply authorize_intercepted_request_Ok; [done|].
      exists (mkDestination (lit "localhost") port), (mkHostRule (lit "localhost") Intercept [port] [lit "/allowed"] [bench_injection]).
      split_and!; [done| |set_solver|done|set_solver| |done].
      * split; cbn; [done|done|done|by right; eexists|by right].
      * apply (path_matched _ _ (lit "/allowed")); [set_solver|by vm_compute|by vm_compute].
  - destruct (bench_authority_plain port) as [Hna Haa].
    assert (Forall (origin_accepts can_allocate) rs) as Hrs.
    { apply Forall_fmap. eapply Forall_impl; [exact He|]. intros extra Hx. by apply client_request_accepted. }
    assert (length rs ≤ length sent) as Hlen by (unfold sent; by eapply length_requests).
    destruct (serve_http1_all can_allocate (S (length sent)) m (mkOrigin 0 0 w) rs Hrs Hw) as (w' & _ & Hs & Hr); [lia|].
    cbn [og_writer og_requests og_credentials] in *. rewrite !N.add_0_l in Hr.
    assert (length rs = length extras) as El by apply length_fmap. rewrite El in *.
    exists w', (concat (replicate (length extras) (origin_response m))). split_and!; [exact Hr|exact Hs|].
    intros wc rest e Hwc. by apply send_requests_exact.
Qed.

(** Two requests with the token and one without. *)
Lemma benchmark_accounts_witness :
  let rs := client_request (bench_authority 8443) 3 <$> [[token_header]; []; [token_header]] in
  let sent := concat (request_bytes <$> rs) in
  ∃ w', serve_http1 (λ _, true) (S (length sent)) 2 (mkOrigin 0 0 (mkWriter [] [] false)) (mkInput sent false) =
    Some (Ok (), mkOrigin 3 2 w').
Proof.
  destruct (@benchmark_accounts plain_host_parse plain_host_laws plain_crypto (λ _, true) 8443 3 2
    [[token_header]; []; [token_header]] (mkWriter [] [] false) []) as (_ & w' & answers & Hs & _).
  - by vm_compute.
  - done.
  - done.
  - done.
  - done.
  - done.
  - repeat first [apply Forall_nil_2 | apply Forall_cons; split | apply token_header_added].
  - constructor.
  - exists w'. exact Hs.
Defined.
