(* ===== verification/Traced.v ===== *)
(** Programs that act on a world, may fail, and leave a trace: the monad, its
    combinators, and rules to establish what a run's outcome and trace satisfy.

    A run gives a result, the events it caused, and the next world. Locals are
    values of the program, and what Rust drops on an early return is written as
    [on_error]. *)

From S2P Require Import Prelude.
From stdpp Require Import options.

Definition traced (W Ev E A : Type) : Type := W → result E A * list Ev * W.

#[export] Instance traced_ret {W Ev E} : MRet (traced W Ev E) := λ A a w, (Ok a, [], w).
#[export] Instance traced_bind {W Ev E} : MBind (traced W Ev E) := λ A B f m w,
  match m w with
  | (Ok a, l, w1) => let '(r, l', w2) := f a w1 in (r, l ++ l', w2)
  | (Err e, l, w1) => (Err e, l, w1)
  end.

Section combinators.
Context {W Ev E : Type}.

Definition raise {A} (e : E) : traced W Ev E A := λ w, (Err e, [], w).
Definition of_result {A} (r : result E A) : traced W Ev E A := λ w, (r, [], w).
Definition ask {A} (f : W → A * W) : traced W Ev E A := λ w, let '(a, w') := f w in (Ok a, [], w').
Definition tell (f : W → W) : traced W Ev E unit := λ w, (Ok (), [], f w).
Definition event (e : Ev) : traced W Ev E unit := λ w, (Ok (), [e], w).

(** What Rust drops when [m] returns early. *)
Definition on_error {A} (cleanup : traced W Ev E unit) (m : traced W Ev E A) : traced W Ev E A := λ w,
  match m w with
  | (Ok a, l, w1) => (Ok a, l, w1)
  | (Err e, l, w1) => let '(_, l', w2) := cleanup w1 in (Err e, l ++ l', w2)
  end.
(** What Rust drops at the end of a block, however it is left. *)
Definition finally {A} (cleanup : traced W Ev E unit) (m : traced W Ev E A) : traced W Ev E A :=
  on_error cleanup m ≫= λ a, cleanup ≫= λ _, mret a.

Fixpoint each {A} (l : list A) (f : A → traced W Ev E unit) : traced W Ev E unit :=
  match l with [] => mret () | a :: l => f a ≫= λ _, each l f end.
(** A loop that carries a local. *)
Fixpoint fold_each {A S} (l : list A) (f : S → A → traced W Ev E S) (s : S) : traced W Ev E S :=
  match l with [] => mret s | a :: l => f s a ≫= fold_each l f end.
End combinators.

(** ** Outcomes and traces *)

Section yields.
Context {W Ev E : Type}.
Implicit Types l : list Ev.

(** Every run of [m] has a result and a trace in [P]. *)
Definition yields {A} (m : traced W Ev E A) (P : result E A → list Ev → Prop) : Prop :=
  ∀ w, P (m w).1.1 (m w).1.2.

Lemma yields_mono {A} (m : traced W Ev E A) (P Q : result E A → list Ev → Prop) :
  yields m P → (∀ r l, P r l → Q r l) → yields m Q.
Proof. intros H HPQ w. apply HPQ, H. Qed.

Lemma yields_ret {A} (a : A) (P : result E A → list Ev → Prop) : P (Ok a) [] → yields (mret a) P.
Proof. intros H w. exact H. Qed.
Lemma yields_raise {A} e (P : result E A → list Ev → Prop) : P (Err e) [] → yields (raise e) P.
Proof. intros H w. exact H. Qed.
Lemma yields_of_result {A} r (P : result E A → list Ev → Prop) : P r [] → yields (of_result r) P.
Proof. intros H w. exact H. Qed.
Lemma yields_ask {A} (f : W → A * W) (P : result E A → list Ev → Prop) : (∀ a, P (Ok a) []) → yields (ask f) P.
Proof. intros H w. unfold ask. destruct (f w). apply H. Qed.
Lemma yields_tell f (P : result E unit → list Ev → Prop) : P (Ok ()) [] → yields (tell f) P.
Proof. intros H w. exact H. Qed.
Lemma yields_event e (P : result E unit → list Ev → Prop) : P (Ok ()) [e] → yields (event e) P.
Proof. intros H w. exact H. Qed.

Lemma yields_bind {A B} (m : traced W Ev E A) (f : A → traced W Ev E B) P1 (P : result E B → list Ev → Prop) :
  yields m P1 →
  (∀ a l, P1 (Ok a) l → yields (f a) (λ r l', P r (l ++ l'))) →
  (∀ e l, P1 (Err e) l → P (Err e) l) →
  yields (m ≫= f) P.
Proof.
  intros Hm Hf He w. specialize (Hm w). unfold mbind, traced_bind.
  destruct (m w) as [[[a|e] l] w1]; cbn in Hm; [|by apply He].
  specialize (Hf a l Hm w1). by destruct (f a w1) as [[r l'] w2].
Qed.

Lemma yields_on_error {A} cleanup (m : traced W Ev E A) P1 P2 (P : result E A → list Ev → Prop) :
  yields m P1 → yields cleanup (λ _, P2) →
  (∀ a l, P1 (Ok a) l → P (Ok a) l) →
  (∀ e l l', P1 (Err e) l → P2 l' → P (Err e) (l ++ l')) →
  yields (on_error cleanup m) P.
Proof.
  intros Hm Hc Ho He w. specialize (Hm w). unfold on_error.
  destruct (m w) as [[[a|e] l] w1]; cbn in Hm; [by apply Ho|].
  specialize (Hc w1). destruct (cleanup w1) as [[u l'] w2]. by apply He.
Qed.
End yields.

(** ** Success

    [succeeds m P]: when a run of [m] returns a value, value and trace are in
    [P]. *)

Section succeeds.
Context {W Ev E : Type}.
Implicit Types l : list Ev.

Definition succeeds {A} (m : traced W Ev E A) (P : A → list Ev → Prop) : Prop :=
  yields m (λ r l, ∀ a, r = Ok a → P a l).

Lemma succeeds_mono {A} (m : traced W Ev E A) (P Q : A → list Ev → Prop) :
  succeeds m P → (∀ a l, P a l → Q a l) → succeeds m Q.
Proof. intros H HPQ. eapply yields_mono; [exact H|]. cbn. intros r l Hr a Ha. by apply HPQ, Hr. Qed.

Lemma succeeds_ret {A} (a : A) (P : A → list Ev → Prop) : P a [] → succeeds (mret a) P.
Proof. intros H. apply yields_ret. by intros ? [= <-]. Qed.
Lemma succeeds_raise {A} e (P : A → list Ev → Prop) : succeeds (raise e) P.
Proof. by apply yields_raise. Qed.
Lemma succeeds_of_result {A} (r : result E A) (P : A → list Ev → Prop) :
  (∀ a, r = Ok a → P a []) → succeeds (of_result r) P.
Proof. intros H. by apply yields_of_result. Qed.
Lemma succeeds_ask {A} (f : W → A * W) (P : A → list Ev → Prop) : (∀ a, P a []) → succeeds (ask f) P.
Proof. intros H. apply yields_ask. by intros a ? [= <-]. Qed.
Lemma succeeds_tell f (P : unit → list Ev → Prop) : P () [] → succeeds (tell f) P.
Proof. intros H. apply yields_tell. by intros [] _. Qed.
Lemma succeeds_event e (P : unit → list Ev → Prop) : P () [e] → succeeds (event e) P.
Proof. intros H. apply yields_event. by intros [] _. Qed.

Lemma succeeds_bind {A B} (m : traced W Ev E A) (f : A → traced W Ev E B) P1 (P : B → list Ev → Prop) :
  succeeds m P1 → (∀ a l, P1 a l → succeeds (f a) (λ b l', P b (l ++ l'))) → succeeds (m ≫= f) P.
Proof.
  intros Hm Hf. eapply yields_bind; [exact Hm| |done]. intros a l Ha. eapply yields_mono; [by apply Hf, Ha|].
  cbn. intros r l' H b Hb. by apply H.
Qed.

Lemma succeeds_on_error {A} cleanup (m : traced W Ev E A) P : succeeds m P → succeeds (on_error cleanup m) P.
Proof.
  intros Hm. eapply (yields_on_error _ _ _ (λ _, True)); [exact Hm|by intros w|done|done].
Qed.

Lemma succeeds_fold {A S} (l : list A) (f : S → A → traced W Ev E S) (I : list A → S → list Ev → Prop) s :
  I [] s [] →
  (∀ before a after s tr, l = before ++ a :: after → I before s tr →
     succeeds (f s a) (λ s' tr', I (before ++ [a]) s' (tr ++ tr'))) →
  succeeds (fold_each l f s) (λ s' tr, I l s' tr).
Proof.
  intros H0 Hf.
  enough (∀ after before s tr, l = before ++ after → I before s tr →
    succeeds (fold_each after f s) (λ s' tr', I l s' (tr ++ tr'))) as H by by apply (H l [] s []).
  induction after as [|a after IH]; intros before s' tr Hl Hi; cbn [fold_each].
  - apply succeeds_ret. rewrite app_nil_r in *. by subst.
  - eapply succeeds_bind; [by eapply Hf|]. cbn. intros s2 tr2 Hi2.
    eapply succeeds_mono; [apply (IH (before ++ [a]) s2 (tr ++ tr2)); [by rewrite <-app_assoc|done]|].
    cbn. intros s3 tr3. by rewrite app_assoc.
Qed.
End succeeds.

(** ** Events of one kind

    [only P m]: every event of a run of [m] is in [P]. *)

Section only.
Context {W Ev E : Type} (P : Ev → Prop).

Definition only {A} (m : traced W Ev E A) : Prop := yields m (λ _ l, Forall P l).

Lemma only_ret {A} (a : A) : only (mret a).
Proof. by apply yields_ret. Qed.
Lemma only_raise {A} e : only (raise (A:=A) e).
Proof. by apply yields_raise. Qed.
Lemma only_of_result {A} (r : result E A) : only (of_result r).
Proof. by apply yields_of_result. Qed.
Lemma only_ask {A} (f : W → A * W) : only (ask f).
Proof. by apply yields_ask. Qed.
Lemma only_tell f : only (tell f).
Proof. by apply yields_tell. Qed.
Lemma only_event e : P e → only (event e).
Proof. intros H. apply yields_event. by constructor. Qed.
Lemma only_bind {A B} (m : traced W Ev E A) (f : A → traced W Ev E B) : only m → (∀ a, only (f a)) → only (m ≫= f).
Proof.
  intros Hm Hf. eapply yields_bind; [exact Hm| |done]. cbn. intros a l Hl. eapply yields_mono; [apply Hf|].
  cbn. intros _ l' Hl'. by apply Forall_app.
Qed.
Lemma only_on_error {A} cleanup (m : traced W Ev E A) : only cleanup → only m → only (on_error cleanup m).
Proof. intros Hc Hm. eapply yields_on_error; [exact Hm|exact Hc|done|]. cbn. intros. by apply Forall_app. Qed.
Lemma only_finally {A} cleanup (m : traced W Ev E A) : only cleanup → only m → only (finally cleanup m).
Proof.
  intros Hc Hm. apply only_bind; [by apply only_on_error|]. intros a. apply only_bind; [done|]. intros []. apply only_ret.
Qed.
Lemma only_each {A} (l : list A) f : (∀ a, only (f a)) → only (each l f).
Proof. intros Hf. induction l; cbn [each]; [apply only_ret|by apply only_bind]. Qed.
Lemma only_fold {A S} (l : list A) (f : S → A → traced W Ev E S) s : (∀ s a, only (f s a)) → only (fold_each l f s).
Proof. intros Hf. revert s. induction l; intros s; cbn [fold_each]; [apply only_ret|by apply only_bind]. Qed.
End only.

(** Take a program apart; what is left are the calls of other programs. *)
Create HintDb traced.
Ltac only_step :=
  match goal with
  | |- only _ (mbind _ _) => apply only_bind; [|intros ?]
  | |- only _ (mret _) => apply only_ret
  | |- only _ (raise _) => apply only_raise
  | |- only _ (of_result _) => apply only_of_result
  | |- only _ (ask _) => apply only_ask
  | |- only _ (tell _) => apply only_tell
  | |- only _ (event _) => apply only_event
  | |- only _ (on_error _ _) => apply only_on_error
  | |- only _ (finally _ _) => apply only_finally
  | |- only _ (each _ _) => apply only_each; intros ?
  | |- only _ (fold_each _ _ _) => apply only_fold; intros ? ?
  | |- only _ (let _ := _ in _) => cbv zeta
  | |- only _ (if ?b then _ else _) => destruct b
  | |- only _ (match ?x with _ => _ end) => destruct x
  end.
Ltac only_auto := repeat (only_step || (by eauto with traced)); try (by eauto with traced).

(** ** What a successful run reports

    [mark] selects the events of interest. [logs R m K Q]: when [m] returns a
    value, it is in [Q] and the marks of the run are [K] up to [R], which is
    equality, or permutation where tasks interleave. *)

Section logs.
Context {W Ev E M : Type} (mark : Ev → option M) (R : relation (list M)) `{!Equivalence R, !Proper (R ==> R ==> R) app}.

Definition logs {A} (m : traced W Ev E A) (K : list M) (Q : A → Prop) : Prop :=
  succeeds m (λ a l, R (omap mark l) K ∧ Q a).

Lemma logs_mono {A} (m : traced W Ev E A) K K' (Q Q' : A → Prop) :
  logs m K Q → R K K' → (∀ a, Q a → Q' a) → logs m K' Q'.
Proof using Equivalence0.
  intros Hm HK HQ. eapply succeeds_mono; [exact Hm|]. cbn. intros a l [Hl Ha]. split; [by transitivity K|by apply HQ].
Qed.
Lemma logs_conv {A} (m : traced W Ev E A) K K' Q : logs m K Q → R K K' → logs m K' Q.
Proof using Equivalence0. intros Hm HK. by eapply logs_mono. Qed.

Lemma logs_ret {A} (a : A) (Q : A → Prop) : Q a → logs (mret a) [] Q.
Proof using Equivalence0. intros H. by apply succeeds_ret. Qed.
Lemma logs_raise {A} e K (Q : A → Prop) : logs (raise e) K Q.
Proof using Type. apply succeeds_raise. Qed.
Lemma logs_event e : logs (event e) (option_list (mark e)) (λ _, True).
Proof using Equivalence0. apply succeeds_event. cbn. by destruct (mark e). Qed.

Lemma logs_bind {A B} (m : traced W Ev E A) (f : A → traced W Ev E B) K1 K2 Q1 Q :
  logs m K1 Q1 → (∀ a, Q1 a → logs (f a) K2 Q) → logs (m ≫= f) (K1 ++ K2) Q.
Proof using Type*.
  intros Hm Hf. eapply succeeds_bind; [exact Hm|]. cbn. intros a l [Hl Ha].
  eapply succeeds_mono; [by apply Hf|]. cbn. intros b l' [Hl' Hb]. by rewrite omap_app, Hl, Hl'.
Qed.

Lemma logs_silent {A} (m : traced W Ev E A) : only (λ e, mark e = None) m → logs m [] (λ _, True).
Proof using Equivalence0.
  intros Hm. eapply yields_mono; [exact Hm|]. cbn. intros r l Hl a _. split; [|done].
  induction Hl as [|e l He _ IH]; [done|]. cbn. by rewrite He.
Qed.
Lemma logs_after {A B} (m : traced W Ev E A) (f : A → traced W Ev E B) K Q :
  only (λ e, mark e = None) m → (∀ a, logs (f a) K Q) → logs (m ≫= f) K Q.
Proof using Type*. intros Hm Hf. apply (logs_bind _ _ [] K (λ _, True)); [by apply logs_silent|done]. Qed.
Lemma logs_of_result {A} (r : result E A) (Q : A → Prop) : (∀ a, r = Ok a → Q a) → logs (of_result r) [] Q.
Proof using Equivalence0. intros H. by apply succeeds_of_result; split; [|apply H]. Qed.

Lemma logs_on_error {A} cleanup (m : traced W Ev E A) K Q : logs m K Q → logs (on_error cleanup m) K Q.
Proof using Type. apply succeeds_on_error. Qed.
Lemma logs_finally {A} cleanup (m : traced W Ev E A) K Q :
  only (λ e, mark e = None) cleanup → logs m K Q → logs (finally cleanup m) K Q.
Proof using Type*.
  intros Hc Hm. rewrite <-(app_nil_r K). eapply logs_bind; [by apply logs_on_error|]. intros a Ha.
  apply logs_after; [done|]. intros []. by apply logs_ret.
Qed.

Lemma logs_fold {A S} (f : S → A → traced W Ev E S) (K : A → list M) (Q : nat → S → Prop) l s n :
  Q n s → (∀ n s a, Q n s → logs (f s a) (K a) (Q (1 + n))) → logs (fold_each l f s) (l ≫= K) (Q (n + length l)).
Proof using Type*.
  intros H0 Hf. revert s n H0. induction l as [|a l IH]; intros s n H0; cbn [fold_each].
  - apply logs_ret. by rewrite Nat.add_0_r.
  - cbn [length]. rewrite <-Nat.add_succ_comm. eapply (logs_bind _ _ (K a)); [by apply Hf|]. intros s' Hs'. by apply IH.
Qed.
Lemma logs_each {A} (f : A → traced W Ev E unit) (K : A → list M) l :
  (∀ a, logs (f a) (K a) (λ _, True)) → logs (each l f) (l ≫= K) (λ _, True).
Proof using Type*.
  intros Hf. induction l as [|a l IH]; cbn [each]; [by apply logs_ret|].
  by apply (logs_bind _ _ (K a) _ (λ _, True)).
Qed.
End logs.

(** ** Ownership

    [up] and [down] select the events that acquire and release something.
    [flow H0 m H He]: a run of [m] that starts owning [H0] ends owning [H a]
    when it returns [a] and [He] when it fails. A failure in [void] is one that
    does not happen. *)

Section flow.
Context {W Ev E H : Type} (up down : Ev → option H) (void : E → bool).
Implicit Types l : list Ev.

Definition owned {A} (h : A → list H) (he : list H) (r : result E A) : list H :=
  match r with Ok a => h a | Err _ => he end.
Definition is_void {A} (r : result E A) : Prop := match r with Ok _ => False | Err e => void e = true end.

Definition flow {A} (H0 : list H) (m : traced W Ev E A) (h : A → list H) (he : list H) : Prop :=
  yields m (λ r l, is_void r ∨ omap up l ++ H0 ≡ₚ omap down l ++ owned h he r).

Lemma flow_mono {A} H0 H0' (m : traced W Ev E A) h h' he he' :
  flow H0 m h he → H0' ≡ₚ H0 → (∀ a, h a ≡ₚ h' a) → he ≡ₚ he' → flow H0' m h' he'.
Proof.
  intros Hm E0 Eh Ee. eapply yields_mono; [exact Hm|]. cbn. intros r l [Hv|Hl]; [by left|right].
  rewrite E0, Hl. destruct r; cbn; by rewrite ?Eh, ?Ee.
Qed.

Lemma flow_ret {A} (a : A) h he : flow (h a) (mret a) h he.
Proof. apply yields_ret. by right. Qed.
Lemma flow_raise {A} e (h : A → list H) he : flow he (raise e) h he.
Proof. apply yields_raise. by right. Qed.

Lemma flow_bind_if {A B} H0 (m : traced W Ev E A) (f : A → traced W Ev E B) (Q : A → Prop) h1 h he :
  flow H0 m h1 he → succeeds m (λ a _, Q a) → (∀ a, Q a → flow (h1 a) (f a) h he) → flow H0 (m ≫= f) h he.
Proof.
  intros Hm Hs Hf. eapply (yields_bind _ _ (λ r l, (is_void r ∨ omap up l ++ H0 ≡ₚ omap down l ++ owned h1 he r) ∧
    ∀ a, r = Ok a → Q a)).
  - intros w. split; [apply Hm|apply Hs].
  - cbn. intros a l [[[]|Hl] Ha]. eapply yields_mono; [by apply Hf, Ha|]. cbn. intros r l' [Hv|Hl']; [by left|right].
    rewrite !omap_app, (Permutation_app_comm (omap up l)), <-app_assoc, Hl.
    rewrite <-app_assoc, <-Hl'. solve_Permutation.
  - by intros e l [Hv _].
Qed.

Lemma flow_bind {A B} H0 (m : traced W Ev E A) (f : A → traced W Ev E B) h1 h he :
  flow H0 m h1 he → (∀ a, flow (h1 a) (f a) h he) → flow H0 (m ≫= f) h he.
Proof. intros Hm Hf. eapply (flow_bind_if _ _ _ (λ _, True)); [done|by intros w|by intros a _]. Qed.

(** What a drop releases, which never fails. *)
Definition cleans (H0 : list H) (m : traced W Ev E unit) (he : list H) : Prop :=
  yields m (λ r l, r = Ok () ∧ omap up l ++ H0 ≡ₚ omap down l ++ he).

Lemma cleans_flow H0 m he he' : cleans H0 m he → flow H0 m (λ _, he) he'.
Proof. intros Hm. eapply yields_mono; [exact Hm|]. cbn. intros r l [-> Hl]. by right. Qed.
Lemma cleans_ret H0 : cleans H0 (mret ()) H0.
Proof. by apply yields_ret. Qed.
Lemma cleans_bind H0 m f h1 h : cleans H0 m h1 → cleans h1 (f ()) h → cleans H0 (m ≫= f) h.
Proof.
  intros Hm Hf. eapply yields_bind; [exact Hm| |by intros e l [? _]].
  cbn. intros [] l [_ Hl]. eapply yields_mono; [apply Hf|]. cbn. intros r l' [-> Hl']. split; [done|].
  rewrite !omap_app, (Permutation_app_comm (omap up l)), <-app_assoc, Hl.
  rewrite <-app_assoc, <-Hl'. solve_Permutation.
Qed.
Lemma cleans_each {A} (l : list A) f (h : A → list H) H0 :
  (∀ a H0, cleans (h a ++ H0) (f a) H0) → cleans ((l ≫= h) ++ H0) (each l f) H0.
Proof.
  intros Hf. induction l as [|a l IH]; cbn [each]; [apply cleans_ret|].
  eapply cleans_bind; [|apply IH]. cbn. rewrite <-app_assoc. apply Hf.
Qed.
Lemma cleans_perm H0 H0' m h : cleans H0 m h → H0' ≡ₚ H0 → cleans H0' m h.
Proof. intros Hm E0. eapply yields_mono; [exact Hm|]. cbn. intros r l [-> Hl]. by rewrite E0. Qed.

Lemma flow_on_error {A} H0 cleanup (m : traced W Ev E A) h he' he :
  flow H0 m h he' → cleans he' cleanup he → flow H0 (on_error cleanup m) h he.
Proof.
  intros Hm Hc w. specialize (Hm w). unfold on_error. destruct (m w) as [[[a|e] l] w1]; cbn in Hm; [done|].
  specialize (Hc w1). destruct (cleanup w1) as [[u l'] w2]. cbn in *. destruct Hm as [Hv|Hl]; [by left|].
  right. destruct Hc as [_ Hl']. rewrite !omap_app, (Permutation_app_comm (omap up l)), <-app_assoc, Hl.
  rewrite <-app_assoc, <-Hl'. solve_Permutation.
Qed.
Lemma flow_finally {A} H0 cleanup (m : traced W Ev E A) h0 he :
  flow H0 m (λ _, h0) h0 → cleans h0 cleanup he → flow H0 (finally cleanup m) (λ _, he) he.
Proof.
  intros Hm Hc. eapply flow_bind; [by eapply flow_on_error|]. intros a. cbn.
  eapply flow_bind; [by apply cleans_flow|]. intros []. apply (flow_ret a (λ _, he)).
Qed.

(** A program that acquires and releases nothing. *)
Lemma flow_only {A} H0 (m : traced W Ev E A) :
  only (λ e, up e = None ∧ down e = None) m → flow H0 m (λ _, H0) H0.
Proof.
  intros Hm. eapply yields_mono; [exact Hm|]. cbn. intros r l Hl. right.
  assert (omap up l = [] ∧ omap down l = []) as [-> ->].
  { induction Hl as [|e l [Hu Hd] _ IH]; [done|]. cbn. by rewrite Hu, Hd. }
  by destruct r.
Qed.
Lemma flow_each {A} (l : list A) f H0 : (∀ a, flow H0 (f a) (λ _, H0) H0) → flow H0 (each l f) (λ _, H0) H0.
Proof.
  intros Hf. induction l as [|a l IH]; cbn [each]; [apply (flow_ret () (λ _, H0))|]. by eapply flow_bind.
Qed.
Lemma flow_fold {A S} (l : list A) (f : S → A → traced W Ev E S) (h : S → list H) he s :
  (∀ s a, flow (h s) (f s a) h he) → flow (h s) (fold_each l f s) h he.
Proof.
  intros Hf. revert s. induction l as [|a l IH]; intros s; cbn [fold_each]; [apply flow_ret|]. by eapply flow_bind.
Qed.
End flow.

(** ** Failures that do not happen *)

Section avoids.
Context {W Ev E : Type} (e0 : E).

Definition avoids {A} (m : traced W Ev E A) : Prop := yields m (λ r _, r ≠ Err e0).

Lemma avoids_ret {A} (a : A) : avoids (mret a).
Proof. by apply yields_ret. Qed.
Lemma avoids_raise {A} e : e ≠ e0 → avoids (raise (A:=A) e).
Proof. intros He. apply yields_raise. congruence. Qed.
Lemma avoids_of_result {A} (r : result E A) : r ≠ Err e0 → avoids (of_result r).
Proof. intros. by apply yields_of_result. Qed.
Lemma avoids_ask {A} (f : W → A * W) : avoids (ask f).
Proof. by apply yields_ask. Qed.
Lemma avoids_tell f : avoids (tell f).
Proof. by apply yields_tell. Qed.
Lemma avoids_event e : avoids (event e).
Proof. by apply yields_event. Qed.
Lemma avoids_bind_if {A B} (m : traced W Ev E A) (f : A → traced W Ev E B) (Q : A → Prop) :
  avoids m → succeeds m (λ a _, Q a) → (∀ a, Q a → avoids (f a)) → avoids (m ≫= f).
Proof.
  intros Hm Hs Hf. eapply (yields_bind _ _ (λ r _, r ≠ Err e0 ∧ ∀ a, r = Ok a → Q a)).
  - intros w. split; [apply Hm|apply Hs].
  - cbn. intros a l [_ Ha]. eapply yields_mono; [by apply Hf, Ha|done].
  - cbn. intros e l [He _]. congruence.
Qed.
Lemma avoids_bind {A B} (m : traced W Ev E A) (f : A → traced W Ev E B) :
  avoids m → (∀ a, avoids (f a)) → avoids (m ≫= f).
Proof.
  intros Hm Hf. eapply avoids_bind_if with (Q := λ _, True); [done| |by intros a _]. eapply yields_mono; [exact Hm|done].
Qed.
Lemma avoids_on_error {A} cleanup (m : traced W Ev E A) : avoids m → avoids (on_error cleanup m).
Proof. intros Hm. eapply (yields_on_error _ _ _ (λ _, True)); [exact Hm|done|done|by cbn; congruence]. Qed.
Lemma avoids_each {A} (l : list A) f : (∀ a, avoids (f a)) → avoids (each l f).
Proof. intros Hf. induction l; cbn [each]; [apply avoids_ret|by apply avoids_bind]. Qed.
Lemma avoids_fold {A S} (l : list A) (f : S → A → traced W Ev E S) s : (∀ s a, avoids (f s a)) → avoids (fold_each l f s).
Proof. intros Hf. revert s. induction l; intros s; cbn [fold_each]; [apply avoids_ret|by apply avoids_bind]. Qed.
End avoids.

Ltac avoids_step :=
  match goal with
  | |- avoids _ (mbind _ _) => apply avoids_bind; [|intros ?]
  | |- avoids _ (mret _) => apply avoids_ret
  | |- avoids _ (raise _) => by apply avoids_raise
  | |- avoids _ (ask _) => apply avoids_ask
  | |- avoids _ (tell _) => apply avoids_tell
  | |- avoids _ (event _) => apply avoids_event
  | |- avoids _ (on_error _ _) => apply avoids_on_error
  | |- avoids _ (finally _ _) => unfold finally
  | |- avoids _ (each _ _) => apply avoids_each; intros ?
  | |- avoids _ (fold_each _ _ _) => apply avoids_fold; intros ? ?
  | |- avoids _ (let _ := _ in _) => cbv zeta
  | |- avoids _ (if ?b then _ else _) => destruct b
  | |- avoids _ (match ?x with _ => _ end) => destruct x
  end.
Ltac avoids_auto := repeat (avoids_step || (by eauto with traced)); try (by eauto with traced).
