(* ===== verification/TestTrust.v ===== *)
(** The upstream trust anchor of test builds (src/proxy_runtime/test_trust.rs).

    [integration] is the flag [baffle_integration_test] of the build and [test]
    says that it is a test build; a production build has neither. *)

From S2P Require Import Prelude RustStr RustPath PosixFs CertAuthority.
From stdpp Require Import options.
Local Open Scope char_scope.

(** The struct has its field only in test builds: elsewhere it is [None]. *)
Record TestUpstreamTrust := mkTestUpstreamTrust { anchor_der : option str }.
Definition no_trust : TestUpstreamTrust := mkTestUpstreamTrust None.
Definition trust_from_der (der : str) : TestUpstreamTrust := mkTestUpstreamTrust (Some der).

Inductive trust_error := TrustUnreadable | TrustUnparsed | TrustNotOneCertificate.

Section trust.
Context `{CaCrypto} (integration test : bool).

(** [env] gives the variable's bytes, [read] the content of a file. *)
Definition trust_from_environment (env read : str → option str) : result trust_error TestUpstreamTrust :=
  if negb integration then Ok no_trust else
  match env (lit "BAFFLE_TEST_UPSTREAM_CA") with
  | None => Ok no_trust
  | Some path =>
      pem ← ok_or (read path) TrustUnreadable;
      '(remainder, certificate) ← ok_or (parse_x509_pem pem) TrustUnparsed;
      if negb (str_eqb (pem_label certificate) (lit "CERTIFICATE")) || negb (forallb is_ascii_whitespace remainder)
      then Err TrustNotOneCertificate
      else Ok (trust_from_der (pem_contents certificate))
  end.

Definition trust_certificate (self : TestUpstreamTrust) : option str :=
  if test || integration then anchor_der self else None.

(** The anchor is added exactly when an integration build is pointed at a file
    with one certificate, and is then that certificate; in particular a build
    without the flag never has one. *)
Lemma trust_anchor_exact env read der :
  trust_from_environment env read ≫= (λ self, Ok (trust_certificate self)) = Ok (Some der) ↔
  integration = true ∧ ∃ path pem remainder certificate,
    env (lit "BAFFLE_TEST_UPSTREAM_CA") = Some path ∧ read path = Some pem ∧
    parse_x509_pem pem = Some (remainder, certificate) ∧ pem_label certificate = lit "CERTIFICATE" ∧
    forallb is_ascii_whitespace remainder = true ∧ pem_contents certificate = der.
Proof using Type.
  unfold trust_from_environment, trust_certificate. destruct integration; cbn [negb].
  2: { rewrite orb_false_r. destruct test; cbn; naive_solver. }
  rewrite orb_true_r. split.
  - intros Hr. split; [done|]. destruct (env _) as [path|]; [|by cbn in Hr].
    destruct (read path) as [pem|] eqn:Hp; [|by cbn in Hr]. destruct (parse_x509_pem pem) as [[rest c]|] eqn:Hc; [|by cbn in Hr; rewrite Hc in Hr].
    cbn in Hr. rewrite Hc in Hr. cbn in Hr. destruct (_ || _) eqn:Hb; cbn in Hr; [done|]. bool_prop. simplify_eq.
    unfold str_eqb in *. bool_prop. naive_solver.
  - intros (_ & path & pem & rest & c & -> & Hr & Hc & Hl & Hw & <-). cbn. rewrite Hr. cbn. rewrite Hc. cbn.
    unfold str_eqb. by rewrite bool_decide_eq_true_2, Hw by done.
Qed.
End trust.
