(* ===== verification/BenchTrials.v ===== *)
(** The trials of the runtime benchmark (bench/runtime.rs): what it starts,
    measures and reports, and in which order.

    The programs run in the monad of [Traced]. The class [BenchWorld] is what
    they see of the machine: clock, files, the proxy runtimes, connections with
    their TLS and HTTP/2 stacks, origins, and the task scheduler; each of its
    operations returns (the source has no timeouts on them). Durations are in
    nanoseconds. The bytes on a connection are those of [RuntimeBench]. *)

From S2P Require Import Prelude RustStr RustPath PolicyTypes DnsName SessionDoc SessionPolicy Secrets ProxyRuntime AsyncIo.
From S2P Require Import CertAuthority DaemonConfig TestTrust Numerals MeasureSessions RuntimeBench Traced.
From stdpp Require Import options.
Local Open Scope char_scope.

(** ** Errors *)

(** An error of [RuntimeBench], a runtime that does not start (its socket path
    may exist already), one with the text another library gives it, an HTTP/2
    status, TLS material that is not accepted, a task that panicked, and a
    panic. [Stuck] is a bound of the model that is never met. *)
Inductive trial_error :=
| Bench (e : bench_error)
| Refused (already_exists : bool) (e : ProxyRuntimeError)
| Other (text : str)
| UnexpectedStatus (message : str) (status : N)
| TlsUnusable
| TaskPanicked
| Panicked (message : str)
| Stuck.

(** [impl Display for ProxyRuntimeError] *)
Definition runtime_error_display (already_exists : bool) (e : ProxyRuntimeError) : str :=
  match e with
  | BindSocket => if already_exists then lit "proxy Unix socket path already exists" else lit "could not bind proxy Unix socket"
  | CredentialSeedError => lit "could not create credential seed"
  | Build => lit "could not build proxy"
  | Run => lit "proxy runtime failed"
  | Task => lit "proxy runtime task failed"
  end.

(** The texts that are not the program's: of the other errors, of a string in
    its debug form, of a status with its reason, and of a panicked task. *)
Record bench_texts := mkBenchTexts {
  bt_error : trial_error → str; bt_debug : str → str; bt_status : N → str; bt_join : str }.
Definition error_text (texts : bench_texts) (e : trial_error) : str :=
  match e with
  | Bench (BenchSaid message) => message
  | Bench (BenchStatus message status) => message ++ bt_debug texts status
  | UnexpectedStatus message status => message ++ bt_status texts status
  | Bench _ | TlsUnusable => bt_error texts e
  | Refused already_exists e => runtime_error_display already_exists e
  | Other text => text
  | TaskPanicked => bt_join texts
  | Panicked message => message
  | Stuck => []
  end.
Definition unwinds (e : trial_error) : bool :=
  match e with Panicked _ | Bench BenchAborted | Stuck => true | _ => false end.

(** ** The world *)

(** What an origin serves: HTTP/1.1 with bodies of a length, or HTTP/2. *)
Inductive origin_kind := Http1Origin (response_body_bytes : N) | Http2Origin.
(** [OriginMaterial]: the certificate and key it serves with, and its root. *)
Record OriginMaterial := mkOriginMaterial { om_leaf : str; om_key : str; om_root_der : str }.
Record h2_request := mkH2Request { h2_method : str; h2_uri : str; h2_headers : list (str * str) }.

Class BenchWorld (W conn : Type) `{CaCrypto} := {
  bw_now : W → N * W;
  bw_sleep : N → W → W;
  bw_getrusage : W → Prelude.result str (N * N * (N * N)) * W;
  bw_read : str → W → Prelude.result str str * W;
  bw_exists : str → W → bool * W;
  bw_create_dir_all : str → W → Prelude.result str unit * W;
  bw_write : str → str → bool → W → Prelude.result str unit * W;
  bw_copy : str → str → W → Prelude.result str unit * W;
  bw_set_permissions : str → N → W → Prelude.result str unit * W;
  bw_eprint : str → W → bool * W;
  bw_tempdir : W → Prelude.result str str * W;
  bw_remove_dir : str → W → W;
  bw_rustc : W → option str * W;
  bw_load_ca : CaConfig → W → Prelude.result str ManagedCa * W;
  bw_server_config : str → str → option str;
  (* runtimes: the error says whether the path existed *)
  bw_start : ProxyRuntimeOptions → ManagedCa → TestUpstreamTrust → W → Prelude.result bool unit * W;
  bw_shutdown : Runtime → N → W → W;
  bw_drop_runtime : Runtime → W → W;
  (* connections: what is written and what arrives, and the other stacks *)
  bw_connect : str → W → Prelude.result str conn * W;
  bw_io : conn → W → (writer * input) * W;
  bw_after : conn → writer → option input → W → W;
  bw_tls_connect : conn → str → str → W → Prelude.result str unit * W;
  bw_drop_conn : conn → W → W;
  bw_h2_handshake : conn → W → Prelude.result str unit * W;
  bw_h2_ready : conn → W → Prelude.result str unit * W;
  bw_h2_send : conn → h2_request → W → Prelude.result str N * W;
  bw_can_allocate : N → bool;
  (* origins, by listener *)
  bw_listen : W → Prelude.result str N * W;
  bw_local_port : N → W → Prelude.result str N * W;
  bw_serve : N → OriginMaterial → origin_kind → W → W;
  bw_load_requests : N → W → N * W;
  bw_load_credentials : N → W → N * W;
  bw_abort : N → W → W;
  (* the scheduler: whether a task panics, how often other tasks run before
     one is awaited, which of so many runs *)
  bw_task_panics : W → bool * W;
  bw_wakes : W → nat * W;
  bw_pick : nat → W → nat * W;
}.

Record Origin := mkBenchOrigin { or_listener : N; or_port : N }.

Inductive bench_event (conn : Type) :=
| BenchRow (kind : str) (trial index : N) (metric value : str)
| DirUp (path : str) | DirDown (path : str)
| RuntimeUp (r : Runtime) | RuntimeDown (r : Runtime) | RuntimeDropped (r : Runtime)
| ClientUp (c : conn) | ClientDown (c : conn)
| Answered (c : conn)
| OriginUp (o : Origin) | OriginDown (o : Origin)
| SawRequests (o : Origin) (n : N) | SawCredentials (o : Origin) (n : N).
Arguments BenchRow {conn}. Arguments DirUp {conn}. Arguments DirDown {conn}. Arguments RuntimeUp {conn}.
Arguments RuntimeDown {conn}. Arguments RuntimeDropped {conn}. Arguments ClientUp {conn}. Arguments ClientDown {conn}.
Arguments Answered {conn}. Arguments OriginUp {conn}. Arguments OriginDown {conn}. Arguments SawRequests {conn}.
Arguments SawCredentials {conn}.

(** ** Socket addresses *)

(** [read_groups] of [DnsName] with the groups it reads. *)
Fixpoint group_values (left i : nat) (s : str) : list N * bool * str :=
  match left with
  | O => ([], false, s)
  | S left' =>
      let ipv4 := match left' with O => None | S _ => read_separator ":" i read_ipv4_addr s end in
      match ipv4 with
      | Some (octets, s') =>
          (match octets with [a; b; c; d] => [a * 256 + b; c * 256 + d]%N | _ => [] end, true, s')
      | None =>
          match read_separator ":" i (read_number 16 4 true 65535) s with
          | Some (g, s') => let '(gs, v4, rest) := group_values left' (S i) s' in (g :: gs, v4, rest)
          | None => ([], false, s)
          end
      end
  end.

Definition read_ipv6_groups (s : str) : option (list N * str) :=
  let '(head, head_ipv4, s1) := group_values 8 0 s in
  if (length head =? 8)%nat then Some (head, s1)
  else if head_ipv4 : bool then None
  else
    s2 ← read_given_char ":" s1; s3 ← read_given_char ":" s2;
    let '(tail, _, s4) := group_values (8 - (length head + 1)) 0 s3 in
    Some (head ++ replicate (8 - length head - length tail) 0%N ++ tail, s4).

Definition read_port (s : str) : option (N * str) :=
  s' ← read_given_char ":" s; read_number 10 (length s') true 65535 s'.

(** [%] and a number; without the sign, nothing is read. *)
Definition read_scope_id (s : str) : option str :=
  match read_given_char "%" s with
  | None => Some s
  | Some s' => '(_, rest) ← read_number 10 (length s') true 4294967295 s'; Some rest
  end.

Definition at_end {A} (r : option (A * str)) : option A :=
  '(a, rest) ← r; if str_eqb rest [] then Some a else None.

(** [parse::<SocketAddr>]: whether the address is a loopback one, and the
    port. *)
Definition parse_socket_addr (s : str) : option (bool * N) :=
  match '(octets, s1) ← read_ipv4_addr s; '(port, s2) ← read_port s1;
        Some ((bool_decide (head octets = Some 127%N), port), s2) with
  | Some (address, rest) => at_end (Some (address, rest))
  | None => at_end (
      s1 ← read_given_char "[" s; '(groups, s2) ← read_ipv6_groups s1; s3 ← read_scope_id s2;
      s4 ← read_given_char "]" s3; '(port, s5) ← read_port s4;
      Some ((bool_decide (groups = replicate 7 0%N ++ [1%N]), port), s5))
  end.

Example parse_socket_addr_ex :
  parse_socket_addr <$> [lit "127.0.0.1:8443"; lit "10.0.0.1:1"; lit "[::1]:443"; lit "[fe80::1%3]:80"; lit "127.0.0.1"; lit "[::1]:65536"; lit "127.0.0.1:1x"] =
  [Some (true, 8443); Some (false, 1); Some (true, 443); Some (false, 80); None; None; None]%N.
Proof. by vm_compute. Qed.

(** ** Origins *)

(** What [listener.accept] and the accepted socket give the accept loop: an
    error, or whether [set_nodelay] and the TLS handshake succeed and what is
    then exchanged. *)
Inductive accepted := AcceptFailed | Accepted (nodelay handshake : bool) (w : writer) (i : input).

Section origins.
Context (env : str → option str).

Definition benchmark_tcp_nodelay_mode : str :=
  default (lit "production") (env_var env (lit "BAFFLE_BENCH_TCP_NODELAY")).
Definition benchmark_tcp_nodelay_enabled (socket_leg : str) : bool :=
  str_eqb benchmark_tcp_nodelay_mode socket_leg || str_eqb benchmark_tcp_nodelay_mode (lit "all").

Context (can_allocate : N → bool) (response_body_bytes : N).

(** The counters one connection of the origin adds to. *)
Definition connection_counts (handshake : bool) (w : writer) (i : input) : N * N :=
  if negb handshake then (0, 0)%N else
  match serve_http1 can_allocate (S (length (in_bytes i))) response_body_bytes (mkOrigin 0 0 w) i with
  | Some (_, o) => (og_requests o, og_credentials o)
  | None => (0, 0)%N
  end.

(** The accept loop of [start_http1_origin]: the connections are served by
    tasks of their own, which add to shared counters. *)
Fixpoint http1_origin_task (accepts : list accepted) (requests credentials : N) : N * N :=
  match accepts with
  | [] | AcceptFailed :: _ => (requests, credentials)
  | Accepted nodelay handshake w i :: rest =>
      if benchmark_tcp_nodelay_enabled (lit "origin") && negb nodelay then (requests, credentials)
      else
        let '(r, c) := connection_counts handshake w i in
        http1_origin_task rest (requests + r) (credentials + c)
  end.

(** The service of [start_http2_origin]: [HeaderMap::get] gives the first value
    of a name, [to_str] only visible text. *)
Definition http2_origin_request (counters : N * N) (headers : list (str * str)) : N * N :=
  let token := snd <$> List.find (λ h, str_eqb h.1 (lit "x-bench-token")) headers in
  let text := token ≫= λ v, if forallb (λ c, in_range 32 126 c || bool_decide (c = "009")) v then Some v else None in
  (counters.1 + 1, if bool_decide (text = Some TOKEN) then counters.2 + 1 else counters.2)%N.
Definition http2_origin_task (requests : list (list (str * str))) : N * N := foldl http2_origin_request (0, 0)%N requests.
End origins.

Section programs.
Context {W conn : Type} `{CaCrypto, !BenchWorld W conn, Crypto, UrlHost} (texts : bench_texts).

#[local] Abbreviation B := (traced W (bench_event conn) trial_error).

Definition try_ask {A} (f : W → Prelude.result str A * W) : B A := r ← ask f; of_result (map_err Other r).
Definition clock : B N := ask bw_now.
Definition since (start : N) : B N := stop ← clock; mret (stop - start)%N.
Definition sleep_millis (ms : N) : B unit := tell (bw_sleep (ms * 1000000)).
Definition panic {A} (message : string) : B A := raise (Panicked (lit message)).
Definition unwrap {A} (o : option A) : B A := of_result (ok_or o (Panicked (lit "index out of bounds"))).

(** [match m { Err(error) => .., Ok(..) => .. }]: a panic is not caught. *)
Definition attempt {A} (m : B A) : B (Prelude.result trial_error A) := λ w,
  let '(r, l, w1) := m w in
  match r with
  | Err e => if unwinds e then (Err e, l, w1) else (Ok (Err e), l, w1)
  | Ok a => (Ok (Ok a), l, w1)
  end.

(** ** Output *)

Definition BENCH_HEADER : str := lit "kind,trial,index,metric,value" ++ ["010"].

(** [BenchOutput::new]: the file is created with the header unless it exists. *)
Definition bench_output_new (env : str → option str) : B (option str) :=
  match env (lit "BAFFLE_BENCH_RAW") with
  | None => mret None
  | Some path =>
      match parent path with Some p => try_ask (bw_create_dir_all p) | None => mret () end ≫= λ _,
      there ← ask (bw_exists path);
      (if there : bool then mret () else try_ask (bw_write path BENCH_HEADER false)) ≫= λ _,
      mret (Some path)
  end.

Definition row (output : option str) (kind : string) (trial index : N) (metric value : str) : B unit :=
  event (BenchRow (lit kind) trial index metric value) ≫= λ _,
  let text := bench_row (lit kind) trial index metric value in
  match output with
  | Some path => try_ask (bw_write path text true)
  | None => printed ← ask (bw_eprint text); if printed : bool then mret () else panic "failed printing to stderr"
  end.

Definition summary (output : option str) (metric : str) (values : list f64) : B unit :=
  median ← unwrap (percentile values f64_50);
  p95 ← unwrap (percentile values f64_95);
  let n := N.of_nat (length values) in
  row output "summary" 0 n (metric ++ lit "_median") (fixed 6 median) ≫= λ _,
  row output "summary" 0 n (metric ++ lit "_p95") (fixed 6 p95).

(** The failure is reported, then returned. *)
Definition report {A} (output : option str) (trial index : N) (metric : string) (e : trial_error) : B A :=
  row output "failure" trial index (lit metric) (error_text texts e) ≫= λ _, raise e.

(** ** Measurements *)

Definition status_rss (status : str) : Prelude.result trial_error N :=
  line ← ok_or (List.find (starts_with (lit "VmRSS:")) (lines status)) (Bench (BenchSaid (lit "VmRSS is unavailable")));
  value ← ok_or (split_whitespace line !! 1%nat) (Bench (BenchSaid (lit "VmRSS has no value")));
  ok_or (parse_uint USIZE_MAX value) (Bench BenchParse).
Definition read_rss_kib : B N := status ← try_ask (bw_read (lit "/proc/self/status")); of_result (status_rss status).

Definition cpu_time : B N :=
  usage ← try_ask bw_getrusage;
  let '((user_sec, user_usec), (system_sec, system_usec)) := usage in
  mret (cpu_time_us user_sec user_usec system_sec system_usec).

Definition rustc_version : B str :=
  stdout ← ask bw_rustc;
  mret (match stdout with Some s => trim_unicode (to_string_lossy s) | None => lit "unavailable" end).

(** ** Fixtures *)

(** [CARGO_MANIFEST_DIR] of the build. *)
Context (manifest_dir : str).
Definition fixture (name : string) : str := path_join (path_join manifest_dir (lit "bench/fixtures")) (lit name).

Definition managed_ca (directory : str) : B ManagedCa :=
  let certificate_path := path_join directory (lit "baffle-bench-ca.pem") in
  let key_path := path_join directory (lit "baffle-bench-ca-key.pem") in
  try_ask (bw_copy (fixture "baffle-ca.pem") certificate_path) ≫= λ _,
  try_ask (bw_copy (fixture "baffle-ca-key.pem") key_path) ≫= λ _,
  try_ask (bw_set_permissions key_path 384) ≫= λ _,
  try_ask (bw_load_ca (mkCaConfig certificate_path key_path)).

(** [tls_material]: the CA's certificate for the clients, and what the origin
    serves with. [bw_server_config] gives the key's DER when the TLS library
    accepts it with the certificate. *)
Definition tls_material (ca : ManagedCa) : B (str * OriginMaterial) :=
  '(_, baffle_ca) ← of_result (ok_or (parse_x509_pem (mc_public_certificate_pem ca)) TlsUnusable);
  root_pem ← try_ask (bw_read (fixture "origin-root.pem"));
  leaf_pem ← try_ask (bw_read (fixture "origin-leaf.pem"));
  key_pem ← try_ask (bw_read (fixture "origin-leaf-key.pem"));
  '(_, root) ← of_result (ok_or (parse_x509_pem root_pem) TlsUnusable);
  '(_, leaf) ← of_result (ok_or (parse_x509_pem leaf_pem) TlsUnusable);
  _ ← of_result (if from_utf8 key_pem then ok_or (key_pair_from_pem key_pem) TlsUnusable else Err TlsUnusable);
  key ← of_result (ok_or (bw_server_config (pem_contents leaf) key_pem) TlsUnusable);
  mret (pem_contents baffle_ca, mkOriginMaterial (pem_contents leaf) key (pem_contents root)).

(** A session, as [expect] gives it. *)
Definition expect_session {E} (r : Prelude.result E SessionConfig) : B SessionConfig :=
  match r with Ok session => mret session | Err _ => panic "benchmark session policy should parse" end.

(** ** Runtimes *)

Context (credential_seed : CredentialSeed).

(** What does not change over the runtimes of one run. *)
Record bench := mkBench { be_ca : ManagedCa; be_trust : TestUpstreamTrust; be_dir : str }.

Definition bench_secrets : ResolvedSecrets := {[ lit "benchmark-token" := TOKEN ]}.
Definition runtime_options (id : str) (session : SessionConfig) (socket_path : str) : ProxyRuntimeOptions :=
  mkProxyRuntimeOptions id session bench_secrets credential_seed socket_path 128 1.

Definition start_runtime (b : bench) (id : str) (session : SessionConfig) (socket_path : str) : B Runtime :=
  let options := runtime_options id session socket_path in
  bound ← ask (bw_start options (be_ca b) (be_trust b));
  match start_with_options (is_ok bound) options with
  | Err e => raise (Refused (match bound with Err there => there | Ok _ => false end) e)
  | Ok r => event (RuntimeUp r) ≫= λ _, mret r
  end.

Definition shutdown_runtime (r : Runtime) : B unit :=
  tell (bw_shutdown r (2 * NANOS_PER_SEC)) ≫= λ _, event (RuntimeDown r).
Definition drop_runtime (r : Runtime) : B unit := tell (bw_drop_runtime r) ≫= λ _, event (RuntimeDropped r).

(** A runtime that is shut down at the end and dropped by an early return. *)
Definition with_runtime {A} (start : B Runtime) (body : Runtime → B A) : B A :=
  r ← start; a ← on_error (drop_runtime r) (body r); shutdown_runtime r ≫= λ _, mret a.

(** ** Clients *)

Definition drop_client (c : conn) : B unit := tell (bw_drop_conn c) ≫= λ _, event (ClientDown c).

(** Run an exchange of [RuntimeBench] on what the connection takes and gives. *)
Definition exchange (c : conn) (f : writer → input → option (Prelude.result bench_error input) * writer) : B unit :=
  io ← ask (bw_io c);
  let '(r, w) := f io.1 io.2 in
  match r with
  | None => raise Stuck
  | Some (Err e) => tell (bw_after c w None) ≫= λ _, raise (Bench e)
  | Some (Ok rest) => tell (bw_after c w (Some rest))
  end.

Definition tls_over_connect (proxy authority root_der alpn : str) : B conn :=
  c ← try_ask (bw_connect proxy);
  event (ClientUp c) ≫= λ _,
  on_error (drop_client c) (
    exchange c (λ w i, connect_proxy w authority i) ≫= λ _, try_ask (bw_tls_connect c root_der alpn)) ≫= λ _,
  mret c.
Definition http1_client (proxy authority root_der : str) : B conn :=
  tls_over_connect proxy authority root_der (lit "http/1.1").

Definition send_request (c : conn) (authority : str) (request_body_bytes : N) : B unit :=
  exchange c (λ w i, send_http1_request bw_can_allocate w authority request_body_bytes i) ≫= λ _, event (Answered c).

(** A client that lives for one trial. *)
Definition with_client {A} (open : B conn) (body : conn → B A) : B A := c ← open; finally (drop_client c) (body c).

(** ** Sets of tasks

    A [JoinSet] of jobs of type [J] that end with a [V]. A job runs in steps;
    [ready] says which jobs can run, the scheduler picks one of them. *)

Section join_set.
Context {J V : Type}.

(** How a task ended: with a result, or with a panic. *)
Definition task_result : Type := option (Prelude.result trial_error V).
Record join_set := mkJoinSet { js_running : list J; js_done : list task_result }.

Context (step : J → B (J + task_result)) (ready : list J → J → bool) (weight : J → nat).
Context (drop_job : J → B unit) (drop_value : V → B unit).

Definition ready_jobs (running : list J) : list nat :=
  filter (λ i, match running !! i with Some j => ready running j | None => false end = true) (seq 0 (length running)).

(** The set after a step of its task at [i]. *)
Definition advance (s : join_set) (i : nat) (after : J + task_result) : join_set :=
  match after with
  | inl j' => mkJoinSet (<[i := j']> (js_running s)) (js_done s)
  | inr v => mkJoinSet (delete i (js_running s)) (js_done s ++ [v])
  end.

Definition poll (s : join_set) : B join_set :=
  let candidates := ready_jobs (js_running s) in
  n ← ask (bw_pick (length candidates));
  match candidates !! (n mod length candidates)%nat with
  | None => mret s
  | Some i =>
      match js_running s !! i with
      | None => mret s
      | Some j =>
          after ← step j; mret (advance s i after)
      end
  end.

Fixpoint polls (n : nat) (s : join_set) : B join_set :=
  match n with 0 => mret s | S n => poll s ≫= polls n end.

(** Until a task has ended, or there is none. *)
Fixpoint poll_until_done (fuel : nat) (s : join_set) : B join_set :=
  match js_done s, js_running s with
  | _ :: _, _ | [], [] => mret s
  | [], _ :: _ => match fuel with 0 => raise Stuck | S fuel => poll s ≫= poll_until_done fuel end
  end.

Definition total_weight (s : join_set) : nat := sum_list (weight <$> js_running s).

Definition drop_task (v : task_result) : B unit := match v with Some (Ok a) => drop_value a | _ => mret () end.
(** Dropping the set: running tasks are aborted, results dropped. *)
Definition drop_join_set (s : join_set) : B unit := each (js_running s) drop_job ≫= λ _, each (js_done s) drop_task.

Definition join_next (s : join_set) : B (option task_result * join_set) :=
  wakes ← ask bw_wakes;
  s ← polls wakes s;
  s ← poll_until_done (total_weight s) s;
  mret (match js_done s with
        | [] => (None, s)
        | v :: rest => (Some v, mkJoinSet (js_running s) rest)
        end).

(** [while let Some(result) = set.join_next().await { .. }], which carries a
    local that an early return drops before the set. *)
Fixpoint join_all {A} (take : A → task_result → B A) (drop_acc : A → B unit) (fuel : nat) (s : join_set) (acc : A)
    : B A :=
  match fuel with
  | 0 => raise Stuck
  | S fuel =>
      next ← join_next s;
      match next with
      | (None, _) => mret acc
      | (Some v, s) =>
          acc ← on_error (drop_acc acc ≫= λ _, drop_join_set s) (take acc v);
          join_all take drop_acc fuel s acc
      end
  end.

Definition join_spawned {A} (take : A → task_result → B A) (drop_acc : A → B unit) (jobs : list J) (acc : A) : B A :=
  join_all take drop_acc (S (length jobs)) (mkJoinSet jobs []) acc.
End join_set.

(** The body of a task: its panic ends the task. *)
Definition in_task {A} (m : B A) : B (option (Prelude.result trial_error A)) := λ w,
  let '(panics, w) := bw_task_panics w in
  if panics : bool then (Ok None, [], w) else
  let '(r, l, w1) := m w in
  match r with
  | Err Stuck => (Err Stuck, l, w1)
  | Err e => (Ok (if unwinds e then None else Some (Err e)), l, w1)
  | Ok a => (Ok (Some (Ok a)), l, w1)
  end.
(** [result??] *)
Definition task_value {V} (v : option (Prelude.result trial_error V)) : Prelude.result trial_error V :=
  match v with Some r => r | None => Err TaskPanicked end.

(** ** Starting and stopping *)

Definition numbered (name : string) (ns : list N) : str := lit name ++ join (lit "-") (dec <$> ns).
Definition socket (b : bench) (name : string) (ns : list N) : str := path_join (be_dir b) (numbered name ns ++ lit ".sock").
Definition ms3 (d : N) : str := fixed 3 (as_millis_f64 d).

(** One round of the first loop; the state is [startup_ms] and [teardown_ms]. *)
Definition startup_trial (b : bench) (output : option str) (session : SessionConfig) (acc : list f64 * list f64)
    (trial : N) : B (list f64 * list f64) :=
  let socket_path := socket b "startup-" [trial] in
  started ← clock;
  runtime ← start_runtime b (numbered "bench-startup-" [trial]) session socket_path;
  start_elapsed ← since started;
  stopped ← clock;
  shutdown_runtime runtime ≫= λ _,
  stop_elapsed ← since stopped;
  retained ← ask (bw_exists socket_path);
  if retained : bool then
    row output "failure" trial 0 (lit "startup_teardown") (lit "socket retained") ≫= λ _,
    raise (Bench (BenchSaid (lit "runtime teardown retained its Unix socket")))
  else
    row output "sample" trial 0 (lit "session_start_ms") (ms3 start_elapsed) ≫= λ _,
    row output "sample" trial 0 (lit "session_stop_ms") (ms3 stop_elapsed) ≫= λ _,
    mret (acc.1 ++ [as_millis_f64 start_elapsed], acc.2 ++ [as_millis_f64 stop_elapsed]).

Definition startup_trials (b : bench) (output : option str) (session : SessionConfig) : B unit :=
  samples ← fold_each (upto TRIALS) (startup_trial b output session) ([], []);
  summary output (lit "session_start_ms") samples.1 ≫= λ _,
  summary output (lit "session_stop_ms") samples.2.

Definition drop_runtimes (rs : list Runtime) : B unit := each rs drop_runtime.

(** The sequential half of an idle trial: [session_count] runtimes at once. *)
Definition idle_trial (b : bench) (output : option str) (session : SessionConfig) (session_count trial : N) : B unit :=
  before ← read_rss_kib;
  started ← clock;
  runtimes ← fold_each (upto session_count) (λ runtimes index,
    runtime ← on_error (drop_runtimes runtimes)
      (start_runtime b (numbered "bench-idle-" [session_count; trial; index]) session
         (socket b "idle-" [session_count; trial; index]));
    mret (runtimes ++ [runtime])) [];
  on_error (drop_runtimes runtimes) (
    create_elapsed ← since started;
    sleep_millis 100 ≫= λ _,
    after ← read_rss_kib;
    row output "sample" trial session_count (lit "sequential_runtime_create_ms") (ms3 create_elapsed) ≫= λ _,
    row output "sample" trial session_count (lit "idle_process_rss_delta_kib") (dec (after - before)) ≫= λ _,
    row output "sample" trial session_count (lit "idle_rss_delta_per_session_kib")
      (fixed 3 (f64_div (f64_of_N (after - before)) (f64_of_N session_count)))) ≫= λ _,
  each runtimes shutdown_runtime.

(** A creation task of the concurrent half. *)
Definition create_job (b : bench) (session : SessionConfig) (session_count trial index : N)
    : B (N + option (Prelude.result trial_error Runtime)) :=
  ended ← in_task (start_runtime b (numbered "bench-concurrent-" [session_count; trial; index]) session
                     (socket b "concurrent-" [session_count; trial; index]));
  mret (inr ended).

Definition take_created (output : option str) (trial : N) (runtimes : list Runtime)
    (ended : option (Prelude.result trial_error Runtime)) : B (list Runtime) :=
  let n := N.of_nat (length runtimes) in
  match ended with
  | Some (Ok runtime) => mret (runtimes ++ [runtime])
  | Some (Err e) => report output trial n "concurrent_runtime_create" e
  | None => report output trial n "concurrent_runtime_task" TaskPanicked
  end.

(** The last loop of an idle trial; an early return drops the rest. *)
Fixpoint concurrent_teardown (output : option str) (trial session_count : N) (runtimes : list Runtime) : B unit :=
  match runtimes with
  | [] => mret ()
  | runtime :: rest =>
      shutdown_runtime runtime ≫= λ _,
      on_error (drop_runtimes rest) (
        retained ← ask (bw_exists (rt_socket_path runtime));
        if retained : bool then
          row output "failure" trial session_count (lit "concurrent_teardown") (lit "socket retained") ≫= λ _,
          raise (Bench (BenchSaid (lit "concurrent runtime teardown retained a Unix socket")))
        else mret ()) ≫= λ _,
      concurrent_teardown output trial session_count rest
  end.

Definition concurrent_create_trial (b : bench) (output : option str) (session : SessionConfig) (session_count trial : N)
    : B unit :=
  before ← read_rss_kib;
  concurrent_started ← clock;
  runtimes ← join_spawned (create_job b session session_count trial) (λ _ _, true) (λ _, 1) (λ _, mret ()) drop_runtime
    (take_created output trial) drop_runtimes (upto session_count) [];
  on_error (drop_runtimes runtimes) (
    create_elapsed ← since concurrent_started;
    sleep_millis 100 ≫= λ _,
    after ← read_rss_kib;
    row output "sample" trial session_count (lit "concurrent_runtime_create_wall_ms") (ms3 create_elapsed) ≫= λ _,
    row output "sample" trial session_count (lit "concurrent_idle_process_rss_delta_kib") (dec (after - before))) ≫= λ _,
  concurrent_teardown output trial session_count runtimes.

Definition idle_trials (b : bench) (output : option str) (session : SessionConfig) : B unit :=
  each [1; 2; 4; 8]%N (λ session_count, each (upto TRIALS) (λ trial,
    idle_trial b output session session_count trial ≫= λ _,
    concurrent_create_trial b output session session_count trial)).

(** ** HTTP/1.1 *)

Definition warm_up_requests (output : option str) (c : conn) (authority : str) (trial : N) (metric : string) : B unit :=
  each (upto WARMUP_REQUESTS) (λ _,
    sent ← attempt (send_request c authority REQUEST_BODY_BYTES);
    match sent with Ok _ => mret () | Err e => report output trial 0 metric e end).

(** The measured requests of one trial, with their latencies. *)
Definition measured_requests (output : option str) (c : conn) (authority : str) (trial : N) (failure : string)
    (metric : string) : B (list f64) :=
  fold_each (upto MEASURED_REQUESTS) (λ latencies request_index,
    request_started ← clock;
    sent ← attempt (send_request c authority REQUEST_BODY_BYTES);
    match sent with
    | Err e => report output trial request_index failure e
    | Ok _ =>
        elapsed ← since request_started;
        row output "latency" trial request_index (lit metric) (fixed 6 (as_millis_f64 elapsed)) ≫= λ _,
        mret (latencies ++ [as_millis_f64 elapsed])
    end) [].

Definition MIB : f64 := f64_of_N 1048576.
Definition per_second (n elapsed : N) : str := fixed 3 (f64_div (f64_of_N n) (as_secs_f64 elapsed)).
Definition mib_per_second (bytes elapsed : N) : str :=
  fixed 3 (f64_div (f64_div (f64_of_N bytes) MIB) (as_secs_f64 elapsed)).

Definition http1_trial (output : option str) (runtime : Runtime) (authority baffle_ca_der : str)
    (all_latencies : list f64) (trial : N) : B (list f64) :=
  let trial_row := λ metric value, row output "trial" trial MEASURED_REQUESTS (lit metric) value in
  rss_before_connection ← read_rss_kib;
  with_client (http1_client (rt_socket_path runtime) authority baffle_ca_der) (λ client,
    rss ← read_rss_kib;
    row output "sample" trial 1 (lit "http1_active_connection_rss_delta_kib") (dec (rss - rss_before_connection)) ≫= λ _,
    warm_up_requests output client authority trial "http1_warmup" ≫= λ _,
    started ← clock;
    trial_cpu_before ← cpu_time;
    latencies ← measured_requests output client authority trial "http1" "http1_keepalive_ms";
    total_elapsed ← since started;
    cpu ← cpu_time;
    trial_row "http1_process_cpu_us"%string (dec (cpu - trial_cpu_before)) ≫= λ _,
    median ← unwrap (percentile latencies f64_50);
    p95 ← unwrap (percentile latencies f64_95);
    trial_row "http1_median_ms"%string (fixed 6 median) ≫= λ _,
    trial_row "http1_p95_ms"%string (fixed 6 p95) ≫= λ _,
    trial_row "http1_requests_per_second"%string (per_second MEASURED_REQUESTS total_elapsed) ≫= λ _,
    trial_row "http1_mib_per_second"%string
      (mib_per_second (MEASURED_REQUESTS * (REQUEST_BODY_BYTES + RESPONSE_BODY_BYTES)) total_elapsed) ≫= λ _,
    mret (all_latencies ++ latencies)).

(** ** Origins and their counters *)

Definition start_origin (material : OriginMaterial) (kind : origin_kind) : B Origin :=
  listener ← try_ask bw_listen;
  port ← try_ask (bw_local_port listener);
  let origin := mkBenchOrigin listener port in
  tell (bw_serve listener material kind) ≫= λ _, event (OriginUp origin) ≫= λ _, mret origin.
Definition start_http1_origin (material : OriginMaterial) (response_body_bytes : N) : B Origin :=
  start_origin material (Http1Origin response_body_bytes).
Definition start_http2_origin (material : OriginMaterial) : B Origin := start_origin material Http2Origin.
Definition abort_origin (o : Origin) : B unit := tell (bw_abort (or_listener o)) ≫= λ _, event (OriginDown o).

Definition load_requests (o : Origin) : B N := ask (bw_load_requests (or_listener o)).
Definition load_credentials (o : Origin) : B N := ask (bw_load_credentials (or_listener o)).
(** The loads that are compared with what was sent. *)
Definition saw_requests (o : Origin) : B N := n ← load_requests o; event (SawRequests o n) ≫= λ _, mret n.
Definition saw_credentials (o : Origin) : B N := n ← load_credentials o; event (SawCredentials o n) ≫= λ _, mret n.

(** A counter as the index and the value of a row, which are two loads. *)
Definition counter_row (output : option str) (load : B N) (metric : string) : B unit :=
  index ← load; value ← load; row output "meta" 0 index (lit metric) (dec value).

Definition unexpected_counts (expected requests credentials : N) : str :=
  lit "expected " ++ dec expected ++ lit " origin requests with injected credentials; observed " ++ dec requests
  ++ lit " requests and " ++ dec credentials ++ lit " credentials".

(** The comparison with what was sent; [||] loads the second counter only
    when the first agrees. *)
Definition check_counts (output : option str) (o : Origin) (expected : N) (metric message : string) : B unit :=
  requests ← saw_requests o;
  agree ← (if (requests =? expected)%N then credentials ← saw_credentials o; mret (credentials =? expected)%N
           else mret false);
  if agree : bool then mret ()
  else
    requests ← load_requests o;
    credentials ← load_credentials o;
    row output "failure" 0 expected (lit metric) (unexpected_counts expected requests credentials) ≫= λ _,
    raise (Bench (BenchSaid (lit message))).

Definition http1_trials (b : bench) (output : option str) (session : SessionConfig) (origin : Origin)
    (authority baffle_ca_der : str) : B unit :=
  with_runtime (start_runtime b (lit "bench-http1") session (path_join (be_dir b) (lit "http1.sock"))) (λ runtime,
    cpu_before ← cpu_time;
    rss_before ← read_rss_kib;
    all_latencies ← fold_each (upto TRIALS) (http1_trial output runtime authority baffle_ca_der) [];
    summary output (lit "http1_request_latency_ms") all_latencies ≫= λ _,
    cpu ← cpu_time;
    row output "meta" TRIALS MEASURED_REQUESTS (lit "process_cpu_us") (dec (cpu - cpu_before)) ≫= λ _,
    rss ← read_rss_kib;
    row output "meta" TRIALS MEASURED_REQUESTS (lit "process_rss_delta_kib") (dec (rss - rss_before)) ≫= λ _,
    counter_row output (load_requests origin) "origin_requests_seen" ≫= λ _,
    counter_row output (load_credentials origin) "credentialed_origin_requests_seen" ≫= λ _,
    check_counts output origin expected_http1 "http1_fixture_validation"
      "HTTP/1.1 requests did not reach the origin with the injected credential").

(** ** Tunnels *)

Definition tunnel_trial (output : option str) (runtime : Runtime) (authority root_der : str)
    (all_latencies : list f64) (trial : N) : B (list f64) :=
  with_client (http1_client (rt_socket_path runtime) authority root_der) (λ client,
    warm_up_requests output client authority trial "tunnel_warmup" ≫= λ _,
    started ← clock;
    latencies ← measured_requests output client authority trial "tunnel_http1" "tunnel_http1_keepalive_ms";
    elapsed ← since started;
    row output "trial" trial MEASURED_REQUESTS (lit "tunnel_http1_requests_per_second")
      (per_second MEASURED_REQUESTS elapsed) ≫= λ _,
    row output "trial" trial MEASURED_REQUESTS (lit "tunnel_http1_mib_per_second")
      (mib_per_second (MEASURED_REQUESTS * (REQUEST_BODY_BYTES + RESPONSE_BODY_BYTES)) elapsed) ≫= λ _,
    mret (all_latencies ++ latencies)).

Definition tunnel_trials (b : bench) (output : option str) (origin : Origin) (authority root_der : str) : B unit :=
  session ← expect_session (tunnel_session (or_port origin));
  with_runtime (start_runtime b (lit "bench-tunnel") session (path_join (be_dir b) (lit "tunnel.sock"))) (λ runtime,
    tunnel_latencies ← fold_each (upto TRIALS) (tunnel_trial output runtime authority root_der) [];
    summary output (lit "tunnel_http1_request_latency_ms") tunnel_latencies).

(** ** HTTP/2 *)

Definition http2_request (authority : str) : h2_request :=
  mkH2Request (lit "GET") (lit "https://" ++ authority ++ lit "/allowed")
    [(lit "host", authority); (lit "x-bench-token", lit "attacker-value")].

Definition http2_status (what : string) (status : N) : B unit :=
  if (status =? 200)%N then mret () else raise (UnexpectedStatus (lit what) status).

Definition http2_warm_up (c : conn) (authority : str) : B unit :=
  each (upto WARMUP_REQUESTS) (λ _,
    try_ask (bw_h2_ready c) ≫= λ _,
    status ← try_ask (bw_h2_send c (http2_request authority));
    http2_status "HTTP/2 warm-up returned " status ≫= λ _, event (Answered c)).

Definition record_h2_trial (output : option str) (trial : N) (latencies : list f64) (elapsed : N) : B unit :=
  median ← unwrap (percentile latencies f64_50);
  row output "trial" trial MEASURED_REQUESTS (lit "http2_median_ms") (fixed 6 median) ≫= λ _,
  p95 ← unwrap (percentile latencies f64_95);
  row output "trial" trial MEASURED_REQUESTS (lit "http2_p95_ms") (fixed 6 p95) ≫= λ _,
  row output "trial" trial MEASURED_REQUESTS (lit "http2_requests_per_second") (per_second MEASURED_REQUESTS elapsed).

Definition http2_trial (output : option str) (c : conn) (authority : str) (all_latencies : list f64) (trial : N)
    : B (list f64) :=
  started ← clock;
  trial_cpu_before ← cpu_time;
  latencies ← fold_each (upto MEASURED_REQUESTS) (λ latencies request_index,
    try_ask (bw_h2_ready c) ≫= λ _,
    request_started ← clock;
    sent ← attempt (try_ask (bw_h2_send c (http2_request authority)));
    match sent with
    | Err e => report output trial request_index "http2" e
    | Ok status =>
        http2_status "HTTP/2 request returned " status ≫= λ _,
        elapsed ← since request_started;
        event (Answered c) ≫= λ _,
        row output "latency" trial request_index (lit "http2_keepalive_ms") (fixed 6 (as_millis_f64 elapsed)) ≫= λ _,
        mret (latencies ++ [as_millis_f64 elapsed])
    end) [];
  elapsed ← since started;
  record_h2_trial output trial latencies elapsed ≫= λ _,
  cpu ← cpu_time;
  row output "trial" trial MEASURED_REQUESTS (lit "http2_process_cpu_us") (dec (cpu - trial_cpu_before)) ≫= λ _,
  mret (all_latencies ++ latencies).

(** The connection's driver task ends with its sender, or is aborted. *)
Definition benchmark_http2 (output : option str) (proxy authority baffle_ca_der : str) : B (list f64) :=
  measured ← with_client (tls_over_connect proxy authority baffle_ca_der (lit "h2")) (λ c,
    try_ask (bw_h2_handshake c) ≫= λ _,
    cpu_before ← cpu_time;
    rss_before ← read_rss_kib;
    http2_warm_up c authority ≫= λ _,
    latencies ← fold_each (upto TRIALS) (http2_trial output c authority) [];
    mret (cpu_before, rss_before, latencies));
  let '(cpu_before, rss_before, latencies) := measured in
  cpu ← cpu_time;
  row output "meta" TRIALS (MEASURED_REQUESTS * TRIALS) (lit "http2_process_cpu_us") (dec (cpu - cpu_before)) ≫= λ _,
  rss ← read_rss_kib;
  row output "meta" TRIALS (MEASURED_REQUESTS * TRIALS) (lit "http2_process_rss_delta_kib") (dec (rss - rss_before)) ≫= λ _,
  mret latencies.

Definition http2_trials (b : bench) (output : option str) (material : OriginMaterial) (baffle_ca_der : str) : B Origin :=
  h2_origin ← start_http2_origin material;
  let h2_authority := bench_authority (or_port h2_origin) in
  session ← expect_session (intercept_session (or_port h2_origin));
  with_runtime (start_runtime b (lit "bench-http2") session (path_join (be_dir b) (lit "http2.sock"))) (λ runtime,
    h2_latencies ← benchmark_http2 output (rt_socket_path runtime) h2_authority baffle_ca_der;
    summary output (lit "http2_request_latency_ms") h2_latencies ≫= λ _,
    counter_row output (load_requests h2_origin) "http2_origin_requests_seen" ≫= λ _,
    counter_row output (load_credentials h2_origin) "http2_credentialed_origin_requests_seen" ≫= λ _,
    check_counts output h2_origin expected_http2 "http2_fixture_validation"
      "HTTP/2 requests did not reach the origin with the injected credential") ≫= λ _,
  mret h2_origin.

(** ** The benchmark *)

Section run.
Context (profile : str) (env : str → option str).

Definition BAFFLE_CA_SHA256 : str :=
  lit "88:0E:ED:ED:4A:CC:4E:9E:3A:5B:C6:31:3B:AC:F2:84:64:DF:41:D5:5E:01:71:F9:7E:21:78:8E:AB:BE:35:D6".
Definition ORIGIN_ROOT_SHA256 : str :=
  lit "37:F2:22:D7:81:9C:58:33:75:B8:E6:86:50:B9:CF:09:BE:13:50:D3:38:25:31:98:81:D8:36:64:AE:9B:02:5B".
Definition ORIGIN_LEAF_SHA256 : str :=
  lit "0E:C9:4E:6E:FB:77:C3:D1:79:16:DD:F1:C8:01:A9:7C:47:E0:7D:4C:6E:CD:C9:4F:A3:23:D6:2D:9C:17:7C:20".

Definition meta (output : option str) (metric : string) (value : str) : B unit := row output "meta" 0 0 (lit metric) value.

Definition with_tempdir {A} (body : str → B A) : B A :=
  dir ← try_ask bw_tempdir;
  event (DirUp dir) ≫= λ _, finally (tell (bw_remove_dir dir) ≫= λ _, event (DirDown dir)) (body dir).

(** The rows before the trials. *)
Definition benchmark_meta (output : option str) : B unit :=
  meta output "profile" profile ≫= λ _,
  version ← rustc_version;
  meta output "rustc" version ≫= λ _,
  meta output "tcp_nodelay" (benchmark_tcp_nodelay_mode env) ≫= λ _,
  meta output "baffle_ca_sha256" BAFFLE_CA_SHA256 ≫= λ _,
  meta output "origin_root_sha256" ORIGIN_ROOT_SHA256 ≫= λ _,
  meta output "origin_leaf_sha256" ORIGIN_LEAF_SHA256.

Definition runtime_benchmark : B unit :=
  output ← bench_output_new env;
  benchmark_meta output ≫= λ _,
  with_tempdir (λ ca_dir,
    ca ← managed_ca ca_dir;
    material ← tls_material ca;
    let '(baffle_ca_der, origin_material) := material in
    let b := mkBench ca (trust_from_der (om_root_der origin_material)) ca_dir in
    origin ← start_http1_origin origin_material RESPONSE_BODY_BYTES;
    let authority := bench_authority (or_port origin) in
    session ← expect_session (intercept_session (or_port origin));
    startup_trials b output session ≫= λ _,
    idle_trials b output session ≫= λ _,
    http1_trials b output session origin authority baffle_ca_der ≫= λ _,
    tunnel_trials b output origin authority (om_root_der origin_material) ≫= λ _,
    h2_origin ← http2_trials b output origin_material baffle_ca_der;
    abort_origin h2_origin ≫= λ _, abort_origin origin).

(** ** The characterization *)

(** The name of a level's metrics. *)
Record characterization := mkCharacterization {
  ch_origin_name : str; ch_nodelay : str; ch_request_bytes : N; ch_response_bytes : N }.
Definition metric_name (h : characterization) (concurrency : N) : str :=
  lit "http1_" ++ ch_origin_name h ++ lit "_nodelay_" ++ ch_nodelay h ++ lit "_req" ++ dec (ch_request_bytes h)
  ++ lit "_resp" ++ dec (ch_response_bytes h) ++ lit "_c" ++ dec concurrency.

Definition drop_clients (cs : list conn) : B unit := each cs drop_client.

Definition opening_job (proxy authority root : str) (_ : N) : B (N + option (Prelude.result trial_error conn)) :=
  ended ← in_task (http1_client proxy authority root); mret (inr ended).
Definition take_client (clients : list conn) (ended : option (Prelude.result trial_error conn)) : B (list conn) :=
  client ← of_result (task_value ended); mret (clients ++ [client]).

(** A task with a client ends with an error or a panic: the client is dropped. *)
Definition lose_client {J V} (c : conn) (ended : option (Prelude.result trial_error unit))
    : B (J + option (Prelude.result trial_error V)) :=
  drop_client c ≫= λ _, mret (inr (match ended with Some (Err e) => Some (Err e) | _ => None end)).

(** The client, and how many requests are left. *)
Definition warming_job (h : characterization) (authority : str) (j : conn * nat)
    : B (conn * nat + option (Prelude.result trial_error conn)) :=
  let '(c, n) := j in
  match n with
  | 0 => mret (inr (Some (Ok c)))
  | S n =>
      ended ← in_task (send_request c authority (ch_request_bytes h));
      match ended with
      | Some (Ok _) => mret (inl (c, n))
      | ended => lose_client c ended
      end
  end.

(** A measuring task: before the barrier, at it, or past it with the requests
    left and the latencies so far. *)
Inductive measuring := Waiting | Arrived | Measuring (n : nat) (latencies : list f64).
Definition measuring_job (h : characterization) (authority : str) (j : N * conn * measuring)
    : B (N * conn * measuring + option (Prelude.result trial_error (N * list f64))) :=
  let '(client_index, c, phase) := j in
  match phase with
  | Waiting => mret (inl (client_index, c, Arrived))
  | Arrived => mret (inl (client_index, c, Measuring (N.to_nat MEASURED_REQUESTS) []))
  | Measuring 0 latencies => drop_client c ≫= λ _, mret (inr (Some (Ok (client_index, latencies))))
  | Measuring (S n) latencies =>
      request_started ← clock;
      ended ← in_task (send_request c authority (ch_request_bytes h));
      match ended with
      | Some (Ok _) =>
          elapsed ← since request_started;
          mret (inl (client_index, c, Measuring n (latencies ++ [as_millis_f64 elapsed])))
      | ended => lose_client c ended
      end
  end.

Definition is_waiting (j : N * conn * measuring) : bool := match j.2 with Waiting => true | _ => false end.
(** [Barrier::wait]: of [spawned] tasks, so many have arrived. *)
Definition barrier_ready (concurrency : N) (spawned : nat) (running : list (N * conn * measuring))
    (j : N * conn * measuring) : bool :=
  match j.2 with
  | Arrived => (concurrency <=? N.of_nat (spawned - length (filter (λ j, is_waiting j = true) running)))%N
  | _ => true
  end.
Definition measuring_weight (j : N * conn * measuring) : nat :=
  match j.2 with
  | Waiting => 3 + N.to_nat MEASURED_REQUESTS
  | Arrived => 2 + N.to_nat MEASURED_REQUESTS
  | Measuring n _ => 1 + n
  end.

Definition latency_rows (output : option str) (metric : str) (trial client_index : N) (latencies : list f64) : B unit :=
  each (imap pair latencies) (λ l,
    row output "latency" trial (client_index * MEASURED_REQUESTS + N.of_nat l.1) (metric ++ lit "_keepalive_ms") (fixed 6 l.2)).
Definition take_latencies (output : option str) (metric : str) (trial : N) (trial_latencies : list f64)
    (ended : option (Prelude.result trial_error (N * list f64))) : B (list f64) :=
  '(client_index, latencies) ← of_result (task_value ended);
  latency_rows output metric trial client_index latencies ≫= λ _, mret (trial_latencies ++ latencies).

(** The clients of a trial: opened, then warmed up. *)
Definition warmed_clients (h : characterization) (proxy authority root : str) (concurrency : N) : B (list conn) :=
  clients ← join_spawned (opening_job proxy authority root) (λ _ _, true) (λ _, 1) (λ _, mret ()) drop_client
    take_client drop_clients (upto concurrency) [];
  join_spawned (warming_job h authority) (λ _ _, true) (λ j, S j.2) (λ j, drop_client j.1) drop_client
    take_client drop_clients ((λ c, (c, N.to_nat WARMUP_REQUESTS)) <$> clients) [].

(** The requests of a trial, all clients at once. *)
Definition trial_latencies (h : characterization) (output : option str) (authority metric : str) (concurrency trial : N)
    (clients : list conn) : B (list f64) :=
  join_spawned (measuring_job h authority) (barrier_ready concurrency (length clients)) measuring_weight
    (λ j, drop_client j.1.2) (λ _, mret ()) (take_latencies output metric trial) (λ _, mret ())
    (imap (λ i c, (N.of_nat i, c, Waiting)) clients) [].

Definition characterization_rows (h : characterization) (output : option str) (metric : str) (concurrency trial elapsed
    trial_cpu_before : N) (latencies : list f64) : B unit :=
  let request_count := (concurrency * MEASURED_REQUESTS)%N in
  let trial_row := λ name value, row output "trial" trial request_count (metric ++ lit name) value in
  median ← unwrap (percentile latencies f64_50);
  p95 ← unwrap (percentile latencies f64_95);
  trial_row "_median_ms"%string (fixed 6 median) ≫= λ _,
  trial_row "_p95_ms"%string (fixed 6 p95) ≫= λ _,
  trial_row "_requests_per_second"%string (per_second request_count elapsed) ≫= λ _,
  trial_row "_wall_ms"%string (ms3 elapsed) ≫= λ _,
  trial_row "_mib_per_second"%string
    (mib_per_second (request_count * (ch_request_bytes h + ch_response_bytes h)) elapsed) ≫= λ _,
  cpu ← cpu_time;
  trial_row "_process_cpu_us"%string (dec (cpu - trial_cpu_before)).

Definition characterization_trial (h : characterization) (output : option str) (runtime : Runtime)
    (authority baffle_ca_der : str) (concurrency : N) (all_latencies : list f64) (trial : N) : B (list f64) :=
  let metric := metric_name h concurrency in
  clients ← warmed_clients h (rt_socket_path runtime) authority baffle_ca_der concurrency;
  trial_cpu_before ← on_error (drop_clients clients) cpu_time;
  started ← clock;
  latencies ← trial_latencies h output authority metric concurrency trial clients;
  elapsed ← since started;
  characterization_rows h output metric concurrency trial elapsed trial_cpu_before latencies ≫= λ _,
  mret (all_latencies ++ latencies).

Definition characterization_meta (h : characterization) (output : option str) (levels : list N) : B unit :=
  meta output "profile" profile ≫= λ _,
  version ← rustc_version;
  meta output "rustc" version ≫= λ _,
  meta output "origin" (ch_origin_name h) ≫= λ _,
  meta output "cpu_affinity" (default (lit "unrecorded") (env_var env (lit "BAFFLE_BENCH_CPU"))) ≫= λ _,
  meta output "tcp_nodelay" (ch_nodelay h) ≫= λ _,
  meta output "request_body_bytes" (dec (ch_request_bytes h)) ≫= λ _,
  meta output "response_body_bytes" (dec (ch_response_bytes h)) ≫= λ _,
  meta output "concurrency_levels" (join (lit ";") (dec <$> levels)).

(** The port of the origin, and the origin when the benchmark runs it. *)
Definition characterization_origin (external : option str) (material : OriginMaterial) (response_bytes : N)
    : B (N * option Origin) :=
  match external with
  | Some address =>
      '(loopback, port) ← of_result (ok_or (parse_socket_addr address) (Bench BenchParse));
      if loopback : bool then mret (port, None)
      else raise (Bench (BenchSaid (lit "benchmark origin must use a loopback address")))
  | None => origin ← start_http1_origin material response_bytes; mret (or_port origin, Some origin)
  end.

Definition characterization_check (output : option str) (levels : list N) (origin : Origin) : B unit :=
  let expected := expected_characterization levels in
  requests ← saw_requests origin;
  credentials ← saw_credentials origin;
  row output "meta" 0 expected (lit "origin_requests_expected") (dec expected) ≫= λ _,
  row output "meta" 0 requests (lit "origin_requests_seen") (dec requests) ≫= λ _,
  row output "meta" 0 credentials (lit "credentialed_origin_requests_seen") (dec credentials) ≫= λ _,
  if negb (requests =? expected)%N || negb (credentials =? expected)%N
  then raise (Bench (BenchSaid (lit "expected " ++ dec expected
    ++ lit " embedded origin requests with injected credentials; saw " ++ dec requests ++ lit " requests and "
    ++ dec credentials ++ lit " credentials")))
  else abort_origin origin.

Definition runtime_http1_characterization : B unit :=
  output ← bench_output_new env;
  levels ← of_result (map_err Bench (benchmark_concurrency_levels env));
  request_bytes ← of_result (map_err Bench (benchmark_body_bytes env (lit "BAFFLE_BENCH_REQUEST_BYTES") REQUEST_BODY_BYTES));
  response_bytes ← of_result (map_err Bench (benchmark_body_bytes env (lit "BAFFLE_BENCH_RESPONSE_BYTES") RESPONSE_BODY_BYTES));
  let external := env_var env (lit "BAFFLE_BENCH_ORIGIN_ADDR") in
  let h := mkCharacterization (match external with Some _ => lit "python" | None => lit "rust" end)
             (benchmark_tcp_nodelay_mode env) request_bytes response_bytes in
  characterization_meta h output levels ≫= λ _,
  with_tempdir (λ ca_dir,
    ca ← managed_ca ca_dir;
    material ← tls_material ca;
    let '(baffle_ca_der, origin_material) := material in
    let b := mkBench ca (trust_from_der (om_root_der origin_material)) ca_dir in
    origin ← characterization_origin external origin_material response_bytes;
    let '(port, embedded_origin) := origin in
    let authority := bench_authority port in
    session ← expect_session (intercept_session port);
    with_runtime (start_runtime b (lit "bench-http1-characterization") session
                    (path_join ca_dir (lit "http1-characterization.sock"))) (λ runtime,
      each levels (λ concurrency,
        all_latencies ← fold_each (upto TRIALS)
          (characterization_trial h output runtime authority baffle_ca_der concurrency) [];
        summary output (metric_name h concurrency ++ lit "_keepalive_ms") all_latencies) ≫= λ _,
      match embedded_origin with Some origin => characterization_check output levels origin | None => mret () end)).
End run.
End programs.
