(* ===== verification/JoinSets.v ===== *)
(** The task sets of [BenchTrials]: awaiting all tasks of a set takes each of
    them once, whatever the scheduler does, ends within the bounds of the model,
    and drops what an early return leaves in the set. *)

From S2P Require Import Prelude RustStr CertAuthority Traced BenchTrials.
From stdpp Require Import options.

Section join_sets.
Context {W conn : Type} `{CaCrypto, !BenchWorld W conn} {J V A : Type}.
#[local] Abbreviation B := (traced W (bench_event conn) trial_error).
Context (step : J → B (J + task_result (V:=V))) (ready : list J → J → bool) (weight : J → nat).
Context (drop_job : J → B unit) (drop_value : V → B unit) (receive : A → task_result (V:=V) → B A) (drop_acc : A → B unit).
Implicit Types s : join_set (J:=J) (V:=V).

Lemma ready_jobs_elem running i : i ∈ ready_jobs ready running → ∃ j, running !! i = Some j ∧ ready running j = true.
Proof using Type.
  unfold ready_jobs. rewrite list_elem_of_filter. intros [Hr _]. destruct (running !! i) as [j|]; [|done]. by exists j.
Qed.

(** A poll runs a step of a running task, or finds none that is ready. *)
Lemma yields_poll s (P : Prelude.result trial_error join_set → list (bench_event conn) → Prop) :
  (ready_jobs ready (js_running s) = [] → P (Ok s) []) →
  (∀ i j, js_running s !! i = Some j →
     yields (step j) (λ r l, P (match r with Ok after => Ok (advance s i after) | Err e => Err e end) l)) →
  yields (poll step ready s) P.
Proof using Type.
  intros Hnone Hstep. unfold poll. eapply (yields_bind _ _ (λ r l, l = [] ∧ is_ok r = true)); [by apply yields_ask| |by intros e l [_ ?]].
  intros n l [-> _]. cbn [app]. destruct (_ !! _) as [i|] eqn:Hi.
  - pose proof (list_elem_of_lookup_2 _ _ _ Hi) as (j & Hj & _)%ready_jobs_elem. rewrite Hj.
    eapply yields_bind; [by apply (Hstep i j)| |done]. cbn. intros after l Hl. apply yields_ret. by rewrite app_nil_r.
  - apply yields_ret, Hnone. destruct (ready_jobs _ _) as [|i l]; [done|].
    apply lookup_ge_None in Hi. pose proof (Nat.mod_upper_bound n (length (i :: l))) as Hm. cbn in *. lia.
Qed.

(** ** What a successful wait has taken *)

Section taken.
Context (I : join_set (J:=J) (V:=V) → A → list (bench_event conn) → Prop).
Hypothesis I_step : ∀ s acc tr i j, js_running s !! i = Some j → I s acc tr →
  succeeds (step j) (λ after tr', I (advance s i after) acc (tr ++ tr')).
Hypothesis I_take : ∀ running v rest acc tr, I (mkJoinSet running (v :: rest)) acc tr →
  succeeds (receive acc v) (λ acc' tr', I (mkJoinSet running rest) acc' (tr ++ tr')).

Lemma poll_taken s acc tr : I s acc tr → succeeds (poll step ready s) (λ s' tr', I s' acc (tr ++ tr')).
Proof using I_step.
  intros Hi. apply yields_poll; [by intros _ s' [= <-]; rewrite app_nil_r|]. intros i j Hj.
  eapply yields_mono; [by eapply I_step|]. cbn. intros [after|e] l Hl s'; [intros [= <-]|done]. by apply Hl.
Qed.

Lemma polls_taken n s acc tr : I s acc tr → succeeds (polls step ready n s) (λ s' tr', I s' acc (tr ++ tr')).
Proof using I_step.
  revert s tr. induction n as [|n IH]; intros s tr Hi; cbn [polls]; [apply succeeds_ret; by rewrite app_nil_r|].
  eapply succeeds_bind; [by apply poll_taken|]. cbn. intros s' l Hs'. eapply succeeds_mono; [by apply IH|].
  cbn. intros s2 l2. by rewrite app_assoc.
Qed.

Lemma poll_until_done_taken fuel s acc tr :
  I s acc tr → succeeds (poll_until_done step ready fuel s)
    (λ s' tr', I s' acc (tr ++ tr') ∧ (js_done s' = [] → js_running s' = [])).
Proof using I_step.
  revert s tr. induction fuel as [|fuel IH]; intros s tr Hi; cbn [poll_until_done];
    destruct (js_done s) eqn:Hd, (js_running s) eqn:Hr;
    try (by apply succeeds_ret; rewrite app_nil_r, Hd, ?Hr); try apply succeeds_raise.
  eapply succeeds_bind; [by apply poll_taken|]. cbn. intros s' l' Hs'. eapply succeeds_mono; [by apply IH|].
  cbn. intros s2 l2. by rewrite app_assoc.
Qed.

Lemma join_next_taken s acc tr :
  I s acc tr → succeeds (join_next step ready weight s) (λ next tr',
    match next.1 with
    | None => I (mkJoinSet [] []) acc (tr ++ tr')
    | Some v => I (mkJoinSet (js_running next.2) (v :: js_done next.2)) acc (tr ++ tr')
    end).
Proof using I_step.
  intros Hi. unfold join_next. eapply succeeds_bind; [apply (succeeds_ask _ (λ _ l, l = [])); done|]. intros wakes ? ->.
  eapply succeeds_bind; [by apply polls_taken|]. cbn. intros s1 l1 H1.
  eapply succeeds_bind; [by apply poll_until_done_taken|]. cbn. intros [running done] l2 [H2 Hd].
  apply succeeds_ret. rewrite app_nil_r. destruct done; cbn in *; [|by rewrite app_assoc].
  rewrite Hd in H2 by done. by rewrite app_assoc.
Qed.

Lemma join_all_taken fuel s acc tr :
  I s acc tr → succeeds (join_all step ready weight drop_job drop_value receive drop_acc fuel s acc)
    (λ acc' tr', I (mkJoinSet [] []) acc' (tr ++ tr')).
Proof using I_step I_take.
  revert s acc tr. induction fuel as [|fuel IH]; intros s acc tr Hi; cbn [join_all]; [apply succeeds_raise|].
  eapply succeeds_bind; [by apply join_next_taken|]. cbn. intros [[v|] [running done]] l1 H1; cbn in H1.
  - eapply succeeds_bind; [by apply succeeds_on_error, I_take|]. cbn. intros acc' l2 H2.
    eapply succeeds_mono; [by apply IH|]. cbn. intros a l3. by rewrite !app_assoc.
  - apply succeeds_ret. by rewrite app_nil_r.
Qed.
End taken.

(** ** Ownership *)

Section owners.
Context {T : Type} (up down : bench_event conn → option T) (hJ : J → list T) (hV : V → list T) (hA : A → list T).

Definition void (e : trial_error) : bool := match e with Stuck => true | _ => false end.
Definition hT (v : task_result (V:=V)) : list T := match v with Some (Ok a) => hV a | _ => [] end.
Definition hO (after : J + task_result (V:=V)) : list T := match after with inl j => hJ j | inr v => hT v end.
Definition hS s : list T := (js_running s ≫= hJ) ++ (js_done s ≫= hT).

(** A step does not fail: its failure is a result of the task. *)
Hypothesis step_flow : ∀ j F he, flow up down void (hJ j ++ F) (step j) (λ after, hO after ++ F) he.
Hypothesis take_flow : ∀ acc v F, flow up down void (hT v ++ hA acc ++ F) (receive acc v) (λ acc', hA acc' ++ F) (hA acc ++ F).
Hypothesis job_clean : ∀ j F, cleans up down (hJ j ++ F) (drop_job j) F.
Hypothesis value_clean : ∀ v F, cleans up down (hV v ++ F) (drop_value v) F.
Hypothesis acc_clean : ∀ acc F, cleans up down (hA acc ++ F) (drop_acc acc) F.

Lemma hS_advance s i j after :
  js_running s !! i = Some j → hS (advance s i after) ++ hJ j ≡ₚ hS s ++ hO after.
Proof using Type.
  intros Hj. destruct s as [running done]. unfold hS, advance. cbn in *. destruct after as [j'|v]; cbn.
  - rewrite insert_take_drop by by apply lookup_lt_Some in Hj.
    rewrite <-(take_drop_middle _ _ _ Hj) at 3. rewrite !bind_app. cbn. solve_Permutation.
  - rewrite (delete_Permutation running i j Hj) at 2. rewrite bind_app. cbn. rewrite app_nil_r. solve_Permutation.
Qed.

Lemma poll_flow s F he : flow up down void (hS s ++ F) (poll step ready s) (λ s', hS s' ++ F) he.
Proof using step_flow.
  apply yields_poll; [by right|]. intros i j Hj.
  assert (∃ F', hS s ≡ₚ hJ j ++ F') as [F' HF].
  { exists ((delete i (js_running s) ≫= hJ) ++ (js_done s ≫= hT)). unfold hS.
    rewrite (delete_Permutation _ _ _ Hj) at 1. cbn. by rewrite app_assoc. }
  eapply yields_mono; [apply (step_flow j (F' ++ F) he)|]. cbn. intros [after|e] l [Hv|Hl]; [done| |by left|]; right; cbn in *.
  - pose proof (hS_advance s i j after Hj) as Ha. rewrite HF in Ha |- *.
    assert (hS (advance s i after) ≡ₚ F' ++ hO after) as ->.
    { apply (Permutation_app_inv_l (hJ j)). rewrite (Permutation_app_comm (hJ j)), Ha. solve_Permutation. }
    rewrite <-app_assoc, Hl. solve_Permutation.
  - by rewrite HF, <-app_assoc.
Qed.

Lemma polls_flow n s F he : flow up down void (hS s ++ F) (polls step ready n s) (λ s', hS s' ++ F) he.
Proof using step_flow.
  revert s. induction n as [|n IH]; intros s; cbn [polls]; [apply (flow_ret _ _ _ s (λ s, hS s ++ F))|].
  eapply flow_bind; [apply poll_flow|]. intros s'. apply IH.
Qed.

Lemma poll_until_done_flow fuel s F he :
  flow up down void (hS s ++ F) (poll_until_done step ready fuel s) (λ s', hS s' ++ F) he.
Proof using step_flow.
  revert s. induction fuel as [|fuel IH]; intros s; cbn [poll_until_done];
    destruct (js_done s), (js_running s); try apply (flow_ret _ _ _ s (λ s, hS s ++ F)).
  - apply yields_raise. by left.
  - eapply flow_bind; [apply poll_flow|]. intros s'. apply IH.
Qed.

Lemma poll_until_done_ends fuel s :
  succeeds (poll_until_done step ready fuel s) (λ s' _, js_done s' = [] → js_running s' = []).
Proof using Type.
  revert s. induction fuel as [|fuel IH]; intros s; cbn [poll_until_done]; destruct (js_done s) eqn:Hd, (js_running s) eqn:Hr;
    try (by apply succeeds_ret; rewrite ?Hd, ?Hr); try apply succeeds_raise.
  apply (succeeds_bind _ _ (λ _ _, True)); [by intros w|]. intros s' l' _. apply IH.
Qed.

Lemma join_next_flow s F he :
  flow up down void (hS s ++ F) (join_next step ready weight s)
    (λ next, match next.1 with Some v => hT v ++ hS next.2 | None => [] end ++ F) he.
Proof using step_flow.
  unfold join_next. apply (flow_bind _ _ _ _ _ _ (λ _, hS s ++ F)); [apply yields_ask; by right|].
  intros wakes. eapply flow_bind; [apply polls_flow|]. cbn. intros s1.
  eapply flow_bind_if; [apply poll_until_done_flow|apply poll_until_done_ends|]. cbn. intros [running done] Hd.
  apply yields_ret. right. destruct done; cbn in *; [by rewrite Hd|]. unfold hS. cbn. solve_Permutation.
Qed.

Lemma drop_join_set_cleans s F : cleans up down (hS s ++ F) (drop_join_set drop_job drop_value s) F.
Proof using job_clean value_clean.
  unfold hS. rewrite <-app_assoc. eapply cleans_bind; [apply cleans_each; intros; apply job_clean|].
  apply cleans_each. intros [[v|e]|] H0; cbn; [apply value_clean|apply cleans_ret..].
Qed.

Lemma join_all_flow fuel s acc F :
  flow up down void (hS s ++ hA acc ++ F) (join_all step ready weight drop_job drop_value receive drop_acc fuel s acc)
    (λ acc', hA acc' ++ F) F.
Proof using step_flow take_flow job_clean value_clean acc_clean.
  revert s acc. induction fuel as [|fuel IH]; intros s acc; cbn [join_all]; [apply yields_raise; by left|].
  eapply flow_bind; [apply join_next_flow|]. cbn. intros [[v|] s']; cbn.
  - eapply flow_bind; [|intros acc'; apply (IH s' acc')]. eapply flow_on_error with (he' := hA acc ++ hS s' ++ F).
    + eapply flow_mono; [apply (take_flow acc v (hS s' ++ F))|solve_Permutation|intros; solve_Permutation|done].
    + eapply cleans_bind; [apply acc_clean|]. apply drop_join_set_cleans.
  - apply (flow_ret _ _ _ acc (λ acc, hA acc ++ F)).
Qed.

Lemma join_spawned_flow jobs acc F :
  flow up down void ((jobs ≫= hJ) ++ hA acc ++ F)
    (join_spawned step ready weight drop_job drop_value receive drop_acc jobs acc) (λ acc', hA acc' ++ F) F.
Proof using step_flow take_flow job_clean value_clean acc_clean.
  eapply flow_mono; [apply (join_all_flow _ (mkJoinSet jobs []))| |done|done]. unfold hS. cbn. by rewrite app_nil_r.
Qed.
End owners.

(** ** The bounds are enough *)

Section bounds.
Hypothesis step_avoids : ∀ j, avoids Stuck (step j).
Hypothesis step_sane : ∀ j, succeeds (step j) (λ after _, after ≠ inr (Some (Err Stuck))).
Hypothesis take_avoids : ∀ acc v, v ≠ Some (Err Stuck) → avoids Stuck (receive acc v).
Hypothesis some_ready : ∀ running, running ≠ [] → ready_jobs ready running ≠ [].
Hypothesis step_weight : ∀ j, succeeds (step j) (λ after _, ∀ j', after = inl j' → weight j' < weight j).
Hypothesis weight_pos : ∀ j, 0 < weight j.

Lemma total_weight_advance s i j after :
  js_running s !! i = Some j → (∀ j', after = inl j' → weight j' < weight j) →
  total_weight weight (advance s i after) < total_weight weight s.
Proof using weight_pos.
  intros Hj Hw. destruct s as [running done]. unfold total_weight, advance. cbn in *.
  assert (sum_list (weight <$> running) = sum_list (weight <$> take i running) + weight j + sum_list (weight <$> drop (S i) running)) as ->.
  { rewrite <-(take_drop_middle _ _ _ Hj) at 1. rewrite fmap_app, fmap_cons, sum_list_with_app. cbn. lia. }
  destruct after as [j'|v]; cbn.
  - rewrite insert_take_drop by by apply lookup_lt_Some in Hj.
    rewrite fmap_app, fmap_cons. rewrite sum_list_with_app. cbn. specialize (Hw j' eq_refl). lia.
  - rewrite delete_take_drop, fmap_app. rewrite sum_list_with_app. specialize (weight_pos j). lia.
Qed.

Lemma poll_lighter s :
  js_running s ≠ [] → succeeds (poll step ready s) (λ s' _, total_weight weight s' < total_weight weight s).
Proof using some_ready step_weight weight_pos.
  intros Hr. apply yields_poll; [by intros []%some_ready|]. intros i j Hj.
  eapply yields_mono; [apply (step_weight j)|]. cbn. intros [after|e] l Hl s'; [intros [= <-]|done].
  by eapply total_weight_advance, Hl.
Qed.

Lemma poll_avoids s : avoids Stuck (poll step ready s).
Proof using step_avoids.
  apply yields_poll; [done|]. intros i j _. eapply yields_mono; [apply (step_avoids j)|]. cbn. intros [after|e] l; congruence.
Qed.

Lemma poll_until_done_avoids fuel s : total_weight weight s ≤ fuel → avoids Stuck (poll_until_done step ready fuel s).
Proof using step_avoids some_ready step_weight weight_pos.
  revert s. induction fuel as [|fuel IH]; intros s Hf; cbn [poll_until_done]; destruct (js_done s), (js_running s) eqn:Hr; try apply avoids_ret.
  - exfalso. unfold total_weight in Hf. rewrite Hr in Hf. cbn in Hf. specialize (weight_pos j). lia.
  - eapply avoids_bind_if; [apply poll_avoids|apply poll_lighter; by rewrite Hr|]. cbn. intros s' Hs'. apply IH. lia.
Qed.

(** How many tasks are to be taken. *)
Definition left_over s : nat := length (js_running s) + length (js_done s).

Lemma left_over_advance s i j after : js_running s !! i = Some j → left_over (advance s i after) = left_over s.
Proof using Type.
  intros Hj%lookup_lt_Some. destruct s as [running done], after as [j'|v]; unfold left_over; cbn in *.
  - by rewrite length_insert.
  - rewrite length_delete by by apply lookup_lt_is_Some. rewrite length_app. cbn. lia.
Qed.

Lemma join_next_counts s :
  succeeds (join_next step ready weight s) (λ next _, ∀ v, next.1 = Some v → S (left_over next.2) = left_over s).
Proof using Type.
  unfold join_next.
  assert (∀ s, succeeds (poll step ready s) (λ s' _, left_over s' = left_over s)) as Hp.
  { intros s1. apply yields_poll; [by intros _ s' [= <-]|]. intros i j Hj w s'.
    destruct (step j w) as [[[after|e] l] w']; cbn; [|done]. intros [= <-]. by eapply left_over_advance. }
  assert (∀ n s, succeeds (polls step ready n s) (λ s' _, left_over s' = left_over s)) as Hps.
  { induction n as [|n IH]; intros s1; cbn [polls]; [by apply succeeds_ret|]. eapply succeeds_bind; [apply Hp|].
    cbn. intros s2 _ <-. eapply succeeds_mono; [apply IH|done]. }
  assert (∀ n s, succeeds (poll_until_done step ready n s) (λ s' _, left_over s' = left_over s)) as Hpu.
  { induction n as [|n IH]; intros s1; cbn [poll_until_done]; destruct (js_done s1), (js_running s1);
      try (by apply succeeds_ret); try apply succeeds_raise. eapply succeeds_bind; [apply Hp|].
    cbn. intros s2 _ <-. eapply succeeds_mono; [apply IH|done]. }
  apply (succeeds_bind _ _ (λ _ _, True)); [by apply succeeds_ask|]. intros wakes _ _.
  eapply succeeds_bind; [apply Hps|]. cbn. intros s1 _ <-. eapply succeeds_bind; [apply Hpu|]. cbn. intros s2 _ <-.
  apply succeeds_ret. destruct s2 as [running [|v rest]]; cbn; [done|]. intros ? _. unfold left_over. cbn. lia.
Qed.

Lemma join_next_avoids s : avoids Stuck (join_next step ready weight s).
Proof using step_avoids some_ready step_weight weight_pos.
  unfold join_next. apply avoids_bind; [apply avoids_ask|]. intros wakes. apply avoids_bind.
  - revert s. induction wakes as [|n IH]; intros s; cbn [polls]; [apply avoids_ret|]. apply avoids_bind; [apply poll_avoids|done].
  - intros s1. apply avoids_bind; [by apply poll_until_done_avoids|]. intros s2. apply avoids_ret.
Qed.

(** No task that has ended did so with [Stuck]. *)
Definition sane_results s : Prop := Forall (λ v, v ≠ Some (Err Stuck)) (js_done s).

Lemma join_next_sane s (acc : A) :
  sane_results s → succeeds (join_next step ready weight s) (λ next _,
    match next.1 with Some v => v ≠ Some (Err Stuck) ∧ sane_results next.2 | None => True end).
Proof using step_sane.
  intros Hs. eapply succeeds_mono.
  - apply (join_next_taken (λ s _ _, sane_results s)) with (acc := acc) (tr := []); [|exact Hs].
    intros s1 _ _ i j _ H1. eapply succeeds_mono; [apply (step_sane j)|]. cbn. intros [j'|v] _ Hv; [done|].
    apply Forall_app. split; [done|]. apply Forall_singleton. intros ->. by apply Hv.
  - cbn. intros [[v|] s'] l Hl; cbn in *; [|done]. by apply Forall_cons in Hl.
Qed.

Lemma join_all_avoids fuel s acc :
  sane_results s → left_over s < fuel →
  avoids Stuck (join_all step ready weight drop_job drop_value receive drop_acc fuel s acc).
Proof using step_avoids step_sane take_avoids some_ready step_weight weight_pos.
  revert s acc. induction fuel as [|fuel IH]; intros s acc Hs Hf; [lia|]. cbn [join_all].
  apply (avoids_bind_if _ _ _ (λ next, (∀ v, next.1 = Some v → S (left_over next.2) = left_over s) ∧
    match next.1 with Some v => v ≠ Some (Err Stuck) ∧ sane_results next.2 | None => True end)).
  - apply join_next_avoids.
  - intros w next Hn. split; [by eapply join_next_counts|]. by apply (join_next_sane s acc Hs w).
  - intros [[v|] s'] [Hc Hv]; cbn in *; [|apply avoids_ret]. destruct Hv as [Hv Hs'].
    apply avoids_bind; [by apply avoids_on_error, take_avoids|]. intros acc'. apply IH; [done|]. specialize (Hc v eq_refl). lia.
Qed.

Lemma join_spawned_avoids jobs acc :
  avoids Stuck (join_spawned step ready weight drop_job drop_value receive drop_acc jobs acc).
Proof using step_avoids step_sane take_avoids some_ready step_weight weight_pos.
  apply join_all_avoids; [constructor|]. unfold left_over. cbn. lia.
Qed.
End bounds.

(** ** What is reported

    A job has marks still to report, [debtJ], and so has a result that is not
    yet taken; a failed task makes the wait fail. *)

Section reports.
Context {M : Type} (mark : bench_event conn → option M) (debtJ : J → list M) (debtV : V → list M).
Context (okJ : J → Prop) (okV : V → Prop) (size : A → nat) (k : nat).

Definition pays (j : J) (after : J + task_result (V:=V)) (l : list (bench_event conn)) : Prop :=
  match after with
  | inl j' => okJ j' ∧ omap mark l ++ debtJ j' ≡ₚ debtJ j
  | inr (Some (Ok v)) => okV v ∧ omap mark l ++ debtV v ≡ₚ debtJ j
  | inr _ => True
  end.
Hypothesis step_pays : ∀ j, okJ j → succeeds (step j) (pays j).
Hypothesis receive_good : ∀ acc v, okV v →
  logs mark (≡ₚ) (receive acc (Some (Ok v))) (debtV v) (λ acc', size acc' = size acc + k).
Hypothesis receive_bad : ∀ acc v, (∀ a, v ≠ Some (Ok a)) → succeeds (receive acc v) (λ _ _, False).

Definition debtT (v : task_result (V:=V)) : list M := match v with Some (Ok a) => debtV a | _ => [] end.
Definition goodT (v : task_result (V:=V)) : Prop := match v with Some (Ok a) => okV a | _ => False end.
Definition debt s : list M := (js_running s ≫= debtJ) ++ (js_done s ≫= debtT).

(** Either a task has failed, or what is reported and what is owed is [K]. *)
Definition accounts (K : list M) (n : nat) s acc (tr : list (bench_event conn)) : Prop :=
  Exists (λ v, ∀ a, v ≠ Some (Ok a)) (js_done s) ∨
  (omap mark tr ++ debt s ≡ₚ K ∧ Forall okJ (js_running s) ∧ Forall goodT (js_done s) ∧ size acc + left_over s * k = n).

Lemma accounts_step K n s acc tr i j :
  js_running s !! i = Some j → accounts K n s acc tr →
  succeeds (step j) (λ after tr', accounts K n (advance s i after) acc (tr ++ tr')).
Proof using step_pays.
  intros Hj [Hbad|(Htr & Hrun & Hdone & Hn)].
  { intros w after _. left. destruct after; cbn; [done|]. apply Exists_app. by left. }
  assert (okJ j) as Hok by (eapply Forall_lookup; eauto).
  eapply succeeds_mono; [by apply step_pays|]. intros after l Hp. rewrite <-(left_over_advance s i j after Hj) in Hn.
  destruct s as [running done]. unfold accounts, debt in *. cbn in *. rewrite <-(take_drop_middle _ _ _ Hj) in Htr.
  rewrite bind_app, bind_cons in Htr. pose proof (lookup_lt_Some _ _ _ Hj) as Hlt. rewrite omap_app.
  destruct after as [j'|[[v|e]|]]; cbn [pays advance js_running js_done] in *; [right|right|left|left].
  - destruct Hp as [Hj' Hl]. rewrite insert_take_drop at 1 by done. rewrite bind_app, bind_cons, <-Htr, <-Hl.
    split_and!; [solve_Permutation|by apply Forall_insert|done|done].
  - destruct Hp as [Hv Hl]. rewrite delete_take_drop at 1. rewrite !bind_app, <-Htr, <-Hl. cbn. rewrite app_nil_r.
    split_and!; [solve_Permutation|by apply Forall_delete|by apply Forall_app; split; [|constructor]|done].
  - apply Exists_app. right. by constructor.
  - apply Exists_app. right. by constructor.
Qed.

Lemma accounts_receive K n running v rest acc tr :
  accounts K n (mkJoinSet running (v :: rest)) acc tr →
  succeeds (receive acc v) (λ acc' tr', accounts K n (mkJoinSet running rest) acc' (tr ++ tr')).
Proof using receive_good receive_bad.
  destruct (match v with Some (Ok _) => true | _ => false end) eqn:Hv.
  - destruct v as [[v|]|]; try done. intros [Hbad|(Htr & Hrun & Hdone & Hn)].
    { intros w acc' _. left. cbn in *. apply Exists_cons in Hbad as [Hb|Hb]; [by destruct (Hb v)|done]. }
    cbn in *. apply Forall_cons in Hdone as [Hg Hdone]. eapply succeeds_mono; [by apply receive_good|]. cbn.
    intros acc' l [Hl Hs]. right. unfold debt in *. cbn in *. rewrite omap_app, Hl, <-Htr. split_and!; [|done|done|].
    + solve_Permutation.
    + unfold left_over in *. cbn in *. lia.
  - intros _. eapply succeeds_mono; [apply receive_bad|done]. intros a ->. done.
Qed.

Lemma join_spawned_logs jobs acc :
  Forall okJ jobs →
  logs mark (≡ₚ) (join_spawned step ready weight drop_job drop_value receive drop_acc jobs acc) (jobs ≫= debtJ)
    (λ acc', size acc' = size acc + length jobs * k).
Proof using step_pays receive_good receive_bad.
  intros Hok. set (K := jobs ≫= debtJ). set (n := size acc + length jobs * k).
  eapply succeeds_mono.
  - apply (join_all_taken (accounts K n) (λ s acc tr i j, accounts_step K n s acc tr i j)
      (λ running v rest acc tr, accounts_receive K n running v rest acc tr) _ _ _ []).
    right. unfold debt, left_over. cbn. rewrite app_nil_r, Nat.add_0_r. done.
  - cbn. intros acc' l [Hbad|(Htr & _ & _ & Hs)]; [by apply Exists_nil in Hbad|].
    unfold debt, left_over in *. cbn in *. rewrite app_nil_r in Htr. split; [done|lia].
Qed.
End reports.
End join_sets.
