(* ===== verification/BenchTrialsProps.v ===== *)
(** The two programs of the runtime benchmark, in every world: a successful run
    reports exactly the rows of its table, made exactly the requests it meant to
    and compared them with the origin's counters; on every exit what was started
    is shut down or dropped. *)

From S2P Require Import Prelude RustStr RustPath PolicyTypes DnsName SessionDoc SessionPolicy Secrets ProxyRuntime AsyncIo.
From S2P Require Import CertAuthority DaemonConfig TestTrust Numerals MeasureSessions RuntimeBench Traced BenchTrials JoinSets.
From stdpp Require Import options.
Local Open Scope char_scope.

(** ** What is reported *)

(** A row without its value (and without the index of a [meta] row, which may
    be a counter's value), an answered request, a counter that was compared, an
    origin's start and end, and a runtime that was dropped. *)
Inductive bench_mark :=
| MRow (kind : str) (trial index : N) (metric : str)
| MAnswer
| MSaw (n : N)
| MOriginUp | MOriginDown
| MDropped.

Definition bench_mark_of {conn} (e : bench_event conn) : option bench_mark :=
  match e with
  | BenchRow kind trial index metric _ =>
      Some (MRow kind trial (if str_eqb kind (lit "meta") then 0 else index)%N metric)
  | Answered _ => Some MAnswer
  | SawRequests _ n | SawCredentials _ n => Some (MSaw n)
  | OriginUp _ => Some MOriginUp
  | OriginDown _ => Some MOriginDown
  | RuntimeDropped _ => Some MDropped
  | _ => None
  end.

(** ** The table of a run *)

Definition mrow (kind : string) (trial index : N) (metric : string) : bench_mark := MRow (lit kind) trial index (lit metric).
Definition summary_marks (metric : str) (n : N) : list bench_mark :=
  [MRow (lit "summary") 0 n (metric ++ lit "_median"); MRow (lit "summary") 0 n (metric ++ lit "_p95")].
Definition meta_marks (metrics : list string) : list bench_mark := mrow "meta" 0 0 <$> metrics.

Definition startup_marks : list bench_mark :=
  (upto TRIALS ≫= λ t, [mrow "sample" t 0 "session_start_ms"; mrow "sample" t 0 "session_stop_ms"])
  ++ summary_marks (lit "session_start_ms") TRIALS ++ summary_marks (lit "session_stop_ms") TRIALS.

Definition idle_marks : list bench_mark :=
  [1; 2; 4; 8]%N ≫= λ n, upto TRIALS ≫= λ t,
    [mrow "sample" t n "sequential_runtime_create_ms"; mrow "sample" t n "idle_process_rss_delta_kib";
     mrow "sample" t n "idle_rss_delta_per_session_kib"; mrow "sample" t n "concurrent_runtime_create_wall_ms";
     mrow "sample" t n "concurrent_idle_process_rss_delta_kib"].

(** Each latency follows the answer it is the latency of. *)
Definition request_marks (t : N) (metric : string) : list bench_mark :=
  replicate (N.to_nat WARMUP_REQUESTS) MAnswer
  ++ (upto MEASURED_REQUESTS ≫= λ i, [MAnswer; mrow "latency" t i metric]).
Definition trial_marks (t : N) (metrics : list string) : list bench_mark := mrow "trial" t MEASURED_REQUESTS <$> metrics.

Definition http1_marks : list bench_mark :=
  (upto TRIALS ≫= λ t, mrow "sample" t 1 "http1_active_connection_rss_delta_kib" :: request_marks t "http1_keepalive_ms"
     ++ trial_marks t ["http1_process_cpu_us"; "http1_median_ms"; "http1_p95_ms"; "http1_requests_per_second";
                       "http1_mib_per_second"]%string)
  ++ summary_marks (lit "http1_request_latency_ms") (TRIALS * MEASURED_REQUESTS)
  ++ [mrow "meta" TRIALS 0 "process_cpu_us"; mrow "meta" TRIALS 0 "process_rss_delta_kib"]
  ++ meta_marks ["origin_requests_seen"; "credentialed_origin_requests_seen"]%string
  ++ [MSaw expected_http1; MSaw expected_http1].

Definition tunnel_marks : list bench_mark :=
  (upto TRIALS ≫= λ t, request_marks t "tunnel_http1_keepalive_ms"
     ++ trial_marks t ["tunnel_http1_requests_per_second"; "tunnel_http1_mib_per_second"]%string)
  ++ summary_marks (lit "tunnel_http1_request_latency_ms") (TRIALS * MEASURED_REQUESTS).

Definition http2_request_marks : list bench_mark :=
  replicate (N.to_nat WARMUP_REQUESTS) MAnswer
  ++ (upto TRIALS ≫= λ t, (upto MEASURED_REQUESTS ≫= λ i, [MAnswer; mrow "latency" t i "http2_keepalive_ms"])
     ++ trial_marks t ["http2_median_ms"; "http2_p95_ms"; "http2_requests_per_second"; "http2_process_cpu_us"]%string)
  ++ [mrow "meta" TRIALS 0 "http2_process_cpu_us"; mrow "meta" TRIALS 0 "http2_process_rss_delta_kib"].
Definition http2_marks : list bench_mark :=
  http2_request_marks ++ summary_marks (lit "http2_request_latency_ms") (TRIALS * MEASURED_REQUESTS)
  ++ meta_marks ["http2_origin_requests_seen"; "http2_credentialed_origin_requests_seen"]%string
  ++ [MSaw expected_http2; MSaw expected_http2].

Definition benchmark_marks : list bench_mark :=
  meta_marks ["profile"; "rustc"; "tcp_nodelay"; "baffle_ca_sha256"; "origin_root_sha256"; "origin_leaf_sha256"]%string
  ++ [MOriginUp] ++ startup_marks ++ idle_marks ++ http1_marks ++ tunnel_marks
  ++ [MOriginUp] ++ http2_marks ++ [MOriginDown; MOriginDown].

(** ** Programs that cause no event *)

Section mute.
Context {W conn : Type} `{CaCrypto, !BenchWorld W conn} (P : bench_event conn → Prop).
#[local] Abbreviation mute := (only (W:=W) (E:=trial_error) P).

Lemma mute_try_ask {A} (f : W → Prelude.result str A * W) : mute (try_ask f).
Proof. unfold try_ask. only_auto. Qed.
#[local] Hint Resolve mute_try_ask : traced.
Lemma mute_since n : mute (since n).
Proof. unfold since, clock. only_auto. Qed.
Lemma mute_unwrap {A} (o : option A) : mute (unwrap o).
Proof. apply only_of_result. Qed.
Lemma mute_read_rss : mute (BenchTrials.read_rss_kib).
Proof. unfold BenchTrials.read_rss_kib. only_auto. Qed.
Lemma mute_cpu_time : mute cpu_time.
Proof. unfold cpu_time. only_auto. Qed.
Lemma mute_exchange c f : mute (exchange c f).
Proof. unfold exchange. only_auto. Qed.
Lemma mute_managed_ca dir path : mute (managed_ca dir path).
Proof. unfold managed_ca. only_auto. Qed.
Lemma mute_tls_material dir ca : mute (tls_material dir ca).
Proof. unfold tls_material. only_auto. Qed.
Lemma mute_output env : mute (bench_output_new env).
Proof. unfold bench_output_new. only_auto. Qed.
Lemma mute_expect {E} (r : Prelude.result E SessionConfig) : mute (expect_session r).
Proof. unfold expect_session, panic. only_auto. Qed.
Lemma mute_rustc : mute rustc_version.
Proof. unfold rustc_version. only_auto. Qed.
Lemma mute_status what n : mute (http2_status what n).
Proof. unfold http2_status. only_auto. Qed.
End mute.
#[export] Hint Resolve mute_try_ask mute_since mute_unwrap mute_read_rss mute_cpu_time mute_exchange mute_managed_ca
  mute_tls_material mute_output mute_expect mute_rustc mute_status : traced.

Section reported.
Context {W conn : Type} `{CaCrypto, !BenchWorld W conn, Crypto, UrlHost} (texts : bench_texts).
#[local] Abbreviation B := (traced W (bench_event conn) trial_error).
#[local] Abbreviation unmarked := (only (W:=W) (E:=trial_error) (λ e : bench_event conn, bench_mark_of e = None)).

(** *** Programs that report nothing *)

Lemma unmarked_drop_client c : unmarked (drop_client c).
Proof. unfold drop_client. only_auto. Qed.
Lemma unmarked_shutdown r : unmarked (shutdown_runtime r).
Proof. unfold shutdown_runtime. only_auto. Qed.
Lemma unmarked_start seed b id session path : unmarked (start_runtime seed b id session path).
Proof. unfold start_runtime. only_auto. Qed.
#[local] Hint Resolve unmarked_drop_client unmarked_shutdown unmarked_start : traced.
Lemma unmarked_tls_over_connect proxy authority root alpn : unmarked (tls_over_connect proxy authority root alpn).
Proof. unfold tls_over_connect. only_auto. Qed.
Lemma unmarked_http1_client proxy authority root : unmarked (http1_client proxy authority root).
Proof. apply unmarked_tls_over_connect. Qed.
#[local] Hint Resolve unmarked_tls_over_connect unmarked_http1_client : traced.

(** *** Rows *)

Section reports.
Context (R : relation (list bench_mark)) `{!Equivalence R, !Proper (R ==> R ==> R) app}.
#[local] Abbreviation reports := (logs (W:=W) (E:=trial_error) (bench_mark_of (conn:=conn)) R).

Lemma reports_event e : reports (event e) (option_list (bench_mark_of e)) (λ _, True).
Proof using Equivalence0. by apply logs_event. Qed.

Lemma reports_row output kind trial index metric value :
  reports (row output kind trial index metric value)
    [MRow (lit kind) trial (if str_eqb (lit kind) (lit "meta") then 0 else index)%N metric] (λ _, True).
Proof using Type*.
  apply (logs_bind _ _ _ _ [_] [] (λ _, True)); [apply reports_event|]. intros _ _. apply logs_silent; [apply _|].
  unfold panic. only_auto.
Qed.

(** A row of a kind with an index, and a [meta] row. *)
Lemma reports_row_last output kind trial index metric value :
  str_eqb (lit kind) (lit "meta") = false →
  reports (row output kind trial index metric value) [MRow (lit kind) trial index metric] (λ _, True).
Proof using Type*. intros Hk. pose proof (reports_row output kind trial index metric value) as Hr. by rewrite Hk in Hr. Qed.
Lemma reports_row_then {A} output kind trial index metric value (f : unit → B A) K Q :
  str_eqb (lit kind) (lit "meta") = false → reports (f ()) K Q →
  reports (row output kind trial index metric value ≫= f) (MRow (lit kind) trial index metric :: K) Q.
Proof using Type*.
  intros Hk Hf. apply (logs_bind _ _ _ _ [MRow (lit kind) trial index metric] K (λ _, True)); [by apply reports_row_last|].
  by intros [] _.
Qed.
Lemma reports_meta_last output trial index metric value :
  reports (row output "meta" trial index (lit metric) value) [mrow "meta" trial 0 metric] (λ _, True).
Proof using Type*. apply reports_row. Qed.
Lemma reports_meta_then {A} output trial index metric value (f : unit → B A) K Q :
  reports (f ()) K Q →
  reports (row output "meta" trial index (lit metric) value ≫= f) (mrow "meta" trial 0 metric :: K) Q.
Proof using Type*.
  intros Hf. apply (logs_bind _ _ _ _ [mrow "meta" trial 0 metric] K (λ _, True)); [apply reports_meta_last|by intros [] _].
Qed.

Lemma reports_summary output metric values n :
  N.of_nat (length values) = n → reports (summary output metric values) (summary_marks metric n) (λ _, True).
Proof using Type*.
  intros <-. unfold summary. do 2 (apply logs_after; [apply _..|apply mute_unwrap|intros ?]).
  apply reports_row_then; [done|]. by apply reports_row_last.
Qed.

Lemma report_fails {A} output trial index metric e : succeeds (A:=A) (report texts output trial index metric e) (λ _ _, False).
Proof using Type.
  apply (succeeds_bind _ _ (λ _ _, True)); [by intros w|]. intros [] l _. apply succeeds_raise.
Qed.

Lemma fails_after {A C} (m : B A) (f : A → B C) : (∀ a, succeeds (f a) (λ _ _, False)) → succeeds (m ≫= f) (λ _ _, False).
Proof using Type. intros Hf. apply (succeeds_bind _ _ (λ _ _, True)); [by intros w|]. intros a l _. apply Hf. Qed.
Lemma reports_fails {A} (m : B A) K (Q : A → Prop) : succeeds m (λ _ _, False) → reports m K Q.
Proof using Type. intros Hm. by eapply succeeds_mono. Qed.

(** [attempt] with a handler that fails. *)
Lemma reports_attempt {A C} (m : B A) (f : A → B C) (g : trial_error → B C) K1 K2 Q1 Q :
  reports m K1 Q1 → (∀ a, Q1 a → reports (f a) K2 Q) → (∀ e, succeeds (g e) (λ _ _, False)) →
  reports (attempt m ≫= λ r, match r with Ok a => f a | Err e => g e end) (K1 ++ K2) Q.
Proof using Type*.
  intros Hm Hf Hg. apply (succeeds_bind _ _ (λ r l, ∀ a, r = Ok a → R (omap bench_mark_of l) K1 ∧ Q1 a)).
  - intros w. specialize (Hm w). unfold attempt. destruct (m w) as [[[a|e] l] w1]; cbn in *.
    + intros ? [= <-] ? [= <-]. by apply Hm.
    + by destruct (unwinds e); [done|intros ? [= <-]].
  - intros [a|e] l Hl; [|by eapply succeeds_mono; [apply Hg|]].
    destruct (Hl a eq_refl) as [Hl' Ha]. eapply succeeds_mono; [by apply Hf|]. cbn. intros c l2 [H2 Hc].
    by rewrite omap_app, Hl', H2.
Qed.

(** A runtime or a client around a program. *)
Lemma reports_with_runtime {A} start (body : Runtime → B A) K Q :
  unmarked start → (∀ r, reports (body r) K Q) → reports (with_runtime start body) K Q.
Proof using Type*.
  intros Hs Hb. unfold with_runtime. apply logs_after; [apply _..|done|]. intros r.
  rewrite <-(app_nil_r K). eapply logs_bind; [apply _..|by apply logs_on_error|]. intros a Ha.
  apply logs_after; [apply _..|apply unmarked_shutdown|]. intros []. by apply logs_ret; [apply _|].
Qed.
Lemma reports_with_client {A} open (body : conn → B A) K Q :
  unmarked open → (∀ c, reports (body c) K Q) → reports (with_client open body) K Q.
Proof using Type*.
  intros Ho Hb. unfold with_client. apply logs_after; [apply _..|done|]. intros c. apply logs_finally; [apply _..|apply unmarked_drop_client|done].
Qed.

(** A loop over [0..n] that carries a local. *)
Lemma reports_loop {S} (f : S → N → B S) (K : N → list bench_mark) (Q : nat → S → Prop) n s :
  Q 0 s → (∀ k s a, Q k s → reports (f s a) (K a) (Q (1 + k))) →
  reports (fold_each (upto n) f s) (upto n ≫= K) (Q (N.to_nat n)).
Proof using Type*.
  intros H0' Hf. pose proof (logs_fold bench_mark_of R f K Q (upto n) s 0 H0' Hf) as Hl.
  assert (length (upto n) = N.to_nat n) as E by (unfold upto; by rewrite length_fmap, length_seq). by rewrite E in Hl.
Qed.

(** One step of a program: report what it starts with. *)
#[local] Hint Resolve unmarked_drop_client unmarked_shutdown unmarked_start unmarked_tls_over_connect unmarked_http1_client : traced.
#[local] Hint Unfold clock sleep_millis load_requests load_credentials : traced.
Ltac reports_step :=
  cbv zeta; lazymatch goal with
  | |- logs _ _ (row _ "meta" _ _ (lit _) _ ≫= _) _ _ => apply reports_meta_then
  | |- logs _ _ (row _ "meta" _ _ (lit _) _) _ _ => apply reports_meta_last
  | |- logs _ _ (row _ _ _ _ _ _ ≫= _) _ _ => apply reports_row_then; [reflexivity|]
  | |- logs _ _ (row _ _ _ _ _ _) _ _ => apply reports_row_last; reflexivity
  | |- logs _ _ (mret _) _ _ => apply logs_ret; [apply _|]
  | |- logs _ _ (_ ≫= _) _ _ => apply logs_after; [apply _..|by (autounfold with traced; only_auto)|intros ?]
  end.

(** *** Starting and stopping *)

Context (credential_seed : CredentialSeed) (b : bench) (output : option str).

Lemma reports_startup session : reports (startup_trials credential_seed b output session) startup_marks (λ _, True).
Proof using Type*.
  unfold startup_trials. eapply (logs_bind _ _ _ _ _ _ (λ s, length s.1 = N.to_nat TRIALS ∧ length s.2 = N.to_nat TRIALS)).
  - apply (reports_loop _ _ (λ n s, length s.1 = n ∧ length s.2 = n)); [done|]. intros n s t [H1' H2'].
    unfold startup_trial. repeat reports_step. destruct (_ : bool).
    + apply reports_fails, fails_after. intros []. apply succeeds_raise.
    + repeat reports_step. cbn. rewrite !length_app. cbn. lia.
  - intros s [H1' H2']. cbn beta. eapply (logs_bind _ _ _ _ _ _ (λ _, True)); [apply _..|apply reports_summary; lia|].
    intros _ _. apply reports_summary. lia.
Qed.

(** Awaiting a set of tasks that report nothing. *)
Lemma reports_silent_tasks {J V A} step ready weight drop_job drop_value (receive : A → option (Prelude.result trial_error V) → B A)
    drop_acc (jobs : list J) acc size :
  (∀ j, unmarked (step j)) →
  (∀ acc v, logs bench_mark_of (≡ₚ) (receive acc (Some (Ok v))) [] (λ acc', size acc' = size acc + 1)) →
  (∀ acc v, (∀ a, v ≠ Some (Ok a)) → succeeds (receive acc v) (λ _ _, False)) →
  reports (join_spawned step ready weight drop_job drop_value receive drop_acc jobs acc) []
    (λ acc', size acc' = size acc + length jobs).
Proof using Equivalence0.
  intros Hs Hg Hb.
  eapply succeeds_mono; [apply (join_spawned_logs step ready weight drop_job drop_value receive drop_acc bench_mark_of
    (λ _, []) (λ _, []) (λ _, True) (λ _, True) size 1)|].
  - intros j _. eapply succeeds_mono; [eapply (logs_silent _ eq), Hs|]. intros after l [Hl _].
    destruct after as [|[[]|]]; cbn; try done; by rewrite Hl.
  - intros acc' v _. apply Hg.
  - exact Hb.
  - by apply Forall_true.
  - cbn. intros acc' l [Hl Hn]. rewrite list_bind_nothing in Hl. apply Permutation_nil_r in Hl. rewrite Hl. split; [reflexivity|lia].
Qed.

Lemma reports_teardown trial n rs : reports (concurrent_teardown output trial n rs) [] (λ _, True).
Proof using Type*.
  induction rs as [|r rs IH]; cbn [concurrent_teardown]; [by repeat reports_step|]. reports_step.
  eapply (logs_bind _ _ _ _ [] [] (λ _, True)); [|by intros _ _]. apply logs_on_error. reports_step.
  destruct (_ : bool); [|by repeat reports_step]. apply reports_fails, fails_after. intros []. apply succeeds_raise.
Qed.

Lemma reports_idle_trial session n t :
  reports (idle_trial credential_seed b output session n t)
    [mrow "sample" t n "sequential_runtime_create_ms"; mrow "sample" t n "idle_process_rss_delta_kib";
     mrow "sample" t n "idle_rss_delta_per_session_kib"] (λ _, True).
Proof using Type*.
  unfold idle_trial. do 2 reports_step. apply (logs_bind _ _ _ _ [] _ (λ _, True)).
  - eapply logs_mono; [apply _|apply (reports_loop _ (λ _, []) (λ _ _, True))| |done].
    + done.
    + intros k rs i _. apply (logs_bind _ _ _ _ [] [] (λ _, True)).
      * apply logs_on_error, logs_silent; [apply _|]. only_auto.
      * intros r _. by reports_step.
    + by rewrite list_bind_nothing.
  - intros rs _. apply (logs_bind _ _ _ _ [_; _; _] [] (λ _, True)).
    + apply logs_on_error. by repeat reports_step.
    + intros _ _. apply logs_silent; [apply _|]. only_auto.
Qed.

Lemma create_job_unmarked session n t i : unmarked (create_job credential_seed b session n t i).
Proof using Type.
  unfold create_job. only_step; [|only_auto]. intros w. unfold in_task. destruct (bw_task_panics w) as [[] w1]; [done|].
  pose proof (unmarked_start credential_seed b (numbered "bench-concurrent-" [n; t; i]) session
    (socket b "concurrent-" [n; t; i]) w1) as Hs.
  destruct (start_runtime _ _ _ _ _ w1) as [[[r|e] l] w2]; [done|]. by destruct e.
Qed.

Lemma reports_concurrent_create session n t :
  reports (concurrent_create_trial texts credential_seed b output session n t)
    [mrow "sample" t n "concurrent_runtime_create_wall_ms"; mrow "sample" t n "concurrent_idle_process_rss_delta_kib"]
    (λ _, True).
Proof using Type*.
  unfold concurrent_create_trial. do 2 reports_step. apply (logs_bind _ _ _ _ [] _ (λ _, True)).
  - eapply logs_mono; [apply _|apply (reports_silent_tasks _ _ _ _ _ _ _ _ _ length)|reflexivity|done].
    + intros j. apply create_job_unmarked.
    + intros acc r. cbn. apply logs_ret; [apply _|]. by rewrite length_app.
    + intros acc [[r|e]|] Hv; [by destruct (Hv r)|apply report_fails..].
  - intros rs _. apply (logs_bind _ _ _ _ [_; _] [] (λ _, True)).
    + apply logs_on_error. by repeat reports_step.
    + intros _ _. apply reports_teardown.
Qed.

Lemma reports_idle session : reports (idle_trials texts credential_seed b output session) idle_marks (λ _, True).
Proof using Type*.
  unfold idle_trials, idle_marks.
  apply (logs_each _ _ _ (λ n, upto TRIALS ≫= λ t, [_; _; _] ++ [_; _])). intros n.
  apply (logs_each _ _ _ (λ t, [_; _; _] ++ [_; _])). intros t.
  apply (logs_bind _ _ _ _ [_; _; _] [_; _] (λ _, True)); [apply reports_idle_trial|]. intros _ _. apply reports_concurrent_create.
Qed.

(** *** Requests *)

Lemma reports_send c authority n : reports (send_request c authority n) [MAnswer] (λ _, True).
Proof using Equivalence0 Proper0.
  unfold send_request. reports_step. apply reports_event.
Qed.

Lemma reports_warm_up c authority t metric :
  reports (warm_up_requests texts output c authority t metric) (replicate (N.to_nat WARMUP_REQUESTS) MAnswer) (λ _, True).
Proof using Type*.
  unfold warm_up_requests. eapply logs_conv; [apply _|apply (logs_each _ _ _ (λ _, [MAnswer]))|done].
  intros i. apply (reports_attempt _ (λ _, mret ()) (λ e, report texts output t 0 metric e) [MAnswer] [] (λ _, True)).
  - apply reports_send.
  - intros _ _. by reports_step.
  - intros e. apply report_fails.
Qed.

Lemma reports_measured c authority t failure metric :
  reports (measured_requests texts output c authority t failure metric)
    (upto MEASURED_REQUESTS ≫= λ i, [MAnswer; mrow "latency" t i metric]) (λ s, length s = N.to_nat MEASURED_REQUESTS).
Proof using Type*.
  unfold measured_requests. apply (reports_loop _ _ (λ n s, length s = n)); [done|]. intros k s i Hs. reports_step.
  eapply (reports_attempt _ (λ _, since _ ≫= _) (λ e, report texts output t i failure e) [MAnswer] [_] (λ _, True)).
  - apply reports_send.
  - intros _ _. repeat reports_step. rewrite length_app. cbn. lia.
  - intros e. apply report_fails.
Qed.

Lemma trial_samples k (s l : list f64) :
  length s = k * N.to_nat MEASURED_REQUESTS → length l = N.to_nat MEASURED_REQUESTS →
  length (s ++ l) = (1 + k) * N.to_nat MEASURED_REQUESTS.
Proof using Type. intros Hs Hl. rewrite length_app, Hs, Hl. lia. Qed.

Lemma reports_http1_trial runtime authority der k s t :
  length s = k * N.to_nat MEASURED_REQUESTS →
  reports (http1_trial texts output runtime authority der s t)
    (mrow "sample" t 1 "http1_active_connection_rss_delta_kib" :: request_marks t "http1_keepalive_ms"
     ++ trial_marks t ["http1_process_cpu_us"; "http1_median_ms"; "http1_p95_ms"; "http1_requests_per_second";
                       "http1_mib_per_second"]%string) (λ s', length s' = (1 + k) * N.to_nat MEASURED_REQUESTS).
Proof using Type*.
  intros Hs. unfold http1_trial. reports_step. apply reports_with_client; [apply unmarked_http1_client|]. intros c.
  do 2 reports_step. unfold request_marks. rewrite <-app_assoc.
  apply (logs_bind _ _ _ _ _ _ (λ _, True)); [apply reports_warm_up|]. intros _ _. do 2 reports_step.
  eapply (logs_bind _ _ _ _ _ _ _); [apply reports_measured|]. cbn beta. intros l Hl. repeat reports_step.
  by apply trial_samples.
Qed.

Lemma reports_counter_row load metric : unmarked load → reports (counter_row output load metric) (meta_marks [metric]) (λ _, True).
Proof using Type*. intros Hl. unfold counter_row. do 2 (apply logs_after; [apply _..|done|intros ?]). apply reports_meta_last. Qed.

(** The two loads of a comparison that succeeds. *)
Lemma succeeds_saw_requests o : succeeds (saw_requests (W:=W) o) (λ n l, l = [SawRequests o n]).
Proof using Type. intros w. unfold saw_requests, load_requests, ask, mbind, traced_bind. destruct (bw_load_requests _ w). by intros a [= <-]. Qed.
Lemma succeeds_saw_credentials o : succeeds (saw_credentials (W:=W) o) (λ n l, l = [SawCredentials o n]).
Proof using Type. intros w. unfold saw_credentials, load_credentials, ask, mbind, traced_bind. destruct (bw_load_credentials _ w). by intros a [= <-]. Qed.

Lemma reports_check o expected metric message :
  reports (check_counts output o expected metric message) [MSaw expected; MSaw expected] (λ _, True).
Proof using Type*.
  unfold check_counts. eapply succeeds_bind; [apply succeeds_saw_requests|]. cbn. intros r ? ->.
  apply (succeeds_bind _ _ (λ (agree : bool) l, agree = true → r = expected ∧ l = [SawCredentials o expected])).
  - destruct (N.eqb_spec r expected) as [->|]; [|by apply succeeds_ret].
    eapply succeeds_bind; [apply succeeds_saw_credentials|]. cbn. intros c ? ->. apply succeeds_ret.
    intros ->%N.eqb_eq. by rewrite app_nil_r.
  - intros [] l Hl.
    + destruct (Hl eq_refl) as [-> ->]. by apply succeeds_ret.
    + apply (succeeds_mono _ (λ _ _, False)); [|done].
      do 3 (apply fails_after; intros ?). apply succeeds_raise.
Qed.

Lemma reports_http1 session origin authority der :
  reports (http1_trials texts credential_seed b output session origin authority der) http1_marks (λ _, True).
Proof using Type*.
  unfold http1_trials. apply reports_with_runtime; [apply unmarked_start|]. intros r. do 2 reports_step.
  unfold http1_marks. eapply (logs_bind _ _ _ _ _ _ (λ s, length s = N.to_nat TRIALS * N.to_nat MEASURED_REQUESTS)).
  { apply (reports_loop _ _ (λ n s, length s = n * N.to_nat MEASURED_REQUESTS)); [done|]. intros k s t. apply reports_http1_trial. }
  cbn beta. intros s Hs. eapply (logs_bind _ _ _ _ _ _ (λ _, True)); [apply reports_summary; rewrite Hs; done|]. intros _ _.
  do 4 reports_step. change (meta_marks ?l ++ ?k) with (meta_marks (take 1 l) ++ meta_marks (drop 1 l) ++ k). cbn [take drop].
  do 2 (eapply (logs_bind _ _ _ _ _ _ (λ _, True)); [by apply reports_counter_row, only_ask|intros _ _]).
  apply reports_check.
Qed.

(** *** Tunnels *)

Lemma reports_tunnel origin authority der :
  reports (tunnel_trials texts credential_seed b output origin authority der) tunnel_marks (λ _, True).
Proof using Type*.
  unfold tunnel_trials. reports_step. apply reports_with_runtime; [apply unmarked_start|]. intros r.
  eapply (logs_bind _ _ _ _ _ _ (λ s, length s = N.to_nat TRIALS * N.to_nat MEASURED_REQUESTS)).
  - apply (reports_loop _ _ (λ n s, length s = n * N.to_nat MEASURED_REQUESTS)); [done|]. intros k s t Hs.
    unfold tunnel_trial. apply reports_with_client; [apply unmarked_http1_client|]. intros c.
    unfold request_marks. rewrite <-app_assoc.
    eapply (logs_bind _ _ _ _ _ _ (λ _, True)); [apply reports_warm_up|]. intros _ _. reports_step.
    eapply (logs_bind _ _ _ _ _ _ _); [apply reports_measured|]. cbn beta. intros l Hl. repeat reports_step.
    by apply trial_samples.
  - cbn beta. intros s Hs. apply reports_summary. by rewrite Hs.
Qed.

(** *** HTTP/2 *)


Lemma reports_http2_warm_up c authority :
  reports (http2_warm_up c authority) (replicate (N.to_nat WARMUP_REQUESTS) MAnswer) (λ _, True).
Proof using Type*.
  unfold http2_warm_up. eapply logs_conv; [apply _|apply (logs_each _ _ _ (λ _, [MAnswer]))|done].
  intros i. repeat reports_step. apply reports_event.
Qed.

Lemma reports_record_h2 t l elapsed :
  reports (record_h2_trial output t l elapsed)
    (trial_marks t ["http2_median_ms"; "http2_p95_ms"; "http2_requests_per_second"]%string) (λ _, True).
Proof using Type*. unfold record_h2_trial. repeat reports_step. Qed.

Lemma reports_http2_trial c authority k s t :
  length s = k * N.to_nat MEASURED_REQUESTS →
  reports (http2_trial texts output c authority s t)
    ((upto MEASURED_REQUESTS ≫= λ i, [MAnswer; mrow "latency" t i "http2_keepalive_ms"])
     ++ trial_marks t ["http2_median_ms"; "http2_p95_ms"; "http2_requests_per_second"; "http2_process_cpu_us"]%string)
    (λ s', length s' = (1 + k) * N.to_nat MEASURED_REQUESTS).
Proof using Type*.
  intros Hs. unfold http2_trial. do 2 reports_step.
  eapply (logs_bind _ _ _ _ _ _ (λ l, length l = N.to_nat MEASURED_REQUESTS)).
  - apply (reports_loop _ _ (λ n s, length s = n)); [done|]. intros n l i Hl. do 2 reports_step.
    eapply (reports_attempt _ (λ st, http2_status _ st ≫= _) (λ e, report texts output t i _ e) [] [_; _] (λ _, True)).
    + apply logs_silent; [apply _|apply mute_try_ask].
    + intros st _. do 2 reports_step. apply (logs_bind _ _ _ _ [MAnswer] [_] (λ _, True)); [apply reports_event|].
      intros _ _. repeat reports_step. rewrite length_app. cbn. lia.
    + intros e. apply report_fails.
  - cbn beta. intros l Hl. reports_step.
    apply (logs_bind _ _ _ _ [_; _; _] [_] (λ _, True)); [apply reports_record_h2|]. intros _ _. repeat reports_step.
    by apply trial_samples.
Qed.

Lemma reports_benchmark_http2 proxy authority der :
  reports (benchmark_http2 texts output proxy authority der) http2_request_marks
    (λ s, length s = N.to_nat TRIALS * N.to_nat MEASURED_REQUESTS).
Proof using Type*.
  unfold benchmark_http2, http2_request_marks. rewrite app_assoc.
  eapply (logs_bind _ _ _ _ _ _ (λ m, length m.2 = N.to_nat TRIALS * N.to_nat MEASURED_REQUESTS)).
  - apply reports_with_client; [apply unmarked_tls_over_connect|]. intros c. do 3 reports_step.
    apply (logs_bind _ _ _ _ _ _ (λ _, True)); [apply reports_http2_warm_up|]. intros _ _.
    rewrite <-(app_nil_r (upto TRIALS ≫= _)).
    apply (logs_bind _ _ _ _ _ _ (λ s, length s = N.to_nat TRIALS * N.to_nat MEASURED_REQUESTS)).
    + apply (reports_loop _ _ (λ n s, length s = n * N.to_nat MEASURED_REQUESTS)); [done|]. intros k s t. apply reports_http2_trial.
    + cbn beta. intros s Hs. by reports_step.
  - cbn beta. intros [[cpu rss] s] Hs. by repeat reports_step.
Qed.

Lemma reports_start_origin material kind : reports (start_origin material kind) [MOriginUp] (λ _, True).
Proof using Equivalence0 Proper0.
  unfold start_origin. repeat reports_step. apply (logs_bind _ _ _ _ [_] [] (λ _, True)); [apply reports_event|].
  intros _ _. by reports_step.
Qed.
Lemma reports_abort_origin o : reports (abort_origin o) [MOriginDown] (λ _, True).
Proof using Equivalence0 Proper0. unfold abort_origin. reports_step. apply reports_event. Qed.

Lemma reports_http2 material der :
  reports (http2_trials texts credential_seed b output material der) (MOriginUp :: http2_marks) (λ _, True).
Proof using Type*.
  unfold http2_trials. apply (logs_bind _ _ _ _ [MOriginUp] http2_marks (λ _, True)); [apply reports_start_origin|]. intros o _.
  reports_step. rewrite <-(app_nil_r http2_marks). apply (logs_bind _ _ _ _ _ _ (λ _, True)); [|intros _ _; by reports_step].
  apply reports_with_runtime; [apply unmarked_start|]. intros r. unfold http2_marks.
  apply (logs_bind _ _ _ _ _ _ (λ s, length s = N.to_nat TRIALS * N.to_nat MEASURED_REQUESTS)); [apply reports_benchmark_http2|]. cbn beta. intros s Hs.
  eapply (logs_bind _ _ _ _ _ _ (λ _, True)); [apply reports_summary; rewrite Hs; done|]. intros _ _.
  change (meta_marks ?l ++ ?k) with (meta_marks (take 1 l) ++ meta_marks (drop 1 l) ++ k). cbn [take drop].
  do 2 (eapply (logs_bind _ _ _ _ _ _ (λ _, True)); [by apply reports_counter_row, only_ask|intros _ _]).
  apply reports_check.
Qed.
End reports.

(** *** The benchmark *)

Lemma reports_with_tempdir {A} R `{!Equivalence R, !Proper (R ==> R ==> R) app} (body : str → B A) K Q :
  (∀ dir, logs bench_mark_of R (body dir) K Q) → logs bench_mark_of R (with_tempdir body) K Q.
Proof using Type.
  intros Hb. unfold with_tempdir. apply logs_after; [apply _..|apply mute_try_ask|]. intros dir.
  apply logs_after; [apply _..|by apply only_event|]. intros _. apply logs_finally; [apply _..|only_auto|apply Hb].
Qed.

Lemma reports_benchmark manifest seed profile env :
  logs bench_mark_of eq (runtime_benchmark texts manifest seed profile env) benchmark_marks (λ _, True).
Proof using Type.
  unfold runtime_benchmark. apply logs_after; [apply _..|apply mute_output|]. intros output.
  unfold benchmark_marks. apply (logs_bind _ _ _ _ _ _ (λ _, True)).
  { unfold benchmark_meta, meta. apply reports_meta_then; [apply _..|].
    apply logs_after; [apply _..|apply mute_rustc|]. intros v.
    do 4 (apply reports_meta_then; [apply _..|]). apply reports_meta_last; apply _. }
  intros _ _. apply reports_with_tempdir; [apply _..|]. intros dir.
  do 2 (apply logs_after; [apply _..|apply mute_managed_ca || apply mute_tls_material|intros ?]). case_match.
  apply (logs_bind _ _ _ _ _ _ (λ _, True)); [apply reports_start_origin; apply _|]. intros origin _. cbv zeta.
  apply logs_after; [apply _..|apply mute_expect|]. intros session.
  apply (logs_bind _ _ _ _ _ _ (λ _, True)); [apply reports_startup; apply _|]. intros _ _.
  apply (logs_bind _ _ _ _ _ _ (λ _, True)); [apply reports_idle; apply _|]. intros _ _.
  apply (logs_bind _ _ _ _ _ _ (λ _, True)); [apply reports_http1; apply _|]. intros _ _.
  apply (logs_bind _ _ _ _ _ _ (λ _, True)); [apply reports_tunnel; apply _|]. intros _ _.
  rewrite (app_assoc [MOriginUp] http2_marks).
  apply (logs_bind _ _ _ _ _ _ (λ _, True)); [apply reports_http2; apply _|]. intros h2 _.
  apply (logs_bind _ _ _ _ [_] [_] (λ _, True)); [|intros _ _]; apply reports_abort_origin; apply _.
Qed.

(** *** Concurrent clients *)

#[local] Abbreviation reportsP := (logs (W:=W) (E:=trial_error) (bench_mark_of (conn:=conn)) (≡ₚ)).

Lemma in_task_reports {A} (m : B A) K (Q : A → Prop) :
  reportsP m K Q → succeeds (in_task m) (λ ended l, ∀ a, ended = Some (Ok a) → omap bench_mark_of l ≡ₚ K ∧ Q a).
Proof using Type.
  intros Hm w. unfold in_task. destruct (bw_task_panics w) as [[] w1]; [by intros ? [= <-]|].
  specialize (Hm w1). destruct (m w1) as [[[a|e] l] w2]; cbn in *.
  - intros ? [= <-] ? [= <-]. by apply Hm.
  - by destruct (unwinds e) eqn:?, e; simplify_eq/=; intros ? [= <-].
Qed.
Lemma in_task_unmarked {A} (m : B A) : unmarked m → unmarked (in_task m).
Proof using Type.
  intros Hm w. unfold in_task. destruct (bw_task_panics w) as [[] w1]; [done|]. specialize (Hm w1).
  destruct (m w1) as [[[a|e] l] w2]; [done|by destruct e].
Qed.

(** The rows of one client's latencies. *)
Definition client_marks (metric : str) (t i : N) : list bench_mark :=
  (λ k, MRow (lit "latency") t (i * MEASURED_REQUESTS + k) (metric ++ lit "_keepalive_ms")) <$> upto MEASURED_REQUESTS.

Definition measuring_answers (p : measuring) : nat :=
  match p with Waiting | Arrived => N.to_nat MEASURED_REQUESTS | Measuring n _ => n end.
Definition measuring_ok (p : measuring) : Prop :=
  match p with Measuring n l => length l + n = N.to_nat MEASURED_REQUESTS | _ => True end.

Section clients.
Context (h : characterization) (output : option str) (authority : str).

Lemma lose_client_pays {J V} debtJ debtV okJ okV (j : J) c ended l :
  succeeds (lose_client (V:=V) c ended) (λ after l', pays bench_mark_of debtJ debtV okJ okV j after (l ++ l')).
Proof using Type.
  apply (succeeds_bind _ _ (λ _ _, True)); [by intros w|]. intros [] l' _. apply succeeds_ret.
  by destruct ended as [[]|].
Qed.

(** A request of a task: when it is not answered, the task fails. *)
Lemma task_request_pays {J V} debtJ debtV okJ okV (j : J) c n (good : B (J + option (Prelude.result trial_error V))) :
  succeeds good (λ after l, ∀ l', omap bench_mark_of l' ≡ₚ [MAnswer] → pays bench_mark_of debtJ debtV okJ okV j after (l' ++ l)) →
  succeeds (in_task (send_request c authority n) ≫= λ ended,
    match ended with Some (Ok _) => good | ended => lose_client c ended end) (pays bench_mark_of debtJ debtV okJ okV j).
Proof using Type.
  intros Hg. eapply succeeds_bind; [apply (in_task_reports _ [MAnswer] (λ _, True)), reports_send; apply _|]. cbn beta.
  intros ended l Hl. destruct ended as [[[]|e]|].
  - destruct (Hl () eq_refl) as [Ha _]. eapply succeeds_mono; [exact Hg|]. cbn. intros after l' H'. by apply H'.
  - apply lose_client_pays.
  - apply lose_client_pays.
Qed.

Lemma warming_pays j :
  succeeds (warming_job h authority j)
    (pays bench_mark_of (λ j, replicate j.2 MAnswer) (λ _, []) (λ _, True) (λ _, True) j).
Proof using Type.
  destruct j as [c [|n]]; cbn [warming_job]; [by apply succeeds_ret|]. apply task_request_pays.
  apply succeeds_ret. intros l Hl. rewrite app_nil_r. cbn. by rewrite Hl.
Qed.

Lemma measuring_pays metric t j :
  measuring_ok j.2 →
  succeeds (measuring_job h authority j)
    (pays bench_mark_of (λ j, replicate (measuring_answers j.2) MAnswer ++ client_marks metric t j.1.1)
       (λ v, client_marks metric t v.1) (λ j, measuring_ok j.2) (λ v, length v.2 = N.to_nat MEASURED_REQUESTS) j).
Proof using Type.
  destruct j as [[i c] [| |[|n] l]]; cbn [measuring_job measuring_ok snd]; intros Hok.
  - by apply succeeds_ret.
  - by apply succeeds_ret.
  - apply (succeeds_bind _ _ (λ _ l, omap bench_mark_of l = [])); [by intros w ? _|]. intros [] l' Hl'. apply succeeds_ret.
    cbn. rewrite app_nil_r, Hl'. split; [lia|done].
  - apply (succeeds_bind _ _ (λ _ l, l = [])); [by apply succeeds_ask|]. intros started ? ->. cbn [app].
    apply task_request_pays. unfold since. apply (succeeds_bind _ _ (λ _ l, l = [])).
    { apply (succeeds_bind _ _ (λ _ l, l = [])); [by apply succeeds_ask|]. intros stop ? ->. by apply succeeds_ret. }
    intros elapsed ? ->. apply succeeds_ret. intros l' Hl'. cbn. rewrite app_nil_r, Hl', length_app. cbn. split; [lia|done].
Qed.

Lemma take_client_reports clients c :
  reportsP (take_client clients (Some (Ok c))) [] (λ clients', length clients' = length clients + 1).
Proof using Type. apply logs_ret; [apply _|]. by rewrite length_app. Qed.
Lemma take_client_bad clients v : (∀ a, v ≠ Some (Ok a)) → succeeds (take_client clients v : B _) (λ _ _, False).
Proof using Type.
  intros Hv. destruct v as [[c|]|]; [by destruct (Hv c)|..];
    (apply (succeeds_bind _ _ (λ _ _, False)); [by apply succeeds_of_result|done]).
Qed.

Lemma bind_replicate {A C} (l : list A) (x : C) n : l ≫= (λ _, replicate n x) = replicate (length l * n) x.
Proof using Type. induction l as [|a l IH]; [done|]. cbn. by rewrite IH, replicate_add. Qed.

Lemma reports_warmed proxy root concurrency :
  reportsP (warmed_clients h proxy authority root concurrency)
    (replicate (N.to_nat concurrency * N.to_nat WARMUP_REQUESTS) MAnswer) (λ clients, length clients = N.to_nat concurrency).
Proof using Type.
  unfold warmed_clients. apply (logs_bind _ _ _ _ [] _ (λ clients, length clients = N.to_nat concurrency)).
  - eapply logs_mono; [apply _|apply (reports_silent_tasks _ _ _ _ _ _ _ _ _ _ length)|reflexivity|].
    + intros j. unfold opening_job. only_step; [apply in_task_unmarked, unmarked_http1_client|only_auto].
    + apply take_client_reports.
    + intros acc v. apply take_client_bad.
    + cbn. intros clients ->. unfold upto. by rewrite length_fmap, length_seq.
  - intros clients Hn. eapply logs_mono; [apply _| | |].
    + apply (join_spawned_logs _ _ _ _ _ _ _ bench_mark_of (λ j, replicate j.2 MAnswer) (λ _, []) (λ _, True) (λ _, True) length 1).
      * intros j _. apply warming_pays.
      * intros acc c _. apply take_client_reports.
      * intros acc v. apply take_client_bad.
      * by apply Forall_true.
    + rewrite list_fmap_bind. unfold compose. cbn [snd]. by rewrite bind_replicate, Hn.
    + cbn. intros acc ->. rewrite length_fmap. lia.
Qed.

(** *** The measured requests *)

Lemma imap_bind_fmap {A C} (f : N → C) (l : list A) k :
  imap (λ i x, (i + k, x)) l ≫= (λ a, [f (N.of_nat a.1)]) = f <$> (N.of_nat <$> seq k (length l)).
Proof using Type.
  revert k. induction l as [|x l IH]; intros k; [done|]. cbn. f_equal. rewrite <-(IH (S k)). f_equal.
  apply imap_ext. intros i y _. cbn. f_equal. lia.
Qed.

Lemma reports_latencies metric t i l :
  length l = N.to_nat MEASURED_REQUESTS → reportsP (latency_rows output metric t i l) (client_marks metric t i) (λ _, True).
Proof using Type.
  intros Hl. unfold latency_rows, client_marks, upto. rewrite <-Hl, <-(imap_bind_fmap _ l 0).
  assert (imap (λ i x, (i + 0, x)) l = imap pair l) as -> by (apply imap_ext; intros; f_equal; lia).
  apply logs_each; [apply _..|]. intros a. apply reports_row_last; [apply _..|done].
Qed.

Lemma take_latencies_reports metric t acc v :
  length v.2 = N.to_nat MEASURED_REQUESTS →
  reportsP (take_latencies output metric t acc (Some (Ok v))) (client_marks metric t v.1)
    (λ acc', length acc' = length acc + N.to_nat MEASURED_REQUESTS).
Proof using Type.
  intros Hv. destruct v as [i l]. unfold take_latencies.
  apply (logs_bind _ _ _ _ [] (client_marks metric t i) (λ a, a = (i, l))); [by apply logs_of_result; [apply _|intros a [= <-]]|]. intros ? ->.
  cbn in Hv. rewrite <-(app_nil_r (client_marks _ _ _)). apply (logs_bind _ _ _ _ _ _ (λ _, True)); [by apply reports_latencies|].
  intros _ _. apply logs_ret; [apply _|]. by rewrite length_app, Hv.
Qed.
Lemma take_latencies_bad metric t acc v :
  (∀ a, v ≠ Some (Ok a)) → succeeds (take_latencies output metric t acc v : B _) (λ _ _, False).
Proof using Type.
  intros Hv. destruct v as [[a|]|]; [by destruct (Hv a)|..];
    (apply (succeeds_bind _ _ (λ _ _, False)); [by apply succeeds_of_result|done]).
Qed.

(** All clients' answers and rows. *)
Definition concurrent_marks (metric : str) (concurrency t : N) : list bench_mark :=
  replicate (N.to_nat (concurrency * MEASURED_REQUESTS)) MAnswer ++ (upto concurrency ≫= client_marks metric t).

Lemma measuring_debt metric t (clients : list conn) k :
  imap (λ i c, (N.of_nat (i + k), c, Waiting)) clients ≫=
    (λ j, replicate (measuring_answers j.2) MAnswer ++ client_marks metric t j.1.1) ≡ₚ
  replicate (length clients * N.to_nat MEASURED_REQUESTS) MAnswer
  ++ ((N.of_nat <$> seq k (length clients)) ≫= client_marks metric t).
Proof using Type.
  revert k. induction clients as [|c clients IH]; intros k; [done|]. cbn [imap length seq fmap list_fmap].
  rewrite !bind_cons. cbn [fst snd measuring_answers]. cbn [Nat.mul]. rewrite replicate_add.
  assert (imap ((λ i c, (N.of_nat (i + k), c, Waiting)) ∘ S) clients = imap (λ i c, (N.of_nat (i + S k), c, Waiting)) clients) as ->
    by (apply imap_ext; intros; cbn; do 2 f_equal; lia).
  rewrite IH. cbn [Nat.add]. solve_Permutation.
Qed.

Lemma reports_trial_latencies metric concurrency t clients :
  length clients = N.to_nat concurrency →
  reportsP (trial_latencies h output authority metric concurrency t clients) (concurrent_marks metric concurrency t)
    (λ l, length l = N.to_nat (concurrency * MEASURED_REQUESTS)).
Proof using Type.
  intros Hn. unfold trial_latencies. eapply logs_mono; [apply _| | |].
  - apply (join_spawned_logs _ _ _ _ _ _ _ bench_mark_of
      (λ j, replicate (measuring_answers j.2) MAnswer ++ client_marks metric t j.1.1) (λ v, client_marks metric t v.1)
      (λ j, measuring_ok j.2) (λ v, length v.2 = N.to_nat MEASURED_REQUESTS) length (N.to_nat MEASURED_REQUESTS)).
    + intros j. apply measuring_pays.
    + intros acc v. apply take_latencies_reports.
    + intros acc v. apply take_latencies_bad.
    + apply Forall_lookup. intros i j. rewrite list_lookup_imap. destruct (clients !! i); by intros [= <-].
  - pose proof (measuring_debt metric t clients 0) as Hd.
    assert (imap (λ i c, (N.of_nat (i + 0), c, Waiting)) clients = imap (λ i c, (N.of_nat i, c, Waiting)) clients) as E
      by (apply imap_ext; intros; do 3 f_equal; lia).
    rewrite E, Hn in Hd. rewrite Hd. unfold concurrent_marks, upto. by rewrite N2Nat.inj_mul.
  - cbn. intros l ->. rewrite length_imap, Hn, N2Nat.inj_mul. done.
Qed.

(** *** The characterization *)

Definition characterization_trial_marks (metric : str) (concurrency t : N) : list bench_mark :=
  replicate (N.to_nat (concurrency * WARMUP_REQUESTS)) MAnswer ++ concurrent_marks metric concurrency t
  ++ ((λ name, MRow (lit "trial") t (concurrency * MEASURED_REQUESTS) (metric ++ lit name)) <$>
       ["_median_ms"; "_p95_ms"; "_requests_per_second"; "_wall_ms"; "_mib_per_second"; "_process_cpu_us"]%string).

Lemma reports_characterization_trial runtime der concurrency k s t :
  length s = k * N.to_nat (concurrency * MEASURED_REQUESTS) →
  reportsP (characterization_trial h output runtime authority der concurrency s t)
    (characterization_trial_marks (metric_name h concurrency) concurrency t)
    (λ s', length s' = (1 + k) * N.to_nat (concurrency * MEASURED_REQUESTS)).
Proof using Type.
  intros Hs. unfold characterization_trial, characterization_trial_marks. cbv zeta.
  rewrite (N2Nat.inj_mul concurrency WARMUP_REQUESTS).
  apply (logs_bind _ _ _ _ _ _ (λ clients, length clients = N.to_nat concurrency)); [apply reports_warmed|]. intros clients Hn.
  apply (logs_bind _ _ _ _ [] _ (λ _, True)); [apply logs_on_error, logs_silent; [apply _|apply mute_cpu_time]|].
  intros cpu _. apply logs_after; [apply _..|apply only_ask|]. intros started.
  eapply logs_bind; [apply _..|by apply reports_trial_latencies|]. cbn beta. intros l Hl.
  apply logs_after; [apply _..|apply mute_since|]. intros elapsed.
  rewrite <-(app_nil_r (_ <$> _)). apply (logs_bind _ _ _ _ _ _ (λ _, True)).
  - unfold characterization_rows. cbv zeta.
    do 2 (apply logs_after; [apply _..|apply mute_unwrap|intros ?]).
    do 5 (apply reports_row_then; [apply _..|done|]). apply logs_after; [apply _..|apply mute_cpu_time|]. intros ?.
    apply reports_row_last; [apply _..|done].
  - intros _ _. apply logs_ret; [apply _|]. rewrite length_app, Hs, Hl. lia.
Qed.
End clients.

Definition level_marks (h : characterization) (concurrency : N) : list bench_mark :=
  let metric := metric_name h concurrency in
  (upto TRIALS ≫= characterization_trial_marks metric concurrency)
  ++ summary_marks (metric ++ lit "_keepalive_ms") (TRIALS * (concurrency * MEASURED_REQUESTS)).

Definition characterization_marks (h : characterization) (levels : list N) (embedded : bool) : list bench_mark :=
  meta_marks ["profile"; "rustc"; "origin"; "cpu_affinity"; "tcp_nodelay"; "request_body_bytes"; "response_body_bytes";
              "concurrency_levels"]%string
  ++ (if embedded then [MOriginUp] else []) ++ (levels ≫= level_marks h)
  ++ (if embedded
      then [MSaw (expected_characterization levels); MSaw (expected_characterization levels)]
           ++ meta_marks ["origin_requests_expected"; "origin_requests_seen"; "credentialed_origin_requests_seen"]%string
           ++ [MOriginDown]
      else []).

Lemma reports_characterization_check output levels origin :
  reportsP (characterization_check output levels origin)
    ([MSaw (expected_characterization levels); MSaw (expected_characterization levels)]
     ++ meta_marks ["origin_requests_expected"; "origin_requests_seen"; "credentialed_origin_requests_seen"]%string
     ++ [MOriginDown]) (λ _, True).
Proof using Type.
  unfold characterization_check. cbv zeta. set (expected := expected_characterization levels).
  eapply succeeds_bind; [apply succeeds_saw_requests|]. cbn beta. intros r ? ->.
  eapply succeeds_bind; [apply succeeds_saw_credentials|]. cbn beta. intros c ? ->.
  destruct (negb (r =? expected)%N || negb (c =? expected)%N) eqn:Hb.
  - apply (succeeds_mono _ (λ _ _, False)); [|done]. do 3 (apply fails_after; intros ?). apply succeeds_raise.
  - bool_prop. repeat match goal with H : (_ =? _)%N = true |- _ => apply N.eqb_eq in H as -> end.
    eapply succeeds_mono.
    + do 3 eapply (reports_meta_then (≡ₚ)). apply (reports_abort_origin (≡ₚ)).
    + cbn beta. intros _ l [Hl _]. cbn [app omap list_omap bench_mark_of]. split; [|done]. by rewrite Hl.
Qed.

Lemma reports_characterization_origin external material bytes :
  reportsP (characterization_origin external material bytes) (match external with None => [MOriginUp] | Some _ => [] end)
    (λ o, o.2 = None ↔ external ≠ None).
Proof using Type.
  destruct external as [address|]; cbn [characterization_origin].
  - apply logs_after; [apply _..|apply only_of_result|]. intros [[] port]; [by apply logs_ret; [apply _|]|apply logs_raise].
  - apply (logs_bind _ _ _ _ [MOriginUp] [] (λ _, True)); [apply reports_start_origin; apply _|]. intros o _.
    apply logs_ret; [apply _|]. cbn. split; [done|by intros []].
Qed.

Lemma reports_level h output runtime authority der concurrency :
  reportsP (all_latencies ← fold_each (upto TRIALS) (characterization_trial h output runtime authority der concurrency) [];
            summary output (metric_name h concurrency ++ lit "_keepalive_ms") all_latencies)
    (level_marks h concurrency) (λ _, True).
Proof using Type.
  apply (logs_bind _ _ _ _ _ _ (λ s, length s = N.to_nat TRIALS * N.to_nat (concurrency * MEASURED_REQUESTS))).
  - apply (reports_loop _ _ _ (λ n s, length s = n * N.to_nat (concurrency * MEASURED_REQUESTS))); [done|].
    intros k s t. apply reports_characterization_trial.
  - intros s Hs. apply reports_summary; [apply _..|]. rewrite Hs. lia.
Qed.

(** The settings of a characterization. *)
Definition characterization_settings (env : str → option str) (h : characterization) (levels : list N) : Prop :=
  benchmark_concurrency_levels env = Ok levels ∧
  benchmark_body_bytes env (lit "BAFFLE_BENCH_REQUEST_BYTES") REQUEST_BODY_BYTES = Ok (ch_request_bytes h) ∧
  benchmark_body_bytes env (lit "BAFFLE_BENCH_RESPONSE_BYTES") RESPONSE_BODY_BYTES = Ok (ch_response_bytes h) ∧
  ch_nodelay h = benchmark_tcp_nodelay_mode env ∧
  ch_origin_name h = match env_var env (lit "BAFFLE_BENCH_ORIGIN_ADDR") with Some _ => lit "python" | None => lit "rust" end.

Lemma succeeds_setting {A C} (r : Prelude.result bench_error A) (f : A → B C) (P : C → list (bench_event conn) → Prop) :
  (∀ a, r = Ok a → succeeds (f a) P) → succeeds (of_result (map_err Bench r) ≫= f) P.
Proof using Type.
  intros Hf. apply (succeeds_bind _ _ (λ a l, r = Ok a ∧ l = [])).
  - apply succeeds_of_result. intros a. by destruct r; intros [= ->].
  - intros a l [Ha ->]. by apply Hf.
Qed.

Lemma reports_characterization manifest seed profile env :
  succeeds (runtime_http1_characterization manifest seed profile env) (λ _ l, ∃ h levels,
    characterization_settings env h levels ∧
    omap bench_mark_of l ≡ₚ characterization_marks h levels (bool_decide (env_var env (lit "BAFFLE_BENCH_ORIGIN_ADDR") = None))).
Proof using Type.
  unfold runtime_http1_characterization. apply (succeeds_bind _ _ (λ _ l, omap bench_mark_of l = [])).
  { eapply succeeds_mono; [apply (logs_silent bench_mark_of eq), mute_output|by intros a l [Hl _]]. }
  intros output l0 Hl0. apply succeeds_setting. intros levels H1'. apply succeeds_setting. intros rq H2'.
  apply succeeds_setting. intros rs H3'. cbv zeta. set (external := env_var env (lit "BAFFLE_BENCH_ORIGIN_ADDR")).
  set (h := mkCharacterization _ _ _ _).
  eapply (succeeds_mono _ (λ _ l, omap bench_mark_of l ≡ₚ characterization_marks h levels (bool_decide (external = None)) ∧ True)).
  2: { intros a l [Hl _]. exists h, levels. split; [done|]. by rewrite omap_app, Hl0. }
  match goal with |- succeeds ?m _ =>
    change (reportsP m (characterization_marks h levels (bool_decide (external = None))) (λ _, True)) end.
  unfold characterization_marks. apply (logs_bind _ _ _ _ _ _ (λ _, True)).
  { unfold characterization_meta, meta. apply reports_meta_then; [apply _..|].
    apply logs_after; [apply _..|apply mute_rustc|]. intros v.
    do 6 (apply reports_meta_then; [apply _..|]). apply reports_meta_last; apply _. }
  intros _ _. apply reports_with_tempdir; [apply _..|]. intros dir.
  do 2 (apply logs_after; [apply _..|apply mute_managed_ca || apply mute_tls_material|intros ?]). case_match.
  assert ((if bool_decide (external = None) then [MOriginUp] else []) = match external with None => [MOriginUp] | Some _ => [] end) as ->
    by by destruct external.
  eapply logs_bind; [apply _..|apply reports_characterization_origin|]. cbn beta. intros [port origin] Ho. cbn [snd] in Ho.
  apply logs_after; [apply _..|apply mute_expect|]. intros session.
  apply reports_with_runtime; [apply _..|apply unmarked_start|]. intros r.
  apply (logs_bind _ _ _ _ _ _ (λ _, True)).
  - apply logs_each; [apply _..|]. intros concurrency. apply reports_level.
  - intros _ _. destruct origin as [origin|], external; cbn [bool_decide]; try (exfalso; naive_solver).
    + apply reports_characterization_check.
    + by apply logs_ret; [apply _|].
Qed.
End reported.

(** ** Comparisons *)

(** At each comparison with a counter: the requests answered since the origin
    was started, and the counter. *)
Fixpoint compared (answered : N) (ms : list bench_mark) : list (N * N) :=
  match ms with
  | [] => []
  | MAnswer :: ms => compared (answered + 1) ms
  | MOriginUp :: ms => compared 0 ms
  | MSaw n :: ms => (answered, n) :: compared answered ms
  | _ :: ms => compared answered ms
  end.

Lemma benchmark_compared :
  compared 0 benchmark_marks = [(expected_http1, expected_http1); (expected_http1, expected_http1);
                                (expected_http2, expected_http2); (expected_http2, expected_http2)].
Proof. by vm_compute. Qed.

(** The answered requests of a run. *)
Definition is_answer (m : bench_mark) : Prop := match m with MAnswer => True | _ => False end.
#[export] Instance is_answer_dec m : Decision (is_answer m).
Proof. destruct m; apply _. Defined.
Definition answers (ms : list bench_mark) : nat := length (filter is_answer ms).

Lemma answers_app l l' : answers (l ++ l') = answers l + answers l'.
Proof. unfold answers. by rewrite filter_app, length_app. Qed.
Lemma answers_replicate n : answers (replicate n MAnswer) = n.
Proof. induction n as [|n IH]; [done|]. change (S (answers (replicate n MAnswer)) = S n). by rewrite IH. Qed.
Lemma answers_none l : Forall (λ m, ¬ is_answer m) l → answers l = 0.
Proof. intros H. unfold answers. by rewrite filter_none. Qed.
Lemma answers_bind {A} (f : A → list bench_mark) n l : (∀ a, answers (f a) = n) → answers (l ≫= f) = length l * n.
Proof. intros Hf. induction l as [|a l IH]; [done|]. rewrite bind_cons, answers_app, IH, Hf. cbn. lia. Qed.
#[export] Instance answers_proper : Proper ((≡ₚ) ==> eq) answers.
Proof. intros l l' E. unfold answers. by rewrite E. Qed.

Lemma length_upto n : length (upto n) = N.to_nat n.
Proof. unfold upto. by rewrite length_fmap, length_seq. Qed.

Lemma answers_trial metric concurrency t :
  answers (characterization_trial_marks metric concurrency t) =
  N.to_nat (concurrency * (WARMUP_REQUESTS + MEASURED_REQUESTS)).
Proof.
  unfold characterization_trial_marks, concurrent_marks. rewrite !answers_app, !answers_replicate.
  rewrite (answers_bind _ 0) by (intros; apply answers_none; unfold client_marks; apply Forall_fmap, Forall_true; by intros ? []).
  rewrite (answers_none (_ <$> _)) by (apply Forall_fmap, Forall_true; by intros ? []). lia.
Qed.

Lemma answers_level h concurrency :
  answers (level_marks h concurrency) = N.to_nat (TRIALS * concurrency * (WARMUP_REQUESTS + MEASURED_REQUESTS)).
Proof.
  unfold level_marks. cbv zeta. rewrite answers_app, (answers_bind _ _ _ (answers_trial _ concurrency)), length_upto.
  assert (∀ m n, answers (summary_marks m n) = 0) as -> by done. unfold TRIALS, WARMUP_REQUESTS, MEASURED_REQUESTS. lia.
Qed.

Lemma answers_characterization h levels embedded :
  answers (characterization_marks h levels embedded) = N.to_nat (expected_characterization levels).
Proof.
  unfold characterization_marks, expected_characterization. rewrite !answers_app.
  assert (answers (levels ≫= level_marks h) =
    N.to_nat (TRIALS * foldr N.add 0%N levels * (WARMUP_REQUESTS + MEASURED_REQUESTS))) as ->.
  { induction levels as [|c levels IH]; [done|]. rewrite bind_cons, answers_app, IH, answers_level. cbn [foldr]. lia. }
  destruct embedded; change (answers (meta_marks ?l)) with 0; [change (answers [MOriginUp]) with 0; change (answers ([MSaw ?a; MSaw ?b] ++ ?r)) with 0|]; cbn [Nat.add]; by rewrite Nat.add_0_r.
Qed.

(** ** What the origins count *)

Section origin_counts.
Context (env : str → option str) (can_allocate : N → bool) (m : N).

(** The connections of an origin: the requests on each, and its writer. *)
Definition accepted_of (c : list origin_request * writer) : accepted :=
  Accepted true true c.2 (mkInput (concat (request_bytes <$> c.1)) false).

(** The accept loop counts the requests of all its connections, and those with
    the credential. *)
Lemma http1_origin_counts cs r0 c0 :
  Forall (λ c, Forall (origin_accepts can_allocate) c.1 ∧ reliable c.2) cs →
  http1_origin_task env can_allocate m (accepted_of <$> cs) r0 c0 =
  (r0 + N.of_nat (length (cs ≫= fst)), c0 + N.of_nat (length (credentialed (cs ≫= fst))))%N.
Proof using Type.
  intros Hcs. revert r0 c0. induction Hcs as [|[rs w] cs [Hrs Hw] _ IH]; intros r0 c0; cbn [fmap list_fmap http1_origin_task].
  { cbn. f_equal; lia. }
  cbn [accepted_of fst snd] in *. rewrite andb_false_r. unfold connection_counts. cbn [negb in_bytes].
  destruct (serve_http1_all can_allocate (S (length (concat (request_bytes <$> rs)))) m (mkOrigin 0 0 w) rs Hrs Hw) as (w' & _ & _ & ->).
  { enough (length rs ≤ length (concat (request_bytes <$> rs))) by lia. by eapply length_requests. }
  cbn [og_requests og_credentials]. rewrite IH, bind_cons. cbn [fst]. unfold credentialed. rewrite filter_app, !length_app. f_equal; lia.
Qed.
End origin_counts.

Definition carries_token (headers : list (str * str)) : bool :=
  match List.find (λ h, str_eqb h.1 (lit "x-bench-token")) headers with Some h => str_eqb h.2 TOKEN | None => false end.

(** The HTTP/2 service counts every request, and those whose first token is
    the credential; the client's own value is not. *)
Lemma http2_origin_counts requests :
  http2_origin_task requests =
  (N.of_nat (length requests), N.of_nat (length (filter (λ hs, carries_token hs = true) requests))).
Proof.
  unfold http2_origin_task.
  enough (∀ r c, foldl http2_origin_request (r, c) requests =
    (r + N.of_nat (length requests), c + N.of_nat (length (filter (λ hs, carries_token hs = true) requests)))%N) as H by apply H.
  induction requests as [|hs requests IH]; intros r c; cbn [foldl length]; [cbn; f_equal; lia|].
  unfold http2_origin_request at 2. cbn [fst snd].
  assert (bool_decide ((snd <$> List.find (λ h, str_eqb h.1 (lit "x-bench-token")) hs) ≫=
    (λ v, if forallb (λ c, in_range 32 126 c || bool_decide (c = "009")) v then Some v else None) = Some TOKEN) = carries_token hs) as ->.
  { unfold carries_token. destruct (List.find _ hs) as [[k v]|]; cbn; [|done].
    destruct (decide (v = TOKEN)) as [->|Hne]; [by vm_compute|].
    trans false; [|symmetry; by apply bool_decide_eq_false_2].
    apply bool_decide_eq_false_2. destruct (forallb _ v); [|done]. intros E. apply Hne. by injection E as ->. }
  rewrite IH, filter_cons.
  destruct (carries_token hs); [rewrite decide_True by done|rewrite decide_False by done]; cbn [length]; f_equal; lia.
Qed.

Lemma attacker_without_token authority : carries_token (h2_headers (http2_request authority)) = false.
Proof. done. Qed.

(** ** A world in which the programs succeed *)

Module DemoBench.
#[local] Instance crypto : CaCrypto := {|
  KeyPair := unit; Issuer := unit; X509 := unit; PKey := unit;
  self_signed := λ _ _, None; serialize_pem := λ _, []; public_key_pem := λ _, [];
  key_pair_from_pem := λ _, Some (); parse_x509_pem := λ pem, Some ([], mkPem (lit "CERTIFICATE") pem);
  parse_x509_certificate := λ _, None; issuer_from_ca_cert_pem := λ _ _, None; signs_probe := λ _, false;
  x509_from_pem := λ _, None; private_key_from_pem := λ _, None |}.

(** The time, the requests each origin has seen, and how many origins run. *)
Record demo := mkDemo { dw_time : N; dw_http1 : N; dw_http2 : N; dw_origins : N }.
Definition tick (w : demo) : demo := mkDemo (dw_time w + 1000000) (dw_http1 w) (dw_http2 w) (dw_origins w).
Definition answer : str := lit "HTTP/1.1 200 OK" ++ CRLF ++ lit "Content-Length: 0" ++ CRLF ++ CRLF.

#[local] Instance world : BenchWorld demo unit := {|
  bw_now := λ w, (dw_time w, tick w);
  bw_sleep := λ _ w, w;
  bw_getrusage := λ w, (Ok (0, 0, (0, 0))%N, w);
  bw_read := λ path w, (Ok (lit "VmRSS: 100 kB"), w);
  bw_exists := λ _ w, (false, w);
  bw_create_dir_all := λ _ w, (Ok (), w);
  bw_write := λ _ _ _ w, (Ok (), w);
  bw_copy := λ _ _ w, (Ok (), w);
  bw_set_permissions := λ _ _ w, (Ok (), w);
  bw_eprint := λ _ w, (true, w);
  bw_tempdir := λ w, (Ok (lit "/tmp/bench"), w);
  bw_remove_dir := λ _ w, w;
  bw_rustc := λ w, (None, w);
  bw_load_ca := λ _ w, (Ok (mkManagedCa () () []), w);
  bw_server_config := λ _ key, Some key;
  bw_start := λ _ _ _ w, (Ok (), w);
  bw_shutdown := λ _ _ w, w;
  bw_drop_runtime := λ _ w, w;
  bw_connect := λ _ w, (Ok (), w);
  bw_io := λ _ w, ((mkWriter [] [] false, mkInput answer false), w);
  bw_after := λ _ s _ w, if starts_with (lit "POST") (w_written s)
                         then mkDemo (dw_time w) (dw_http1 w + 1) (dw_http2 w) (dw_origins w) else w;
  bw_tls_connect := λ _ _ _ w, (Ok (), w);
  bw_drop_conn := λ _ w, w;
  bw_h2_handshake := λ _ w, (Ok (), w);
  bw_h2_ready := λ _ w, (Ok (), w);
  bw_h2_send := λ _ _ w, (Ok 200%N, mkDemo (dw_time w) (dw_http1 w) (dw_http2 w + 1) (dw_origins w));
  bw_can_allocate := λ _, true;
  bw_listen := λ w, (Ok (dw_origins w), mkDemo (dw_time w) (dw_http1 w) (dw_http2 w) (dw_origins w + 1));
  bw_local_port := λ _ w, (Ok 8443%N, w);
  bw_serve := λ _ _ _ w, w;
  bw_load_requests := λ o w, (if (o =? 0)%N then dw_http1 w else dw_http2 w, w);
  bw_load_credentials := λ o w, (if (o =? 0)%N then dw_http1 w else dw_http2 w, w);
  bw_abort := λ _ w, w;
  bw_task_panics := λ w, (false, w);
  bw_wakes := λ w, (1, w);
  bw_pick := λ n w, (n - 1, w) |}.

Definition texts : bench_texts := mkBenchTexts (λ _, []) id dec [].
Definition env (name : str) : option str := if str_eqb name (lit "BAFFLE_BENCH_CONCURRENCY") then Some (lit "1") else None.
Definition start : demo := mkDemo 0 0 0 0.

(** Both programs succeed there. *)
Example demo_benchmark :
  (@runtime_benchmark demo unit crypto world plain_crypto plain_host_parse texts [] [] [] env start).1.1 = Ok ().
Proof. vm_compute. reflexivity. Qed.
Example demo_characterization :
  (@runtime_http1_characterization demo unit crypto world plain_crypto plain_host_parse [] [] [] env start).1.1 = Ok ().
Proof. vm_compute. reflexivity. Qed.
End DemoBench.
