(* ===== verification/BenchOwners.v ===== *)
(** What the programs of the runtime benchmark start, they stop: on every exit,
    in every world, each runtime was shut down or dropped, each client closed and
    the temporary directory removed; and the bounds of the model are never met. *)

From S2P Require Import Prelude RustStr RustPath PolicyTypes DnsName SessionDoc SessionPolicy Secrets ProxyRuntime AsyncIo.
From S2P Require Import CertAuthority DaemonConfig TestTrust Numerals MeasureSessions RuntimeBench Traced BenchTrials JoinSets BenchTrialsProps.
From stdpp Require Import options.
Local Open Scope char_scope.

Inductive bench_handle (conn : Type) := HRuntime (r : Runtime) | HClient (c : conn) | HDir (path : str).
Arguments HRuntime {conn}. Arguments HClient {conn}. Arguments HDir {conn}.

Definition bench_up {conn} (e : bench_event conn) : option (bench_handle conn) :=
  match e with RuntimeUp r => Some (HRuntime r) | ClientUp c => Some (HClient c) | DirUp p => Some (HDir p) | _ => None end.
Definition bench_down {conn} (e : bench_event conn) : option (bench_handle conn) :=
  match e with
  | RuntimeDown r | RuntimeDropped r => Some (HRuntime r)
  | ClientDown c => Some (HClient c)
  | DirDown p => Some (HDir p)
  | _ => None
  end.

Section owners.
Context {W conn : Type} `{CaCrypto, !BenchWorld W conn, Crypto, UrlHost} (texts : bench_texts) (credential_seed : CredentialSeed).
#[local] Abbreviation B := (traced W (bench_event conn) trial_error).
#[local] Abbreviation neutral := (only (W:=W) (E:=trial_error) (λ e : bench_event conn, bench_up e = None ∧ bench_down e = None)).
#[local] Abbreviation moves := (flow (W:=W) (E:=trial_error) (bench_up (conn:=conn)) bench_down void).
#[local] Abbreviation frees := (cleans (W:=W) (E:=trial_error) (bench_up (conn:=conn)) bench_down).

(** *** Programs that own nothing *)

Lemma neutral_row output kind t i metric value : neutral (row output kind t i metric value).
Proof using Type. unfold row, panic. only_auto. Qed.
#[local] Hint Resolve neutral_row : traced.
Lemma neutral_summary output metric values : neutral (summary output metric values).
Proof using Type. unfold summary. only_auto. Qed.
Lemma neutral_report {A} output t i metric e : neutral (report (A:=A) texts output t i metric e).
Proof using Type. unfold report. only_auto. Qed.
Lemma neutral_send c authority n : neutral (send_request c authority n).
Proof using Type. unfold send_request. only_auto. Qed.
Lemma neutral_attempt {A} (m : B A) : neutral m → neutral (attempt m).
Proof using Type.
  intros Hm w. specialize (Hm w). unfold attempt. destruct (m w) as [[[a|e] l] w1]; [done|]. by destruct (unwinds e).
Qed.
#[local] Hint Resolve neutral_summary neutral_report neutral_send neutral_attempt : traced.

Lemma moves_neutral {A} F (m : B A) : neutral m → moves F m (λ _, F) F.
Proof using Type. apply flow_only. Qed.

(** *** Acquiring and releasing *)

Lemma moves_event F e he :
  moves (option_list (bench_down e) ++ F) (event e) (λ _, option_list (bench_up e) ++ F) he.
Proof using Type. apply yields_event. right. cbn. destruct (bench_up e), (bench_down e); cbn; solve_Permutation. Qed.

Lemma frees_client c F : frees (HClient c :: F) (drop_client c) F.
Proof using Type. by intros w. Qed.
Lemma frees_runtime r F : frees (HRuntime r :: F) (drop_runtime r) F.
Proof using Type. by intros w. Qed.
Lemma frees_shutdown r F : frees (HRuntime r :: F) (shutdown_runtime r) F.
Proof using Type. by intros w. Qed.
Lemma frees_runtimes rs F : frees ((HRuntime <$> rs) ++ F) (drop_runtimes rs) F.
Proof using Type.
  rewrite <-list_bind_singleton. apply cleans_each. intros r F'. apply frees_runtime.
Qed.
Lemma frees_clients cs F : frees ((HClient <$> cs) ++ F) (drop_clients cs) F.
Proof using Type. rewrite <-list_bind_singleton. apply cleans_each. intros c F'. apply frees_client. Qed.

Lemma moves_start b id session path F : moves F (start_runtime credential_seed b id session path) (λ r, HRuntime r :: F) F.
Proof using Type.
  unfold start_runtime. apply (flow_bind _ _ _ _ _ _ (λ _, F)); [apply moves_neutral, only_ask|]. intros bound.
  destruct (start_with_options _ _) as [r|e]; [|apply flow_raise].
  apply (flow_bind _ _ _ _ _ _ (λ _, HRuntime r :: F)); [apply (moves_event F (RuntimeUp r))|].
  intros []. apply (flow_ret _ _ _ r (λ r, HRuntime r :: F)).
Qed.

Lemma moves_tls_over_connect proxy authority root alpn F :
  moves F (tls_over_connect proxy authority root alpn) (λ c, HClient c :: F) F.
Proof using Type.
  unfold tls_over_connect. apply (flow_bind _ _ _ _ _ _ (λ _, F)); [apply moves_neutral, mute_try_ask|]. intros c.
  apply (flow_bind _ _ _ _ _ _ (λ _, HClient c :: F)); [apply (moves_event F (ClientUp c))|]. intros [].
  apply (flow_bind _ _ _ _ _ _ (λ _, HClient c :: F)).
  - eapply flow_on_error; [apply moves_neutral; only_auto|apply frees_client].
  - intros []. apply (flow_ret _ _ _ c (λ c, HClient c :: F)).
Qed.

(** A runtime or a client around a program. *)
Lemma moves_with_runtime {A} start (body : Runtime → B A) F :
  moves F start (λ r, HRuntime r :: F) F → (∀ r F, moves F (body r) (λ _, F) F) → moves F (with_runtime start body) (λ _, F) F.
Proof using Type.
  intros Hs Hb. unfold with_runtime. eapply flow_bind; [exact Hs|]. cbn. intros r.
  apply (flow_bind _ _ _ _ _ _ (λ _, HRuntime r :: F)); [eapply flow_on_error; [apply Hb|apply frees_runtime]|]. intros a.
  apply (flow_bind _ _ _ _ _ _ (λ _, F)); [apply cleans_flow, frees_shutdown|]. intros []. apply (flow_ret _ _ _ a (λ _, F)).
Qed.
Lemma moves_with_client {A} open (body : conn → B A) F :
  moves F open (λ c, HClient c :: F) F → (∀ c, neutral (body c)) → moves F (with_client open body) (λ _, F) F.
Proof using Type.
  intros Ho Hb. unfold with_client. eapply flow_bind; [exact Ho|]. cbn. intros c.
  eapply flow_finally; [by apply moves_neutral|apply frees_client].
Qed.
Lemma moves_with_tempdir {A} (body : str → B A) :
  (∀ dir F, moves F (body dir) (λ _, F) F) → moves [] (with_tempdir body) (λ _, []) [].
Proof using Type.
  intros Hb. unfold with_tempdir. apply (flow_bind _ _ _ _ _ _ (λ _, [])); [apply moves_neutral, mute_try_ask|]. intros dir.
  apply (flow_bind _ _ _ _ _ _ (λ _, [HDir dir])); [apply (moves_event [] (DirUp dir))|]. intros [].
  eapply flow_finally; [apply Hb|]. by intros w.
Qed.

(** *** Tasks *)

(** The failure of a task's body is the task's result. *)
Lemma moves_in_task {A} (m : B A) F (h : A → list (bench_handle conn)) he :
  moves F m h F →
  moves F (in_task m) (λ ended, match ended with Some (Ok a) => h a | _ => F end) he.
Proof using Type.
  intros Hm w. unfold in_task. destruct (bw_task_panics w) as [[] w1]; [by right|].
  specialize (Hm w1). destruct (m w1) as [[[a|e] l] w2]; cbn in *; [by destruct Hm as [[]|Hm]; right|].
  destruct Hm as [Hv|Hm]; [by destruct e; left|].
  destruct e as [e|x e|text|m1 s1| | |message|]; cbn; try (by left); right; try (destruct (unwinds _)); try (destruct e); cbn; by rewrite Hm.
Qed.

Section trials.
Context (b : bench) (output : option str).

Lemma moves_ret {A} F (a : A) h he : F ≡ₚ h a → moves F (mret a) h he.
Proof using Type. intros E. apply yields_ret. by right. Qed.

(** A program that always fails. *)
Lemma moves_fails {A} F (m : B A) h : neutral m → succeeds m (λ _ _, False) → moves F m h F.
Proof using Type.
  intros Hn Hf w. pose proof (moves_neutral F m Hn w) as Hm. specialize (Hf w). destruct (m w) as [[[a|e] l] w1]; cbn in *; [|done].
  by destruct (Hf a).
Qed.

(** A program that cannot fail. *)
Lemma moves_sure {A} F (m : B A) he : yields m (λ r l, is_ok r = true ∧ l = []) → moves F m (λ _, F) he.
Proof using Type. intros Hm. eapply yields_mono; [exact Hm|]. cbn. intros [a|e] l [Hr ->]; [by right|done]. Qed.
Lemma sure_clock : yields (clock (W:=W) (conn:=conn)) (λ r l, is_ok r = true ∧ l = []).
Proof using Type. by apply yields_ask. Qed.
Lemma sure_since n : yields (since (W:=W) (conn:=conn) n) (λ r l, is_ok r = true ∧ l = []).
Proof using Type.
  unfold since. eapply yields_bind; [apply sure_clock| |by intros e l [? _]]. cbn. intros a l [_ ->]. by apply yields_ret.
Qed.

Lemma moves_startup session F : moves F (startup_trials credential_seed b output session) (λ _, F) F.
Proof using Type.
  unfold startup_trials. apply (flow_bind _ _ _ _ _ _ (λ _, F)); [|intros s; apply moves_neutral; only_auto].
  apply (flow_fold _ _ _ _ _ (λ _, F)). intros s t. unfold startup_trial.
  apply (flow_bind _ _ _ _ _ _ (λ _, F)); [apply moves_neutral, only_ask|]. intros started.
  eapply flow_bind; [apply moves_start|]. cbn beta. intros r.
  apply (flow_bind _ _ _ _ _ _ (λ _, HRuntime r :: F)); [apply moves_sure, sure_since|]. intros start_elapsed.
  apply (flow_bind _ _ _ _ _ _ (λ _, HRuntime r :: F)); [apply moves_sure, sure_clock|]. intros stopped.
  apply (flow_bind _ _ _ _ _ _ (λ _, F)); [apply cleans_flow, frees_shutdown|]. intros [].
  apply moves_neutral. only_auto.
Qed.

Lemma moves_idle session n t F : moves F (idle_trial credential_seed b output session n t) (λ _, F) F.
Proof using Type.
  unfold idle_trial. do 2 (apply (flow_bind _ _ _ _ _ _ (λ _, F)); [apply moves_neutral; unfold clock; only_auto|intros ?]).
  apply (flow_bind _ _ _ _ _ _ (λ rs, (HRuntime <$> rs) ++ F)).
  - eapply flow_mono; [apply (flow_fold _ _ _ _ _ (λ rs, (HRuntime <$> rs) ++ F) F [])|done..]. intros rs i.
    eapply flow_bind; [eapply flow_on_error; [apply moves_start|apply frees_runtimes]|]. cbn beta. intros r.
    apply moves_ret. rewrite fmap_app. cbn. solve_Permutation.
  - intros rs. apply (flow_bind _ _ _ _ _ _ (λ _, (HRuntime <$> rs) ++ F)).
    + eapply flow_on_error; [apply moves_neutral; unfold sleep_millis; only_auto|apply frees_runtimes].
    + intros _. apply cleans_flow. rewrite <-list_bind_singleton. apply cleans_each. intros r F'. apply frees_shutdown.
Qed.

Lemma moves_teardown t n rs F : moves ((HRuntime <$> rs) ++ F) (concurrent_teardown output t n rs) (λ _, F) F.
Proof using Type.
  induction rs as [|r rs IH]; cbn [concurrent_teardown]; [apply (flow_ret _ _ _ () (λ _, F))|].
  apply (flow_bind _ _ _ _ _ _ (λ _, (HRuntime <$> rs) ++ F)); [apply cleans_flow, frees_shutdown|]. intros [].
  apply (flow_bind _ _ _ _ _ _ (λ _, (HRuntime <$> rs) ++ F)); [|done].
  eapply flow_on_error; [apply moves_neutral; only_auto|apply frees_runtimes].
Qed.

Lemma moves_concurrent_create session n t F :
  moves F (concurrent_create_trial texts credential_seed b output session n t) (λ _, F) F.
Proof using Type.
  unfold concurrent_create_trial.
  do 2 (apply (flow_bind _ _ _ _ _ _ (λ _, F)); [apply moves_neutral; unfold clock; only_auto|intros ?]).
  apply (flow_bind _ _ _ _ _ _ (λ rs, (HRuntime <$> rs) ++ F)).
  - eapply flow_mono; [apply (join_spawned_flow _ _ _ _ _ _ _ bench_up bench_down (λ _, []) (λ r, [HRuntime r]) (fmap HRuntime))| |done|done].
    + intros i F' he. eapply flow_bind; [apply moves_in_task, moves_start|]. cbn beta. intros ended.
      apply moves_ret. by destruct ended as [[]|].
    + intros rs v F'. destruct v as [[r|e]|]; cbn [take_created hT].
      * apply moves_ret. rewrite fmap_app. cbn. solve_Permutation.
      * apply moves_fails; [apply neutral_report|apply report_fails].
      * apply moves_fails; [apply neutral_report|apply report_fails].
    + intros i F'. apply cleans_ret.
    + intros r F'. apply frees_runtime.
    + intros rs F'. apply frees_runtimes.
    + by rewrite list_bind_nothing.
  - intros rs. apply (flow_bind _ _ _ _ _ _ (λ _, (HRuntime <$> rs) ++ F)).
    + eapply flow_on_error; [apply moves_neutral; unfold sleep_millis; only_auto|apply frees_runtimes].
    + intros _. apply moves_teardown.
Qed.

Lemma moves_idles session F : moves F (idle_trials texts credential_seed b output session) (λ _, F) F.
Proof using Type.
  unfold idle_trials. apply flow_each. intros n. apply flow_each. intros t.
  apply (flow_bind _ _ _ _ _ _ (λ _, F)); [apply moves_idle|]. intros _. apply moves_concurrent_create.
Qed.

(** *** Requests *)

Lemma neutral_warm_up c authority t metric : neutral (warm_up_requests texts output c authority t metric).
Proof using Type. unfold warm_up_requests. only_auto. Qed.
Lemma neutral_measured c authority t failure metric : neutral (measured_requests texts output c authority t failure metric).
Proof using Type. unfold measured_requests, clock. only_auto. Qed.
#[local] Hint Resolve neutral_warm_up neutral_measured : traced.
#[local] Hint Unfold clock sleep_millis load_requests load_credentials saw_requests saw_credentials counter_row check_counts
  record_h2_trial http2_trial http2_warm_up abort_origin : traced.

(** A program in which clients come and go. *)
Ltac moves_auto :=
  repeat lazymatch goal with
  | |- flow _ _ _ ?F (with_client _ _) _ _ => apply moves_with_client; [apply moves_tls_over_connect|intros ?; autounfold with traced; only_auto]
  | |- flow _ _ _ ?F (fold_each _ _ _) _ _ => apply (flow_fold _ _ _ _ _ (λ _, F)); intros ? ?
  | |- flow _ _ _ ?F (with_runtime _ _) _ _ => apply moves_with_runtime; [apply moves_start|intros ? ?]
  | |- flow _ _ _ ?F (_ ≫= _) _ _ => apply (flow_bind _ _ _ _ _ _ (λ _, F)); [|intros ?]
  | |- flow _ _ _ ?F (each _ _) _ _ => apply flow_each; intros ?
  end.

Lemma moves_http1 session origin authority der F :
  moves F (http1_trials texts credential_seed b output session origin authority der) (λ _, F) F.
Proof using Type.
  unfold http1_trials, http1_trial. moves_auto; try (apply moves_neutral; autounfold with traced; only_auto).
Qed.
Lemma moves_tunnel origin authority der F :
  moves F (tunnel_trials texts credential_seed b output origin authority der) (λ _, F) F.
Proof using Type.
  unfold tunnel_trials, tunnel_trial. moves_auto; try (apply moves_neutral; autounfold with traced; only_auto).
Qed.
Lemma moves_http2 material der F :
  moves F (http2_trials texts credential_seed b output material der) (λ _, F) F.
Proof using Type.
  unfold http2_trials, benchmark_http2, start_http2_origin, start_origin.
  moves_auto; try (apply moves_neutral; autounfold with traced; only_auto).
Qed.

(** *** Concurrent clients *)

Section clients.
Context (h : characterization) (authority : str).

Lemma moves_take_client cs v F :
  moves (hT (λ c, [HClient c]) v ++ (HClient <$> cs) ++ F) (take_client cs v) (λ cs', (HClient <$> cs') ++ F) ((HClient <$> cs) ++ F).
Proof using Type.
  destruct v as [[c|e]|].
  - apply (moves_ret _ (cs ++ [c])). cbn [hT]. rewrite fmap_app. cbn. solve_Permutation.
  - apply moves_fails; [unfold take_client; only_auto|by apply take_client_bad].
  - apply moves_fails; [unfold take_client; only_auto|by apply take_client_bad].
Qed.

Lemma moves_lose {J V} c ended (hJ : J → list (bench_handle conn)) (hV : V → list (bench_handle conn)) F he :
  moves (HClient c :: F) (lose_client c ended) (λ after, hO hJ hV after ++ F) he.
Proof using Type.
  apply (flow_bind _ _ _ _ _ _ (λ _, F)); [apply cleans_flow, frees_client|]. intros []. apply moves_ret. by destruct ended as [[]|].
Qed.

(** A request of a task keeps its client, or the task loses it. *)
Lemma moves_task_request {J V} c n (good : B (J + option (Prelude.result trial_error V))) hJ hV F he :
  moves (HClient c :: F) good (λ after, hO hJ hV after ++ F) he →
  moves (HClient c :: F) (in_task (send_request c authority n) ≫= λ ended,
    match ended with Some (Ok _) => good | ended => lose_client c ended end) (λ after, hO hJ hV after ++ F) he.
Proof using Type.
  intros Hg. eapply flow_bind; [apply (moves_in_task _ _ (λ _, HClient c :: F)), moves_neutral, neutral_send|].
  cbn beta. intros [[[]|e]|]; [exact Hg|apply moves_lose..].
Qed.

Lemma moves_warmed proxy root concurrency F :
  moves F (warmed_clients h proxy authority root concurrency) (λ cs, (HClient <$> cs) ++ F) F.
Proof using Type.
  unfold warmed_clients. apply (flow_bind _ _ _ _ _ _ (λ cs, (HClient <$> cs) ++ F)).
  - eapply flow_mono; [apply (join_spawned_flow _ _ _ _ _ _ _ bench_up bench_down (λ _, []) (λ c, [HClient c]) (fmap HClient))| |done|done].
    + intros i F' he. eapply flow_bind; [apply moves_in_task, moves_tls_over_connect|]. cbn beta. intros ended.
      apply moves_ret. by destruct ended as [[]|].
    + intros cs v F'. apply moves_take_client.
    + intros i F'. apply cleans_ret.
    + intros c F'. apply frees_client.
    + intros cs F'. apply frees_clients.
    + by rewrite list_bind_nothing.
  - intros cs. eapply flow_mono; [apply (join_spawned_flow _ _ _ _ _ _ _ bench_up bench_down (λ j, [HClient j.1]) (λ c, [HClient c]) (fmap HClient))| |done|done].
    + intros [c [|n]] F' he; cbn [warming_job]; [by apply moves_ret|]. apply moves_task_request. by apply moves_ret.
    + intros acc v F'. apply moves_take_client.
    + intros j F'. apply frees_client.
    + intros c F'. apply frees_client.
    + intros acc F'. apply frees_clients.
    + cbn. rewrite list_fmap_bind. unfold compose. cbn. by rewrite list_bind_singleton.
Qed.

Lemma moves_latencies metric concurrency t cs F :
  moves ((HClient <$> cs) ++ F) (trial_latencies h output authority metric concurrency t cs) (λ _, F) F.
Proof using Type.
  unfold trial_latencies.
  eapply flow_mono; [apply (join_spawned_flow _ _ _ _ _ _ _ bench_up bench_down (λ j, [HClient j.1.2]) (λ _, []) (λ _, [])) with (F := F)| |done|done].
  - intros [[i c] [| |[|n] l]] F' he; cbn [measuring_job fst snd].
    + by apply moves_ret.
    + by apply moves_ret.
    + apply (flow_bind _ _ _ _ _ _ (λ _, F')); [apply cleans_flow, frees_client|]. intros []. by apply moves_ret.
    + apply (flow_bind _ _ _ _ _ _ (λ _, HClient c :: F')); [apply moves_sure, sure_clock|]. intros started.
      apply moves_task_request. apply (flow_bind _ _ _ _ _ _ (λ _, HClient c :: F')); [apply moves_sure, sure_since|].
      intros elapsed. by apply moves_ret.
  - intros acc v F'. assert (hT (λ _, []) v = ([] : list (bench_handle conn))) as -> by by destruct v as [[]|]. cbn [app].
    apply moves_neutral. unfold take_latencies, latency_rows. only_auto.
  - intros j F'. apply frees_client.
  - intros v F'. apply cleans_ret.
  - intros acc F'. apply cleans_ret.
  - cbn. f_equiv. assert (∀ f : nat → N, imap (λ i c, (f i, c, Waiting)) cs ≫= (λ j, [HClient j.1.2]) = HClient <$> cs) as E.
    { induction cs as [|c cs' IH]; intros f; [done|]. cbn. f_equal. apply (IH (f ∘ S)). }
    by rewrite E.
Qed.

Lemma moves_characterization_trial runtime der concurrency s t F :
  moves F (characterization_trial h output runtime authority der concurrency s t) (λ _, F) F.
Proof using Type.
  unfold characterization_trial. eapply flow_bind; [apply moves_warmed|]. cbn beta. intros cs.
  apply (flow_bind _ _ _ _ _ _ (λ _, (HClient <$> cs) ++ F)).
  { eapply flow_on_error; [apply moves_neutral, mute_cpu_time|apply frees_clients]. }
  intros cpu. apply (flow_bind _ _ _ _ _ _ (λ _, (HClient <$> cs) ++ F)); [apply moves_sure, sure_clock|]. intros started.
  apply (flow_bind _ _ _ _ _ _ (λ _, F)); [apply moves_latencies|]. intros l.
  apply moves_neutral. unfold characterization_rows. only_auto.
Qed.
End clients.
End trials.

(** *** The programs *)

Lemma neutral_meta output metric value : neutral (meta output metric value).
Proof using Type. apply neutral_row. Qed.
#[local] Hint Resolve neutral_meta : traced.

Lemma moves_benchmark manifest profile env :
  moves [] (runtime_benchmark texts manifest credential_seed profile env) (λ _, []) [].
Proof using Type.
  unfold runtime_benchmark. apply (flow_bind _ _ _ _ _ _ (λ _, [])); [apply moves_neutral, mute_output|]. intros output.
  apply (flow_bind _ _ _ _ _ _ (λ _, [])); [apply moves_neutral; unfold benchmark_meta; only_auto|]. intros [].
  apply moves_with_tempdir. intros dir F.
  apply (flow_bind _ _ _ _ _ _ (λ _, F)); [apply moves_neutral, mute_managed_ca|]. intros ca.
  apply (flow_bind _ _ _ _ _ _ (λ _, F)); [apply moves_neutral, mute_tls_material|]. intros [der material].
  apply (flow_bind _ _ _ _ _ _ (λ _, F)); [apply moves_neutral; unfold start_http1_origin, start_origin; only_auto|]. intros origin.
  cbv zeta. apply (flow_bind _ _ _ _ _ _ (λ _, F)); [apply moves_neutral, mute_expect|]. intros session.
  apply (flow_bind _ _ _ _ _ _ (λ _, F)); [apply moves_startup|]. intros _.
  apply (flow_bind _ _ _ _ _ _ (λ _, F)); [apply moves_idles|]. intros _.
  apply (flow_bind _ _ _ _ _ _ (λ _, F)); [apply moves_http1|]. intros _.
  apply (flow_bind _ _ _ _ _ _ (λ _, F)); [apply moves_tunnel|]. intros _.
  apply (flow_bind _ _ _ _ _ _ (λ _, F)); [apply moves_http2|]. intros h2.
  apply moves_neutral. unfold abort_origin. only_auto.
Qed.

Lemma moves_characterization manifest profile env :
  moves [] (runtime_http1_characterization manifest credential_seed profile env) (λ _, []) [].
Proof using Type.
  unfold runtime_http1_characterization. apply (flow_bind _ _ _ _ _ _ (λ _, [])); [apply moves_neutral, mute_output|]. intros output.
  do 3 (apply (flow_bind _ _ _ _ _ _ (λ _, [])); [apply moves_neutral, only_of_result|intros ?]). cbv zeta.
  apply (flow_bind _ _ _ _ _ _ (λ _, [])); [apply moves_neutral; unfold characterization_meta; only_auto|]. intros [].
  apply moves_with_tempdir. intros dir F.
  apply (flow_bind _ _ _ _ _ _ (λ _, F)); [apply moves_neutral, mute_managed_ca|]. intros ca.
  apply (flow_bind _ _ _ _ _ _ (λ _, F)); [apply moves_neutral, mute_tls_material|]. intros [der material].
  apply (flow_bind _ _ _ _ _ _ (λ _, F)).
  { apply moves_neutral. unfold characterization_origin, start_http1_origin, start_origin. only_auto. }
  intros [port origin]. cbv zeta. apply (flow_bind _ _ _ _ _ _ (λ _, F)); [apply moves_neutral, mute_expect|]. intros session.
  apply moves_with_runtime; [apply moves_start|]. intros r F'. apply (flow_bind _ _ _ _ _ _ (λ _, F')).
  - apply flow_each. intros concurrency. apply (flow_bind _ _ _ _ _ _ (λ _, F')).
    + apply (flow_fold _ _ _ _ _ (λ _, F')). intros s t. apply moves_characterization_trial.
    + intros s. apply moves_neutral. only_auto.
  - intros _. apply moves_neutral. unfold characterization_check, saw_requests, saw_credentials, load_requests, load_credentials, abort_origin.
    only_auto.
Qed.
End owners.

(** ** The bounds are not met *)

Lemma send_total can_allocate w authority n i : (send_http1_request can_allocate w authority n i).1 ≠ None.
Proof.
  unfold send_http1_request, read_response. destruct (write_all _ w) as [[] w1]; [|done]. cbn [fst].
  destruct (read_line i) as [[status i1]|e]; [|done]. destruct (negb _); [done|].
  pose proof (header_loop_total client_header (S (length (in_bytes i1))) 0%N i1) as Ht.
  destruct (header_loop _ _ _ _) as [[[len i2]|e]|]; [done|done|]. exfalso. by apply Ht; [lia|].
Qed.
Lemma connect_total w authority i : (connect_proxy w authority i).1 ≠ None.
Proof.
  unfold connect_proxy. destruct (write_all _ w) as [[] w1]; [|done]. cbn [negb].
  destruct (read_line i) as [[status i1]|e]; [|done]. destruct (negb _); [done|].
  pose proof (header_loop_total (λ _ _, ()) (S (length (in_bytes i1))) () i1) as Ht.
  destruct (header_loop _ _ _ _) as [[[len i2]|e]|]; [done|done|]. exfalso. by apply Ht; [lia|].
Qed.

Section bounded.
Context {W conn : Type} `{CaCrypto, !BenchWorld W conn, Crypto, UrlHost} (texts : bench_texts) (credential_seed : CredentialSeed).
#[local] Abbreviation B := (traced W (bench_event conn) trial_error).
#[local] Abbreviation ends := (avoids (W:=W) (Ev:=bench_event conn) Stuck).

Lemma unstuck_try_ask {A} (f : W → Prelude.result str A * W) : ends (try_ask f).
Proof using Type. unfold try_ask. apply avoids_bind; [apply avoids_ask|]. intros r. apply avoids_of_result. by destruct r. Qed.
#[local] Hint Resolve unstuck_try_ask : traced.
Lemma unstuck_exchange c f : (∀ w i, (f w i).1 ≠ None) → ends (exchange c f).
Proof using Type.
  intros Hf. unfold exchange. apply avoids_bind; [apply avoids_ask|]. intros io.
  specialize (Hf io.1 io.2). destruct (f io.1 io.2) as [[[]|] w']; [avoids_auto..|done].
Qed.
Lemma unstuck_send c authority n : ends (send_request c authority n).
Proof using Type. unfold send_request. avoids_step; [|avoids_auto]. apply unstuck_exchange. intros. apply send_total. Qed.
Lemma unstuck_since n : ends (since n).
Proof using Type. unfold since, clock. avoids_auto. Qed.
Lemma unstuck_unwrap {A} (o : option A) : ends (unwrap o).
Proof using Type. apply avoids_of_result. by destruct o. Qed.
Lemma unstuck_row output kind t i metric value : ends (row output kind t i metric value).
Proof using Type. unfold row, panic. avoids_auto. Qed.
#[local] Hint Resolve unstuck_send unstuck_since unstuck_unwrap unstuck_row : traced.
Lemma unstuck_summary output metric values : ends (summary output metric values).
Proof using Type. unfold summary. avoids_auto. Qed.
Lemma unstuck_report {A} output t i metric e : e ≠ Stuck → ends (report (A:=A) texts output t i metric e).
Proof using Type. intros He. unfold report. avoids_step; [avoids_auto|]. by apply avoids_raise. Qed.
Lemma ok_or_bind_sane {A C} (o : option A) e (f : A → Prelude.result trial_error C) :
  e ≠ Stuck → (∀ a, f a ≠ Err Stuck) → ok_or o e ≫= f ≠ Err Stuck.
Proof using Type. intros He Hf. destruct o; cbn; [apply Hf|congruence]. Qed.
Lemma unstuck_read_rss : ends BenchTrials.read_rss_kib.
Proof using Type.
  unfold BenchTrials.read_rss_kib. apply avoids_bind; [apply unstuck_try_ask|]. intros status. apply avoids_of_result.
  unfold status_rss. do 2 (apply ok_or_bind_sane; [done|intros ?]). by destruct (parse_uint _ _).
Qed.
Lemma unstuck_cpu_time : ends cpu_time.
Proof using Type. unfold cpu_time. avoids_auto. Qed.
Lemma unstuck_rustc : ends rustc_version.
Proof using Type. unfold rustc_version. avoids_auto. Qed.
Lemma unstuck_expect {E} (r : Prelude.result E SessionConfig) : ends (expect_session r).
Proof using Type. unfold expect_session, panic. avoids_auto. Qed.
Lemma unstuck_output env : ends (bench_output_new env).
Proof using Type. unfold bench_output_new. avoids_auto. Qed.
Lemma unstuck_managed_ca dir path : ends (managed_ca dir path).
Proof using Type. unfold managed_ca. avoids_auto. Qed.
Lemma unstuck_tls_material dir ca : ends (tls_material dir ca).
Proof using Type.
  unfold tls_material.
  repeat (avoids_step || (by eauto with traced) || (apply avoids_of_result; repeat case_match; unfold ok_or; repeat case_match; done)).
Qed.
Lemma unstuck_start b id session path : ends (start_runtime credential_seed b id session path).
Proof using Type. unfold start_runtime. avoids_auto. Qed.
Lemma unstuck_drop_client c : ends (drop_client c).
Proof using Type. unfold drop_client. avoids_auto. Qed.
Lemma unstuck_shutdown r : ends (shutdown_runtime r).
Proof using Type. unfold shutdown_runtime. avoids_auto. Qed.
Lemma unstuck_tls_over_connect proxy authority root alpn : ends (tls_over_connect proxy authority root alpn).
Proof using Type.
  unfold tls_over_connect. avoids_auto. apply unstuck_exchange. intros. apply connect_total.
Qed.
Lemma unstuck_http1_client proxy authority root : ends (http1_client proxy authority root).
Proof using Type. apply unstuck_tls_over_connect. Qed.
#[local] Hint Resolve unstuck_summary unstuck_read_rss unstuck_cpu_time unstuck_rustc unstuck_expect unstuck_output
  unstuck_managed_ca unstuck_tls_material unstuck_start unstuck_drop_client unstuck_shutdown unstuck_tls_over_connect
  unstuck_http1_client : traced.

(** The error a handler sees is not [Stuck]. *)
Lemma unstuck_attempt {A C} (m : B A) (f : A → B C) (g : trial_error → B C) :
  ends m → (∀ a, ends (f a)) → (∀ e, e ≠ Stuck → ends (g e)) →
  ends (attempt m ≫= λ r, match r with Ok a => f a | Err e => g e end).
Proof using Type.
  intros Hm Hf Hg. apply (avoids_bind_if _ _ _ (λ r, r ≠ Err Stuck)).
  - intros w. specialize (Hm w). unfold attempt. destruct (m w) as [[[a|e] l] w1]; [done|]. cbn in Hm. destruct (unwinds e); cbn; congruence.
  - intros w. specialize (Hm w). unfold attempt. destruct (m w) as [[[a|e] l] w1]; cbn in *; [by intros ? [= <-]|].
    destruct (unwinds e); cbn; [done|]. by intros ? [= <-].
  - intros [a|e] Hr; [apply Hf|]. apply Hg. congruence.
Qed.
Lemma unstuck_in_task {A} (m : B A) : ends m → ends (in_task m).
Proof using Type.
  intros Hm w. unfold in_task. destruct (bw_task_panics w) as [[] w1]; [done|]. specialize (Hm w1).
  destruct (m w1) as [[[a|e] l] w2]; [done|]. by destruct e.
Qed.
Lemma in_task_value {A} (m : B A) : ends m → succeeds (in_task m) (λ ended _, ended ≠ Some (Err Stuck)).
Proof using Type.
  intros Hm w. unfold in_task. destruct (bw_task_panics w) as [[] w1]; [by intros ? [= <-]|]. specialize (Hm w1).
  destruct (m w1) as [[[a|e] l] w2]; [by intros ? [= <-]|]. destruct (unwinds e) eqn:?, e; cbn in *; try done; by intros ? [= <-].
Qed.

(** *** Tasks *)

Lemma all_ready {J} (running : list J) : running ≠ [] → ready_jobs (λ _ _, true) running ≠ [].
Proof using Type.
  intros Hr. destruct running as [|j running]; [done|]. unfold ready_jobs. cbn [length seq]. by rewrite filter_cons_True.
Qed.

Lemma unstuck_creates b output session n t :
  ends (join_spawned (create_job credential_seed b session n t) (λ _ _, true) (λ _, 1) (λ _, mret ()) drop_runtime
    (take_created texts output t) drop_runtimes (upto n) []).
Proof using Type.
  apply join_spawned_avoids.
  - intros j. unfold create_job. avoids_step; [apply unstuck_in_task; avoids_auto|avoids_auto].
  - intros j. unfold create_job. eapply succeeds_bind; [apply in_task_value; avoids_auto|]. cbn beta. intros ended l Hv.
    apply succeeds_ret. congruence.
  - intros rs [[r|e]|] Hv; cbn [take_created]; [avoids_auto|apply unstuck_report; congruence|by apply unstuck_report].
  - apply all_ready.
  - intros j. unfold create_job. apply (succeeds_bind _ _ (λ _ _, True)); [by intros w|]. intros ended l _. by apply succeeds_ret.
  - intros j. lia.
Qed.

Lemma unstuck_take_client cs v : v ≠ Some (Err Stuck) → ends (take_client cs v).
Proof using Type.
  intros Hv. unfold take_client. avoids_step; [|avoids_auto]. apply avoids_of_result. destruct v as [[]|]; cbn; congruence.
Qed.

(** A request of a task. *)
Lemma unstuck_lose {J V} c ended : ends (lose_client (J:=J) (V:=V) c ended).
Proof using Type. unfold lose_client. avoids_auto. Qed.
Lemma unstuck_task_request {J V} c authority n (good : B (J + option (Prelude.result trial_error V))) :
  ends good → ends (in_task (send_request c authority n) ≫= λ ended,
    match ended with Some (Ok _) => good | ended => lose_client c ended end).
Proof using Type.
  intros Hg. apply avoids_bind; [apply unstuck_in_task, unstuck_send|]. intros [[[]|e]|]; [done|apply unstuck_lose..].
Qed.
Lemma task_request_sane {J V} c authority n (good : B (J + option (Prelude.result trial_error V))) (P : J + option (Prelude.result trial_error V) → Prop) :
  succeeds good (λ after _, P after) → (∀ v, v ≠ Some (Err Stuck) → P (inr v)) →
  succeeds (in_task (send_request c authority n) ≫= λ ended,
    match ended with Some (Ok _) => good | ended => lose_client c ended end) (λ after _, P after).
Proof using Type.
  intros Hg HP. eapply succeeds_bind; [apply in_task_value, unstuck_send|]. cbn beta. intros ended l Hv.
  assert (∀ ended, ended ≠ Some (Err Stuck) → succeeds (lose_client (W:=W) (conn:=conn) (J:=J) (V:=V) c ended) (λ after _, P after)) as Hl.
  { intros ended' Hv'. apply (succeeds_bind _ _ (λ _ _, True)); [by intros w|]. intros [] l' _. apply succeeds_ret, HP.
    destruct ended' as [[]|]; congruence. }
  destruct ended as [[[]|e]|]; [done|apply Hl; congruence|by apply Hl].
Qed.

Lemma unstuck_warmed h authority proxy root concurrency : ends (warmed_clients h proxy authority root concurrency).
Proof using Type.
  unfold warmed_clients. apply avoids_bind; [|intros cs]; apply join_spawned_avoids.
  - intros j. unfold opening_job. avoids_step; [apply unstuck_in_task; avoids_auto|avoids_auto].
  - intros j. unfold opening_job. eapply succeeds_bind; [apply in_task_value; avoids_auto|]. cbn beta. intros ended l Hv.
    apply succeeds_ret. congruence.
  - intros acc v. apply unstuck_take_client.
  - apply all_ready.
  - intros j. unfold opening_job. apply (succeeds_bind _ _ (λ _ _, True)); [by intros w|]. intros ended l _. by apply succeeds_ret.
  - intros j. lia.
  - intros [c [|n]]; cbn [warming_job]; [avoids_auto|]. apply unstuck_task_request. avoids_auto.
  - intros [c [|n]]; cbn [warming_job]; [by apply succeeds_ret|]. apply task_request_sane; [by apply succeeds_ret|congruence].
  - intros acc v. apply unstuck_take_client.
  - apply all_ready.
  - intros [c [|n]]; cbn [warming_job]; [by apply succeeds_ret|].
    apply task_request_sane; [apply succeeds_ret; intros j' [= <-]; cbn; lia|done].
  - intros [c n]. cbn. lia.
Qed.

Lemma ready_jobs_nonempty {J} (ready : list J → J → bool) running i j :
  running !! i = Some j → ready running j = true → ready_jobs ready running ≠ [].
Proof using Type.
  intros Hi Hr. assert (i ∈ ready_jobs ready running) as Hin; [|by intros E; rewrite E in Hin; apply not_elem_of_nil in Hin].
  apply list_elem_of_filter. rewrite Hi, Hr. split; [done|]. apply elem_of_seq. apply lookup_lt_Some in Hi. lia.
Qed.

(** When no task waits any more, the barrier is open. *)
Lemma barrier_some_ready concurrency (spawned : nat) running :
  (concurrency ≤ N.of_nat spawned)%N → running ≠ [] → ready_jobs (barrier_ready (conn:=conn) concurrency spawned) running ≠ [].
Proof using Type.
  intros Hs Hr. destruct (filter (λ j, is_waiting j = true) running) as [|j l] eqn:E.
  - destruct running as [|j running]; [done|]. apply (ready_jobs_nonempty _ _ 0 j); [done|].
    unfold barrier_ready. rewrite E. destruct (j.2); [done| |done]. apply N.leb_le. cbn. lia.
  - assert (j ∈ filter (λ j, is_waiting j = true) running) as [Hw Hj]%list_elem_of_filter by (rewrite E; left).
    apply list_elem_of_lookup_1 in Hj as [i Hi]. apply (ready_jobs_nonempty _ _ i j); [done|].
    unfold barrier_ready. unfold is_waiting in Hw. by destruct (j.2).
Qed.

Lemma unstuck_latencies h output authority metric concurrency t cs :
  length cs = N.to_nat concurrency → ends (trial_latencies h output authority metric concurrency t cs).
Proof using Type.
  intros Hn. unfold trial_latencies. apply join_spawned_avoids.
  - intros [[i c] [| |[|n] l]]; cbn [measuring_job]; [avoids_auto..|]. avoids_step; [unfold clock; avoids_auto|].
    apply unstuck_task_request. avoids_auto.
  - intros [[i c] [| |[|n] l]]; cbn [measuring_job]; [by apply succeeds_ret|by apply succeeds_ret|..].
    + apply (succeeds_bind _ _ (λ _ _, True)); [by intros w|]. intros [] l' _. by apply succeeds_ret.
    + apply (succeeds_bind _ _ (λ _ _, True)); [by intros w|]. intros started l' _.
      apply task_request_sane; [|congruence]. apply (succeeds_bind _ _ (λ _ _, True)); [by intros w|]. intros el l2 _. by apply succeeds_ret.
  - intros acc v Hv. unfold take_latencies, latency_rows. avoids_step; [|avoids_auto].
    apply avoids_of_result. destruct v as [[]|]; cbn; congruence.
  - intros running. apply barrier_some_ready. lia.
  - intros [[i c] [| |[|n] l]]; cbn [measuring_job].
    + apply succeeds_ret. intros j' [= <-]. cbn. lia.
    + apply succeeds_ret. intros j' [= <-]. cbn. lia.
    + apply (succeeds_bind _ _ (λ _ _, True)); [by intros w|]. intros [] l' _. by apply succeeds_ret.
    + apply (succeeds_bind _ _ (λ _ _, True)); [by intros w|]. intros started l' _.
      apply task_request_sane; [|done]. apply (succeeds_bind _ _ (λ _ _, True)); [by intros w|]. intros el l2 _.
      apply succeeds_ret. intros j' [= <-]. cbn. lia.
  - intros [[i c] [| |n l]]; cbn; lia.
Qed.

(** *** Trials *)

#[local] Hint Resolve unstuck_creates unstuck_warmed unstuck_report : traced.
Ltac unstuck_auto :=
  repeat lazymatch goal with
  | |- avoids _ (attempt _ ≫= _) => apply unstuck_attempt; [|intros ?|intros ? ?]
  | |- avoids _ (with_runtime _ _) => unfold with_runtime
  | |- avoids _ (with_client _ _) => unfold with_client
  | |- _ => avoids_step || (by eauto with traced)
  end.

Lemma unstuck_teardown output t n rs : ends (concurrent_teardown output t n rs).
Proof using Type. induction rs as [|r rs IH]; cbn [concurrent_teardown]; avoids_auto. Qed.
#[local] Hint Resolve unstuck_teardown : traced.

Lemma unstuck_startups b output session : ends (startup_trials credential_seed b output session).
Proof using Type. unfold startup_trials, startup_trial, clock. unstuck_auto. Qed.
Lemma unstuck_idles b output session : ends (idle_trials texts credential_seed b output session).
Proof using Type.
  unfold idle_trials, idle_trial, concurrent_create_trial, clock, sleep_millis. unstuck_auto.
Qed.

Lemma unstuck_warm_up output c authority t metric : ends (warm_up_requests texts output c authority t metric).
Proof using Type. unfold warm_up_requests. unstuck_auto. Qed.
Lemma unstuck_measured output c authority t failure metric :
  ends (measured_requests texts output c authority t failure metric).
Proof using Type. unfold measured_requests, clock. unstuck_auto. Qed.
#[local] Hint Resolve unstuck_warm_up unstuck_measured : traced.

Lemma unstuck_check output o expected metric message : ends (check_counts output o expected metric message).
Proof using Type. unfold check_counts, saw_requests, saw_credentials, load_requests, load_credentials. unstuck_auto. Qed.
Lemma unstuck_counter_row output load metric : ends load → ends (counter_row output load metric).
Proof using Type. intros Hl. unfold counter_row. unstuck_auto. Qed.
#[local] Hint Resolve unstuck_check unstuck_counter_row avoids_ask : traced.
#[local] Hint Unfold load_requests load_credentials clock : traced.

Lemma unstuck_http1 b output session origin authority der :
  ends (http1_trials texts credential_seed b output session origin authority der).
Proof using Type. unfold http1_trials, http1_trial, clock, load_requests, load_credentials. unstuck_auto. Qed.
Lemma unstuck_tunnel b output origin authority der : ends (tunnel_trials texts credential_seed b output origin authority der).
Proof using Type. unfold tunnel_trials, tunnel_trial, clock. unstuck_auto. Qed.
Lemma unstuck_http2 b output material der : ends (http2_trials texts credential_seed b output material der).
Proof using Type.
  unfold http2_trials, benchmark_http2, http2_trial, http2_warm_up, record_h2_trial, start_http2_origin, start_origin, http2_status,
    clock, load_requests, load_credentials. unstuck_auto.
Qed.
#[local] Hint Resolve unstuck_startups unstuck_idles unstuck_http1 unstuck_tunnel unstuck_http2 : traced.

Lemma unstuck_setting {A} (r : Prelude.result bench_error A) : ends (of_result (map_err Bench r)).
Proof using Type. apply avoids_of_result. by destruct r. Qed.
#[local] Hint Resolve unstuck_setting : traced.

Lemma unstuck_benchmark manifest profile env : ends (runtime_benchmark texts manifest credential_seed profile env).
Proof using Type.
  unfold runtime_benchmark, benchmark_meta, meta, with_tempdir, start_http1_origin, start_origin, abort_origin. unstuck_auto.
Qed.

Lemma unstuck_characterization_trial h output runtime authority der concurrency s t :
  ends (characterization_trial h output runtime authority der concurrency s t).
Proof using Type.
  unfold characterization_trial. apply (avoids_bind_if _ _ _ (λ cs, length cs = N.to_nat concurrency)).
  - apply unstuck_warmed.
  - eapply succeeds_mono; [apply reports_warmed|by intros cs l [_ Hn]].
  - intros cs Hn. unfold characterization_rows, clock. avoids_step; [unstuck_auto|]. avoids_step; [unstuck_auto|].
    avoids_step; [by apply unstuck_latencies|]. unstuck_auto.
Qed.
#[local] Hint Resolve unstuck_characterization_trial : traced.

Lemma unstuck_characterization manifest profile env :
  ends (runtime_http1_characterization manifest credential_seed profile env).
Proof using Type.
  unfold runtime_http1_characterization, characterization_meta, meta, with_tempdir, characterization_origin, characterization_check,
    start_http1_origin, start_origin, abort_origin, saw_requests, saw_credentials, load_requests, load_credentials.
  unstuck_auto. apply avoids_of_result. by destruct (parse_socket_addr _).
Qed.
End bounded.

(** A run that starts and ends owning nothing. *)
Lemma balanced_end {conn} (r : Prelude.result trial_error unit) (l : list (bench_event conn)) :
  r ≠ Err Stuck → is_void void r ∨ omap bench_up l ++ [] ≡ₚ omap bench_down l ++ owned (λ _, []) [] r →
  omap bench_up l ≡ₚ omap bench_down l.
Proof.
  intros Hr [Hv|Hl]; [by destruct r as [|[]]|]. rewrite app_nil_r in Hl. rewrite Hl. destruct r; cbn; by rewrite app_nil_r.
Qed.

(** C40: in every world whose operations return, whatever fails and however tasks
    are scheduled, both programs end, and on every exit each proxy runtime they started was shut
    down or dropped, each client they opened closed (those of unfinished tasks
    too) and the temporary directory removed. A successful run of the benchmark
    reports exactly the rows of its table in their order, each latency after the
    request it belongs to, drops no runtime and stops both origins, and whenever
    it compares an origin's counter, the counter is the number of requests
    answered since that origin was started. A successful run of the
    characterization reports exactly its rows for the levels it was set to, up
    to the order in which clients finish, has exactly the expected number of
    requests answered and, with its own origin, finds that number in both
    counters. *)
Theorem benchmark_runs {W conn} `{CaCrypto, !BenchWorld W conn, Crypto, UrlHost} texts manifest seed profile env (w : W) :
  (let '(r, l, _) := runtime_benchmark texts manifest seed profile env w in
   r ≠ Err Stuck ∧ omap bench_up l ≡ₚ omap bench_down l ∧
   (r = Ok () →
    omap bench_mark_of l = benchmark_marks ∧
    compared 0 (omap bench_mark_of l) = [(expected_http1, expected_http1); (expected_http1, expected_http1);
                                         (expected_http2, expected_http2); (expected_http2, expected_http2)])) ∧
  (let '(r, l, _) := runtime_http1_characterization manifest seed profile env w in
   r ≠ Err Stuck ∧ omap bench_up l ≡ₚ omap bench_down l ∧
   (r = Ok () → ∃ h levels, characterization_settings env h levels ∧
     omap bench_mark_of l ≡ₚ
       characterization_marks h levels (bool_decide (env_var env (lit "BAFFLE_BENCH_ORIGIN_ADDR") = None)) ∧
     answers (omap bench_mark_of l) = N.to_nat (expected_characterization levels))).
Proof.
  split.
  - pose proof (unstuck_benchmark texts seed manifest profile env w) as Hu.
    pose proof (moves_benchmark texts seed manifest profile env w) as Hm.
    pose proof (reports_benchmark texts manifest seed profile env w) as Hr.
    destruct (runtime_benchmark _ _ _ _ _ w) as [[r l] w']. cbn in Hu, Hm, Hr. split_and!; [done|by apply balanced_end in Hm|].
    intros ->. destruct (Hr () eq_refl) as [-> _]. split; [done|apply benchmark_compared].
  - pose proof (unstuck_characterization seed manifest profile env w) as Hu.
    pose proof (moves_characterization seed manifest profile env w) as Hm.
    pose proof (reports_characterization manifest seed profile env w) as Hr.
    destruct (runtime_http1_characterization _ _ _ _ w) as [[r l] w']. cbn in Hu, Hm, Hr. split_and!; [done|by apply balanced_end in Hm|].
    intros ->. destruct (Hr () eq_refl) as (h & levels & Hs & Hl). exists h, levels. split_and!; [done..|].
    rewrite Hl. apply answers_characterization.
Qed.
