(* ===== verification/Examples.v ===== *)
(** The example programs: examples/client.rs, examples/cladding_socat.rs and
    crates/baffle-client/examples/create_session.rs.

    They run in the monad of [Traced]; the class [ExampleWorld] is what they see
    of the daemon, the proxy's socket, the bridge process, standard output and
    the signal. *)

From S2P Require Import Prelude RustStr RustPath BTree PolicyTypes UrlPath DnsName Identifiers SessionDoc SessionPolicy Secrets.
From S2P Require Import AsyncIo ConnectRequest ControlFrame ClientRequest Cli Numerals MeasureSessions RuntimeBench Traced.
From stdpp Require Import options.
Local Open Scope char_scope.

Inductive example_error :=
| CreateFailed (e : ClientError)
| PortNotAnInteger
| PortZero
| Unconnected
| TunnelIo (kind : io_kind)
| TunnelRefused (status : str)
| SocatUnavailable
| NoSignal
| ExamplePanicked
| ExampleStuck.

Class ExampleWorld (W conn child : Type) := {
  ew_exchange : str → Request → W → Prelude.result ClientError json * W;
  ew_drop_session : Session → W → W;
  ew_connect : str → W → option conn * W;
  ew_io : conn → W → (writer * input) * W;
  ew_after : conn → writer → W → W;
  ew_drop_conn : conn → W → W;
  ew_spawn : list str → W → option child * W;
  ew_kill : child → W → W;
  ew_wait : child → W → W;
  ew_println : str → W → bool * W;
  ew_ctrl_c : W → bool * W;
}.

Inductive example_event (conn child : Type) :=
| Held (s : Session) | Closed (s : Session)
| Connected (c : conn) | Disconnected (c : conn)
| Bridged (b : child) | Reaped (b : child)
| Said_line (line : str).
Arguments Held {conn child}. Arguments Closed {conn child}. Arguments Connected {conn child}.
Arguments Disconnected {conn child}. Arguments Bridged {conn child}. Arguments Reaped {conn child}.
Arguments Said_line {conn child}.

(** The policies the examples ask for. *)
Definition client_policy (host : str) (port : N) : SessionConfig :=
  let rule := host_rule_tunnel host in
  with_rule (mkHostRule (hr_host rule) (hr_mode rule) [port] (hr_paths rule) (hr_inject rule)) session_config_new.
Definition socat_policy (allowed_host : str) : SessionConfig := with_rule (host_rule_tunnel allowed_host) session_config_new.

Definition example_authority (host : str) (port : N) : str := host ++ ":" :: dec port.

(** The CONNECT of client.rs and the proxy's answer. *)
Definition open_tunnel (w : writer) (authority : str) (i : input) : Prelude.result example_error unit * writer :=
  let '(sent, w) := write_all (connect_text authority authority) w in
  if negb sent then (Err (TunnelIo ConnectionBroken), w) else
  match read_line i with
  | Err k => (Err (TunnelIo k), w)
  | Ok (status, i) =>
      if negb (starts_with (lit "HTTP/1.1 200") status) && negb (starts_with (lit "HTTP/1.0 200") status)
      then (Err (TunnelRefused status), w)
      else
        match header_loop (S (length (in_bytes i))) (λ _ _, ()) () i with
        | None => (Err ExampleStuck, w)
        | Some (Err k) => (Err (TunnelIo k), w)
        | Some (Ok _) => (Ok (), w)
        end
  end.

Section programs.
Context {W conn child : Type} `{!ExampleWorld W conn child}.
#[local] Abbreviation X := (traced W (example_event conn child) example_error).

(** The environment and the arguments, the program's name first. *)
Context (env : str → option str) (args : list str).

Definition control_socket : str := default default_control_socket (env (lit "BAFFLE_CONTROL_SOCKET")).

Definition println (line : str) : X unit :=
  printed ← ask (ew_println line);
  if printed : bool then event (Said_line line) else raise ExamplePanicked.

Definition port_variable (variable fallback : string) : Prelude.result example_error N :=
  port ← ok_or (parse_u16 (default (lit fallback) (env_var env (lit variable)))) PortNotAnInteger;
  if (port =? 0)%N then Err PortZero else Ok port.

(** [Client::create] with one request on the control socket. *)
Definition create_session (config : SessionConfig) : X Session :=
  match create_request_new config with
  | Err e => raise (CreateFailed e)
  | Ok request =>
      response ← ask (ew_exchange control_socket (RqCreate request));
      session ← of_result (map_err CreateFailed (client_create (λ _, response) config));
      event (Held session) ≫= λ _, mret session
  end.

Definition close_session (session : Session) : X unit := tell (ew_drop_session session) ≫= λ _, event (Closed session).
(** A session handle is closed at the end and dropped by an early return. *)
Definition with_session (config : SessionConfig) (body : Session → X unit) : X unit :=
  session ← create_session config; finally (close_session session) (body session).

(** ** client.rs *)

Definition drop_proxy (c : conn) : X unit := tell (ew_drop_conn c) ≫= λ _, event (Disconnected c).

Definition establish (c : conn) (authority : str) : X unit :=
  io ← ask (ew_io c);
  let '(r, w) := open_tunnel io.1 authority io.2 in
  tell (ew_after c w) ≫= λ _, of_result r.

Definition client_main : X unit :=
  let host := default (lit "example.com") (env_var env (lit "BAFFLE_EXAMPLE_HOST")) in
  port ← of_result (port_variable "BAFFLE_EXAMPLE_PORT" "443");
  with_session (client_policy host port) (λ session,
    connected ← ask (ew_connect (se_socket_path session));
    proxy ← of_result (ok_or connected Unconnected);
    event (Connected proxy) ≫= λ _,
    let authority := example_authority host port in
    finally (drop_proxy proxy) (
      establish proxy authority ≫= λ _,
      println (lit "Established an opaque CONNECT tunnel to " ++ authority ++ lit ".") ≫= λ _,
      println (lit "Use TLS for this HTTPS destination and verify its origin certificate before sending application data."))).

(** ** cladding_socat.rs *)

(** [args().nth(1)], which panics on an argument that is not Unicode. *)
Definition first_argument : Prelude.result example_error (option str) :=
  if forallb from_utf8 (take 2 args) then Ok (args !! 1%nat) else Err ExamplePanicked.

Definition socat_command (port : N) (socket : str) : list str :=
  [lit "socat"; lit "TCP-LISTEN:" ++ dec port ++ lit ",bind=127.0.0.1,reuseaddr,fork"; lit "UNIX-CONNECT:" ++ to_string_lossy socket].

(** [SocatBridge::drop] *)
Definition drop_bridge (b : child) : X unit :=
  tell (ew_kill b) ≫= λ _, tell (ew_wait b) ≫= λ _, event (Reaped b).

Definition wait_for_signal : X unit := got ← ask ew_ctrl_c; if got : bool then mret () else raise NoSignal.

Definition socat_main : X unit :=
  argument ← of_result first_argument;
  let allowed_host := default (lit "github.com") argument in
  port ← of_result (port_variable "BAFFLE_BRIDGE_PORT" "18080");
  with_session (socat_policy allowed_host) (λ session,
    spawned ← ask (ew_spawn (socat_command port (se_socket_path session)));
    bridge ← of_result (ok_or spawned SocatUnavailable);
    event (Bridged bridge) ≫= λ _,
    finally (drop_bridge bridge) (
      println (lit "Cladding proxy: http://127.0.0.1:" ++ dec port) ≫= λ _,
      println (lit "Allowed destination: " ++ allowed_host) ≫= λ _,
      println (lit "Press Ctrl-C to stop the bridge and release the Baffle session.") ≫= λ _,
      wait_for_signal)).

(** ** create_session.rs *)

Definition create_session_main : X unit :=
  with_session (with_rule (host_rule_tunnel (lit "example.com")) session_config_new) (λ session,
    println (lit "proxy " ++ se_id session ++ lit " uses " ++ to_string_lossy (se_socket_path session)) ≫= λ _,
    println (lit "Press Ctrl-C to release the session after its workload exits.") ≫= λ _,
    wait_for_signal).
End programs.

(** ** What they release *)

Definition example_up {conn child} (e : example_event conn child) : option (Session + conn + child) :=
  match e with Held s => Some (inl (inl s)) | Connected c => Some (inl (inr c)) | Bridged b => Some (inr b) | _ => None end.
Definition example_down {conn child} (e : example_event conn child) : option (Session + conn + child) :=
  match e with Closed s => Some (inl (inl s)) | Disconnected c => Some (inl (inr c)) | Reaped b => Some (inr b) | _ => None end.

Section releases.
Context {W conn child : Type} `{!ExampleWorld W conn child} (env : str → option str) (args : list str).
#[local] Abbreviation X := (traced W (example_event conn child) example_error).
#[local] Abbreviation neutral := (only (W:=W) (E:=example_error) (λ e : example_event conn child, example_up e = None ∧ example_down e = None)).
#[local] Abbreviation moves := (flow (W:=W) (E:=example_error) (example_up (conn:=conn) (child:=child)) example_down (λ _, false)).
#[local] Abbreviation ends := (avoids (W:=W) (Ev:=example_event conn child) ExampleStuck).

Lemma moves_acquire F (e : example_event conn child) h he :
  example_down e = None → example_up e = Some h → moves F (event e) (λ _, h :: F) he.
Proof using Type. intros Hd Hu. apply yields_event. right. cbn. by rewrite Hd, Hu. Qed.

Lemma neutral_println line : neutral (println line).
Proof using Type. unfold println. only_auto. Qed.
Lemma neutral_signal : neutral wait_for_signal.
Proof using Type. unfold wait_for_signal. only_auto. Qed.
Lemma neutral_establish c authority : neutral (establish c authority).
Proof using Type. unfold establish. only_auto. Qed.
#[local] Hint Resolve neutral_println neutral_signal neutral_establish : traced.

Lemma moves_with_session config (body : Session → X unit) :
  (∀ s F, moves F (body s) (λ _, F) F) → moves [] (with_session env config body) (λ _, []) [].
Proof using Type.
  intros Hb. unfold with_session. apply (flow_bind _ _ _ _ _ _ (λ s, [inl (inl s)])).
  - unfold create_session. destruct (create_request_new config) as [request|e]; [|apply flow_raise].
    apply (flow_bind _ _ _ _ _ _ (λ _, [])); [apply flow_only; only_auto|]. intros response.
    apply (flow_bind _ _ _ _ _ _ (λ _, [])); [apply flow_only; only_auto|]. intros s.
    apply (flow_bind _ _ _ _ _ _ (λ _, [inl (inl s)])); [by apply moves_acquire|].
    intros []. apply (flow_ret _ _ _ s (λ s, [inl (inl s)])).
  - intros s. eapply flow_finally; [apply Hb|]. by intros w.
Qed.

(** A resource used inside a session. *)
Lemma moves_inside {A B} F (acquire : X A) (need : A → X B) (e : B → example_event conn child) h (drop : B → X unit)
    (body : B → X unit) :
  neutral acquire → (∀ a, neutral (need a)) →
  (∀ b, example_down (e b) = None ∧ example_up (e b) = Some (h b)) →
  (∀ b F, cleans example_up example_down (h b :: F) (drop b) F) → (∀ b, neutral (body b)) →
  moves F (acquire ≫= λ a, need a ≫= λ b, event (e b) ≫= λ _, finally (drop b) (body b)) (λ _, F) F.
Proof using Type.
  intros Ha Hn He Hd Hb. apply (flow_bind _ _ _ _ _ _ (λ _, F)); [by apply flow_only|]. intros a.
  apply (flow_bind _ _ _ _ _ _ (λ _, F)); [by apply flow_only|]. intros b. destruct (He b) as [Hdown Hup].
  apply (flow_bind _ _ _ _ _ _ (λ _, h b :: F)); [by apply moves_acquire|]. intros [].
  eapply flow_finally; [by apply flow_only|apply Hd].
Qed.

Lemma moves_client_main : moves [] (client_main env) (λ _, []) [].
Proof using Type.
  unfold client_main. cbv zeta. apply (flow_bind _ _ _ _ _ _ (λ _, [])); [apply flow_only; only_auto|]. intros port.
  apply moves_with_session. intros s F. apply moves_inside with (h := λ c, inl (inr c)); [intros; only_auto..|done|by intros c F' w|].
  intros c. only_auto.
Qed.
Lemma moves_socat_main : moves [] (socat_main env args) (λ _, []) [].
Proof using Type.
  unfold socat_main. cbv zeta. apply (flow_bind _ _ _ _ _ _ (λ _, [])); [apply flow_only; only_auto|]. intros argument.
  apply (flow_bind _ _ _ _ _ _ (λ _, [])); [apply flow_only; only_auto|]. intros port.
  apply moves_with_session. intros s F. apply moves_inside with (h := inr); [intros; only_auto..|done|by intros b F' w|].
  intros b. only_auto.
Qed.
Lemma moves_create_session_main : moves [] (create_session_main env) (λ _, []) [].
Proof using Type.
  unfold create_session_main. apply moves_with_session. intros s F. apply flow_only. only_auto.
Qed.

Lemma open_tunnel_ends w authority i : (open_tunnel w authority i).1 ≠ Err ExampleStuck.
Proof using Type.
  unfold open_tunnel. destruct (write_all _ w) as [[] w1]; [|done]. cbn [negb].
  destruct (read_line i) as [[status i1]|e]; [|done]. destruct (negb _ && _); [done|].
  pose proof (header_loop_total (λ _ _, ()) (S (length (in_bytes i1))) () i1) as Ht.
  destruct (header_loop _ _ _ _) as [[[len i2]|e]|]; [done|done|]. exfalso. by apply Ht; [lia|].
Qed.
Lemma ends_establish c authority : ends (establish c authority).
Proof using Type.
  unfold establish. apply avoids_bind; [apply avoids_ask|]. intros io.
  pose proof (open_tunnel_ends io.1 authority io.2) as Ho. destruct (open_tunnel _ _ _) as [r w].
  apply avoids_bind; [apply avoids_tell|]. intros []. by apply avoids_of_result.
Qed.
Lemma ends_port variable fallback : ends (of_result (port_variable env variable fallback)).
Proof using Type.
  apply avoids_of_result. unfold port_variable. destruct (parse_u16 _) as [p|]; cbn; [|done]. by destruct (p =? 0)%N.
Qed.
Lemma ends_argument : ends (of_result (first_argument args)).
Proof using Type. apply avoids_of_result. unfold first_argument. by destruct (forallb _ _). Qed.
Lemma ends_created config r : ends (of_result (map_err CreateFailed (client_create (λ _, r) config))).
Proof using Type. apply avoids_of_result. by destruct (client_create _ config). Qed.
Lemma ends_ok_or {A} (o : option A) e : e ≠ ExampleStuck → ends (of_result (ok_or o e)).
Proof using Type. intros He. apply avoids_of_result. destruct o; cbn; congruence. Qed.
#[local] Hint Resolve ends_establish ends_port ends_argument ends_created ends_ok_or : traced.

(** The programs end in every environment, and on every exit the session's
    handle is closed, the connection dropped, and the bridge killed and waited
    for. *)
Lemma examples_release w m :
  m ∈ [client_main env; socat_main env args; create_session_main env] →
  (m w).1.1 ≠ Err ExampleStuck ∧ omap example_up (m w).1.2 ≡ₚ omap example_down (m w).1.2.
Proof using Type.
  intros Hm. assert (ends m ∧ moves [] m (λ _, []) []) as [He Hf].
  { rewrite !elem_of_cons, elem_of_nil in Hm. destruct Hm as [->|[->|[->|[]]]]; split;
      [|apply moves_client_main| |apply moves_socat_main| |apply moves_create_session_main];
      unfold client_main, socat_main, create_session_main, with_session, create_session, close_session, drop_proxy, drop_bridge,
        println, wait_for_signal; cbv zeta; avoids_auto. }
  split; [apply He|]. destruct (Hf w) as [Hv|Hl].
  - by destruct ((m w).1.1).
  - rewrite app_nil_r in Hl. rewrite Hl. destruct ((m w).1.1); cbn; by rewrite app_nil_r.
Qed.
End releases.

(** ** What they may reach *)

Section policies.
Context `{UrlHost, !UrlHostLaws}.

(** The client example's session is a valid policy that the daemon reads as it
    was meant; it allows exactly the destination the example then connects to,
    as a tunnel, and the proxy's answer to that CONNECT is accepted. *)
Lemma client_policy_exact `{Crypto} host port seed :
  normalize_dns_name host = Ok host → (0 < port ≤ 65535)%N →
  let sc := client_policy host port in
  let authority := example_authority host port in
  (∃ request, create_request_new sc = Ok request ∧ validate_session_document (raw_of_wire (cq_session request)) = Ok sc) ∧
  (∀ d mode, allows sc d mode ↔ mode = Tunnel ∧ d = mkDestination host port) ∧
  authorize_connect_authority (compile sc seed) authority [authority] = Ok (Tunnel, mkDestination host port) ∧
  ∀ w rest e, reliable w → (open_tunnel w authority (mkInput (response_200 ++ rest) e)).1 = Ok ().
Proof using Type*.
  intros Hh Hp sc authority.
  assert (session_wf sc) as Hwf.
  { split; cbn; [|apply NoDup_singleton|done|intros n m; by rewrite lookup_empty].
    apply Forall_singleton. split; cbn; [done|done|apply NoDup_singleton|set_solver by lia|done|done|intros i j p q _ Hi; by rewrite lookup_nil in Hi|done|constructor]. }
  assert (∀ d mode, allows sc d mode ↔ mode = Tunnel ∧ d = mkDestination host port) as Ha.
  { intros d mode. split; [|intros [-> ->]; by apply (allows_rule sc (mkHostRule host Tunnel [port] [] [])); [left|left]].
    intros [rule p Hr Hpp|host' Hu Hn]; [|done]. cbn in Hr. apply list_elem_of_singleton in Hr as ->. cbn in Hpp |- *.
    by apply list_elem_of_singleton in Hpp as ->. }
  assert (names authority (mkDestination host port)) as Hn.
  { apply names_port; [done|apply parse_uint_dec; lia|lia]. }
  split_and!; [|done| |].
  - eexists. split; [reflexivity|]. by rewrite (validate_wire_id sc) by done.
  - apply authorize_connect_Ok; [done|]. split_and!; [done|by right; eexists|by apply Ha].
  - intros w rest e Hw. unfold open_tunnel.
    destruct (write_all_reliable (connect_text authority authority) w Hw) as (plan & -> & _). cbn [negb].
    change (response_200 ++ rest) with ((lit "HTTP/1.1 200 Connection Established" ++ CRLF) ++ concat [] ++ CRLF ++ rest).
    rewrite read_line_text by (by apply text_line_ascii; [set_solver|]).
    assert (starts_with (lit "HTTP/1.1 200") (lit "HTTP/1.1 200 Connection Established" ++ CRLF) = true) as -> by by vm_compute.
    cbn [negb andb]. by rewrite header_loop_lines; [|done|cbn; lia].
Qed.
End policies.
